(* ===== verification/_CoqProject ===== *)
-Q . S2P
Prelude.v
Hex.v
Base64.v
Json.v
Base58.v
Hamming.v
Bloom.v
Sha2.v
Keccak.v
Multihash.v
Opts.v
DsKey.v
Query.v
Results.v
Datastore.v
Namespace.v
BlockKey.v
Blocks.v
GoList.v
Lru.v
BlockList.v
Blockstore.v
WriteCache.v
BlockSet.v
Worker.v
BlockService.v
Process.v
ProcessFacts.v
ProcessProps.v
Mount.v
Tiered.v
Timecache.v
Sync.v
Coalesce.v
Context.v
ContextFacts.v
ContextProps.v
Bridge.v
Signals.v
Periodic.v
Md5.v
Uuid.v
Flatfs.v
Fs.v
Measure.v
Leveldb.v
Stack.v
Durable.v
System.v
Gotimer.v
Gocheck.v
Checkers.v
Elastigo.v
Goreport.v
Gomain.v
Golog.v
Workerbench.v
Goprinter.v
Gobench.v
