(* ===== verification/Prelude.v ===== *)
(** * Verification of go-blocks

    go-blocks keeps content-addressed blocks: a block is a byte slice, named by the
    multihash of its bytes. This library models the repository, with the vendored
    packages that carry its logic, and proves what makes each part correct. Paths
    below are relative to [src/]; [Godeps/...] stands for
    [Godeps/_workspace/src/github.com] or [golang.org].

    ** The program

    A [Block] ([blocks.go]) is made by hashing data ([hash/hash.go], through
    [go-multihash], [sha3] and the standard library's digests). The [blockstore]
    keeps blocks in a datastore: it turns the key into a datastore key
    ([key/key.go], [go-datastore/key.go]), wraps the datastore in the namespace
    [/blocks] ([namespace], [keytransform]), and lists its keys with a [query]. The
    write cache puts an LRU cache ([golang-lru]) in front of it. The [blockservice]
    joins a blockstore and an exchange: a block that is added is stored and handed
    to a [worker], which announces it in the background through a queue and a rate
    limiter; a block that is wanted is read locally or fetched. The block sets
    ([set]) mirror a set of keys in a datastore, with bloom filters ([bloom]). The
    datastore library gives stores that are combined by mounting, tiering, caching,
    locking, coalescing and measuring, two on the file system ([flatfs], [fs]) and one
    on a database ([leveldb]). Goroutines are tied together by process trees
    ([goprocess]) and contexts ([net/context]). A command prints and checks
    multihashes ([go-multihash/multihash]), and [check.v1] runs test suites.

    ** Files

    Bytes and numbers.
    - [Prelude]: bytes, results ([res]: [Ok], [Err], [Panic]), machine words,
      positional notation, the order of map iteration ([GoRange]), list lemmas, the
      hint databases [machine] and [lengths].
    - [Hex], [Base64], [Json]: [encoding/hex], [encoding/base64], and [encoding/json]
      for strings. [Base58]: [go-base58/base58.go].
    - [Hamming]: [steakknife/hamming/hamming.go]. [Bloom]: [bloom/filter.go] and
      [mtchavez/jenkins/jenkins.go] (Module [Jenkins]).
    - [Sha2], [Md5]: the digests of the standard library. [Keccak]: [x/crypto/sha3].
    - [Multihash]: [go-multihash] ([multihash.go], [sum.go], [io.go]). [Opts]: its
      options and its command ([opts], [multihash/main.go]).
    - [Uuid]: [satori/go.uuid/uuid.go], and [RandomKey] of [go-datastore/key.go].

    Datastores.
    - [DsKey]: [go-datastore/key.go]. [Query]: [go-datastore/query]. [Results]: its
      result builders, goroutines that feed a channel.
    - [Datastore]: the interface (class [Datastore]), its contract
      ([DatastoreSpec], [QuerySpec]: a store is a map from keys to values), what the
      blocks ask of a store ([ByteStoreSpec]: a map from clean keys to byte slices, which
      [DatastoreSpec], [Namespace], [Flatfs] and [Leveldb] discharge), and a Module per
      store: [MapDatastore], [NullDatastore], [LogDatastore], [Delayed],
      [Callback], [PanicDatastore].
    - [Namespace]: [keytransform] and [namespace] (Modules [Keytransform],
      [Namespace]). [Mount], [Tiered], [Timecache]: the packages of those names.
    - [Sync]: [sync/sync.go] as goroutines on a lock, and the wrappers of
      [thirdparty/datastore2]. [Coalesce]: [coalesce/coalesce.go].
    - [Flatfs]: [flatfs], over a file system in which every call may fail. [Fs]: [fs],
      over directories of any depth, likewise. [Leveldb]: [leveldb], over the
      interface of the driver. [Elastigo]: [elastigo], over the interface of the
      client. [Measure]: [measure], over any store.
    - [GoList]: [container/list]. [Lru]: [golang-lru/lru.go] and [lru/datastore.go].

    Blocks.
    - [BlockKey]: [key]. [Blocks]: [blocks.go], [hash], [blocksutil].
    - [Blockstore]: [blockstore/blockstore.go] with its contract [BlockstoreSpec],
      which [WriteCache] ([blockstore/write_cache.go]) assumes of its inner store
      and promises itself.
    - [BlockSet]: [set]. [BlockList], [Worker]: [blockservice/worker/worker.go].
      [BlockService]: [blockservice/blockservice.go] and the exchanges. [Workerbench]:
      the search of [worker/bench/main.go].
    - [Stack]: the constructors composed, from a store of bytes through the blockstore
      and the write cache to the service, against one specification ([spec]: a map of
      blocks and what the worker was sent). [Durable]: the same stack on [Flatfs], whose
      calls may fail and which may lose power. [System]: service, worker and clients
      interleaved.

    Goroutines.
    - [Process], [ProcessFacts], [ProcessProps]: [goprocess] ([impl-mutex.go],
      [link.go], [goprocess.go]); the model, its invariants, the theorems.
    - [Context], [ContextFacts], [ContextProps]: [net/context/context.go], likewise.
    - [Bridge]: [goprocess/context] and [thirdparty/waitable], on both machines.
      [Signals]: [GoChild] and [WithSignals]. [Periodic]: [goprocess/periodic].

    Tests.
    - [Gotimer], [Gocheck], [Checkers]: [check.v1]: the timer and the arithmetic of
      benchmarks ([benchmark.go]), the runner, its tracker and its results
      ([check.go], [run.go], [helpers.go]), the checkers ([checkers.go]). [Goreport]:
      what a run prints ([check.go]). [Gomain]: the registry and [TestingT] ([run.go]).
      [Golog]: the log of a call, the names of functions and temporary directories
      ([check.go], [helpers.go]). [Goprinter]: the source lines of a failed check
      ([printer.go]). [Gobench]: the report of a benchmark ([benchmark.go]).

    ** How code is modelled

    A Go function is a function; a method with a receiver that changes takes the
    receiver's state and returns it with the result. An operation that may fail
    returns a [res]: an index out of range, a nil interface call or a [panic] is
    [Panic]. Integers of a fixed width are numbers with their wrap-around written
    out. Maps are [gmap]; the order of [range] over a map, of [Readdir] and of the
    end of goroutines is a parameter ([GoRange], [GoSched]), quantified in every
    theorem. Channels that one goroutine fills and another reads to the end are
    lists. Code where goroutines interact ([Worker], [Process], [Sync], [Coalesce])
    is a step relation, one step per critical section or channel operation, in
    every interleaving. The clock, random bytes, the exchange, the rename of
    [go-os-rename], the driver of leveldb and the client of elastic search, which are
    not in the repository, are parameters. A suite of tests is known by the calls it makes on its [C].

    ** What is proved

    - The whole: the stack of service, cache, blockstore and store answers every sequence
      of calls as a map from keys to blocks does ([stack_refines]), over the file store
      and over leveldb too ([flatfs_stack_refines], [leveldb_stack_refines]); on
      the disk, through any failures of its calls and a crash at any of them, a block
      that [AddBlock] stored stays, and no key ever gives wrong data
      ([AddBlock_survives], [crash_safe]);
      the answers that clients get while the worker runs are those of one order of their
      calls ([system_linearizable]), and no client waits for ever ([system_progress]); but
      a block deleted before its announcement returns ([deleted_block_returns]).
    - Integrity and function of the block layers: what is stored under a key is the
      data of that hash ([Blockstore_integrity], [Blockstore_Put_Get],
      [AddBlock_GetBlock], [GetBlocks_offline], [GetBlock_sources],
      [AllKeysChan_lists]).
    - Refinement: stores and caches cannot be told from a map, a recency list or a
      queue by any sequence of calls ([Datastore_refines_map],
      [WriteCached_transparent], [Cache_refines_recency], [BlockList_fifo],
      [Mount_refines_map], [tiered_refines_map], [timecache_expires],
      [flatfs_refines_map], [fs_refines_map], [leveldb_refines_map]); a leveldb query
      is a naive one whose limit comes first ([leveldb_query_naive]); a service whose
      answers may be lost is a map with uncertain writes ([elastigo_refines_map],
      [one_client]); goroutines on a
      locked store are linearizable
      ([MutexDatastore_linearizable]).
    - Crash safety: [Put_atomic] of the flat file store, at every system call and
      whichever calls fail.
    - Concurrency: the worker loses no block but in the one branch that drops it,
      drains, and keeps its rate ([worker_conserves], [worker_drains],
      [worker_rate_limit]); teardown runs exactly once and in order, closing
      completes, the library's goroutines terminate ([teardown_exactly_once],
      [teardown_order], [closing_completes], [internal_terminates]); cancelation
      reaches every descendant ([cancel_reaches], [context_tree_invariant]);
      coalesced calls share one call and never wait for ever; query results arrive in
      order and their goroutines end ([results_deliver], [results_finish]); what ends
      a process or a context ends the one it is bridged to ([bridges_carry],
      [signals_close]); loops keep their interval ([periodic_rate]).
    - Encodings: round trips of multihashes, base58, datastore keys, JSON keys, file
      names, UUIDs and the text forms of the command, with the inputs on which they
      fail; SHA-3's unrolled permutation equals its textbook form; streaming equals
      one-shot hashing; the command accepts the checksum it prints ([check_printed]).
    - Source lines: a log shows a statement of the file that covers the line, or dots when
      none does ([logCode_shows]); logs only grow, and a panic shows every frame that is
      not passed over ([logs_append]); directories of a run are new and go at its end
      ([MkDir_removeAll]); the printed configuration is the first of the quickest
      ([main_best]); the columns of a report line up ([ones_digit_lines_up]).
    - Tests: every test of a suite is accounted for exactly once and the tracker loses
      none ([Run_accounts], [tracker_complete]); a suite passes exactly when nothing
      of it went wrong ([Run_Passed]), and a quiet run then prints nothing
      ([quiet_run]); benchmarks end ([bench_ends]); checkers never
      panic and [Not] excludes its checker ([Check_total], [Not_excludes]).
    - Defects, each as a theorem about the model of the code as it is: colliding
      block keys, a cached failure, a dropped block, an ignored limit, stale
      coalesced reads, hidden file names, panics on truncated UUIDs, torn files, lost
      signals, a bad filter that passes, and others.

    ** Bounds and fuel

    [to_digits_le] has the bits of its argument as fuel, enough since each division by
    the radix removes at least one. The walks of [Context] have the number of
    contexts as fuel; a parent is older than its children, so that no walk is
    longer ([parentCancel_fuel], [Deadline_fuel], [Value_fuel],
    [cancel_false_killed]). All other recursion is structural. Termination of the
    goroutines of [Process] and [Sync] is proved by measures on the machine, not by
    fuel. The fourteen bits of a UUID's clock sequence bound [NewV1_unique]. The walk
    of [Fs] has the depth of the tree as fuel. A benchmark has 28 rounds, enough
    because every round has at least the next of the numbers 1, 2, 5, 10, ... of
    iterations, up to 10^9 ([bench_ends]).

    ** Not modelled

    [BenchmarkWithConfig], which only drives [testing.B] around a worker; [mock.go],
    which is commented out; of [check.v1], the parsing of flags, the file mode and
    [WorkDir] of temporary directories that are kept; the parent of another package in
    [propagateCancel]; the Unicode and formatting behaviour of [fmt], whose texts are
    opaque error messages; floating point numbers. *)

From Stdlib Require Export ZArith Lia.
From Stdlib Require Export Strings.Byte.
From stdpp Require Export base tactics list numbers countable gmap strings.

(** ** Bytes and Go strings

    Go's [string] and [[]byte] are both byte sequences; the code converts
    between them freely, so both are [list byte] here. *)

Abbreviation bytes := (list byte).

#[global] Instance byte_eq_dec : EqDecision byte := Byte.byte_eq_dec.

Definition Z_of_byte (b : byte) : Z := Z.of_N (Byte.to_N b).

(** Go's conversion [byte(x)]: the low eight bits. *)
Definition byte_of_Z (z : Z) : byte :=
  default x00 (Byte.of_N (Z.to_N (z mod 256))).

Definition str (s : string) : bytes := String.list_byte_of_string s.

Lemma Z_of_byte_range b : (0 <= Z_of_byte b < 256)%Z.
Proof. unfold Z_of_byte. pose proof (Byte.to_N_bounded b). lia. Qed.

Lemma byte_of_Z_of_byte b : byte_of_Z (Z_of_byte b) = b.
Proof. by destruct b. Qed.

Lemma Z_of_byte_of_Z z : Z_of_byte (byte_of_Z z) = (z mod 256)%Z.
Proof.
  unfold Z_of_byte, byte_of_Z.
  pose proof (Z.mod_pos_bound z 256 ltac:(lia)) as Hz.
  destruct (Byte.of_N (Z.to_N (z mod 256))) as [b|] eqn:Hb.
  - apply Byte.to_of_N in Hb. simpl. lia.
  - apply Byte.of_N_None_iff in Hb. lia.
Qed.

Lemma Z_of_byte_of_Z_small z : (0 <= z < 256)%Z -> Z_of_byte (byte_of_Z z) = z.
Proof. intros H. rewrite Z_of_byte_of_Z. by apply Z.mod_small. Qed.

#[global] Instance Z_of_byte_inj : Inj (=) (=) Z_of_byte.
Proof.
  intros a b H. by rewrite <- (byte_of_Z_of_byte a), H, byte_of_Z_of_byte.
Qed.

#[global] Program Instance byte_countable : Countable byte :=
  inj_countable Byte.to_N Byte.of_N _.
Next Obligation. intros b. apply Byte.of_to_N. Qed.

#[global] Instance byte_inhabited : Inhabited byte := populate x00.

(** ** Results of Go calls

    A Go function that returns [(v, err)] with a meaningful [v] only when
    [err == nil] is a [res]: [Ok v], [Err e], or [Panic] when the call
    panics (an index out of range, a division by zero, a [panic(...)]). *)

(** The [error] values of the modelled packages. The sentinels are package
    variables compared with [==]; [errors_New] stands for the errors built on
    the spot, which no code compares. *)
Inductive error :=
  | DsErrNotFound          (* datastore.ErrNotFound *)
  | DsErrInvalidType       (* datastore.ErrInvalidType *)
  | BsErrNotFound          (* blockstore.ErrNotFound *)
  | ValueTypeMismatch      (* blockstore.ValueTypeMismatch *)
  | SvcErrNotFound         (* blockservice.ErrNotFound *)
  | ErrUnknownCode         (* multihash.ErrUnknownCode *)
  | ErrTooShort            (* multihash.ErrTooShort *)
  | ErrTooLong             (* multihash.ErrTooLong *)
  | ErrLenNotSupported     (* multihash.ErrLenNotSupported *)
  | ErrInconsistentLen     (* multihash.ErrInconsistentLen{dm} *)
  | ErrSumNotSupported     (* multihash.ErrSumNotSupported *)
  | ErrNoMount             (* mount.ErrNoMount *)
  | Canceled               (* context.Canceled *)
  | DeadlineExceeded       (* context.DeadlineExceeded *)
  | IoEOF                  (* io.EOF *)
  | IoErrUnexpectedEOF     (* io.ErrUnexpectedEOF *)
  | errors_New (msg : string).

#[global] Instance error_eq_dec : EqDecision error.
Proof. solve_decision. Defined.

Inductive res (A : Type) :=
  | Ok (a : A)
  | Err (e : error)
  | Panic.
Arguments Ok {A} _.
Arguments Err {A} _.
Arguments Panic {A}.

#[global] Instance res_ret : MRet res := fun A a => Ok a.
#[global] Instance res_bind : MBind res := fun A B f m =>
  match m with Ok a => f a | Err e => Err e | Panic => Panic end.
#[global] Instance res_fmap : FMap res := fun A B f m =>
  match m with Ok a => Ok (f a) | Err e => Err e | Panic => Panic end.

Definition is_ok {A} (r : res A) : bool :=
  match r with Ok _ => true | _ => false end.

Lemma bind_Ok {A B} (m : res A) (f : A -> res B) b :
  (m ≫= f) = Ok b <-> exists a, m = Ok a /\ f a = Ok b.
Proof. destruct m; simpl; naive_solver. Qed.

(** ** Machine integers *)

(** Go's [uint32] arithmetic keeps the low 32 bits, [uint64] the low 64. *)
Definition u32 (z : Z) : Z := (z mod 2 ^ 32)%Z.
Definition u64 (z : Z) : Z := (z mod 2 ^ 64)%Z.

Lemma u32_range z : (0 <= u32 z < 2 ^ 32)%Z.
Proof. apply Z.mod_pos_bound. lia. Qed.

Lemma u64_range z : (0 <= u64 z < 2 ^ 64)%Z.
Proof. apply Z.mod_pos_bound. lia. Qed.

Lemma u32_small z : (0 <= z < 2 ^ 32)%Z -> u32 z = z.
Proof. apply Z.mod_small. Qed.

(** ** Automation

    [machine] bounds and simplifies bytes and words, [lengths] computes the lengths
    of slices; the files add the lemmas of their own operations. *)
Create HintDb machine.
Create Rewrite HintDb machine.
#[export] Hint Resolve Z_of_byte_range u32_range u64_range : machine.
#[export] Hint Rewrite byte_of_Z_of_byte Z_of_byte_of_Z : machine.
Create Rewrite HintDb lengths.
#[export] Hint Rewrite @length_app @length_take @length_drop @length_replicate : lengths.

(** Arithmetic on the lengths of slices. *)
Ltac lens := autorewrite with lengths; cbn [length]; lia.

(** A closed decidable statement, by running its decision procedure. *)
Ltac decide_compute := apply (bool_decide_unpack _); vm_compute; exact I.

(** ** Positional notation

    [math/big] reads and writes numbers big-endian; base58 does the same with
    radix 58. Both are the evaluation of a digit list and its inverse. *)
Section Positional.
Variable B : Z.

(** The value of a big-endian digit list. *)
Definition of_digits (l : list Z) : Z :=
  fold_left (fun acc d => acc * B + d)%Z l 0%Z.

(** The little-endian digits of [n], no digit for [0]; the fuel bounds the
    number of digits. *)
Fixpoint digits_le (fuel : nat) (n : Z) : list Z :=
  match fuel with
  | O => []
  | S fuel =>
      if (n <=? 0)%Z then [] else (n mod B)%Z :: digits_le fuel (n / B)%Z
  end.

(** The value of a little-endian digit list. *)
Fixpoint of_digits_le (l : list Z) : Z :=
  match l with [] => 0%Z | d :: l => (d + B * of_digits_le l)%Z end.

Definition valid_digits (l : list Z) : Prop := Forall (fun d => 0 <= d < B)%Z l.

Lemma of_digits_acc l acc :
  fold_left (fun a d => a * B + d)%Z l acc
  = (acc * B ^ Z.of_nat (length l) + of_digits l)%Z.
Proof.
  unfold of_digits. revert acc.
  induction l as [|d l IH]; intros acc; cbn [fold_left length]; [lia|].
  rewrite (IH (acc * B + d)%Z), (IH (0 * B + d)%Z), Nat2Z.inj_succ, Z.pow_succ_r; lia.
Qed.

Lemma of_digits_cons d l :
  of_digits (d :: l) = (d * B ^ Z.of_nat (length l) + of_digits l)%Z.
Proof.
  unfold of_digits at 1. cbn [fold_left]. rewrite of_digits_acc. lia.
Qed.

Lemma of_digits_app l1 l2 :
  of_digits (l1 ++ l2) = (of_digits l1 * B ^ Z.of_nat (length l2) + of_digits l2)%Z.
Proof. unfold of_digits at 1. rewrite fold_left_app. apply of_digits_acc. Qed.

Lemma of_digits_rev l : of_digits (rev l) = of_digits_le l.
Proof.
  induction l as [|d l IH]; [done|]. simpl. rewrite of_digits_app, IH.
  unfold of_digits. simpl. lia.
Qed.

Lemma of_digits_zeros n l : of_digits (replicate n 0%Z ++ l) = of_digits l.
Proof. induction n as [|n IH]; [done|]. simpl. rewrite of_digits_cons, IH. lia. Qed.

(** The digits of [n], with fuel enough for every radix of at least 2. *)
Definition to_digits_le (n : Z) : list Z :=
  digits_le (Z.to_nat (Z.log2 n + 1)) n.

Context (HB : (2 <= B)%Z).

Lemma digits_le_valid fuel n : valid_digits (digits_le fuel n).
Proof.
  revert n. induction fuel as [|fuel IH]; intros n; simpl; [constructor|].
  destruct (n <=? 0)%Z; constructor; [|apply IH].
  apply Z.mod_pos_bound. lia.
Qed.

Lemma of_digits_le_digits fuel n :
  (0 <= n < B ^ Z.of_nat fuel)%Z -> of_digits_le (digits_le fuel n) = n.
Proof.
  revert n. induction fuel as [|fuel IH]; intros n Hn; simpl; [lia|].
  rewrite Nat2Z.inj_succ, Z.pow_succ_r in Hn by lia.
  destruct (Z.leb_spec n 0); simpl; [lia|].
  rewrite IH; [pose proof (Z.div_mod n B); lia|].
  split; [apply Z.div_pos; lia|]. apply Z.div_lt_upper_bound; lia.
Qed.

(** The most significant digit is never [0]. *)
Lemma digits_le_last fuel n l d :
  (0 <= n < B ^ Z.of_nat fuel)%Z -> digits_le fuel n = l ++ [d] -> d <> 0%Z.
Proof.
  revert n l. induction fuel as [|fuel IH]; intros n l Hn; simpl.
  - by destruct l.
  - rewrite Nat2Z.inj_succ, Z.pow_succ_r in Hn by lia.
    assert (Hq : (0 <= n / B < B ^ Z.of_nat fuel)%Z).
    { split; [apply Z.div_pos; lia|]. apply Z.div_lt_upper_bound; lia. }
    destruct (Z.leb_spec n 0); [by destruct l|].
    destruct l as [|d' l]; simpl; intros [= Hd Hl].
    + intros ->.
      assert (Hn0 : (n / B = 0)%Z).
      { rewrite <- (of_digits_le_digits fuel (n / B)), Hl by done. done. }
      pose proof (Z.div_mod n B). lia.
    + by apply (IH _ _ Hq Hl).
Qed.

Lemma of_digits_le_nonneg l : valid_digits l -> (0 <= of_digits_le l)%Z.
Proof. induction 1; simpl; nia. Qed.

Lemma of_digits_le_bound l :
  valid_digits l -> (of_digits_le l < B ^ Z.of_nat (length l))%Z.
Proof.
  induction 1 as [|d l Hd Hl IH]; simpl length; cbn [of_digits_le]; [lia|].
  rewrite Nat2Z.inj_succ, Z.pow_succ_r; nia.
Qed.

(** Reading a digit list back gives the list, when its most significant
    digit is not [0]. *)
Lemma digits_le_of_digits_le fuel l :
  valid_digits l -> (last l <> Some 0%Z) -> length l <= fuel ->
  digits_le fuel (of_digits_le l) = l.
Proof.
  intros Hl. revert fuel. induction Hl as [|d l Hd Hl IH]; intros fuel Hlast Hf.
  { by destruct fuel. }
  destruct fuel as [|fuel]; [simpl in Hf; lia|].
  pose proof (of_digits_le_nonneg l Hl) as Hnn. cbn [digits_le of_digits_le].
  assert (Hmod : ((d + B * of_digits_le l) mod B = d)%Z).
  { rewrite (Z.mul_comm B), Z.mod_add by lia. by apply Z.mod_small. }
  assert (Hdiv : ((d + B * of_digits_le l) / B = of_digits_le l)%Z).
  { rewrite (Z.mul_comm B), Z.div_add by lia. rewrite Z.div_small; lia. }
  rewrite Hmod, Hdiv. destruct (Z.leb_spec (d + B * of_digits_le l) 0) as [H0|H0].
  - exfalso. destruct l as [|d' l].
    + simpl in *. apply Hlast. f_equal. lia.
    + assert (Hz : of_digits_le (d' :: l) = 0%Z) by nia.
      specialize (IH (length (d' :: l))). rewrite Hz in IH. simpl in IH.
      discriminate IH; [|done]. by rewrite last_cons_cons in Hlast.
  - f_equal. apply IH; [|simpl in Hf; lia]. destruct l; [done|].
    by rewrite last_cons_cons in Hlast.
Qed.

Lemma to_digits_fuel n :
  (0 <= n)%Z -> (0 <= n < B ^ Z.of_nat (Z.to_nat (Z.log2 n + 1)))%Z.
Proof.
  intros Hn. pose proof (Z.log2_nonneg n). rewrite Z2Nat.id by lia.
  destruct (decide (n = 0%Z)) as [->|]; [simpl; lia|].
  pose proof (Z.log2_spec n ltac:(lia)) as [_ Hlog]. split; [lia|].
  eapply Z.lt_le_trans; [apply Hlog|]. apply Z.pow_le_mono_l. lia.
Qed.

Lemma of_digits_le_to_digits n :
  (0 <= n)%Z -> of_digits_le (to_digits_le n) = n.
Proof. intros Hn. by apply of_digits_le_digits, to_digits_fuel. Qed.

Lemma digits_le_fuel f1 f2 n :
  (0 <= n < B ^ Z.of_nat f1)%Z -> f1 <= f2 -> digits_le f2 n = digits_le f1 n.
Proof.
  revert f2 n. induction f1 as [|f1 IH]; intros f2 n Hn Hf.
  - destruct f2; [done|]. simpl in *. destruct (Z.leb_spec n 0); [done|lia].
  - destruct f2 as [|f2]; [lia|]. simpl.
    rewrite Nat2Z.inj_succ, Z.pow_succ_r in Hn by lia.
    destruct (n <=? 0)%Z; [done|]. f_equal. apply IH; [|lia].
    split; [apply Z.div_pos; lia|]. apply Z.div_lt_upper_bound; lia.
Qed.

Lemma to_digits_of_digits_le l :
  valid_digits l -> last l <> Some 0%Z -> to_digits_le (of_digits_le l) = l.
Proof.
  intros Hl Hlast. pose proof (of_digits_le_nonneg l Hl) as Hn.
  unfold to_digits_le. set (f := Z.to_nat _).
  rewrite <- (digits_le_fuel f (f + length l)) by (apply to_digits_fuel || lia; done).
  apply digits_le_of_digits_le; [done..|lia].
Qed.
End Positional.

(** ** Invariants of folds *)
Lemma fold_left_inv {A B} (P : A -> Prop) (f : A -> B -> A) l a :
  (forall a x, x ∈ l -> P a -> P (f a x)) -> P a -> P (fold_left f l a).
Proof.
  revert a. induction l as [|x l IH]; intros a Hf Ha; [done|].
  apply IH; [|apply Hf; [left|done]]. intros b y Hy. apply Hf. by right.
Qed.

(** ** Leading elements of a list *)

(** How many copies of [c] a list starts with. *)
Fixpoint leading {A} `{EqDecision A} (c : A) (l : list A) : nat :=
  match l with
  | [] => 0
  | x :: l => if decide (x = c) then S (leading c l) else 0
  end.

Section Leading.
Context {A : Type} `{EqDecision A}.
Implicit Types (c : A) (l : list A).

Lemma leading_split c l :
  exists l', l = replicate (leading c l) c ++ l' /\ head l' <> Some c.
Proof.
  induction l as [|x l (l' & Hl & Hh)]; simpl; [by exists []|].
  destruct (decide (x = c)) as [->|Hne].
  - exists l'. simpl. by rewrite <- Hl.
  - exists (x :: l). split; [done|]. simpl. congruence.
Qed.

Lemma leading_replicate c n l :
  head l <> Some c -> leading c (replicate n c ++ l) = n.
Proof.
  intros Hh. induction n as [|n IH]; simpl.
  - destruct l as [|x l]; simpl in *; [done|]. rewrite decide_False; congruence.
  - by rewrite decide_True, IH.
Qed.
End Leading.

Lemma last_rev {A} (l : list A) : last (rev l) = head l.
Proof. destruct l as [|x l]; [done|]. simpl. by rewrite last_snoc. Qed.

Lemma head_rev {A} (l : list A) : head (rev l) = last l.
Proof. by rewrite <- (last_rev (rev l)), rev_involutive. Qed.

Lemma head_map {A B} (f : A -> B) l : head (map f l) = f <$> head l.
Proof. by destruct l. Qed.

Lemma rev_replicate {A} n (x : A) : rev (replicate n x) = replicate n x.
Proof.
  induction n as [|n IH]; [done|]. simpl. by rewrite IH, <- replicate_cons_app.
Qed.

Lemma map_replicate {A B} (f : A -> B) n x : map f (replicate n x) = replicate n (f x).
Proof. apply fmap_replicate. Qed.

Lemma of_digits_le_zeros B l n : of_digits_le B (l ++ replicate n 0%Z) = of_digits_le B l.
Proof.
  induction l as [|d l IH]; simpl; [|by rewrite IH].
  induction n as [|n IH]; simpl; [done|]. rewrite IH. lia.
Qed.

Lemma valid_digits_bytes (b : bytes) : valid_digits 256 (map Z_of_byte b).
Proof. apply Forall_fmap, Forall_true. intros c. apply Z_of_byte_range. Qed.

Lemma map_byte_of_Z_of_byte (b : bytes) : map byte_of_Z (map Z_of_byte b) = b.
Proof.
  rewrite map_map. erewrite map_ext; [apply map_id|]. apply byte_of_Z_of_byte.
Qed.

Lemma map_Z_of_byte_of_Z l :
  valid_digits 256 l -> map Z_of_byte (map byte_of_Z l) = l.
Proof.
  induction 1 as [|d l Hd Hl IH]; [done|]. simpl. by rewrite IH, Z_of_byte_of_Z_small.
Qed.

(** ** Go's map iteration

    [range] over a map visits its keys in an order that the language leaves open:
    some permutation of them. A theorem about code that ranges over a map holds
    for every such order. *)
Class GoRange (K : Type) `{Countable K} := {
  go_range : gset K -> list K;
  go_range_perm s : go_range s ≡ₚ elements s;
}.

(** An order to evaluate examples with. *)
Definition elements_range (K : Type) `{Countable K} : GoRange K :=
  {| go_range := elements; go_range_perm := fun s => reflexivity _ |}.

Section GoRange.
Context {K V : Type} `{GoRange K}.

Lemma elem_of_go_range k s : k ∈ go_range s <-> k ∈ s.
Proof. rewrite go_range_perm. apply elem_of_elements. Qed.

Lemma NoDup_go_range s : NoDup (go_range s).
Proof. rewrite go_range_perm. apply NoDup_elements. Qed.

(** The entries of a map, in the order of its keys. *)
Definition go_range_map (m : gmap K V) : list (K * V) :=
  omap (fun k => pair k <$> m !! k) (go_range (dom m)).

Lemma elem_of_go_range_map m k v : (k, v) ∈ go_range_map m <-> m !! k = Some v.
Proof.
  unfold go_range_map. rewrite list_elem_of_omap. split.
  - intros (k' & _ & Hk). destruct (m !! k') eqn:Hm; naive_solver.
  - intros Hk. exists k. rewrite elem_of_go_range, elem_of_dom, Hk. naive_solver.
Qed.

Lemma go_range_map_keys m : (go_range_map m).*1 = go_range (dom m).
Proof.
  unfold go_range_map.
  assert (Hd : forall k, k ∈ go_range (dom m) -> is_Some (m !! k))
    by (intros k; by rewrite elem_of_go_range, elem_of_dom).
  induction (go_range (dom m)) as [|k ks IH]; [done|].
  destruct (Hd k ltac:(by left)) as [v Hv]. simpl. rewrite Hv. simpl. f_equal.
  apply IH. intros k' Hk'. apply Hd. by right.
Qed.

Lemma NoDup_go_range_map_keys m : NoDup (go_range_map m).*1.
Proof. rewrite go_range_map_keys. apply NoDup_go_range. Qed.
End GoRange.

(** ** Filters and partial maps of lists *)
Lemma omap_cons {A B} (f : A -> option B) x l :
  omap f (x :: l) = match f x with Some y => y :: omap f l | None => omap f l end.
Proof. done. Qed.

Lemma filter_omap {A B} (f : A -> option B) (P : A -> Prop) (Q : B -> Prop)
    `{!forall x, Decision (P x), !forall y, Decision (Q y)} (l : list A) :
  (forall x y, x ∈ l -> f x = Some y -> (P x <-> Q y)) ->
  filter Q (omap f l) = omap f (filter P l).
Proof.
  intros Hf. induction l as [|x l IH]; [done|].
  assert (IH' := IH (fun x y Hx => Hf x y (list_elem_of_further _ _ _ Hx))).
  rewrite (filter_cons P), omap_cons. destruct (f x) as [y|] eqn:Hx.
  - pose proof (Hf x y (list_elem_of_here _ _) Hx) as HPQ. rewrite filter_cons, IH'.
    destruct (decide (P x)), (decide (Q y)); try tauto. by rewrite omap_cons, Hx.
  - rewrite IH'. destruct (decide (P x)); [|done]. by rewrite omap_cons, Hx.
Qed.

Lemma omap_ext_in {A B} (f g : A -> option B) (l : list A) :
  (forall x, x ∈ l -> f x = g x) -> omap f l = omap g l.
Proof.
  intros Hfg. induction l as [|x l IH]; [done|]. rewrite !omap_cons, Hfg by by left.
  rewrite IH; [done|]. intros y Hy. apply Hfg. by right.
Qed.

Lemma filter_all {A} (P : A -> Prop) `{!forall x, Decision (P x)} (l : list A) :
  (forall x, x ∈ l -> P x) -> filter P l = l.
Proof.
  intros HP. induction l as [|x l IH]; [done|]. rewrite filter_cons, decide_True by (apply HP; by left).
  f_equal. apply IH. intros y Hy. apply HP. by right.
Qed.

Lemma NoDup_omap_by {A B C} (f : A -> option B) (g : A -> C) (l : list A) :
  (forall x y b, x ∈ l -> y ∈ l -> f x = Some b -> f y = Some b -> g x = g y) ->
  NoDup (map g l) -> NoDup (omap f l).
Proof.
  induction l as [|x l IH]; intros Hinj Hnd; [constructor|].
  apply NoDup_cons in Hnd as [Hnin Hnd]. rewrite omap_cons.
  assert (NoDup (omap f l)) as Hrest.
  { apply IH; [|done]. intros y z b Hy Hz. apply Hinj; by right. }
  destruct (f x) as [b|] eqn:Hx; [|done]. apply NoDup_cons. split; [|done].
  intros (y & Hy & Hfy)%list_elem_of_omap. apply Hnin. apply list_elem_of_fmap.
  exists y. split; [|done]. eapply (Hinj x y b); [by left|by right|done..].
Qed.

(** ** Counting the elements of a list that pass a test *)
Section Count.
Context {A : Type} (p : A -> bool).
Implicit Types (x : A) (l : list A).

Definition count_if l : nat := length (filter (fun x => p x = true) l).

Lemma count_if_cons x l : count_if (x :: l) = (if p x then 1 else 0) + count_if l.
Proof. unfold count_if. rewrite filter_cons. by destruct (p x). Qed.

Lemma count_if_app l1 l2 : count_if (l1 ++ l2) = count_if l1 + count_if l2.
Proof. unfold count_if. by rewrite filter_app, length_app. Qed.

Lemma count_if_insert l i x y :
  l !! i = Some x ->
  count_if (<[i := y]> l) + (if p x then 1 else 0) = count_if l + (if p y then 1 else 0).
Proof.
  revert i. induction l as [|z l IH]; intros [|i] Hi; [done..| |].
  - injection Hi as ->. simpl. rewrite !count_if_cons. lia.
  - change (<[S i := y]> (z :: l)) with (z :: <[i := y]> l). rewrite !count_if_cons.
    specialize (IH i Hi). lia.
Qed.

Lemma count_if_0 l i x : count_if l = 0 -> l !! i = Some x -> p x = false.
Proof.
  intros Hl Hi. apply not_true_is_false. intros Hx.
  assert (x ∈ filter (fun x => p x = true) l) as Hin.
  { apply list_elem_of_filter. split; [done|]. by eapply list_elem_of_lookup_2. }
  apply nil_length_inv in Hl. rewrite Hl in Hin. by apply elem_of_nil in Hin.
Qed.
End Count.

(** ** Bits of a number cut in two *)

Lemma testbit_split k a x i :
  (0 <= k)%Z -> (0 <= a < 2 ^ k)%Z -> (0 <= i)%Z ->
  Z.testbit (a + 2 ^ k * x) i = if (i <? k)%Z then Z.testbit a i else Z.testbit x (i - k).
Proof.
  intros Hk Ha Hi. assert (H2 : (0 < 2 ^ k)%Z) by (apply Z.pow_pos_nonneg; lia).
  destruct (Z.ltb_spec i k).
  - rewrite <- (Z.mod_pow2_bits_low (a + 2 ^ k * x) k i) by lia.
    rewrite (Z.mul_comm (2 ^ k)), Z.mod_add by lia. by rewrite Z.mod_small.
  - rewrite <- (Z.sub_add k i) at 1. rewrite <- Z.div_pow2_bits by lia.
    rewrite (Z.mul_comm (2 ^ k)), Z.div_add by lia. by rewrite Z.div_small.
Qed.

(** A bitwise operation that maps two zero bits to zero works on both parts. *)
Lemma land_split k a x c y :
  (0 <= k)%Z -> (0 <= a < 2 ^ k)%Z -> (0 <= c < 2 ^ k)%Z ->
  Z.land (a + 2 ^ k * x) (c + 2 ^ k * y) = (Z.land a c + 2 ^ k * Z.land x y)%Z.
Proof.
  intros Hk Ha Hc. assert (Hac : (0 <= Z.land a c < 2 ^ k)%Z).
  { assert (Hnn : (0 <= Z.land a c)%Z) by (apply Z.land_nonneg; lia). split; [done|].
    rewrite <- (Z.mod_small a (2 ^ k)) by done. rewrite <- Z.land_ones by done.
    rewrite (Z.land_comm a), <- Z.land_assoc, Z.land_comm, Z.land_ones by done.
    apply Z.mod_pos_bound. apply Z.pow_pos_nonneg; lia. }
  apply Z.bits_inj'. intros i Hi. rewrite Z.land_spec, !testbit_split by done.
  destruct (i <? k)%Z; by rewrite Z.land_spec.
Qed.
