(* ===== verification/Hex.v ===== *)
(** * Hexadecimal text

    Go's [encoding/hex], which prints multihashes, UUIDs and the file names of the
    flat file store. *)

From S2P Require Import Prelude.

(** Lower case digits are written; both cases are read. *)
Definition hex_digits : bytes := str "0123456789abcdef".
Definition hex_EncodeToString (b : bytes) : bytes :=
  concat (map (fun c => [hex_digits !!! Z.to_nat (Z_of_byte c / 16);
                         hex_digits !!! Z.to_nat (Z_of_byte c mod 16)]) b).
Definition fromHexChar (c : byte) : option Z :=
  let z := Z_of_byte c in
  if (48 <=? z)%Z && (z <=? 57)%Z then Some (z - 48)%Z
  else if (97 <=? z)%Z && (z <=? 102)%Z then Some (z - 97 + 10)%Z
  else if (65 <=? z)%Z && (z <=? 70)%Z then Some (z - 65 + 10)%Z
  else None.
Fixpoint hex_DecodeString (s : bytes) : res bytes :=
  match s with
  | [] => Ok []
  | [_] => Err (errors_New "encoding/hex: odd length hex string")
  | a :: b :: s =>
      match fromHexChar a, fromHexChar b with
      | Some x, Some y =>
          match hex_DecodeString s with
          | Ok r => Ok (byte_of_Z (16 * x + y) :: r)
          | err => err
          end
      | _, _ => Err (errors_New "encoding/hex: invalid byte")
      end
  end.

(** A lower case hexadecimal digit. *)
Definition hex_digit (c : byte) : Prop := c ∈ hex_digits.

Lemma hex_digit_read d :
  (0 <= d < 16)%Z -> fromHexChar (hex_digits !!! Z.to_nat d) = Some d.
Proof.
  intros Hd. assert (Hn : Z.to_nat d < 16) by lia. rewrite <- (Z2Nat.id d) at 2 by lia.
  revert Hn. generalize (Z.to_nat d). intros n Hn.
  do 16 (destruct n as [|n]; [reflexivity|]). lia.
Qed.

Lemma hex_DecodeString_EncodeToString b : hex_DecodeString (hex_EncodeToString b) = Ok b.
Proof.
  induction b as [|c b IH]; [done|]. unfold hex_EncodeToString in *. cbn [map concat app].
  cbn [hex_DecodeString]. pose proof (Z_of_byte_range c).
  rewrite !hex_digit_read, IH.
  - by rewrite <- Z.div_mod, byte_of_Z_of_byte by lia.
  - apply Z.mod_pos_bound. lia.
  - split; [apply Z.div_pos; lia|]. apply Z.div_lt_upper_bound; lia.
Qed.

Lemma hex_EncodeToString_app a b :
  hex_EncodeToString (a ++ b) = hex_EncodeToString a ++ hex_EncodeToString b.
Proof. unfold hex_EncodeToString. by rewrite map_app, concat_app. Qed.

Lemma hex_EncodeToString_length b : length (hex_EncodeToString b) = 2 * length b.
Proof.
  unfold hex_EncodeToString. induction b as [|c b IH]; [done|]. cbn [map concat length].
  rewrite length_app, IH. simpl. lia.
Qed.

#[export] Hint Rewrite hex_EncodeToString_length : lengths.

#[export] Instance hex_EncodeToString_inj : Inj (=) (=) hex_EncodeToString.
Proof.
  intros a b H. pose proof (hex_DecodeString_EncodeToString a) as Ha.
  rewrite H, hex_DecodeString_EncodeToString in Ha. congruence.
Qed.

Lemma hex_digit_elem n : n < 16 -> hex_digit (hex_digits !!! n).
Proof. intros Hn. apply list_elem_of_lookup_total_2. exact Hn. Qed.

Lemma hex_EncodeToString_digits b : Forall hex_digit (hex_EncodeToString b).
Proof.
  unfold hex_EncodeToString. induction b as [|c b IH]; cbn [map concat]; [constructor|].
  pose proof (Z_of_byte_range c). constructor; [|constructor; [|done]]; apply hex_digit_elem.
  - assert (Z_of_byte c / 16 < 16)%Z by (apply Z.div_lt_upper_bound; lia). lia.
  - pose proof (Z.mod_pos_bound (Z_of_byte c) 16). lia.
Qed.

Lemma hex_EncodeToString_free b c : ~ hex_digit c -> c ∉ hex_EncodeToString b.
Proof.
  intros Hc Hin. apply Hc. pose proof (hex_EncodeToString_digits b) as Hd.
  rewrite Forall_forall in Hd. by apply Hd.
Qed.
