(* ===== verification/Base64.v ===== *)
(** * Base64 text

    Go's [encoding/base64] with the standard alphabet and padding, which the
    multihash tool prints and reads. *)

From S2P Require Import Prelude.

Definition b64_alphabet : bytes :=
  str "ABCDEFGHIJKLMNOPQRSTUVWXYZabcdefghijklmnopqrstuvwxyz0123456789+/".
Definition pad : byte := "=".

Definition b64_char (z : Z) : byte := b64_alphabet !!! Z.to_nat (z mod 64).

Fixpoint b64_EncodeToString (b : bytes) : bytes :=
  match b with
  | [] => []
  | [x] => let x := Z_of_byte x in [b64_char (x / 4); b64_char (x * 16); pad; pad]
  | [x; y] =>
      let x := Z_of_byte x in let y := Z_of_byte y in
      [b64_char (x / 4); b64_char (x * 16 + y / 16); b64_char (y * 4); pad]
  | x :: y :: z :: b =>
      let x := Z_of_byte x in let y := Z_of_byte y in let z := Z_of_byte z in
      [b64_char (x / 4); b64_char (x * 16 + y / 16); b64_char (y * 4 + z / 64); b64_char z]
        ++ b64_EncodeToString b
  end.

Definition b64_value (c : byte) : option Z := Z.of_nat ∘ fst <$> list_find (eq c) b64_alphabet.

(** Four characters at a time; the padding ends the text. The bits of the last
    character that are not used are not looked at. *)
Fixpoint b64_quanta (s : bytes) : option bytes :=
  match s with
  | [] => Some []
  | a :: b :: c :: d :: s =>
      a ← b64_value a; b ← b64_value b;
      if decide (d = pad) then
        if decide (s <> []) then None
        else if decide (c = pad) then Some [byte_of_Z (a * 4 + b / 16)]
        else c ← b64_value c; Some [byte_of_Z (a * 4 + b / 16); byte_of_Z (b * 16 + c / 4)]
      else
        c ← b64_value c; d ← b64_value d; r ← b64_quanta s;
        Some (byte_of_Z (a * 4 + b / 16) :: byte_of_Z (b * 16 + c / 4) :: byte_of_Z (c * 64 + d) :: r)
  | _ => None
  end.

(** Line breaks are dropped first. *)
Definition b64_DecodeString (s : bytes) : res bytes :=
  match b64_quanta (filter (fun c => c <> x0a /\ c <> x0d) s) with
  | Some b => Ok b
  | None => Err (errors_New "illegal base64 data at input byte %d")
  end.

(** ** Round trip *)

Lemma b64_chars :
  Forall (fun n => b64_value (b64_char (Z.of_nat n)) = Some (Z.of_nat n)
            /\ b64_char (Z.of_nat n) <> pad /\ b64_char (Z.of_nat n) <> x0a /\ b64_char (Z.of_nat n) <> x0d)
    (seq 0 64).
Proof. decide_compute. Qed.

Lemma b64_char_spec z :
  b64_value (b64_char z) = Some (z mod 64)%Z /\ b64_char z <> pad /\ b64_char z <> x0a /\ b64_char z <> x0d.
Proof.
  pose proof (Z.mod_pos_bound z 64 ltac:(lia)) as Hz.
  pose proof (proj1 (Forall_forall _ _) b64_chars (Z.to_nat (z mod 64))) as H.
  assert (Hin : Z.to_nat (z mod 64) ∈ seq 0 64) by (apply elem_of_seq; lia).
  specialize (H Hin). simpl in H. rewrite Z2Nat.id in H by lia.
  assert (b64_char (z mod 64) = b64_char z) as Hc by (unfold b64_char; by rewrite Z.mod_mod).
  by rewrite Hc in H.
Qed.

Lemma b64_value_char z : b64_value (b64_char z) = Some (z mod 64)%Z.
Proof. apply b64_char_spec. Qed.
Lemma b64_char_pad z : b64_char z <> pad.
Proof. apply b64_char_spec. Qed.

Lemma three_bytes (b : bytes) : (exists x, b = [x]) \/ (exists x y, b = [x; y]) \/ b = [] \/ exists x y z r, b = x :: y :: z :: r.
Proof. destruct b as [|x [|y [|z r]]]; eauto 10. Qed.

#[local] Ltac Zify.zify_post_hook ::= Z.to_euclidean_division_equations.

Lemma first_byte (x : byte) r :
  (0 <= r < 16)%Z -> byte_of_Z ((Z_of_byte x / 4) mod 64 * 4 + (Z_of_byte x * 16 + r) mod 64 / 16) = x.
Proof.
  intros Hr. pose proof (Z_of_byte_range x). rewrite <- (byte_of_Z_of_byte x) at 3. f_equal. lia.
Qed.
Lemma second_byte (x y : byte) r :
  (0 <= r < 4)%Z ->
  byte_of_Z ((Z_of_byte x * 16 + Z_of_byte y / 16) mod 64 * 16 + (Z_of_byte y * 4 + r) mod 64 / 4) = y.
Proof.
  intros Hr. pose proof (Z_of_byte_range x). pose proof (Z_of_byte_range y).
  rewrite <- (byte_of_Z_of_byte y) at 3. rewrite <- (byte_of_Z_of_byte (byte_of_Z _)), Z_of_byte_of_Z. f_equal. lia.
Qed.
Lemma third_byte (y z : byte) :
  byte_of_Z ((Z_of_byte y * 4 + Z_of_byte z / 64) mod 64 * 64 + Z_of_byte z mod 64) = z.
Proof.
  pose proof (Z_of_byte_range y). pose proof (Z_of_byte_range z).
  rewrite <- (byte_of_Z_of_byte z) at 3. rewrite <- (byte_of_Z_of_byte (byte_of_Z _)), Z_of_byte_of_Z. f_equal. lia.
Qed.

Lemma b64_quanta_Encode b : b64_quanta (b64_EncodeToString b) = Some b.
Proof.
  remember (length b) as n eqn:Hn. revert b Hn. induction (lt_wf n) as [n _ IH]. intros b ->.
  destruct (three_bytes b) as [[x ->]|[(x & y & ->)|[->|(x & y & z & r & ->)]]]; [..|done|].
  - cbn [b64_EncodeToString b64_quanta]. rewrite !b64_value_char. cbn [mbind option_bind].
    rewrite decide_True, decide_False, decide_True by auto.
    rewrite <- (Z.add_0_r (Z_of_byte x * 16)). by rewrite first_byte.
  - cbn [b64_EncodeToString b64_quanta]. rewrite !b64_value_char. cbn [mbind option_bind].
    rewrite decide_True, decide_False, decide_False by (auto using b64_char_pad).
    pose proof (Z_of_byte_range y). rewrite first_byte by lia.
    rewrite <- (Z.add_0_r (Z_of_byte y * 4)). by rewrite second_byte.
  - cbn [b64_EncodeToString app b64_quanta]. rewrite !b64_value_char. cbn [mbind option_bind].
    rewrite decide_False by apply b64_char_pad. rewrite (IH (length r)) by (simpl; lia || done). cbn.
    pose proof (Z_of_byte_range y). pose proof (Z_of_byte_range z).
    rewrite first_byte, second_byte, third_byte by lia. done.
Qed.

Lemma b64_Encode_no_breaks b : Forall (fun c => c <> x0a /\ c <> x0d) (b64_EncodeToString b).
Proof.
  remember (length b) as n eqn:Hn. revert b Hn. induction (lt_wf n) as [n _ IH]. intros b ->.
  assert (Hc : forall z, b64_char z <> x0a /\ b64_char z <> x0d) by (intros z; apply b64_char_spec).
  destruct (three_bytes b) as [[x ->]|[(x & y & ->)|[->|(x & y & z & r & ->)]]];
    cbn [b64_EncodeToString app]; repeat constructor; try apply Hc; try done.
  apply (IH (length r)); [simpl; lia|done].
Qed.

Lemma b64_DecodeString_Encode b : b64_DecodeString (b64_EncodeToString b) = Ok b.
Proof.
  unfold b64_DecodeString. rewrite filter_all by (apply Forall_forall, b64_Encode_no_breaks).
  by rewrite b64_quanta_Encode.
Qed.

Example b64_1 : b64_EncodeToString (str "Man is") = str "TWFuIGlz".
Proof. reflexivity. Qed.
Example b64_2 : map b64_DecodeString [str "TWE="; str "TQ=="; str "TWE=x"; str "T==="; str "TWE"; str "T!Fu"]
  = Ok (str "Ma") :: Ok (str "M") :: replicate 4 (Err (errors_New "illegal base64 data at input byte %d")).
Proof. reflexivity. Qed.
