(* ===== verification/Json.v ===== *)
(** * JSON strings

    What the code uses of Go's [encoding/json]: [Marshal] of a string and
    [Unmarshal] into a string variable. [Unmarshal] first runs the scanner over the
    whole text, byte by byte, as the package does: a state and a stack of the
    objects and arrays that are open. *)

From S2P Require Import Prelude Hex.

Definition same (c d : byte) : bool := bool_decide (c = d).
Definition in_range (lo hi z : Z) : bool := (lo <=? z)%Z && (z <=? hi)%Z.

Definition dquote : byte := x22.
Definition backslash : byte := x5c.

(** ** Runes *)

Definition RuneError : Z := 65533.

(** [utf8.DecodeRune]: the rune and its width; a byte that starts no rune is
    [(RuneError, 1)]. *)
Definition DecodeRune (s : bytes) : Z * nat :=
  let at_ (i : nat) := default 0%Z (Z_of_byte <$> s !! i) in
  let c0 := at_ 0 in let c1 := at_ 1 in let c2 := at_ 2 in let c3 := at_ 3 in
  let cont := in_range 128 191 in
  if (c0 <? 128)%Z then (c0, 1)
  else if in_range 194 223 c0 && cont c1 then (((c0 - 192) * 64 + (c1 - 128))%Z, 2)
  else if in_range 224 239 c0 && cont c1 && cont c2
          && (negb (c0 =? 224) || (160 <=? c1))%Z && (negb (c0 =? 237) || (c1 <=? 159))%Z
  then ((((c0 - 224) * 64 + (c1 - 128)) * 64 + (c2 - 128))%Z, 3)
  else if in_range 240 244 c0 && cont c1 && cont c2 && cont c3
          && (negb (c0 =? 240) || (144 <=? c1))%Z && (negb (c0 =? 244) || (c1 <=? 143))%Z
  then (((((c0 - 240) * 64 + (c1 - 128)) * 64 + (c2 - 128)) * 64 + (c3 - 128))%Z, 4)
  else (RuneError, 1).

(** [utf8.EncodeRune]. *)
Definition EncodeRune (r : Z) : bytes :=
  let r := if in_range 55296 57343 r || (r <? 0)%Z || (1114111 <? r)%Z then RuneError else r in
  let last (n : Z) := byte_of_Z (128 + (r / 64 ^ n) mod 64) in
  if (r <=? 127)%Z then [byte_of_Z r]
  else if (r <=? 2047)%Z then [byte_of_Z (192 + r / 64); last 0%Z]
  else if (r <=? 65535)%Z then [byte_of_Z (224 + r / 4096); last 1%Z; last 0%Z]
  else [byte_of_Z (240 + r / 262144); last 2%Z; last 1%Z; last 0%Z].

(** ** Marshal *)

(** Printed as it is: ASCII that needs no escape, in JSON or in HTML. *)
Definition plain (c : byte) : bool :=
  in_range 32 127 (Z_of_byte c)
  && negb (same c dquote || same c backslash || same c "<" || same c ">" || same c "&").

Definition escaped (c : byte) : bytes :=
  if same c dquote || same c backslash then [backslash; c]
  else if same c x0a then str "\n" else if same c x0d then str "\r" else if same c x09 then str "\t"
  else str "\u00" ++ hex_EncodeToString [c].

(** The first [skip] bytes belong to a rune that has been written. *)
Fixpoint quote_from (skip : nat) (s : bytes) : bytes :=
  match s, skip with
  | [], _ => []
  | _ :: s', S skip => quote_from skip s'
  | c :: s', O =>
      if plain c then c :: quote_from 0 s'
      else if (Z_of_byte c <? 128)%Z then escaped c ++ quote_from 0 s'
      else
        let (r, n) := DecodeRune s in
        (if decide (n = 1) then str "\ufffd"
         else if (r =? 8232)%Z then str "\u2028" else if (r =? 8233)%Z then str "\u2029"
         else take n s) ++ quote_from (n - 1) s'
  end.
Definition Marshal (s : bytes) : bytes := dquote :: quote_from 0 s ++ [dquote].

(** ** The scanner *)

Inductive open := ObjectKey | ObjectValue | ArrayValue.
Inductive scan_state :=
  | BeginValue | BeginValueOrEmpty | BeginStringOrEmpty | BeginString
  | EndValue | EndTop
  | InString | InStringEsc | InStringEscU (left : nat)
  | Neg | Zero | Digits | Dot | DotDigits | Exp | ExpSign | ExpDigits
  | Literal (rest : bytes).
Definition scanner : Type := scan_state * list open.

Definition isSpace (c : byte) : bool := same c x20 || same c x09 || same c x0d || same c x0a.
Definition digit (c : byte) : bool := in_range 48 57 (Z_of_byte c).

Definition pop (stack : list open) : scanner :=
  match stack with [] => (EndTop, []) | _ => (EndValue, stack) end.
Definition scan_EndValue (c : byte) (stack : list open) : option scanner :=
  match stack with
  | [] => if isSpace c then Some (EndTop, []) else None
  | top :: rest =>
      if isSpace c then Some (EndValue, stack)
      else match top with
           | ObjectKey => if same c ":" then Some (BeginValue, ObjectValue :: rest) else None
           | ObjectValue =>
               if same c "," then Some (BeginString, ObjectKey :: rest)
               else if same c "}" then Some (pop rest) else None
           | ArrayValue =>
               if same c "," then Some (BeginValue, stack)
               else if same c "]" then Some (pop rest) else None
           end
  end.
Definition scan_BeginValue (c : byte) (stack : list open) : option scanner :=
  if isSpace c then Some (BeginValue, stack)
  else if same c "{" then Some (BeginStringOrEmpty, ObjectKey :: stack)
  else if same c "[" then Some (BeginValueOrEmpty, ArrayValue :: stack)
  else if same c dquote then Some (InString, stack)
  else if same c "-" then Some (Neg, stack)
  else if same c "0" then Some (Zero, stack)
  else if same c "t" then Some (Literal (str "rue"), stack)
  else if same c "f" then Some (Literal (str "alse"), stack)
  else if same c "n" then Some (Literal (str "ull"), stack)
  else if digit c then Some (Digits, stack)
  else None.
Definition scan_BeginString (c : byte) (stack : list open) : option scanner :=
  if isSpace c then Some (BeginString, stack)
  else if same c dquote then Some (InString, stack) else None.
Definition scan_fraction (c : byte) (stack : list open) : option scanner :=
  if same c "." then Some (Dot, stack)
  else if same c "e" || same c "E" then Some (Exp, stack) else scan_EndValue c stack.

Definition scan_step (c : byte) (sc : scanner) : option scanner :=
  let '(st, stack) := sc in
  match st with
  | BeginValue => scan_BeginValue c stack
  | BeginValueOrEmpty =>
      if isSpace c then Some (BeginValueOrEmpty, stack)
      else if same c "]" then scan_EndValue c stack else scan_BeginValue c stack
  | BeginStringOrEmpty =>
      if isSpace c then Some (BeginStringOrEmpty, stack)
      else if same c "}" then scan_EndValue c (ObjectValue :: drop 1 stack) else scan_BeginString c stack
  | BeginString => scan_BeginString c stack
  | EndValue => scan_EndValue c stack
  | EndTop => if isSpace c then Some sc else None
  | InString =>
      if same c dquote then Some (EndValue, stack)
      else if same c backslash then Some (InStringEsc, stack)
      else if (Z_of_byte c <? 32)%Z then None else Some (InString, stack)
  | InStringEsc =>
      if bool_decide (c ∈ [backslash; dquote] ++ str "bfnrt/") then Some (InString, stack)
      else if same c "u" then Some (InStringEscU 4, stack) else None
  | InStringEscU n =>
      match fromHexChar c with
      | Some _ => Some (if decide (n = 1) then InString else InStringEscU (n - 1), stack)
      | None => None
      end
  | Neg => if same c "0" then Some (Zero, stack) else if digit c then Some (Digits, stack) else None
  | Zero => scan_fraction c stack
  | Digits => if digit c then Some (Digits, stack) else scan_fraction c stack
  | Dot => if digit c then Some (DotDigits, stack) else None
  | DotDigits =>
      if digit c then Some (DotDigits, stack)
      else if same c "e" || same c "E" then Some (Exp, stack) else scan_EndValue c stack
  | Exp =>
      if same c "+" || same c "-" then Some (ExpSign, stack)
      else if digit c then Some (ExpDigits, stack) else None
  | ExpSign => if digit c then Some (ExpDigits, stack) else None
  | ExpDigits => if digit c then Some (ExpDigits, stack) else scan_EndValue c stack
  | Literal l =>
      match l with
      | d :: l => if same c d then Some (match l with [] => EndValue | _ => Literal l end, stack) else None
      | [] => None
      end
  end.

Fixpoint scan (s : bytes) (sc : scanner) : option scanner :=
  match s with [] => Some sc | c :: s => sc' ← scan_step c sc; scan s sc' end.

(** [checkValid]: the end of the text counts as a space. *)
Definition checkValid (data : bytes) : bool :=
  match scan (data ++ [x20]) (BeginValue, []) with Some (EndTop, _) => true | _ => false end.

(** ** Unmarshal *)

Definition getu4 (s : bytes) : option Z :=
  match s with
  | b :: u :: s =>
      if same b backslash && same u "u" && (4 <=? length s)
      then of_digits 16 <$> mapM fromHexChar (take 4 s) else None
  | _ => None
  end.
(** [utf16.DecodeRune] of two halves. *)
Definition surrogates (r1 r2 : Z) : option Z :=
  if in_range 55296 56319 r1 && in_range 56320 57343 r2
  then Some ((r1 - 55296) * 1024 + (r2 - 56320) + 65536)%Z else None.
Definition unescaped (c : byte) : byte :=
  if same c "b" then x08 else if same c "f" then x0c else if same c "n" then x0a
  else if same c "r" then x0d else if same c "t" then x09 else c.

(** [unquote], from after the opening quote to the closing one. *)
Fixpoint unquote_from (skip : nat) (s : bytes) : bytes :=
  match s, skip with
  | [], _ => []
  | _ :: s', S skip => unquote_from skip s'
  | c :: s', O =>
      if same c dquote then []
      else if same c backslash then
        match s' with
        | e :: _ =>
            if same e "u" then
              let r := default (-1)%Z (getu4 s) in
              match getu4 (drop 6 s) ≫= surrogates r with
              | Some r => EncodeRune r ++ unquote_from 11 s'
              | None => EncodeRune r ++ unquote_from 5 s'
              end
            else unescaped e :: unquote_from 1 s'
        | [] => []
        end
      else let (r, n) := DecodeRune s in EncodeRune r ++ unquote_from (n - 1) s'
  end.

Fixpoint skip_space (s : bytes) : bytes :=
  match s with c :: s' => if isSpace c then skip_space s' else s | [] => [] end.

(** Into a string variable that is empty: a string is stored, [null] leaves the
    variable alone, a value of another type is an error. *)
Definition Unmarshal (data : bytes) : error + bytes :=
  if checkValid data then
    match skip_space data with
    | c :: s =>
        if same c dquote then inr (unquote_from 0 s)
        else if same c "n" then inr []
        else inl (errors_New "json: cannot unmarshal into Go value of type string")
    | [] => inl (errors_New "unexpected end of JSON input")
    end
  else inl (errors_New "json: invalid text").

(** ** Plain strings *)

Lemma same_true c d : same c d = true <-> c = d.
Proof. apply bool_decide_eq_true. Qed.
Lemma same_false c d : same c d = false <-> c <> d.
Proof. apply bool_decide_eq_false. Qed.

Lemma plain_spec c :
  plain c = true -> (32 <= Z_of_byte c < 128)%Z /\ c <> dquote /\ c <> backslash.
Proof.
  unfold plain, in_range. rewrite !andb_true_iff, negb_true_iff, !orb_false_iff, !Z.leb_le, !same_false.
  intros [[? ?] [[[[? ?] _] _] _]]. split; [lia|done].
Qed.

Lemma quote_plain s : Forall (fun c => plain c = true) s -> quote_from 0 s = s.
Proof. induction 1 as [|c s Hc _ IH]; [done|]. cbn [quote_from]. by rewrite Hc, IH. Qed.

Lemma DecodeRune_ascii c s : (Z_of_byte c < 128)%Z -> DecodeRune (c :: s) = (Z_of_byte c, 1).
Proof. intros Hc. unfold DecodeRune. cbn. by rewrite (proj2 (Z.ltb_lt _ _) Hc). Qed.
Lemma EncodeRune_ascii c : (Z_of_byte c < 128)%Z -> EncodeRune (Z_of_byte c) = [c].
Proof.
  intros Hc. pose proof (Z_of_byte_range c). unfold EncodeRune, in_range.
  rewrite (proj2 (Z.leb_gt 55296 _)), (proj2 (Z.ltb_ge _ 0)), (proj2 (Z.ltb_ge 1114111 _)) by lia. simpl.
  rewrite (proj2 (Z.leb_le _ 127)) by lia. by rewrite byte_of_Z_of_byte.
Qed.

Lemma unquote_plain s rest :
  Forall (fun c => plain c = true) s -> unquote_from 0 (s ++ dquote :: rest) = s.
Proof.
  induction 1 as [|c s Hc%plain_spec _ IH]; [by cbn|].
  destruct Hc as (Hr & Hq & Hb). cbn [app unquote_from].
  rewrite (proj2 (same_false c _) Hq), (proj2 (same_false c _) Hb), DecodeRune_ascii by lia.
  rewrite EncodeRune_ascii by lia. cbn [Nat.sub app]. by rewrite IH.
Qed.

Lemma scan_app s t sc : scan (s ++ t) sc = scan s sc ≫= scan t.
Proof.
  revert sc. induction s as [|c s IH]; intros sc; [done|]. cbn [app scan].
  destruct (scan_step c sc) as [sc'|]; [apply IH|done].
Qed.

Lemma scan_plain s stack :
  Forall (fun c => plain c = true) s -> scan s (InString, stack) = Some (InString, stack).
Proof.
  induction 1 as [|c s Hc%plain_spec _ IH]; [done|]. destruct Hc as (Hr & Hq & Hb).
  cbn [scan scan_step]. rewrite (proj2 (same_false c _) Hq), (proj2 (same_false c _) Hb).
  rewrite (proj2 (Z.ltb_ge _ 32)) by lia. apply IH.
Qed.

Lemma Unmarshal_plain s :
  Forall (fun c => plain c = true) s -> Unmarshal (dquote :: s ++ [dquote]) = inr s.
Proof.
  intros Hs. unfold Unmarshal, checkValid.
  cbn [app scan scan_step]. change (scan_BeginValue dquote []) with (Some (InString, @nil open)).
  cbn [mbind option_bind]. rewrite <- app_assoc, scan_app, (scan_plain s []) by done.
  cbn [mbind option_bind app]. change (scan [dquote; x20] (InString, [])) with (Some (EndTop, @nil open)).
  change (skip_space (dquote :: s ++ [dquote])) with (dquote :: s ++ [dquote]).
  change (same dquote dquote) with true. cbn iota beta. by rewrite (unquote_plain s []).
Qed.

Lemma Unmarshal_Marshal_plain s :
  Forall (fun c => plain c = true) s -> Unmarshal (Marshal s) = inr s.
Proof. intros Hs. unfold Marshal. rewrite quote_plain by done. by apply Unmarshal_plain. Qed.

(** Texts with escapes, spaces, surrogates and other values. *)
Example Unmarshal_escapes :
  Unmarshal (str "  " ++ [dquote] ++ str "a\n\u00e9\ud83d\ude00\ud83d!" ++ [dquote; x0a])
  = inr [x61; x0a; xc3; xa9; xf0; x9f; x98; x80; xef; xbf; xbd; x21].
Proof. vm_compute. reflexivity. Qed.
Example Unmarshal_values :
  let v (s : string) := map (fun c => if same c "'" then dquote else c) (str s) in
  map (fun s => if Unmarshal (v s) then false else true)
    ["null"; "''"; "{'a':[1,-0.5e+3,{}],'b':true}"; "'a' x"; "'a"; "01"; "'\x'"; " 'b' "; "[]"; ""]%string
  = [true; true; false; false; false; false; false; true; false; false]
  /\ map (fun s => checkValid (v s))
    ["null"; "''"; "{'a':[1,-0.5e+3,{}],'b':true}"; "'a' x"; "'a"; "01"; "'\x'"; " 'b' "; "[]"; ""]%string
  = [true; true; true; false; false; false; false; true; true; false].
Proof. vm_compute. split; reflexivity. Qed.
Example Marshal_escapes :
  Marshal [x61; x22; x0a; x01; xc3; xa9; xff; x3c] =
  [dquote] ++ str "a\" ++ [dquote] ++ str "\n\u0001" ++ [xc3; xa9] ++ str "\ufffd\u003c" ++ [dquote].
Proof. vm_compute. reflexivity. Qed.
