(* ===== verification/Base58.v ===== *)
(** * Base58 encoding

    Models [Godeps/.../jbenet/go-base58/base58.go]. [math/big] integers are
    [Z]: [SetBytes] is [of_digits 256], [Bytes] the big-endian digits in radix
    256, and the [DivMod] loop of [EncodeAlphabet] produces the little-endian
    digits in radix 58 ([to_digits_le]). *)

From S2P Require Import Prelude.

(** const BTCAlphabet, FlickrAlphabet *)
Definition BTCAlphabet : bytes :=
  str "123456789ABCDEFGHJKLMNPQRSTUVWXYZabcdefghijkmnopqrstuvwxyz".
Definition FlickrAlphabet : bytes :=
  str "123456789abcdefghijkmnopqrstuvwxyzABCDEFGHJKLMNPQRSTUVWXYZ".

(** [strings.IndexAny(alphabet, string(c))] for an ASCII alphabet. [string(c)]
    encodes the code point [c] in UTF-8, so a byte of 128 and above becomes a
    code point that no ASCII alphabet holds. *)
Definition IndexAny (alphabet : bytes) (c : byte) : option nat :=
  if (Z_of_byte c <? 128)%Z then fst <$> list_find (eq c) alphabet else None.

(** The loop of [DecodeAlphabet], from the last character to the first:
    [rs] is what is left of [b], reversed. [None] is the early return. *)
Fixpoint decode_loop (alphabet : bytes) (rs : bytes) (answer j : Z) : option Z :=
  match rs with
  | [] => Some answer
  | c :: rs =>
      match IndexAny alphabet c with
      | None => None
      | Some tmp => decode_loop alphabet rs (answer + j * Z.of_nat tmp) (j * 58)
      end
  end.

(** [big.Int.Bytes] and [big.Int.SetBytes]. *)
Definition big_Bytes (n : Z) : bytes := map byte_of_Z (rev (to_digits_le 256 n)).
Definition big_SetBytes (b : bytes) : Z := of_digits 256 (map Z_of_byte b).

Definition DecodeAlphabet (b alphabet : bytes) : bytes :=
  match decode_loop alphabet (rev b) 0 1 with
  | None => []
  | Some answer =>
      let tmpval := big_Bytes answer in
      let numZeros := leading (alphabet !!! 0) b in
      replicate numZeros x00 ++ tmpval
  end.

Definition EncodeAlphabet (b alphabet : bytes) : bytes :=
  let x := big_SetBytes b in
  let answer := map (fun mod_ => alphabet !!! Z.to_nat mod_) (to_digits_le 58 x) in
  (* leading zero bytes *)
  let answer := answer ++ replicate (leading x00 b) (alphabet !!! 0) in
  (* reverse *)
  rev answer.

Definition Decode (b : bytes) : bytes := DecodeAlphabet b BTCAlphabet.
Definition Encode (b : bytes) : bytes := EncodeAlphabet b BTCAlphabet.

Example Encode_ex : Encode (str "hello world") = str "StV1DL6CwTryKyV".
Proof. vm_compute. reflexivity. Qed.
Example Decode_ex : Decode (str "StV1DL6CwTryKyV") = str "hello world".
Proof. vm_compute. reflexivity. Qed.

(** What the round trips need of an alphabet. *)
Class Alphabet (alphabet : bytes) : Prop := {
  alphabet_nodup : NoDup alphabet;
  alphabet_length : length alphabet = 58;
  alphabet_ascii : Forall (fun c => Z_of_byte c < 128)%Z alphabet;
}.

#[export] Instance BTCAlphabet_ok : Alphabet BTCAlphabet.
Proof. split; decide_compute. Qed.
#[export] Instance FlickrAlphabet_ok : Alphabet FlickrAlphabet.
Proof. split; decide_compute. Qed.

Section Roundtrip.
Context (alphabet : bytes) `{HA : !Alphabet alphabet}.

(** The digit of a character, and back. *)
Definition chr (d : Z) : byte := alphabet !!! Z.to_nat d.
Definition idx (c : byte) : Z := default 0%Z (Z.of_nat <$> IndexAny alphabet c).

Lemma IndexAny_Some c i : IndexAny alphabet c = Some i <-> alphabet !! i = Some c.
Proof.
  unfold IndexAny. split.
  - destruct (Z_of_byte c <? 128)%Z; [|done].
    intros ([j d] & (Hl & -> & _)%list_find_Some & ->)%fmap_Some. done.
  - intros Hi. pose proof (Forall_lookup_1 _ _ _ _ alphabet_ascii Hi) as Hc. simpl in Hc.
    rewrite (proj2 (Z.ltb_lt _ _) Hc). apply fmap_Some. exists (i, c). split; [|done].
    apply list_find_Some. split_and!; [done..|]. intros j y Hj Hlt ->.
    pose proof (NoDup_lookup _ _ _ _ alphabet_nodup Hi Hj). lia.
Qed.

Lemma IndexAny_chr d : (0 <= d < 58)%Z -> IndexAny alphabet (chr d) = Some (Z.to_nat d).
Proof.
  intros Hd. apply IndexAny_Some, list_lookup_lookup_total_lt.
  rewrite alphabet_length. lia.
Qed.

Lemma idx_chr d : (0 <= d < 58)%Z -> idx (chr d) = d.
Proof. intros Hd. unfold idx. rewrite IndexAny_chr by done. simpl. lia. Qed.

Lemma chr_idx c : c ∈ alphabet -> chr (idx c) = c.
Proof.
  intros (i & Hi)%list_elem_of_lookup. unfold chr, idx.
  rewrite (proj2 (IndexAny_Some c i) Hi). simpl. rewrite Nat2Z.id.
  by apply list_lookup_total_correct.
Qed.

Lemma idx_range c : (0 <= idx c < 58)%Z.
Proof.
  unfold idx. destruct (IndexAny alphabet c) as [i|] eqn:Hi; simpl; [|lia].
  apply IndexAny_Some, lookup_lt_Some in Hi. rewrite alphabet_length in Hi. lia.
Qed.

Lemma valid_digits_idx s : valid_digits 58 (map idx s).
Proof. apply Forall_fmap, Forall_true. intros c. apply idx_range. Qed.

Lemma IndexAny_elem c : c ∈ alphabet -> IndexAny alphabet c = Some (Z.to_nat (idx c)).
Proof.
  intros Hc. rewrite <- (chr_idx c Hc) at 1. apply IndexAny_chr, idx_range.
Qed.

Lemma decode_loop_ok rs answer j :
  Forall (fun c => c ∈ alphabet) rs ->
  decode_loop alphabet rs answer j
  = Some (answer + j * of_digits_le 58 (map idx rs))%Z.
Proof.
  intros Hrs. revert answer j.
  induction Hrs as [|c rs Hc Hrs IH]; intros answer j; simpl; [f_equal; lia|].
  rewrite IndexAny_elem, IH by done. f_equal.
  pose proof (idx_range c). rewrite Z2Nat.id by lia. ring.
Qed.

Lemma decode_loop_bad rs answer j c :
  c ∈ rs -> c ∉ alphabet -> decode_loop alphabet rs answer j = None.
Proof.
  intros Hin Hc. revert answer j.
  induction rs as [|d rs IH]; intros answer j; [by apply not_elem_of_nil in Hin|].
  simpl. destruct (IndexAny alphabet d) as [i|] eqn:Hi; [|done].
  apply elem_of_cons in Hin as [->|Hin]; [|by apply IH].
  apply IndexAny_Some in Hi. destruct Hc. by eapply list_elem_of_lookup_2.
Qed.

Lemma chr_elem d : (0 <= d < 58)%Z -> chr d ∈ alphabet.
Proof. intros Hd. by eapply list_elem_of_lookup_2, IndexAny_Some, IndexAny_chr. Qed.

Lemma map_idx_chr l : valid_digits 58 l -> map idx (map chr l) = l.
Proof. induction 1 as [|d l Hd Hl IH]; [done|]. simpl. by rewrite IH, idx_chr. Qed.

Lemma map_chr_idx s : Forall (fun c => c ∈ alphabet) s -> map chr (map idx s) = s.
Proof. induction 1 as [|c s Hc Hs IH]; [done|]. simpl. by rewrite IH, chr_idx. Qed.

Lemma chr_0_inj d : (0 <= d < 58)%Z -> chr d = alphabet !!! 0 -> d = 0%Z.
Proof.
  intros Hd H. rewrite <- (idx_chr d), H by done. rewrite <- (idx_chr 0) by lia. done.
Qed.
End Roundtrip.

(** ** Round trips *)

Lemma head_map_ne {A B} (f : A -> B) l (a : A) b :
  head l <> Some a -> (forall x, x ∈ l -> f x = b -> x = a) -> head (map f l) <> Some b.
Proof.
  destruct l as [|x l]; simpl; [done|]. intros Hne Hf [= Hx].
  apply Hne. f_equal. apply Hf; [left|done].
Qed.

Lemma to_digits_le_valid B n : (2 <= B)%Z -> valid_digits B (to_digits_le B n).
Proof. intros HB. by apply digits_le_valid. Qed.

Lemma rev_to_digits_elem B n d :
  (2 <= B)%Z -> d ∈ rev (to_digits_le B n) -> (0 <= d < B)%Z.
Proof.
  intros HB Hd. pose proof (Forall_rev (to_digits_le_valid B n HB)) as Hv.
  by apply (proj1 (Forall_forall _ _) Hv).
Qed.

(** The most significant digit of a number is not zero. *)
Lemma to_digits_le_last B n :
  (2 <= B)%Z -> (0 <= n)%Z -> last (to_digits_le B n) <> Some 0%Z.
Proof.
  intros HB Hn Hl. apply last_Some in Hl as [l Hl].
  by eapply (digits_le_last B HB _ n); [by apply to_digits_fuel|exact Hl|].
Qed.

(** A number written in radix [B] with zeros in front, and its value. *)
Lemma of_digits_rev_to_digits B n k :
  (2 <= B)%Z -> (0 <= n)%Z ->
  of_digits B (replicate k 0%Z ++ rev (to_digits_le B n)) = n.
Proof.
  intros HB Hn. by rewrite of_digits_zeros, of_digits_rev, of_digits_le_to_digits.
Qed.

(** The digits of the value of a list with zeros in front. *)
Lemma rev_to_digits_of_digits B l :
  (2 <= B)%Z -> valid_digits B l -> head l <> Some 0%Z ->
  rev (to_digits_le B (of_digits B l)) = l.
Proof.
  intros HB Hl Hh. rewrite <- (rev_involutive l), of_digits_rev.
  rewrite to_digits_of_digits_le; [done|done| |by rewrite last_rev].
  by apply Forall_rev.
Qed.

Lemma of_digits_nonneg B l : (2 <= B)%Z -> valid_digits B l -> (0 <= of_digits B l)%Z.
Proof.
  intros HB Hl. rewrite <- (rev_involutive l), of_digits_rev.
  apply of_digits_le_nonneg; [done|]. by apply Forall_rev.
Qed.

Section RoundtripThms.
Context (alphabet : bytes) `{HA : !Alphabet alphabet}.

Lemma EncodeAlphabet_shape b :
  EncodeAlphabet b alphabet
  = replicate (leading x00 b) (alphabet !!! 0)
    ++ map (chr alphabet) (rev (to_digits_le 58 (big_SetBytes b))).
Proof. unfold EncodeAlphabet. by rewrite rev_app_distr, rev_replicate, map_rev. Qed.

Lemma DecodeAlphabet_shape s :
  Forall (fun c => c ∈ alphabet) s ->
  DecodeAlphabet s alphabet
  = replicate (leading (alphabet !!! 0) s) x00
    ++ big_Bytes (of_digits 58 (map (idx alphabet) s)).
Proof.
  intros Hs. unfold DecodeAlphabet. rewrite (decode_loop_ok alphabet) by by apply Forall_rev.
  rewrite Z.add_0_l, Z.mul_1_l. f_equal. f_equal.
  by rewrite map_rev, <- of_digits_rev, rev_involutive.
Qed.

Lemma EncodeAlphabet_alphabet b :
  Forall (fun c => c ∈ alphabet) (EncodeAlphabet b alphabet).
Proof.
  rewrite EncodeAlphabet_shape. apply Forall_app. split.
  - apply Forall_replicate, (chr_elem alphabet 0). lia.
  - apply Forall_fmap, (Forall_impl (fun d => 0 <= d < 58)%Z).
    + apply Forall_rev, (to_digits_le_valid 58). lia.
    + intros d. by apply (chr_elem alphabet).
Qed.

Lemma idx_first : idx alphabet (alphabet !!! 0) = 0%Z.
Proof. apply (idx_chr alphabet 0). lia. Qed.

Lemma DecodeAlphabet_EncodeAlphabet b :
  DecodeAlphabet (EncodeAlphabet b alphabet) alphabet = b.
Proof.
  rewrite DecodeAlphabet_shape by apply EncodeAlphabet_alphabet.
  assert (Hn : (0 <= big_SetBytes b)%Z) by (apply of_digits_nonneg, valid_digits_bytes; lia).
  assert (Hh : head (map (chr alphabet) (rev (to_digits_le 58 (big_SetBytes b))))
               <> Some (alphabet !!! 0)).
  { apply (head_map_ne _ _ 0%Z); [rewrite head_rev; apply to_digits_le_last; lia|].
    intros d Hd%rev_to_digits_elem; [|lia]. by apply (chr_0_inj alphabet). }
  rewrite EncodeAlphabet_shape, leading_replicate, map_app, map_replicate, idx_first by done.
  rewrite (map_idx_chr alphabet) by (apply Forall_rev, to_digits_le_valid; done).
  rewrite of_digits_rev_to_digits by lia.
  destruct (leading_split x00 b) as (b' & Hb & Hb'). rewrite Hb at 3. f_equal.
  unfold big_Bytes, big_SetBytes. rewrite Hb, map_app, map_replicate, of_digits_zeros.
  rewrite rev_to_digits_of_digits; [apply map_byte_of_Z_of_byte|lia|apply valid_digits_bytes|].
  apply (head_map_ne _ _ x00); [done|]. intros c _ Hc. by apply (inj Z_of_byte).
Qed.

Lemma EncodeAlphabet_DecodeAlphabet s :
  Forall (fun c => c ∈ alphabet) s ->
  EncodeAlphabet (DecodeAlphabet s alphabet) alphabet = s.
Proof.
  intros Hs. rewrite EncodeAlphabet_shape, DecodeAlphabet_shape by done.
  set (n := of_digits 58 (map (idx alphabet) s)).
  assert (Hn : (0 <= n)%Z) by (apply of_digits_nonneg, valid_digits_idx; lia || done).
  assert (Hv : valid_digits 256 (rev (to_digits_le 256 n)))
    by (apply Forall_rev, to_digits_le_valid; lia).
  rewrite leading_replicate; cycle 1.
  { apply (head_map_ne _ _ 0%Z); [rewrite head_rev; apply to_digits_le_last; lia|].
    intros d Hd Heq. apply rev_to_digits_elem in Hd; [|lia].
    by rewrite <- (Z_of_byte_of_Z_small d Hd), Heq. }
  assert (Hval : forall k, big_SetBytes (replicate k x00 ++ big_Bytes n) = n).
  { intros k. unfold big_SetBytes, big_Bytes. rewrite map_app, map_replicate.
    rewrite map_Z_of_byte_of_Z by done. apply of_digits_rev_to_digits; lia. }
  rewrite Hval. subst n.
  destruct (leading_split (alphabet !!! 0) s) as (s' & Hs' & Hh). rewrite Hs' at 3. f_equal.
  rewrite Hs' at 1. rewrite map_app, map_replicate, idx_first, of_digits_zeros.
  assert (Hin : Forall (fun c => c ∈ alphabet) s') by (rewrite Hs' in Hs; by apply Forall_app in Hs as [_ ?]).
  rewrite rev_to_digits_of_digits; [by apply map_chr_idx|lia|by apply valid_digits_idx|].
  apply (head_map_ne _ _ (alphabet !!! 0)); [done|]. intros c Hc Hz.
  pose proof (proj1 (Forall_forall _ _) Hin c Hc). by rewrite <- (chr_idx alphabet c), Hz.
Qed.

Lemma DecodeAlphabet_bad s c :
  c ∈ s -> c ∉ alphabet -> DecodeAlphabet s alphabet = [].
Proof.
  intros Hin Hc. unfold DecodeAlphabet.
  rewrite (decode_loop_bad alphabet _ _ _ c); [done| |done].
  by apply list_elem_of_In, (proj1 (in_rev _ _)), list_elem_of_In.
Qed.
End RoundtripThms.

(** C35. Decoding an encoded byte slice gives it back, whatever the bytes:
    leading zeros are kept. *)
Theorem Decode_Encode b : Decode (Encode b) = b.
Proof. apply (DecodeAlphabet_EncodeAlphabet BTCAlphabet). Qed.

(** A string over the alphabet is the encoding of what it decodes to, so no
    two of them decode alike; any other string decodes to the empty slice and is
    nobody's encoding. *)
Theorem Encode_Decode s :
  (Forall (fun c => c ∈ BTCAlphabet) s -> Encode (Decode s) = s)
  /\ (~ Forall (fun c => c ∈ BTCAlphabet) s -> Decode s = [] /\ forall b, Encode b <> s).
Proof.
  split; [apply (EncodeAlphabet_DecodeAlphabet BTCAlphabet)|]. intros Hs. split.
  - apply not_Forall_Exists, Exists_exists in Hs as (c & Hin & Hc); [|apply _].
    by apply (DecodeAlphabet_bad BTCAlphabet s c).
  - intros b <-. apply Hs, (EncodeAlphabet_alphabet BTCAlphabet).
Qed.

Lemma Encode_Decode_witness :
  Encode (Decode (str "1QmZ")) = str "1QmZ" /\ Decode (str "0OIl") = [].
Proof.
  split.
  - apply (Encode_Decode (str "1QmZ")). decide_compute.
  - apply (Encode_Decode (str "0OIl")). decide_compute.
Defined.
