(* ===== verification/Hamming.v ===== *)
(** * Hamming distance

    Models [Godeps/.../steakknife/hamming/hamming.go]: population counts by table
    for bytes and by parallel addition for 64-bit words. A [uint64] is a [Z]
    between 0 and 2^64. *)

From S2P Require Import Prelude.

Definition m1 : Z := 0x5555555555555555.
Definition m2 : Z := 0x3333333333333333.
Definition m4 : Z := 0x0f0f0f0f0f0f0f0f.
Definition h01 : Z := 0x0101010101010101.

Definition table : list Z := [
  0; 1; 1; 2; 1; 2; 2; 3; 1; 2; 2; 3; 2; 3; 3; 4; 1; 2; 2; 3; 2; 3; 3; 4; 2; 3; 3; 4; 3; 4; 4; 5;
  1; 2; 2; 3; 2; 3; 3; 4; 2; 3; 3; 4; 3; 4; 4; 5; 2; 3; 3; 4; 3; 4; 4; 5; 3; 4; 4; 5; 4; 5; 5; 6;
  1; 2; 2; 3; 2; 3; 3; 4; 2; 3; 3; 4; 3; 4; 4; 5; 2; 3; 3; 4; 3; 4; 4; 5; 3; 4; 4; 5; 4; 5; 5; 6;
  2; 3; 3; 4; 3; 4; 4; 5; 3; 4; 4; 5; 4; 5; 5; 6; 3; 4; 4; 5; 4; 5; 5; 6; 4; 5; 5; 6; 5; 6; 6; 7;
  1; 2; 2; 3; 2; 3; 3; 4; 2; 3; 3; 4; 3; 4; 4; 5; 2; 3; 3; 4; 3; 4; 4; 5; 3; 4; 4; 5; 4; 5; 5; 6;
  2; 3; 3; 4; 3; 4; 4; 5; 3; 4; 4; 5; 4; 5; 5; 6; 3; 4; 4; 5; 4; 5; 5; 6; 4; 5; 5; 6; 5; 6; 6; 7;
  2; 3; 3; 4; 3; 4; 4; 5; 3; 4; 4; 5; 4; 5; 5; 6; 3; 4; 4; 5; 4; 5; 5; 6; 4; 5; 5; 6; 5; 6; 6; 7;
  3; 4; 4; 5; 4; 5; 5; 6; 4; 5; 5; 6; 5; 6; 6; 7; 4; 5; 5; 6; 5; 6; 6; 7; 5; 6; 6; 7; 6; 7; 7; 8]%Z.

Definition CountBitsByte (x : byte) : Z := table !!! Z.to_nat (Z_of_byte x).

Definition CountBitsUint64 (x : Z) : Z :=
  let x := u64 (x - Z.land (Z.shiftr x 1) m1) in
  let x := u64 (Z.land x m2 + Z.land (Z.shiftr x 2) m2) in
  let x := Z.land (u64 (x + Z.shiftr x 4)) m4 in
  Z.shiftr (u64 (x * h01)) 56.

Definition CountBitsUint64s (b : list Z) : Z := fold_left (fun c x => c + CountBitsUint64 x)%Z b 0%Z.
Definition CountBitsBytes (b : bytes) : Z := fold_left (fun c x => c + CountBitsByte x)%Z b 0%Z.

Definition Uint64 (x y : Z) : Z := CountBitsUint64 (Z.lxor x y).
Definition Byte (x y : byte) : Z := CountBitsByte (byte_of_Z (Z.lxor (Z_of_byte x) (Z_of_byte y))).

(** The loops [for i, x := range b0 { d += f(x, b1[i]) }]: a panic when [b1] is
    the shorter one. *)
Fixpoint pairs_loop {A} (f : A -> A -> Z) (d : Z) (b0 b1 : list A) : res Z :=
  match b0, b1 with
  | [], _ => Ok d
  | x :: b0, y :: b1 => pairs_loop f (d + f x y)%Z b0 b1
  | _ :: _, [] => Panic
  end.
Definition Uint64s (b0 b1 : list Z) : res Z := pairs_loop Uint64 0 b0 b1.
Definition Bytes (b0 b1 : bytes) : res Z := pairs_loop Byte 0 b0 b1.

(** ** The reference: the number of bits set among the lowest [n] *)
Definition popcount (n : nat) (x : Z) : Z :=
  foldr (fun i acc => Z.b2z (Z.testbit x (Z.of_nat i)) + acc)%Z 0%Z (seq 0 n).

Lemma byte_cases (P : Z -> bool) :
  forallb (fun n => P (Z.of_nat n)) (seq 0 256) = true -> forall z, (0 <= z < 256)%Z -> P z = true.
Proof.
  intros H z Hz. rewrite forallb_forall in H. rewrite <- (Z2Nat.id z) by lia.
  apply H, in_seq. lia.
Qed.

Lemma CountBitsByte_popcount x : CountBitsByte x = popcount 8 (Z_of_byte x).
Proof. by destruct x. Qed.

(** ** Words as lists of eight bytes *)
Abbreviation val := (of_digits_le 256).

Lemma land_bytes c l :
  (0 <= c < 256)%Z -> valid_digits 256 l ->
  Z.land (val l) (val (replicate (length l) c)) = val (map (fun a => Z.land a c) l).
Proof.
  intros Hc Hl. induction Hl as [|a l Ha Hl IH]; [done|]. cbn [length replicate of_digits_le map].
  rewrite <- IH. apply (land_split 8); lia.
Qed.

(** Shifting a number cut in two: the low bits of the upper part move down. *)
Lemma shiftr_split k a x :
  (0 <= k <= 8)%Z -> (0 <= a < 256)%Z ->
  Z.shiftr (a + 256 * x) k
  = (Z.shiftr a k + 2 ^ (8 - k) * (x mod 2 ^ k) + 256 * Z.shiftr x k)%Z.
Proof.
  intros Hk Ha. rewrite !Z.shiftr_div_pow2 by lia.
  assert (H2 : (0 < 2 ^ k)%Z) by (apply Z.pow_pos_nonneg; lia).
  assert (H256 : (256 = 2 ^ (8 - k) * 2 ^ k)%Z).
  { rewrite <- Z.pow_add_r by lia. by replace (8 - k + k)%Z with 8%Z by lia. }
  pose proof (Z.div_mod x (2 ^ k) ltac:(lia)) as Hx.
  rewrite H256 at 1. rewrite <- Z.mul_assoc, (Z.mul_comm (2 ^ k)), Z.mul_assoc, Z.div_add by lia.
  rewrite H256. rewrite Hx at 1. ring.
Qed.

Lemma land_low k p q c :
  (0 <= k)%Z -> (0 <= p < 2 ^ k)%Z -> (0 <= c < 2 ^ k)%Z -> Z.land (p + 2 ^ k * q) c = Z.land p c.
Proof.
  intros Hk Hp Hc. pose proof (land_split k p q c 0 Hk Hp Hc) as H.
  rewrite Z.land_0_r, Z.mul_0_r, !Z.add_0_r in H. exact H.
Qed.

Lemma shiftr_range a k : (0 <= k <= 8)%Z -> (0 <= a < 256)%Z -> (0 <= Z.shiftr a k < 2 ^ (8 - k))%Z.
Proof.
  intros Hk Ha. rewrite Z.shiftr_div_pow2 by lia.
  assert (H2 : (0 < 2 ^ k)%Z) by (apply Z.pow_pos_nonneg; lia).
  split; [apply Z.div_pos; lia|]. apply Z.div_lt_upper_bound; [done|].
  rewrite <- Z.pow_add_r by lia. replace (k + (8 - k))%Z with 8%Z by lia. lia.
Qed.

(** Shifting and masking works byte by byte when the mask drops the bits that
    come from the next byte. *)
Lemma shift_land k c l :
  (0 <= k <= 8)%Z -> (0 <= c < 2 ^ (8 - k))%Z -> valid_digits 256 l ->
  Z.land (Z.shiftr (val l) k) (val (replicate (length l) c))
  = val (map (fun a => Z.land (Z.shiftr a k) c) l).
Proof.
  intros Hk Hc Hl. assert (Hp : (0 < 2 ^ k)%Z) by (apply Z.pow_pos_nonneg; lia).
  assert (H256 : (2 ^ (8 - k) * 2 ^ k = 2 ^ 8)%Z) by (rewrite <- Z.pow_add_r by lia; f_equal; lia).
  induction Hl as [|a l Ha Hl IH]; [by rewrite Z.shiftr_0_l|].
  cbn [length replicate of_digits_le map]. rewrite shiftr_split by lia.
  pose proof (shiftr_range a k Hk Ha) as Hs.
  pose proof (Z.mod_pos_bound (val l) (2 ^ k) Hp) as Hm.
  rewrite (land_split 8) by (change (2 ^ 8)%Z with 256%Z in *; nia). rewrite IH.
  by rewrite land_low by lia.
Qed.

Lemma val_nonneg l : valid_digits 256 l -> (0 <= val l)%Z.
Proof. apply of_digits_le_nonneg. lia. Qed.

Lemma val_u64 l : valid_digits 256 l -> length l = 8 -> u64 (val l) = val l.
Proof.
  intros Hl Hn. apply Z.mod_small. split; [by apply val_nonneg|].
  pose proof (of_digits_le_bound 256 ltac:(lia) l Hl) as Hb. by rewrite Hn in Hb.
Qed.

Lemma val_sub (f g : Z -> Z) l : (val (map f l) - val (map g l) = val (map (fun a => f a - g a) l))%Z.
Proof. induction l as [|a l IH]; [done|]. cbn [map of_digits_le]. rewrite <- IH. ring. Qed.

Lemma val_add (f g : Z -> Z) l : (val (map f l) + val (map g l) = val (map (fun a => f a + g a) l))%Z.
Proof. induction l as [|a l IH]; [done|]. cbn [map of_digits_le]. rewrite <- IH. ring. Qed.

(** ** The three steps on a byte *)
Definition step1 (a : Z) : Z := (a - Z.land (Z.shiftr a 1) 0x55)%Z.
Definition step2 (a : Z) : Z := (Z.land a 0x33 + Z.land (Z.shiftr a 2) 0x33)%Z.
Definition step3 (a : Z) : Z := Z.land (a + Z.shiftr a 4) 0x0f.

Lemma steps_popcount a :
  (0 <= a < 256)%Z ->
  (0 <= step1 a < 256)%Z /\ (0 <= step2 (step1 a) <= 0x44)%Z
  /\ (step2 (step1 a) mod 16 <= 4)%Z /\ step3 (step2 (step1 a)) = popcount 8 a.
Proof.
  intros Ha.
  assert (H : ((0 <=? step1 a) && (step1 a <? 256) && (0 <=? step2 (step1 a))
    && (step2 (step1 a) <=? 0x44) && (step2 (step1 a) mod 16 <=? 4)
    && (step3 (step2 (step1 a)) =? popcount 8 a))%Z = true)
    by (revert a Ha; apply byte_cases; vm_compute; reflexivity).
  rewrite !andb_true_iff in H. lia.
Qed.

Lemma popcount_8_range a : (0 <= popcount 8 a <= 8)%Z.
Proof.
  unfold popcount. simpl. repeat match goal with |- context [Z.b2z ?b] =>
    assert (0 <= Z.b2z b <= 1)%Z by (by destruct b); generalize dependent (Z.b2z b); intros end.
  lia.
Qed.

Lemma step_val_1 l :
  valid_digits 256 l ->
  (val l - Z.land (Z.shiftr (val l) 1) (val (replicate (length l) 0x55)) = val (map step1 l))%Z.
Proof.
  intros Hl. rewrite shift_land by (simpl; lia || done). rewrite <- (map_id l) at 1.
  apply (val_sub (fun a => a)).
Qed.

Lemma step_val_2 l :
  valid_digits 256 l ->
  (Z.land (val l) (val (replicate (length l) 0x33))
   + Z.land (Z.shiftr (val l) 2) (val (replicate (length l) 0x33)) = val (map step2 l))%Z.
Proof.
  intros Hl. rewrite land_bytes by (lia || done). rewrite shift_land by (simpl; lia || done).
  apply val_add.
Qed.

(** In the last step the sum is masked, not its terms: the digits are small
    enough for no carry to leave a byte. *)
Lemma step_val_3 l :
  Forall (fun a => 0 <= a <= 0x44 /\ a mod 16 <= 4)%Z l ->
  (0 <= val l + Z.shiftr (val l) 4 < 256 ^ Z.of_nat (length l))%Z
  /\ Z.land (val l + Z.shiftr (val l) 4) (val (replicate (length l) 0x0f%Z)) = val (map step3 l).
Proof.
  intros Hl. induction Hl as [|a l [Ha Ha'] Hl IH]; [by rewrite Z.shiftr_0_l|].
  destruct IH as [Hr IH]. cbn [length replicate of_digits_le map]. rewrite shiftr_split by lia.
  assert (Hm : (0 <= val l mod 2 ^ 4 <= 4)%Z).
  { destruct Hl as [|b l [Hb Hb'] Hl]; [done|]. cbn [of_digits_le].
    rewrite (Z.add_comm b), (Z.mul_comm 256). change 256%Z with (16 * 2 ^ 4)%Z.
    rewrite Z.mul_assoc, Z.add_comm, Z.mod_add by done. change (2 ^ 4)%Z with 16%Z.
    pose proof (Z.mod_pos_bound b 16). lia. }
  pose proof (shiftr_range a 4 ltac:(lia) ltac:(lia)) as Hs.
  change (2 ^ (8 - 4))%Z with 16%Z in *. rewrite Nat2Z.inj_succ, Z.pow_succ_r by lia.
  set (low := (a + Z.shiftr a 4 + 16 * (val l mod 2 ^ 4))%Z).
  assert (Heq : (a + 256 * val l + (Z.shiftr a 4 + 16 * (val l mod 2 ^ 4) + 256 * Z.shiftr (val l) 4)
                 = low + 2 ^ 8 * (val l + Z.shiftr (val l) 4))%Z)
    by (unfold low; change (2 ^ 8)%Z with 256%Z; ring).
  rewrite Heq. assert (Hlow : (0 <= low < 2 ^ 8)%Z) by (unfold low; change (2 ^ 8)%Z with 256%Z; lia).
  split; [change (2 ^ 8)%Z with 256%Z in *; lia|].
  rewrite <- IH. etransitivity; [apply (land_split 8 low _ 15); lia|].
  change (2 ^ 8)%Z with 256%Z. f_equal. unfold step3, low.
  change 15%Z with (Z.ones 4). change 0x0f%Z with (Z.ones 4). rewrite !Z.land_ones by lia.
  change (2 ^ 4)%Z with 16%Z. by rewrite (Z.mul_comm 16), Z.mod_add.
Qed.

(** The product with [h01] gathers the sum of the bytes in the top byte. *)
Lemma sum_bytes l :
  length l = 8 -> Forall (fun a => 0 <= a <= 8)%Z l ->
  Z.shiftr (u64 (val l * h01)) 56 = foldr Z.add 0%Z l.
Proof.
  intros Hn Hl.
  destruct l as [|a0 [|a1 [|a2 [|a3 [|a4 [|a5 [|a6 [|a7 [|]]]]]]]]]; try discriminate Hn.
  repeat match goal with H : Forall _ (_ :: _) |- _ => apply Forall_cons in H as [? H] end.
  set (low := val [a0; a0 + a1; a0 + a1 + a2; a0 + a1 + a2 + a3; a0 + a1 + a2 + a3 + a4;
                   a0 + a1 + a2 + a3 + a4 + a5; a0 + a1 + a2 + a3 + a4 + a5 + a6]%Z).
  set (high := val [a1 + a2 + a3 + a4 + a5 + a6 + a7; a2 + a3 + a4 + a5 + a6 + a7;
                    a3 + a4 + a5 + a6 + a7; a4 + a5 + a6 + a7; a5 + a6 + a7; a6 + a7; a7]%Z).
  set (sum := foldr Z.add 0%Z _).
  assert (Hlow : (0 <= low < 2 ^ 56)%Z) by (subst low; cbn [of_digits_le]; lia).
  assert (Hsum : (0 <= sum < 256)%Z) by (subst sum; cbn [foldr]; lia).
  assert (Heq : (val [a0; a1; a2; a3; a4; a5; a6; a7] * h01 = 2 ^ 64 * high + (2 ^ 56 * sum + low))%Z)
    by (subst low high sum; unfold h01; cbn [of_digits_le foldr]; lia).
  unfold u64. rewrite <- (Z.mod_unique _ (2 ^ 64) high (2 ^ 56 * sum + low)) by lia.
  rewrite Z.shiftr_div_pow2 by lia. symmetry. apply (Z.div_unique _ _ _ low); lia.
Qed.

(** The bits of a number are the bits of its bytes. *)
Lemma popcount_app n m x :
  popcount (n + m) x = (popcount n x + popcount m (Z.shiftr x (Z.of_nat n)))%Z.
Proof.
  unfold popcount. rewrite seq_app, foldr_app. simpl.
  assert (H : foldr (fun i acc => Z.b2z (Z.testbit x (Z.of_nat i)) + acc)%Z 0%Z (seq n m)
    = foldr (fun i acc => Z.b2z (Z.testbit (Z.shiftr x (Z.of_nat n)) (Z.of_nat i)) + acc)%Z 0%Z (seq 0 m)).
  { rewrite <- (Nat.add_0_r n) at 1. generalize 0 as k. induction m as [|m IH]; intros k; [done|].
    cbn [seq foldr]. rewrite Z.shiftr_spec by lia. rewrite <- Nat.add_succ_r, IH. do 3 f_equal. lia. }
  rewrite H. clear H. generalize (foldr (fun i acc => Z.b2z (Z.testbit (Z.shiftr x (Z.of_nat n)) (Z.of_nat i)) + acc)%Z 0%Z (seq 0 m)).
  intros z. induction (seq 0 n) as [|i l IH]; simpl; [done|]. rewrite IH. lia.
Qed.

Lemma popcount_ext n x y :
  (forall i, (0 <= i < Z.of_nat n)%Z -> Z.testbit x i = Z.testbit y i) -> popcount n x = popcount n y.
Proof.
  intros H. unfold popcount. assert (Hin : forall i, i ∈ seq 0 n -> i < n) by (intros i; rewrite elem_of_seq; lia).
  induction (seq 0 n) as [|i l IH]; [done|]. simpl.
  rewrite IH by (intros j Hj; apply Hin; by right). f_equal. f_equal. apply H.
  pose proof (Hin i ltac:(by left)). lia.
Qed.

Lemma popcount_val l :
  valid_digits 256 l -> popcount (8 * length l) (val l) = foldr Z.add 0%Z (map (popcount 8) l).
Proof.
  induction 1 as [|a l Ha Hl IH]; [done|]. cbn [length map foldr of_digits_le].
  replace (8 * S (length l)) with (8 + 8 * length l) by lia. rewrite popcount_app, <- IH. f_equal.
  - apply popcount_ext. intros i Hi. rewrite (testbit_split 8) by lia.
    by destruct (Z.ltb_spec i 8); [|lia].
  - rewrite Z.shiftr_div_pow2 by lia. change (2 ^ Z.of_nat 8)%Z with 256%Z. f_equal.
    rewrite (Z.mul_comm 256), Z.div_add by lia. by rewrite Z.div_small.
Qed.

(** A 64-bit word as its bytes. *)
Lemma word_bytes x :
  (0 <= x < 2 ^ 64)%Z -> exists l, length l = 8 /\ valid_digits 256 l /\ val l = x.
Proof.
  intros Hx. assert (Hv : forall n x, (0 <= x < 256 ^ Z.of_nat n)%Z ->
    exists l, length l = n /\ valid_digits 256 l /\ val l = x).
  { clear x Hx. induction n as [|n IH]; intros x Hx; [exists []; split_and!; [done|constructor|simpl in *; lia]|].
    rewrite Nat2Z.inj_succ, Z.pow_succ_r in Hx by lia.
    destruct (IH (x / 256)%Z) as (l & Hn & Hl & Hval).
    { split; [apply Z.div_pos; lia|]. apply Z.div_lt_upper_bound; lia. }
    exists ((x mod 256)%Z :: l). split_and!; [simpl; lia| |].
    - constructor; [apply Z.mod_pos_bound; lia|done].
    - cbn [of_digits_le]. rewrite Hval. pose proof (Z.div_mod x 256). lia. }
  apply (Hv 8). exact Hx.
Qed.

Lemma CountBitsUint64_val l :
  length l = 8 -> valid_digits 256 l -> CountBitsUint64 (val l) = popcount 64 (val l).
Proof.
  intros Hn Hl. pose proof (proj1 (Forall_forall _ _) Hl) as Hin.
  assert (Hl1 : valid_digits 256 (map step1 l)).
  { apply Forall_fmap, Forall_forall. intros a Ha. by apply (steps_popcount a), Hin. }
  assert (Hl2 : Forall (fun a => 0 <= a <= 0x44 /\ a mod 16 <= 4)%Z (map step2 (map step1 l))).
  { rewrite map_map. apply Forall_fmap, Forall_forall. intros a Ha. simpl.
    pose proof (steps_popcount a (Hin a Ha)). tauto. }
  assert (Hl2' : valid_digits 256 (map step2 (map step1 l))).
  { eapply Forall_impl; [exact Hl2|]. intros a. simpl. lia. }
  assert (Hlen1 : length (map step1 l) = 8) by by rewrite length_map.
  assert (Hlen2 : length (map step2 (map step1 l)) = 8) by by rewrite length_map.
  pose proof (step_val_1 l Hl) as E1. rewrite Hn in E1. change (val (replicate 8 85%Z)) with m1 in E1.
  pose proof (step_val_2 _ Hl1) as E2. rewrite Hlen1 in E2. change (val (replicate 8 51%Z)) with m2 in E2.
  destruct (step_val_3 _ Hl2) as [R3 E3]. rewrite Hlen2 in E3, R3. change (val (replicate 8 15%Z)) with m4 in E3.
  unfold CountBitsUint64. rewrite E1, val_u64, E2, val_u64 by done.
  unfold u64 at 2. rewrite Z.mod_small by exact R3. rewrite E3.
  assert (E4 : map step3 (map step2 (map step1 l)) = map (popcount 8) l).
  { rewrite !map_map. apply map_ext_in. intros a Ha. apply steps_popcount, Hin. by apply list_elem_of_In. }
  rewrite E4, sum_bytes.
  - rewrite <- popcount_val by done. by rewrite Hn.
  - by rewrite length_map.
  - apply Forall_fmap, Forall_true. intros a. apply popcount_8_range.
Qed.

(** The table and the parallel addition both count bits: for every byte and
    every 64-bit word the result is the number of bits set. *)
Theorem CountBits_popcount :
  (forall x, CountBitsByte x = popcount 8 (Z_of_byte x))
  /\ (forall x, (0 <= x < 2 ^ 64)%Z -> CountBitsUint64 x = popcount 64 x).
Proof.
  split; [apply CountBitsByte_popcount|]. intros x Hx.
  destruct (word_bytes x Hx) as (l & Hn & Hl & <-). by apply CountBitsUint64_val.
Qed.

(** ** Distances *)

Lemma Byte_xor x y : Byte x y = popcount 8 (Z.lxor (Z_of_byte x) (Z_of_byte y)).
Proof.
  unfold Byte. rewrite CountBitsByte_popcount, Z_of_byte_of_Z. apply popcount_ext.
  intros i Hi. change 256%Z with (2 ^ 8)%Z. apply Z.mod_pow2_bits_low. lia.
Qed.

Lemma popcount_nonneg n x : (0 <= popcount n x)%Z.
Proof. unfold popcount. induction (seq 0 n) as [|i l IH]; simpl; [done|]. destruct (Z.testbit _ _); simpl; lia. Qed.

Lemma popcount_triangle n x y z :
  (popcount n (Z.lxor x z) <= popcount n (Z.lxor x y) + popcount n (Z.lxor y z))%Z.
Proof.
  unfold popcount. induction (seq 0 n) as [|i l IH]; simpl; [done|]. rewrite !Z.lxor_spec.
  destruct (Z.testbit x _), (Z.testbit y _), (Z.testbit z _); simpl; lia.
Qed.

Lemma popcount_zero n x : popcount n x = 0%Z -> forall i, (0 <= i < Z.of_nat n)%Z -> Z.testbit x i = false.
Proof.
  intros H i Hi. unfold popcount in H.
  assert (Hin : Z.to_nat i ∈ seq 0 n) by (apply elem_of_seq; lia).
  induction (seq 0 n) as [|j l IH]; [by apply not_elem_of_nil in Hin|]. simpl in H.
  assert (0 <= foldr (fun i acc => Z.b2z (Z.testbit x (Z.of_nat i)) + acc)%Z 0%Z l)%Z.
  { clear. induction l as [|i l IH]; simpl; [done|]. destruct (Z.testbit _ _); simpl; lia. }
  apply elem_of_cons in Hin as [Hj|Hin].
  - subst j. rewrite Z2Nat.id in H by lia. destruct (Z.testbit x i); simpl in H; [lia|done].
  - apply IH; [|done]. destruct (Z.testbit x (Z.of_nat j)); simpl in H; lia.
Qed.

Lemma Byte_zero x y : Byte x y = 0%Z <-> x = y.
Proof.
  rewrite Byte_xor. split; [|intros ->; by rewrite Z.lxor_nilpotent].
  intros H. apply (inj Z_of_byte). apply Z.bits_inj'. intros i Hi.
  pose proof (Z_of_byte_range x). pose proof (Z_of_byte_range y).
  destruct (Z.ltb_spec i 8).
  - pose proof (popcount_zero _ _ H i ltac:(lia)) as Hb. rewrite Z.lxor_spec in Hb.
    by destruct (Z.testbit (Z_of_byte x) i), (Z.testbit (Z_of_byte y) i).
  - rewrite <- (Z.mod_small (Z_of_byte x) (2 ^ 8)), <- (Z.mod_small (Z_of_byte y) (2 ^ 8)) by lia.
    by rewrite !Z.mod_pow2_bits_high by lia.
Qed.

Lemma Byte_comm x y : Byte x y = Byte y x.
Proof. by rewrite !Byte_xor, Z.lxor_comm. Qed.

Lemma Byte_triangle x y z : (Byte x z <= Byte x y + Byte y z)%Z.
Proof. rewrite !Byte_xor. apply popcount_triangle. Qed.

Lemma Byte_nonneg x y : (0 <= Byte x y)%Z.
Proof. rewrite Byte_xor. apply popcount_nonneg. Qed.

(** The distance of two byte slices, as a sum. *)
Definition dist (b0 b1 : bytes) : Z := foldr Z.add 0%Z (zip_with Byte b0 b1).

Lemma pairs_loop_dist d b0 b1 :
  pairs_loop Byte d b0 b1
  = if decide (length b0 <= length b1) then Ok (d + dist b0 b1)%Z else Panic.
Proof.
  unfold dist. revert b1 d. induction b0 as [|x b0 IH]; intros [|y b1] d;
    cbn [pairs_loop length zip_with foldr]; [by rewrite Z.add_0_r..|done|].
  rewrite IH. repeat case_decide; try lia; [f_equal; lia|done].
Qed.

Lemma Bytes_dist b0 b1 :
  Bytes b0 b1 = if decide (length b0 <= length b1) then Ok (dist b0 b1) else Panic.
Proof. apply (pairs_loop_dist 0). Qed.

Lemma dist_metric b0 b1 b2 :
  length b0 = length b1 -> length b1 = length b2 ->
  (0 <= dist b0 b1)%Z /\ (dist b0 b1 = 0%Z <-> b0 = b1) /\ dist b0 b1 = dist b1 b0
  /\ (dist b0 b2 <= dist b0 b1 + dist b1 b2)%Z.
Proof.
  unfold dist. revert b1 b2. induction b0 as [|x b0 IH]; intros [|y b1] [|z b2]; try discriminate; [done|].
  intros [= H1] [= H2]. destruct (IH b1 b2 H1 H2) as (Hnn & Hz & Hc & Ht). cbn [zip_with foldr].
  pose proof (Byte_nonneg x y). pose proof (Byte_triangle x y z). rewrite <- Hc, (Byte_comm y x).
  split_and!; [lia| |done|lia]. pose proof (Byte_zero x y) as Hb. split.
  - intros Hsum. assert (Byte x y = 0%Z) as Hxy by lia. apply Hb in Hxy as ->. f_equal. apply Hz. lia.
  - intros [= -> ->]. rewrite (proj2 Hb), (proj2 Hz) by done. done.
Qed.
