(* ===== verification/Bloom.v ===== *)
(** * The bloom filter

    Models [bloom/filter.go] over the Jenkins one-at-a-time hash of
    [Godeps/.../mtchavez/jenkins/jenkins.go] and the Hamming distance. *)

From S2P Require Import Prelude Hamming.

(** ** jenkins.go: the state is one [uint32] *)
Module Jenkins.
Definition New : Z := 0.
Definition mix (hash : Z) (b : byte) : Z :=
  let hash := u32 (hash + Z_of_byte b) in
  let hash := u32 (hash + u32 (Z.shiftl hash 10)) in
  Z.lxor hash (Z.shiftr hash 6).
Definition Write (key : bytes) (j : Z) : Z :=
  let hash := fold_left mix key j in
  let hash := u32 (hash + u32 (Z.shiftl hash 3)) in
  let hash := Z.lxor hash (Z.shiftr hash 11) in
  u32 (hash + u32 (Z.shiftl hash 15)).
Definition Reset (j : Z) : Z := 0.
Definition Size : Z := 4.
Definition BlockSize : Z := 1.
Definition Sum32 (j : Z) : Z := j.
Definition Sum (in_ : bytes) (j : Z) : bytes :=
  let v := Sum32 j in
  in_ ++ [byte_of_Z (Z.shiftr v 24); byte_of_Z (Z.shiftr v 16); byte_of_Z (Z.shiftr v 8); byte_of_Z v].
End Jenkins.

(** [binary.LittleEndian.PutUint32] *)
Definition PutUint32 (v : Z) : bytes :=
  [byte_of_Z v; byte_of_Z (Z.shiftr v 8); byte_of_Z (Z.shiftr v 16); byte_of_Z (Z.shiftr v 24)].

(** ** filter.go

    [hash] is a pointer that merged filters share; every method but one that
    panics leaves the hash as it found it, reset. *)
Record filter_ := mkFilter { filter : bytes; hash : Z; k : nat }.

(** [make([]byte, size)] panics on a negative size. *)
Definition NewFilter (size : Z) : res filter_ :=
  if (size <? 0)%Z then Panic
  else Ok (mkFilter (replicate (Z.to_nat size) x00) Jenkins.New 3).
Definition BasicFilter : res filter_ := NewFilter 2048.

(** The loop of [getBitIndicies]; [res % 0] panics. *)
Fixpoint indices_loop (n : nat) (m h : Z) : res (list Z) * Z :=
  match n with
  | O => (Ok [], h)
  | S n =>
      let res_ := Jenkins.Sum32 h in
      if (m =? 0)%Z then (Panic, h)
      else
        let '(is_, h) := indices_loop n m (Jenkins.Write (PutUint32 res_) h) in
        (is_ ← is_; Ok ((res_ mod m)%Z :: is_), h)
  end.

Definition getBitIndicies (bytes_ : bytes) (f : filter_) : res (list Z) * filter_ :=
  let h := Jenkins.Write bytes_ (hash f) in
  match indices_loop (k f) (u32 (u32 (Z.of_nat (length (filter f))) * 8)) h with
  | (Ok indicies, h) => (Ok indicies, mkFilter (filter f) (Jenkins.Reset h) (k f))
  | (Err e, h) => (Err e, mkFilter (filter f) h (k f))
  | (Panic, h) => (Panic, mkFilter (filter f) h (k f))
  end.

(** [f.filter[i/8] |= (1 << byte(i%8))]: the shift is one of a byte. *)
Definition bit_mask (i : Z) : Z := ((Z.shiftl 1 (i mod 8)) mod 256)%Z.
Definition setBit (i : Z) (f : filter_) : res unit * filter_ :=
  let n := Z.to_nat (i / 8) in
  match filter f !! n with
  | None => (Panic, f)
  | Some b => (Ok tt, mkFilter (<[n := byte_of_Z (Z.lor (Z_of_byte b) (bit_mask i))]> (filter f)) (hash f) (k f))
  end.
Definition getBit (i : Z) (f : filter_) : res bool :=
  match filter f !! Z.to_nat (i / 8) with
  | None => Panic
  | Some b => Ok (negb (Z.land (Z_of_byte b) (bit_mask i) =? 0)%Z)
  end.

Fixpoint setBits (is_ : list Z) (f : filter_) : res unit * filter_ :=
  match is_ with
  | [] => (Ok tt, f)
  | i :: is_ =>
      match setBit i f with
      | (Ok _, f) => setBits is_ f
      | (r, f) => (r, f)
      end
  end.
Definition Add (bytes_ : bytes) (f : filter_) : res unit * filter_ :=
  match getBitIndicies bytes_ f with
  | (Ok is_, f) => setBits is_ f
  | (Err e, f) => (Err e, f)
  | (Panic, f) => (Panic, f)
  end.

Fixpoint getBits (is_ : list Z) (f : filter_) : res bool :=
  match is_ with
  | [] => Ok true
  | i :: is_ => b ← getBit i f; if b : bool then getBits is_ f else Ok false
  end.
Definition Find (bytes_ : bytes) (f : filter_) : res bool * filter_ :=
  match getBitIndicies bytes_ f with
  | (Ok is_, f) => (getBits is_ f, f)
  | (Err e, f) => (Err e, f)
  | (Panic, f) => (Panic, f)
  end.

(** The argument is a [Filter]: a [*filter], or something else ([None]). *)
Definition Merge (o : option filter_) (f : filter_) : res filter_ :=
  match o with
  | None => Err (errors_New "Unsupported filter type")
  | Some casfil =>
      if negb (length (filter casfil) =? length (filter f)) then
        Err (errors_New "filter lengths must match!")
      else if negb (k casfil =? k f) then Err (errors_New "filter k-values must match!")
      else Ok (mkFilter (zip_with (fun v w => byte_of_Z (Z.lor (Z_of_byte v) (Z_of_byte w)))
                           (filter f) (filter casfil)) (hash f) (k f))
  end.

Definition HammingDistance (o : option filter_) (f : filter_) : res Z :=
  match o with
  | None => Err (errors_New "Unsupported filter type")
  | Some casfil =>
      if negb (length (filter f) =? length (filter casfil)) then
        Err (errors_New "filter lengths must match!")
      else Hamming.Bytes (filter f) (filter casfil)
  end.

Example Find_ex :
  let f := match NewFilter 128 with Ok f => f | _ => mkFilter [] 0 0 end in
  let f := (Add (str "fish") (Add (str "hello") f).2).2 in
  map (fun s => (Find (str s) f).1) ["hello"; "fish"; "beep boop"]%string = [Ok true; Ok true; Ok false].
Proof. vm_compute. reflexivity. Qed.

(** ** Bits of a filter *)

Definition bit (f : filter_) (i : Z) : bool :=
  match filter f !! Z.to_nat (i / 8) with
  | Some b => Z.testbit (Z_of_byte b) (i mod 8)
  | None => false
  end.

(** What [res] is reduced by, and the indices of a key in closed form. *)
Definition modulus (f : filter_) : Z := u32 (u32 (Z.of_nat (length (filter f))) * 8).
Fixpoint indices_of (n : nat) (m h : Z) : list Z :=
  match n with
  | O => []
  | S n => (Jenkins.Sum32 h mod m)%Z :: indices_of n m (Jenkins.Write (PutUint32 (Jenkins.Sum32 h)) h)
  end.
Definition indices (bytes_ : bytes) (f : filter_) : list Z :=
  indices_of (k f) (modulus f) (Jenkins.Write bytes_ Jenkins.New).

(** A filter between two calls: its hash is reset, and its size in bits is not a
    multiple of 2^32. *)
Definition usable (f : filter_) : Prop := hash f = Jenkins.New /\ modulus f <> 0%Z.

(** Two filters of one shape: the keys have the same indices in both. *)
Definition same_shape (f g : filter_) : Prop :=
  length (filter f) = length (filter g) /\ hash f = hash g /\ k f = k g.

Lemma same_shape_usable f g : same_shape f g -> usable f -> usable g.
Proof. intros (Hl & Hh & Hk). unfold usable, modulus. by rewrite Hl, Hh. Qed.

Lemma same_shape_indices f g b : same_shape f g -> indices b f = indices b g.
Proof. intros (Hl & Hh & Hk). unfold indices, modulus. by rewrite Hl, Hk. Qed.

Lemma modulus_bound f : (0 <= modulus f <= 8 * Z.of_nat (length (filter f)))%Z.
Proof.
  unfold modulus, u32. split; [apply Z.mod_pos_bound; lia|].
  etransitivity; [apply Z.mod_le; [apply Z.mul_nonneg_nonneg; [apply Z.mod_pos_bound|]; lia|lia]|].
  pose proof (Z.mod_le (Z.of_nat (length (filter f))) (2 ^ 32)). lia.
Qed.

Lemma indices_loop_Ok n m h :
  m <> 0%Z -> exists h', indices_loop n m h = (Ok (indices_of n m h), h').
Proof.
  intros Hm. revert h. induction n as [|n IH]; intros h; cbn [indices_loop indices_of]; [by exists h|].
  destruct (Z.eqb_spec m 0); [done|].
  destruct (IH (Jenkins.Write (PutUint32 (Jenkins.Sum32 h)) h)) as [h' ->]. by exists h'.
Qed.

Lemma getBitIndicies_Ok b f : usable f -> getBitIndicies b f = (Ok (indices b f), f).
Proof.
  intros [Hh Hm]. unfold getBitIndicies, indices. rewrite Hh.
  destruct (indices_loop_Ok (k f) (modulus f) (Jenkins.Write b Jenkins.New) Hm) as [h' Hi].
  fold (modulus f). rewrite Hi. destruct f as [fl h k0]. cbn in *. by rewrite Hh.
Qed.

Definition in_range (f : filter_) (i : Z) : Prop := (0 <= i < 8 * Z.of_nat (length (filter f)))%Z.

Lemma indices_in_range b f : usable f -> Forall (in_range f) (indices b f).
Proof.
  intros [_ Hm]. unfold indices, in_range. pose proof (modulus_bound f) as Hb.
  generalize (Jenkins.Write b Jenkins.New) as h. induction (k f) as [|n IH]; intros h; constructor; [|apply IH].
  pose proof (Z.mod_pos_bound (Jenkins.Sum32 h) (modulus f)). lia.
Qed.

Lemma bit_mask_pow2 i : bit_mask i = (2 ^ (i mod 8))%Z.
Proof.
  unfold bit_mask. pose proof (Z.mod_pos_bound i 8 ltac:(lia)). rewrite Z.shiftl_1_l.
  apply Z.mod_small. split; [apply Z.pow_nonneg; lia|]. change 256%Z with (2 ^ 8)%Z.
  apply Z.pow_lt_mono_r; lia.
Qed.

Lemma lookup_byte f i :
  in_range f i -> exists b, filter f !! Z.to_nat (i / 8) = Some b.
Proof.
  intros Hi. apply lookup_lt_is_Some_2. unfold in_range in Hi.
  assert (i / 8 < Z.of_nat (length (filter f)))%Z by (apply Z.div_lt_upper_bound; lia).
  assert (0 <= i / 8)%Z by (apply Z.div_pos; lia). lia.
Qed.

Lemma getBit_bit f i : in_range f i -> getBit i f = Ok (bit f i).
Proof.
  intros Hi. unfold getBit, bit. destruct (lookup_byte f i Hi) as [b ->]. f_equal.
  rewrite bit_mask_pow2. pose proof (Z.mod_pos_bound i 8 ltac:(lia)).
  destruct (Z.testbit (Z_of_byte b) (i mod 8)) eqn:Hb.
  - apply negb_true_iff, Z.eqb_neq. intros H0. apply (f_equal (fun z => Z.testbit z (i mod 8))) in H0.
    rewrite Z.land_spec, Hb, Z.pow2_bits_true, Z.bits_0 in H0 by lia. done.
  - apply negb_false_iff, Z.eqb_eq, Z.bits_inj'. intros j Hj. rewrite Z.land_spec, Z.bits_0.
    destruct (decide (j = (i mod 8)%Z)) as [->|]; [by rewrite Hb|].
    rewrite Z.pow2_bits_false by lia. apply andb_false_r.
Qed.

Lemma testbit_byte_small b i : (8 <= i)%Z -> Z.testbit (Z_of_byte b) i = false.
Proof.
  intros Hi. pose proof (Z_of_byte_range b). rewrite <- (Z.mod_small (Z_of_byte b) (2 ^ 8)) by lia.
  by apply Z.mod_pow2_bits_high.
Qed.

Lemma testbit_byte_of_Z z i : (0 <= i < 8)%Z -> Z.testbit (Z_of_byte (byte_of_Z z)) i = Z.testbit z i.
Proof. intros Hi. rewrite Z_of_byte_of_Z. change 256%Z with (2 ^ 8)%Z. apply Z.mod_pow2_bits_low. lia. Qed.

Lemma setBit_spec f i :
  in_range f i ->
  exists f', setBit i f = (Ok tt, f') /\ same_shape f f'
    /\ forall j, (0 <= j)%Z -> bit f' j = (j =? i)%Z || bit f j.
Proof.
  intros Hi. unfold setBit. destruct (lookup_byte f i Hi) as [b Hb]. rewrite Hb. eexists.
  split; [reflexivity|]. split; [split_and!; [cbn; by rewrite length_insert|done..]|].
  intros j Hj. unfold bit. cbn [filter]. rewrite bit_mask_pow2.
  pose proof (Z.mod_pos_bound j 8 ltac:(lia)) as Hmj. pose proof (Z.mod_pos_bound i 8 ltac:(lia)) as Hmi.
  pose proof (Z.div_mod j 8 ltac:(lia)) as Hdj. pose proof (Z.div_mod i 8 ltac:(lia)) as Hdi.
  destruct (decide (Z.to_nat (j / 8) = Z.to_nat (i / 8))) as [Heq|Hne].
  - rewrite Heq, Hb, list_lookup_insert_eq by by eapply lookup_lt_Some.
    rewrite testbit_byte_of_Z, Z.lor_spec by lia. unfold in_range in Hi.
    assert (j / 8 = i / 8)%Z by (apply Z2Nat.inj; [apply Z.div_pos; lia..|done]).
    destruct (Z.eqb_spec j i) as [->|Hji].
    + rewrite Z.pow2_bits_true by lia. by rewrite orb_true_r.
    + rewrite Z.pow2_bits_false by lia. by rewrite orb_false_r.
  - rewrite list_lookup_insert_ne by done. destruct (Z.eqb_spec j i) as [->|]; [done|done].
Qed.

Lemma setBits_spec is_ f :
  Forall (in_range f) is_ ->
  exists f', setBits is_ f = (Ok tt, f') /\ same_shape f f'
    /\ forall j, (0 <= j)%Z -> bit f' j = bool_decide (j ∈ is_) || bit f j.
Proof.
  revert f. induction is_ as [|i is_ IH]; intros f Hr.
  { exists f. split_and!; [done..|]. intros j _. by rewrite bool_decide_eq_false_2 by apply not_elem_of_nil. }
  apply Forall_cons in Hr as [Hi Hr]. destruct (setBit_spec f i Hi) as (f1 & Hs & Hsh & Hb).
  destruct (IH f1) as (f2 & Hs2 & Hsh2 & Hb2).
  { eapply Forall_impl; [exact Hr|]. intros j. unfold in_range. by destruct Hsh as (-> & _). }
  exists f2. cbn [setBits]. rewrite Hs. split; [done|]. split.
  { destruct Hsh as (? & ? & ?), Hsh2 as (? & ? & ?). split_and!; congruence. }
  intros j Hj. rewrite Hb2, Hb by done. rewrite orb_assoc. f_equal.
  destruct (Z.eqb_spec j i) as [->|Hne].
  - rewrite orb_true_r. symmetry. apply bool_decide_eq_true_2. by left.
  - rewrite orb_false_r. apply bool_decide_ext. rewrite elem_of_cons. naive_solver.
Qed.

Lemma getBits_spec is_ f : Forall (in_range f) is_ -> getBits is_ f = Ok (forallb (bit f) is_).
Proof.
  induction 1 as [|i is_ Hi Hr IH]; [done|]. cbn [getBits forallb]. rewrite getBit_bit by done.
  cbn [mbind res_bind]. by destruct (bit f i).
Qed.

Lemma Add_spec b f :
  usable f ->
  exists f', Add b f = (Ok tt, f') /\ same_shape f f'
    /\ forall j, (0 <= j)%Z -> bit f' j = bool_decide (j ∈ indices b f) || bit f j.
Proof.
  intros Hu. unfold Add. rewrite getBitIndicies_Ok by done. by apply setBits_spec, indices_in_range.
Qed.

Lemma Find_spec b f : usable f -> Find b f = (Ok (forallb (bit f) (indices b f)), f).
Proof.
  intros Hu. unfold Find. rewrite getBitIndicies_Ok by done. by rewrite getBits_spec by by apply indices_in_range.
Qed.

(** Adding several keys, one call after the other. *)
Fixpoint adds (ks : list bytes) (f : filter_) : res unit * filter_ :=
  match ks with
  | [] => (Ok tt, f)
  | b :: ks => match Add b f with (Ok _, f) => adds ks f | (r, f) => (r, f) end
  end.

Definition some_index (ks : list bytes) (f : filter_) (j : Z) : bool :=
  existsb (fun b => bool_decide (j ∈ indices b f)) ks.

Lemma adds_spec ks f :
  usable f ->
  exists f', adds ks f = (Ok tt, f') /\ same_shape f f'
    /\ forall j, (0 <= j)%Z -> bit f' j = some_index ks f j || bit f j.
Proof.
  revert f. induction ks as [|b ks IH]; intros f Hu; [by exists f|].
  destruct (Add_spec b f Hu) as (f1 & Ha & Hsh & Hb).
  destruct (IH f1 (same_shape_usable _ _ Hsh Hu)) as (f2 & Ha2 & Hsh2 & Hb2).
  exists f2. cbn [adds]. rewrite Ha. split; [done|]. split.
  { destruct Hsh as (? & ? & ?), Hsh2 as (? & ? & ?). split_and!; congruence. }
  intros j Hj. rewrite Hb2, Hb by done. unfold some_index. cbn [existsb].
  rewrite (orb_comm (bool_decide _) (existsb _ _)), <- orb_assoc. f_equal.
  clear -Hsh. induction ks as [|b' ks IH]; [done|]. cbn [existsb].
  by rewrite IH, (same_shape_indices f f1 b' Hsh).
Qed.

(** A new filter has no bit set. *)
Lemma NewFilter_spec size :
  (0 <= size)%Z -> exists f, NewFilter size = Ok f /\ hash f = Jenkins.New
    /\ modulus f = u32 (u32 size * 8) /\ Z.of_nat (length (filter f)) = size
    /\ forall j, bit f j = false.
Proof.
  intros Hs. unfold NewFilter. destruct (Z.ltb_spec size 0); [lia|]. eexists. split; [reflexivity|].
  unfold modulus. cbn [filter hash]. rewrite length_replicate, Z2Nat.id by done. split_and!; [done..|].
  intros j. unfold bit. cbn [filter]. destruct (replicate _ _ !! _) as [b|] eqn:Hb; [|done].
  apply lookup_replicate in Hb as [-> _]. apply Z.bits_0.
Qed.

(** Filters of one shape with the same bits are equal. *)
Lemma filter_ext f g :
  same_shape f g -> (forall j, in_range f j -> bit f j = bit g j) -> f = g.
Proof.
  intros (Hl & Hh & Hk) Hb. destruct f as [fl fh fk], g as [gl gh gk]. cbn in *. subst. f_equal.
  apply list_eq. intros n. destruct (decide (n < length fl)) as [Hn|Hn].
  - destruct (lookup_lt_is_Some_2 fl n Hn) as [a Ha].
    destruct (lookup_lt_is_Some_2 gl n ltac:(lia)) as [b Hgb]. rewrite Ha, Hgb. f_equal.
    apply (inj Z_of_byte), Z.bits_inj'. intros i Hi.
    destruct (Z.ltb_spec i 8); [|by rewrite !testbit_byte_small].
    specialize (Hb (8 * Z.of_nat n + i)%Z). unfold in_range, bit in Hb. cbn [filter] in Hb.
    rewrite (Z.mul_comm 8), Z.div_add_l, Z.div_small, Z.add_0_r, Nat2Z.id, Ha, Hgb in Hb by lia.
    rewrite Z.add_comm, Z.mod_add, Z.mod_small in Hb by lia. apply Hb. lia.
  - by rewrite !lookup_ge_None_2 by lia.
Qed.

Lemma Merge_spec f g :
  same_shape f g ->
  exists h, Merge (Some g) f = Ok h /\ same_shape f h
    /\ forall j, (0 <= j)%Z -> bit h j = bit f j || bit g j.
Proof.
  intros (Hl & Hh & Hk). unfold Merge. rewrite Hl, Hk, !Nat.eqb_refl. cbn [negb]. eexists.
  split; [reflexivity|]. split; [split_and!; [cbn; rewrite length_zip_with; lia|done..]|].
  intros j Hj. unfold bit. cbn [filter]. rewrite lookup_zip_with.
  pose proof (Z.mod_pos_bound j 8 ltac:(lia)).
  destruct (decide (Z.to_nat (j / 8) < length (filter f))) as [Hn|Hn].
  - destruct (lookup_lt_is_Some_2 _ _ Hn) as [a ->].
    destruct (lookup_lt_is_Some_2 (filter g) (Z.to_nat (j / 8)) ltac:(lia)) as [b ->]. simpl.
    by rewrite testbit_byte_of_Z, Z.lor_spec by lia.
  - by rewrite !lookup_ge_None_2 by lia.
Qed.

(** ** Theorems *)

Lemma some_index_elem ks f b j : b ∈ ks -> j ∈ indices b f -> some_index ks f j = true.
Proof.
  intros Hb Hj. unfold some_index. apply existsb_exists. exists b.
  split; [by apply list_elem_of_In|by apply bool_decide_eq_true].
Qed.

Lemma new_usable size f : NewFilter size = Ok f -> u32 (u32 size * 8) <> 0%Z ->
  (0 <= size)%Z /\ usable f /\ forall j, bit f j = false.
Proof.
  intros Hn Hm. assert (Hs : (0 <= size)%Z) by (unfold NewFilter in Hn; by destruct (Z.ltb_spec size 0)).
  destruct (NewFilter_spec size Hs) as (f' & Hn' & Hh & Hmod & _ & Hb).
  rewrite Hn in Hn'. injection Hn' as <-. split; [done|]. split; [split; [done|by rewrite Hmod]|done].
Qed.

(** C31. A filter answers [Find] by the keys added to it, with no false negative:
    after any sequence of [Add] calls on a new filter, every key added is found,
    and [Find] says yes exactly when each bit of the key was set by some key. No
    call panics, given a size whose bit count is not 0 modulo 2^32. *)
Theorem Find_no_false_negative size f0 ks :
  NewFilter size = Ok f0 -> u32 (u32 size * 8) <> 0%Z ->
  exists f, adds ks f0 = (Ok tt, f)
    /\ (forall b, b ∈ ks -> Find b f = (Ok true, f))
    /\ (forall b, Find b f = (Ok (forallb (some_index ks f0) (indices b f0)), f)).
Proof.
  intros Hn Hm. destruct (new_usable size f0 Hn Hm) as (_ & Hu & H0).
  destruct (adds_spec ks f0 Hu) as (f & Ha & Hsh & Hb). exists f. split; [done|].
  assert (Hfind : forall b, Find b f = (Ok (forallb (some_index ks f0) (indices b f0)), f)).
  { intros b. rewrite Find_spec by by eapply same_shape_usable.
    rewrite <- (same_shape_indices f0 f b Hsh). do 2 f_equal.
    pose proof (indices_in_range b f0 Hu) as Hr.
    induction Hr as [|j l Hj Hr IH]; [done|]. cbn [forallb]. unfold in_range in Hj.
    by rewrite IH, Hb, H0, orb_false_r by lia. }
  split; [|done]. intros b Hin. rewrite Hfind. do 2 f_equal. apply forallb_forall.
  intros j Hj. by apply (some_index_elem ks f0 b), list_elem_of_In.
Qed.

Lemma Find_no_false_negative_witness :
  exists f0 f, NewFilter 128 = Ok f0 /\ adds [str "hello"; str "fish"] f0 = (Ok tt, f)
    /\ Find (str "fish") f = (Ok true, f).
Proof.
  destruct (Find_no_false_negative 128 (mkFilter (replicate 128 x00) 0 3) [str "hello"; str "fish"]
    eq_refl ltac:(by vm_compute)) as (f & Ha & Hf & _).
  eexists _, f. split; [reflexivity|]. split; [exact Ha|]. apply Hf. right. by left.
Defined.

(** The order of the keys, and adding one twice, make no difference. *)
Lemma adds_ext f0 ks ks' :
  usable f0 -> (forall b, b ∈ ks <-> b ∈ ks') -> adds ks f0 = adds ks' f0.
Proof.
  intros Hu Hks. destruct (adds_spec ks f0 Hu) as (f & -> & Hsh & Hb).
  destruct (adds_spec ks' f0 Hu) as (f' & -> & Hsh' & Hb'). f_equal. apply filter_ext.
  { destruct Hsh as (? & ? & ?), Hsh' as (? & ? & ?). split_and!; congruence. }
  intros j [Hj _]. rewrite Hb, Hb' by done. f_equal. unfold some_index.
  apply eq_true_iff_eq. rewrite !existsb_exists.
  split; intros (b & Hin & Hidx); exists b; (split; [|done]);
    apply list_elem_of_In; apply list_elem_of_In in Hin; by apply Hks.
Qed.

Lemma adds_Find f0 ks f b : usable f0 -> adds ks f0 = (Ok tt, f) -> b ∈ ks -> Find b f = (Ok true, f).
Proof.
  intros Hu Ha Hin. destruct (adds_spec ks f0 Hu) as (f' & Ha' & Hsh & Hb).
  rewrite Ha in Ha'. injection Ha' as <-. rewrite Find_spec by by eapply same_shape_usable.
  do 2 f_equal. apply forallb_forall. intros j Hj%list_elem_of_In.
  rewrite <- (same_shape_indices f0 f b Hsh) in Hj.
  pose proof (proj1 (Forall_forall _ _) (indices_in_range b f0 Hu) j Hj) as [Hj0 _].
  by rewrite Hb, (some_index_elem ks f0 b j).
Qed.

(** [Merge] of two filters of one size is the filter that all the keys of both
    would have given; the order of the keys, and adding one twice, make no
    difference. *)
Theorem Merge_union size f0 ks1 ks2 f1 f2 :
  NewFilter size = Ok f0 -> u32 (u32 size * 8) <> 0%Z ->
  adds ks1 f0 = (Ok tt, f1) -> adds ks2 f0 = (Ok tt, f2) ->
  exists f, Merge (Some f2) f1 = Ok f /\ adds (ks1 ++ ks2) f0 = (Ok tt, f)
    /\ (forall ks, (forall b, b ∈ ks <-> b ∈ ks1 ++ ks2) -> adds ks f0 = (Ok tt, f)).
Proof.
  intros Hn Hm H1 H2. destruct (new_usable size f0 Hn Hm) as (_ & Hu & H0).
  destruct (adds_spec ks1 f0 Hu) as (f1' & H1' & Hsh1 & Hb1). rewrite H1 in H1'. injection H1' as <-.
  destruct (adds_spec ks2 f0 Hu) as (f2' & H2' & Hsh2 & Hb2). rewrite H2 in H2'. injection H2' as <-.
  destruct (Merge_spec f1 f2) as (f & Hmerge & Hshf & Hbf).
  { destruct Hsh1 as (? & ? & ?), Hsh2 as (? & ? & ?). split_and!; congruence. }
  exists f. split; [done|].
  assert (Happ : adds (ks1 ++ ks2) f0 = (Ok tt, f)).
  { destruct (adds_spec (ks1 ++ ks2) f0 Hu) as (f3 & H3 & Hsh3 & Hb3). rewrite H3. f_equal.
    apply filter_ext.
    { destruct Hsh1 as (? & ? & ?), Hsh3 as (? & ? & ?), Hshf as (? & ? & ?). split_and!; congruence. }
    intros j [Hj _]. rewrite Hb3, Hbf, Hb1, Hb2, H0, !orb_false_r by done.
    apply existsb_app. }
  split; [done|]. intros ks Hks. by rewrite (adds_ext f0 ks (ks1 ++ ks2)).
Qed.

Lemma Merge_union_witness :
  exists f0 f1 f2 f, NewFilter 64 = Ok f0 /\ adds [str "a"] f0 = (Ok tt, f1)
    /\ adds [str "b"] f0 = (Ok tt, f2) /\ Merge (Some f2) f1 = Ok f
    /\ adds [str "a"; str "b"] f0 = (Ok tt, f).
Proof.
  destruct (Merge_union 64 (mkFilter (replicate 64 x00) 0 3) [str "a"] [str "b"]
    (adds [str "a"] (mkFilter (replicate 64 x00) 0 3)).2
    (adds [str "b"] (mkFilter (replicate 64 x00) 0 3)).2 eq_refl ltac:(by vm_compute)
    ltac:(vm_compute; reflexivity) ltac:(vm_compute; reflexivity)) as (f & H1 & H2 & _).
  exists (mkFilter (replicate 64 x00) 0 3), (adds [str "a"] (mkFilter (replicate 64 x00) 0 3)).2,
    (adds [str "b"] (mkFilter (replicate 64 x00) 0 3)).2, f.
  split; [reflexivity|]. split; [vm_compute; reflexivity|]. split; [vm_compute; reflexivity|].
  split; [exact H1|exact H2].
Defined.

(** [HammingDistance] is a metric on filters of one length: zero exactly for
    equal bits, symmetric, with the triangle inequality. Filters of different
    lengths, and filters of another type, give an error in both methods. *)
Theorem HammingDistance_metric f g h :
  length (filter f) = length (filter g) -> length (filter g) = length (filter h) ->
  (exists d, HammingDistance (Some g) f = Ok d /\ (0 <= d)%Z
     /\ (d = 0%Z <-> filter f = filter g) /\ HammingDistance (Some f) g = Ok d
     /\ exists d1 d2, HammingDistance (Some h) f = Ok d1 /\ HammingDistance (Some h) g = Ok d2
          /\ (d1 <= d + d2)%Z)
  /\ (forall o, length (filter o) <> length (filter f) ->
        (exists e, HammingDistance (Some o) f = Err e) /\ exists e, Merge (Some o) f = Err e)
  /\ (exists e, HammingDistance None f = Err e) /\ exists e, Merge None f = Err e.
Proof.
  intros H1 H2. destruct (dist_metric (filter f) (filter g) (filter h) H1 H2) as (Hnn & Hz & Hc & Ht).
  assert (Hd : forall a b, length (filter a) = length (filter b) ->
            HammingDistance (Some b) a = Ok (dist (filter a) (filter b))).
  { intros a b Hl. unfold HammingDistance. rewrite Hl, Nat.eqb_refl. cbn [negb].
    rewrite Bytes_dist, decide_True by lia. done. }
  split_and!; [| |by eexists|by eexists].
  - exists (dist (filter f) (filter g)). rewrite !Hd by lia. split_and!; [done..|by rewrite Hc|].
    eexists _, _. split_and!; done.
  - intros o Ho. unfold HammingDistance, Merge.
    destruct (Nat.eqb_spec (length (filter f)) (length (filter o))); [by symmetry in e|].
    destruct (Nat.eqb_spec (length (filter o)) (length (filter f))); [done|].
    split; by eexists.
Qed.

Lemma HammingDistance_metric_witness :
  exists d, HammingDistance (Some (mkFilter [x03] 0 3)) (mkFilter [x00] 0 3) = Ok d /\ (0 <= d)%Z.
Proof.
  destruct (HammingDistance_metric (mkFilter [x00] 0 3) (mkFilter [x03] 0 3) (mkFilter [x01] 0 3)
    eq_refl eq_refl) as ((d & H1 & H2 & _) & _).
  exists d. exact (conj H1 H2).
Defined.

(** A filter whose size in bits is 0 modulo 2^32 (size 0, or a multiple of
    2^29 bytes) panics in [Add] and [Find], on every key, with a division by
    zero; a negative size panics in [NewFilter]. *)
Theorem NewFilter_size_panics size b :
  (size < 0)%Z \/ u32 (u32 size * 8) = 0%Z ->
  NewFilter size = Panic
  \/ exists f, NewFilter size = Ok f /\ (Add b f).1 = Panic /\ (Find b f).1 = Panic.
Proof.
  intros H. destruct (Z.ltb_spec size 0) as [Hs|Hs].
  - left. unfold NewFilter. by destruct (Z.ltb_spec size 0); [|lia].
  - right. destruct H as [|Hm]; [lia|]. unfold NewFilter. destruct (Z.ltb_spec size 0); [lia|].
    eexists. split; [reflexivity|]. unfold Add, Find, getBitIndicies. cbn [filter hash k].
    rewrite length_replicate, Z2Nat.id by lia. rewrite Hm. done.
Qed.

Lemma NewFilter_size_panics_witness :
  u32 (u32 (2 ^ 29) * 8) = 0%Z
  /\ (NewFilter 0 = Panic
      \/ exists f, NewFilter 0 = Ok f /\ (Add (str "x") f).1 = Panic /\ (Find (str "x") f).1 = Panic).
Proof. split; [reflexivity|]. apply (NewFilter_size_panics 0 (str "x")). by right. Defined.
