(* ===== verification/Sha2.v ===== *)
(** * The digests of Go's [crypto/sha1], [crypto/sha256] and [crypto/sha512]

    The multihash package calls these three functions of the standard library.
    They are the FIPS 180-4 digests, written here on lists of words; each is
    checked on the standard's own examples. *)

From S2P Require Import Prelude.

Local Open Scope Z_scope.

(** ** Words

    A word of [w] bits is an integer modulo [2 ^ w]. *)
Section Words.
Context (w : Z).

Definition word (z : Z) : Z := z mod 2 ^ w.
Definition rotr (n x : Z) : Z := Z.lor (Z.shiftr x n) (word (Z.shiftl x (w - n))).
Definition Ch (x y z : Z) : Z := Z.lxor (Z.land x y) (Z.land (2 ^ w - 1 - x) z).
Definition Maj (x y z : Z) : Z :=
  Z.lxor (Z.lxor (Z.land x y) (Z.land x z)) (Z.land y z).
Definition xor3 (x y z : Z) : Z := Z.lxor (Z.lxor x y) z.

(** The big-endian bytes of a word. *)
Definition word_bytes (x : Z) : bytes :=
  map (fun i => byte_of_Z (Z.shiftr x (w - 8 - 8 * Z.of_nat i)))
    (seq 0 (Z.to_nat (w / 8))).

(** Splitting a padded message into words, [n] bytes each. *)
Fixpoint chunks {A} (fuel n : nat) (l : list A) : list (list A) :=
  match fuel, l with
  | O, _ | _, [] => []
  | S fuel, _ => take n l :: chunks fuel n (drop n l)
  end.

Definition message_words (b : bytes) : list Z :=
  map (fun c => of_digits 256 (map Z_of_byte c))
    (chunks (length b) (Z.to_nat (w / 8)) b).

(** The padding: a one bit, zeros, and the length in bits on [2 * w] bits. *)
Definition pad (b : bytes) : bytes :=
  let len := Z.of_nat (length b) in
  let block := 2 * w in (* bytes per block: 16 words of [w / 8] bytes *)
  let zeros := (block - 1 - w / 4 - len) mod block in
  b ++ [byte_of_Z 128] ++ replicate (Z.to_nat zeros) x00
    ++ map (fun i => byte_of_Z (Z.shiftr (8 * len) (2 * w - 8 - 8 * Z.of_nat i)))
         (seq 0 (Z.to_nat (w / 4))).
End Words.

(** ** SHA-256 and SHA-512 share their structure *)
Record sha2 := {
  sha_w : Z;                    (* bits per word *)
  sha_k : list Z;               (* round constants *)
  sha_S0 : Z * Z * Z;           (* rotations of the large Sigma 0 *)
  sha_S1 : Z * Z * Z;
  sha_s0 : Z * Z * Z;           (* two rotations and a shift *)
  sha_s1 : Z * Z * Z;
  sha_iv : list Z;
}.

Section Sha2.
Context (h : sha2).
Abbreviation w := (sha_w h).

Definition Sigma (r : Z * Z * Z) (x : Z) : Z :=
  let '(a, b, c) := r in xor3 (rotr w a x) (rotr w b x) (rotr w c x).
Definition sigma (r : Z * Z * Z) (x : Z) : Z :=
  let '(a, b, c) := r in xor3 (rotr w a x) (rotr w b x) (Z.shiftr x c).

(** The message schedule, kept as the last sixteen words, most recent first. *)
Definition schedule_next (ws : list Z) : Z :=
  word w (sigma (sha_s1 h) (ws !!! 1%nat) + ws !!! 6%nat
          + sigma (sha_s0 h) (ws !!! 14%nat) + ws !!! 15%nat).

Fixpoint schedule (fuel : nat) (ws : list Z) : list Z :=
  match fuel with
  | O => []
  | S fuel => let x := schedule_next ws in x :: schedule fuel (x :: take 15 ws)
  end.

Definition round (st : list Z) (kw : Z * Z) : list Z :=
  match st with
  | [a; b; c; d; e; f; g; h0] =>
      let t1 := h0 + Sigma (sha_S1 h) e + Ch w e f g + fst kw + snd kw in
      let t2 := Sigma (sha_S0 h) a + Maj a b c in
      [word w (t1 + t2); a; b; c; word w (d + t1); e; f; g]
  | _ => st
  end.

Definition compress (st ws : list Z) : list Z :=
  let all := ws ++ schedule (length (sha_k h) - 16) (rev ws) in
  zip_with (fun x y => word w (x + y)) st
    (fold_left round (zip (sha_k h) all) st).

Definition Sum (b : bytes) : bytes :=
  let ws := message_words w (pad w b) in
  concat (map (word_bytes w)
    (fold_left compress (chunks (length ws) 16 ws) (sha_iv h))).
End Sha2.

(** The standard takes its constants from the fractional parts of the cube roots
    and square roots of the first primes; they are computed here the same way. *)
Definition is_prime (n : Z) : bool :=
  forallb (fun d => negb (n mod Z.of_nat d =? 0)) (seq 2 (Z.to_nat (Z.sqrt n) - 1)).
Definition primes (n : nat) : list Z :=
  take n (List.filter is_prime (map Z.of_nat (seq 2 500))).

(** The integer cube root, bit by bit. *)
Definition cbrt (n : Z) : Z :=
  fold_left (fun r i => let r' := r + 2 ^ Z.of_nat i in if r' ^ 3 <=? n then r' else r)
    (rev (seq 0 80)) 0.

Definition cube_constants (w : Z) (n : nat) : list Z :=
  map (fun p => cbrt (p * 2 ^ (3 * w)) mod 2 ^ w) (primes n).
Definition square_constants (w : Z) (n : nat) : list Z :=
  map (fun p => Z.sqrt (p * 2 ^ (2 * w)) mod 2 ^ w) (primes n).

Definition sha256 : sha2 := Eval vm_compute in {|
  sha_w := 32;
  sha_k := cube_constants 32 64;
  sha_S0 := (2, 13, 22); sha_S1 := (6, 11, 25);
  sha_s0 := (7, 18, 3); sha_s1 := (17, 19, 10);
  sha_iv := square_constants 32 8;
|}.

Definition sha512 : sha2 := Eval vm_compute in {|
  sha_w := 64;
  sha_k := cube_constants 64 80;
  sha_S0 := (28, 34, 39); sha_S1 := (14, 18, 41);
  sha_s0 := (1, 8, 7); sha_s1 := (19, 61, 6);
  sha_iv := square_constants 64 8;
|}.

(** [sha256.Sum256] and [sha512.Sum512]. *)
Definition sha256_Sum256 : bytes -> bytes := Sum sha256.
Definition sha512_Sum512 : bytes -> bytes := Sum sha512.

(** ** SHA-1 *)
Module Sha1.
Definition rotl (n x : Z) : Z := rotr 32 (32 - n) x.

Definition f (t : nat) (x y z : Z) : Z :=
  if (t <? 20)%nat then Ch 32 x y z
  else if (t <? 40)%nat then xor3 x y z
  else if (t <? 60)%nat then Maj x y z
  else xor3 x y z.

Definition k (t : nat) : Z :=
  if (t <? 20)%nat then 0x5a827999
  else if (t <? 40)%nat then 0x6ed9eba1
  else if (t <? 60)%nat then 0x8f1bbcdc
  else 0xca62c1d6.

Fixpoint schedule (fuel : nat) (ws : list Z) : list Z :=
  match fuel with
  | O => []
  | S fuel =>
      let x := rotl 1 (Z.lxor (xor3 (ws !!! 2%nat) (ws !!! 7%nat) (ws !!! 13%nat))
                         (ws !!! 15%nat)) in
      x :: schedule fuel (x :: take 15 ws)
  end.

Definition round (st : list Z) (tw : nat * Z) : list Z :=
  match st with
  | [a; b; c; d; e] =>
      [word 32 (rotl 5 a + f (fst tw) b c d + e + k (fst tw) + snd tw);
       a; rotl 30 b; c; d]
  | _ => st
  end.

Definition compress (st ws : list Z) : list Z :=
  let all := ws ++ schedule 64 (rev ws) in
  zip_with (fun x y => word 32 (x + y)) st
    (fold_left round (zip (seq 0 80) all) st).

Definition iv : list Z :=
  [0x67452301; 0xefcdab89; 0x98badcfe; 0x10325476; 0xc3d2e1f0].
End Sha1.

(** [sha1.Sum]. *)
Definition sha1_Sum (b : bytes) : bytes :=
  let ws := message_words 32 (pad 32 b) in
  concat (map (word_bytes 32)
    (fold_left Sha1.compress (chunks (length ws) 16 ws) Sha1.iv)).

Definition hexval (b : bytes) : Z := of_digits 256 (map Z_of_byte b).

Example sha1_abc : hexval (sha1_Sum (str "abc")) = 0xa9993e364706816aba3e25717850c26c9cd0d89d.
Proof. vm_compute. reflexivity. Qed.
Example sha256_abc : hexval (sha256_Sum256 (str "abc")) = 0xba7816bf8f01cfea414140de5dae2223b00361a396177a9cb410ff61f20015ad.
Proof. vm_compute. reflexivity. Qed.
Example sha256_two_blocks :
  hexval (sha256_Sum256 (str "abcdbcdecdefdefgefghfghighijhijkijkljklmklmnlmnomnopnopq"))
  = 0x248d6a61d20638b8e5c026930c3e6039a33ce45964ff2167f6ecedd419db06c1.
Proof. vm_compute. reflexivity. Qed.
Example sha512_abc : hexval (sha512_Sum512 (str "abc")) = 0xddaf35a193617abacc417349ae20413112e6fa4e89a97ea20a9eeee64b55d39a2192992a274fc1a836ba3c23a3feebbd454d4423643ce80e2a9ac94fa54ca49f.
Proof. vm_compute. reflexivity. Qed.

(** ** Lengths *)

Lemma word_bytes_length w x : length (word_bytes w x) = Z.to_nat (w / 8).
Proof. unfold word_bytes. by rewrite length_map, length_seq. Qed.

Lemma concat_word_bytes_length w l :
  length (concat (map (word_bytes w) l)) = (length l * Z.to_nat (w / 8))%nat.
Proof.
  induction l as [|x l IH]; [done|]. simpl. rewrite length_app, word_bytes_length, IH. lia.
Qed.

Lemma fold_left_length {A B} (f : list A -> B -> list A) l st :
  (forall st x, length (f st x) = length st) -> length (fold_left f l st) = length st.
Proof.
  intros Hf. revert st. induction l as [|x l IH]; intros st; [done|]. simpl. by rewrite IH, Hf.
Qed.

Lemma round_length h st kw : length (round h st kw) = length st.
Proof. unfold round. by do 9 (destruct st as [|? st]; [done|]). Qed.

Lemma compress_length h st ws : length (compress h st ws) = length st.
Proof.
  unfold compress. rewrite length_zip_with, fold_left_length by apply round_length. lia.
Qed.

Lemma sha1_compress_length st ws : length (Sha1.compress st ws) = length st.
Proof.
  unfold Sha1.compress. rewrite length_zip_with, fold_left_length; [lia|].
  intros st' x. unfold Sha1.round. by do 6 (destruct st' as [|? st']; [done|]).
Qed.

Lemma sha1_Sum_length b : length (sha1_Sum b) = 20%nat.
Proof.
  unfold sha1_Sum. by rewrite concat_word_bytes_length, fold_left_length
    by apply sha1_compress_length.
Qed.

Lemma sha2_Sum_length h b : length (Sum h b) = (length (sha_iv h) * Z.to_nat (sha_w h / 8))%nat.
Proof.
  unfold Sum. by rewrite concat_word_bytes_length, fold_left_length by apply compress_length.
Qed.

Lemma sha256_Sum256_length b : length (sha256_Sum256 b) = 32%nat.
Proof. apply sha2_Sum_length. Qed.

Lemma sha512_Sum512_length b : length (sha512_Sum512 b) = 64%nat.
Proof. apply sha2_Sum_length. Qed.
