(* ===== verification/Keccak.v ===== *)
(** * SHA-3 and SHAKE

    Models [Godeps/.../golang.org/x/crypto/sha3]: the unrolled permutation of
    [keccakf.go], the sponge of [sha3.go], the two implementations of [xorIn]
    and [copyOut], and the constructors of [hashes.go] and [shake.go].

    The permutation's [*[25]uint64] is a list of 25 lanes, each a [Z] below
    [2 ^ 64]. The hash state's [buf] slice points into [storage]; only its
    contents matter to the code, so it is a byte list. *)

From S2P Require Import Prelude.

(** ** 64-bit operations *)
Declare Scope lane_scope.
Delimit Scope lane_scope with lane.

Definition shl64 (x n : Z) : Z := u64 (Z.shiftl x n).
Definition andnot (x y : Z) : Z := Z.land x (2 ^ 64 - 1 - y).

Local Notation "x ^^ y" := (Z.lxor x y) (at level 50, left associativity) : lane_scope.
Local Notation "x &^ y" := (andnot x y) (at level 38, left associativity) : lane_scope.
Local Notation "x <<< n" := (shl64 x n) (at level 38, left associativity) : lane_scope.
Local Notation "x >>> n" := (Z.shiftr x n) (at level 38, left associativity) : lane_scope.
Local Notation "x ||| y" := (Z.lor x y) (at level 50, left associativity) : lane_scope.
Local Notation "a .[ i ]" := (a !!! i%nat) (at level 1, left associativity, format "a .[ i ]") : lane_scope.

(** ** keccakf.go *)

(** var rc = [24]uint64 *)
Definition rc : list Z :=
  [0x0000000000000001; 0x0000000000008082; 0x800000000000808A;
   0x8000000080008000; 0x000000000000808B; 0x0000000080000001;
   0x8000000080008081; 0x8000000000008009; 0x000000000000008A;
   0x0000000000000088; 0x0000000080008009; 0x000000008000000A;
   0x000000008000808B; 0x800000000000008B; 0x8000000000008089;
   0x8000000000008003; 0x8000000000008002; 0x8000000000000080;
   0x000000000000800A; 0x800000008000000A; 0x8000000080008081;
   0x8000000000008080; 0x0000000080000001; 0x8000000080008008]%Z.

Section Rounds.
Local Open Scope Z_scope.
Local Open Scope lane_scope.

(** Round 1 of the unrolled loop body; [rc] is the round's constant. *)
Definition keccak_round1 (rc : Z) (a : list Z) : list Z :=
  let bc0 := a.[0] ^^ a.[5] ^^ a.[10] ^^ a.[15] ^^ a.[20] in
  let bc1 := a.[1] ^^ a.[6] ^^ a.[11] ^^ a.[16] ^^ a.[21] in
  let bc2 := a.[2] ^^ a.[7] ^^ a.[12] ^^ a.[17] ^^ a.[22] in
  let bc3 := a.[3] ^^ a.[8] ^^ a.[13] ^^ a.[18] ^^ a.[23] in
  let bc4 := a.[4] ^^ a.[9] ^^ a.[14] ^^ a.[19] ^^ a.[24] in
  let d0 := bc4 ^^ ((bc1 <<< 1) ||| (bc1 >>> 63)) in
  let d1 := bc0 ^^ ((bc2 <<< 1) ||| (bc2 >>> 63)) in
  let d2 := bc1 ^^ ((bc3 <<< 1) ||| (bc3 >>> 63)) in
  let d3 := bc2 ^^ ((bc4 <<< 1) ||| (bc4 >>> 63)) in
  let d4 := bc3 ^^ ((bc0 <<< 1) ||| (bc0 >>> 63)) in
  let bc0 := a.[0] ^^ d0 in
  let t := a.[6] ^^ d1 in
  let bc1 := (t <<< 44) ||| (t >>> 20) in
  let t := a.[12] ^^ d2 in
  let bc2 := (t <<< 43) ||| (t >>> 21) in
  let t := a.[18] ^^ d3 in
  let bc3 := (t <<< 21) ||| (t >>> 43) in
  let t := a.[24] ^^ d4 in
  let bc4 := (t <<< 14) ||| (t >>> 50) in
  let a := <[0%nat := bc0 ^^ (bc2 &^ bc1) ^^ rc]> a in
  let a := <[6%nat := bc1 ^^ (bc3 &^ bc2)]> a in
  let a := <[12%nat := bc2 ^^ (bc4 &^ bc3)]> a in
  let a := <[18%nat := bc3 ^^ (bc0 &^ bc4)]> a in
  let a := <[24%nat := bc4 ^^ (bc1 &^ bc0)]> a in
  let t := a.[10] ^^ d0 in
  let bc2 := (t <<< 3) ||| (t >>> 61) in
  let t := a.[16] ^^ d1 in
  let bc3 := (t <<< 45) ||| (t >>> 19) in
  let t := a.[22] ^^ d2 in
  let bc4 := (t <<< 61) ||| (t >>> 3) in
  let t := a.[3] ^^ d3 in
  let bc0 := (t <<< 28) ||| (t >>> 36) in
  let t := a.[9] ^^ d4 in
  let bc1 := (t <<< 20) ||| (t >>> 44) in
  let a := <[10%nat := bc0 ^^ (bc2 &^ bc1)]> a in
  let a := <[16%nat := bc1 ^^ (bc3 &^ bc2)]> a in
  let a := <[22%nat := bc2 ^^ (bc4 &^ bc3)]> a in
  let a := <[3%nat := bc3 ^^ (bc0 &^ bc4)]> a in
  let a := <[9%nat := bc4 ^^ (bc1 &^ bc0)]> a in
  let t := a.[20] ^^ d0 in
  let bc4 := (t <<< 18) ||| (t >>> 46) in
  let t := a.[1] ^^ d1 in
  let bc0 := (t <<< 1) ||| (t >>> 63) in
  let t := a.[7] ^^ d2 in
  let bc1 := (t <<< 6) ||| (t >>> 58) in
  let t := a.[13] ^^ d3 in
  let bc2 := (t <<< 25) ||| (t >>> 39) in
  let t := a.[19] ^^ d4 in
  let bc3 := (t <<< 8) ||| (t >>> 56) in
  let a := <[20%nat := bc0 ^^ (bc2 &^ bc1)]> a in
  let a := <[1%nat := bc1 ^^ (bc3 &^ bc2)]> a in
  let a := <[7%nat := bc2 ^^ (bc4 &^ bc3)]> a in
  let a := <[13%nat := bc3 ^^ (bc0 &^ bc4)]> a in
  let a := <[19%nat := bc4 ^^ (bc1 &^ bc0)]> a in
  let t := a.[5] ^^ d0 in
  let bc1 := (t <<< 36) ||| (t >>> 28) in
  let t := a.[11] ^^ d1 in
  let bc2 := (t <<< 10) ||| (t >>> 54) in
  let t := a.[17] ^^ d2 in
  let bc3 := (t <<< 15) ||| (t >>> 49) in
  let t := a.[23] ^^ d3 in
  let bc4 := (t <<< 56) ||| (t >>> 8) in
  let t := a.[4] ^^ d4 in
  let bc0 := (t <<< 27) ||| (t >>> 37) in
  let a := <[5%nat := bc0 ^^ (bc2 &^ bc1)]> a in
  let a := <[11%nat := bc1 ^^ (bc3 &^ bc2)]> a in
  let a := <[17%nat := bc2 ^^ (bc4 &^ bc3)]> a in
  let a := <[23%nat := bc3 ^^ (bc0 &^ bc4)]> a in
  let a := <[4%nat := bc4 ^^ (bc1 &^ bc0)]> a in
  let t := a.[15] ^^ d0 in
  let bc3 := (t <<< 41) ||| (t >>> 23) in
  let t := a.[21] ^^ d1 in
  let bc4 := (t <<< 2) ||| (t >>> 62) in
  let t := a.[2] ^^ d2 in
  let bc0 := (t <<< 62) ||| (t >>> 2) in
  let t := a.[8] ^^ d3 in
  let bc1 := (t <<< 55) ||| (t >>> 9) in
  let t := a.[14] ^^ d4 in
  let bc2 := (t <<< 39) ||| (t >>> 25) in
  let a := <[15%nat := bc0 ^^ (bc2 &^ bc1)]> a in
  let a := <[21%nat := bc1 ^^ (bc3 &^ bc2)]> a in
  let a := <[2%nat := bc2 ^^ (bc4 &^ bc3)]> a in
  let a := <[8%nat := bc3 ^^ (bc0 &^ bc4)]> a in
  let a := <[14%nat := bc4 ^^ (bc1 &^ bc0)]> a in
  a.

(** Round 2 of the unrolled loop body; [rc] is the round's constant. *)
Definition keccak_round2 (rc : Z) (a : list Z) : list Z :=
  let bc0 := a.[0] ^^ a.[5] ^^ a.[10] ^^ a.[15] ^^ a.[20] in
  let bc1 := a.[1] ^^ a.[6] ^^ a.[11] ^^ a.[16] ^^ a.[21] in
  let bc2 := a.[2] ^^ a.[7] ^^ a.[12] ^^ a.[17] ^^ a.[22] in
  let bc3 := a.[3] ^^ a.[8] ^^ a.[13] ^^ a.[18] ^^ a.[23] in
  let bc4 := a.[4] ^^ a.[9] ^^ a.[14] ^^ a.[19] ^^ a.[24] in
  let d0 := bc4 ^^ ((bc1 <<< 1) ||| (bc1 >>> 63)) in
  let d1 := bc0 ^^ ((bc2 <<< 1) ||| (bc2 >>> 63)) in
  let d2 := bc1 ^^ ((bc3 <<< 1) ||| (bc3 >>> 63)) in
  let d3 := bc2 ^^ ((bc4 <<< 1) ||| (bc4 >>> 63)) in
  let d4 := bc3 ^^ ((bc0 <<< 1) ||| (bc0 >>> 63)) in
  let bc0 := a.[0] ^^ d0 in
  let t := a.[16] ^^ d1 in
  let bc1 := (t <<< 44) ||| (t >>> 20) in
  let t := a.[7] ^^ d2 in
  let bc2 := (t <<< 43) ||| (t >>> 21) in
  let t := a.[23] ^^ d3 in
  let bc3 := (t <<< 21) ||| (t >>> 43) in
  let t := a.[14] ^^ d4 in
  let bc4 := (t <<< 14) ||| (t >>> 50) in
  let a := <[0%nat := bc0 ^^ (bc2 &^ bc1) ^^ rc]> a in
  let a := <[16%nat := bc1 ^^ (bc3 &^ bc2)]> a in
  let a := <[7%nat := bc2 ^^ (bc4 &^ bc3)]> a in
  let a := <[23%nat := bc3 ^^ (bc0 &^ bc4)]> a in
  let a := <[14%nat := bc4 ^^ (bc1 &^ bc0)]> a in
  let t := a.[20] ^^ d0 in
  let bc2 := (t <<< 3) ||| (t >>> 61) in
  let t := a.[11] ^^ d1 in
  let bc3 := (t <<< 45) ||| (t >>> 19) in
  let t := a.[2] ^^ d2 in
  let bc4 := (t <<< 61) ||| (t >>> 3) in
  let t := a.[18] ^^ d3 in
  let bc0 := (t <<< 28) ||| (t >>> 36) in
  let t := a.[9] ^^ d4 in
  let bc1 := (t <<< 20) ||| (t >>> 44) in
  let a := <[20%nat := bc0 ^^ (bc2 &^ bc1)]> a in
  let a := <[11%nat := bc1 ^^ (bc3 &^ bc2)]> a in
  let a := <[2%nat := bc2 ^^ (bc4 &^ bc3)]> a in
  let a := <[18%nat := bc3 ^^ (bc0 &^ bc4)]> a in
  let a := <[9%nat := bc4 ^^ (bc1 &^ bc0)]> a in
  let t := a.[15] ^^ d0 in
  let bc4 := (t <<< 18) ||| (t >>> 46) in
  let t := a.[6] ^^ d1 in
  let bc0 := (t <<< 1) ||| (t >>> 63) in
  let t := a.[22] ^^ d2 in
  let bc1 := (t <<< 6) ||| (t >>> 58) in
  let t := a.[13] ^^ d3 in
  let bc2 := (t <<< 25) ||| (t >>> 39) in
  let t := a.[4] ^^ d4 in
  let bc3 := (t <<< 8) ||| (t >>> 56) in
  let a := <[15%nat := bc0 ^^ (bc2 &^ bc1)]> a in
  let a := <[6%nat := bc1 ^^ (bc3 &^ bc2)]> a in
  let a := <[22%nat := bc2 ^^ (bc4 &^ bc3)]> a in
  let a := <[13%nat := bc3 ^^ (bc0 &^ bc4)]> a in
  let a := <[4%nat := bc4 ^^ (bc1 &^ bc0)]> a in
  let t := a.[10] ^^ d0 in
  let bc1 := (t <<< 36) ||| (t >>> 28) in
  let t := a.[1] ^^ d1 in
  let bc2 := (t <<< 10) ||| (t >>> 54) in
  let t := a.[17] ^^ d2 in
  let bc3 := (t <<< 15) ||| (t >>> 49) in
  let t := a.[8] ^^ d3 in
  let bc4 := (t <<< 56) ||| (t >>> 8) in
  let t := a.[24] ^^ d4 in
  let bc0 := (t <<< 27) ||| (t >>> 37) in
  let a := <[10%nat := bc0 ^^ (bc2 &^ bc1)]> a in
  let a := <[1%nat := bc1 ^^ (bc3 &^ bc2)]> a in
  let a := <[17%nat := bc2 ^^ (bc4 &^ bc3)]> a in
  let a := <[8%nat := bc3 ^^ (bc0 &^ bc4)]> a in
  let a := <[24%nat := bc4 ^^ (bc1 &^ bc0)]> a in
  let t := a.[5] ^^ d0 in
  let bc3 := (t <<< 41) ||| (t >>> 23) in
  let t := a.[21] ^^ d1 in
  let bc4 := (t <<< 2) ||| (t >>> 62) in
  let t := a.[12] ^^ d2 in
  let bc0 := (t <<< 62) ||| (t >>> 2) in
  let t := a.[3] ^^ d3 in
  let bc1 := (t <<< 55) ||| (t >>> 9) in
  let t := a.[19] ^^ d4 in
  let bc2 := (t <<< 39) ||| (t >>> 25) in
  let a := <[5%nat := bc0 ^^ (bc2 &^ bc1)]> a in
  let a := <[21%nat := bc1 ^^ (bc3 &^ bc2)]> a in
  let a := <[12%nat := bc2 ^^ (bc4 &^ bc3)]> a in
  let a := <[3%nat := bc3 ^^ (bc0 &^ bc4)]> a in
  let a := <[19%nat := bc4 ^^ (bc1 &^ bc0)]> a in
  a.

(** Round 3 of the unrolled loop body; [rc] is the round's constant. *)
Definition keccak_round3 (rc : Z) (a : list Z) : list Z :=
  let bc0 := a.[0] ^^ a.[5] ^^ a.[10] ^^ a.[15] ^^ a.[20] in
  let bc1 := a.[1] ^^ a.[6] ^^ a.[11] ^^ a.[16] ^^ a.[21] in
  let bc2 := a.[2] ^^ a.[7] ^^ a.[12] ^^ a.[17] ^^ a.[22] in
  let bc3 := a.[3] ^^ a.[8] ^^ a.[13] ^^ a.[18] ^^ a.[23] in
  let bc4 := a.[4] ^^ a.[9] ^^ a.[14] ^^ a.[19] ^^ a.[24] in
  let d0 := bc4 ^^ ((bc1 <<< 1) ||| (bc1 >>> 63)) in
  let d1 := bc0 ^^ ((bc2 <<< 1) ||| (bc2 >>> 63)) in
  let d2 := bc1 ^^ ((bc3 <<< 1) ||| (bc3 >>> 63)) in
  let d3 := bc2 ^^ ((bc4 <<< 1) ||| (bc4 >>> 63)) in
  let d4 := bc3 ^^ ((bc0 <<< 1) ||| (bc0 >>> 63)) in
  let bc0 := a.[0] ^^ d0 in
  let t := a.[11] ^^ d1 in
  let bc1 := (t <<< 44) ||| (t >>> 20) in
  let t := a.[22] ^^ d2 in
  let bc2 := (t <<< 43) ||| (t >>> 21) in
  let t := a.[8] ^^ d3 in
  let bc3 := (t <<< 21) ||| (t >>> 43) in
  let t := a.[19] ^^ d4 in
  let bc4 := (t <<< 14) ||| (t >>> 50) in
  let a := <[0%nat := bc0 ^^ (bc2 &^ bc1) ^^ rc]> a in
  let a := <[11%nat := bc1 ^^ (bc3 &^ bc2)]> a in
  let a := <[22%nat := bc2 ^^ (bc4 &^ bc3)]> a in
  let a := <[8%nat := bc3 ^^ (bc0 &^ bc4)]> a in
  let a := <[19%nat := bc4 ^^ (bc1 &^ bc0)]> a in
  let t := a.[15] ^^ d0 in
  let bc2 := (t <<< 3) ||| (t >>> 61) in
  let t := a.[1] ^^ d1 in
  let bc3 := (t <<< 45) ||| (t >>> 19) in
  let t := a.[12] ^^ d2 in
  let bc4 := (t <<< 61) ||| (t >>> 3) in
  let t := a.[23] ^^ d3 in
  let bc0 := (t <<< 28) ||| (t >>> 36) in
  let t := a.[9] ^^ d4 in
  let bc1 := (t <<< 20) ||| (t >>> 44) in
  let a := <[15%nat := bc0 ^^ (bc2 &^ bc1)]> a in
  let a := <[1%nat := bc1 ^^ (bc3 &^ bc2)]> a in
  let a := <[12%nat := bc2 ^^ (bc4 &^ bc3)]> a in
  let a := <[23%nat := bc3 ^^ (bc0 &^ bc4)]> a in
  let a := <[9%nat := bc4 ^^ (bc1 &^ bc0)]> a in
  let t := a.[5] ^^ d0 in
  let bc4 := (t <<< 18) ||| (t >>> 46) in
  let t := a.[16] ^^ d1 in
  let bc0 := (t <<< 1) ||| (t >>> 63) in
  let t := a.[2] ^^ d2 in
  let bc1 := (t <<< 6) ||| (t >>> 58) in
  let t := a.[13] ^^ d3 in
  let bc2 := (t <<< 25) ||| (t >>> 39) in
  let t := a.[24] ^^ d4 in
  let bc3 := (t <<< 8) ||| (t >>> 56) in
  let a := <[5%nat := bc0 ^^ (bc2 &^ bc1)]> a in
  let a := <[16%nat := bc1 ^^ (bc3 &^ bc2)]> a in
  let a := <[2%nat := bc2 ^^ (bc4 &^ bc3)]> a in
  let a := <[13%nat := bc3 ^^ (bc0 &^ bc4)]> a in
  let a := <[24%nat := bc4 ^^ (bc1 &^ bc0)]> a in
  let t := a.[20] ^^ d0 in
  let bc1 := (t <<< 36) ||| (t >>> 28) in
  let t := a.[6] ^^ d1 in
  let bc2 := (t <<< 10) ||| (t >>> 54) in
  let t := a.[17] ^^ d2 in
  let bc3 := (t <<< 15) ||| (t >>> 49) in
  let t := a.[3] ^^ d3 in
  let bc4 := (t <<< 56) ||| (t >>> 8) in
  let t := a.[14] ^^ d4 in
  let bc0 := (t <<< 27) ||| (t >>> 37) in
  let a := <[20%nat := bc0 ^^ (bc2 &^ bc1)]> a in
  let a := <[6%nat := bc1 ^^ (bc3 &^ bc2)]> a in
  let a := <[17%nat := bc2 ^^ (bc4 &^ bc3)]> a in
  let a := <[3%nat := bc3 ^^ (bc0 &^ bc4)]> a in
  let a := <[14%nat := bc4 ^^ (bc1 &^ bc0)]> a in
  let t := a.[10] ^^ d0 in
  let bc3 := (t <<< 41) ||| (t >>> 23) in
  let t := a.[21] ^^ d1 in
  let bc4 := (t <<< 2) ||| (t >>> 62) in
  let t := a.[7] ^^ d2 in
  let bc0 := (t <<< 62) ||| (t >>> 2) in
  let t := a.[18] ^^ d3 in
  let bc1 := (t <<< 55) ||| (t >>> 9) in
  let t := a.[4] ^^ d4 in
  let bc2 := (t <<< 39) ||| (t >>> 25) in
  let a := <[10%nat := bc0 ^^ (bc2 &^ bc1)]> a in
  let a := <[21%nat := bc1 ^^ (bc3 &^ bc2)]> a in
  let a := <[7%nat := bc2 ^^ (bc4 &^ bc3)]> a in
  let a := <[18%nat := bc3 ^^ (bc0 &^ bc4)]> a in
  let a := <[4%nat := bc4 ^^ (bc1 &^ bc0)]> a in
  a.

(** Round 4 of the unrolled loop body; [rc] is the round's constant. *)
Definition keccak_round4 (rc : Z) (a : list Z) : list Z :=
  let bc0 := a.[0] ^^ a.[5] ^^ a.[10] ^^ a.[15] ^^ a.[20] in
  let bc1 := a.[1] ^^ a.[6] ^^ a.[11] ^^ a.[16] ^^ a.[21] in
  let bc2 := a.[2] ^^ a.[7] ^^ a.[12] ^^ a.[17] ^^ a.[22] in
  let bc3 := a.[3] ^^ a.[8] ^^ a.[13] ^^ a.[18] ^^ a.[23] in
  let bc4 := a.[4] ^^ a.[9] ^^ a.[14] ^^ a.[19] ^^ a.[24] in
  let d0 := bc4 ^^ ((bc1 <<< 1) ||| (bc1 >>> 63)) in
  let d1 := bc0 ^^ ((bc2 <<< 1) ||| (bc2 >>> 63)) in
  let d2 := bc1 ^^ ((bc3 <<< 1) ||| (bc3 >>> 63)) in
  let d3 := bc2 ^^ ((bc4 <<< 1) ||| (bc4 >>> 63)) in
  let d4 := bc3 ^^ ((bc0 <<< 1) ||| (bc0 >>> 63)) in
  let bc0 := a.[0] ^^ d0 in
  let t := a.[1] ^^ d1 in
  let bc1 := (t <<< 44) ||| (t >>> 20) in
  let t := a.[2] ^^ d2 in
  let bc2 := (t <<< 43) ||| (t >>> 21) in
  let t := a.[3] ^^ d3 in
  let bc3 := (t <<< 21) ||| (t >>> 43) in
  let t := a.[4] ^^ d4 in
  let bc4 := (t <<< 14) ||| (t >>> 50) in
  let a := <[0%nat := bc0 ^^ (bc2 &^ bc1) ^^ rc]> a in
  let a := <[1%nat := bc1 ^^ (bc3 &^ bc2)]> a in
  let a := <[2%nat := bc2 ^^ (bc4 &^ bc3)]> a in
  let a := <[3%nat := bc3 ^^ (bc0 &^ bc4)]> a in
  let a := <[4%nat := bc4 ^^ (bc1 &^ bc0)]> a in
  let t := a.[5] ^^ d0 in
  let bc2 := (t <<< 3) ||| (t >>> 61) in
  let t := a.[6] ^^ d1 in
  let bc3 := (t <<< 45) ||| (t >>> 19) in
  let t := a.[7] ^^ d2 in
  let bc4 := (t <<< 61) ||| (t >>> 3) in
  let t := a.[8] ^^ d3 in
  let bc0 := (t <<< 28) ||| (t >>> 36) in
  let t := a.[9] ^^ d4 in
  let bc1 := (t <<< 20) ||| (t >>> 44) in
  let a := <[5%nat := bc0 ^^ (bc2 &^ bc1)]> a in
  let a := <[6%nat := bc1 ^^ (bc3 &^ bc2)]> a in
  let a := <[7%nat := bc2 ^^ (bc4 &^ bc3)]> a in
  let a := <[8%nat := bc3 ^^ (bc0 &^ bc4)]> a in
  let a := <[9%nat := bc4 ^^ (bc1 &^ bc0)]> a in
  let t := a.[10] ^^ d0 in
  let bc4 := (t <<< 18) ||| (t >>> 46) in
  let t := a.[11] ^^ d1 in
  let bc0 := (t <<< 1) ||| (t >>> 63) in
  let t := a.[12] ^^ d2 in
  let bc1 := (t <<< 6) ||| (t >>> 58) in
  let t := a.[13] ^^ d3 in
  let bc2 := (t <<< 25) ||| (t >>> 39) in
  let t := a.[14] ^^ d4 in
  let bc3 := (t <<< 8) ||| (t >>> 56) in
  let a := <[10%nat := bc0 ^^ (bc2 &^ bc1)]> a in
  let a := <[11%nat := bc1 ^^ (bc3 &^ bc2)]> a in
  let a := <[12%nat := bc2 ^^ (bc4 &^ bc3)]> a in
  let a := <[13%nat := bc3 ^^ (bc0 &^ bc4)]> a in
  let a := <[14%nat := bc4 ^^ (bc1 &^ bc0)]> a in
  let t := a.[15] ^^ d0 in
  let bc1 := (t <<< 36) ||| (t >>> 28) in
  let t := a.[16] ^^ d1 in
  let bc2 := (t <<< 10) ||| (t >>> 54) in
  let t := a.[17] ^^ d2 in
  let bc3 := (t <<< 15) ||| (t >>> 49) in
  let t := a.[18] ^^ d3 in
  let bc4 := (t <<< 56) ||| (t >>> 8) in
  let t := a.[19] ^^ d4 in
  let bc0 := (t <<< 27) ||| (t >>> 37) in
  let a := <[15%nat := bc0 ^^ (bc2 &^ bc1)]> a in
  let a := <[16%nat := bc1 ^^ (bc3 &^ bc2)]> a in
  let a := <[17%nat := bc2 ^^ (bc4 &^ bc3)]> a in
  let a := <[18%nat := bc3 ^^ (bc0 &^ bc4)]> a in
  let a := <[19%nat := bc4 ^^ (bc1 &^ bc0)]> a in
  let t := a.[20] ^^ d0 in
  let bc3 := (t <<< 41) ||| (t >>> 23) in
  let t := a.[21] ^^ d1 in
  let bc4 := (t <<< 2) ||| (t >>> 62) in
  let t := a.[22] ^^ d2 in
  let bc0 := (t <<< 62) ||| (t >>> 2) in
  let t := a.[23] ^^ d3 in
  let bc1 := (t <<< 55) ||| (t >>> 9) in
  let t := a.[24] ^^ d4 in
  let bc2 := (t <<< 39) ||| (t >>> 25) in
  let a := <[20%nat := bc0 ^^ (bc2 &^ bc1)]> a in
  let a := <[21%nat := bc1 ^^ (bc3 &^ bc2)]> a in
  let a := <[22%nat := bc2 ^^ (bc4 &^ bc3)]> a in
  let a := <[23%nat := bc3 ^^ (bc0 &^ bc4)]> a in
  let a := <[24%nat := bc4 ^^ (bc1 &^ bc0)]> a in
  a.
End Rounds.

(** The loop of [keccakF1600]: four rounds per iteration, [i] the index of the
    first one's constant. *)
Definition keccak_iteration (a : list Z) (i : nat) : list Z :=
  let a := keccak_round1 (rc !!! i) a in
  let a := keccak_round2 (rc !!! (i + 1)) a in
  let a := keccak_round3 (rc !!! (i + 2)) a in
  keccak_round4 (rc !!! (i + 3)) a.

Definition keccakF1600 (a : list Z) : list Z :=
  fold_left keccak_iteration [0; 4; 8; 12; 16; 20] a.

(** ** sha3.go *)

Inductive spongeDirection := spongeAbsorbing | spongeSqueezing.

Record state := State {
  st_a : list Z;                     (* [25]uint64 *)
  st_buf : bytes;
  st_rate : nat;
  st_dsbyte : byte;
  st_outputLen : nat;
  st_state : spongeDirection;
}.

Definition with_a (a : list Z) (d : state) : state :=
  State a (st_buf d) (st_rate d) (st_dsbyte d) (st_outputLen d) (st_state d).
Definition with_buf (b : bytes) (d : state) : state :=
  State (st_a d) b (st_rate d) (st_dsbyte d) (st_outputLen d) (st_state d).
Definition with_dir (s : spongeDirection) (d : state) : state :=
  State (st_a d) (st_buf d) (st_rate d) (st_dsbyte d) (st_outputLen d) s.

Definition BlockSize (d : state) : nat := st_rate d.
Definition Size (d : state) : nat := st_outputLen d.

Definition Reset (d : state) : state :=
  State (replicate 25 0%Z) [] (st_rate d) (st_dsbyte d) (st_outputLen d) spongeAbsorbing.

(** [binary.LittleEndian.Uint64] and [PutUint64]. *)
Definition le_Uint64 (b : bytes) : Z := of_digits_le 256 (map Z_of_byte (take 8 b)).
Definition le_PutUint64 (x : Z) : bytes :=
  map (fun i => byte_of_Z (Z.shiftr x (8 * Z.of_nat i))) (seq 0 8).

(** xor_generic.go *)
Fixpoint xorIn_loop (n i : nat) (a : list Z) (buf : bytes) : list Z :=
  match n with
  | O => a
  | S n => xorIn_loop n (S i) (<[i := Z.lxor (a !!! i) (le_Uint64 buf)]> a) (drop 8 buf)
  end.
Definition xorInGeneric (a : list Z) (buf : bytes) : list Z :=
  xorIn_loop (length buf / 8) 0 a buf.

Fixpoint copyOut_loop (fuel i : nat) (a : list Z) (b : bytes) : bytes :=
  match fuel with
  | O => b
  | S fuel =>
      if 8 <=? length b then le_PutUint64 (a !!! i) ++ copyOut_loop fuel (S i) a (drop 8 b)
      else b
  end.
Definition copyOutGeneric (a : list Z) (b : bytes) : bytes := copyOut_loop (length b) 0 a b.

(** xor_unaligned.go: the buffer read in place as little-endian words. *)
Definition xor_word (bw : bytes) (a : list Z) (i : nat) : list Z :=
  <[i := Z.lxor (a !!! i) (le_Uint64 (drop (8 * i) bw))]> a.
Definition xorInUnaligned (a : list Z) (buf : bytes) : list Z :=
  let n := length buf in
  let a := if 72 <=? n then fold_left (xor_word buf) [0; 1; 2; 3; 4; 5; 6; 7; 8] a else a in
  let a := if 104 <=? n then fold_left (xor_word buf) [9; 10; 11; 12] a else a in
  let a := if 136 <=? n then fold_left (xor_word buf) [13; 14; 15; 16] a else a in
  let a := if 144 <=? n then fold_left (xor_word buf) [17] a else a in
  if 168 <=? n then fold_left (xor_word buf) [18; 19; 20] a else a.
(** [copy(buf, ab[:])] of the first [maxRate] bytes of the state. *)
Definition copyOutUnaligned (a : list Z) (buf : bytes) : bytes :=
  let ab := take 168 (concat (map le_PutUint64 a)) in
  take (length buf) ab ++ drop (length ab) buf.

Definition permute (d : state) : state :=
  match st_state d with
  | spongeAbsorbing =>
      with_buf [] (with_a (keccakF1600 (xorInGeneric (st_a d) (st_buf d))) d)
  | spongeSqueezing =>
      let d := with_a (keccakF1600 (st_a d)) d in
      with_buf (copyOutGeneric (st_a d) (replicate (st_rate d) x00)) d
  end.

(** [d.buf[d.rate-1] ^= 0x80] *)
Definition xor_last (b : bytes) : bytes :=
  <[length b - 1 := byte_of_Z (Z.lxor (Z_of_byte (b !!! (length b - 1))) 128)]> b.

Definition padAndPermute (dsbyte : byte) (d : state) : state :=
  let buf := st_buf d ++ [dsbyte] in
  let zerosStart := length buf in
  let buf := buf ++ replicate (st_rate d - zerosStart) x00 in
  let d := with_buf (xor_last buf) d in
  let d := with_dir spongeSqueezing (permute d) in
  with_buf (copyOutGeneric (st_a d) (replicate (st_rate d) x00)) d.

(** The loop of [Write]; every iteration consumes a byte at least, so the
    length of [p] is fuel enough. *)
Fixpoint write_loop (fuel : nat) (p : bytes) (d : state) : state :=
  match fuel, p with
  | O, _ | _, [] => d
  | S fuel, _ =>
      if (length (st_buf d) =? 0) && (st_rate d <=? length p) then
        let d := with_a (xorInGeneric (st_a d) (take (st_rate d) p)) d in
        write_loop fuel (drop (st_rate d) p) (with_a (keccakF1600 (st_a d)) d)
      else
        let todo := Nat.min (st_rate d - length (st_buf d)) (length p) in
        let d := with_buf (st_buf d ++ take todo p) d in
        let d := if length (st_buf d) =? st_rate d then permute d else d in
        write_loop fuel (drop todo p) d
  end.

Definition Write (p : bytes) (d : state) : res nat * state :=
  match st_state d with
  | spongeSqueezing => (Panic, d)
  | spongeAbsorbing => (Ok (length p), write_loop (length p) p d)
  end.

(** The loop of [Read], [need] bytes still to produce. *)
Fixpoint read_loop (fuel need : nat) (d : state) : bytes * state :=
  match fuel, need with
  | O, _ | _, O => ([], d)
  | S fuel, _ =>
      let n := Nat.min need (length (st_buf d)) in
      let out := take n (st_buf d) in
      let d := with_buf (drop n (st_buf d)) d in
      let d := if length (st_buf d) =? 0 then permute d else d in
      let '(rest, d) := read_loop fuel (need - n) d in
      (out ++ rest, d)
  end.

Definition Read (n : nat) (d : state) : bytes * state :=
  let d := match st_state d with
           | spongeAbsorbing => padAndPermute (st_dsbyte d) d
           | spongeSqueezing => d
           end in
  read_loop n n d.

(** [Sum] reads from a clone: the state itself is unchanged. *)
Definition Sum (in_ : bytes) (d : state) : bytes :=
  in_ ++ fst (Read (st_outputLen d) d).

(** ** hashes.go, shake.go *)
Definition new_state (rate : nat) (outputLen : nat) (dsbyte : byte) : state :=
  State (replicate 25 0%Z) [] rate dsbyte outputLen spongeAbsorbing.

Definition New224 := new_state 144 28 x06.
Definition New256 := new_state 136 32 x06.
Definition New384 := new_state 104 48 x06.
Definition New512 := new_state 72 64 x06.
Definition NewShake128 := new_state 168 0 x1f.
Definition NewShake256 := new_state 136 0 x1f.

Definition Sum224 (data : bytes) : bytes := Sum [] (snd (Write data New224)).
Definition Sum256 (data : bytes) : bytes := Sum [] (snd (Write data New256)).
Definition Sum384 (data : bytes) : bytes := Sum [] (snd (Write data New384)).
Definition Sum512 (data : bytes) : bytes := Sum [] (snd (Write data New512)).
Definition ShakeSum128 (n : nat) (data : bytes) : bytes :=
  fst (Read n (snd (Write data NewShake128))).
Definition ShakeSum256 (n : nat) (data : bytes) : bytes :=
  fst (Read n (snd (Write data NewShake256))).

Example Sum512_abc : of_digits 256 (map Z_of_byte (Sum512 (str "abc"))) = 0xb751850b1a57168a5693cd924b6b096e08f621827444f70d884f5d0240d2712e10e116e9192af3c91a7ec57647e3934057340b4cf408d5a56592f8274eec53f0%Z.
Proof. vm_compute. reflexivity. Qed.
Example Sum256_long :
  of_digits 256 (map Z_of_byte (Sum256 (replicate 200 xa3))) = 0x79f38adec5c20307a98ef76e8324afbfd46cfd81b22e3973c65fa1bd9de31787%Z.
Proof. vm_compute. reflexivity. Qed.
Example ShakeSum128_ex :
  of_digits 256 (map Z_of_byte (ShakeSum128 200 (str "abc"))) = 0x5881092dd818bf5cf8a3ddb793fbcba74097d5c526a6d35f97b83351940f2cc844c50af32acd3f2cdd066568706f509bc1bdde58295dae3f891a9a0fca5783789a41f8611214ce612394df286a62d1a2252aa94db9c538956c717dc2bed4f232a0294c857c730aa16067ac1062f1201fb0d377cfb9cde4c63599b27f3462bba4a0ed296c801f9ff7f57302bb3076ee145f97a32ae68e76ab66c48d51675bd49acc29082f5647584e6aa01b3f5af057805f973ff8ecb8b226ac32ada6f01c1fcd4818cb006aa5b4cd%Z.
Proof. vm_compute. reflexivity. Qed.

(** ** The permutation against FIPS 202

    The reference: the five steps of a round on the 5 by 5 matrix of lanes,
    lane [(x, y)] at index [x + 5 * y]. *)
Module Ref.
Definition lane (a : list Z) (x y : nat) : Z := a !!! (x mod 5 + 5 * (y mod 5)).
Definition grid (f : nat -> nat -> Z) : list Z :=
  map (fun i => f (i mod 5) (i / 5)) (seq 0 25).

Definition rotl64 (x n : Z) : Z :=
  if (n =? 0)%Z then x else Z.lor (shl64 x n) (Z.shiftr x (64 - n)).

Definition C (a : list Z) (x : nat) : Z :=
  Z.lxor (Z.lxor (Z.lxor (Z.lxor (lane a x 0) (lane a x 1)) (lane a x 2)) (lane a x 3))
    (lane a x 4).
Definition D (a : list Z) (x : nat) : Z :=
  Z.lxor (C a ((x + 4) mod 5)) (rotl64 (C a ((x + 1) mod 5)) 1).
Definition theta (a : list Z) : list Z := grid (fun x y => Z.lxor (lane a x y) (D a x)).

(** The rotation offsets: [(t + 1) (t + 2) / 2] along the walk
    [(x, y) -> (y, 2 x + 3 y)] from [(1, 0)], and [0] at the origin. *)
Fixpoint walk (fuel t x y : nat) : list (nat * nat * Z) :=
  match fuel with
  | O => []
  | S fuel =>
      (x, y, (Z.of_nat ((t + 1) * (t + 2) / 2) mod 64)%Z)
      :: walk fuel (S t) y ((2 * x + 3 * y) mod 5)
  end.
Definition offset (x y : nat) : Z :=
  default 0%Z
    (snd <$> List.find (fun p => (fst (fst p) =? x) && (snd (fst p) =? y)) (walk 24 0 1 0)).

Definition rho (a : list Z) : list Z := grid (fun x y => rotl64 (lane a x y) (offset x y)).
Definition pi (a : list Z) : list Z := grid (fun x y => lane a (x + 3 * y) x).
Definition chi (a : list Z) : list Z :=
  grid (fun x y => Z.lxor (lane a x y) (andnot (lane a (x + 2) y) (lane a (x + 1) y))).
Definition iota (c : Z) (a : list Z) : list Z :=
  grid (fun x y => if (x =? 0) && (y =? 0) then Z.lxor (lane a x y) c else lane a x y).

Definition round (c : Z) (a : list Z) : list Z := iota c (chi (pi (rho (theta a)))).
Definition keccak_f (a : list Z) : list Z := fold_left (fun a c => round c a) rc a.
End Ref.

(** Where the unrolled code keeps each lane after rounds 1, 2 and 3: lane [i]
    of the reference is at index [layoutK !!! i]. Round 4 restores the order. *)
Definition layout1 : list nat :=
  [0; 6; 12; 18; 24; 10; 16; 22; 3; 9; 20; 1; 7; 13; 19; 5; 11; 17; 23; 4; 15; 21; 2; 8; 14].
Definition layout2 : list nat :=
  [0; 16; 7; 23; 14; 20; 11; 2; 18; 9; 15; 6; 22; 13; 4; 10; 1; 17; 8; 24; 5; 21; 12; 3; 19].
Definition layout3 : list nat :=
  [0; 11; 22; 8; 19; 15; 1; 12; 23; 9; 5; 16; 2; 13; 24; 20; 6; 17; 3; 14; 10; 21; 7; 18; 4].

Definition arrange (layout : list nat) (a : list Z) : list Z := map (fun i => a !!! i) layout.

(** A list of 25 lanes, lane by lane. *)
Ltac lanes a H :=
  do 25 (destruct a as [|? a]; [discriminate H|]);
  destruct a; [clear H|discriminate H].

(** The in-place code adds up a column in storage order. *)
Ltac xor_ac :=
  apply Z.bits_inj'; intros ? _; rewrite !Z.lxor_spec;
  repeat match goal with |- context [Z.testbit ?x ?n] => destruct (Z.testbit x n) end;
  reflexivity.
Ltac column L layout x :=
  let l := eval cbv -[Z.lxor] in (Ref.C L x) in
  let r := eval cbv -[Z.lxor] in (Ref.C (arrange layout L) x) in
  first [constr_eq l r | replace l with r by xor_ac].

(** Both sides reduce to the same expression over the lanes. *)
Ltac round_eq layout :=
  match goal with |- context [arrange layout ?L] =>
    cbv -[Z.lxor Z.land Z.lor shl64 Z.shiftr andnot];
    column L layout 0; column L layout 1; column L layout 2; column L layout 3;
    column L layout 4; reflexivity
  end.

Lemma keccak_round1_ref c a :
  length a = 25 -> arrange layout1 (keccak_round1 c a) = Ref.round c a.
Proof.
  intros H. lanes a H. cbv -[Z.lxor Z.land Z.lor shl64 Z.shiftr andnot]. reflexivity.
Qed.

Lemma keccak_round2_ref c a :
  length a = 25 ->
  arrange layout2 (keccak_round2 c a) = Ref.round c (arrange layout1 a).
Proof. intros H. lanes a H. round_eq layout1. Qed.

Lemma keccak_round3_ref c a :
  length a = 25 ->
  arrange layout3 (keccak_round3 c a) = Ref.round c (arrange layout2 a).
Proof. intros H. lanes a H. round_eq layout2. Qed.

Lemma keccak_round4_ref c a :
  length a = 25 -> keccak_round4 c a = Ref.round c (arrange layout3 a).
Proof. intros H. lanes a H. round_eq layout3. Qed.

Lemma keccak_round_length c a :
  length a = 25 ->
  length (keccak_round1 c a) = 25 /\ length (keccak_round2 c a) = 25
  /\ length (keccak_round3 c a) = 25 /\ length (keccak_round4 c a) = 25.
Proof. intros H. lanes a H. split_and!; vm_compute; reflexivity. Qed.

Lemma keccak_iteration_ref a i :
  length a = 25 ->
  keccak_iteration a i
  = Ref.round (rc !!! (i + 3)) (Ref.round (rc !!! (i + 2))
      (Ref.round (rc !!! (i + 1)) (Ref.round (rc !!! i) a)))
  /\ length (keccak_iteration a i) = 25.
Proof.
  intros H. unfold keccak_iteration. cbv zeta.
  pose proof (keccak_round_length (rc !!! i) a H) as (H1 & _).
  pose proof (keccak_round_length (rc !!! (i + 1)) _ H1) as (_ & H2 & _).
  pose proof (keccak_round_length (rc !!! (i + 2)) _ H2) as (_ & _ & H3 & _).
  pose proof (keccak_round_length (rc !!! (i + 3)) _ H3) as (_ & _ & _ & H4).
  split; [|done].
  by rewrite keccak_round4_ref, keccak_round3_ref, keccak_round2_ref, keccak_round1_ref.
Qed.

(** C12. For every state of 25 lanes, the unrolled in-place permutation
    [keccakF1600] computes the 24 rounds of Keccak-f[1600] as FIPS 202 defines
    them (theta, rho, pi, chi, iota). *)
Theorem keccakF1600_ref a : length a = 25 -> keccakF1600 a = Ref.keccak_f a.
Proof.
  intros H. unfold keccakF1600. cbn [fold_left].
  destruct (keccak_iteration_ref a 0 H) as [E0 H0].
  destruct (keccak_iteration_ref _ 4 H0) as [E1 H1].
  destruct (keccak_iteration_ref _ 8 H1) as [E2 H2].
  destruct (keccak_iteration_ref _ 12 H2) as [E3 H3].
  destruct (keccak_iteration_ref _ 16 H3) as [E4 H4].
  destruct (keccak_iteration_ref _ 20 H4) as [E5 H5].
  by rewrite E5, E4, E3, E2, E1, E0.
Qed.

Lemma keccakF1600_ref_witness :
  keccakF1600 (map Z.of_nat (seq 0 25)) = Ref.keccak_f (map Z.of_nat (seq 0 25)).
Proof. apply (keccakF1600_ref (map Z.of_nat (seq 0 25))). reflexivity. Defined.

(** ** The sponge *)

Lemma keccakF1600_length a : length a = 25 -> length (keccakF1600 a) = 25.
Proof.
  intros H. apply (fold_left_inv (fun a => length a = 25)); [|exact H].
  intros b i _ Hb. exact (proj2 (keccak_iteration_ref b i Hb)).
Qed.

Lemma xorIn_loop_length n i a buf : length (xorIn_loop n i a buf) = length a.
Proof.
  revert i a buf. induction n as [|n IH]; intros i a buf; [done|].
  simpl. by rewrite IH, length_insert.
Qed.

Lemma xorInGeneric_length a buf : length (xorInGeneric a buf) = length a.
Proof. apply xorIn_loop_length. Qed.

Lemma le_PutUint64_length x : length (le_PutUint64 x) = 8.
Proof. done. Qed.

Lemma copyOut_loop_length fuel i a b : length (copyOut_loop fuel i a b) = length b.
Proof.
  revert i b. induction fuel as [|fuel IH]; intros i b; [done|]. cbn [copyOut_loop].
  destruct (Nat.leb_spec 8 (length b)); [|done].
  rewrite length_app, le_PutUint64_length, IH, length_drop. lia.
Qed.

#[local] Opaque keccakF1600.

(** What the constructors establish and every operation keeps: 25 lanes, a
    rate that is a positive number of whole lanes, a buffer with room left
    while absorbing and output left while squeezing. *)
Record wf (d : state) : Prop := {
  wf_a : length (st_a d) = 25;
  wf_rate : 0 < st_rate d;
  wf_buf : match st_state d with
           | spongeAbsorbing => length (st_buf d) < st_rate d
           | spongeSqueezing => 0 < length (st_buf d) <= st_rate d
           end;
}.

Lemma new_state_wf rate outputLen dsbyte :
  0 < rate -> wf (new_state rate outputLen dsbyte).
Proof. intros H. by split. Qed.

(** One absorbed block. *)
Definition absorb (a : list Z) (block : bytes) : list Z := keccakF1600 (xorInGeneric a block).

(** The reference for [Write]: everything buffered or written so far, cut in
    blocks of [rate] bytes; the remainder stays in the buffer. *)
Fixpoint absorb_all (fuel rate : nat) (a : list Z) (m : bytes) : list Z * bytes :=
  match fuel with
  | O => (a, m)
  | S fuel =>
      if rate <=? length m then absorb_all fuel rate (absorb a (take rate m)) (drop rate m)
      else (a, m)
  end.

Lemma absorb_all_fuel f1 f2 rate a m :
  0 < rate -> length m < f1 -> length m < f2 ->
  absorb_all f1 rate a m = absorb_all f2 rate a m.
Proof.
  intros Hr. revert f2 a m. induction f1 as [|f1 IH]; intros f2 a m H1 H2; [lia|].
  destruct f2 as [|f2]; [lia|]. cbn [absorb_all].
  destruct (Nat.leb_spec rate (length m)); [|done].
  apply IH; rewrite length_drop; lia.
Qed.

Definition absorbed (d : state) (p : bytes) : list Z * bytes :=
  absorb_all (S (length (st_buf d ++ p))) (st_rate d) (st_a d) (st_buf d ++ p).

Lemma absorbed_small d p :
  length (st_buf d ++ p) < st_rate d -> absorbed d p = (st_a d, st_buf d ++ p).
Proof.
  intros H. unfold absorbed. cbn [absorb_all].
  destruct (Nat.leb_spec (st_rate d) (length (st_buf d ++ p))); [lia|done].
Qed.

Lemma absorbed_full a buf rate ds ol sd p n :
  0 < rate -> length buf + n = rate -> n <= length p ->
  absorbed (State a buf rate ds ol sd) p
  = absorbed (State (absorb a (buf ++ take n p)) [] rate ds ol sd) (drop n p).
Proof.
  intros Hr Hn Hp. unfold absorbed. simpl st_buf. simpl st_rate. simpl st_a.
  cbn [absorb_all]. rewrite length_app.
  destruct (Nat.leb_spec rate (length buf + length p)); [|lia].
  rewrite take_app_ge, drop_app_ge by lia. replace (rate - length buf) with n by lia.
  rewrite app_nil_l. symmetry.
  change (absorb_all (S (length (drop n p))) rate (absorb a (buf ++ take n p)) (drop n p)
    = absorb_all (length buf + length p) rate (absorb a (buf ++ take n p)) (drop n p)).
  apply absorb_all_fuel; rewrite ?length_drop; lia.
Qed.

Lemma write_loop_absorbed fuel p d :
  wf d -> st_state d = spongeAbsorbing -> length p <= fuel ->
  write_loop fuel p d
  = with_buf (snd (absorbed d p)) (with_a (fst (absorbed d p)) d).
Proof.
  revert p d. induction fuel as [|fuel IH]; intros p [a buf rate ds ol sd] Hwf Hsd Hf.
  { destruct p; [|simpl in Hf; lia]. destruct Hwf as [_ ? Hb]. simpl in *. subst sd.
    rewrite absorbed_small by (simpl; rewrite app_nil_r; lia). simpl. by rewrite app_nil_r. }
  destruct Hwf as [Ha Hr Hb]; simpl in *; subst sd.
  destruct p as [|c p].
  { rewrite absorbed_small by (simpl; rewrite app_nil_r; lia). simpl. by rewrite app_nil_r. }
  cbn [write_loop]. set (q := c :: p) in *.
  assert (Hq : 0 < length q <= S fuel) by (subst q; simpl in *; lia).
  clearbody q.
  destruct (Nat.eqb_spec (length buf) 0) as [H0|H0]; simpl andb.
  - destruct buf; [|done].
    destruct (Nat.leb_spec rate (length q)) as [Hle|Hle].
    + rewrite (absorbed_full _ _ _ _ _ _ _ rate) by (simpl; lia).
      rewrite IH; [done|split; simpl; [|lia..]|done|rewrite length_drop; lia].
      by rewrite keccakF1600_length; [|rewrite xorInGeneric_length].
    + simpl length. rewrite Nat.min_r, take_ge, drop_ge by lia. simpl.
      destruct (Nat.eqb_spec (length q) rate); [lia|].
      rewrite absorbed_small by (simpl; lia). simpl. by destruct fuel.
  - destruct (Nat.le_gt_cases (rate - length buf) (length q)) as [Hle|Hlt].
    + rewrite Nat.min_l by done. set (n := rate - length buf).
      rewrite (absorbed_full _ _ _ _ _ _ _ n) by (subst n; simpl; lia).
      simpl length. rewrite length_app, length_take.
      destruct (Nat.eqb_spec (length buf + n `min` length q) rate); [|lia].
      unfold permute. simpl. rewrite IH; [done|split; simpl; [|lia..]|done|rewrite length_drop; lia].
      by rewrite keccakF1600_length; [|rewrite xorInGeneric_length].
    + rewrite Nat.min_r, take_ge, drop_ge by lia. simpl. rewrite length_app.
      destruct (Nat.eqb_spec (length buf + length q) rate); [lia|].
      rewrite absorbed_small by (simpl; rewrite length_app; lia). simpl. by destruct fuel.
Qed.

Lemma absorb_all_app f1 f2 f3 rate a m q :
  0 < rate -> length m < f1 -> length (m ++ q) < f2 -> length (m ++ q) < f3 ->
  absorb_all f2 rate a (m ++ q)
  = let '(a', m') := absorb_all f1 rate a m in absorb_all f3 rate a' (m' ++ q).
Proof.
  intros Hr. revert f2 f3 a m. induction f1 as [|f1 IH]; intros f2 f3 a m H1 H2 H3; [lia|].
  cbn [absorb_all]. destruct (Nat.leb_spec rate (length m)) as [Hle|Hlt].
  - destruct f2 as [|f2]; [lia|]. cbn [absorb_all]. rewrite length_app in *.
    destruct (Nat.leb_spec rate (length m + length q)); [|lia].
    rewrite take_app_le, drop_app_le by lia.
    apply IH; rewrite ?length_app, length_drop; lia.
  - by apply absorb_all_fuel.
Qed.

Lemma absorb_all_wf fuel rate a m :
  0 < rate -> length a = 25 -> length m < fuel ->
  length (fst (absorb_all fuel rate a m)) = 25
  /\ length (snd (absorb_all fuel rate a m)) < rate.
Proof.
  intros Hr. revert a m. induction fuel as [|fuel IH]; intros a m Ha Hm; [lia|].
  cbn [absorb_all]. destruct (Nat.leb_spec rate (length m)); [|done].
  apply IH; [|rewrite length_drop; lia].
  unfold absorb. by rewrite keccakF1600_length; [|rewrite xorInGeneric_length].
Qed.

Lemma absorb_all_buf fuel rate a m : length (snd (absorb_all fuel rate a m)) <= length m.
Proof.
  revert a m. induction fuel as [|fuel IH]; intros a m; [done|].
  cbn [absorb_all]. destruct (rate <=? length m); [|done].
  etrans; [apply IH|]. rewrite length_drop. lia.
Qed.

Lemma Write_absorbed d p :
  wf d -> st_state d = spongeAbsorbing ->
  Write p d = (Ok (length p), with_buf (snd (absorbed d p)) (with_a (fst (absorbed d p)) d)).
Proof.
  intros Hwf Hs. unfold Write. rewrite Hs. by rewrite write_loop_absorbed by (done || lia).
Qed.

Lemma Write_wf d p : wf d -> wf (snd (Write p d)).
Proof.
  intros Hwf. destruct (st_state d) eqn:Hs; [|by unfold Write; rewrite Hs].
  rewrite Write_absorbed by done. destruct Hwf as [Ha Hr Hb].
  pose proof (absorb_all_wf (S (length (st_buf d ++ p))) _ (st_a d) (st_buf d ++ p) Hr Ha
    ltac:(lia)) as [Ha' Hb'].
  split; simpl; [done..|]. by rewrite Hs.
Qed.

(** Streaming: writing a message in two pieces leaves the sponge in the
    state that writing it at once does, whatever was buffered before (fast path
    and buffered path agree); every byte is accepted. *)
Theorem Write_app d p q :
  wf d -> st_state d = spongeAbsorbing ->
  snd (Write (p ++ q) d) = snd (Write q (snd (Write p d)))
  /\ fst (Write (p ++ q) d) = Ok (length p + length q).
Proof.
  intros Hwf Hs.
  assert (Hs' : st_state (snd (Write p d)) = spongeAbsorbing) by by rewrite Write_absorbed.
  rewrite (Write_absorbed (snd (Write p d)) q) by (done || by apply Write_wf).
  rewrite !(Write_absorbed d) by done. cbn [fst snd].
  split; [|by rewrite length_app]. unfold absorbed.
  rewrite app_assoc, (absorb_all_app (S (length (st_buf d ++ p))) _
    (S (length (st_buf d ++ p ++ q))));
    [|apply Hwf|lia|rewrite !length_app; lia|rewrite !length_app; lia].
  pose proof (absorb_all_wf (S (length (st_buf d ++ p))) _ (st_a d) (st_buf d ++ p)
    (wf_rate d Hwf) (wf_a d Hwf) ltac:(lia)) as [Ha Hb].
  destruct (absorb_all _ _ _ (st_buf d ++ p)) as [a' m'] eqn:Habs.
  cbn [fst snd with_buf with_a st_a st_buf st_rate st_dsbyte st_outputLen st_state] in *.
  assert (Hm : length m' <= length (st_buf d ++ p)).
  { pose proof (absorb_all_buf (S (length (st_buf d ++ p))) (st_rate d) (st_a d)
      (st_buf d ++ p)) as H. by rewrite Habs in H. }
  rewrite (absorb_all_fuel (S (length (st_buf d ++ p ++ q))) (S (length (m' ++ q))));
    [done|apply (wf_rate d Hwf)|rewrite !length_app in *; lia|lia].
Qed.

Lemma Write_app_witness :
  snd (Write (str "ab" ++ str "c") New512) = snd (Write (str "c") (snd (Write (str "ab") New512)))
  /\ fst (Write (str "ab" ++ str "c") New512) = Ok 3.
Proof.
  apply (Write_app New512 (str "ab") (str "c")); [apply new_state_wf; lia|reflexivity].
Defined.

(** *** Squeezing *)

Lemma copyOutGeneric_length a b : length (copyOutGeneric a b) = length b.
Proof. apply copyOut_loop_length. Qed.

(** The squeezing state after [permute]: a full buffer again. *)
Lemma permute_squeeze_wf d :
  st_state d = spongeSqueezing -> length (st_a d) = 25 -> 0 < st_rate d -> wf (permute d).
Proof.
  intros Hs Ha Hr. unfold permute. rewrite Hs. split; simpl; [by apply keccakF1600_length|done|].
  rewrite Hs, copyOutGeneric_length, length_replicate. lia.
Qed.

(** One iteration of the loop of [Read], for [n > 0] bytes. *)
Definition squeeze (n : nat) (d : state) : state :=
  let d := with_buf (drop n (st_buf d)) d in
  if length (st_buf d) =? 0 then permute d else d.

Lemma squeeze_wf n d :
  wf d -> st_state d = spongeSqueezing -> n <= length (st_buf d) ->
  wf (squeeze n d) /\ st_state (squeeze n d) = spongeSqueezing.
Proof.
  intros [Ha Hr Hb] Hs Hn. rewrite Hs in Hb. unfold squeeze. simpl.
  destruct (Nat.eqb_spec (length (drop n (st_buf d))) 0).
  - split; [by apply permute_squeeze_wf|]. unfold permute. simpl. by rewrite Hs.
  - split; [|done]. split; simpl; [done..|]. rewrite Hs, length_drop in *. lia.
Qed.

Lemma read_loop_step fuel n d :
  0 < n ->
  read_loop (S fuel) n d
  = let k := Nat.min n (length (st_buf d)) in
    let '(rest, d') := read_loop fuel (n - k) (squeeze k d) in
    (take k (st_buf d) ++ rest, d').
Proof. intros Hn. destruct n; [lia|]. done. Qed.

Lemma read_loop_0 fuel d : read_loop fuel 0 d = ([], d).
Proof. by destruct fuel. Qed.

Lemma read_loop_fuel f1 f2 n d :
  wf d -> st_state d = spongeSqueezing -> n <= f1 -> n <= f2 ->
  read_loop f1 n d = read_loop f2 n d.
Proof.
  revert f2 n d. induction f1 as [|f1 IH]; intros f2 n d Hwf Hs H1 H2.
  { replace n with 0 by lia. by rewrite !read_loop_0. }
  destruct (decide (n = 0)) as [->|Hn]; [by rewrite !read_loop_0|].
  destruct f2 as [|f2]; [lia|]. rewrite !read_loop_step by lia. cbv zeta.
  destruct (squeeze_wf (Nat.min n (length (st_buf d))) d Hwf Hs ltac:(lia)) as [Hwf' Hs'].
  pose proof (wf_buf d Hwf) as Hb. rewrite Hs in Hb. by rewrite (IH f2) by (done || lia).
Qed.

(** Reading within the buffer, and through the end of the buffer. *)
Lemma read_loop_within f n d :
  wf d -> st_state d = spongeSqueezing -> n < length (st_buf d) -> n <= f ->
  read_loop f n d = (take n (st_buf d), with_buf (drop n (st_buf d)) d).
Proof.
  intros Hwf Hs Hn Hf. destruct (decide (n = 0)) as [->|H0].
  { rewrite read_loop_0. by destruct d. }
  destruct f as [|f]; [lia|]. rewrite read_loop_step by lia. cbv zeta.
  rewrite Nat.min_l, Nat.sub_diag, read_loop_0 by lia. rewrite app_nil_r. f_equal.
  unfold squeeze. simpl. by rewrite (proj2 (Nat.eqb_neq _ _)) by (rewrite length_drop; lia).
Qed.

Lemma read_loop_through f n d :
  0 < length (st_buf d) <= n -> n <= S f ->
  read_loop (S f) n d
  = let '(rest, d') := read_loop f (n - length (st_buf d)) (squeeze (length (st_buf d)) d) in
    (st_buf d ++ rest, d').
Proof.
  intros Hn Hf. rewrite read_loop_step by lia. cbv zeta.
  by rewrite Nat.min_r, take_ge by lia.
Qed.

Lemma read_loop_wf f n d :
  wf d -> st_state d = spongeSqueezing -> n <= f ->
  length (fst (read_loop f n d)) = n
  /\ wf (snd (read_loop f n d)) /\ st_state (snd (read_loop f n d)) = spongeSqueezing.
Proof.
  revert n d. induction f as [|f IH]; intros n d Hwf Hs Hf.
  { replace n with 0 by lia. done. }
  destruct (decide (n = 0)) as [->|Hn]; [by rewrite read_loop_0|].
  pose proof (wf_buf d Hwf) as Hb. rewrite Hs in Hb.
  rewrite read_loop_step by lia. cbv zeta. set (k := Nat.min n (length (st_buf d))).
  destruct (squeeze_wf k d Hwf Hs ltac:(lia)) as [Hwf' Hs'].
  destruct (IH (n - k) (squeeze k d) Hwf' Hs' ltac:(lia)) as (Hl & Hw & Hs'').
  destruct (read_loop f (n - k) (squeeze k d)) as [rest d'] eqn:Hr. cbn [fst snd] in *.
  rewrite length_app, length_take. split_and!; [lia|done..].
Qed.

Lemma read_loop_app n m d f1 f2 f3 :
  wf d -> st_state d = spongeSqueezing -> n + m <= f1 -> n <= f2 -> m <= f3 ->
  read_loop f1 (n + m) d
  = let '(o1, d1) := read_loop f2 n d in
    let '(o2, d2) := read_loop f3 m d1 in (o1 ++ o2, d2).
Proof.
  revert n d f2. induction f1 as [|f1 IH]; intros n d f2 Hwf Hs H1 H2 H3.
  { assert (n = 0) as -> by lia. assert (m = 0) as -> by lia. by rewrite !read_loop_0. }
  pose proof (wf_buf d Hwf) as Hb. rewrite Hs in Hb.
  destruct (decide (n < length (st_buf d))) as [Hn|Hn].
  - rewrite (read_loop_within f2 n d) by (done || lia).
    set (d1 := with_buf (drop n (st_buf d)) d).
    assert (Hwf1 : wf d1).
    { destruct Hwf as [Ha Hr Hb']. split; simpl; [done..|]. rewrite Hs, length_drop. lia. }
    destruct (decide (n + m = 0)) as [H0|H0].
    { assert (n = 0) as -> by lia. assert (m = 0) as -> by lia. rewrite !read_loop_0.
      unfold d1. by destruct d. }
    destruct (decide (m = 0)) as [->|Hm].
    { rewrite read_loop_0, Nat.add_0_r, (read_loop_within (S f1) n d) by (done || lia).
      by rewrite app_nil_r. }
    rewrite (read_loop_fuel f3 (S f1) m d1) by (done || lia).
    rewrite !read_loop_step by lia. cbv zeta. simpl st_buf. rewrite length_drop.
    replace (Nat.min (n + m) (length (st_buf d)))
      with (n + Nat.min m (length (st_buf d) - n)) by lia.
    set (k := Nat.min m (length (st_buf d) - n)).
    assert (squeeze (n + k) d = squeeze k d1) as ->.
    { unfold squeeze, d1. simpl. by rewrite drop_drop. }
    replace (n + m - (n + k)) with (m - k) by lia.
    destruct (read_loop f1 (m - k) (squeeze k d1)) as [rest d'].
    by rewrite <- take_take_drop, app_assoc.
  - destruct f2 as [|f2]; [lia|]. rewrite !read_loop_through by lia.
    destruct (squeeze_wf (length (st_buf d)) d Hwf Hs ltac:(lia)) as [Hwf' Hs'].
    replace (n + m - length (st_buf d)) with (n - length (st_buf d) + m) by lia.
    rewrite (IH _ _ f2) by (done || lia).
    destruct (read_loop f2 _ _) as [o1 d1]. destruct (read_loop f3 m d1) as [o2 d2].
    by rewrite app_assoc.
Qed.

Lemma xor_last_length b : length (xor_last b) = length b.
Proof. apply length_insert. Qed.

Lemma padAndPermute_wf ds d :
  wf d -> st_state d = spongeAbsorbing ->
  wf (padAndPermute ds d) /\ st_state (padAndPermute ds d) = spongeSqueezing.
Proof.
  intros [Ha Hr Hb] Hs. rewrite Hs in Hb. unfold padAndPermute, permute. cbv zeta. simpl.
  rewrite Hs. simpl. split; [|done]. split; simpl; [|done|].
  - by rewrite keccakF1600_length; [|rewrite xorInGeneric_length].
  - rewrite copyOutGeneric_length, length_replicate. lia.
Qed.

Lemma Read_squeezing d :
  wf d -> exists d', wf d' /\ st_state d' = spongeSqueezing
    /\ forall n, Read n d = read_loop n n d'.
Proof.
  intros Hwf. destruct (st_state d) eqn:Hs.
  - destruct (padAndPermute_wf (st_dsbyte d) d Hwf Hs) as [Hwf' Hs'].
    exists (padAndPermute (st_dsbyte d) d). split_and!; [done..|].
    intros m. unfold Read. by rewrite Hs.
  - exists d. split_and!; [done..|]. intros m. unfold Read. by rewrite Hs.
Qed.

(** [Read] produces exactly the bytes asked for, and squeezing in two
    calls gives the bytes that one call gives, from an absorbing or a squeezing
    sponge: the loop always terminates with the buffer refilled. *)
Theorem Read_app d n m :
  wf d ->
  length (fst (Read n d)) = n
  /\ fst (Read (n + m) d) = fst (Read n d) ++ fst (Read m (snd (Read n d)))
  /\ wf (snd (Read n d)).
Proof.
  intros Hwf. destruct (Read_squeezing d Hwf) as (d' & Hwf' & Hs' & HR).
  rewrite !HR. destruct (read_loop_wf n n d' Hwf' Hs' ltac:(done)) as (Hl & Hw & Hs).
  split_and!; [done| |done]. rewrite (read_loop_app n m d' _ n m) by (done || lia).
  destruct (read_loop n n d') as [o1 d1]. cbn [fst snd] in *.
  unfold Read. rewrite Hs. by destruct (read_loop m m d1).
Qed.

Lemma Read_app_witness :
  length (fst (Read 3 NewShake128)) = 3
  /\ fst (Read (3 + 200) NewShake128)
     = fst (Read 3 NewShake128) ++ fst (Read 200 (snd (Read 3 NewShake128)))
  /\ wf (snd (Read 3 NewShake128)).
Proof. apply (Read_app NewShake128 3 200). apply new_state_wf. lia. Defined.

Lemma Sum_length in_ d : wf d -> length (Sum in_ d) = length in_ + st_outputLen d.
Proof.
  intros Hwf. unfold Sum. rewrite length_app. f_equal.
  destruct (Read_squeezing d Hwf) as (d' & Hwf' & Hs' & HR). rewrite HR.
  by apply read_loop_wf.
Qed.

Lemma Sum512_length data : length (Sum512 data) = 64.
Proof.
  unfold Sum512. rewrite Sum_length by apply Write_wf, new_state_wf, Nat.lt_0_succ.
  by rewrite Write_absorbed by (done || apply new_state_wf, Nat.lt_0_succ).
Qed.

(** *** The two implementations of [xorIn] and [copyOut] *)

Lemma xorIn_loop_words n i a buf :
  xorIn_loop n i a (drop (8 * i) buf) = fold_left (xor_word buf) (seq i n) a.
Proof.
  revert i a. induction n as [|n IH]; intros i a; [done|]. cbn [xorIn_loop seq fold_left].
  rewrite drop_drop. replace (8 * i + 8) with (8 * S i) by lia. apply IH.
Qed.

Lemma copyOut_loop_words k fuel i a b :
  k <= fuel -> length b = 8 * k ->
  copyOut_loop fuel i a b = concat (map (fun j => le_PutUint64 (a !!! j)) (seq i k)).
Proof.
  revert fuel i b. induction k as [|k IH]; intros fuel i b Hf Hb.
  { destruct b; [|done]. by destruct fuel. }
  destruct fuel as [|fuel]; [lia|]. cbn [copyOut_loop seq map concat].
  destruct (Nat.leb_spec 8 (length b)); [|lia]. f_equal.
  apply IH; [lia|]. rewrite length_drop. lia.
Qed.

Lemma map_lookup_seq (a : list Z) : map (fun j => a !!! j) (seq 0 (length a)) = a.
Proof.
  apply list_eq. intros i. rewrite list_lookup_fmap.
  destruct (decide (i < length a)) as [Hi|Hi].
  - rewrite lookup_seq_lt by done. simpl. symmetry. by apply list_lookup_lookup_total_lt.
  - rewrite (lookup_ge_None_2 (seq _ _)) by (rewrite length_seq; lia).
    symmetry. apply lookup_ge_None_2. lia.
Qed.

Lemma concat_words_length l : length (concat (map le_PutUint64 l)) = 8 * length l.
Proof. induction l as [|x l IH]; [done|]. cbn. rewrite IH. lia. Qed.

(** The platform-specific [xorInUnaligned] and [copyOutUnaligned], chosen
    at build time, compute what the portable [xorInGeneric] and
    [copyOutGeneric] compute on a buffer of each rate the package uses. *)
Theorem xor_unaligned_generic a buf :
  length a = 25 -> length buf ∈ [72; 104; 136; 144; 168] ->
  xorInUnaligned a buf = xorInGeneric a buf /\ copyOutUnaligned a buf = copyOutGeneric a buf.
Proof.
  intros Ha Hin. split.
  - unfold xorInGeneric. pose proof (xorIn_loop_words (length buf / 8) 0 a buf) as Hx.
    rewrite Nat.mul_0_r, drop_0 in Hx. rewrite Hx. unfold xorInUnaligned.
    generalize (xor_word buf). intros f.
    rewrite !elem_of_cons, elem_of_nil in Hin.
    destruct Hin as [->|[->|[->|[->|[->|[]]]]]]; reflexivity.
  - assert (Hk : exists k, length buf = 8 * k /\ k <= 21).
    { rewrite !elem_of_cons, elem_of_nil in Hin.
      destruct Hin as [->|[->|[->|[->|[->|[]]]]]];
        [exists 9|exists 13|exists 17|exists 18|exists 21]; lia. }
    destruct Hk as (k & Hk & Hk21). unfold copyOutGeneric.
    rewrite (copyOut_loop_words k) by lia. unfold copyOutUnaligned.
    rewrite take_take, drop_ge by (rewrite length_take, concat_words_length; lia).
    rewrite app_nil_r, <- (map_lookup_seq a) at 1. rewrite Ha, map_map, Nat.min_l by lia.
    replace 25 with (k + (25 - k)) by lia. rewrite seq_app, map_app, concat_app.
    apply take_app_length'. rewrite <- (map_map (fun j => a !!! j)), concat_words_length.
    rewrite length_map, length_seq. lia.
Qed.

Lemma xor_unaligned_generic_witness :
  xorInUnaligned (replicate 25 5%Z) (replicate 72 x01)
  = xorInGeneric (replicate 25 5%Z) (replicate 72 x01)
  /\ copyOutUnaligned (replicate 25 5%Z) (replicate 72 x01)
     = copyOutGeneric (replicate 25 5%Z) (replicate 72 x01).
Proof.
  apply (xor_unaligned_generic (replicate 25 5%Z) (replicate 72 x01));
    [reflexivity|apply elem_of_cons; left; reflexivity].
Defined.
