(* ===== verification/Multihash.v ===== *)
(** * Multihashes

    Models [Godeps/.../jbenet/go-multihash]: [multihash.go] (codes, [Encode],
    [Decode], [Cast]), [sum.go] and [io.go]. A [Multihash] is a byte slice. *)

From S2P Require Import Prelude Hex Base58 Sha2 Keccak.

Abbreviation Multihash := bytes.

(** ** Codes *)
Definition SHA1 : Z := 0x11.
Definition SHA2_256 : Z := 0x12.
Definition SHA2_512 : Z := 0x13.
Definition SHA3 : Z := 0x14.
Definition BLAKE2B : Z := 0x40.
Definition BLAKE2S : Z := 0x41.

(** The package's maps, in the order they are written. *)
Definition Names : gmap string Z :=
  list_to_map [("sha1", SHA1); ("sha2-256", SHA2_256); ("sha2-512", SHA2_512);
               ("sha3", SHA3); ("blake2b", BLAKE2B); ("blake2s", BLAKE2S)]%string.
Definition Codes : gmap Z string :=
  list_to_map [(SHA1, "sha1"); (SHA2_256, "sha2-256"); (SHA2_512, "sha2-512");
               (SHA3, "sha3"); (BLAKE2B, "blake2b"); (BLAKE2S, "blake2s")]%string.
Definition DefaultLengths : gmap Z Z :=
  list_to_map [(SHA1, 20); (SHA2_256, 32); (SHA2_512, 64);
               (SHA3, 64); (BLAKE2B, 64); (BLAKE2S, 32)]%Z.

Record DecodedMultihash := {
  Code : Z;
  Name : string;
  Length : Z;
  Digest : bytes;
}.

Definition AppCode (code : Z) : bool := (0 <=? code)%Z && (code <? 0x10)%Z.

Definition ValidCode (code : Z) : bool :=
  if AppCode code then true else bool_decide (is_Some (Codes !! code)).

(** ** Decode, Cast, Encode *)

(** [Codes[c]] of an absent [c] is the empty string. *)
Definition Decode (buf : bytes) : res DecodedMultihash :=
  if (length buf <? 3)%nat then Err ErrTooShort
  else if (129 <? length buf)%nat then Err ErrTooLong
  else
    let dm := {| Code := Z_of_byte (buf !!! 0%nat);
                 Name := default ""%string (Codes !! Z_of_byte (buf !!! 0%nat));
                 Length := Z_of_byte (buf !!! 1%nat);
                 Digest := drop 2 buf |} in
    if (Z.of_nat (length (Digest dm)) =? Length dm)%Z then Ok dm
    else Err ErrInconsistentLen.

Definition Cast (buf : bytes) : res Multihash :=
  match Decode buf with
  | Err err => Err err
  | Panic => Panic
  | Ok dm => if ValidCode (Code dm) then Ok buf else Err ErrUnknownCode
  end.

Definition Encode (buf : bytes) (code : Z) : res bytes :=
  if negb (ValidCode code) then Err ErrUnknownCode
  else if (127 <? length buf)%nat then Err ErrLenNotSupported
  else Ok (byte_of_Z code :: byte_of_Z (Z.of_nat (length buf)) :: buf).

(** [Names[name]] of an absent name is [0]. *)
Definition EncodeName (buf : bytes) (name : string) : res bytes :=
  Encode buf (default 0%Z (Names !! name)).

(** ** Text forms *)

Definition HexString (m : Multihash) : bytes := hex_EncodeToString m.
Definition String_ (m : Multihash) : bytes := HexString m.
Definition FromHexString (s : bytes) : res Multihash :=
  match hex_DecodeString s with
  | Ok b => Cast b
  | Err err => Err err
  | Panic => Panic
  end.
Definition B58String (m : Multihash) : bytes := Base58.Encode m.
(** The deferred handler turns a panic into an error; [b58.Decode] has none. *)
Definition FromB58String (s : bytes) : res Multihash := Cast (Base58.Decode s).

(** ** sum.go *)

(** [d[0:length]] panics when [length] is more than the digest holds. *)
Definition slice0 (d : bytes) (n : Z) : res bytes :=
  if (n <=? Z.of_nat (length d))%Z then Ok (take (Z.to_nat n) d) else Panic.

Definition sumSHA1 (data : bytes) : bytes := sha1_Sum data.
Definition sumSHA256 (data : bytes) : bytes := sha256_Sum256 data.
Definition sumSHA512 (data : bytes) : bytes := sha512_Sum512 data.
(** [h := sha3.New512(); h.Write(data); h.Sum(nil)]. *)
Definition sumSHA3 (data : bytes) : res bytes :=
  match Keccak.Write data Keccak.New512 with
  | (Ok _, h) => Ok (Keccak.Sum [] h)
  | (Err err, _) => Err err
  | (Panic, _) => Panic
  end.

Definition Sum (data : bytes) (code length : Z) : res Multihash :=
  if negb (ValidCode code) then Err (errors_New "invalid multihash code")
  else
    d ← (if (code =? SHA1)%Z then Ok (sumSHA1 data)
         else if (code =? SHA2_256)%Z then Ok (sumSHA256 data)
         else if (code =? SHA2_512)%Z then Ok (sumSHA512 data)
         else if (code =? SHA3)%Z then sumSHA3 data
         else Err ErrSumNotSupported);
    length ← (if (length <? 0)%Z then
                match DefaultLengths !! code with
                | Some length => Ok length
                | None => Err (errors_New "no default length for code")
                end
              else Ok length);
    d' ← slice0 d length;
    Encode d' code.

(** ** io.go

    A reader over a byte stream: what is left of it. *)

(** [io.ReadFull]: [io.EOF] when nothing is read, [io.ErrUnexpectedEOF] when
    the stream ends inside; the bytes read are consumed in both cases. *)
Definition ReadFull (n : nat) (r : bytes) : res bytes * bytes :=
  if (n <=? length r)%nat then (Ok (take n r), drop n r)
  else match r with
       | [] => (Err IoEOF, [])
       | _ => (Err IoErrUnexpectedEOF, [])
       end.

Definition ReadMultihash (r : bytes) : res Multihash * bytes :=
  match ReadFull 2 r with
  | (Ok mhhdr, r) =>
      let length := Z_of_byte (mhhdr !!! 1%nat) in
      if (127 <? length)%Z then (Err (errors_New "varints not yet supported"), r)
      else match ReadFull (Z.to_nat length) r with
           | (Ok rest, r) => (Cast (mhhdr ++ rest), r)
           | (Err err, r) => (Err err, r)
           | (Panic, r) => (Panic, r)
           end
  | (Err err, r) => (Err err, r)
  | (Panic, r) => (Panic, r)
  end.

(** Writing appends to the stream. *)
Definition WriteMultihash (w : bytes) (m : Multihash) : bytes := w ++ m.

Example Sum_ex :
  FromB58String (B58String (default [] (match Sum (str "foo") SHA2_256 (-1) with
                                        | Ok m => Some m | _ => None end)))
  = FromHexString (str "12202c26b46b68ffc68ff99b453c1d30413413422d706483bfa0f98a5e886266e7ae").
Proof. vm_compute. reflexivity. Qed.

(** ** Properties *)

Lemma Codes_range code : is_Some (Codes !! code) -> (0 <= code < 256)%Z.
Proof.
  intros [s Hs]. apply elem_of_list_to_map_2 in Hs.
  repeat (apply elem_of_cons in Hs as [Hs|Hs]; [injection Hs as -> _; cbv; split; congruence|]).
  by apply elem_of_nil in Hs.
Qed.

(** Every valid code fits a byte. *)
Lemma ValidCode_range code : ValidCode code = true -> (0 <= code < 256)%Z.
Proof.
  unfold ValidCode, AppCode. destruct (_ && _)%bool eqn:Happ.
  - intros _. apply andb_true_iff in Happ. lia.
  - intros H%bool_decide_eq_true. by apply Codes_range.
Qed.

(** The shape of a buffer that [Decode] accepts. *)
Lemma Decode_cons c l d :
  1 <= length d <= 127 -> Z.of_nat (length d) = Z_of_byte l ->
  Decode (c :: l :: d)
  = Ok {| Code := Z_of_byte c; Name := default ""%string (Codes !! Z_of_byte c);
          Length := Z_of_byte l; Digest := d |}.
Proof.
  intros Hd Hl. unfold Decode. cbn [length].
  destruct (Nat.ltb_spec (S (S (length d))) 3); [lia|].
  destruct (Nat.ltb_spec 129 (S (S (length d)))); [lia|].
  cbn [Digest Length drop]. rewrite drop_0. change ((c :: l :: d) !!! 1) with l.
  by rewrite Hl, Z.eqb_refl.
Qed.

Lemma Decode_Ok buf dm :
  Decode buf = Ok dm ->
  exists c l d, buf = c :: l :: d /\ 1 <= length d <= 127
    /\ Z.of_nat (length d) = Z_of_byte l
    /\ dm = {| Code := Z_of_byte c; Name := default ""%string (Codes !! Z_of_byte c);
               Length := Z_of_byte l; Digest := d |}.
Proof.
  unfold Decode. destruct (Nat.ltb_spec (length buf) 3); [done|].
  destruct (Nat.ltb_spec 129 (length buf)); [done|].
  destruct buf as [|c [|l d]]; cbn [Digest Length length drop] in *; [lia|lia|].
  rewrite drop_0. change ((c :: l :: d) !!! 1) with l. change ((c :: l :: d) !!! 0) with c.
  destruct (Z.eqb_spec (Z.of_nat (length d)) (Z_of_byte l)); [|done].
  intros [= <-]. exists c, l, d. split_and!; [done|lia|lia|done|done].
Qed.

Lemma Cast_Ok buf m :
  Cast buf = Ok m ->
  m = buf /\ 3 <= length buf <= 129
  /\ Z_of_byte (buf !!! 1) = (Z.of_nat (length buf) - 2)%Z
  /\ ValidCode (Z_of_byte (buf !!! 0)) = true.
Proof.
  unfold Cast. destruct (Decode buf) as [dm| |] eqn:Hd; [|done..].
  apply Decode_Ok in Hd as (c & l & d & -> & Hlen & Hl & ->). cbn [Code].
  destruct (ValidCode (Z_of_byte c)) eqn:Hv; [|done]. intros [= <-].
  split_and!; [done|simpl; lia|simpl; lia| |done].
  change ((c :: l :: d) !!! 1) with l. simpl length. lia.
Qed.

Lemma Cast_intro buf :
  3 <= length buf <= 129 -> Z_of_byte (buf !!! 1) = (Z.of_nat (length buf) - 2)%Z ->
  ValidCode (Z_of_byte (buf !!! 0)) = true -> Cast buf = Ok buf.
Proof.
  intros Hlen Hl Hv. destruct buf as [|c [|l d]]; simpl in Hlen; [lia|lia|].
  change ((c :: l :: d) !!! 1) with l in Hl. change ((c :: l :: d) !!! 0) with c in Hv.
  simpl length in Hl. unfold Cast. rewrite Decode_cons by lia. cbn [Code]. by rewrite Hv.
Qed.

Lemma Cast_total buf : Cast buf = Ok buf \/ exists e, Cast buf = Err e.
Proof.
  unfold Cast. destruct (Decode buf) as [dm|e|] eqn:Hd; [|by right; exists e|].
  - destruct (ValidCode (Code dm)); [by left|by right; eexists].
  - exfalso. revert Hd. unfold Decode. by repeat case_match.
Qed.

(** [Cast] accepts exactly the buffers of 3 to 129 bytes whose second byte
    is the number of bytes that follow and whose first byte is a valid code; it
    returns the buffer itself. *)
Theorem Cast_spec buf m :
  Cast buf = Ok m <->
  m = buf /\ 3 <= length buf <= 129
  /\ Z_of_byte (buf !!! 1) = (Z.of_nat (length buf) - 2)%Z
  /\ ValidCode (Z_of_byte (buf !!! 0)) = true.
Proof.
  split; [apply Cast_Ok|]. intros (-> & Hlen & Hl & Hv). by apply Cast_intro.
Qed.

(** C27. [Encode] and [Decode] are inverse: an encoded digest decodes to its
    code, name, length and bytes (but the empty digest, which [Encode] accepts,
    decodes to [ErrTooShort]); and what [Cast] accepts is re-encoded from its
    decoded parts. *)
Theorem Encode_Decode_inverse :
  (forall d code buf, Encode d code = Ok buf ->
     Decode buf = if decide (d = []) then Err ErrTooShort
                  else Ok {| Code := code; Name := default ""%string (Codes !! code);
                             Length := Z.of_nat (length d); Digest := d |})
  /\ (forall buf m, Cast buf = Ok m ->
        exists dm, Decode buf = Ok dm /\ Encode (Digest dm) (Code dm) = Ok m).
Proof.
  split.
  - intros d code buf. unfold Encode.
    destruct (ValidCode code) eqn:Hv; [|done]. apply ValidCode_range in Hv. simpl negb.
    destruct (Nat.ltb_spec 127 (length d)); [done|]. intros [= <-].
    assert (Hl : Z_of_byte (byte_of_Z (Z.of_nat (length d))) = Z.of_nat (length d))
      by (apply Z_of_byte_of_Z_small; lia).
    destruct (decide (d = [])) as [->|Hne]; [done|].
    rewrite Decode_cons; [|destruct d; simpl in *; [done|lia]|done].
    by rewrite Hl, Z_of_byte_of_Z_small.
  - intros buf m. unfold Cast.
    destruct (Decode buf) as [dm| |] eqn:Hd; [|done..].
    destruct (ValidCode (Code dm)) eqn:Hv; [|done]. intros [= <-]. exists dm. split; [done|].
    apply Decode_Ok in Hd as (c & l & d & -> & Hlen & Hl & ->).
    cbn [Code Digest] in *. unfold Encode. rewrite Hv. simpl negb.
    destruct (Nat.ltb_spec 127 (length d)); [lia|].
    by rewrite Hl, !byte_of_Z_of_byte.
Qed.

Lemma ReadFull_app p r : ReadFull (length p) (p ++ r) = (Ok p, r).
Proof.
  unfold ReadFull. rewrite length_app. destruct (Nat.leb_spec (length p) (length p + length r)); [|lia].
  by rewrite take_app_length, drop_app_length.
Qed.

(** A stream of written multihashes reads back: [ReadMultihash] returns
    the multihash at the front of the stream and leaves what follows it, for
    every buffer that [Cast] accepts. *)
Theorem ReadMultihash_WriteMultihash m rest :
  Cast m = Ok m -> ReadMultihash (WriteMultihash [] m ++ rest) = (Ok m, rest).
Proof.
  intros Hm. pose proof (Cast_Ok _ _ Hm) as (_ & Hlen & Hl & _).
  destruct m as [|c [|l d]]; simpl in Hlen; [lia|lia|].
  change ((c :: l :: d) !!! 1) with l in Hl. simpl length in Hl.
  unfold WriteMultihash, ReadMultihash. rewrite app_nil_l.
  change ((c :: l :: d) ++ rest) with ([c; l] ++ (d ++ rest)).
  rewrite (ReadFull_app [c; l]). change ([c; l] !!! 1) with l.
  destruct (Z.ltb_spec 127 (Z_of_byte l)); [lia|].
  replace (Z.to_nat (Z_of_byte l)) with (length d) by lia.
  rewrite ReadFull_app. simpl app. by rewrite Hm.
Qed.

Lemma ReadMultihash_WriteMultihash_witness :
  Cast [x11; x02; xaa; xbb] = Ok [x11; x02; xaa; xbb]
  /\ ReadMultihash (WriteMultihash [] [x11; x02; xaa; xbb] ++ [x07]) = (Ok [x11; x02; xaa; xbb], [x07]).
Proof.
  split; [vm_compute; reflexivity|].
  apply (ReadMultihash_WriteMultihash [x11; x02; xaa; xbb] [x07]). vm_compute. reflexivity.
Defined.

(** Printing a multihash in hexadecimal or base58 and parsing it back
    gives the multihash, accepted or refused as [Cast] decides on the raw
    bytes. *)
Theorem text_roundtrip m :
  FromHexString (HexString m) = Cast m /\ FromB58String (B58String m) = Cast m.
Proof.
  unfold FromHexString, HexString, FromB58String, B58String, Base58.Encode, Base58.Decode.
  rewrite hex_DecodeString_EncodeToString.
  by rewrite (DecodeAlphabet_EncodeAlphabet BTCAlphabet).
Qed.

(** The digest functions of [Sum]. *)
Definition digest (code : Z) (data : bytes) : option bytes :=
  if (code =? SHA1)%Z then Some (sumSHA1 data)
  else if (code =? SHA2_256)%Z then Some (sumSHA256 data)
  else if (code =? SHA2_512)%Z then Some (sumSHA512 data)
  else if (code =? SHA3)%Z then Some (Keccak.Sum512 data)
  else None.

Lemma sumSHA3_Ok data : sumSHA3 data = Ok (Keccak.Sum512 data).
Proof. done. Qed.

Lemma slice0_take d n :
  slice0 d (Z.of_nat n) = if (n <=? length d)%nat then Ok (take n d) else Panic.
Proof.
  unfold slice0. destruct (Nat.leb_spec n (length d)), (Z.leb_spec (Z.of_nat n) (Z.of_nat (length d)));
    try lia; [by rewrite Nat2Z.id|done].
Qed.

(** What the implemented codes have in common. *)
Lemma digest_code data code d :
  digest code data = Some d ->
  ValidCode code = true /\ DefaultLengths !! code = Some (Z.of_nat (length d))
  /\ 1 <= length d <= 127.
Proof.
  unfold digest. intros Hd. repeat case_match; simplify_eq;
    repeat match goal with H : (code =? _)%Z = true |- _ => apply Z.eqb_eq in H; subst end;
    unfold sumSHA1, sumSHA256, sumSHA512;
    rewrite ?sha1_Sum_length, ?sha256_Sum256_length, ?sha512_Sum512_length, ?Keccak.Sum512_length;
    (split_and!; [vm_compute; reflexivity|vm_compute; reflexivity|lia|lia]).
Qed.

Lemma Sum_digest data code d n :
  digest code data = Some d ->
  Sum data code n
  = (length ← (if (n <? 0)%Z then Ok (Z.of_nat (length d)) else Ok n);
     d' ← slice0 d length; Encode d' code).
Proof.
  intros Hd. destruct (digest_code data code d Hd) as (Hv & Hdef & _).
  unfold Sum. rewrite Hv, Hdef, sumSHA3_Ok. unfold digest in Hd. simpl negb.
  repeat case_match; simplify_eq; done.
Qed.

Lemma Encode_take data code d n :
  digest code data = Some d -> n <= length d ->
  Encode (take n d) code = Ok (byte_of_Z code :: byte_of_Z (Z.of_nat n) :: take n d).
Proof.
  intros Hd Hn. destruct (digest_code data code d Hd) as (Hv & _ & _ & Hl).
  unfold Encode. rewrite Hv. simpl negb. rewrite length_take, Nat.min_l by done.
  by destruct (Nat.ltb_spec 127 n); [lia|].
Qed.

(** The multihash of the whole digest. *)
Lemma Sum_default data code d :
  digest code data = Some d ->
  Sum data code (-1) = Ok (byte_of_Z code :: byte_of_Z (Z.of_nat (length d)) :: d).
Proof.
  intros Hd. rewrite (Sum_digest data code d) by done. simpl.
  rewrite slice0_take, Nat.leb_refl. simpl. rewrite (Encode_take data) by done.
  by rewrite take_ge.
Qed.

Lemma digest_Cast data code d :
  digest code data = Some d ->
  Cast (byte_of_Z code :: byte_of_Z (Z.of_nat (length d)) :: d)
  = Ok (byte_of_Z code :: byte_of_Z (Z.of_nat (length d)) :: d).
Proof.
  intros Hd. destruct (digest_code data code d Hd) as (Hv & _ & Hl1 & Hl).
  apply Cast_intro; simpl length; [lia| |].
  - change (Z_of_byte (byte_of_Z (Z.of_nat (length d))) = (Z.of_nat (S (S (length d))) - 2)%Z).
    rewrite Z_of_byte_of_Z_small; lia.
  - change (ValidCode (Z_of_byte (byte_of_Z code)) = true).
    rewrite Z_of_byte_of_Z_small; [done|]. by apply ValidCode_range.
Qed.

(** [Sum] on each implemented code: with a negative length the whole
    digest (20, 32, 64 or 64 bytes) behind its two-byte header, a multihash that
    [Cast] accepts; with an explicit length the digest cut to it, and a panic
    (slice out of range) when the length is more than the digest has. *)
Theorem Sum_spec data code d :
  digest code data = Some d ->
  Sum data code (-1) = Ok (byte_of_Z code :: byte_of_Z (Z.of_nat (length d)) :: d)
  /\ Cast (byte_of_Z code :: byte_of_Z (Z.of_nat (length d)) :: d)
     = Ok (byte_of_Z code :: byte_of_Z (Z.of_nat (length d)) :: d)
  /\ DefaultLengths !! code = Some (Z.of_nat (length d))
  /\ forall n, Sum data code (Z.of_nat n)
       = if (n <=? length d)%nat
         then Ok (byte_of_Z code :: byte_of_Z (Z.of_nat n) :: take n d) else Panic.
Proof.
  intros Hd. split_and!; [by apply (Sum_default data)|by apply (digest_Cast data)
    |by apply (digest_code data)|].
  intros n. rewrite (Sum_digest data code d) by done.
  destruct (Z.ltb_spec (Z.of_nat n) 0); [lia|]. simpl. rewrite slice0_take.
  destruct (Nat.leb_spec n (length d)); [|done]. by apply (Encode_take data).
Qed.

Lemma Sum_spec_witness :
  Sum (str "abc") SHA2_256 (-1)
  = Ok (byte_of_Z SHA2_256 :: byte_of_Z (Z.of_nat (length (sumSHA256 (str "abc"))))
        :: sumSHA256 (str "abc")).
Proof. exact (proj1 (Sum_spec (str "abc") SHA2_256 (sumSHA256 (str "abc")) eq_refl)). Defined.

(** [EncodeName] with a name the package does not know encodes under code
    0, the zero value of the missing map entry, where [Encode] refuses unknown
    codes: 0 lies in the application range, so the digest is accepted. *)
Theorem EncodeName_unknown buf name :
  Names !! name = None -> length buf <= 127 ->
  EncodeName buf name = Ok (x00 :: byte_of_Z (Z.of_nat (length buf)) :: buf).
Proof.
  intros Hn Hl. unfold EncodeName, Encode. rewrite Hn. simpl.
  by destruct (Nat.ltb_spec 127 (length buf)); [lia|].
Qed.

Lemma EncodeName_unknown_witness :
  Names !! "md5"%string = None
  /\ EncodeName [xaa] "md5" = Ok [x00; x01; xaa].
Proof.
  split; [vm_compute; reflexivity|].
  apply (EncodeName_unknown [xaa] "md5"); [vm_compute; reflexivity|simpl; lia].
Defined.
