(* ===== verification/Opts.v ===== *)
(** * The multihash tool

    Models [Godeps/.../jbenet/go-multihash]: [opts/opts.go], [opts/coding.go] and the
    command [multihash/main.go]. A reader is what it delivers, or the error it ends
    with; a run of the command is its exit status and what it prints. *)

From S2P Require Import Prelude Hex Base64 Base58 Multihash.

(** ** opts.go *)

(** [fs] tells whether the pointer to the flag set is there. *)
Record Options := mkOptions {
  Encoding : string;
  Algorithm : string;
  AlgorithmCode : Z;
  Length : Z;
  fs : bool;
}.

Definition Encodings : list string := ["raw"; "hex"; "base58"; "base64"]%string.
Definition Algorithms : list string := ["sha1"; "sha2-256"; "sha2-512"; "sha3"]%string.

(** The flags' default values. *)
Definition SetupFlags : Options := mkOptions "base58" "sha2-256" 0 (-1) false.
(** What the flag package stores when it parses the arguments. *)
Inductive flag := FAlgorithm (s : string) | FEncoding (s : string) | FLength (n : Z).
Definition set_flag (o : Options) (f : flag) : Options :=
  match f with
  | FAlgorithm s => mkOptions (Encoding o) s (AlgorithmCode o) (Length o) (fs o)
  | FEncoding s => mkOptions s (Algorithm o) (AlgorithmCode o) (Length o) (fs o)
  | FLength n => mkOptions (Encoding o) (Algorithm o) (AlgorithmCode o) n (fs o)
  end.

Fixpoint strIn (a : string) (set : list string) : bool :=
  match set with [] => false | s :: set => if String.eqb s a then true else strIn a set end.

Definition with_code (c : Z) (o : Options) : Options :=
  mkOptions (Encoding o) (Algorithm o) c (Length o) (fs o).
Definition with_length (n : Z) (o : Options) : Options :=
  mkOptions (Encoding o) (Algorithm o) (AlgorithmCode o) n (fs o).

(** The error, and the options as they are left. *)
Definition ParseError (o : Options) : option error * Options :=
  if negb (strIn (Encoding o) Encodings) then (Some (errors_New "encoding '%s' not %s"), o)
  else if negb (strIn (Algorithm o) Algorithms) then (Some (errors_New "algorithm '%s' not %s"), o)
  else
    let found := Names !! Algorithm o in
    let o := with_code (default 0%Z found) o in
    match found with
    | None => (Some (errors_New "algorithm '%s' not found (lib error, pls report)."), o)
    | Some code =>
        if (0 <=? Length o)%Z then
          if negb (Length o mod 8 =? 0)%Z then (Some (errors_New "length must be multiple of 8"), o)
          else
            let o := with_length (Length o / 8) o in
            let max := default 0%Z (DefaultLengths !! code) in
            (None, if (max <? Length o)%Z then with_length max o else o)
        else (None, o)
    end.

(** A method of the flag set, which panics on a nil pointer. *)
Definition Parse (fs_Parse : option error) (o : Options) : res (option error * Options) :=
  if negb (fs o) then Panic
  else match fs_Parse with Some err => Ok (Some err, o) | None => Ok (ParseError o) end.

Definition Multihash_ (o : Options) (r : res bytes) : res Multihash :=
  b ← r; Multihash.Sum b (AlgorithmCode o) (Length o).

Definition Check_ (o : Options) (r : res bytes) (h1 : Multihash) : res unit :=
  h2 ← Multihash_ o r;
  if decide (h1 = h2) then Ok tt else Err (errors_New "computed checksum did not match").

(** ** coding.go *)

Definition Decode (encoding : string) (digest : bytes) : res Multihash :=
  if String.eqb encoding "raw" then Multihash.Cast digest
  else if String.eqb encoding "hex" then hex_DecodeString digest
  else if String.eqb encoding "base58" then Ok (Base58.Decode digest)
  else if String.eqb encoding "base64" then b64_DecodeString digest
  else Err (errors_New "unknown encoding: %s").

Definition Encode (encoding : string) (hash : Multihash) : res bytes :=
  if String.eqb encoding "raw" then Ok hash
  else if String.eqb encoding "hex" then Ok (hex_EncodeToString hash)
  else if String.eqb encoding "base58" then Ok (Base58.Encode hash)
  else if String.eqb encoding "base64" then Ok (b64_EncodeToString hash)
  else Err (errors_New "unknown encoding: %s").

(** ** main.go *)

(** The multihash to check against, [None] for [nil], and the parsed options. *)
Definition parseFlags (o : Options) (checkRaw : bytes) : res (option Multihash) * Options :=
  match ParseError o with
  | (Some err, o) => (Err err, o)
  | (None, o) =>
      if decide (checkRaw = []) then (Ok None, o)
      else
        (match Decode (Encoding o) checkRaw with
         | Ok h => Ok (Some h)
         | Err _ => Err (errors_New "fail to decode check '%s': %s")
         | Panic => Panic
         end, o)
  end.

(** [Err] when the file cannot be opened; what reading it gives otherwise. *)
Definition getInput (args : list bytes) (stdin : res bytes) (open : bytes -> res (res bytes)) : res (res bytes) :=
  match args with
  | [] => Ok stdin
  | a :: _ =>
      if decide (a = str "-") then Ok stdin
      else match open a with Err _ => Err (errors_New "failed to open '%s': %s") | r => r end
  end.

Definition printHash (o : Options) (quiet : bool) (r : res bytes) : res bytes :=
  h ← Multihash_ o r;
  s ← Encode (Encoding o) h;
  Ok (if quiet then s else s ++ [x0a]).

Definition ok_text : bytes := str "OK checksums match (-q for no output)" ++ [x0a].

(** [die] exits with status one. *)
Definition die : res (Z * bytes) := Ok (1%Z, []).
Definition checkErr {A : Type} (r : res A) (k : A -> res (Z * bytes)) : res (Z * bytes) :=
  match r with Ok a => k a | Err _ => die | Panic => Panic end.
Definition main (o : Options) (checkRaw : bytes) (quiet : bool) (inp : res (res bytes)) : res (Z * bytes) :=
  let '(r, o) := parseFlags o checkRaw in
  checkErr r (fun checkMh =>
  checkErr inp (fun r =>
  match checkMh with
  | Some h => checkErr (Check_ o r h) (fun _ => Ok (0%Z, if quiet then [] else ok_text))
  | None => checkErr (printHash o quiet r) (fun out => Ok (0%Z, out))
  end)).

(** ** Encodings *)

Lemma strIn_elem a l : strIn a l = true <-> a ∈ l.
Proof.
  induction l as [|s l IH]; cbn [strIn]; [by rewrite elem_of_nil|]. rewrite elem_of_cons.
  destruct (String.eqb_spec s a) as [->|]; naive_solver.
Qed.

Ltac each_encoding H :=
  unfold Encodings in H; rewrite !elem_of_cons, elem_of_nil in H; destruct H as [-> |[-> |[-> |[-> |[]]]]].

Lemma Decode_Encode_opts enc h :
  enc ∈ Encodings -> enc <> "raw"%string \/ Cast h = Ok h ->
  exists s, Encode enc h = Ok s /\ Decode enc s = Ok h.
Proof.
  intros He Hc. each_encoding He; eexists; (split; [reflexivity|]); cbn.
  - by destruct Hc.
  - apply hex_DecodeString_EncodeToString.
  - f_equal. apply (DecodeAlphabet_EncodeAlphabet BTCAlphabet).
  - apply b64_DecodeString_Encode.
Qed.

(** Round trip of the encodings of the tool: what [Encode] prints of a multihash
    [Decode] reads back in each of the four, and for all but the raw one of any
    bytes, which need not be a multihash. *)
Theorem opts_roundtrip (enc : string) (h : Multihash) :
  enc ∈ Encodings ->
  exists s, Encode enc h = Ok s
    /\ (Decode enc s = Ok h <-> enc <> "raw"%string \/ Cast h = Ok h)
    /\ (forall h', Encode enc h' = Ok s -> h' = h).
Proof.
  intros He. each_encoding He; (eexists; split; [reflexivity|]); (split; [split|]); cbn; auto.
  - intros [?|?]; done.
  - congruence.
  - intros _. apply hex_DecodeString_EncodeToString.
  - intros h' [= Hh]. pose proof (hex_DecodeString_EncodeToString h') as H'. rewrite Hh in H'.
    rewrite hex_DecodeString_EncodeToString in H'. congruence.
  - intros _. f_equal. apply (DecodeAlphabet_EncodeAlphabet BTCAlphabet).
  - intros h' [= Hh]. rewrite <- (DecodeAlphabet_EncodeAlphabet BTCAlphabet h').
    unfold Base58.Encode in Hh. rewrite Hh. apply (DecodeAlphabet_EncodeAlphabet BTCAlphabet).
  - intros _. apply b64_DecodeString_Encode.
  - intros h' [= Hh]. pose proof (b64_DecodeString_Encode h') as H'. rewrite Hh in H'.
    rewrite b64_DecodeString_Encode in H'. congruence.
Qed.

(** ** Options *)

(** What [ParseError] leaves when it finds no error. *)
Record parsed (o : Options) : Prop := {
  ps_encoding : Encoding o ∈ Encodings;
  ps_code : exists max, digest (AlgorithmCode o) [] <> None
    /\ DefaultLengths !! AlgorithmCode o = Some max /\ (Length o <= max)%Z;
}.

Lemma ParseError_parsed o o' : ParseError o = (None, o') -> parsed o'.
Proof.
  unfold ParseError. destruct (strIn (Encoding o) Encodings) eqn:He; [|done].
  destruct (strIn (Algorithm o) Algorithms) eqn:Ha; [|done]. cbn [negb]. apply strIn_elem in He, Ha.
  assert (exists code max, Names !! Algorithm o = Some code /\ digest code [] <> None
            /\ DefaultLengths !! code = Some max /\ (0 < max)%Z) as (code & max & -> & Hd & Hm & Hp).
  { unfold Algorithms in Ha. rewrite !elem_of_cons, elem_of_nil in Ha.
    destruct Ha as [-> |[-> |[-> |[-> |[]]]]]; do 2 eexists; (split; [reflexivity|]);
      (split; [discriminate|]); split; (reflexivity || lia). }
  cbn [default from_option]. rewrite Hm. cbn [default from_option Length with_code].
  destruct (Z.leb_spec 0 (Length o)) as [Hl|Hl].
  - destruct (Length o mod 8 =? 0)%Z; [|done]. cbn [negb with_length with_code Length].
    intros [= <-]. destruct (Z.ltb_spec max (Length o / 8)); (split; [done|]); exists max; (split_and!; [done..|cbn; lia]).
  - intros [= <-]. split; [done|]. exists max. split_and!; [done..|]. cbn. lia.
Qed.

Lemma digest_some code data : digest code [] <> None -> is_Some (digest code data).
Proof. unfold digest. intros H. repeat case_match; solve [done|by eexists]. Qed.

(** With parsed options a digest of the right length is computed, never a panic. *)
Lemma Multihash_parsed o data :
  parsed o -> exists d n, digest (AlgorithmCode o) data = Some d
    /\ n = (if decide (Length o < 0)%Z then length d else Z.to_nat (Length o)) /\ n <= length d
    /\ Multihash_ o (Ok data) = Ok (byte_of_Z (AlgorithmCode o) :: byte_of_Z (Z.of_nat n) :: take n d).
Proof.
  intros [_ (max & Hd & Hm & Hl)]. destruct (digest_some _ data Hd) as [d Hdd].
  destruct (digest_code data _ d Hdd) as (_ & Hdef & _). assert (max = Z.of_nat (length d)) as -> by congruence.
  exists d. eexists. split; [done|]. split; [reflexivity|]. unfold Multihash_. cbn [mbind res_bind].
  rewrite (Sum_digest data _ d) by done. case_decide as H0.
  - split; [done|]. rewrite (proj2 (Z.ltb_lt _ 0)) by done. cbn [mbind res_bind].
    by rewrite slice0_take, Nat.leb_refl; cbn [mbind res_bind]; rewrite (Encode_take data).
  - split; [lia|]. rewrite (proj2 (Z.ltb_ge _ 0)) by lia. cbn [mbind res_bind].
    rewrite <- (Z2Nat.id (Length o)) at 1 by lia. rewrite slice0_take, (proj2 (Nat.leb_le _ _)) by lia.
    cbn [mbind res_bind]. rewrite (Encode_take data) by (done || lia). done.
Qed.

Lemma Multihash_Cast o data h :
  parsed o -> Length o <> 0%Z -> Multihash_ o (Ok data) = Ok h -> Cast h = Ok h.
Proof.
  intros Ho H0. destruct (Multihash_parsed o data Ho) as (d & n & Hd & Hn & Hl & ->). intros [= <-].
  destruct (digest_code data _ d Hd) as (Hv & _ & Hl1 & Hl2).
  assert (1 <= n) by (subst n; case_decide; lia). subst n.
  set (n := if decide (Length o < 0)%Z then length d else Z.to_nat (Length o)) in *.
  assert (length (take n d) = n) as Hlen by (rewrite length_take; lia).
  apply Cast_intro; cbn [length]; rewrite ?Hlen; [lia| |].
  - change (Z_of_byte (byte_of_Z (Z.of_nat n)) = (Z.of_nat (S (S n)) - 2)%Z).
    rewrite Z_of_byte_of_Z_small; lia.
  - change (ValidCode (Z_of_byte (byte_of_Z (AlgorithmCode o))) = true).
    rewrite Z_of_byte_of_Z_small; [done|]. by apply ValidCode_range.
Qed.

Lemma parseFlags_nil o : parseFlags o [] = (match (ParseError o).1 with Some e => Err e | None => Ok None end, (ParseError o).2).
Proof. unfold parseFlags. by destruct (ParseError o) as [[e|] o']. Qed.

Lemma hex_DecodeString_total s : hex_DecodeString s <> Panic.
Proof.
  remember (length s) as n eqn:Hn. revert s Hn. induction (lt_wf n) as [n _ IH]. intros [|x [|y t]] ->; try done.
  cbn [hex_DecodeString]. repeat case_match; try done. destruct (IH (length t) ltac:(simpl; lia) t eq_refl). done.
Qed.

Lemma Decode_opts_total enc s : Decode enc s <> Panic.
Proof.
  unfold Decode. repeat case_match; try done.
  - unfold Cast, Multihash.Decode. repeat case_match; done.
  - apply hex_DecodeString_total.
  - unfold b64_DecodeString. by case_match.
Qed.

(** The tool never panics: whatever the flags, the checksum to check and the
    input are, it exits with status 0 or 1, though [Sum] panics on a length that
    is more than the digest has; and after status 1 it has printed nothing. *)
Theorem main_total (o : Options) (checkRaw : bytes) (quiet : bool) (inp : res (res bytes)) :
  inp <> Panic -> inp <> Ok Panic ->
  exists out, main o checkRaw quiet inp = Ok (0%Z, out) \/ main o checkRaw quiet inp = Ok (1%Z, []).
Proof.
  intros Hi1 Hi2. unfold main, parseFlags. destruct (ParseError o) as [[e|] o'] eqn:Hp; [by exists []; right|].
  apply ParseError_parsed in Hp as Ho.
  assert (Hm : forall r, r <> Panic -> Multihash_ o' r <> Panic).
  { intros [data|e|] Hr; [|done..]. by destruct (Multihash_parsed o' data Ho) as (d & n & _ & _ & _ & ->). }
  case_decide as Hc; cbn [checkErr].
  - destruct inp as [r|e|]; [|by exists []; right|done]. cbn [checkErr]. unfold printHash.
    assert (Multihash_ o' r <> Panic) by (apply Hm; congruence). destruct (Multihash_ o' r) as [h|e|] eqn:Hh; cbn; [|by exists []; right|done].
    unfold Encode. repeat case_match; cbn; solve [by eexists; left|by exists []; right].
  - pose proof (Decode_opts_total (Encoding o') checkRaw). destruct (Decode (Encoding o') checkRaw) as [h|e|]; cbn;
      [|by exists []; right|done].
    destruct inp as [r|e|]; [|by exists []; right|done]. cbn. unfold Check_.
    assert (Multihash_ o' r <> Panic) by (apply Hm; congruence). destruct (Multihash_ o' r) as [h2|e|] eqn:Hh; cbn; [|by exists []; right|done].
    case_decide; cbn; [by eexists; left|by exists []; right].
Qed.

(** A checksum that the tool prints is one that it accepts: with flags that
    parse and a length other than zero, checking any input against what was printed
    for some data succeeds exactly when the multihashes of the two are the same; in
    particular for that data itself. *)
Theorem check_printed (o : Options) (data data' : bytes) (quiet : bool) :
  (ParseError o).1 = None -> Length (ParseError o).2 <> 0%Z ->
  exists s, main o [] true (Ok (Ok data)) = Ok (0%Z, s) /\ s <> []
    /\ (main o s quiet (Ok (Ok data')) = Ok (0%Z, if quiet then [] else ok_text)
         <-> Multihash_ (ParseError o).2 (Ok data') = Multihash_ (ParseError o).2 (Ok data)).
Proof.
  destruct (ParseError o) as [e o'] eqn:Hp. cbn [fst snd]. intros -> H0.
  apply ParseError_parsed in Hp as Ho. destruct (Multihash_parsed o' data Ho) as (d & n & _ & _ & _ & Hh).
  set (h := byte_of_Z (AlgorithmCode o') :: byte_of_Z (Z.of_nat n) :: take n d) in *.
  destruct (Decode_Encode_opts (Encoding o') h) as (s & Hs & Hd).
  { apply (ps_encoding _ Ho). } { right. by eapply Multihash_Cast. }
  assert (Hne : s <> []).
  { intros ->. revert Hd. unfold Decode. destruct (ps_encoding _ Ho); repeat case_match; done. }
  exists s. split_and!; [|done|].
  - unfold main, parseFlags. rewrite Hp, decide_True by done. cbn [checkErr]. unfold printHash. rewrite Hh.
    cbn [mbind res_bind]. by rewrite Hs.
  - unfold main, parseFlags. rewrite Hp, decide_False, Hd by done. cbn [checkErr]. unfold Check_. rewrite Hh.
    destruct (Multihash_parsed o' data' Ho) as (d' & n' & _ & _ & _ & ->). cbn [mbind res_bind].
    case_decide as He; cbn [checkErr]; split; try done.
    + intros _. f_equal. by symmetry.
    + intros E. destruct He. symmetry. congruence.
Qed.

(** ** Boundaries *)

(** [SetupFlags] does not store the flag set, so that [Parse] dereferences nil. *)
Theorem Parse_panics (flags : list flag) r : Parse r (fold_left set_flag flags SetupFlags) = Panic.
Proof.
  assert (H : forall fl o, fs o = false -> fs (fold_left set_flag fl o) = false).
  { intros fl. induction fl as [|f fl IH]; intros o Ho; [done|]. cbn. apply IH. by destruct f. }
  unfold Parse. by rewrite H.
Qed.

(** [ParseError] divides the length each time it is called: a length of 256 bits is
    32 bytes after the first call and 4 after the second. *)
Theorem ParseError_twice :
  let o := set_flag SetupFlags (FLength 256) in
  Length (ParseError o).2 = 32%Z /\ Length (ParseError (ParseError o).2).2 = 4%Z.
Proof. split; reflexivity. Qed.

(** With a length of zero the raw checksum that is printed is too short to be
    checked; the other encodings do not look at it. *)
Theorem zero_length_raw :
  let o := fold_left set_flag [FLength 0; FEncoding "raw"] SetupFlags in
  main o [] true (Ok (Ok (str "abc"))) = Ok (0%Z, [x12; x00])
  /\ main o [x12; x00] true (Ok (Ok (str "abc"))) = Ok (1%Z, [])
  /\ main (set_flag o (FEncoding "hex")) (str "1200") true (Ok (Ok (str "abc"))) = Ok (0%Z, []).
Proof. vm_compute. split_and!; reflexivity. Qed.

Lemma opts_roundtrip_witness : exists s, Encode "base64" [x12; x01; xff] = Ok s.
Proof.
  destruct (opts_roundtrip "base64" [x12; x01; xff]) as (s & H & _); [decide_compute|]. by exists s.
Defined.

Lemma main_total_witness :
  exists out, main SetupFlags (str "zz") false (Ok (Ok (str "abc"))) = Ok (0%Z, out)
    \/ main SetupFlags (str "zz") false (Ok (Ok (str "abc"))) = Ok (1%Z, []).
Proof. apply (main_total SetupFlags (str "zz") false (Ok (Ok (str "abc")))); discriminate. Defined.

Lemma check_printed_witness :
  exists s, main SetupFlags [] true (Ok (Ok (str "abc"))) = Ok (0%Z, s) /\ s <> [].
Proof.
  destruct (check_printed SetupFlags (str "abc") (str "abc") true) as (s & H1 & H2 & _); [reflexivity|discriminate|].
  exists s. split; [exact H1|exact H2].
Defined.
