(* ===== verification/DsKey.v ===== *)
(** * Datastore keys

    Models [Godeps/.../jbenet/go-datastore/key.go] and what it uses of Go's
    [path] and [strings] packages. *)

From S2P Require Import Prelude.

(** ** strings *)

Definition slash : byte := "/".
Definition dot : byte := ".".
Definition colon : byte := ":".

(** [strings.Split(s, sep)] for a separator of one byte: at least one part. *)
Fixpoint Split (sep : byte) (s : bytes) : list bytes :=
  match s with
  | [] => [[]]
  | c :: s =>
      if decide (c = sep) then [] :: Split sep s
      else match Split sep s with
           | w :: ws => (c :: w) :: ws
           | [] => [[c]]
           end
  end.

Fixpoint Join (l : list bytes) (sep : byte) : bytes :=
  match l with
  | [] => []
  | [w] => w
  | w :: ws => w ++ sep :: Join ws sep
  end.

Fixpoint HasPrefix (s prefix : bytes) {struct prefix} : bool :=
  match prefix, s with
  | [], _ => true
  | p :: prefix, c :: s => bool_decide (c = p) && HasPrefix s prefix
  | _ :: _, [] => false
  end.

Definition TrimPrefix (s prefix : bytes) : bytes :=
  if HasPrefix s prefix then drop (length prefix) s else s.

(** [a < b] on Go strings: byte by byte. *)
Fixpoint str_lt (a b : bytes) : bool :=
  match a, b with
  | _, [] => false
  | [], _ :: _ => true
  | x :: a, y :: b =>
      if (Z_of_byte x <? Z_of_byte y)%Z then true
      else if (Z_of_byte y <? Z_of_byte x)%Z then false
      else str_lt a b
  end.

(** ** path.Clean

    The elements between slashes are read left to right; [out] holds the
    elements kept so far, the last one first. An empty element or a dot is
    skipped, a double dot drops the last kept element; at the front it is
    dropped when the path is rooted and kept when it is not. *)
Definition dotdot : bytes := [dot; dot].

Fixpoint clean_elems (rooted : bool) (out elems : list bytes) : list bytes :=
  match elems with
  | [] => rev out
  | e :: elems =>
      if decide (e = [] \/ e = [dot]) then clean_elems rooted out elems
      else if decide (e = dotdot) then
        match out with
        | o :: out' =>
            if decide (o = dotdot) then clean_elems rooted (e :: out) elems
            else clean_elems rooted out' elems
        | [] => if rooted then clean_elems rooted [] elems
                else clean_elems rooted [e] elems
        end
      else clean_elems rooted (e :: out) elems
  end.

Definition path_Clean (path : bytes) : bytes :=
  match path with
  | [] => [dot]
  | c :: _ =>
      let rooted := bool_decide (c = slash) in
      let es := clean_elems rooted [] (Split slash path) in
      if rooted then slash :: Join es slash
      else match es with [] => [dot] | _ => Join es slash end
  end.

Example path_Clean_1 : path_Clean (str "/a//b/../c/.") = str "/a/c".
Proof. reflexivity. Qed.
Example path_Clean_2 : path_Clean (str "../a/../../b") = str "../../b".
Proof. reflexivity. Qed.
Example path_Clean_3 : path_Clean (str "/../x") = str "/x".
Proof. reflexivity. Qed.

(** ** type Key struct { string } *)
Record Key := mkKey { key_string : bytes }.

#[export] Instance Key_eq_dec : EqDecision Key.
Proof. solve_decision. Defined.
#[export] Program Instance Key_countable : Countable Key :=
  inj_countable key_string (fun s => Some (mkKey s)) _.
Next Obligation. by intros [s]. Qed.

Definition Clean (k : Key) : Key := mkKey (path_Clean (slash :: key_string k)).
Definition NewKey (s : bytes) : Key := Clean (mkKey s).
Definition KeyWithNamespaces (ns : list bytes) : Key := NewKey (Join ns slash).

Definition String_ (k : Key) : bytes := key_string k.
Definition Bytes (k : Key) : bytes := key_string k.
Definition Equal (k k2 : Key) : bool := bool_decide (key_string k = key_string k2).

(** [strings.Split(k.string, "/")[1:]] *)
Definition List_ (k : Key) : list bytes := tail (Split slash (key_string k)).

(** The loop of [Less] over the two lists. *)
Fixpoint less_list (list1 list2 : list bytes) : bool :=
  match list1, list2 with
  | [], [] => false
  | [], _ :: _ => true
  | _ :: _, [] => false
  | c1 :: list1, c2 :: list2 =>
      if str_lt c1 c2 then true else if str_lt c2 c1 then false else less_list list1 list2
  end.
Definition Less (k k2 : Key) : bool := less_list (List_ k) (List_ k2).

Definition Reverse (k : Key) : Key := KeyWithNamespaces (rev (List_ k)).
Definition Namespaces (k : Key) : list bytes := List_ k.

(** [n[len(n)-1]] *)
Definition BaseNamespace (k : Key) : res bytes :=
  match last (Namespaces k) with Some n => Ok n | None => Panic end.

Definition NamespaceType (namespace : bytes) : bytes :=
  let parts := Split colon namespace in
  if length parts <? 2 then [] else Join (take (length parts - 1) parts) colon.
Definition NamespaceValue (namespace : bytes) : bytes :=
  default [] (last (Split colon namespace)).

Definition Type_ (k : Key) : res bytes := NamespaceType <$> BaseNamespace k.
Definition Name (k : Key) : res bytes := NamespaceValue <$> BaseNamespace k.
Definition Instance_ (k : Key) (s : bytes) : Key := NewKey (key_string k ++ colon :: s).

Definition Parent (k : Key) : Key :=
  let n := List_ k in
  if length n =? 1 then NewKey [slash]
  else NewKey (Join (take (length n - 1) n) slash).

Definition Path (k : Key) : res Key :=
  b ← BaseNamespace k;
  Ok (NewKey (key_string (Parent k) ++ slash :: NamespaceType b)).

Definition Child (k k2 : Key) : Key := NewKey (key_string k ++ slash :: key_string k2).
Definition ChildString (k : Key) (s : bytes) : Key := NewKey (key_string k ++ slash :: s).

Definition IsAncestorOf (k other : Key) : bool :=
  if decide (key_string other = key_string k) then false
  else HasPrefix (key_string other) (key_string k).
Definition IsDescendantOf (k other : Key) : bool :=
  if decide (key_string other = key_string k) then false
  else HasPrefix (key_string k) (key_string other).
Definition IsTopLevel (k : Key) : bool := length (List_ k) =? 1.

(** [type KeySlice []Key] *)
Definition KeySlice_Less (p : list Key) (i j : nat) : res bool :=
  match p !! i, p !! j with Some a, Some b => Ok (Less a b) | _, _ => Panic end.
Definition KeySlice_Swap (p : list Key) (i j : nat) : res (list Key) :=
  match p !! i, p !! j with Some a, Some b => Ok (<[j := a]> (<[i := b]> p)) | _, _ => Panic end.

Example NewKey_ex : NewKey (str "Comedy//MontyPython/./x/..") = mkKey (str "/Comedy/MontyPython").
Proof. reflexivity. Qed.
Example Name_ex : Name (NewKey (str "/Comedy/MontyPython/Actor:JohnCleese")) = Ok (str "JohnCleese").
Proof. reflexivity. Qed.
Example Type_ex : Type_ (NewKey (str "/Comedy/MontyPython/Actor:JohnCleese")) = Ok (str "Actor").
Proof. reflexivity. Qed.

(** ** Splitting and joining *)

Lemma Split_nonnil sep s : Split sep s <> [].
Proof. destruct s as [|c s]; simpl; [done|]. repeat case_match; done. Qed.

Lemma Split_app sep a b : Split sep (a ++ sep :: b) = Split sep a ++ Split sep b.
Proof.
  induction a as [|c a IH]; simpl; [by rewrite decide_True|].
  rewrite IH. destruct (decide (c = sep)); [done|].
  by destruct (Split sep a) eqn:Ha; [apply Split_nonnil in Ha|].
Qed.

Lemma Split_noseps sep s : Forall (fun w => sep ∉ w) (Split sep s).
Proof.
  induction s as [|c s IH]; simpl.
  - constructor; [apply not_elem_of_nil|constructor].
  - destruct (decide (c = sep)) as [->|Hc]; [by constructor; [apply not_elem_of_nil|]|].
    destruct (Split sep s) as [|w ws].
    + by constructor; [intros ->%list_elem_of_singleton|].
    + apply Forall_cons in IH as [Hw Hws]. constructor; [|done].
      rewrite elem_of_cons. naive_solver.
Qed.

Lemma Split_nosep sep s : sep ∉ s -> Split sep s = [s].
Proof.
  induction s as [|c s IH]; intros H; simpl; [done|].
  rewrite elem_of_cons in H. rewrite decide_False by naive_solver.
  by rewrite IH by naive_solver.
Qed.

Lemma Split_Join sep ws :
  ws <> [] -> Forall (fun w => sep ∉ w) ws -> Split sep (Join ws sep) = ws.
Proof.
  intros Hne H. induction H as [|w ws Hw Hws IH]; [done|]. simpl.
  destruct ws as [|w' ws]; [by apply Split_nosep|].
  rewrite Split_app, Split_nosep, IH by done. done.
Qed.

Lemma Join_cons sep w ws : ws <> [] -> Join (w :: ws) sep = w ++ sep :: Join ws sep.
Proof. by destruct ws. Qed.

Lemma Join_Split sep s : Join (Split sep s) sep = s.
Proof.
  induction s as [|c s IH]; [done|]. cbn [Split].
  pose proof (Split_nonnil sep s) as Hne. destruct (decide (c = sep)) as [->|Hc].
  - by rewrite Join_cons, IH.
  - destruct (Split sep s) as [|w ws]; [done|].
    rewrite <- IH. by destruct ws.
Qed.

Lemma Join_app sep a b :
  a <> [] -> b <> [] -> Join (a ++ b) sep = Join a sep ++ sep :: Join b sep.
Proof.
  intros Ha Hb. induction a as [|w a IH]; [done|]. destruct a as [|w' a].
  - simpl app. by rewrite Join_cons.
  - change ((w :: w' :: a) ++ b) with (w :: ((w' :: a) ++ b)).
    rewrite (Join_cons _ w ((w' :: a) ++ b)), (Join_cons _ w (w' :: a)), IH by done.
    by rewrite <- app_assoc.
Qed.

(** ** Canonical keys

    A key is a list of good elements: not empty, not a dot or a double dot,
    without a slash. [key_of] is the key with these elements. *)
Definition good (e : bytes) : Prop := e <> [] /\ e <> [dot] /\ e <> dotdot /\ slash ∉ e.
#[export] Instance good_dec e : Decision (good e).
Proof. unfold good. apply _. Defined.

Definition key_of (es : list bytes) : Key := mkKey (slash :: Join es slash).
Definition resolve (s : bytes) : list bytes := clean_elems true [] (Split slash s).

Lemma NewKey_resolve s : NewKey s = key_of (resolve s).
Proof.
  unfold NewKey, Clean, key_of, resolve. simpl key_string. cbn [path_Clean].
  by rewrite bool_decide_eq_true_2.
Qed.

Lemma clean_elems_good out es :
  Forall good out -> Forall (fun w => slash ∉ w) es -> Forall good (clean_elems true out es).
Proof.
  intros Hout Hes. revert out Hout.
  induction Hes as [|e es He Hes IH]; intros out Hout; cbn [clean_elems].
  { by apply Forall_rev. }
  destruct (decide (e = [] \/ e = [dot])) as [|H1]; [by apply IH|].
  destruct (decide (e = dotdot)) as [->|H2].
  - destruct out as [|o out]; [by apply IH|]. inversion Hout as [|? ? Ho Hout']; subst.
    rewrite decide_False by apply Ho. by apply IH.
  - apply IH. constructor; [|done]. unfold good. naive_solver.
Qed.

Lemma resolve_good s : Forall good (resolve s).
Proof. apply clean_elems_good; [constructor|apply Split_noseps]. Qed.

Lemma clean_elems_app out es1 es2 :
  clean_elems true out (es1 ++ es2)
  = clean_elems true (rev (clean_elems true out es1)) es2.
Proof.
  revert out. induction es1 as [|e es1 IH]; intros out; cbn [app clean_elems].
  - by rewrite rev_involutive.
  - repeat case_match; apply IH.
Qed.

Lemma clean_elems_id out es :
  Forall good es -> clean_elems true out es = rev out ++ es.
Proof.
  intros H. revert out. induction H as [|e es He Hes IH]; intros out; cbn [clean_elems].
  { by rewrite app_nil_r. }
  destruct He as (H1 & H2 & H3 & _).
  rewrite decide_False by naive_solver. rewrite decide_False by done.
  rewrite IH. simpl. by rewrite <- app_assoc.
Qed.

Lemma good_noslash es : Forall good es -> Forall (fun w => slash ∉ w) es.
Proof. intros Hes. eapply Forall_impl; [exact Hes|]. by intros e (_ & _ & _ & H). Qed.

(** Reading back the elements of a joined list. *)
Lemma clean_elems_Join out es :
  Forall good es -> clean_elems true out (Split slash (Join es slash)) = rev out ++ es.
Proof.
  intros H. destruct es as [|e es]; [cbn; by rewrite app_nil_r|].
  rewrite Split_Join by (done || by apply good_noslash). by apply clean_elems_id.
Qed.

Lemma resolve_key_of es : Forall good es -> resolve (key_string (key_of es)) = es.
Proof.
  intros H. unfold resolve. simpl. by rewrite clean_elems_Join.
Qed.

Lemma key_of_inj es1 es2 :
  Forall good es1 -> Forall good es2 -> key_of es1 = key_of es2 -> es1 = es2.
Proof. intros H1 H2 H. by rewrite <- (resolve_key_of es1), H, resolve_key_of. Qed.

Lemma NewKey_key_of es : Forall good es -> NewKey (key_string (key_of es)) = key_of es.
Proof. intros H. by rewrite NewKey_resolve, resolve_key_of. Qed.

(** The keys that the package's functions build. *)
Definition clean (k : Key) : Prop := NewKey (key_string k) = k.

Lemma clean_key_of k : clean k <-> exists es, Forall good es /\ k = key_of es.
Proof.
  split.
  - intros H. exists (resolve (key_string k)). split; [apply resolve_good|].
    by rewrite <- NewKey_resolve.
  - intros (es & Hes & ->). by apply NewKey_key_of.
Qed.

#[export] Instance clean_dec k : Decision (clean k).
Proof. unfold clean. apply _. Defined.

Lemma NewKey_clean s : clean (NewKey s).
Proof. rewrite NewKey_resolve. apply NewKey_key_of, resolve_good. Qed.

(** The list of a key: its elements, or the one empty element of the root. *)
Lemma List_key_of es :
  Forall good es -> List_ (key_of es) = match es with [] => [[]] | _ => es end.
Proof.
  intros H. unfold List_, key_of. simpl. destruct es as [|e es]; [done|].
  apply Split_Join; [done|by apply good_noslash].
Qed.

Lemma NewKey_Join es : Forall good es -> NewKey (Join es slash) = key_of es.
Proof. intros H. rewrite NewKey_resolve. unfold resolve. by rewrite clean_elems_Join. Qed.

Lemma ChildString_key_of es s :
  Forall good es ->
  ChildString (key_of es) s = key_of (clean_elems true (rev es) (Split slash s)).
Proof.
  intros H. unfold ChildString. rewrite NewKey_resolve. unfold resolve. f_equal.
  rewrite Split_app, clean_elems_app. f_equal. f_equal. apply resolve_key_of, H.
Qed.

Lemma Child_key_of es1 es2 :
  Forall good es1 -> Forall good es2 -> Child (key_of es1) (key_of es2) = key_of (es1 ++ es2).
Proof.
  intros H1 H2. unfold Child.
  change (NewKey (key_string (key_of es1) ++ slash :: key_string (key_of es2)))
    with (ChildString (key_of es1) (key_string (key_of es2))).
  rewrite ChildString_key_of by done. f_equal. simpl.
  by rewrite clean_elems_Join, rev_involutive.
Qed.

Lemma Parent_key_of es e :
  Forall good (es ++ [e]) -> Parent (key_of (es ++ [e])) = key_of es.
Proof.
  intros H. unfold Parent. rewrite List_key_of by done.
  assert (match es ++ [e] with [] => [[]] | _ => es ++ [e] end = es ++ [e]) as -> by by destruct es.
  rewrite length_app. simpl length. apply Forall_app in H as [H _].
  destruct es as [|x es]; [done|].
  destruct (Nat.eqb_spec (length (x :: es) + 1) 1) as [E|_]; [simpl in E; lia|].
  rewrite take_app_le, take_ge by (simpl; lia). by apply NewKey_Join.
Qed.

(** ** Prefixes *)

Lemma HasPrefix_spec s p : HasPrefix s p = true <-> exists t, s = p ++ t.
Proof.
  revert s. induction p as [|c p IH]; intros s; simpl.
  { split; [|done]. intros _. by exists s. }
  destruct s as [|d s]; [split; [done|by intros [t ?]]|].
  rewrite andb_true_iff, bool_decide_eq_true, IH. split.
  - intros [-> [t ->]]. by exists t.
  - intros [t [= -> ->]]. split; [done|by exists t].
Qed.

Lemma TrimPrefix_app p t : TrimPrefix (p ++ t) p = t.
Proof.
  unfold TrimPrefix. rewrite (proj2 (HasPrefix_spec _ _)) by by exists t. apply drop_app_length.
Qed.

Lemma key_string_app es1 es2 :
  es2 <> [] ->
  key_string (key_of (es1 ++ es2))
  = key_string (key_of es1) ++ (match es1 with [] => [] | _ => [slash] end) ++ Join es2 slash.
Proof.
  intros H. simpl. f_equal. destruct es1 as [|e es1]; [done|].
  by rewrite Join_app by done.
Qed.

Lemma IsAncestorOf_iff k other :
  IsAncestorOf k other = true <-> exists t, t <> [] /\ key_string other = key_string k ++ t.
Proof.
  unfold IsAncestorOf. destruct (decide (key_string other = key_string k)) as [Heq|Hne].
  - split; [done|]. intros (t & Ht & H). rewrite Heq in H.
    apply (f_equal length) in H. rewrite length_app in H. destruct t; [done|simpl in H; lia].
  - rewrite HasPrefix_spec. split; intros [t Ht].
    + exists t. split; [|done]. intros ->. by rewrite app_nil_r in Ht.
    + exists t. apply Ht.
Qed.

Lemma Join_nonnil e es sep : e <> [] -> Join (e :: es) sep <> [].
Proof. destruct e; [done|]. by destruct es. Qed.

Lemma IsAncestorOf_key_of es1 es2 :
  Forall good es2 -> es2 <> [] -> IsAncestorOf (key_of es1) (key_of (es1 ++ es2)) = true.
Proof.
  intros Hg H. apply IsAncestorOf_iff. rewrite key_string_app by done. eexists.
  split; [|done]. destruct es2 as [|e es2]; [done|]. apply Forall_cons in Hg as [[He _] _].
  intros [_ Hj]%app_eq_nil. by eapply Join_nonnil.
Qed.

(** ** Orders *)

Lemma str_lt_irrefl a : str_lt a a = false.
Proof. induction a as [|c a IH]; simpl; [done|]. by rewrite Z.ltb_irrefl. Qed.

Lemma str_lt_trans a b c : str_lt a b = true -> str_lt b c = true -> str_lt a c = true.
Proof.
  revert b c. induction a as [|x a IH]; intros [|y b] [|z c]; simpl; try done.
  repeat match goal with |- context [(?p <? ?q)%Z] => destruct (Z.ltb_spec p q) end;
    try done; try lia. apply IH.
Qed.

Lemma str_lt_total a b : a = b \/ str_lt a b = true \/ str_lt b a = true.
Proof.
  revert b. induction a as [|x a IH]; intros [|y b]; simpl; auto.
  destruct (Z.ltb_spec (Z_of_byte x) (Z_of_byte y)); auto.
  destruct (Z.ltb_spec (Z_of_byte y) (Z_of_byte x)); auto.
  assert (x = y) as -> by (apply (inj Z_of_byte); lia).
  destruct (IH b) as [->|[->| ->]]; auto.
Qed.

Lemma str_lt_asym a b : str_lt a b = true -> str_lt b a = false.
Proof.
  intros H. apply not_true_iff_false. intros H'.
  pose proof (str_lt_trans _ _ _ H H') as Hf. by rewrite str_lt_irrefl in Hf.
Qed.

Lemma less_list_irrefl a : less_list a a = false.
Proof. induction a as [|x a IH]; simpl; [done|]. by rewrite str_lt_irrefl. Qed.

Lemma less_list_trans a b c :
  less_list a b = true -> less_list b c = true -> less_list a c = true.
Proof.
  revert b c. induction a as [|x a IH]; intros [|y b] [|z c]; simpl; try done.
  destruct (str_lt x y) eqn:Hxy.
  - intros _. destruct (str_lt y z) eqn:Hyz; [by rewrite (str_lt_trans _ _ _ Hxy Hyz)|].
    destruct (str_lt z y) eqn:Hzy; [done|]. intros _.
    destruct (str_lt_total y z) as [->|[?|?]]; [by rewrite Hxy|congruence..].
  - destruct (str_lt y x) eqn:Hyx; [done|]. intros Hab.
    destruct (str_lt_total x y) as [->|[?|?]]; [|congruence..].
    destruct (str_lt y z); [done|]. destruct (str_lt z y); [done|]. by apply IH.
Qed.

Lemma less_list_total a b : a = b \/ less_list a b = true \/ less_list b a = true.
Proof.
  revert b. induction a as [|x a IH]; intros [|y b]; simpl; auto.
  destruct (str_lt_total x y) as [->|[H|H]].
  - rewrite str_lt_irrefl. destruct (IH b) as [->|[->| ->]]; auto.
  - rewrite H. auto.
  - rewrite H, (str_lt_asym _ _ H). auto.
Qed.

Lemma List_inj k1 k2 : clean k1 -> clean k2 -> List_ k1 = List_ k2 -> k1 = k2.
Proof.
  intros (es1 & H1 & ->)%clean_key_of (es2 & H2 & ->)%clean_key_of.
  rewrite !List_key_of by done.
  destruct es1 as [|e1 es1], es2 as [|e2 es2]; try congruence.
  - intros [= <- <-]. by apply Forall_cons in H2 as [[? _] _].
  - intros [= -> ->]. by apply Forall_cons in H1 as [[? _] _].
Qed.

(** ** Properties *)

(** [NewKey] canonicalizes: whatever the string, the key's string is a
    slash and the elements that survive cleaning joined by slashes, none of
    them empty, a dot, a double dot or holding a slash; cleaning again changes
    nothing; and [List] returns these elements (one empty element for the
    root). *)
Theorem NewKey_canonical s :
  key_string (NewKey s) = slash :: Join (resolve s) slash
  /\ Forall good (resolve s)
  /\ NewKey (key_string (NewKey s)) = NewKey s
  /\ List_ (NewKey s) = match resolve s with [] => [[]] | es => es end.
Proof.
  split_and!; [by rewrite NewKey_resolve|apply resolve_good|apply NewKey_clean|].
  rewrite NewKey_resolve, List_key_of by apply resolve_good. by destruct (resolve s).
Qed.

(** Hierarchy: on a clean key, [ChildString] with a good element goes one
    level down and [Parent] comes back; the element is the child's base
    namespace, and the key is an ancestor of the child. *)
Theorem ChildString_Parent k e :
  clean k -> good e ->
  clean (ChildString k e)
  /\ Parent (ChildString k e) = k
  /\ BaseNamespace (ChildString k e) = Ok e
  /\ IsAncestorOf k (ChildString k e) = true.
Proof.
  intros (es & Hes & ->)%clean_key_of He.
  assert (He1 : Forall good [e]) by by constructor.
  assert (Hg : Forall good (es ++ [e])) by by apply Forall_app.
  assert (ChildString (key_of es) e = key_of (es ++ [e])) as ->.
  { rewrite ChildString_key_of by done. f_equal.
    rewrite Split_nosep by apply He. rewrite clean_elems_id by done.
    by rewrite rev_involutive. }
  split_and!.
  - apply clean_key_of. by exists (es ++ [e]).
  - by apply Parent_key_of.
  - unfold BaseNamespace, Namespaces. rewrite List_key_of by done.
    assert (match es ++ [e] with [] => [[]] | _ => es ++ [e] end = es ++ [e]) as ->
      by by destruct es.
    by rewrite last_snoc.
  - by apply IsAncestorOf_key_of.
Qed.

Lemma ChildString_Parent_witness :
  clean (ChildString (NewKey (str "/a")) (str "b"))
  /\ Parent (ChildString (NewKey (str "/a")) (str "b")) = NewKey (str "/a")
  /\ BaseNamespace (ChildString (NewKey (str "/a")) (str "b")) = Ok (str "b")
  /\ IsAncestorOf (NewKey (str "/a")) (ChildString (NewKey (str "/a")) (str "b")) = true.
Proof.
  apply (ChildString_Parent (NewKey (str "/a")) (str "b"));
    decide_compute.
Defined.

(** [Less] is a strict total order on clean keys: irreflexive, transitive,
    and any two different keys are ordered one way. *)
Theorem Less_strict_order :
  (forall k, Less k k = false)
  /\ (forall k1 k2 k3, Less k1 k2 = true -> Less k2 k3 = true -> Less k1 k3 = true)
  /\ (forall k1 k2, clean k1 -> clean k2 -> k1 = k2 \/ Less k1 k2 = true \/ Less k2 k1 = true).
Proof.
  unfold Less. split_and!.
  - intros k. apply less_list_irrefl.
  - intros k1 k2 k3. apply less_list_trans.
  - intros k1 k2 H1 H2.
    destruct (less_list_total (List_ k1) (List_ k2)) as [H|H]; [|by right].
    left. by apply List_inj.
Qed.

(** [IsAncestorOf] is a test on the strings: it holds exactly when the
    other key's string strictly extends the key's. It therefore holds between
    siblings whose names share a prefix, which the hierarchical scheme of the
    package documentation does not relate. *)
Theorem IsAncestorOf_strings :
  (forall k other, IsAncestorOf k other = true
     <-> exists t, t <> [] /\ key_string other = key_string k ++ t)
  /\ IsAncestorOf (NewKey (str "/Comedy")) (NewKey (str "/ComedyCentral")) = true
  /\ Parent (NewKey (str "/ComedyCentral")) = Parent (NewKey (str "/Comedy")).
Proof. split_and!; [apply IsAncestorOf_iff|reflexivity..]. Qed.

(** [Reverse] undoes itself on clean keys, and reverses the list. *)
Theorem Reverse_involutive k :
  clean k -> Reverse (Reverse k) = k /\ List_ (Reverse k) = rev (List_ k).
Proof.
  intros (es & Hes & ->)%clean_key_of. unfold Reverse, KeyWithNamespaces.
  assert (HR : forall es, Forall good es ->
    NewKey (Join (rev (List_ (key_of es))) slash) = key_of (rev es)).
  { intros l Hl. rewrite List_key_of by done. destruct l as [|e l]; [done|].
    apply NewKey_Join. by apply Forall_rev. }
  rewrite HR by done. rewrite HR by by apply Forall_rev. rewrite rev_involutive.
  split; [done|]. rewrite !List_key_of by (done || by apply Forall_rev).
  destruct es as [|e es]; [done|]. destruct (rev (e :: es)) eqn:Hr; [|done].
  apply (f_equal length) in Hr. rewrite length_rev in Hr. done.
Qed.

Lemma Reverse_involutive_witness :
  Reverse (Reverse (NewKey (str "/a/b/c"))) = NewKey (str "/a/b/c")
  /\ List_ (Reverse (NewKey (str "/a/b/c"))) = rev (List_ (NewKey (str "/a/b/c"))).
Proof.
  apply (Reverse_involutive (NewKey (str "/a/b/c"))).
  decide_compute.
Defined.
