(* ===== verification/Query.v ===== *)
(** * Datastore queries

    Models [Godeps/.../jbenet/go-datastore/query]: [query.go] (data),
    [filter.go], [order.go] and [query_impl.go]. A [Results] channel is the list
    of the results it delivers when it is read to its end; a panic of the
    goroutine that feeds it is a [Panic] of the operation. *)

From Stdlib Require Import Sorting.Permutation Sorting.Sorted.
From S2P Require Import Prelude DsKey.

(** ** Data *)

(** The [interface{}] values a datastore holds: [nil], a byte slice, or a value
    of any other dynamic type, known by an identifier. *)
Inductive value :=
  | VNil
  | VBytes (b : bytes)
  | VOther (id : nat).

#[export] Instance value_eq_dec : EqDecision value.
Proof. solve_decision. Defined.

Record Entry := mkEntry { e_Key : bytes; e_Value : value }.

(** [EntryKeys] of the package of keys. *)
Definition EntryKeys (e : list Entry) : list Key := map (fun e => NewKey (e_Key e)) e.
Record Result := mkResult { r_Entry : Entry; r_Error : option error }.
Abbreviation Results := (list Result).

#[export] Instance Entry_eq_dec : EqDecision Entry.
Proof. solve_decision. Defined.
#[export] Instance Result_eq_dec : EqDecision Result.
Proof. solve_decision. Defined.

Definition entry_result (e : Entry) : Result := mkResult e None.
Definition has_error (r : Result) : bool :=
  match r_Error r with Some _ => true | None => false end.

(** The interfaces [Filter] and [Order]: a filter may panic, and so may a sort. *)
Abbreviation Filter := (Entry -> res bool).
Abbreviation Order := (list Entry -> res (list Entry)).

Record Query := mkQuery {
  q_Prefix : bytes;
  q_Filters : list Filter;
  q_Orders : list Order;
  q_Limit : Z;
  q_Offset : Z;
  q_KeysOnly : bool;
}.

(** ** Monadic list traversal *)
Section Res.
Context {A B : Type}.
Fixpoint filter_res (f : A -> res bool) (l : list A) : res (list A) :=
  match l with
  | [] => Ok []
  | x :: l =>
      keep ← f x;
      rest ← filter_res f l;
      Ok (if keep : bool then x :: rest else rest)
  end.
Fixpoint fold_res (f : A -> B -> res B) (l : list A) (b : B) : res B :=
  match l with
  | [] => Ok b
  | x :: l => b' ← f x b; fold_res f l b'
  end.
End Res.

(** ** filter.go *)

Abbreviation Op := string.
Definition Equal : Op := "==".
Definition NotEqual : Op := "!=".
Definition GreaterThan : Op := ">".
Definition GreaterThanOrEqual : Op := ">=".
Definition LessThan : Op := "<".
Definition LessThanOrEqual : Op := "<=".

(** [FilterValueCompare]: [reflect.DeepEqual] is equality of values here. *)
Definition FilterValueCompare_Filter (op : Op) (v : value) (typedFilter : option Filter) : Filter :=
  fun e =>
    match typedFilter with
    | Some f => f e
    | None =>
        if String.eqb op Equal then Ok (bool_decide (v = e_Value e))
        else if String.eqb op NotEqual then Ok (negb (bool_decide (v = e_Value e)))
        else Panic
    end.

Definition FilterKeyCompare_Filter (op : Op) (key : bytes) : Filter :=
  fun e =>
    let k := e_Key e in
    if String.eqb op Equal then Ok (bool_decide (k = key))
    else if String.eqb op NotEqual then Ok (negb (bool_decide (k = key)))
    else if String.eqb op GreaterThan then Ok (str_lt key k)
    else if String.eqb op GreaterThanOrEqual then Ok (negb (str_lt k key))
    else if String.eqb op LessThan then Ok (str_lt k key)
    else if String.eqb op LessThanOrEqual then Ok (negb (str_lt key k))
    else Panic.

Definition FilterKeyPrefix_Filter (prefix : bytes) : Filter :=
  fun e => Ok (HasPrefix (e_Key e) prefix).

(** ** order.go *)

(** [sort.Stable]: the stable sort by a strict order, as an insertion sort. *)
Section Stable.
Context {A : Type} (lt : A -> A -> bool).
Fixpoint insert_stable (x : A) (l : list A) : list A :=
  match l with
  | [] => [x]
  | y :: l => if lt y x then y :: insert_stable x l else x :: y :: l
  end.
Definition sort_Stable (l : list A) : list A := foldr insert_stable [] l.
End Stable.

(** [reByKey] and [sort.Reverse(reByKey)]. *)
Definition reByKey_Less (a b : Entry) : bool := str_lt (e_Key a) (e_Key b).

Definition OrderByKey : Order := fun l => Ok (sort_Stable reByKey_Less l).
Definition OrderByKeyDescending : Order :=
  fun l => Ok (sort_Stable (fun a b => reByKey_Less b a) l).

(** [OrderByValue] and [OrderByValueDescending] sort with the order they are
    given, and panic without one. *)
Definition OrderByValue (typedOrder : option Order) : Order :=
  fun l => match typedOrder with Some o => o l | None => Panic end.
Definition OrderByValueDescending (typedOrder : option Order) : Order :=
  fun l => match typedOrder with Some o => o l | None => Panic end.

(** ** query.go, query_impl.go *)

(** [ResultsWithEntries]: the entries in order, none of them an error. *)
Definition ResultsWithEntries (q : Query) (res_ : list Entry) : Results := map entry_result res_.

(** [Rest]: the entries up to the first error, and that error. *)
Fixpoint Rest (r : Results) : list Entry * option error :=
  match r with
  | [] => ([], None)
  | e :: r =>
      match r_Error e with
      | Some err => ([], Some err)
      | None => let '(es, err) := Rest r in (r_Entry e :: es, err)
      end
  end.

Definition NaiveFilter (qr : Results) (filter : Filter) : res Results :=
  filter_res (fun e => if has_error e then Ok true else filter (r_Entry e)) qr.

(** The loop of [NaiveLimit], [l] results sent so far; errors are not counted. *)
Fixpoint NaiveLimit_loop (limit l : Z) (qr : Results) : Results :=
  match qr with
  | [] => []
  | e :: qr =>
      if has_error e then e :: NaiveLimit_loop limit l qr
      else
        let l := (l + 1)%Z in
        e :: (if (0 <? limit)%Z && (limit <=? l)%Z then [] else NaiveLimit_loop limit l qr)
  end.
Definition NaiveLimit (qr : Results) (limit : Z) : Results := NaiveLimit_loop limit 0 qr.

(** The loop of [NaiveOffset]: an error is sent, and then treated like any
    other result. *)
Fixpoint NaiveOffset_loop (offset sent : Z) (qr : Results) : Results :=
  match qr with
  | [] => []
  | e :: qr =>
      (if has_error e then [e] else [])
      ++ (if (sent <? offset)%Z then NaiveOffset_loop offset (sent + 1) qr
          else e :: NaiveOffset_loop offset sent qr)
  end.
Definition NaiveOffset (qr : Results) (offset : Z) : Results := NaiveOffset_loop offset 0 qr.

(** The errors are sent as they come, and their entries are sorted with the
    others. *)
Definition NaiveOrder (qr : Results) (o : Order) : res Results :=
  entries ← o (map r_Entry qr);
  Ok (filter (fun e => has_error e = true) qr ++ map entry_result entries).

Definition NaiveQueryApply (q : Query) (qr : Results) : res Results :=
  qr ← (if decide (q_Prefix q = []) then Ok qr
        else NaiveFilter qr (FilterKeyPrefix_Filter (q_Prefix q)));
  qr ← fold_res (fun f qr => NaiveFilter qr f) (q_Filters q) qr;
  qr ← fold_res (fun o qr => NaiveOrder qr o) (q_Orders q) qr;
  let qr := if (q_Offset q =? 0)%Z then qr else NaiveOffset qr (q_Offset q) in
  let qr := if (q_Limit q =? 0)%Z then qr else NaiveLimit qr (q_Offset q) in
  Ok qr.

(** [vals[i]] panics when there are fewer values than keys. *)
Fixpoint ResultEntriesFrom (keys : list bytes) (vals : list value) : res (list Entry) :=
  match keys, vals with
  | [], _ => Ok []
  | k :: keys, v :: vals => es ← ResultEntriesFrom keys vals; Ok (mkEntry k v :: es)
  | _ :: _, [] => Panic
  end.

(** ** Stable sorting *)

Section StableFacts.
Context {A : Type} (lt : A -> A -> bool).
Hypothesis lt_asym : forall x y, lt x y = true -> lt y x = false.
Hypothesis lt_negtrans : forall x y z, lt x y = false -> lt y z = false -> lt x z = false.

Definition le_of (x y : A) : Prop := lt y x = false.

Lemma insert_stable_perm x l : Permutation (insert_stable lt x l) (x :: l).
Proof.
  induction l as [|y l IH]; simpl; [done|]. destruct (lt y x); [|done].
  rewrite IH. apply perm_swap.
Qed.

Lemma sort_Stable_perm l : Permutation (sort_Stable lt l) l.
Proof.
  induction l as [|x l IH]; [done|]. simpl. by rewrite insert_stable_perm, IH.
Qed.

Lemma insert_stable_sorted x l :
  StronglySorted le_of l -> StronglySorted le_of (insert_stable lt x l).
Proof.
  induction 1 as [|y l Hl IH Hy]; simpl; [by repeat constructor|].
  destruct (lt y x) eqn:Hyx.
  - constructor; [done|]. rewrite insert_stable_perm.
    constructor; [|done]. unfold le_of. by apply lt_asym.
  - constructor; [by constructor|]. constructor; [done|].
    eapply Forall_impl; [exact Hy|]. intros z Hz. unfold le_of in *. by eapply lt_negtrans.
Qed.

Lemma sort_Stable_sorted l : StronglySorted le_of (sort_Stable lt l).
Proof. induction l as [|x l IH]; simpl; [constructor|]. by apply insert_stable_sorted. Qed.

(** Elements that the order does not tell apart keep their relative order. *)
Lemma insert_stable_filter (P : A -> Prop) `{!forall x, Decision (P x)} x l :
  (forall a b, P a -> P b -> lt a b = false) ->
  filter P (insert_stable lt x l) = filter P (x :: l).
Proof.
  intros HP. induction l as [|y l IH]; [done|]. cbn [insert_stable].
  destruct (lt y x) eqn:Hyx; [|done]. rewrite !filter_cons, IH, filter_cons.
  destruct (decide (P y)), (decide (P x)); try done.
  by rewrite HP in Hyx.
Qed.

Lemma sort_Stable_filter (P : A -> Prop) `{!forall x, Decision (P x)} l :
  (forall a b, P a -> P b -> lt a b = false) ->
  filter P (sort_Stable lt l) = filter P l.
Proof.
  intros HP. induction l as [|x l IH]; [done|]. simpl sort_Stable.
  rewrite insert_stable_filter by done. by rewrite !filter_cons, IH.
Qed.
End StableFacts.

Lemma str_lt_negtrans x y z :
  str_lt x y = false -> str_lt y z = false -> str_lt x z = false.
Proof.
  intros Hxy Hyz. destruct (str_lt_total x y) as [->|[?|Hyx]]; [done|congruence|].
  destruct (str_lt_total y z) as [<-|[?|Hzy]]; [by apply str_lt_asym|congruence|].
  apply str_lt_asym. by eapply str_lt_trans.
Qed.

(** [OrderByKey] and [OrderByKeyDescending] sort the entries by key, up or
    down: the result is a permutation of the entries, ordered, and entries with
    equal keys keep the order they came in. *)
Theorem OrderByKey_sorts es :
  (exists l, OrderByKey es = Ok l /\ Permutation l es
     /\ StronglySorted (fun a b => str_lt (e_Key b) (e_Key a) = false) l
     /\ forall k, filter (fun e => e_Key e = k) l = filter (fun e => e_Key e = k) es)
  /\ (exists l, OrderByKeyDescending es = Ok l /\ Permutation l es
     /\ StronglySorted (fun a b => str_lt (e_Key a) (e_Key b) = false) l
     /\ forall k, filter (fun e => e_Key e = k) l = filter (fun e => e_Key e = k) es).
Proof.
  split; eexists; (split_and!; [reflexivity|apply sort_Stable_perm| |]).
  - apply (sort_Stable_sorted reByKey_Less); unfold reByKey_Less.
    + intros x y. apply str_lt_asym.
    + intros x y z. apply str_lt_negtrans.
  - intros k. apply sort_Stable_filter. intros a b <- Hb. unfold reByKey_Less.
    rewrite Hb. apply str_lt_irrefl.
  - apply (sort_Stable_sorted (fun a b => reByKey_Less b a)); unfold reByKey_Less.
    + intros x y. apply str_lt_asym.
    + intros x y z Hxy Hyz. by eapply str_lt_negtrans.
  - intros k. apply sort_Stable_filter. intros a b <- Hb. unfold reByKey_Less.
    rewrite Hb. apply str_lt_irrefl.
Qed.

(** ** The naive query pipeline *)

(** Filters and orders that do not panic. *)
Definition pure_filter (p : Entry -> bool) : Filter := fun e => Ok (p e).
Definition pure_order (o : list Entry -> list Entry) : Order := fun l => Ok (o l).

Lemma NaiveFilter_entries es p :
  NaiveFilter (map entry_result es) (pure_filter p)
  = Ok (map entry_result (filter (fun e => p e = true) es)).
Proof.
  unfold NaiveFilter. induction es as [|e es IH]; [done|].
  rewrite filter_cons. cbn [map filter_res]. rewrite IH. unfold pure_filter. simpl.
  by destruct (p e) eqn:He.
Qed.

Lemma NaiveFilter_fold es ps :
  fold_res (fun f qr => NaiveFilter qr f) (map pure_filter ps) (map entry_result es)
  = Ok (map entry_result (fold_left (fun es p => filter (fun e => p e = true) es) ps es)).
Proof.
  revert es. induction ps as [|p ps IH]; intros es; [done|].
  cbn [map fold_res]. rewrite NaiveFilter_entries. simpl. apply IH.
Qed.

Lemma no_error_entries es :
  filter (fun e => has_error e = true) (map entry_result es) = [].
Proof.
  induction es as [|e es IH]; [done|]. cbn [map]. by rewrite filter_cons, decide_False, IH.
Qed.

Lemma NaiveOrder_fold es os :
  fold_res (fun o qr => NaiveOrder qr o) (map pure_order os) (map entry_result es)
  = Ok (map entry_result (fold_left (fun es o => o es) os es)).
Proof.
  revert es. induction os as [|o os IH]; intros es; [done|].
  cbn [map fold_res]. unfold NaiveOrder, pure_order at 1. simpl.
  rewrite no_error_entries, map_map, (map_ext _ id) by done. rewrite map_id. apply IH.
Qed.

Lemma NaiveOffset_entries es offset :
  NaiveOffset (map entry_result es) offset = map entry_result (drop (Z.to_nat offset) es).
Proof.
  unfold NaiveOffset.
  assert (H : forall sent, (0 <= sent)%Z ->
    NaiveOffset_loop offset sent (map entry_result es)
    = map entry_result (drop (Z.to_nat (offset - sent)) es)).
  { induction es as [|e es IH]; intros sent Hs; [by rewrite drop_nil|].
    cbn [map NaiveOffset_loop has_error entry_result r_Error app].
    destruct (Z.ltb_spec sent offset).
    - rewrite IH by lia. replace (Z.to_nat (offset - sent)) with (S (Z.to_nat (offset - (sent + 1))))
        by lia. done.
    - rewrite IH by lia. replace (Z.to_nat (offset - sent)) with 0 by lia. by rewrite drop_0. }
  rewrite H by lia. by rewrite Z.sub_0_r.
Qed.

Lemma NaiveLimit_none limit l qr : (limit <= 0)%Z -> NaiveLimit_loop limit l qr = qr.
Proof.
  intros Hl. assert ((0 <? limit)%Z = false) as H0 by (apply Z.ltb_ge; lia).
  revert l. induction qr as [|e qr IH]; intros l; [done|].
  cbn [NaiveLimit_loop]. rewrite H0. destruct (has_error e); simpl; by rewrite IH.
Qed.

Lemma NaiveLimit_entries es limit :
  NaiveLimit (map entry_result es) limit
  = map entry_result (if (0 <? limit)%Z then take (Z.to_nat limit) es else es).
Proof.
  unfold NaiveLimit.
  assert (H : forall l, (0 <= l < limit)%Z ->
    NaiveLimit_loop limit l (map entry_result es)
    = map entry_result (take (Z.to_nat (limit - l)) es)).
  { induction es as [|e es IH]; intros l Hl; [by rewrite take_nil|].
    cbn [map NaiveLimit_loop has_error entry_result r_Error].
    destruct (Z.ltb_spec 0 limit); [|lia]. simpl andb.
    replace (Z.to_nat (limit - l)) with (S (Z.to_nat (limit - (l + 1)))) by lia.
    cbn [take map]. f_equal.
    destruct (Z.leb_spec limit (l + 1)).
    - by replace (Z.to_nat (limit - (l + 1))) with 0 by lia.
    - apply IH. lia. }
  destruct (Z.ltb_spec 0 limit); [rewrite H by lia; by rewrite Z.sub_0_r|].
  by apply NaiveLimit_none.
Qed.

(** The entries a query selects before offset and limit. *)
Definition selected (prefix : bytes) (ps : list (Entry -> bool))
    (os : list (list Entry -> list Entry)) (es : list Entry) : list Entry :=
  let es := if decide (prefix = []) then es
            else filter (fun e => HasPrefix (e_Key e) prefix = true) es in
  fold_left (fun es o => o es) os (fold_left (fun es p => filter (fun e => p e = true) es) ps es).

(** C32. On results without errors, [NaiveQueryApply] keeps the entries under the
    prefix that pass every filter, sorts them by each order in turn and skips
    [Offset] of them; a [Limit] other than 0 then cuts the results to [Offset]
    entries, not to [Limit], and to nothing less when [Offset] is not positive. *)
Theorem NaiveQueryApply_spec prefix ps os limit offset keysOnly es :
  NaiveQueryApply
    (mkQuery prefix (map pure_filter ps) (map pure_order os) limit offset keysOnly)
    (map entry_result es)
  = Ok (map entry_result
      (let l := drop (Z.to_nat offset) (selected prefix ps os es) in
       if (limit =? 0)%Z then l else if (0 <? offset)%Z then take (Z.to_nat offset) l else l)).
Proof.
  unfold NaiveQueryApply, selected. cbn [q_Prefix q_Filters q_Orders q_Limit q_Offset].
  set (es1 := if decide (prefix = []) then es else _).
  assert ((if decide (prefix = []) then Ok (map entry_result es)
           else NaiveFilter (map entry_result es) (FilterKeyPrefix_Filter prefix))
          = Ok (map entry_result es1)) as ->.
  { unfold es1. destruct (decide (prefix = [])); [done|].
    apply (NaiveFilter_entries es (fun e => HasPrefix (e_Key e) prefix)). }
  simpl mbind. rewrite NaiveFilter_fold. simpl mbind. rewrite NaiveOrder_fold. simpl mbind.
  f_equal. set (l := fold_left _ os _).
  assert ((if (offset =? 0)%Z then map entry_result l
           else NaiveOffset (map entry_result l) offset)
          = map entry_result (drop (Z.to_nat offset) l)) as ->.
  { destruct (Z.eqb_spec offset 0) as [->|]; [done|]. apply NaiveOffset_entries. }
  destruct (limit =? 0)%Z; [done|]. apply NaiveLimit_entries.
Qed.

(** A query with a limit and no offset returns all the results: whatever
    the limit, the filters, the orders and the results (errors included), the
    outcome is the one of the query without a limit. *)
Theorem NaiveQueryApply_ignores_Limit prefix fs os limit keysOnly qr :
  NaiveQueryApply (mkQuery prefix fs os limit 0 keysOnly) qr
  = NaiveQueryApply (mkQuery prefix fs os 0 0 keysOnly) qr.
Proof.
  unfold NaiveQueryApply. cbn [q_Prefix q_Filters q_Orders q_Limit q_Offset].
  set (m := if decide (prefix = []) then _ else _). destruct m as [qr1| |]; [|done..]. simpl.
  destruct (fold_res _ fs qr1) as [qr2| |]; [|done..]. simpl.
  destruct (fold_res _ os qr2) as [qr3| |]; [|done..]. simpl.
  destruct (limit =? 0)%Z; [done|]. unfold NaiveLimit. by rewrite NaiveLimit_none by lia.
Qed.

(** [NaiveOffset] delivers an error that comes after the skipped results
    twice, and counts one that comes before among the skipped results. *)
Theorem NaiveOffset_errors e1 e2 err :
  NaiveOffset [entry_result e1; mkResult e2 (Some err)] 1
  = [mkResult e2 (Some err); mkResult e2 (Some err)]
  /\ NaiveOffset [mkResult e2 (Some err); entry_result e1] 1
     = [mkResult e2 (Some err); entry_result e1].
Proof. split; reflexivity. Qed.
