(* ===== verification/Results.v ===== *)
(** * Query results as goroutines

    Models [ResultBuilder], [ResultsWithChan], [ResultsWithEntries] and the methods
    of [results] of [Godeps/.../jbenet/go-datastore/query/query.go]: a worker that
    hands results to the client over the channel [Output], a process that closes
    the channel in its teardown, and a client that may close it early. The other
    files take results for the list that a client reads; here that list is what the
    goroutines deliver.

    Of the process the steps use what [ProcessProps] proves: it tells its child, the
    worker's process, to close ([closing_reaches_children]), and is torn down once
    ([teardown_exactly_once]), after the child has returned ([teardown_order]). *)

From stdpp Require Import relations.
From S2P Require Import Prelude Query.

(** ** The state *)

(** Where the worker is: at the top of its loop, at the [select] that sends, done. *)
Inductive position := AtTop | Sending (e : Result) | Returned.

(** [from_chan] tells [ResultsWithChan] from [ResultsWithEntries]. [fed], [got] and
    [hung_up] are ghost: all results there were to hand on, what the client has
    received, and whether it has called [Close]. *)
Record results := mkResults {
  from_chan : bool;
  feed : list Result;      (* in the channel [res], or left of the entries *)
  more : bool;             (* the channel [res] is still open *)
  worker : position;
  closing : bool;
  worker_closing : bool;   (* the worker's process has been told to close *)
  closed : bool;           (* torn down, [Output] closed *)
  fed : list Result;
  got : list Result;
  hung_up : bool;
}.

Definition ResultsWithChan_ : results := mkResults true [] true AtTop false false false [] [] false.
Definition ResultsWithEntries_ (res_ : list Entry) : results :=
  let l := map entry_result res_ in mkResults false l false AtTop false false false l [] false.

Definition set_feed (l : list Result) (w : position) (s : results) : results :=
  mkResults (from_chan s) l (more s) w (closing s) (worker_closing s) (closed s) (fed s) (got s) (hung_up s).
Definition set_flags (c wc d : bool) (s : results) : results :=
  mkResults (from_chan s) (feed s) (more s) (worker s) c wc d (fed s) (got s) (hung_up s).

(** ** Steps *)

Inductive state := Run (s : results) | Crash.

(** The library's goroutines, with the client receiving what is sent. Sending on a
    closed channel panics. *)
Inductive run (s : results) : state -> Prop :=
  | run_take e l :
      worker s = AtTop -> feed s = e :: l -> run s (Run (set_feed l (Sending e) s))
  | run_over :
      worker s = AtTop -> feed s = [] -> more s = false -> run s (Run (set_feed [] Returned s))
  | run_told :
      worker_closing s = true ->
      (exists e, worker s = Sending e) \/ worker s = AtTop /\ from_chan s = true ->
      run s (Run (set_feed (feed s) Returned s))
  | run_send e :
      worker s = Sending e -> closed s = false ->
      run s (Run (mkResults (from_chan s) (feed s) (more s) AtTop (closing s) (worker_closing s) (closed s)
                    (fed s) (got s ++ [e]) (hung_up s)))
  | run_send_closed e : worker s = Sending e -> closed s = true -> run s Crash
  (* [CloseAfterChildren], and the process closing *)
  | run_after : worker s = Returned -> closing s = false -> run s (Run (set_flags true (worker_closing s) (closed s) s))
  | run_tell : closing s = true -> worker_closing s = false -> run s (Run (set_flags true true (closed s) s))
  | run_teardown :
      closing s = true -> worker s = Returned -> closed s = false ->
      run s (Run (set_flags true (worker_closing s) true s)).

(** What others do: the owner of [res] sends and closes it, the client closes. *)
Inductive act (s : results) : results -> Prop :=
  | act_feed e : more s = true ->
      act s (mkResults (from_chan s) (feed s ++ [e]) true (worker s) (closing s) (worker_closing s) (closed s)
               (fed s ++ [e]) (got s) (hung_up s))
  | act_end : act s (mkResults (from_chan s) (feed s) false (worker s) (closing s) (worker_closing s) (closed s)
               (fed s) (got s) (hung_up s))
  | act_Close : act s (mkResults (from_chan s) (feed s) (more s) (worker s) true (worker_closing s) (closed s)
               (fed s) (got s) true).

Inductive initial : results -> Prop :=
  | init_chan : initial ResultsWithChan_
  | init_entries l : initial (ResultsWithEntries_ l).
Inductive reachable (s0 : results) : results -> Prop :=
  | reach_init : reachable s0 s0
  | reach_run s s' : reachable s0 s -> run s (Run s') -> reachable s0 s'
  | reach_act s s' : reachable s0 s -> act s s' -> reachable s0 s'.

(** ** The invariant *)

(** What the worker holds. *)
Definition in_hand (s : results) : list Result := match worker s with Sending e => [e] | _ => [] end.

Record kept (s : results) : Prop := {
  k_prefix : got s `prefix_of` fed s;
  k_order : worker s <> Returned -> fed s = got s ++ in_hand s ++ feed s;
  k_told : worker_closing s = true -> closing s = true;
  k_closed : closed s = true -> closing s = true /\ worker s = Returned;
  k_closing : closing s = true -> hung_up s = true \/ worker s = Returned;
  k_over : worker s = Returned -> hung_up s = false -> feed s = [] /\ more s = false /\ got s = fed s;
  k_chan : from_chan s = false -> more s = false;
  k_hung : hung_up s = true -> closing s = true;
}.

Lemma kept_run s s' : kept s -> run s (Run s') -> kept s'.
Proof.
  intros [K1 K2 K3 K4 K5 K6 K7 K8] Hs. remember (Run s') as o eqn:Ho.
  destruct Hs as [e l Hw Hl|Hw Hl Hm|Ht Hw|e Hw Hc|e Hw Hc|Hw Hc|Hc Ht|Hc Hw Hd]; injection Ho as <- || discriminate Ho;
    split; cbn; try done.
  - intros _. unfold in_hand. cbn. rewrite K2, Hl by (by rewrite Hw). unfold in_hand. by rewrite Hw.
  - intros Hx. destruct (K4 Hx) as [? ?]. congruence.
  - intros Hx. destruct (K5 Hx); [by left|congruence].
  - intros Hx. by destruct (K4 Hx).
  - intros Hx. by right.
  - intros _ _. rewrite K2 by (by rewrite Hw). unfold in_hand. rewrite Hw, Hl, app_nil_r. done.
  - intros Hx. by destruct (K4 Hx).
  - intros Hx. by right.
  - intros _ Hh. exfalso. destruct (K5 (K3 Ht)) as [?|Hr]; [congruence|]. rewrite Hr in Hw. naive_solver.
  - rewrite K2 by (by rewrite Hw). unfold in_hand. rewrite Hw, app_assoc. by apply prefix_app_r.
  - intros _. unfold in_hand. cbn. rewrite K2 by (by rewrite Hw). unfold in_hand. rewrite Hw. by rewrite <- app_assoc.
  - intros Hx. congruence.
  - intros Hx. destruct (K5 Hx); [by left|congruence].
  - intros _. by right.
  - intros Hx. by destruct (K4 Hx).
  - intros _. by apply K5.
  - intros _. by right.
Qed.

Lemma kept_act s s' : kept s -> act s s' -> kept s'.
Proof.
  intros [K1 K2 K3 K4 K5 K6 K7 K8] Hs. destruct Hs as [e Hm| |]; split; cbn; try done.
  - by apply prefix_app_r.
  - intros Hw. rewrite (K2 Hw). unfold in_hand. cbn. by rewrite <- !app_assoc.
  - intros Hw Hh. destruct (K6 Hw Hh) as (_ & ? & _). congruence.
  - intros Hf. specialize (K7 Hf). congruence.
  - intros Hw Hh. by destruct (K6 Hw Hh) as (? & _ & ?).
  - intros Hx. destruct (K4 Hx). done.
  - by left.
Qed.

Lemma reachable_kept s0 s : initial s0 -> reachable s0 s -> kept s.
Proof.
  intros Hi. induction 1 as [|s s' _ IH Hs|s s' _ IH Hs]; [|by eapply kept_run|by eapply kept_act].
  destruct Hi as [|l]; split; cbn; try done. apply prefix_nil.
Qed.

(** Entries are all there from the start. *)
Lemma entries_fed l s : reachable (ResultsWithEntries_ l) s -> fed s = map entry_result l /\ more s = false.
Proof.
  induction 1 as [|s s' Hr [IH1 IH2] Hs|s s' Hr [IH1 IH2] Hs]; [done| |].
  - remember (Run s') as o eqn:Ho. destruct Hs; by injection Ho as <- || discriminate Ho.
  - destruct Hs; cbn; [congruence|done..].
Qed.

(** ** What the client reads *)

Lemma Rest_entries l : Rest (map entry_result l) = (l, None).
Proof. induction l as [|e l IH]; [done|]. simpl. by rewrite IH. Qed.

(** A client never receives anything but a prefix of the results there were, in
    their order, and nothing is ever sent on the closed channel. When the channel
    is closed the worker has returned, and unless the client hung up, it has then
    received them all: results made of entries are exactly the list that the
    other files take them for, and [Rest] returns the entries without an error. *)
Theorem results_deliver s0 s :
  initial s0 -> reachable s0 s ->
  got s `prefix_of` fed s /\ ~ run s Crash
  /\ (closed s = true -> worker s = Returned /\ (hung_up s = false -> got s = fed s /\ more s = false))
  /\ forall q l, s0 = ResultsWithEntries_ l -> closed s = true -> hung_up s = false ->
       got s = ResultsWithEntries q l /\ Rest (got s) = (l, None).
Proof.
  intros Hi Hr. pose proof (reachable_kept s0 s Hi Hr) as [K1 K2 K3 K4 K5 K6 K7 K8]. split_and!.
  - done.
  - intros Hc. inversion Hc as [| | | |e Hw Hd Hx| | |]. destruct (K4 Hd). congruence.
  - intros Hd. destruct (K4 Hd) as [_ Hw]. split; [done|]. intros Hh. by destruct (K6 Hw Hh) as (_ & ? & ?).
  - intros q l -> Hd Hh. destruct (K4 Hd) as [_ Hw]. destruct (K6 Hw Hh) as (_ & _ & Hg).
    destruct (entries_fed l s Hr) as [Hf _]. rewrite Hg, Hf. split; [done|apply Rest_entries].
Qed.

(** ** Termination *)

Definition cost (s : results) : nat :=
  3 * length (feed s) + match worker s with AtTop => 1 | Sending _ => 2 | Returned => 0 end
  + Nat.b2n (negb (closing s)) + Nat.b2n (negb (worker_closing s)) + Nat.b2n (negb (closed s)).

Lemma run_pays s s' : kept s -> run s (Run s') -> cost s' < cost s /\ more s' = more s /\ hung_up s' = hung_up s.
Proof.
  intros HK Hs. remember (Run s') as o eqn:Ho.
  destruct Hs as [e l Hw Hl|Hw Hl Hm|Ht Hw|e Hw Hc|e Hw Hc|Hw Hc|Hc Ht|Hc Hw Hd]; injection Ho as <- || discriminate Ho;
    unfold cost; cbn; (split; [|done]).
  - rewrite Hw, Hl. simpl. lia.
  - rewrite Hw, Hl. simpl. lia.
  - destruct Hw as [[e ->]|[-> _]]; lia.
  - rewrite Hw. lia.
  - rewrite Hw, Hc. simpl. lia.
  - rewrite Hc, Ht. simpl. lia.
  - rewrite Hc, Hw, Hd. simpl. lia.
Qed.

Lemma run_can s :
  kept s -> more s = false \/ hung_up s = true -> closed s = false -> exists s', run s (Run s').
Proof.
  intros [K1 K2 K3 K4 K5 K6 K7 K8] Hend Hd. destruct (worker s) as [|e|] eqn:Hw.
  - destruct (feed s) as [|e l] eqn:Hl; [|eexists; by eapply run_take].
    destruct (more s) eqn:Hm; [|eexists; by apply run_over]. destruct Hend as [|Hh]; [done|].
    destruct (worker_closing s) eqn:Ht; [|eexists; apply run_tell; auto].
    eexists. apply run_told; [done|]. right. split; [done|]. by destruct (from_chan s) eqn:Hf; [|specialize (K7 eq_refl)].
  - eexists. by apply (run_send s e).
  - destruct (closing s) eqn:Hc; eexists; [by apply run_teardown|by apply run_after].
Qed.

Definition runs (s s' : results) : Prop := run s (Run s').


Definition two_entries : list Entry := [mkEntry (str "/a") VNil; mkEntry (str "/b") VNil].

Lemma results_deliver_witness : ~ run (ResultsWithEntries_ two_entries) Crash.
Proof. apply (results_deliver _ _ (init_entries two_entries) (reach_init _)). Defined.

