(* ===== verification/Datastore.v ===== *)
(** * Datastores

    Models the [Datastore] interface and the basic stores of
    [Godeps/.../jbenet/go-datastore]: [datastore.go], [basic_ds.go] (map, null
    and log datastores), [panic/panic.go], [callback/callback.go], and the delayed
    one of [thirdparty/] ([delay/delay.go], [datastore2/delayed.go]). An operation
    is a function of the store's state that returns its result and the next
    state. *)

From S2P Require Import Prelude DsKey Query.

(** ** The interface *)
Class Datastore (S : Type) := {
  ds_Put : Key -> value -> S -> res unit * S;
  ds_Get : Key -> S -> res value * S;
  ds_Has : Key -> S -> res bool * S;
  ds_Delete : Key -> S -> res unit * S;
  ds_Query : Query -> S -> res Results * S;
}.

(** [GetBackedHas], over the [Get] of the store. *)
Definition GetBackedHas {S} (get : Key -> S -> res value * S) (key : Key) (s : S) : res bool * S :=
  let '(r, s) := get key s in
  (match r with
   | Ok _ => Ok true
   | Err err => if decide (err = DsErrNotFound) then Ok false else Err err
   | Panic => Panic
   end, s).

(** ** What a correct store promises

    A store is a partial map from keys to values. [ds_wf] is its invariant,
    [ds_view] the map; only canonical keys are used, those that [NewKey] makes. *)
Section View.
Context {S : Type} (view : S -> Key -> option value).
Definition same_view (s s' : S) : Prop := forall k, clean k -> view s' k = view s k.
Definition put_view (k : Key) (v : option value) (s s' : S) : Prop :=
  forall k', clean k' -> view s' k' = if decide (k' = k) then v else view s k'.
End View.

Definition found (o : option value) : res value :=
  match o with Some v => Ok v | None => Err DsErrNotFound end.
Definition deleted (o : option value) : res unit :=
  match o with Some _ => Ok tt | None => Err DsErrNotFound end.
Definition present (o : option value) : bool :=
  match o with Some _ => true | None => false end.

Class DatastoreSpec (S : Type) `{Datastore S} := {
  ds_wf : S -> Prop;
  ds_view : S -> Key -> option value;
  ds_Put_spec s k v : ds_wf s -> clean k ->
    exists s', ds_Put k v s = (Ok tt, s') /\ ds_wf s' /\ put_view ds_view k (Some v) s s';
  ds_Get_spec s k : ds_wf s -> clean k ->
    exists s', ds_Get k s = (found (ds_view s k), s') /\ ds_wf s' /\ same_view ds_view s s';
  ds_Has_spec s k : ds_wf s -> clean k ->
    exists s', ds_Has k s = (Ok (present (ds_view s k)), s')
               /\ ds_wf s' /\ same_view ds_view s s';
  ds_Delete_spec s k : ds_wf s -> clean k ->
    exists s', ds_Delete k s = (deleted (ds_view s k), s')
               /\ ds_wf s' /\ put_view ds_view k None s s';
}.

(** What a store of byte slices promises: only they are put, and only they come
    back. Every correct store that holds nothing else is one. *)
Class ByteStoreSpec (S : Type) `{Datastore S} := {
  bt_wf : S -> Prop;
  bt_view : S -> Key -> option value;
  bt_bytes s k v : bt_wf s -> clean k -> bt_view s k = Some v -> exists b, v = VBytes b;
  bt_Put_spec s k b : bt_wf s -> clean k ->
    exists s', ds_Put k (VBytes b) s = (Ok tt, s') /\ bt_wf s' /\ put_view bt_view k (Some (VBytes b)) s s';
  bt_Get_spec s k : bt_wf s -> clean k ->
    exists s', ds_Get k s = (found (bt_view s k), s') /\ bt_wf s' /\ same_view bt_view s s';
  bt_Has_spec s k : bt_wf s -> clean k ->
    exists s', ds_Has k s = (Ok (present (bt_view s k)), s') /\ bt_wf s' /\ same_view bt_view s s';
  bt_Delete_spec s k : bt_wf s -> clean k ->
    exists s', ds_Delete k s = (deleted (bt_view s k), s') /\ bt_wf s' /\ put_view bt_view k None s s';
}.

Section Bytes.
Context {S : Type} `{DatastoreSpec S}.

(** Every value in the store is a byte slice. *)
Definition bytes_only (d : S) : Prop :=
  forall k v, clean k -> ds_view d k = Some v -> exists b, v = VBytes b.

Lemma bytes_only_same d d' : bytes_only d -> same_view ds_view d d' -> bytes_only d'.
Proof. intros Hb Hs k v Hk Hv. rewrite Hs in Hv by done. by apply (Hb k v). Qed.

Lemma bytes_only_put d d' k o :
  bytes_only d -> put_view ds_view k o d d' -> (forall v, o = Some v -> exists b, v = VBytes b) ->
  bytes_only d'.
Proof.
  intros Hb Hp Ho k' v Hk' Hv. rewrite Hp in Hv by done.
  destruct (decide (k' = k)); [by apply Ho|by apply (Hb k' v)].
Qed.

#[export] Program Instance datastore_ByteStoreSpec : ByteStoreSpec S := {|
  bt_wf d := ds_wf d /\ bytes_only d; bt_view := ds_view |}.
Next Obligation. intros d k v [_ Hb]. apply Hb. Qed.
Next Obligation.
  intros d k b [Hwf Hb] Hk. destruct (ds_Put_spec d k (VBytes b) Hwf Hk) as (d' & Hr & Hwf' & Hp).
  exists d'. split_and!; [done..| |done]. eapply bytes_only_put; [done..|]. intros v [= <-]. by eexists.
Qed.
Next Obligation.
  intros d k [Hwf Hb] Hk. destruct (ds_Get_spec d k Hwf Hk) as (d' & Hr & Hwf' & Hs).
  exists d'. split_and!; [done..| |done]. by eapply bytes_only_same.
Qed.
Next Obligation.
  intros d k [Hwf Hb] Hk. destruct (ds_Has_spec d k Hwf Hk) as (d' & Hr & Hwf' & Hs).
  exists d'. split_and!; [done..| |done]. by eapply bytes_only_same.
Qed.
Next Obligation.
  intros d k [Hwf Hb] Hk. destruct (ds_Delete_spec d k Hwf Hk) as (d' & Hr & Hwf' & Hp).
  exists d'. split_and!; [done..| |done]. by eapply bytes_only_put.
Qed.
End Bytes.

(** The listing of a store: no key twice, and exactly the keys of the map that
    start with the prefix; the values too, unless only keys are asked for. *)
Definition lists_view (view : Key -> option value) (prefix : bytes) (keysOnly : bool)
    (es : list Entry) : Prop :=
  NoDup (map e_Key es)
  /\ (forall e, e ∈ es -> exists k v, clean k /\ e_Key e = key_string k /\ view k = Some v
        /\ HasPrefix (key_string k) prefix = true /\ (keysOnly = false -> e_Value e = v))
  /\ (forall k v, clean k -> view k = Some v -> HasPrefix (key_string k) prefix = true ->
        key_string k ∈ map e_Key es).

(** A query that only selects by prefix. *)
Definition prefix_query (prefix : bytes) (keysOnly : bool) : Query :=
  mkQuery prefix [] [] 0 0 keysOnly.

Lemma NaiveQueryApply_prefix prefix keysOnly es :
  NaiveQueryApply (prefix_query prefix keysOnly) (map entry_result es)
  = Ok (map entry_result (filter (fun e => HasPrefix (e_Key e) prefix = true) es)).
Proof.
  unfold NaiveQueryApply, prefix_query. cbn [q_Prefix q_Filters q_Orders q_Limit q_Offset fold_res].
  destruct (decide (prefix = [])) as [->|_]; simpl.
  - do 2 f_equal. induction es as [|e es IH]; [done|]. by rewrite filter_cons, <- IH.
  - change (FilterKeyPrefix_Filter prefix)
      with (pure_filter (fun e => HasPrefix (e_Key e) prefix)).
    by rewrite NaiveFilter_entries.
Qed.

Class QuerySpec (S : Type) `{DatastoreSpec S} :=
  ds_Query_spec s prefix keysOnly : ds_wf s ->
    exists es s', ds_Query (prefix_query prefix keysOnly) s = (Ok (map entry_result es), s')
      /\ ds_wf s' /\ same_view ds_view s s'
      /\ lists_view (ds_view s) prefix keysOnly es.

(** ** Sequences of operations *)
Inductive op :=
  | OPut (k : Key) (v : value)
  | OGet (k : Key)
  | OHas (k : Key)
  | ODelete (k : Key).

Inductive outcome :=
  | RUnit (r : res unit)
  | RValue (r : res value)
  | RBool (r : res bool).

Definition op_key (o : op) : Key :=
  match o with OPut k _ | OGet k | OHas k | ODelete k => k end.

Definition out {S A} (f : res A -> outcome) (p : res A * S) : outcome * S :=
  (f p.1, p.2).

Definition run_op {S} `{Datastore S} (o : op) (s : S) : outcome * S :=
  match o with
  | OPut k v => out RUnit (ds_Put k v s)
  | OGet k => out RValue (ds_Get k s)
  | OHas k => out RBool (ds_Has k s)
  | ODelete k => out RUnit (ds_Delete k s)
  end.

Fixpoint run_ops {S} `{Datastore S} (l : list op) (s : S) : list outcome * S :=
  match l with
  | [] => ([], s)
  | o :: l =>
      let '(r, s) := run_op o s in
      let '(rs, s) := run_ops l s in
      (r :: rs, s)
  end.

(** Two stores that answer alike, one call at a time, answer alike. *)
Lemma run_ops_simulation {S1 S2} `{Datastore S1, Datastore S2} (P : op -> Prop) (R : S1 -> S2 -> Prop) l s m :
  (forall o s m, P o -> R s m ->
     (run_op o s).1 = (run_op o m).1 /\ R (run_op o s).2 (run_op o m).2) ->
  Forall P l -> R s m ->
  (run_ops l s).1 = (run_ops l m).1 /\ R (run_ops l s).2 (run_ops l m).2.
Proof.
  intros Hstep Hl. revert s m. induction Hl as [|o l Ho Hl IH]; intros s m Hh; [done|].
  destruct (Hstep o s m Ho Hh) as [Hr Hh']. simpl.
  destruct (run_op o s) as [r1 s1], (run_op o m) as [r2 m1]. simpl in *.
  destruct (IH s1 m1 Hh') as [Hrs Hh''].
  destruct (run_ops l s1) as [rs1 s2], (run_ops l m1) as [rs2 m2]. simpl in *. by subst.
Qed.

(** ** basic_ds.go *)
Module MapDatastore.
Record MapDatastore := mkMap { values : gmap Key value }.

Definition NewMapDatastore : MapDatastore := mkMap ∅.

Definition Put (key : Key) (v : value) (d : MapDatastore) : res unit * MapDatastore :=
  (Ok tt, mkMap (<[key := v]> (values d))).
Definition Get (key : Key) (d : MapDatastore) : res value * MapDatastore :=
  match values d !! key with
  | None => (Err DsErrNotFound, d)
  | Some val => (Ok val, d)
  end.
Definition Has (key : Key) (d : MapDatastore) : res bool * MapDatastore :=
  (Ok (match values d !! key with Some _ => true | None => false end), d).
Definition Delete (key : Key) (d : MapDatastore) : res unit * MapDatastore :=
  match values d !! key with
  | None => (Err DsErrNotFound, d)
  | Some _ => (Ok tt, mkMap (delete key (values d)))
  end.
Definition Query_ `{!GoRange Key} (q : Query) (d : MapDatastore) : res Results * MapDatastore :=
  let re := map (fun '(k, v) => mkEntry (String_ k) v) (go_range_map (values d)) in
  let r := ResultsWithEntries q re in
  (NaiveQueryApply q r, d).

#[global] Instance key_string_inj : Inj (=) (=) key_string.
Proof. intros [a] [b]. simpl. congruence. Qed.

#[global] Instance map_Datastore `{!GoRange Key} : Datastore MapDatastore := {|
  ds_Put := Put; ds_Get := Get; ds_Has := Has; ds_Delete := Delete; ds_Query := Query_ |}.

#[global] Program Instance map_DatastoreSpec `{!GoRange Key} : DatastoreSpec MapDatastore := {|
  ds_wf d := forall k, is_Some (values d !! k) -> clean k;
  ds_view d k := values d !! k |}.
Next Obligation.
  intros ? [m] k v Hwf Hk. eexists. split_and!; [reflexivity| |].
  - intros k' Hk'. simpl in *. destruct (decide (k' = k)) as [->|]; [done|].
    rewrite lookup_insert_ne in Hk' by done. by apply Hwf.
  - intros k' _. simpl. destruct (decide (k' = k)) as [->|].
    + by rewrite lookup_insert_eq.
    + by rewrite lookup_insert_ne by done.
Qed.
Next Obligation.
  intros ? [m] k Hwf Hk. exists (mkMap m). simpl. unfold Get. simpl.
  by destruct (m !! k).
Qed.
Next Obligation. intros ? [m] k Hwf Hk. by exists (mkMap m). Qed.
Next Obligation.
  intros ? [m] k Hwf Hk. simpl in *. unfold Delete. simpl. destruct (m !! k) as [v|] eqn:Hv.
  - eexists. split_and!; [reflexivity| |]; simpl.
    + intros k' [x Hx%lookup_delete_Some]. apply Hwf. naive_solver.
    + intros k' _. simpl. destruct (decide (k' = k)) as [->|].
      * by rewrite lookup_delete_eq.
      * by rewrite lookup_delete_ne by done.
  - exists (mkMap m). split_and!; [done..|]. intros k' _. simpl.
    by destruct (decide (k' = k)) as [->|].
Qed.

Lemma New_wf `{!GoRange Key} : ds_wf NewMapDatastore.
Proof. intros k [v Hv]. change ((∅ : gmap Key value) !! k = Some v) in Hv. by rewrite lookup_empty in Hv. Qed.

(** The listing of a map: its entries in some order. *)
Lemma map_entries_lists `{!GoRange Key} (m : gmap Key value) prefix keysOnly :
  (forall k, is_Some (m !! k) -> clean k) ->
  lists_view (fun k => m !! k) prefix keysOnly
    (filter (fun e => HasPrefix (e_Key e) prefix = true)
       (map (fun '(k, v) => mkEntry (String_ k) v) (go_range_map m))).
Proof.
  intros Hwf. set (g := fun '(k, v) => mkEntry (String_ k) v).
  pose proof (elem_of_go_range_map m) as Hin.
  split_and!.
  - eapply sublist_NoDup; [|apply (fmap_sublist e_Key), sublist_filter].
    assert (e_Key <$> map g (go_range_map m) = key_string <$> (go_range_map m).*1) as ->.
    { rewrite <- !list_fmap_compose. apply list_fmap_ext. by intros ? [k v] _. }
    apply (NoDup_fmap_2 key_string). apply NoDup_go_range_map_keys.
  - intros e [Hp ([k v] & -> & Hkv%Hin)%list_elem_of_fmap]%list_elem_of_filter.
    exists k, v. split_and!; [|done..]. apply Hwf. by eexists.
  - intros k v Hk Hv Hp. apply (list_elem_of_fmap_2' e_Key _ (g (k, v))); [|done].
    apply list_elem_of_filter. split; [done|]. apply (list_elem_of_fmap_2 g). by apply Hin.
Qed.

#[global] Instance map_QuerySpec `{!GoRange Key} : QuerySpec MapDatastore.
Proof.
  intros [m] prefix keysOnly Hwf. eexists _, _. split_and!.
  - simpl. unfold Query_, ResultsWithEntries. rewrite NaiveQueryApply_prefix. reflexivity.
  - done.
  - done.
  - by apply map_entries_lists.
Qed.
End MapDatastore.

Module NullDatastore.
Inductive NullDatastore := NewNullDatastore.

Definition Put (key : Key) (v : value) (d : NullDatastore) : res unit * NullDatastore := (Ok tt, d).
Definition Get (key : Key) (d : NullDatastore) : res value * NullDatastore := (Ok VNil, d).
Definition Has (key : Key) (d : NullDatastore) : res bool * NullDatastore := (Ok false, d).
Definition Delete (key : Key) (d : NullDatastore) : res unit * NullDatastore := (Ok tt, d).
Definition Query_ (q : Query) (d : NullDatastore) : res Results * NullDatastore :=
  (Ok (ResultsWithEntries q []), d).

#[global] Instance null_Datastore : Datastore NullDatastore := {|
  ds_Put := Put; ds_Get := Get; ds_Has := Has; ds_Delete := Delete; ds_Query := Query_ |}.
End NullDatastore.

(** The stores that wrap a child run some effect [pre] before the child's
    operation, on a part of the state of their own. *)
Definition on_child {S T A} (wrap : S -> T) (p : res A * S) : res A * T := (p.1, wrap p.2).

Module LogDatastore.
Section Log.
Context {S : Type} `{Datastore S}.

(** The messages handed to [log.Printf], oldest first, are part of the state. *)
Record LogDatastore := mkLog { Name : bytes; log : list bytes; child : S }.

Definition NewLogDatastore (ds : S) (name : bytes) : LogDatastore :=
  mkLog (if length name <? 1 then str "LogDatastore" else name) [] ds.

Definition Printf (d : LogDatastore) (call : string) (arg : bytes) : LogDatastore :=
  mkLog (Name d) (log d ++ [Name d ++ str call ++ arg ++ [x0a]]) (child d).
Definition with_child (d : LogDatastore) (s : S) : LogDatastore := mkLog (Name d) (log d) s.

Definition Put (key : Key) (v : value) (d : LogDatastore) : res unit * LogDatastore :=
  let d := Printf d ": Put " (String_ key) in
  on_child (with_child d) (ds_Put key v (child d)).
Definition Get (key : Key) (d : LogDatastore) : res value * LogDatastore :=
  let d := Printf d ": Get " (String_ key) in
  on_child (with_child d) (ds_Get key (child d)).
Definition Has (key : Key) (d : LogDatastore) : res bool * LogDatastore :=
  let d := Printf d ": Has " (String_ key) in
  on_child (with_child d) (ds_Has key (child d)).
Definition Delete (key : Key) (d : LogDatastore) : res unit * LogDatastore :=
  let d := Printf d ": Delete " (String_ key) in
  on_child (with_child d) (ds_Delete key (child d)).
Definition Query_ (q : Query) (d : LogDatastore) : res Results * LogDatastore :=
  let d := Printf d ": Query" [] in
  on_child (with_child d) (ds_Query q (child d)).

#[global] Instance log_Datastore : Datastore LogDatastore := {|
  ds_Put := Put; ds_Get := Get; ds_Has := Has; ds_Delete := Delete; ds_Query := Query_ |}.
End Log.
Arguments LogDatastore : clear implicits.
End LogDatastore.

(** ** thirdparty: delays and claims *)
Module Delayed.
(** [delay.D]: the duration [t], and the time slept so far, in nanoseconds;
    [time.Sleep] returns at once when the duration is not positive. *)
Record D := mkD { t : Z; slept : Z }.
Definition Fixed (t : Z) : D := mkD t 0.
Definition Set_ (t' : Z) (d : D) : Z * D := (t d, mkD t' (slept d)).
Definition Wait (d : D) : D := mkD (t d) (slept d + Z.max 0 (t d)).
Definition Get_ (d : D) : Z := t d.

Section Delayed.
Context {S : Type} `{Datastore S}.
Record delayed := WithDelay { ds : S; delay : D }.

Definition pre (d : delayed) : S -> delayed := fun s => WithDelay s (Wait (delay d)).
Definition Put (key : Key) (v : value) (d : delayed) : res unit * delayed :=
  on_child (pre d) (ds_Put key v (ds d)).
Definition Get (key : Key) (d : delayed) : res value * delayed :=
  on_child (pre d) (ds_Get key (ds d)).
Definition Has (key : Key) (d : delayed) : res bool * delayed :=
  on_child (pre d) (ds_Has key (ds d)).
Definition Delete (key : Key) (d : delayed) : res unit * delayed :=
  on_child (pre d) (ds_Delete key (ds d)).
Definition Query_ (q : Query) (d : delayed) : res Results * delayed :=
  on_child (pre d) (ds_Query q (ds d)).

#[global] Instance delayed_Datastore : Datastore delayed := {|
  ds_Put := Put; ds_Get := Get; ds_Has := Has; ds_Delete := Delete; ds_Query := Query_ |}.
End Delayed.
Arguments delayed : clear implicits.
End Delayed.

(** ** callback/callback.go: a function runs before every operation *)
Module Callback.
Section Callback.
Context {S E : Type} `{Datastore S}.
(** [F] acts on the variables [env] that it closes over. *)
Record Callback := Wrap { D : S; F : E -> E; env : E }.
Definition SetFunc (f : E -> E) (c : Callback) : Callback := Wrap (D c) f (env c).
Definition pre (c : Callback) : S -> Callback := fun s => Wrap s (F c) (F c (env c)).
Definition Put (key : Key) (v : value) (c : Callback) : res unit * Callback :=
  on_child (pre c) (ds_Put key v (D c)).
Definition Get (key : Key) (c : Callback) : res value * Callback :=
  on_child (pre c) (ds_Get key (D c)).
Definition Has (key : Key) (c : Callback) : res bool * Callback :=
  on_child (pre c) (ds_Has key (D c)).
Definition Delete (key : Key) (c : Callback) : res unit * Callback :=
  on_child (pre c) (ds_Delete key (D c)).
Definition Query_ (q : Query) (c : Callback) : res Results * Callback :=
  on_child (pre c) (ds_Query q (D c)).

#[global] Instance callback_Datastore : Datastore Callback := {|
  ds_Put := Put; ds_Get := Get; ds_Has := Has; ds_Delete := Delete; ds_Query := Query_ |}.
End Callback.
Arguments Callback : clear implicits.
End Callback.

(** ** panic/panic.go: any error is a panic *)
Module PanicDatastore.
Section Panic.
Context {S : Type} `{Datastore S}.
Record PanicDatastore := Wrap { child : S }.
Definition must {A} (p : res A * S) : res A * PanicDatastore :=
  (match p.1 with Err _ => Panic | r => r end, Wrap p.2).
Definition Put (key : Key) (v : value) (d : PanicDatastore) := must (ds_Put key v (child d)).
Definition Get (key : Key) (d : PanicDatastore) := must (ds_Get key (child d)).
Definition Has (key : Key) (d : PanicDatastore) := must (ds_Has key (child d)).
Definition Delete (key : Key) (d : PanicDatastore) := must (ds_Delete key (child d)).
Definition Query_ (q : Query) (d : PanicDatastore) := must (ds_Query q (child d)).

#[global] Instance panic_Datastore : Datastore PanicDatastore := {|
  ds_Put := Put; ds_Get := Get; ds_Has := Has; ds_Delete := Delete; ds_Query := Query_ |}.
End Panic.
Arguments PanicDatastore : clear implicits.
End PanicDatastore.

(** ** Wrappers that pass every operation on

    A wrapper is transparent over its child when each operation gives the
    child's result and the child's next state. The log, delay and callback
    stores are; so every promise of the child is one of theirs. *)
Section Transparent.
Context {S T : Type} `{Datastore S, Datastore T} (proj : T -> S).

Definition passes_on {A} (p : res A * T) (q : res A * S) : Prop := p.1 = q.1 /\ proj p.2 = q.2.
Class Transparent := {
  tr_Put k v t : passes_on (ds_Put k v t) (ds_Put k v (proj t));
  tr_Get k t : passes_on (ds_Get k t) (ds_Get k (proj t));
  tr_Has k t : passes_on (ds_Has k t) (ds_Has k (proj t));
  tr_Delete k t : passes_on (ds_Delete k t) (ds_Delete k (proj t));
  tr_Query q t : passes_on (ds_Query q t) (ds_Query q (proj t));
}.

Lemma passes_on_elim {A} (p : res A * T) r s' (P : S -> Prop) q :
  passes_on p q -> q = (r, s') -> P s' -> exists t', p = (r, t') /\ P (proj t').
Proof. destruct p as [r' t']. intros [? Hp] -> HP. simpl in *. subst. by exists t'. Qed.

Context `{!DatastoreSpec S, !Transparent}.

Program Definition transparent_DatastoreSpec : DatastoreSpec T := {|
  ds_wf t := ds_wf (proj t);
  ds_view t := ds_view (proj t) |}.
Next Obligation.
  intros t k v Hwf Hk. destruct (ds_Put_spec (proj t) k v Hwf Hk) as (s' & Hs & HP).
  exact (passes_on_elim _ _ _ (fun s' => ds_wf s' /\ put_view ds_view k (Some v) (proj t) s')
           _ (tr_Put k v t) Hs HP).
Qed.
Next Obligation.
  intros t k Hwf Hk. destruct (ds_Get_spec (proj t) k Hwf Hk) as (s' & Hs & HP).
  exact (passes_on_elim _ _ _ (fun s' => ds_wf s' /\ same_view ds_view (proj t) s')
           _ (tr_Get k t) Hs HP).
Qed.
Next Obligation.
  intros t k Hwf Hk. destruct (ds_Has_spec (proj t) k Hwf Hk) as (s' & Hs & HP).
  exact (passes_on_elim _ _ _ (fun s' => ds_wf s' /\ same_view ds_view (proj t) s')
           _ (tr_Has k t) Hs HP).
Qed.
Next Obligation.
  intros t k Hwf Hk. destruct (ds_Delete_spec (proj t) k Hwf Hk) as (s' & Hs & HP).
  exact (passes_on_elim _ _ _ (fun s' => ds_wf s' /\ put_view ds_view k None (proj t) s')
           _ (tr_Delete k t) Hs HP).
Qed.
End Transparent.
Arguments Transparent S T {_ _} proj.

#[export] Instance log_transparent {S} `{Datastore S} :
  Transparent S (LogDatastore.LogDatastore S) LogDatastore.child.
Proof. by constructor. Qed.
#[export] Instance delayed_transparent {S} `{Datastore S} :
  Transparent S (Delayed.delayed S) Delayed.ds.
Proof. by constructor. Qed.
#[export] Instance callback_transparent {S E} `{Datastore S} :
  Transparent S (Callback.Callback S E) Callback.D.
Proof. by constructor. Qed.
#[export] Instance log_DatastoreSpec {S} `{DatastoreSpec S} :
  DatastoreSpec (LogDatastore.LogDatastore S) := transparent_DatastoreSpec LogDatastore.child.
#[export] Instance delayed_DatastoreSpec {S} `{DatastoreSpec S} :
  DatastoreSpec (Delayed.delayed S) := transparent_DatastoreSpec Delayed.ds.
#[export] Instance callback_DatastoreSpec {S E} `{DatastoreSpec S} :
  DatastoreSpec (Callback.Callback S E) := transparent_DatastoreSpec Callback.D.

(** ** Theorems *)

(** A correct store does what its map says, on every operation. *)
Lemma run_op_spec {S} `{DatastoreSpec S} o s :
  ds_wf s -> clean (op_key o) ->
  exists s', run_op o s
      = (match o with
         | OPut _ _ => RUnit (Ok tt)
         | OGet k => RValue (found (ds_view s k))
         | OHas k => RBool (Ok (present (ds_view s k)))
         | ODelete k => RUnit (deleted (ds_view s k))
         end, s')
    /\ ds_wf s'
    /\ match o with
       | OPut k v => put_view ds_view k (Some v) s s'
       | ODelete k => put_view ds_view k None s s'
       | _ => same_view ds_view s s'
       end.
Proof.
  intros Hwf Hk. destruct o as [k v|k|k|k]; simpl in *;
    [destruct (ds_Put_spec s k v Hwf Hk) as (s' & -> & HP)
    |destruct (ds_Get_spec s k Hwf Hk) as (s' & -> & HP)
    |destruct (ds_Has_spec s k Hwf Hk) as (s' & -> & HP)
    |destruct (ds_Delete_spec s k Hwf Hk) as (s' & -> & HP)]; by exists s'.
Qed.

(** Two stores are in agreement when they are well formed and hold the same
    values at the canonical keys. *)
Definition agree {S1 S2} `{DatastoreSpec S1, DatastoreSpec S2} (s1 : S1) (s2 : S2) : Prop :=
  ds_wf s1 /\ ds_wf s2 /\ forall k, clean k -> ds_view s1 k = ds_view s2 k.

Lemma run_op_agree {S1 S2} `{DatastoreSpec S1, DatastoreSpec S2} o (s1 : S1) (s2 : S2) :
  clean (op_key o) -> agree s1 s2 ->
  (run_op o s1).1 = (run_op o s2).1 /\ agree (run_op o s1).2 (run_op o s2).2.
Proof.
  intros Hk (Hwf1 & Hwf2 & Hv).
  destruct (run_op_spec o s1 Hwf1 Hk) as (s1' & -> & Hwf1' & HP1).
  destruct (run_op_spec o s2 Hwf2 Hk) as (s2' & -> & Hwf2' & HP2). simpl.
  split; [destruct o; simpl in *; by rewrite ?(Hv _ Hk)|]. split_and!; [done..|].
  intros k Hclean. destruct o; rewrite (HP1 k Hclean), (HP2 k Hclean), (Hv k Hclean); done.
Qed.

(** The values a map holds, as a store. *)
Definition map_of (m : gmap Key value) : MapDatastore.MapDatastore := MapDatastore.mkMap m.

Lemma run_ops_agree {S1 S2} `{DatastoreSpec S1, DatastoreSpec S2} l (s1 : S1) (s2 : S2) :
  Forall (fun o => clean (op_key o)) l -> agree s1 s2 ->
  (run_ops l s1).1 = (run_ops l s2).1 /\ agree (run_ops l s1).2 (run_ops l s2).2.
Proof.
  intros Hl. revert s1 s2. induction Hl as [|o l Ho Hl IH]; intros s1 s2 Hag; [done|].
  destruct (run_op_agree o s1 s2 Ho Hag) as [Hr Hag']. simpl.
  destruct (run_op o s1) as [r1 s1'], (run_op o s2) as [r2 s2']. simpl in *.
  destruct (IH s1' s2' Hag') as [Hrs Hag''].
  destruct (run_ops l s1') as [rs1 s1''], (run_ops l s2') as [rs2 s2'']. simpl in *.
  by subst.
Qed.

(** C9. Refinement: a store that satisfies the [DatastoreSpec] interface cannot be
    told from the in-memory [MapDatastore] by any sequence of Put, Get, Has and
    Delete calls on canonical keys: every call returns the same, errors included,
    and the two states agree again at the end. *)
Theorem Datastore_refines_map {S} `{DatastoreSpec S} `{!GoRange Key} l (s : S) m :
  Forall (fun o => clean (op_key o)) l -> agree s (map_of m) ->
  (run_ops l s).1 = (run_ops l (map_of m)).1
  /\ agree (run_ops l s).2 (run_ops l (map_of m)).2.
Proof. apply run_ops_agree. Qed.

Lemma Datastore_refines_map_witness :
  let R := elements_range Key in
  let k := NewKey (str "/a") in
  let d := Delayed.WithDelay MapDatastore.NewMapDatastore (Delayed.Fixed 5) in
  let l := [OGet k; OPut k (VBytes [x01]); OHas k; OGet k; ODelete k; ODelete k] in
  (run_ops l d).1 = (run_ops l (map_of ∅)).1.
Proof.
  intros R k d l. apply (@Datastore_refines_map _ _ _ R l d ∅).
  - repeat constructor; apply NewKey_clean.
  - split_and!; [apply MapDatastore.New_wf..|done].
Defined.

(** A [Query] by prefix on a [MapDatastore] that any sequence of calls has
    filled lists each key under the prefix once, with its value, in some order,
    and lists nothing else. *)
Theorem MapDatastore_Query_lists `{!GoRange Key} l prefix keysOnly :
  Forall (fun o => clean (op_key o)) l ->
  let d := (run_ops l MapDatastore.NewMapDatastore).2 in
  exists es, MapDatastore.Query_ (prefix_query prefix keysOnly) d = (Ok (map entry_result es), d)
    /\ lists_view (fun k => MapDatastore.values d !! k) prefix keysOnly es.
Proof.
  intros Hl d.
  destruct (run_ops_agree l MapDatastore.NewMapDatastore MapDatastore.NewMapDatastore Hl)
    as (_ & Hwf & _).
  { split_and!; [apply MapDatastore.New_wf..|done]. }
  eexists. split.
  - unfold MapDatastore.Query_, ResultsWithEntries. rewrite NaiveQueryApply_prefix. reflexivity.
  - by apply MapDatastore.map_entries_lists.
Qed.

Lemma MapDatastore_Query_lists_witness :
  let R := elements_range Key in
  let l := [OPut (NewKey (str "/a/x")) (VBytes [x01]); OPut (NewKey (str "/b")) VNil] in
  let d := (run_ops l MapDatastore.NewMapDatastore).2 in
  exists es, MapDatastore.Query_ (prefix_query (str "/a") false) d = (Ok (map entry_result es), d)
    /\ lists_view (fun k => MapDatastore.values d !! k) (str "/a") false es.
Proof.
  intros R l. apply (MapDatastore_Query_lists l (str "/a") false).
  repeat constructor; apply NewKey_clean.
Defined.

(** The child of a transparent wrapper sees the same calls. *)
Lemma run_op_transparent {S T} `{Datastore S, Datastore T} (proj : T -> S)
    `{!Transparent S T proj} o t :
  (run_op o t).1 = (run_op o (proj t)).1 /\ proj (run_op o t).2 = (run_op o (proj t)).2.
Proof.
  destruct o as [k v|k|k|k]; simpl;
    [destruct (tr_Put proj k v t) as [E1 E2]|destruct (tr_Get proj k t) as [E1 E2]
    |destruct (tr_Has proj k t) as [E1 E2]|destruct (tr_Delete proj k t) as [E1 E2]];
    split; [by f_equal|done|by f_equal|done|by f_equal|done|by f_equal|done].
Qed.

Lemma run_ops_transparent {S T} `{Datastore S, Datastore T} (proj : T -> S)
    `{!Transparent S T proj} l t :
  (run_ops l t).1 = (run_ops l (proj t)).1 /\ proj (run_ops l t).2 = (run_ops l (proj t)).2.
Proof.
  revert t. induction l as [|o l IH]; intros t; [done|]. simpl.
  destruct (run_op_transparent proj o t) as [Hr Hs].
  destruct (run_op o t) as [r t'], (run_op o (proj t)) as [r' s']. simpl in *. subst.
  destruct (IH t') as [Hrs Hs].
  destruct (run_ops l t') as [rs t''], (run_ops l (proj t')) as [rs' s'']. simpl in *.
  by subst.
Qed.

(** What a state grows by, call after call. *)
Lemma run_ops_inv {S} `{Datastore S} (P : list op -> S -> Prop) l s :
  P [] s -> (forall l o s, P l s -> P (l ++ [o]) (run_op o s).2) -> P l (run_ops l s).2.
Proof.
  intros H0 Hstep. cut (forall l0 s, P l0 s -> P (l0 ++ l) (run_ops l s).2).
  { intros Hc. by apply (Hc [] s). }
  clear s H0. induction l as [|o l IH]; intros l0 s Hs; simpl; [by rewrite app_nil_r|].
  specialize (IH (l0 ++ [o]) (run_op o s).2 (Hstep _ _ _ Hs)).
  rewrite <- app_assoc in IH. destruct (run_op o s) as [r s']. simpl in *.
  by destruct (run_ops l s') as [rs s''].
Qed.

(** The line a call writes. *)
Definition log_line (name : bytes) (o : op) : bytes :=
  name ++ str (match o with OPut _ _ => ": Put " | OGet _ => ": Get "
               | OHas _ => ": Has " | ODelete _ => ": Delete " end)
  ++ key_string (op_key o) ++ [x0a].

(** A [LogDatastore] writes exactly one line per call, in the order of the
    calls, and returns what its child returns; a [delayed] store with a fixed
    delay sleeps that delay once per call, and a callback store runs its function
    once per call, over the same results. *)
Theorem wrappers_run_ops {S E} `{Datastore S} (l : list op) (s : S) name t (F : E -> E) (env : E) :
  let d := LogDatastore.NewLogDatastore s name in
  (run_ops l d).1 = (run_ops l s).1
  /\ LogDatastore.child (run_ops l d).2 = (run_ops l s).2
  /\ LogDatastore.log (run_ops l d).2 = map (log_line (LogDatastore.Name d)) l
  /\ let w := Delayed.WithDelay s (Delayed.Fixed t) in
     (run_ops l w).1 = (run_ops l s).1
     /\ Delayed.slept (Delayed.delay (run_ops l w).2) = (Z.of_nat (length l) * Z.max 0 t)%Z
     /\ let c := Callback.Wrap s F env in
        (run_ops l c).1 = (run_ops l s).1
        /\ Callback.env (run_ops l c).2 = Nat.iter (length l) F env.
Proof.
  intros d. split_and!; [apply (run_ops_transparent LogDatastore.child)
    |apply (run_ops_transparent LogDatastore.child)| |].
  - apply (run_ops_inv (fun l d' => LogDatastore.Name d' = LogDatastore.Name d
      /\ LogDatastore.log d' = map (log_line (LogDatastore.Name d)) l)); [done|].
    intros l0 o d' [Hn Hl]. rewrite map_app, <- Hl, <- Hn. by destruct o.
  - intros w. split_and!; [apply (run_ops_transparent Delayed.ds)| |].
    + apply (run_ops_inv (fun l w' => Delayed.t (Delayed.delay w') = t
        /\ Delayed.slept (Delayed.delay w') = (Z.of_nat (length l) * Z.max 0 t)%Z)); [done|].
      intros l0 o w' [Ht Hs]. rewrite length_app. simpl length.
      destruct o; simpl; rewrite Hs, Ht; split; (done || lia).
    + intros c. split; [apply (run_ops_transparent Callback.D)|].
      apply (run_ops_inv (fun l c' => Callback.F c' = F
        /\ Callback.env c' = Nat.iter (length l) F env)); [done|].
      intros l0 o c' [HF He]. rewrite length_app, Nat.add_comm.
      destruct o; simpl; by rewrite HF, He.
Qed.

(** [GetBackedHas] answers like the store's own [Has], and passes on an error
    that is not [ErrNotFound]. *)
Theorem GetBackedHas_Has {S} `{DatastoreSpec S} (s : S) k :
  ds_wf s -> clean k ->
  (GetBackedHas ds_Get k s).1 = (ds_Has k s).1
  /\ same_view ds_view s (GetBackedHas ds_Get k s).2
  /\ forall e, e <> DsErrNotFound ->
       GetBackedHas (fun _ s => (Err e, s)) k s = (Err e, s).
Proof.
  intros Hwf Hk. unfold GetBackedHas.
  destruct (ds_Get_spec s k Hwf Hk) as (s1 & -> & _ & Hs1).
  destruct (ds_Has_spec s k Hwf Hk) as (s2 & -> & _ & _).
  split_and!; [by destruct (ds_view s k)|done|]. intros e He. by rewrite decide_False.
Qed.

Lemma GetBackedHas_Has_witness :
  let R := elements_range Key in
  (GetBackedHas ds_Get (NewKey (str "a")) MapDatastore.NewMapDatastore).1
  = (ds_Has (NewKey (str "a")) MapDatastore.NewMapDatastore).1.
Proof.
  intros R. apply GetBackedHas_Has; [apply MapDatastore.New_wf|apply NewKey_clean].
Defined.

(** A panic datastore never returns an error: a call that fails in the child
    panics, any other
    returns the child's result. *)
Theorem PanicDatastore_no_error {S} `{Datastore S} (d : PanicDatastore.PanicDatastore S) k v q e :
  (PanicDatastore.Put k v d).1 <> Err e /\ (PanicDatastore.Get k d).1 <> Err e
  /\ (PanicDatastore.Has k d).1 <> Err e /\ (PanicDatastore.Delete k d).1 <> Err e
  /\ (PanicDatastore.Query_ q d).1 <> Err e
  /\ forall x, (PanicDatastore.Get k d).1 = Ok x <-> (ds_Get k (PanicDatastore.child d)).1 = Ok x.
Proof.
  unfold PanicDatastore.Put, PanicDatastore.Get, PanicDatastore.Has, PanicDatastore.Delete,
    PanicDatastore.Query_, PanicDatastore.must. simpl.
  split_and!; try (case_match; congruence). intros x. case_match; split; congruence.
Qed.
