(* ===== verification/Namespace.v ===== *)
(** * Key transforms and namespaces

    Models [Godeps/.../jbenet/go-datastore/keytransform] ([interface.go],
    [keytransform.go]) and [namespace/namespace.go]: stores that rewrite the keys
    of every operation, and the one that puts them all under a prefix. *)

From S2P Require Import Prelude DsKey Query Datastore.

(** ** keytransform *)
Module Keytransform.
(** [KeyTransform], as built by [Pair]: an inversion may panic. *)
Record Pair := mkPair { Convert : Key -> Key; Invert : Key -> res Key }.
Definition ConvertKey (t : Pair) (k : Key) : Key := Convert t k.
Definition InvertKey (t : Pair) (k : Key) : res Key := Invert t k.

Section Ktds.
Context {S : Type} `{Datastore S}.
Record ktds := mkKtds { child : S; KeyTransform : Pair }.

(** [Wrap]: panics on a nil transform or a nil child. *)
Definition Wrap (child : option S) (t : option Pair) : res ktds :=
  match t with
  | None => Panic
  | Some t => match child with None => Panic | Some c => Ok (mkKtds c t) end
  end.

Definition with_child (d : ktds) (s : S) : ktds := mkKtds s (KeyTransform d).
Definition Put (key : Key) (v : value) (d : ktds) : res unit * ktds :=
  on_child (with_child d) (ds_Put (ConvertKey (KeyTransform d) key) v (child d)).
Definition Get (key : Key) (d : ktds) : res value * ktds :=
  on_child (with_child d) (ds_Get (ConvertKey (KeyTransform d) key) (child d)).
Definition Has (key : Key) (d : ktds) : res bool * ktds :=
  on_child (with_child d) (ds_Has (ConvertKey (KeyTransform d) key) (child d)).
Definition Delete (key : Key) (d : ktds) : res unit * ktds :=
  on_child (with_child d) (ds_Delete (ConvertKey (KeyTransform d) key) (child d)).

(** The goroutine of [Query]: errors pass, keys are inverted. *)
Fixpoint invert_results (t : Pair) (qr : Results) : res Results :=
  match qr with
  | [] => Ok []
  | r :: qr =>
      r ← (if has_error r then Ok r
           else k ← InvertKey t (NewKey (e_Key (r_Entry r)));
                Ok (mkResult (mkEntry (String_ k) (e_Value (r_Entry r))) (r_Error r)));
      rest ← invert_results t qr;
      Ok (r :: rest)
  end.
Definition Query_ (q : Query) (d : ktds) : res Results * ktds :=
  on_child (with_child d)
    (let '(qr, s) := ds_Query q (child d) in (qr ≫= invert_results (KeyTransform d), s)).

#[global] Instance ktds_Datastore : Datastore ktds := {|
  ds_Put := Put; ds_Get := Get; ds_Has := Has; ds_Delete := Delete; ds_Query := Query_ |}.
End Ktds.
Arguments ktds : clear implicits.
End Keytransform.

(** ** namespace *)
Definition PrefixTransform (prefix : Key) : Keytransform.Pair := {|
  Keytransform.Convert k := Child prefix k;
  Keytransform.Invert k :=
    if negb (IsAncestorOf prefix k) then Panic
    else Ok (NewKey (TrimPrefix (String_ k) (String_ prefix))) |}.

Module Namespace.
Import Keytransform.
Section Namespace.
Context {S : Type} `{Datastore S}.

(** [type datastore]: the field [raw] and the child of the embedded
    [ktds.Datastore] are the same store, kept once here. *)
Record datastore := mkNs { prefix : Key; Datastore_ : ktds S }.
Definition raw (d : datastore) : S := child (Datastore_ d).

Definition Wrap (child : option S) (prefix : Key) : res datastore :=
  match child with
  | None => Panic
  | Some _ => d ← Wrap child (Some (PrefixTransform prefix)); Ok (mkNs prefix d)
  end.

Definition with_ktds (d : datastore) (t : ktds S) : datastore := mkNs (prefix d) t.
Definition Put (key : Key) (v : value) (d : datastore) : res unit * datastore :=
  on_child (with_ktds d) (Put key v (Datastore_ d)).
Definition Get (key : Key) (d : datastore) : res value * datastore :=
  on_child (with_ktds d) (Get key (Datastore_ d)).
Definition Has (key : Key) (d : datastore) : res bool * datastore :=
  on_child (with_ktds d) (Has key (Datastore_ d)).
Definition Delete (key : Key) (d : datastore) : res unit * datastore :=
  on_child (with_ktds d) (Delete key (Datastore_ d)).

(** The goroutine of [Query]: a key that the prefix is not an ancestor of is
    dropped. *)
Fixpoint strip_results (prefix : Key) (t : Pair) (qr : Results) : res Results :=
  match qr with
  | [] => Ok []
  | r :: qr =>
      if has_error r then rest ← strip_results prefix t qr; Ok (r :: rest)
      else
        let k := NewKey (e_Key (r_Entry r)) in
        if negb (IsAncestorOf prefix k) then strip_results prefix t qr
        else
          k' ← InvertKey t k;
          rest ← strip_results prefix t qr;
          Ok (mkResult (mkEntry (String_ k') (e_Value (r_Entry r))) (r_Error r) :: rest)
  end.
Definition Query_ (q : Query) (d : datastore) : res Results * datastore :=
  let '(qr, s) := ds_Query q (raw d) in
  (qr ≫= strip_results (prefix d) (KeyTransform (Datastore_ d)),
   with_ktds d (with_child (Datastore_ d) s)).

#[global] Instance ns_Datastore : Datastore datastore := {|
  ds_Put := Put; ds_Get := Get; ds_Has := Has; ds_Delete := Delete; ds_Query := Query_ |}.
End Namespace.
Arguments datastore : clear implicits.
End Namespace.

(** ** Joining a prefix *)

Lemma Child_clean p k : clean p -> clean k -> clean (Child p k).
Proof. intros _ _. unfold Child. apply NewKey_clean. Qed.

Lemma Child_inj p k1 k2 :
  clean p -> clean k1 -> clean k2 -> Child p k1 = Child p k2 -> k1 = k2.
Proof.
  intros (es & Hes & ->)%clean_key_of (e1 & H1 & ->)%clean_key_of (e2 & H2 & ->)%clean_key_of Heq.
  rewrite !Child_key_of in Heq by done. f_equal. apply (app_inv_head es).
  apply key_of_inj; [by apply Forall_app..|done].
Qed.

(** Taking the prefix off again. *)
Lemma TrimPrefix_Child es1 es2 :
  Forall good es1 -> Forall good es2 -> es2 <> [] ->
  NewKey (TrimPrefix (key_string (key_of (es1 ++ es2))) (key_string (key_of es1))) = key_of es2.
Proof.
  intros H1 H2 Hne. rewrite key_string_app by done. rewrite TrimPrefix_app.
  destruct es1 as [|e es1]; simpl; [by apply NewKey_Join|]. by apply (NewKey_key_of es2).
Qed.

Lemma invert_convert p k :
  clean p -> clean k -> k <> NewKey [] ->
  Keytransform.InvertKey (PrefixTransform p) (Keytransform.ConvertKey (PrefixTransform p) k) = Ok k.
Proof.
  intros (es & Hes & ->)%clean_key_of (e1 & H1 & ->)%clean_key_of Hk.
  assert (e1 <> []) as Hne by (by intros ->).
  unfold Keytransform.InvertKey, Keytransform.ConvertKey.
  cbn [Keytransform.Convert Keytransform.Invert PrefixTransform].
  rewrite Child_key_of, IsAncestorOf_key_of by done. cbn [negb]. f_equal.
  by apply TrimPrefix_Child.
Qed.

(** ** The namespaced store is a correct store *)

(** The namespace over another state of its child, and each operation as the
    child's. *)
Section Over.
Import Namespace.
Context {S : Type} `{Datastore S}.
Implicit Types d : datastore S.

Definition over d (s : S) : datastore S :=
  with_ktds d (Keytransform.with_child (Datastore_ d) s).
Definition prefixed d : Prop :=
  clean (prefix d) /\ Keytransform.KeyTransform (Datastore_ d) = PrefixTransform (prefix d).

Ltac by_child Hp := destruct Hp as [_ Ht]; simpl;
  unfold Put, Get, Has, Delete, Keytransform.Put, Keytransform.Get, Keytransform.Has,
    Keytransform.Delete, Keytransform.ConvertKey; by rewrite Ht.
Lemma ns_Put d k v : prefixed d ->
  ds_Put k v d = on_child (over d) (ds_Put (Child (prefix d) k) v (raw d)).
Proof. intros Hp. by_child Hp. Qed.
Lemma ns_Get d k : prefixed d -> ds_Get k d = on_child (over d) (ds_Get (Child (prefix d) k) (raw d)).
Proof. intros Hp. by_child Hp. Qed.
Lemma ns_Has d k : prefixed d -> ds_Has k d = on_child (over d) (ds_Has (Child (prefix d) k) (raw d)).
Proof. intros Hp. by_child Hp. Qed.
Lemma ns_Delete d k : prefixed d ->
  ds_Delete k d = on_child (over d) (ds_Delete (Child (prefix d) k) (raw d)).
Proof. intros Hp. by_child Hp. Qed.

Context (view : S -> Key -> option value).
Definition view_below d (k : Key) : option value := view (raw d) (Child (prefix d) k).

Lemma over_same d s : prefixed d -> same_view view (raw d) s -> same_view view_below d (over d s).
Proof. intros [Hp _] Hs k Hk. apply Hs. by apply Child_clean. Qed.

Lemma over_put d s k o :
  prefixed d -> clean k -> put_view view (Child (prefix d) k) o (raw d) s ->
  put_view view_below k o d (over d s).
Proof.
  intros [Hp _] Hk Hs k' Hk'. unfold view_below. etransitivity; [by apply Hs, Child_clean|].
  destruct (decide (k' = k)) as [->|Hne]; [by rewrite decide_True|].
  rewrite decide_False; [done|]. intros Heq. by apply Hne, (Child_inj (prefix d)).
Qed.
End Over.

Section Spec.
Import Namespace.
Context {S : Type} `{DatastoreSpec S}.
Implicit Types d : datastore S.

Definition ns_wf d : Prop := ds_wf (raw d) /\ prefixed d.
Definition ns_view : datastore S -> Key -> option value := view_below ds_view.

#[export] Program Instance ns_DatastoreSpec : DatastoreSpec (datastore S) := {|
  ds_wf := ns_wf; ds_view := ns_view |}.
Next Obligation.
  intros d k v [Hraw Hp] Hk. rewrite ns_Put by done.
  destruct (ds_Put_spec (raw d) (Child (prefix d) k) v Hraw) as (s' & -> & Hwf' & HP);
    [by apply Child_clean; [apply Hp|]|].
  exists (over d s'). split_and!; [done..|by apply over_put].
Qed.
Next Obligation.
  intros d k [Hraw Hp] Hk. rewrite ns_Get by done.
  destruct (ds_Get_spec (raw d) (Child (prefix d) k) Hraw) as (s' & -> & Hwf' & HP);
    [by apply Child_clean; [apply Hp|]|].
  exists (over d s'). split_and!; [done..|by apply over_same].
Qed.
Next Obligation.
  intros d k [Hraw Hp] Hk. rewrite ns_Has by done.
  destruct (ds_Has_spec (raw d) (Child (prefix d) k) Hraw) as (s' & -> & Hwf' & HP);
    [by apply Child_clean; [apply Hp|]|].
  exists (over d s'). split_and!; [done..|by apply over_same].
Qed.
Next Obligation.
  intros d k [Hraw Hp] Hk. rewrite ns_Delete by done.
  destruct (ds_Delete_spec (raw d) (Child (prefix d) k) Hraw) as (s' & -> & Hwf' & HP);
    [by apply Child_clean; [apply Hp|]|].
  exists (over d s'). split_and!; [done..|by apply over_put].
Qed.

(** A call changes nothing of the child outside the namespace. *)
Lemma run_op_outside d o k :
  ns_wf d -> clean (op_key o) -> clean k ->
  (forall k', clean k' -> k <> Child (prefix d) k') ->
  ds_view (raw (run_op o d).2) k = ds_view (raw d) k /\ prefix (run_op o d).2 = prefix d.
Proof.
  intros [Hraw Hp] Ho Hk Hout.
  assert (Hc : clean (Child (prefix d) (op_key o))) by (apply Child_clean; [apply Hp|done]).
  destruct o as [k' v|k'|k'|k']; cbn [run_op op_key] in *.
  - rewrite ns_Put by done. destruct (ds_Put_spec (raw d) _ v Hraw Hc) as (s' & -> & _ & HP).
    split; [|done]. cbn. rewrite HP by done. rewrite decide_False; [done|]. by apply Hout.
  - rewrite ns_Get by done. destruct (ds_Get_spec (raw d) _ Hraw Hc) as (s' & -> & _ & HP).
    split; [by apply HP|done].
  - rewrite ns_Has by done. destruct (ds_Has_spec (raw d) _ Hraw Hc) as (s' & -> & _ & HP).
    split; [by apply HP|done].
  - rewrite ns_Delete by done. destruct (ds_Delete_spec (raw d) _ Hraw Hc) as (s' & -> & _ & HP).
    split; [|done]. cbn. rewrite HP by done. rewrite decide_False; [done|]. by apply Hout.
Qed.
End Spec.

(** The namespace [p] of a store of byte slices is one too. *)
Section Bytes.
Import Namespace.
Context {S : Type} `{ByteStoreSpec S} (p : Key).
Implicit Types d : datastore S.

Program Definition ns_ByteStoreSpec : ByteStoreSpec (datastore S) := {|
  bt_wf d := bt_wf (raw d) /\ prefixed d /\ prefix d = p; bt_view := view_below bt_view |}.
Next Obligation.
  intros d k v (Hraw & Hp & He) Hk. apply (bt_bytes (raw d)); [done|]. by apply Child_clean; [apply Hp|].
Qed.
Next Obligation.
  intros d k b (Hraw & Hp & He) Hk. rewrite ns_Put by done.
  destruct (bt_Put_spec (raw d) (Child (prefix d) k) b Hraw) as (s' & -> & Hwf' & HP);
    [by apply Child_clean; [apply Hp|]|].
  exists (over d s'). split_and!; [done..|by apply over_put].
Qed.
Next Obligation.
  intros d k (Hraw & Hp & He) Hk. rewrite ns_Get by done.
  destruct (bt_Get_spec (raw d) (Child (prefix d) k) Hraw) as (s' & -> & Hwf' & HP);
    [by apply Child_clean; [apply Hp|]|].
  exists (over d s'). split_and!; [done..|by apply over_same].
Qed.
Next Obligation.
  intros d k (Hraw & Hp & He) Hk. rewrite ns_Has by done.
  destruct (bt_Has_spec (raw d) (Child (prefix d) k) Hraw) as (s' & -> & Hwf' & HP);
    [by apply Child_clean; [apply Hp|]|].
  exists (over d s'). split_and!; [done..|by apply over_same].
Qed.
Next Obligation.
  intros d k (Hraw & Hp & He) Hk. rewrite ns_Delete by done.
  destruct (bt_Delete_spec (raw d) (Child (prefix d) k) Hraw) as (s' & -> & Hwf' & HP);
    [by apply Child_clean; [apply Hp|]|].
  exists (over d s'). split_and!; [done..|by apply over_put].
Qed.
End Bytes.

(** ** Namespaces *)

(** What [Wrap] makes of a store. *)
Definition ns {S} `{Datastore S} (p : Key) (s : S) : Namespace.datastore S :=
  Namespace.mkNs p (Keytransform.mkKtds s (PrefixTransform p)).

Lemma Wrap_ns {S} `{Datastore S} p (s : S) : Namespace.Wrap (Some s) p = Ok (ns p s).
Proof. done. Qed.

Lemma ns_ns_wf {S} `{DatastoreSpec S} p (s : S) : ds_wf s -> clean p -> ds_wf (ns p s).
Proof. done. Qed.

Lemma raw_ops_outside {S} `{DatastoreSpec S} l (d : Namespace.datastore S) k :
  Forall (fun o => clean (op_key o)) l -> ds_wf d -> clean k ->
  (forall k', clean k' -> k <> Child (Namespace.prefix d) k') ->
  ds_view (Namespace.raw (run_ops l d).2) k = ds_view (Namespace.raw d) k.
Proof.
  intros Hl. revert d. induction Hl as [|o l Ho Hl IH]; intros d Hwf Hk Hout; [done|].
  destruct (run_op_outside d o k Hwf Ho Hk Hout) as [Hv Hp].
  destruct (run_op_spec o d Hwf Ho) as (d' & Hd & Hwf' & _). simpl. rewrite Hd in *.
  simpl in *. rewrite <- Hv, <- (IH d'); [by destruct (run_ops l d')|done..|by rewrite Hp].
Qed.

(** Isolation: two namespaces of one store whose prefixes are not nested do
    not see each other. Whatever calls one of them serves, every key of the other
    keeps its value. *)
Theorem Namespace_isolation {S} `{DatastoreSpec S} (s : S) es1 es2 l k :
  Forall good es1 -> Forall good es2 -> ~ es1 `prefix_of` es2 -> ~ es2 `prefix_of` es1 ->
  ds_wf s -> Forall (fun o => clean (op_key o)) l -> clean k ->
  exists d1 d2 d2',
    Namespace.Wrap (Some s) (key_of es1) = Ok d1
    /\ Namespace.Wrap (Some s) (key_of es2) = Ok d2
    /\ Namespace.Wrap (Some (Namespace.raw (run_ops l d1).2)) (key_of es2) = Ok d2'
    /\ ds_view d2' k = ds_view d2 k.
Proof.
  intros H1 H2 Hn1 Hn2 Hwf Hl Hk. exists (ns (key_of es1) s), (ns (key_of es2) s),
    (ns (key_of es2) (Namespace.raw (run_ops l (ns (key_of es1) s)).2)).
  do 3 (split; [apply Wrap_ns|]).
  set (d1 := ns (key_of es1) s).
  change (ds_view (Namespace.raw (run_ops l d1).2) (Child (key_of es2) k)
          = ds_view (Namespace.raw d1) (Child (key_of es2) k)).
  apply raw_ops_outside; [done|by apply ns_ns_wf, NewKey_key_of|by apply NewKey_clean|].
  apply clean_key_of in Hk as (es & Hes & ->).
  intros k' (es' & Hes' & ->)%clean_key_of. simpl. rewrite !Child_key_of by done.
  intros Heq%key_of_inj; [|by apply Forall_app..].
  destruct (prefix_weak_total es1 es2 (es1 ++ es')); [by eexists|by exists es|done..].
Qed.

Lemma Namespace_isolation_witness :
  let R := elements_range Key in
  exists d1 d2 d2',
    Namespace.Wrap (Some MapDatastore.NewMapDatastore) (key_of [str "a"]) = Ok d1
    /\ Namespace.Wrap (Some MapDatastore.NewMapDatastore) (key_of [str "b"]) = Ok d2
    /\ Namespace.Wrap (Some (Namespace.raw
         (run_ops [OPut (NewKey (str "x")) VNil] d1).2)) (key_of [str "b"]) = Ok d2'
    /\ ds_view d2' (NewKey (str "x")) = ds_view d2 (NewKey (str "x")).
Proof.
  intros R. apply Namespace_isolation.
  - decide_compute.
  - decide_compute.
  - intros [? [=]].
  - intros [? [=]].
  - apply MapDatastore.New_wf.
  - by repeat constructor.
  - apply NewKey_clean.
Defined.

(** *** Listing a namespace *)

(** What the goroutine of [Query] makes of an entry. *)
Definition strip (p : Key) (e : Entry) : option Entry :=
  let k := NewKey (e_Key e) in
  if IsAncestorOf p k
  then Some (mkEntry (key_string (NewKey (TrimPrefix (key_string k) (key_string p)))) (e_Value e))
  else None.

Lemma strip_results_entries p es :
  Namespace.strip_results p (PrefixTransform p) (map entry_result es)
  = Ok (map entry_result (omap (strip p) es)).
Proof.
  induction es as [|e es IH]; [done|].
  cbn [map Namespace.strip_results has_error entry_result r_Error r_Entry]. rewrite IH.
  unfold Keytransform.InvertKey. cbn [Keytransform.Invert PrefixTransform].
  cbn. unfold strip. by destruct (IsAncestorOf p (NewKey (e_Key e))).
Qed.

Lemma strip_child p k v :
  clean p -> clean k -> k <> NewKey [] ->
  strip p (mkEntry (key_string (Child p k)) v) = Some (mkEntry (key_string k) v).
Proof.
  intros (es & Hes & ->)%clean_key_of (e1 & H1 & ->)%clean_key_of Hk.
  assert (e1 <> []) as Hne by (by intros ->). unfold strip. cbn [e_Key e_Value].
  rewrite Child_key_of, NewKey_key_of, IsAncestorOf_key_of by (done || by apply Forall_app).
  by rewrite TrimPrefix_Child.
Qed.

Lemma NoDup_omap_key (f : Entry -> option Entry) es :
  (forall e1 e2 e1' e2', e1 ∈ es -> e2 ∈ es -> f e1 = Some e1' -> f e2 = Some e2' ->
     e_Key e1' = e_Key e2' -> e_Key e1 = e_Key e2) ->
  NoDup (map e_Key es) -> NoDup (map e_Key (omap f es)).
Proof.
  intros Hinj Hnd. change (map e_Key (omap f es)) with (e_Key <$> omap f es).
  rewrite list_fmap_omap. apply (NoDup_omap_by _ e_Key); [|done].
  intros x y b Hx Hy. destruct (f x) as [x'|] eqn:Hfx, (f y) as [y'|] eqn:Hfy; try done.
  simpl. intros [= Hx'] [= Hy']. apply (Hinj x y x' y' Hx Hy Hfx Hfy). congruence.
Qed.

(** The root of a namespace is the prefix itself, and is not below it. *)
Definition below_root {A} (view : Key -> option A) (k : Key) : option A :=
  if decide (k = NewKey []) then None else view k.

Lemma HasPrefix_Child p k pre :
  clean p -> clean k -> HasPrefix (key_string p) pre = true ->
  HasPrefix (key_string (Child p k)) pre = true.
Proof.
  intros (es1 & H1 & ->)%clean_key_of (es2 & H2 & ->)%clean_key_of [t Ht]%HasPrefix_spec.
  apply HasPrefix_spec. rewrite Child_key_of by done. destruct es2 as [|e2 es2].
  - rewrite app_nil_r. by exists t.
  - rewrite key_string_app by done. rewrite Ht, <- app_assoc. by eexists.
Qed.

(** No key of the store starts like the prefix without being under it. *)
Definition no_siblings {S} `{DatastoreSpec S} (p : Key) (s : S) : Prop :=
  forall k v, clean k -> ds_view s k = Some v -> IsAncestorOf p k = true ->
    exists k', clean k' /\ k = Child p k'.

Lemma strip_inv p k v e' :
  clean p -> clean k -> strip p (mkEntry (key_string (Child p k)) v) = Some e' ->
  k <> NewKey [] /\ e' = mkEntry (key_string k) v.
Proof.
  intros Hp Hk He'. destruct (decide (k = NewKey [])) as [->|Hne].
  - exfalso. apply clean_key_of in Hp as (es1 & H1 & ->). unfold strip in He'.
    change (NewKey []) with (key_of []) in He'. cbn [e_Key] in He'.
    rewrite Child_key_of, app_nil_r, NewKey_key_of in He' by done.
    unfold IsAncestorOf in He'. by rewrite decide_True in He'.
  - rewrite strip_child in He' by done. by injection He' as <-.
Qed.

Lemma strip_lists {S} `{DatastoreSpec S} p (s : S) pre keysOnly es :
  clean p -> HasPrefix (key_string p) pre = true -> no_siblings p s ->
  lists_view (ds_view s) pre keysOnly es ->
  lists_view (below_root (ds_view (ns p s))) [] keysOnly (omap (strip p) es).
Proof.
  intros Hp Hpre Hsib (Hnd & Hsnd & Hcmp).
  assert (Hstrip : forall e e', e ∈ es -> strip p e = Some e' ->
    exists k v, clean k /\ k <> NewKey [] /\ e_Key e = key_string (Child p k)
      /\ e' = mkEntry (key_string k) (e_Value e)
      /\ ds_view s (Child p k) = Some v /\ (keysOnly = false -> e_Value e = v)).
  { intros [ek ev] e' Hin He'. destruct (Hsnd _ Hin) as (k & v & Hk & Hek & Hv & _ & Hval).
    simpl in Hek, Hval. subst ek. destruct (IsAncestorOf p k) eqn:Ha.
    - destruct (Hsib k v Hk Hv Ha) as (k' & Hk' & ->).
      destruct (strip_inv p k' ev e' Hp Hk' He') as [Hne ->]. by exists k', v.
    - unfold strip in He'. cbn [e_Key] in He'. by rewrite Hk, Ha in He'. }
  split_and!.
  - apply NoDup_omap_key; [|done]. intros e1 e2 e1' e2' H1 H2 Hs1 Hs2 Heq.
    destruct (Hstrip _ _ H1 Hs1) as (k1 & _ & _ & _ & -> & -> & _).
    destruct (Hstrip _ _ H2 Hs2) as (k2 & _ & _ & _ & -> & -> & _).
    apply MapDatastore.key_string_inj in Heq. by subst.
  - intros e' (e & Hin & He)%list_elem_of_omap.
    destruct (Hstrip _ _ Hin He) as (k & v & Hk & Hroot & _ & -> & Hv & Hko).
    exists k, v. unfold below_root. by rewrite decide_False.
  - intros k v Hk Hv _. unfold below_root in Hv.
    destruct (decide (k = NewKey [])) as [|Hroot]; [done|].
    destruct (list_elem_of_fmap_1 _ _ _ (Hcmp (Child p k) v (Child_clean p k Hp Hk) Hv
      (HasPrefix_Child p k pre Hp Hk Hpre))) as ([ek ev] & Hek & Hin).
    simpl in Hek. subst ek. apply list_elem_of_fmap. exists (mkEntry (key_string k) ev).
    split; [done|]. apply list_elem_of_omap. eexists. split; [exact Hin|]. by apply strip_child.
Qed.

Lemma ns_Query {S} `{QuerySpec S} p (s : S) pre keysOnly :
  ds_wf s ->
  exists es s', Namespace.Query_ (prefix_query pre keysOnly) (ns p s)
                = (Ok (map entry_result (omap (strip p) es)), ns p s')
    /\ ds_wf s' /\ same_view ds_view s s' /\ lists_view (ds_view s) pre keysOnly es.
Proof.
  intros Hwf. destruct (ds_Query_spec s pre keysOnly Hwf) as (es & s' & Hq & Hwf' & Hs & Hl).
  exists es, s'. split_and!; [|done..]. unfold Namespace.Query_.
  change (Namespace.raw (ns p s)) with s. rewrite Hq. cbn [mbind res_bind].
  change (Keytransform.KeyTransform _) with (PrefixTransform p).
  by rewrite strip_results_entries.
Qed.

(** [Query] of a namespace, with no prefix or one that its own prefix starts
    with, lists each key of the namespace once under the name it has inside, with
    its value, provided that no key outside starts like the prefix; the one key
    it never lists is the root. It panics for no key, although inverting a key
    may. *)
Theorem Namespace_Query_lists {S} `{QuerySpec S} p (s : S) pre keysOnly :
  ds_wf s -> clean p -> HasPrefix (key_string p) pre = true -> no_siblings p s ->
  exists es s', Namespace.Query_ (prefix_query pre keysOnly) (ns p s)
                = (Ok (map entry_result es), ns p s')
    /\ same_view ds_view s s'
    /\ lists_view (below_root (ds_view (ns p s))) [] keysOnly es.
Proof.
  intros Hwf Hp Hpre Hsib. destruct (ns_Query p s pre keysOnly Hwf) as (es & s' & Hq & _ & Hs & Hl).
  exists (omap (strip p) es), s'. split_and!; [done..|]. by eapply strip_lists.
Qed.

Lemma Namespace_Query_lists_witness :
  let R := elements_range Key in
  let p := NewKey (str "blocks") in
  exists es s', Namespace.Query_ (prefix_query (str "/blocks") true) (ns p MapDatastore.NewMapDatastore)
                = (Ok (map entry_result es), ns p s')
    /\ same_view ds_view MapDatastore.NewMapDatastore s'
    /\ lists_view (below_root (ds_view (ns p MapDatastore.NewMapDatastore))) [] true es.
Proof.
  intros R p. apply (Namespace_Query_lists p).
  - apply MapDatastore.New_wf.
  - apply NewKey_clean.
  - reflexivity.
  - intros k v _ Hv. vm_compute in Hv. done.
Defined.

(** The test that a key is under the prefix compares strings: a key of the
    store outside the namespace whose string starts with the prefix is listed as
    if it were inside, under a name that [Get] does not find. *)
Theorem Namespace_Query_leaks :
  let R := elements_range Key in
  let s := MapDatastore.mkMap {[ NewKey (str "/blocksize/x") := VBytes [x01] ]} in
  let d := ns (NewKey (str "/blocks")) s in
  (Namespace.Query_ (prefix_query (str "/blocks") true) d).1
    = Ok [entry_result (mkEntry (str "/ize/x") (VBytes [x01]))]
  /\ (Namespace.Get (NewKey (str "/ize/x")) d).1 = Err DsErrNotFound.
Proof. by vm_compute. Qed.

(** The key transform of a namespace inverts: taking the prefix off gives the
    key back for every canonical key but the root, and panics for a key that does
    not start with the prefix; wrapping nil panics. *)
Theorem PrefixTransform_inverts {S} `{Datastore S} p k k' :
  clean p -> clean k -> k <> NewKey [] -> IsAncestorOf p k' = false ->
  let t := PrefixTransform p in
  Keytransform.InvertKey t (Keytransform.ConvertKey t k) = Ok k
  /\ Keytransform.InvertKey t k' = Panic
  /\ Keytransform.InvertKey t (Keytransform.ConvertKey t (NewKey [])) = Panic
  /\ Namespace.Wrap (None : option S) p = Panic.
Proof.
  intros Hp Hk Hne Hk' t. split_and!; [by apply invert_convert| | |done];
    unfold Keytransform.InvertKey, t; cbn [Keytransform.Invert PrefixTransform].
  - by rewrite Hk'.
  - unfold Keytransform.ConvertKey. cbn [Keytransform.Convert PrefixTransform].
    apply clean_key_of in Hp as (es & Hes & ->). change (NewKey []) with (key_of []).
    rewrite Child_key_of, app_nil_r by done. unfold IsAncestorOf. by rewrite decide_True.
Qed.

Lemma PrefixTransform_inverts_witness :
  let t := PrefixTransform (NewKey (str "a")) in
  Keytransform.InvertKey t (Keytransform.ConvertKey t (NewKey (str "b"))) = Ok (NewKey (str "b")).
Proof.
  intros t. apply (@PrefixTransform_inverts _ NullDatastore.null_Datastore (NewKey (str "a"))
    (NewKey (str "b")) (NewKey (str "c"))); [apply NewKey_clean..|done|reflexivity].
Defined.
