(* ===== verification/BlockKey.v ===== *)
(** * Block keys and key sets

    Models [key/key.go] and [key/key_set.go]: the multihash of a block as a
    string, its base58 form, its datastore key, and sets of keys. *)

From S2P Require Import Prelude Base58 Json Multihash DsKey.

(** [type Key string] *)
Abbreviation Key := bytes.

(** ** Text form *)
Definition B58KeyEncode (k : Key) : bytes := Base58.Encode k.
Definition B58KeyDecode (s : bytes) : Key := Base58.Decode s.
Definition B58String (k : Key) : bytes := B58KeyEncode k.
Definition Pretty (k : Key) : bytes := B58String k.
Definition String_ (k : Key) : bytes := Pretty k.
Definition ToMultihash (k : Key) : Multihash := k.
Definition Loggable (k : Key) : gmap string bytes := {[ "key"%string := String_ k ]}.

(** ** JSON form *)
Definition MarshalJSON (k : Key) : bytes := Json.Marshal (Base58.Encode k).

(** The key that the method is called on is stored before the error is found. *)
Definition UnmarshalJSON (mk : bytes) (k : Key) : Key * option error :=
  match Json.Unmarshal mk with
  | inl err => (k, Some err)
  | inr s =>
      let k := Base58.Decode s in
      if (length k =? 0) && (2 <? length s)
      then (k, Some (errors_New "Key.UnmarshalJSON: invalid b58 string")) else (k, None)
  end.

(** ** Datastore keys *)
Definition DsKey (k : Key) : DsKey.Key := NewKey k.

(** [dsk.String()[1:]] panics on the empty string. *)
Definition KeyFromDsKey (dsk : DsKey.Key) : res Key :=
  match DsKey.String_ dsk with [] => Panic | _ :: s => Ok s end.

(** [b58KeyConverter]: every path component is encoded, or decoded. *)
Definition ConvertKey (dsk : DsKey.Key) : DsKey.Key :=
  fold_left (fun k n => ChildString k (Base58.Encode n)) (Namespaces dsk) (NewKey (str "/")).
Definition InvertKey (dsk : DsKey.Key) : DsKey.Key :=
  fold_left (fun k n => ChildString k (Base58.Decode n)) (Namespaces dsk) (NewKey (str "/")).

(** [KeySlice] *)
Definition Len (es : list Key) : nat := length es.
Definition Swap (es : list Key) (i j : nat) : res (list Key) :=
  match es !! i, es !! j with Some a, Some b => Ok (<[j := a]> (<[i := b]> es)) | _, _ => Panic end.
Definition Less_ (es : list Key) (i j : nat) : res bool :=
  match es !! i, es !! j with Some a, Some b => Ok (str_lt a b) | _, _ => Panic end.

(** ** key_set.go *)
Module KeySet.
Record ks := mkKs { data : gset Key }.
Definition NewKeySet : ks := mkKs ∅.
Definition Add (k : Key) (wl : ks) : ks := mkKs ({[k]} ∪ data wl).
Definition Remove (k : Key) (wl : ks) : ks := mkKs (data wl ∖ {[k]}).
Definition Keys `{!GoRange Key} (wl : ks) : list Key := go_range (data wl).
End KeySet.

(** ** Path-safe keys *)

(** The keys that survive the cleaning of [ds.NewKey]: no component of theirs,
    cut at slashes, is empty, a dot or a double dot. *)
Definition path_safe (k : Key) : Prop := k = [] \/ Forall good (Split slash k).
#[export] Instance path_safe_dec k : Decision (path_safe k).
Proof. unfold path_safe. apply _. Defined.

Lemma path_safe_es k : path_safe k <-> exists es, Forall good es /\ k = Join es slash.
Proof.
  split.
  - intros [->|Hk]; [by exists []|]. exists (Split slash k). by rewrite Join_Split.
  - intros (es & Hes & ->). destruct es as [|e es]; [by left|]. right.
    rewrite Split_Join; [done|done|by apply good_noslash].
Qed.

Lemma DsKey_safe k : path_safe k <-> DsKey k = DsKey.mkKey (slash :: k).
Proof.
  rewrite path_safe_es. unfold DsKey. split.
  - intros (es & Hes & ->). by rewrite NewKey_Join.
  - rewrite NewKey_resolve. intros [= Hk]. exists (resolve k). split; [apply resolve_good|done].
Qed.

Lemma KeyFromDsKey_key_of es : KeyFromDsKey (key_of es) = Ok (Join es slash).
Proof. done. Qed.

Lemma DsKey_clean k : clean (DsKey k).
Proof. apply NewKey_clean. Qed.

Lemma DsKey_inj k1 k2 : path_safe k1 -> path_safe k2 -> DsKey k1 = DsKey k2 -> k1 = k2.
Proof. rewrite !DsKey_safe. congruence. Qed.

Lemma KeyFromDsKey_DsKey k : path_safe k -> KeyFromDsKey (DsKey k) = Ok k.
Proof. intros Hk%DsKey_safe. by rewrite Hk. Qed.

(** C30. [KeyFromDsKey] takes [DsKey] back exactly on the path-safe keys: those
    with no component that is empty, a dot or a double dot; on them [DsKey] is
    injective. Every other key comes back as a different, path-safe key. *)
Theorem DsKey_roundtrip k :
  (KeyFromDsKey (DsKey k) = Ok k <-> path_safe k)
  /\ (forall k', path_safe k -> path_safe k' -> DsKey k = DsKey k' -> k = k')
  /\ exists k', KeyFromDsKey (DsKey k) = Ok k' /\ path_safe k' /\ DsKey k' = DsKey k.
Proof.
  split_and!.
  - rewrite DsKey_safe. unfold DsKey. rewrite NewKey_resolve. simpl. unfold KeyFromDsKey, key_of.
    simpl. split; [by intros [= Hk]; rewrite Hk at 1|by intros [= Hk]; rewrite Hk at 1].
  - apply DsKey_inj.
  - exists (Join (resolve k) slash). unfold DsKey. rewrite NewKey_resolve.
    assert (Hsafe : path_safe (Join (resolve k) slash)).
    { apply path_safe_es. exists (resolve k). split; [apply resolve_good|done]. }
    split_and!; [done|done|]. apply NewKey_Join, resolve_good.
Qed.

(** Two SHA2-256 multihashes that [Cast] accepts can have one datastore key,
    because the cleaning of the path resolves a double dot inside the digest; and
    a doubled slash in a digest is dropped, so that the key reads back as a string
    that is no multihash. *)
Theorem DsKey_collision :
  let m (x : byte) : Multihash := [x12; x20; x] ++ str "/../" ++ replicate 27 x41 in
  let m' : Multihash := [x12; x20; x2f; x2f] ++ replicate 30 x41 in
  Cast (m x61) = Ok (m x61) /\ Cast (m x62) = Ok (m x62)
  /\ m x61 <> m x62 /\ DsKey (m x61) = DsKey (m x62)
  /\ Cast m' = Ok m' /\ exists k, KeyFromDsKey (DsKey m') = Ok k /\ Cast k = Err ErrInconsistentLen.
Proof. vm_compute. split_and!; try done. by eexists. Qed.

(** ** JSON *)

(** A key printed as JSON is read back as itself, whatever its bytes and
    whatever the variable held. *)
Theorem Key_JSON_roundtrip k k0 : UnmarshalJSON (MarshalJSON k) k0 = (k, None).
Proof.
  unfold UnmarshalJSON, MarshalJSON.
  assert (Hp : Forall (fun c => plain c = true) (Base58.Encode k)).
  { assert (Ha : Forall (fun c => plain c = true) BTCAlphabet) by decide_compute.
    eapply Forall_impl; [apply (EncodeAlphabet_alphabet BTCAlphabet)|]. intros c Hc.
    by apply (proj1 (Forall_forall _ _) Ha). }
  rewrite Unmarshal_Marshal_plain by done.
  unfold Base58.Decode, Base58.Encode. rewrite (DecodeAlphabet_EncodeAlphabet BTCAlphabet).
  destruct k as [|c k]; [done|]. done.
Qed.

(** What [UnmarshalJSON] accepts: the base58 text of the key it stores, or a text
    of at most two bytes, which is stored as the empty key even when it is not
    base58. When it fails, either the text is not a JSON string and the key is left
    alone, or the string is nobody's encoding and the key has been emptied. *)
Theorem UnmarshalJSON_accepts mk k0 :
  match UnmarshalJSON mk k0 with
  | (k, None) => exists s, Json.Unmarshal mk = inr s /\ (s = Base58.Encode k \/ k = [] /\ length s <= 2)
  | (k, Some _) =>
      (exists e, Json.Unmarshal mk = inl e /\ k = k0)
      \/ k = [] /\ exists s, Json.Unmarshal mk = inr s /\ 2 < length s /\ forall k', Base58.Encode k' <> s
  end.
Proof.
  unfold UnmarshalJSON. destruct (Json.Unmarshal mk) as [e|s]; [left; by exists e|].
  destruct (decide (Forall (fun c => c ∈ BTCAlphabet) s)) as [Ha|Ha].
  - assert (He : Base58.Encode (Base58.Decode s) = s) by by apply (EncodeAlphabet_DecodeAlphabet BTCAlphabet).
    assert ((length (Base58.Decode s) =? 0) && (2 <? length s) = false) as ->.
    { apply andb_false_iff. destruct (Base58.Decode s) as [|c k]; [right|by left].
      rewrite <- He. by vm_compute. }
    exists s. split; [done|by left].
  - assert (Hd : Base58.Decode s = []).
    { apply not_Forall_Exists, Exists_exists in Ha as (c & Hin & Hc); [|apply _].
      by apply (DecodeAlphabet_bad BTCAlphabet s c). }
    rewrite Hd. cbn [length Nat.eqb andb]. destruct (Nat.ltb_spec 2 (length s)) as [Hl|Hl].
    + right. split; [done|]. exists s. split_and!; [done..|].
      intros k' <-. by apply Ha, (EncodeAlphabet_alphabet BTCAlphabet).
    + exists s. split; [done|by right].
Qed.

(** The length test compares with two, the quotes of a JSON text, but the quotes are
    gone: a string of one or two characters that is not base58 is accepted as the
    empty key, and so is [null]; a longer one is refused. *)
Theorem UnmarshalJSON_short k0 :
  UnmarshalJSON ([dquote] ++ str "0O" ++ [dquote]) k0 = ([], None)
  /\ UnmarshalJSON (str "null") k0 = ([], None)
  /\ exists e, UnmarshalJSON ([dquote] ++ str "0Ol" ++ [dquote]) k0 = ([], Some e).
Proof. vm_compute. split_and!; [done..|by eexists]. Qed.

(** ** The base58 key transform *)

Lemma fold_ChildString (f : bytes -> bytes) es0 es :
  Forall good es0 -> Forall (fun e => good (f e)) es ->
  fold_left (fun k n => ChildString k (f n)) es (key_of es0) = key_of (es0 ++ map f es).
Proof.
  intros H0 Hes. revert es0 H0. induction Hes as [|e es He Hes IH]; intros es0 H0.
  { by rewrite app_nil_r. }
  cbn [fold_left map]. rewrite ChildString_key_of by done.
  assert (clean_elems true (rev es0) (Split slash (f e)) = es0 ++ [f e]) as ->.
  { rewrite Split_nosep by apply He. rewrite clean_elems_id by by constructor.
    by rewrite rev_involutive. }
  rewrite IH, <- app_assoc; [done|]. apply Forall_app. split; [done|by constructor].
Qed.

Lemma Encode_nonnil b : b <> [] -> Base58.Encode b <> [].
Proof.
  intros Hb He. apply Hb. rewrite <- (DecodeAlphabet_EncodeAlphabet BTCAlphabet b).
  unfold Base58.Encode in He. by rewrite He.
Qed.

(** A base58 string is a good path component. *)
Lemma Encode_good b : b <> [] -> good (Base58.Encode b).
Proof.
  intros Hb. pose proof (EncodeAlphabet_alphabet BTCAlphabet b) as Ha.
  assert (slash ∉ BTCAlphabet) as Hs by decide_compute.
  assert (dot ∉ BTCAlphabet) as Hd by decide_compute.
  assert (Hel : forall c, c ∈ Base58.Encode b -> c ∈ BTCAlphabet) by by apply Forall_forall.
  unfold good. split_and!; [by apply Encode_nonnil|..].
  - intros Heq. apply Hd, Hel. rewrite Heq. by left.
  - intros Heq. apply Hd, Hel. rewrite Heq. by left.
  - intros Hin. by apply Hs, Hel.
Qed.

(** [B58KeyConverter] maps canonical keys to canonical keys, component by
    component, and [InvertKey] takes [ConvertKey] back on all of them. *)
Theorem B58KeyConverter_inverts k :
  clean k ->
  clean (ConvertKey k) /\ InvertKey (ConvertKey k) = k
  /\ forall es, Forall good es -> k = key_of es -> ConvertKey k = key_of (map Base58.Encode es).
Proof.
  intros (es & Hes & ->)%clean_key_of.
  assert (Henc : Forall (fun e => good (Base58.Encode e)) es).
  { eapply Forall_impl; [exact Hes|]. intros e (He & _). by apply Encode_good. }
  assert (Henc' : Forall good (map Base58.Encode es)) by by apply Forall_fmap.
  assert (Hconv : forall es, Forall good es -> Forall (fun e => good (Base58.Encode e)) es ->
            ConvertKey (key_of es) = key_of (map Base58.Encode es)).
  { intros es' H1 H2. unfold ConvertKey, Namespaces. rewrite List_key_of by done.
    destruct es' as [|e es']; [done|]. by apply (fold_ChildString Base58.Encode []). }
  rewrite Hconv by done. split_and!.
  - by apply NewKey_key_of.
  - unfold InvertKey, Namespaces. rewrite List_key_of by done.
    assert (Hdec : forall e, Base58.Decode (Base58.Encode e) = e)
      by apply (DecodeAlphabet_EncodeAlphabet BTCAlphabet).
    assert (Hmap : forall l, [] ++ map Base58.Decode (map Base58.Encode l) = l).
    { intros l. simpl. rewrite map_map. rewrite (map_ext _ id) by done. apply map_id. }
    destruct es as [|e es]; [done|]. change (NewKey (str "/")) with (key_of []).
    rewrite (fold_ChildString Base58.Decode []); [|done|].
    + f_equal. by apply Hmap.
    + apply Forall_fmap. eapply Forall_impl; [exact Hes|]. intros x Hx. simpl. by rewrite Hdec.
  - intros es' Hes' Heq. apply key_of_inj in Heq as ->; done.
Qed.

Lemma B58KeyConverter_inverts_witness :
  InvertKey (ConvertKey (NewKey (str "/foo/bar"))) = NewKey (str "/foo/bar").
Proof. apply B58KeyConverter_inverts. apply NewKey_clean. Defined.

(** A [KeySet] is a set: [Keys] lists each key once, exactly the keys added
    and not removed since. *)
Theorem KeySet_Keys `{!GoRange Key} (wl : KeySet.ks) k x :
  NoDup (KeySet.Keys wl)
  /\ (x ∈ KeySet.Keys (KeySet.Add k wl) <-> x = k \/ x ∈ KeySet.Keys wl)
  /\ (x ∈ KeySet.Keys (KeySet.Remove k wl) <-> x <> k /\ x ∈ KeySet.Keys wl)
  /\ KeySet.Keys KeySet.NewKeySet = [].
Proof.
  unfold KeySet.Keys. rewrite !go_range_perm, !elem_of_elements. simpl. split_and!.
  - apply NoDup_elements.
  - set_solver.
  - set_solver.
  - apply Permutation_nil. symmetry. by rewrite go_range_perm.
Qed.
