(* ===== verification/Blocks.v ===== *)
(** * Blocks and the hash function

    Models [blocks.go], [hash/hash.go] and [blocksutil/block_generator.go]. *)

From S2P Require Import Prelude Base58 Sha2 Multihash BlockKey.

(** ** hash.go *)

(** [mh.Sum(data, mh.SHA2_256, -1)]; an error of it panics. *)
Definition Hash (data : bytes) : res Multihash :=
  match Sum data SHA2_256 (-1) with
  | Ok h => Ok h
  | Err _ => Panic
  | Panic => Panic
  end.

Definition IsValidHash (s : bytes) : bool :=
  let out := Base58.Decode s in
  if (length out =? 0)%nat then false
  else match Cast out with Ok _ => true | _ => false end.

(** ** blocks.go *)
Record Block := mkBlock { Multihash_ : Multihash; Data : bytes }.

#[export] Instance Block_eq_dec : EqDecision Block.
Proof. solve_decision. Defined.

Definition NewBlock (data : bytes) : res Block :=
  h ← Hash data; Ok (mkBlock h data).

(** The package variable [hash.Debug] is an argument. *)
Definition NewBlockWithHash (Debug : bool) (data : bytes) (h : Multihash) : res Block :=
  if Debug then
    chk ← Hash data;
    if decide (chk = h) then Ok (mkBlock h data)
    else Err (errors_New "Data did not match given hash!")
  else Ok (mkBlock h data).

Definition Key_ (b : Block) : Key := Multihash_ b.
Definition String_ (b : Block) : bytes := str "[Block " ++ BlockKey.String_ (Key_ b) ++ str "]".
Definition Loggable (b : Block) : gmap string bytes := {[ "block"%string := BlockKey.String_ (Key_ b) ]}.

(** ** blocksutil *)

(** Go's conversion [string(i)] of an integer: the UTF-8 encoding of the rune, or of
    U+FFFD when there is no such rune. *)
Definition string_of_rune (r : Z) : bytes :=
  let r := (if (r <? 0) || (0x10FFFF <? r) || ((0xD800 <=? r) && (r <=? 0xDFFF))
            then 0xFFFD else r)%Z in
  let cont s := byte_of_Z (Z.lor 0x80 (Z.land (Z.shiftr r s) 0x3F)) in
  if (r <=? 0x7F)%Z then [byte_of_Z r]
  else if (r <=? 0x7FF)%Z then [byte_of_Z (Z.lor 0xC0 (Z.shiftr r 6)); cont 0%Z]
  else if (r <=? 0xFFFF)%Z then [byte_of_Z (Z.lor 0xE0 (Z.shiftr r 12)); cont 6%Z; cont 0%Z]
  else [byte_of_Z (Z.lor 0xF0 (Z.shiftr r 18)); cont 12%Z; cont 6%Z; cont 0%Z].

Record BlockGenerator := mkGen { seq : Z }.
Definition NewBlockGenerator : BlockGenerator := mkGen 0.

(** [bg.seq++] wraps at 64 bits. *)
Definition s64 (z : Z) : Z := ((z + 2 ^ 63) mod 2 ^ 64 - 2 ^ 63)%Z.
Definition Next (bg : BlockGenerator) : res Block * BlockGenerator :=
  let bg := mkGen (s64 (seq bg + 1)) in
  (NewBlock (string_of_rune (seq bg)), bg).

Fixpoint Blocks (n : nat) (bg : BlockGenerator) : res (list Block) * BlockGenerator :=
  match n with
  | O => (Ok [], bg)
  | S n =>
      match Next bg with
      | (Ok b, bg) => let '(bs, bg) := Blocks n bg in (bs ← bs; Ok (b :: bs), bg)
      | (Err e, bg) => (Err e, bg)
      | (Panic, bg) => (Panic, bg)
      end
  end.

Example rune_ex : string_of_rune 0x20AC = [xe2; x82; xac] /\ string_of_rune 0x1F600 = [xf0; x9f; x98; x80].
Proof. by vm_compute. Qed.

(** ** Properties *)

(** The multihash of some data. *)
Definition sha256_mh (data : bytes) : Multihash := x12 :: x20 :: sha256_Sum256 data.

Lemma digest_sha256 data : digest SHA2_256 data = Some (sha256_Sum256 data).
Proof. done. Qed.

(** Hashing never panics. *)
Lemma Hash_Ok data : Hash data = Ok (sha256_mh data).
Proof.
  unfold Hash. rewrite (Sum_default data SHA2_256 _ (digest_sha256 data)).
  unfold sha256_mh. by rewrite sha256_Sum256_length.
Qed.

Lemma sha256_mh_Cast data : Cast (sha256_mh data) = Ok (sha256_mh data).
Proof.
  pose proof (digest_Cast data SHA2_256 _ (digest_sha256 data)) as H.
  rewrite sha256_Sum256_length in H. exact H.
Qed.

Lemma NewBlock_Ok data : NewBlock data = Ok (mkBlock (sha256_mh data) data).
Proof. unfold NewBlock. by rewrite Hash_Ok. Qed.

Lemma IsValidHash_Cast m : Cast m = Ok m -> IsValidHash (BlockKey.String_ m) = true.
Proof.
  intros Hm. unfold IsValidHash, BlockKey.String_, Pretty, BlockKey.B58String, B58KeyEncode,
    Base58.Decode, Base58.Encode.
  rewrite (DecodeAlphabet_EncodeAlphabet BTCAlphabet), Hm.
  destruct (Cast_Ok _ _ Hm) as (_ & Hl & _).
  by destruct (Nat.eqb_spec (length m) 0); [lia|].
Qed.

Lemma sha256_mh_length data : length (sha256_mh data) = 34.
Proof. unfold sha256_mh. cbn [length]. by rewrite sha256_Sum256_length. Qed.

(** [NewBlock] never panics: the block carries the data and its SHA2-256
    multihash, 34 bytes that [Cast] accepts and whose base58 text [IsValidHash]
    accepts; and [NewBlockWithHash] accepts that hash in both modes. *)
Theorem NewBlock_valid data :
  exists b, NewBlock data = Ok b /\ Data b = data /\ Hash data = Ok (Multihash_ b)
    /\ length (Key_ b) = 34 /\ Cast (Key_ b) = Ok (Key_ b)
    /\ IsValidHash (BlockKey.String_ (Key_ b)) = true
    /\ forall Debug, NewBlockWithHash Debug data (Key_ b) = Ok b.
Proof.
  exists (mkBlock (sha256_mh data) data). rewrite NewBlock_Ok, Hash_Ok. unfold Key_.
  cbn [Multihash_ Data]. pose proof (sha256_mh_Cast data) as Hc.
  split_and!; [done..|apply sha256_mh_length|done|by apply IsValidHash_Cast|].
  intros [|]; unfold NewBlockWithHash; [|done]. rewrite Hash_Ok. cbn [mbind res_bind].
  by rewrite decide_True.
Qed.

(** In debug mode a block made by [NewBlockWithHash] always carries the hash
    of its data, and any other hash is refused; without it any hash is taken. *)
Theorem NewBlockWithHash_checks data h :
  (forall b, NewBlockWithHash true data h = Ok b -> NewBlock data = Ok b)
  /\ (Hash data <> Ok h -> exists e, NewBlockWithHash true data h = Err e)
  /\ NewBlockWithHash false data h = Ok (mkBlock h data).
Proof.
  unfold NewBlockWithHash. rewrite NewBlock_Ok, Hash_Ok. simpl. split_and!; [| |done].
  - intros b. destruct (decide (sha256_mh data = h)) as [<-|]; [congruence|done].
  - intros Hne. rewrite decide_False by congruence. by eexists.
Qed.

Lemma NewBlockWithHash_true data : NewBlockWithHash true data (sha256_mh data)
  = Ok (mkBlock (sha256_mh data) data).
Proof. unfold NewBlockWithHash. rewrite Hash_Ok. cbn [mbind res_bind]. by rewrite decide_True. Qed.

Lemma Hash_ne data : Hash data <> Ok [].
Proof. by rewrite Hash_Ok. Qed.

Lemma NewBlockWithHash_checks_witness :
  NewBlock (str "a") = Ok (mkBlock (sha256_mh (str "a")) (str "a"))
  /\ exists e, NewBlockWithHash true (str "a") [] = Err e.
Proof.
  exact (conj
    (proj1 (NewBlockWithHash_checks (str "a") (sha256_mh (str "a"))) _ (NewBlockWithHash_true (str "a")))
    (proj1 (proj2 (NewBlockWithHash_checks (str "a") [])) (Hash_ne (str "a")))).
Defined.

(** [IsValidHash] accepts exactly the base58 texts of the multihashes that
    [Cast] accepts. *)
Theorem IsValidHash_spec s :
  IsValidHash s = true <-> exists m, Cast m = Ok m /\ s = BlockKey.String_ m.
Proof.
  split.
  - unfold IsValidHash, BlockKey.String_, Pretty, BlockKey.B58String, B58KeyEncode.
    destruct (Nat.eqb_spec (length (Base58.Decode s)) 0) as [|Hne]; [done|].
    destruct (Cast (Base58.Decode s)) as [m| |] eqn:Hc; [|done..]. intros _.
    pose proof (Cast_Ok _ _ Hc) as [-> _]. exists (Base58.Decode s). split; [done|].
    destruct (decide (Forall (fun c => c ∈ BTCAlphabet) s)) as [Ha|Ha].
    + symmetry. by apply (EncodeAlphabet_DecodeAlphabet BTCAlphabet).
    + exfalso. apply Hne. apply not_Forall_Exists, Exists_exists in Ha as (c & Hin & Hn); [|apply _].
      unfold Base58.Decode. by rewrite (DecodeAlphabet_bad BTCAlphabet s c).
  - intros (m & Hm & ->). by apply IsValidHash_Cast.
Qed.

Lemma Next_Ok n : (0 <= n < 2 ^ 63 - 1)%Z ->
  Next (mkGen n) = (NewBlock (string_of_rune (n + 1)), mkGen (n + 1)).
Proof.
  intros Hn. unfold Next. simpl seq. unfold s64. by rewrite Z.mod_small, Z.add_simpl_r by lia.
Qed.

Lemma Blocks_Ok n s :
  (0 <= s)%Z -> (s + Z.of_nat n < 2 ^ 63)%Z ->
  Blocks n (mkGen s)
  = (Ok (map (fun i => let d := string_of_rune (s + Z.of_nat i) in mkBlock (sha256_mh d) d)
           (List.seq 1 n)), mkGen (s + Z.of_nat n)).
Proof.
  revert s. induction n as [|n IH]; intros s Hs Hn; cbn [Blocks].
  { by rewrite Z.add_0_r. }
  rewrite Next_Ok, NewBlock_Ok, IH by lia. simpl mbind. f_equal; [|f_equal; lia].
  cbn [List.seq map]. f_equal. f_equal. rewrite <- (seq_shift n 1), map_map. apply map_ext.
  intros i. cbn zeta. by replace (s + Z.of_nat (S i))%Z with (s + 1 + Z.of_nat i)%Z by lia.
Qed.

(** A bitwise or with a multiple of a power of two is a sum. *)
Lemma lor_add a k y : (0 <= k)%Z -> (0 <= y < 2 ^ k)%Z -> Z.lor (a * 2 ^ k) y = (a * 2 ^ k + y)%Z.
Proof.
  intros Hk Hy. rewrite Z.add_nocarry_lxor; [symmetry; apply Z.lxor_lor|].
  all: apply Z.bits_inj'; intros i Hi; rewrite Z.land_spec, Z.bits_0;
    (destruct (Z.ltb_spec i k); [by rewrite Z.mul_pow2_bits_low|]);
    rewrite <- (Z.mod_small y (2 ^ k)) by done;
    rewrite Z.mod_pow2_bits_high by lia; apply andb_false_r.
Qed.

(** Bytes of the encoding, without bit operations. *)
Definition utf8_spec (r : Z) : list Z :=
  (if r <=? 0x7F then [r]
   else if r <=? 0x7FF then [192 + r / 64; 128 + r mod 64]
   else [224 + r / 4096; 128 + (r / 64) mod 64; 128 + r mod 64])%Z.

Lemma cont_spec x : Z.lor 0x80 (Z.land x 0x3F) = (128 + x mod 64)%Z.
Proof.
  change 0x3F%Z with (Z.ones 6). rewrite Z.land_ones by lia.
  apply (lor_add 2 6); [lia|]. apply Z.mod_pos_bound. lia.
Qed.

Lemma string_of_rune_spec r :
  (0 <= r < 0xD800)%Z -> map Z_of_byte (string_of_rune r) = utf8_spec r.
Proof.
  intros Hr. unfold string_of_rune, utf8_spec. rewrite !cont_spec.
  destruct (Z.ltb_spec r 0); [lia|]. destruct (Z.ltb_spec 0x10FFFF r); [lia|].
  destruct (Z.leb_spec 0xD800 r); [lia|]. cbn [orb andb].
  rewrite !Z.shiftr_div_pow2, Z.div_1_r by lia.
  change (2 ^ 6)%Z with 64%Z. change (2 ^ 12)%Z with 4096%Z.
  pose proof (Z.mod_pos_bound r 64). pose proof (Z.mod_pos_bound (r / 64) 64).
  destruct (Z.leb_spec r 0x7F); [simpl; by rewrite Z_of_byte_of_Z_small by lia|].
  destruct (Z.leb_spec r 0x7FF).
  - assert (r / 64 < 32)%Z by (apply Z.div_lt_upper_bound; lia).
    assert (0 <= r / 64)%Z by (apply Z.div_pos; lia).
    rewrite (lor_add 6 5) by (simpl; lia). simpl. by rewrite !Z_of_byte_of_Z_small by lia.
  - destruct (Z.leb_spec r 0xFFFF); [|lia].
    assert (r / 4096 < 16)%Z by (apply Z.div_lt_upper_bound; lia).
    assert (0 <= r / 4096)%Z by (apply Z.div_pos; lia).
    rewrite (lor_add 14 4) by (simpl; lia). simpl. by rewrite !Z_of_byte_of_Z_small by lia.
Qed.

(** Different runes below the surrogates have different encodings. *)
Lemma string_of_rune_inj a b :
  (0 <= a < 0xD800)%Z -> (0 <= b < 0xD800)%Z -> string_of_rune a = string_of_rune b -> a = b.
Proof.
  intros Ha Hb Heq. apply (f_equal (map Z_of_byte)) in Heq.
  rewrite !string_of_rune_spec in Heq by done. unfold utf8_spec in Heq.
  pose proof (Z.div_mod a 64). pose proof (Z.div_mod b 64).
  pose proof (Z.div_mod (a / 64) 64). pose proof (Z.div_mod (b / 64) 64).
  rewrite !Z.div_div in * by lia. change (64 * 64)%Z with 4096%Z in *.
  repeat case_match; simplify_eq; lia.
Qed.

(** The generator makes blocks in sequence: [Blocks n] of a new one gives [n]
    blocks, the [i]-th holding the UTF-8 text of rune [i+1] under its hash; the
    first 55,295 of them have pairwise different data, but the code points of the
    surrogates all give the block of U+FFFD. *)
Theorem Blocks_generates n :
  (Z.of_nat n < 2 ^ 63)%Z ->
  exists bs, Blocks n NewBlockGenerator = (Ok bs, mkGen (Z.of_nat n))
    /\ length bs = n
    /\ (forall i b, bs !! i = Some b ->
         Data b = string_of_rune (Z.of_nat i + 1) /\ NewBlock (Data b) = Ok b)
    /\ ((Z.of_nat n < 0xD800)%Z -> NoDup (map Data bs))
    /\ (Next (mkGen 0xD7FF)).1 = (Next (mkGen 0xD800)).1.
Proof.
  intros Hn.
  unfold NewBlockGenerator. rewrite (Blocks_Ok n 0) by lia. eexists. split; [reflexivity|]. split_and!.
  - by rewrite length_map, length_seq.
  - intros i b Hb. apply list_lookup_fmap_Some in Hb as (k & -> & Hk%lookup_seq).
    cbn zeta. cbn [Data]. rewrite NewBlock_Ok. destruct Hk as [-> _].
    by replace (0 + Z.of_nat (1 + i))%Z with (Z.of_nat i + 1)%Z by lia.
  - intros Hb. rewrite map_map. apply NoDup_fmap_2_strong; [|apply NoDup_seq].
    intros x y Hx%elem_of_seq Hy%elem_of_seq Heq. cbn [Data] in Heq.
    apply string_of_rune_inj in Heq; lia.
  - unfold Next. simpl seq. by rewrite !NewBlock_Ok.
Qed.

Lemma Blocks_generates_witness :
  exists bs, Blocks 3 NewBlockGenerator = (Ok bs, mkGen (Z.of_nat 3)) /\ length bs = 3.
Proof.
  destruct (Blocks_generates 3 ltac:(lia)) as (bs & H1 & H2 & _).
  exists bs. exact (conj H1 H2).
Defined.
