(* ===== verification/GoList.v ===== *)
(** * Go's container/list

    An element is an object with an identity: the cache's map and the list share
    it, and its [Value] stays readable after it has left the list. *)
From S2P Require Import Prelude.

Module GoList.
Section GoList.
Context {A : Type}.
Record List := mkList { ids : list nat; Values : gmap nat A; fresh : nat }.
Definition New : List := mkList [] ∅ 0.
Definition PushFront (v : A) (l : List) : nat * List :=
  (fresh l, mkList (fresh l :: ids l) (<[fresh l := v]> (Values l)) (S (fresh l))).
Definition PushBack (v : A) (l : List) : nat * List :=
  (fresh l, mkList (ids l ++ [fresh l]) (<[fresh l := v]> (Values l)) (S (fresh l))).
(** Nothing happens when the element is not of the list. *)
Definition MoveToFront (e : nat) (l : List) : List :=
  if decide (e ∈ ids l)
  then mkList (e :: filter (fun x => x <> e) (ids l)) (Values l) (fresh l) else l.
Definition Remove (e : nat) (l : List) : List :=
  mkList (filter (fun x => x <> e) (ids l)) (Values l) (fresh l).
Definition Back (l : List) : option nat := last (ids l).
Definition Front (l : List) : option nat := head (ids l).
Definition Len (l : List) : nat := length (ids l).
Definition Value (e : nat) (l : List) : option A := Values l !! e.
(** An assignment through the pointer that [e.Value] holds. *)
Definition set_Value (e : nat) (v : A) (l : List) : List :=
  mkList (ids l) (<[e := v]> (Values l)) (fresh l).
End GoList.
Arguments List : clear implicits.
End GoList.
