(* ===== verification/Lru.v ===== *)
(** * The LRU cache

    Models [Godeps/.../hashicorp/golang-lru/lru.go] over the lists of
    [GoList], and [Godeps/.../go-datastore/lru/datastore.go]. Every method
    of [Cache] holds the lock from its first statement to its return, so a method
    is one step of the cache. *)

From S2P Require Import Prelude GoList DsKey Query Datastore.

(** ** lru.go *)
Section Lru.
Context {K V : Type} `{Countable K}.

Record entry := mkEntry_ { key : K; value_ : V }.
Record Cache := mkCache {
  size : Z;
  evictList : GoList.List entry;
  items : gmap K nat;
}.

Definition New (size : Z) : res Cache :=
  if (size <=? 0)%Z then Err (errors_New "Must provide a positive size")
  else Ok (mkCache size GoList.New ∅).

Definition Purge (c : Cache) : Cache := mkCache (size c) GoList.New ∅.

(** [e.Value.( *entry)]: a nil dereference when there is no such element. *)
Definition removeElement (e : nat) (c : Cache) : res unit * Cache :=
  let c := mkCache (size c) (GoList.Remove e (evictList c)) (items c) in
  match GoList.Value e (evictList c) with
  | Some kv => (Ok tt, mkCache (size c) (evictList c) (delete (key kv) (items c)))
  | None => (Panic, c)
  end.

Definition removeOldest (c : Cache) : res unit * Cache :=
  match GoList.Back (evictList c) with
  | Some ent => removeElement ent c
  | None => (Ok tt, c)
  end.

Definition Add (k : K) (v : V) (c : Cache) : res unit * Cache :=
  match items c !! k with
  | Some ent =>
      let l := GoList.MoveToFront ent (evictList c) in
      match GoList.Value ent l with
      | Some e => (Ok tt, mkCache (size c) (GoList.set_Value ent (mkEntry_ (key e) v) l) (items c))
      | None => (Panic, mkCache (size c) l (items c))
      end
  | None =>
      let '(entry, l) := GoList.PushFront (mkEntry_ k v) (evictList c) in
      let c := mkCache (size c) l (<[k := entry]> (items c)) in
      if (size c <? Z.of_nat (GoList.Len (evictList c)))%Z then removeOldest c else (Ok tt, c)
  end.

(** [(value, ok)]: the value when [ok]. *)
Definition Get (k : K) (c : Cache) : res (option V) * Cache :=
  match items c !! k with
  | Some ent =>
      let c := mkCache (size c) (GoList.MoveToFront ent (evictList c)) (items c) in
      match GoList.Value ent (evictList c) with
      | Some e => (Ok (Some (value_ e)), c)
      | None => (Panic, c)
      end
  | None => (Ok None, c)
  end.

Definition Remove (k : K) (c : Cache) : res unit * Cache :=
  match items c !! k with
  | Some ent => removeElement ent c
  | None => (Ok tt, c)
  end.

Definition RemoveOldest (c : Cache) : res unit * Cache := removeOldest c.
Definition Keys `{!GoRange K} (c : Cache) : list K := go_range (dom (items c)).
Definition Len (c : Cache) : nat := GoList.Len (evictList c).

(** ** The specification: a list of pairs, most recently used first *)
Fixpoint a_lookup (k : K) (l : list (K * V)) : option V :=
  match l with
  | [] => None
  | (k', v) :: l => if decide (k' = k) then Some v else a_lookup k l
  end.
Definition a_remove (k : K) (l : list (K * V)) : list (K * V) := filter (fun p => p.1 <> k) l.
Definition a_add (n : nat) (k : K) (v : V) (l : list (K * V)) : list (K * V) :=
  take n ((k, v) :: a_remove k l).
Definition a_get (k : K) (l : list (K * V)) : option V * list (K * V) :=
  match a_lookup k l with
  | Some v => (Some v, (k, v) :: a_remove k l)
  | None => (None, l)
  end.

(** The list that a cache stands for. *)
Definition pair_of (c : Cache) (e : nat) : option (K * V) :=
  (fun kv => (key kv, value_ kv)) <$> GoList.Value e (evictList c).
Definition recency (c : Cache) : list (K * V) := omap (pair_of c) (GoList.ids (evictList c)).

(** ** The invariant

    The map and the list hold the same elements: the map sends each key to the
    one element of the list that holds it. *)
Record lru_wf (c : Cache) : Prop := {
  wf_nodup : NoDup (GoList.ids (evictList c));
  wf_fresh e : is_Some (GoList.Value e (evictList c)) -> e < GoList.fresh (evictList c);
  wf_items k e : items c !! k = Some e <->
    e ∈ GoList.ids (evictList c) /\ exists v, GoList.Value e (evictList c) = Some (mkEntry_ k v);
  wf_value e : e ∈ GoList.ids (evictList c) -> is_Some (GoList.Value e (evictList c));
}.
Definition lru_inv (c : Cache) : Prop :=
  lru_wf c /\ (0 < size c)%Z /\ (Z.of_nat (Len c) <= size c)%Z.

Section Wf.
Context (c : Cache) (Hwf : lru_wf c).

Lemma pair_of_items e k v :
  e ∈ GoList.ids (evictList c) -> pair_of c e = Some (k, v) -> items c !! k = Some e.
Proof.
  intros He. unfold pair_of. destruct (GoList.Value e (evictList c)) as [[k' v']|] eqn:Hv; [|done].
  simpl. intros [= -> ->]. apply (wf_items c Hwf). split; [done|]. by exists v.
Qed.

Lemma recency_elem k v :
  (k, v) ∈ recency c <-> exists e, items c !! k = Some e
    /\ GoList.Value e (evictList c) = Some (mkEntry_ k v).
Proof.
  unfold recency. rewrite list_elem_of_omap. split.
  - intros (e & He & Hp). exists e. split; [by eapply pair_of_items|].
    unfold pair_of in Hp. destruct (GoList.Value e (evictList c)) as [[k' v']|]; [|done].
    by injection Hp as -> ->.
  - intros (e & He & Hv). apply (wf_items c Hwf) in He as [He _]. exists e. split; [done|].
    unfold pair_of. by rewrite Hv.
Qed.

Lemma a_remove_recency k e :
  items c !! k = Some e ->
  a_remove k (recency c) = omap (pair_of c) (filter (fun x => x <> e) (GoList.ids (evictList c))).
Proof.
  intros He. apply filter_omap. intros x [k' v] Hx Hp. simpl.
  pose proof (pair_of_items x k' v Hx Hp) as Hk'. split.
  - intros Hne ->. by simplify_eq.
  - intros Hne ->. apply (wf_items c Hwf) in Hk' as [_ [v1 Hv1]].
    apply (wf_items c Hwf) in He as [_ [v2 Hv2]]. by simplify_eq.
Qed.

Lemma a_remove_absent k : items c !! k = None -> a_remove k (recency c) = recency c.
Proof.
  intros Hk. apply filter_all. intros [k' v] (e & He & _)%recency_elem. simpl. congruence.
Qed.

Lemma recency_length : length (recency c) = Len c.
Proof.
  pose proof (wf_value c Hwf) as Hv. unfold recency, Len, GoList.Len. revert Hv.
  induction (GoList.ids (evictList c)) as [|e es IH]; intros Hv; [done|].
  destruct (Hv e ltac:(by left)) as [kv Hkv]. simpl. unfold pair_of at 1. rewrite Hkv. simpl.
  f_equal. apply IH. intros x Hx. apply Hv. by right.
Qed.

Lemma recency_keys_nodup : NoDup (recency c).*1.
Proof.
  pose proof (wf_nodup c Hwf) as Hnd. unfold recency.
  pose proof pair_of_items as Hp. revert Hnd Hp.
  induction (GoList.ids (evictList c)) as [|e es IH]; intros Hnd Hp; [constructor|].
  apply NoDup_cons in Hnd as [Hnin Hnd].
  assert (IH' := IH Hnd (fun e k v He => Hp e k v (list_elem_of_further _ _ _ He))).
  simpl. destruct (pair_of c e) as [[k v]|] eqn:He; [|done]. simpl. apply NoDup_cons.
  split; [|done]. intros ([k' v'] & Hk & (e' & He' & Hpe')%list_elem_of_omap)%list_elem_of_fmap.
  simpl in Hk. subst k'. apply Hnin.
  pose proof (Hp e k v (list_elem_of_here _ _) He) as H1.
  pose proof (Hp e' k v' (list_elem_of_further _ _ _ He') Hpe') as H2. by simplify_eq.
Qed.

(** The map finds what the list holds. *)
Lemma recency_lookup k :
  a_lookup k (recency c)
  = match items c !! k with
    | Some e => value_ <$> GoList.Value e (evictList c)
    | None => None
    end.
Proof.
  pose proof recency_keys_nodup as Hnd. pose proof (recency_elem k) as Hel.
  assert (Hl : forall v, a_lookup k (recency c) = Some v <-> (k, v) ∈ recency c).
  { intros v. clear Hel. induction (recency c) as [|[k' v'] l IH]; simpl.
    - split; [done|]. by intros ?%not_elem_of_nil.
    - apply NoDup_cons in Hnd as [Hnin Hnd]. simpl in Hnin. rewrite elem_of_cons.
      destruct (decide (k' = k)) as [->|Hne].
      + split; [intros [= ->]; by left|]. intros [[= ->]|Hin]; [done|].
        exfalso. apply Hnin. apply list_elem_of_fmap. by exists (k, v).
      + rewrite IH by done. naive_solver. }
  destruct (a_lookup k (recency c)) as [v|] eqn:Ha.
  - destruct (proj1 (Hel v) (proj1 (Hl v) eq_refl)) as (e & -> & ->). done.
  - destruct (items c !! k) as [e|] eqn:He; [|done].
    destruct (proj1 (wf_items c Hwf k e) He) as [_ [v Hv]]. exfalso.
    assert ((k, v) ∈ recency c) as Hin by (apply Hel; by exists e).
    by apply Hl in Hin.
Qed.
End Wf.

(** ** Steps of the list *)

Lemma removeElement_spec c e kv :
  lru_wf c -> e ∈ GoList.ids (evictList c) -> GoList.Value e (evictList c) = Some kv ->
  exists c', removeElement e c = (Ok tt, c') /\ lru_wf c' /\ size c' = size c
    /\ recency c' = a_remove (key kv) (recency c).
Proof.
  intros Hwf He Hv. destruct kv as [k v].
  assert (Hk : items c !! k = Some e) by (apply (wf_items c Hwf); split; [done|by exists v]).
  assert (Hv' : GoList.Value e (GoList.Remove e (evictList c)) = Some (mkEntry_ k v)) by done.
  eexists. unfold removeElement. cbn [evictList items size key]. rewrite Hv'.
  split_and!; [reflexivity| |done|by rewrite (a_remove_recency c Hwf k e)].
  destruct Hwf as [Hnd Hfr Hit Hva]. split; cbn.
  - by apply NoDup_filter.
  - exact Hfr.
  - intros k' e'. rewrite lookup_delete_Some, list_elem_of_filter, Hit. split.
    + intros (Hne & He' & v' & Hx). split_and!; [|done|by exists v'].
      intros ->. change (GoList.Value e (evictList c) = Some (mkEntry_ k' v')) in Hx.
      by simplify_eq.
    + intros ((Hne & He') & v' & Hx). split_and!; [|done|by exists v'].
      intros <-. apply Hne. assert (items c !! k = Some e') by (apply Hit; split; [done|by exists v']).
      by simplify_eq.
  - intros e' [_ He']%list_elem_of_filter. by apply Hva.
Qed.

(** A cache whose list gets a new front element. *)
Definition push_front (k : K) (v : V) (c : Cache) : Cache :=
  let '(e, l) := GoList.PushFront (mkEntry_ k v) (evictList c) in
  mkCache (size c) l (<[k := e]> (items c)).

Lemma push_front_spec c k v :
  lru_wf c -> items c !! k = None ->
  lru_wf (push_front k v c) /\ recency (push_front k v c) = (k, v) :: recency c.
Proof.
  intros Hwf Hk. set (l := evictList c).
  assert (Hnew : GoList.fresh l ∉ GoList.ids l).
  { intros Hin. pose proof (wf_fresh c Hwf _ (wf_value c Hwf _ Hin)). unfold l in *. lia. }
  assert (Hval : forall e, e ∈ GoList.ids l ->
    <[GoList.fresh l := mkEntry_ k v]> (GoList.Values l) !! e = GoList.Values l !! e).
  { intros e He. apply lookup_insert_ne. by intros <-. }
  pose proof Hwf as [Hnd Hfr Hit Hva]. split; [split; cbn|].
  - by constructor.
  - intros e. unfold GoList.Value. cbn. destruct (decide (e = GoList.fresh l)) as [->|Hne].
    + intros _. unfold l. lia.
    + fold l. rewrite lookup_insert_ne by done. intros He%Hfr. unfold l in *. lia.
  - intros k' e'. fold l. unfold GoList.Value. cbn. destruct (decide (k' = k)) as [->|Hne].
    + rewrite lookup_insert_eq. split.
      * intros [= <-]. split; [by left|]. exists v. by rewrite lookup_insert_eq.
      * intros [[->|He]%elem_of_cons (v' & Hv')]; [done|]. rewrite Hval in Hv' by done.
        assert (items c !! k = Some e') by (apply Hit; split; [done|by exists v']). congruence.
    + rewrite lookup_insert_ne, Hit by done. rewrite elem_of_cons. split.
      * intros (He & v' & Hv'). split; [by right|]. exists v'. by rewrite Hval.
      * intros [[->|He] (v' & Hv')]; [by rewrite lookup_insert_eq in Hv'; simplify_eq|].
        rewrite Hval in Hv' by done. split; [done|by exists v'].
  - intros e. fold l. unfold GoList.Value. cbn. intros [->|He]%elem_of_cons.
    + rewrite lookup_insert_eq. by eexists.
    + rewrite Hval by done. by apply Hva.
  - unfold recency, push_front. cbn [GoList.PushFront evictList GoList.ids]. rewrite omap_cons.
    unfold pair_of at 1. unfold GoList.Value. cbn [evictList GoList.Values].
    rewrite lookup_insert_eq. cbn. f_equal. apply omap_ext_in. intros e He. unfold pair_of, GoList.Value.
    cbn. fold l. by rewrite Hval.
Qed.

(** A cache whose element [e] moves to the front, with the value [v]. *)
Definition touch (e : nat) (k : K) (v : V) (c : Cache) : Cache :=
  mkCache (size c) (GoList.set_Value e (mkEntry_ k v) (GoList.MoveToFront e (evictList c))) (items c).

Lemma touch_spec c e k v :
  lru_wf c -> items c !! k = Some e ->
  lru_wf (touch e k v c) /\ recency (touch e k v c) = (k, v) :: a_remove k (recency c).
Proof.
  intros Hwf Hk. pose proof Hwf as [Hnd Hfr Hit Hva].
  destruct (proj1 (Hit k e) Hk) as [He [v0 Hv0]]. unfold touch, GoList.MoveToFront.
  rewrite decide_True by done. set (l := evictList c) in *.
  assert (Hin : forall x, x ∈ e :: filter (fun x => x <> e) (GoList.ids l) <-> x ∈ GoList.ids l).
  { intros x. rewrite elem_of_cons, list_elem_of_filter. destruct (decide (x = e)); naive_solver. }
  split; [split; cbn|].
  - constructor; [|by apply NoDup_filter]. by intros [? _]%list_elem_of_filter.
  - intros x. unfold GoList.Value. cbn. destruct (decide (x = e)) as [->|Hne].
    + intros _. apply Hfr. by eexists.
    + rewrite lookup_insert_ne by done. apply Hfr.
  - intros k' x. rewrite Hin, Hit. unfold GoList.Value. cbn. destruct (decide (x = e)) as [->|Hne].
    + rewrite lookup_insert_eq. fold l. unfold GoList.Value in Hv0. rewrite Hv0. naive_solver.
    + by rewrite lookup_insert_ne.
  - intros x Hx%Hin. unfold GoList.Value. cbn. destruct (decide (x = e)) as [->|Hne].
    + rewrite lookup_insert_eq. by eexists.
    + rewrite lookup_insert_ne by done. by apply Hva.
  - rewrite (a_remove_recency c Hwf k e Hk). unfold recency. cbn [evictList GoList.ids GoList.set_Value].
    rewrite omap_cons. unfold pair_of at 1, GoList.Value. cbn [evictList GoList.Values GoList.set_Value].
    rewrite lookup_insert_eq. cbn. f_equal. apply omap_ext_in.
    intros x [Hx _]%list_elem_of_filter. unfold pair_of, GoList.Value. cbn.
    by rewrite lookup_insert_ne.
Qed.

(** Dropping the oldest element of a list that is not empty. *)
Lemma removeOldest_spec c :
  lru_wf c ->
  exists c', removeOldest c = (Ok tt, c') /\ lru_wf c' /\ size c' = size c
    /\ recency c' = take (Len c - 1) (recency c).
Proof.
  intros Hwf. unfold removeOldest, GoList.Back.
  destruct (last (GoList.ids (evictList c))) as [e|] eqn:Hl.
  - apply last_Some in Hl as [l Hl].
    assert (He : e ∈ GoList.ids (evictList c)) by (rewrite Hl; apply elem_of_app; right; by left).
    destruct (wf_value c Hwf e He) as [[k v] Hv].
    destruct (removeElement_spec c e _ Hwf He Hv) as (c' & Hc & Hwf' & Hsz & Hr).
    exists c'. split_and!; [done..|]. rewrite Hr. cbn [key].
    assert (Hk : items c !! k = Some e) by (apply (wf_items c Hwf); split; [done|by exists v]).
    rewrite (a_remove_recency c Hwf k e Hk). rewrite <- (recency_length c Hwf).
    unfold recency. pose proof (wf_nodup c Hwf) as Hnd. rewrite Hl in *.
    apply NoDup_app in Hnd as (_ & Hnd & _). rewrite filter_app, filter_all.
    2: { intros x Hx ->. apply (Hnd e Hx). by left. }
    rewrite filter_cons, decide_False by tauto. rewrite app_nil_r, omap_app, length_app.
    assert (Hp : omap (pair_of c) [e] = [(k, v)]) by (rewrite omap_cons; unfold pair_of at 1; by rewrite Hv).
    rewrite Hp. simpl length. rewrite take_app_le, take_ge by lia. done.
  - exists c. apply last_None in Hl. unfold recency, Len, GoList.Len. by rewrite Hl.
Qed.

(** ** Operations against the specification *)

Lemma a_remove_length k (l : list (K * V)) : length (a_remove k l) <= length l.
Proof. apply length_filter. Qed.

Lemma a_remove_lookup k v (l : list (K * V)) :
  a_lookup k l = Some v -> length (a_remove k l) < length l.
Proof.
  induction l as [|[k' v'] l IH]; [done|]. simpl. unfold a_remove. rewrite filter_cons. simpl.
  pose proof (a_remove_length k l) as Hle. unfold a_remove in *.
  destruct (decide (k' = k)) as [->|Hne].
  - intros _. rewrite decide_False by tauto. lia.
  - intros Hl%IH. rewrite decide_True by done. simpl. lia.
Qed.

(** What an operation does to the list of a correct cache. *)
Definition becomes (c c' : Cache) (l : list (K * V)) : Prop :=
  lru_inv c' /\ size c' = size c /\ recency c' = l.

Lemma lru_inv_intro c c' l :
  lru_inv c -> lru_wf c' -> size c' = size c -> recency c' = l ->
  length l <= Z.to_nat (size c) -> becomes c c' l.
Proof.
  intros (_ & Hpos & _) Hwf Hsz Hr Hl. split_and!; [|done..].
  split_and!; [done|lia|]. rewrite <- recency_length, Hr by done. lia.
Qed.

Lemma recency_fits c : lru_inv c -> length (recency c) <= Z.to_nat (size c).
Proof. intros (Hwf & _ & Hl). rewrite recency_length by done. lia. Qed.

Lemma Add_spec_lru c k v :
  lru_inv c ->
  exists c', Add k v c = (Ok tt, c') /\ becomes c c' (a_add (Z.to_nat (size c)) k v (recency c)).
Proof.
  intros Hinv. pose proof Hinv as (Hwf & Hpos & Hlen). pose proof (recency_fits c Hinv) as Hfit.
  unfold Add, a_add. destruct (items c !! k) as [e|] eqn:Hk.
  - destruct (touch_spec c e k v Hwf Hk) as [Hwf' Hr].
    destruct (proj1 (wf_items c Hwf k e) Hk) as [He [v0 Hv0]].
    assert (Hval : GoList.Value e (GoList.MoveToFront e (evictList c)) = Some (mkEntry_ k v0)).
    { unfold GoList.MoveToFront. by rewrite decide_True. }
    rewrite Hval. cbn [key]. exists (touch e k v c). split; [done|].
    assert (Hlt : length (a_remove k (recency c)) < length (recency c)).
    { apply (a_remove_lookup k v0). rewrite recency_lookup, Hk, Hv0 by done. done. }
    rewrite take_ge by (simpl; lia). apply lru_inv_intro; [done..|simpl; lia].
  - destruct (push_front_spec c k v Hwf Hk) as [Hwf' Hr]. cbn [GoList.PushFront].
    fold (push_front k v c). rewrite (a_remove_absent c Hwf k Hk), <- Hr.
    change (mkCache _ _ _) with (push_front k v c).
    change (size (push_front k v c)) with (size c).
    pose proof (recency_length _ Hwf') as Hl'. rewrite Hr in Hl'. simpl in Hl'.
    change (GoList.Len (evictList (push_front k v c))) with (Len (push_front k v c)).
    destruct (Z.ltb_spec (size c) (Z.of_nat (Len (push_front k v c)))).
    + destruct (removeOldest_spec _ Hwf') as (c' & -> & Hwf'' & Hsz & Hr''). exists c'.
      split; [done|]. rewrite (recency_length c Hwf) in *.
      replace (Len (push_front k v c) - 1) with (Z.to_nat (size c)) in Hr'' by lia.
      apply lru_inv_intro; [done..|]. rewrite length_take. lia.
    + eexists. split; [reflexivity|]. rewrite take_ge by (rewrite Hr; simpl; lia).
      apply lru_inv_intro; [done..|]. rewrite Hr. simpl. lia.
Qed.

Lemma touch_same c e k v :
  GoList.Value e (evictList c) = Some (mkEntry_ k v) ->
  touch e k v c = mkCache (size c) (GoList.MoveToFront e (evictList c)) (items c).
Proof.
  intros Hv. unfold touch, GoList.set_Value. f_equal. unfold GoList.MoveToFront, GoList.Value in *.
  destruct (decide (e ∈ GoList.ids (evictList c))); simpl; rewrite insert_id by done;
    [done|by destruct (evictList c)].
Qed.

Lemma Get_spec c k :
  lru_inv c ->
  exists c', Get k c = (Ok (a_get k (recency c)).1, c') /\ becomes c c' (a_get k (recency c)).2.
Proof.
  intros Hinv. pose proof Hinv as (Hwf & _ & _). pose proof (recency_fits c Hinv) as Hfit.
  unfold Get, a_get. pose proof (recency_lookup c Hwf k) as Hl.
  destruct (items c !! k) as [e|] eqn:Hk.
  - destruct (proj1 (wf_items c Hwf k e) Hk) as [He [v Hv]]. rewrite Hv in Hl. cbn in Hl.
    rewrite Hl. destruct (touch_spec c e k v Hwf Hk) as [Hwf' Hr].
    exists (touch e k v c). rewrite (touch_same c e k v Hv) in *.
    assert (Hval : GoList.Value e (GoList.MoveToFront e (evictList c)) = Some (mkEntry_ k v)).
    { unfold GoList.MoveToFront. by rewrite decide_True. }
    cbn [evictList]. rewrite Hval. split; [done|].
    pose proof (a_remove_lookup k v _ Hl). apply lru_inv_intro; [done..|simpl; lia].
  - rewrite Hl. exists c. split; [done|]. by apply lru_inv_intro.
Qed.

Lemma Remove_spec c k :
  lru_inv c -> exists c', Remove k c = (Ok tt, c') /\ becomes c c' (a_remove k (recency c)).
Proof.
  intros Hinv. pose proof Hinv as (Hwf & _ & _). pose proof (recency_fits c Hinv) as Hfit.
  pose proof (a_remove_length k (recency c)) as Hle. unfold Remove.
  destruct (items c !! k) as [e|] eqn:Hk.
  - destruct (proj1 (wf_items c Hwf k e) Hk) as [He [v Hv]].
    destruct (removeElement_spec c e _ Hwf He Hv) as (c' & Hc & Hwf' & Hsz & Hr).
    exists c'. split; [done|]. apply lru_inv_intro; [done..|lia].
  - exists c. split; [done|]. rewrite (a_remove_absent c Hwf k Hk). by apply lru_inv_intro.
Qed.

Lemma RemoveOldest_spec c :
  lru_inv c ->
  exists c', RemoveOldest c = (Ok tt, c')
    /\ becomes c c' (take (length (recency c) - 1) (recency c)).
Proof.
  intros Hinv. pose proof Hinv as (Hwf & _ & _). pose proof (recency_fits c Hinv) as Hfit.
  destruct (removeOldest_spec c Hwf) as (c' & Hc & Hwf' & Hsz & Hr).
  exists c'. split; [done|]. rewrite (recency_length c Hwf) in *.
  apply lru_inv_intro; [done..|]. rewrite length_take, (recency_length c Hwf). lia.
Qed.

Lemma empty_wf n : lru_wf (mkCache n GoList.New ∅).
Proof.
  split; cbn.
  - constructor.
  - intros e [v Hv]. unfold GoList.Value in Hv. cbn in Hv. by rewrite lookup_empty in Hv.
  - intros k e. rewrite lookup_empty. split; [done|]. intros [He _]. by apply not_elem_of_nil in He.
  - intros e He. by apply not_elem_of_nil in He.
Qed.

Lemma New_inv n : (0 < n)%Z -> lru_inv (mkCache n GoList.New ∅).
Proof. intros Hn. split_and!; [apply empty_wf|done|change (0 <= n)%Z; lia]. Qed.

Lemma Purge_spec c : lru_inv c -> becomes c (Purge c) [].
Proof. intros Hinv. apply lru_inv_intro; [done|apply empty_wf|done..|simpl; lia]. Qed.

(** ** Sequences of calls *)
Inductive lru_op :=
  | LAdd (k : K) (v : V) | LGet (k : K) | LRemove (k : K) | LRemoveOldest | LPurge.

(** The result of a call that returns nothing is [None]. *)
Definition no_value (p : res unit * Cache) : res (option V) * Cache := ((fun _ => None) <$> p.1, p.2).
Definition lru_step (o : lru_op) (c : Cache) : res (option V) * Cache :=
  match o with
  | LAdd k v => no_value (Add k v c)
  | LGet k => Get k c
  | LRemove k => no_value (Remove k c)
  | LRemoveOldest => no_value (RemoveOldest c)
  | LPurge => (Ok None, Purge c)
  end.
Fixpoint lru_run (l : list lru_op) (c : Cache) : list (res (option V)) * Cache :=
  match l with
  | [] => ([], c)
  | o :: l =>
      let '(r, c) := lru_step o c in
      let '(rs, c) := lru_run l c in (r :: rs, c)
  end.

Definition a_step (n : nat) (o : lru_op) (l : list (K * V)) : option V * list (K * V) :=
  match o with
  | LAdd k v => (None, a_add n k v l)
  | LGet k => a_get k l
  | LRemove k => (None, a_remove k l)
  | LRemoveOldest => (None, take (length l - 1) l)
  | LPurge => (None, [])
  end.
Fixpoint a_run (n : nat) (ops : list lru_op) (l : list (K * V)) : list (option V) * list (K * V) :=
  match ops with
  | [] => ([], l)
  | o :: ops =>
      let '(r, l) := a_step n o l in
      let '(rs, l) := a_run n ops l in (r :: rs, l)
  end.

Lemma lru_step_spec o c :
  lru_inv c ->
  let '(r, l) := a_step (Z.to_nat (size c)) o (recency c) in
  exists c', lru_step o c = (Ok r, c') /\ becomes c c' l.
Proof.
  intros Hinv. destruct o as [k v|k|k| |]; cbn [a_step lru_step].
  - destruct (Add_spec_lru c k v Hinv) as (c' & -> & Hc). by exists c'.
  - destruct (Get_spec c k Hinv) as (c' & Hg & Hc).
    destruct (a_get k (recency c)) as [r l]. by exists c'.
  - destruct (Remove_spec c k Hinv) as (c' & -> & Hc). by exists c'.
  - destruct (RemoveOldest_spec c Hinv) as (c' & -> & Hc). by exists c'.
  - eexists. split; [reflexivity|]. by apply Purge_spec.
Qed.

Lemma lru_run_spec ops c :
  lru_inv c ->
  let '(rs, l) := a_run (Z.to_nat (size c)) ops (recency c) in
  exists c', lru_run ops c = (map Ok rs, c') /\ becomes c c' l.
Proof.
  revert c. induction ops as [|o ops IH]; intros c Hinv; simpl; [by exists c|].
  pose proof (lru_step_spec o c Hinv) as Ho.
  destruct (a_step (Z.to_nat (size c)) o (recency c)) as [r l].
  destruct Ho as (c1 & -> & Hinv1 & Hsz1 & <-). specialize (IH c1 Hinv1). rewrite Hsz1 in IH.
  destruct (a_run (Z.to_nat (size c)) ops (recency c1)) as [rs l].
  destruct IH as (c2 & -> & Hinv2 & Hsz2 & Hr2). exists c2. split; [done|].
  unfold becomes. by rewrite Hsz2.
Qed.


(** The keys of a list by last use: the last occurrence of each counts. *)
Fixpoint last_uses (ks : list K) : list K :=
  match ks with
  | [] => []
  | k :: ks => k :: filter (fun k' => k' <> k) (last_uses ks)
  end.

Lemma take_filter_take k m (l : list K) :
  NoDup l -> take m (filter (fun x => x <> k) (take (S m) l)) = take m (filter (fun x => x <> k) l).
Proof.
  intros Hl. revert m. induction Hl as [|x l Hx Hl IH]; intros m; [done|].
  cbn [take]. rewrite !filter_cons. destruct (decide (x = k)) as [->|Hne].
  - destruct (decide (k <> k)) as [|_]; [done|].
    rewrite !filter_all; [by rewrite take_take, Nat.min_id| |]; [|intros y Hy ->].
    + by intros y Hy ->.
    + apply Hx. rewrite <- (take_drop m l). apply elem_of_app. by left.
  - rewrite !decide_True by done. destruct m as [|m]; [done|]. cbn [take]. f_equal. apply IH.
Qed.

Lemma last_uses_elem k ks : k ∈ last_uses ks <-> k ∈ ks.
Proof.
  induction ks as [|k' ks IH]; simpl; [done|]. rewrite !elem_of_cons, list_elem_of_filter, IH.
  destruct (decide (k = k')); naive_solver.
Qed.

Lemma last_uses_nodup ks : NoDup (last_uses ks).
Proof.
  induction ks as [|k ks IH]; simpl; constructor; [|by apply NoDup_filter].
  by intros [? _]%list_elem_of_filter.
Qed.

Lemma a_remove_keys k (l : list (K * V)) : (a_remove k l).*1 = filter (fun k' => k' <> k) l.*1.
Proof.
  induction l as [|[k' v] l IH]; [done|]. unfold a_remove in *. rewrite fmap_cons, !filter_cons. simpl.
  destruct (decide (k' <> k)); [|done]. by rewrite fmap_cons, IH.
Qed.

Lemma a_run_adds n kvs (ks0 : list K) l :
  0 < n -> l.*1 = take n (last_uses ks0) ->
  (a_run n (map (fun kv => LAdd kv.1 kv.2) kvs) l).2.*1 = take n (last_uses (rev kvs.*1 ++ ks0)).
Proof.
  intros Hn. revert ks0 l. induction kvs as [|[k v] kvs IH]; intros ks0 l Hl; [done|].
  cbn [map a_run a_step fst snd].
  specialize (IH (k :: ks0) (a_add n k v l)).
  destruct (a_run n _ (a_add n k v l)) as [rs l']. simpl in *.
  rewrite <- app_assoc. simpl. apply IH. unfold a_add. rewrite fmap_take. simpl.
  rewrite a_remove_keys, Hl. destruct n as [|m]; [lia|]. cbn [take]. f_equal.
  apply take_filter_take, last_uses_nodup.
Qed.

(** Eviction: after any number of [Add] calls a cache of size [n] holds
    exactly the [n] keys added last, the most recent first; adding a key again
    counts as its only use. *)
Theorem Add_evicts_oldest n (kvs : list (K * V)) :
  (0 < n)%Z ->
  exists c c' rs, New n = Ok c
    /\ lru_run (map (fun kv => LAdd kv.1 kv.2) kvs) c = (rs, c')
    /\ (recency c').*1 = take (Z.to_nat n) (last_uses (rev kvs.*1))
    /\ forall k, k ∈ dom (items c') <-> k ∈ take (Z.to_nat n) (last_uses (rev kvs.*1)).
Proof.
  intros Hn. exists (mkCache n GoList.New ∅).
  pose proof (lru_run_spec (map (fun kv => LAdd kv.1 kv.2) kvs) _ (New_inv n Hn)) as Hrun.
  cbn [size] in Hrun. change (recency (mkCache n GoList.New ∅)) with ([] : list (K * V)) in Hrun.
  pose proof (a_run_adds (Z.to_nat n) kvs [] [] ltac:(lia) (eq_sym (take_nil _))) as Hadds.
  rewrite app_nil_r in Hadds.
  destruct (a_run (Z.to_nat n) _ []) as [rs l]. simpl in Hadds.
  destruct Hrun as (c' & Hc & (Hwf & _ & _) & _ & Hr).
  exists c', (map Ok rs). split_and!; [|done|by rewrite Hr|].
  { unfold New. by destruct (Z.leb_spec n 0); [lia|]. }
  intros k. rewrite <- Hadds, <- Hr, elem_of_dom. split.
  - intros [e He]. destruct (proj1 (wf_items c' Hwf k e) He) as [_ [v Hv]].
    apply list_elem_of_fmap. exists (k, v). split; [done|]. apply recency_elem; [done|]. by exists e.
  - intros ([k' v] & -> & Hin)%list_elem_of_fmap. simpl.
    apply recency_elem in Hin as (e & He & _); [|done]. by eexists.
Qed.
End Lru.
Arguments Cache K V {_ _}.
Arguments lru_op K V : clear implicits.


Lemma Add_evicts_oldest_witness :
  exists c c' rs, New 2 = Ok c
    /\ lru_run [LAdd (str "a") 1; LAdd (str "b") 2; LAdd (str "a") 3; LAdd (str "c") 4] c = (rs, c')
    /\ (recency c').*1 = [str "c"; str "a"].
Proof.
  destruct (Add_evicts_oldest 2 [(str "a", 1); (str "b", 2); (str "a", 3); (str "c", 4)] ltac:(lia))
    as (c & c' & rs & H1 & H2 & H3 & _).
  by exists c, c', rs.
Defined.

(** ** go-datastore/lru/datastore.go *)
Module LruDatastore.
Record Datastore_ := mkLruDs { cache : Cache DsKey.Key value }.

Definition NewDatastore (capacity : Z) : res Datastore_ :=
  cache ← New capacity; Ok (mkLruDs cache).

Definition Put (key : DsKey.Key) (v : value) (d : Datastore_) : res unit * Datastore_ :=
  let '(r, c) := Add key v (cache d) in (r, mkLruDs c).
Definition Get (key : DsKey.Key) (d : Datastore_) : res value * Datastore_ :=
  let '(r, c) := Lru.Get key (cache d) in
  (ok ← r; (match ok with Some val => Ok val | None => Err DsErrNotFound end), mkLruDs c).
Definition Has (key : DsKey.Key) (d : Datastore_) : res bool * Datastore_ := GetBackedHas Get key d.
Definition Delete (key : DsKey.Key) (d : Datastore_) : res unit * Datastore_ :=
  let '(r, c) := Remove key (cache d) in (r, mkLruDs c).
Definition Query_ (q : Query) (d : Datastore_) : res Results * Datastore_ :=
  (Err (errors_New "KeyList not implemented."), d).

#[global] Instance lru_Datastore : Datastore Datastore_ := {|
  ds_Put := Put; ds_Get := Get; ds_Has := Has; ds_Delete := Delete; ds_Query := Query_ |}.
End LruDatastore.

(** The LRU datastore keeps the promises of a store on what it holds: [Get] and
    [Has] answer by its list of pairs and only refresh it, [Put] makes the key
    the newest, [Delete] drops it; but [Delete] of an absent key is no error, and
    there is no [Query]. *)
Theorem LruDatastore_spec (d : LruDatastore.Datastore_) k v :
  lru_inv (LruDatastore.cache d) ->
  let l := recency (LruDatastore.cache d) in
  (LruDatastore.Get k d).1 = found (a_lookup k l)
  /\ (LruDatastore.Has k d).1 = Ok (present (a_lookup k l))
  /\ (LruDatastore.Get k (LruDatastore.Put k v d).2).1 = Ok v
  /\ (LruDatastore.Delete k d).1 = Ok tt
  /\ recency (LruDatastore.cache (LruDatastore.Delete k d).2) = a_remove k l
  /\ forall q, exists e, (LruDatastore.Query_ q d).1 = Err e.
Proof.
  destruct d as [c]. intros Hinv l. cbn [LruDatastore.cache] in *.
  assert (HGet : forall c', lru_inv c' ->
    (LruDatastore.Get k (LruDatastore.mkLruDs c')).1 = found (a_lookup k (recency c'))).
  { intros c' Hinv'. unfold LruDatastore.Get. cbn [LruDatastore.cache].
    destruct (Get_spec c' k Hinv') as (c'' & -> & _). unfold a_get.
    by destruct (a_lookup k (recency c')). }
  destruct (Remove_spec c k Hinv) as (cr & Hrem & _ & _ & Hrr).
  destruct (Add_spec_lru c k v Hinv) as (ca & Hadd & Hinva & _ & Hra).
  split_and!; [by apply HGet| | | | |by eexists].
  - unfold LruDatastore.Has, GetBackedHas. specialize (HGet c Hinv).
    destruct (LruDatastore.Get k (LruDatastore.mkLruDs c)) as [r d']. simpl in HGet. rewrite HGet.
    subst l. by destruct (a_lookup k (recency c)).
  - unfold LruDatastore.Put. cbn [LruDatastore.cache]. rewrite Hadd. cbn [snd].
    rewrite HGet, Hra by done. unfold a_add. destruct Hinv as (_ & Hpos & _).
    destruct (Z.to_nat (size c)) as [|m] eqn:Hm; [lia|]. simpl. by rewrite decide_True.
  - unfold LruDatastore.Delete. cbn [LruDatastore.cache]. by rewrite Hrem.
  - unfold LruDatastore.Delete. cbn [LruDatastore.cache]. by rewrite Hrem.
Qed.

Lemma LruDatastore_spec_witness :
  exists d, LruDatastore.NewDatastore 3 = Ok d
    /\ (LruDatastore.Get (NewKey (str "a")) (LruDatastore.Put (NewKey (str "a")) VNil d).2).1 = Ok VNil.
Proof.
  eexists. split; [reflexivity|]. apply LruDatastore_spec. by apply New_inv.
Defined.
