(* ===== verification/BlockList.v ===== *)
(** * The worker's queue of blocks

    Models [type BlockList] of [blockservice/worker/worker.go]: a linked list of
    blocks with a map from their keys to its elements. *)

From S2P Require Import Prelude GoList BlockKey Blocks.

(** The zero value has a nil map, which reads as the empty one. *)
Record BlockList := mkBlockList {
  list_ : GoList.List Block;
  uniques : option (gmap Key nat);
}.
Definition zero : BlockList := mkBlockList GoList.New None.

(** [if s.uniques == nil { s.uniques = make(...) }] *)
Definition make_uniques (s : BlockList) : gmap Key nat := default ∅ (uniques s).

Definition PushFront (b : Block) (s : BlockList) : BlockList :=
  let m := make_uniques s in
  match m !! Key_ b with
  | Some _ => mkBlockList (list_ s) (Some m)
  | None =>
      let '(e, l) := GoList.PushFront b (list_ s) in mkBlockList l (Some (<[Key_ b := e]> m))
  end.

Definition Push (b : Block) (s : BlockList) : BlockList :=
  let m := make_uniques s in
  match m !! Key_ b with
  | Some _ => mkBlockList (list_ s) (Some m)
  | None =>
      let '(e, l) := GoList.PushBack b (list_ s) in mkBlockList l (Some (<[Key_ b := e]> m))
  end.

(** [None] is the nil block. [e.Value.( *blocks.Block)] panics on an element
    that holds no block. *)
Definition Pop (s : BlockList) : res (option Block) * BlockList :=
  if GoList.Len (list_ s) =? 0 then (Ok None, s)
  else
    match GoList.Front (list_ s) with
    | None => (Panic, s)
    | Some e =>
        let l := GoList.Remove e (list_ s) in
        match GoList.Value e l with
        | None => (Panic, mkBlockList l (uniques s))
        | Some b => (Ok (Some b), mkBlockList l (delete (Key_ b) <$> uniques s))
        end
    end.

Definition Len (s : BlockList) : nat := GoList.Len (list_ s).

(** ** The invariant, and the queue of blocks that a list stands for *)
Record bl_wf (s : BlockList) : Prop := {
  bl_nodup : NoDup (GoList.ids (list_ s));
  bl_fresh e : is_Some (GoList.Value e (list_ s)) -> e < GoList.fresh (list_ s);
  bl_value e : e ∈ GoList.ids (list_ s) -> is_Some (GoList.Value e (list_ s));
  bl_uniques k e : make_uniques s !! k = Some e <->
    e ∈ GoList.ids (list_ s) /\ exists b, GoList.Value e (list_ s) = Some b /\ Key_ b = k;
}.

Definition queue (s : BlockList) : list Block :=
  omap (fun e => GoList.Value e (list_ s)) (GoList.ids (list_ s)).

Lemma zero_wf : bl_wf zero /\ queue zero = [].
Proof.
  split; [|done]. split; cbn.
  - constructor.
  - intros e [b Hb]. unfold GoList.Value in Hb. cbn in Hb. by rewrite lookup_empty in Hb.
  - intros e He. by apply not_elem_of_nil in He.
  - intros k e. unfold make_uniques. cbn. rewrite lookup_empty. split; [done|].
    intros [He _]. by apply not_elem_of_nil in He.
Qed.

Section Wf.
Context (s : BlockList) (Hwf : bl_wf s).

Lemma queue_elem b : b ∈ queue s <->
  exists e, e ∈ GoList.ids (list_ s) /\ GoList.Value e (list_ s) = Some b.
Proof. apply list_elem_of_omap. Qed.

Lemma uniques_queue k : is_Some (make_uniques s !! k) <-> k ∈ map Key_ (queue s).
Proof.
  split.
  - intros [e (He & b & Hv & <-)%(bl_uniques s Hwf)]. apply list_elem_of_fmap_2, queue_elem.
    by exists e.
  - intros (b & -> & (e & He & Hv)%queue_elem)%list_elem_of_fmap. exists e.
    apply (bl_uniques s Hwf). split; [done|by exists b].
Qed.

(** No key twice. *)
Lemma queue_keys_nodup : NoDup (map Key_ (queue s)).
Proof.
  pose proof (bl_nodup s Hwf) as Hnd.
  assert (Hinj : forall e1 e2 b1 b2, e1 ∈ GoList.ids (list_ s) -> e2 ∈ GoList.ids (list_ s) ->
    GoList.Value e1 (list_ s) = Some b1 -> GoList.Value e2 (list_ s) = Some b2 ->
    Key_ b1 = Key_ b2 -> e1 = e2).
  { intros e1 e2 b1 b2 H1 H2 Hv1 Hv2 Hk.
    assert (make_uniques s !! Key_ b1 = Some e1) by (apply (bl_uniques s Hwf); split; [done|by exists b1]).
    assert (make_uniques s !! Key_ b1 = Some e2) by (apply (bl_uniques s Hwf); split; [done|by exists b2]).
    congruence. }
  unfold queue. change (map Key_ ?l) with (Key_ <$> l). rewrite list_fmap_omap.
  apply (NoDup_omap_by _ id).
  - intros x y k Hx Hy. destruct (GoList.Value x (list_ s)) as [b1|] eqn:Hv1,
      (GoList.Value y (list_ s)) as [b2|] eqn:Hv2; try done. simpl. intros [= <-] [= Hk].
    by apply (Hinj x y b1 b2).
  - by rewrite map_id.
Qed.

Lemma queue_length : length (queue s) = Len s.
Proof.
  pose proof (bl_value s Hwf) as Hv. unfold queue, Len, GoList.Len.
  induction (GoList.ids (list_ s)) as [|e es IH]; [done|]. rewrite omap_cons.
  destruct (Hv e ltac:(by left)) as [b ->]. simpl. f_equal. apply IH. intros x Hx. apply Hv. by right.
Qed.
End Wf.

(** Adding a block under a new element, at either end. *)
Lemma push_wf s b ids' :
  bl_wf s -> make_uniques s !! Key_ b = None ->
  ids' = GoList.fresh (list_ s) :: GoList.ids (list_ s)
  \/ ids' = GoList.ids (list_ s) ++ [GoList.fresh (list_ s)] ->
  let e := GoList.fresh (list_ s) in
  let vals := <[e := b]> (GoList.Values (list_ s)) in
  bl_wf (mkBlockList (GoList.mkList ids' vals (S e)) (Some (<[Key_ b := e]> (make_uniques s))))
  /\ vals !! e = Some b
  /\ omap (fun x => vals !! x) (GoList.ids (list_ s)) = queue s.
Proof.
  intros Hwf Hk Hids e vals.
  pose proof Hwf as [Hnd Hfr Hva Hun].
  assert (Hnew : e ∉ GoList.ids (list_ s)) by (intros Hin; pose proof (Hfr e (Hva e Hin)); unfold e in *; lia).
  assert (Hval : forall x, x ∈ GoList.ids (list_ s) -> vals !! x = GoList.Value x (list_ s)).
  { intros x Hx. unfold vals. rewrite lookup_insert_ne; [done|]. by intros <-. }
  assert (Hin : forall x, x ∈ ids' <-> x = e \/ x ∈ GoList.ids (list_ s)).
  { intros x. destruct Hids as [-> | ->]; [apply elem_of_cons|].
    rewrite elem_of_app, list_elem_of_singleton. tauto. }
  assert (Hve : vals !! e = Some b) by apply lookup_insert_eq.
  split_and!; [split; cbn|done|by apply omap_ext_in].
  - destruct Hids as [-> | ->]; [by constructor|]. apply NoDup_app. split_and!; [done| |by apply NoDup_singleton].
    intros x Hx ->%list_elem_of_singleton. done.
  - intros x. unfold GoList.Value. cbn. unfold vals. destruct (decide (x = e)) as [->|Hne]; [lia|].
    rewrite lookup_insert_ne by done. intros Hx%Hfr. unfold e in *. lia.
  - intros x [->|Hx]%Hin; unfold GoList.Value; cbn; [by rewrite Hve|]. rewrite Hval by done. by apply Hva.
  - intros k x. unfold make_uniques at 1, GoList.Value. cbn. rewrite Hin.
    destruct (decide (k = Key_ b)) as [->|Hne].
    + rewrite lookup_insert_eq. split.
      * intros [= <-]. split; [by left|]. by exists b.
      * intros [[->|Hx] (b' & Hv & Hkb)]; [done|]. rewrite Hval in Hv by done.
        assert (make_uniques s !! Key_ b = Some x) by (apply Hun; split; [done|by exists b']). congruence.
    + rewrite lookup_insert_ne by done. rewrite Hun. split.
      * intros (Hx & b' & Hv & Hkb). split; [by right|]. exists b'. by rewrite Hval.
      * intros [[->|Hx] (b' & Hv & Hkb)]; [rewrite Hve in Hv; congruence|].
        rewrite Hval in Hv by done. split; [done|by exists b'].
Qed.

Lemma same_uniques_wf s : bl_wf s ->
  bl_wf (mkBlockList (list_ s) (Some (make_uniques s))) /\ queue (mkBlockList (list_ s) (Some (make_uniques s))) = queue s.
Proof. intros [Hnd Hfr Hva Hun]. by split. Qed.

Lemma Push_wf s b :
  bl_wf s -> bl_wf (Push b s)
  /\ queue (Push b s) = if decide (Key_ b ∈ map Key_ (queue s)) then queue s else queue s ++ [b].
Proof.
  intros Hwf. pose proof (uniques_queue s Hwf (Key_ b)) as Hu. unfold Push.
  destruct (make_uniques s !! Key_ b) as [e|] eqn:Hk.
  - rewrite decide_True by (apply Hu; by eexists). by apply same_uniques_wf.
  - rewrite decide_False by (rewrite <- Hu; by intros [? ?]). cbn [GoList.PushBack].
    destruct (push_wf s b _ Hwf Hk (or_intror eq_refl)) as (Hw & Hv & Hq). split; [exact Hw|].
    unfold queue at 1. cbn [list_ GoList.ids]. unfold GoList.Value. cbn [GoList.Values].
    by rewrite omap_app, Hq, omap_cons, Hv.
Qed.

Lemma PushFront_wf s b :
  bl_wf s -> bl_wf (PushFront b s)
  /\ queue (PushFront b s) = if decide (Key_ b ∈ map Key_ (queue s)) then queue s else b :: queue s.
Proof.
  intros Hwf. pose proof (uniques_queue s Hwf (Key_ b)) as Hu. unfold PushFront.
  destruct (make_uniques s !! Key_ b) as [e|] eqn:Hk.
  - rewrite decide_True by (apply Hu; by eexists). by apply same_uniques_wf.
  - rewrite decide_False by (rewrite <- Hu; by intros [? ?]). cbn [GoList.PushFront].
    destruct (push_wf s b _ Hwf Hk (or_introl eq_refl)) as (Hw & Hv & Hq). split; [exact Hw|].
    unfold queue at 1. cbn [list_ GoList.ids]. unfold GoList.Value. cbn [GoList.Values].
    by rewrite omap_cons, Hv, Hq.
Qed.

Lemma Pop_wf s :
  bl_wf s ->
  match queue s with
  | [] => Pop s = (Ok None, s)
  | b :: q => exists s', Pop s = (Ok (Some b), s') /\ bl_wf s' /\ queue s' = q
  end.
Proof.
  intros Hwf. pose proof Hwf as [Hnd Hfr Hva Hun]. pose proof (queue_length s Hwf) as Hlen.
  unfold Pop, Len, GoList.Len, GoList.Front, queue in *.
  destruct (GoList.ids (list_ s)) as [|e es] eqn:Hids; [done|].
  destruct (Hva e ltac:(by left)) as [b Hb]. rewrite omap_cons, Hb. cbn [length Nat.eqb head].
  assert (Hrem : filter (fun x => x <> e) (e :: es) = es).
  { rewrite filter_cons, decide_False by tauto. apply filter_all. intros x Hx ->.
    by apply NoDup_cons in Hnd as [? _]. }
  change (GoList.Value e (GoList.Remove e (list_ s))) with (GoList.Value e (list_ s)). rewrite Hb.
  eexists. split; [reflexivity|]. apply NoDup_cons in Hnd as [Hnin Hnd].
  unfold GoList.Remove. rewrite Hids, Hrem. split; [split; cbn|].
  - done.
  - exact Hfr.
  - intros x Hx. apply Hva. by right.
  - intros k x. assert (Hdel : default ∅ (delete (Key_ b) <$> uniques s) = delete (Key_ b) (make_uniques s)).
    { unfold make_uniques. destruct (uniques s); [done|]. cbn. by rewrite delete_empty. }
    match goal with |- ?l !! k = Some x <-> _ =>
      change l with (default ∅ (delete (Key_ b) <$> uniques s)) end.
    rewrite Hdel, lookup_delete_Some, Hun, elem_of_cons. unfold GoList.Value. cbn. split.
    + intros (Hne & [->|Hx] & b' & Hv & Hkb); [|by split; [|by exists b']].
      exfalso. unfold GoList.Value in Hb. congruence.
    + intros (Hx & b' & Hv & Hkb). split_and!; [|by right|by exists b'].
      intros <-. apply Hnin.
      assert (make_uniques s !! Key_ b = Some e) by (apply Hun; split; [by left|by exists b]).
      assert (make_uniques s !! Key_ b = Some x) by (apply Hun; split; [by right|by exists b']).
      by simplify_eq.
  - done.
Qed.

(** ** Sequences of calls *)
Inductive bl_op := QPush (b : Block) | QPushFront (b : Block) | QPop.

Definition bl_step (o : bl_op) (s : BlockList) : res (option Block) * BlockList :=
  match o with
  | QPush b => (Ok None, Push b s)
  | QPushFront b => (Ok None, PushFront b s)
  | QPop => Pop s
  end.
Fixpoint bl_run (l : list bl_op) (s : BlockList) : list (res (option Block)) * BlockList :=
  match l with
  | [] => ([], s)
  | o :: l => let '(r, s) := bl_step o s in let '(rs, s) := bl_run l s in (r :: rs, s)
  end.

(** The specification: a queue that refuses a key it holds. *)
Definition q_step (o : bl_op) (q : list Block) : option Block * list Block :=
  match o with
  | QPush b => (None, if decide (Key_ b ∈ map Key_ q) then q else q ++ [b])
  | QPushFront b => (None, if decide (Key_ b ∈ map Key_ q) then q else b :: q)
  | QPop => (head q, tail q)
  end.
Fixpoint q_run (l : list bl_op) (q : list Block) : list (option Block) * list Block :=
  match l with
  | [] => ([], q)
  | o :: l => let '(r, q) := q_step o q in let '(rs, q) := q_run l q in (r :: rs, q)
  end.

Lemma bl_step_spec o s :
  bl_wf s ->
  let '(r, q) := q_step o (queue s) in
  exists s', bl_step o s = (Ok r, s') /\ bl_wf s' /\ queue s' = q.
Proof.
  intros Hwf. destruct o as [b|b|]; cbn [q_step bl_step].
  - destruct (Push_wf s b Hwf) as [Hw Hq]. by eexists.
  - destruct (PushFront_wf s b Hwf) as [Hw Hq]. by eexists.
  - pose proof (Pop_wf s Hwf) as Hp. destruct (queue s) as [|b q] eqn:Hq; [|exact Hp].
    by exists s.
Qed.

(** The worker's queue refines a first-in first-out queue without duplicates:
    every sequence of Push, PushFront and Pop calls on a zero [BlockList] returns
    what the plain queue returns, never panics, and never holds a key twice. *)
Theorem BlockList_fifo l :
  let '(rs, q) := q_run l [] in
  exists s, bl_run l zero = (map Ok rs, s) /\ queue s = q /\ Len s = length q
    /\ NoDup (map Key_ q).
Proof.
  assert (H : forall s, bl_wf s -> let '(rs, q) := q_run l (queue s) in
    exists s', bl_run l s = (map Ok rs, s') /\ bl_wf s' /\ queue s' = q).
  { induction l as [|o l IH]; intros s Hwf; [by exists s|]. cbn [q_run bl_run].
    pose proof (bl_step_spec o s Hwf) as Ho. destruct (q_step o (queue s)) as [r q].
    destruct Ho as (s1 & -> & Hwf1 & <-). specialize (IH s1 Hwf1).
    destruct (q_run l (queue s1)) as [rs q2]. destruct IH as (s2 & -> & Hwf2 & Hq2).
    by exists s2. }
  destruct zero_wf as [Hz Hq]. specialize (H zero Hz). rewrite Hq in H.
  destruct (q_run l []) as [rs q]. destruct H as (s & Hr & Hwf & <-). exists s.
  split_and!; [done..|by rewrite queue_length|by apply queue_keys_nodup].
Qed.
