(* ===== verification/Blockstore.v ===== *)
(** * The blockstore

    Models [blockstore/blockstore.go]: blocks kept in a datastore under the
    namespace [/blocks], keyed by their multihash. [Blockstore] is the interface,
    [BlockstoreSpec] what a correct one promises to its clients. *)

From S2P Require Import Prelude Multihash DsKey Query Datastore Namespace BlockKey Blocks.

Definition BlockPrefix : DsKey.Key := NewKey (str "blocks").

(** ** The interface

    A channel is the list of what it delivers until it is closed. [ctx] is a run
    of the context: at each [select] on [ctx.Done()] in turn, whether that branch
    is taken. *)
Class Blockstore (B : Type) := {
  bs_DeleteBlock : Key -> B -> res unit * B;
  bs_Has : Key -> B -> res bool * B;
  bs_Get : Key -> B -> res Block * B;
  bs_Put : Block -> B -> res unit * B;
  bs_GetChan : list Key -> B -> res (list Block) * B;
  bs_AllKeysChan : list bool -> B -> res (list Key) * B;
}.

(** The promise: a partial map from keys to block data. [Put] keeps what is
    already stored under the key. The keys are the path-safe ones. *)
Class BlockstoreSpec (B : Type) `{Blockstore B} (Debug : bool) := {
  bs_wf : B -> Prop;
  bs_view : B -> Key -> option bytes;
  bs_Get_spec s k : bs_wf s -> path_safe k ->
    exists s', bs_Get k s
        = (match bs_view s k with
           | Some d => NewBlockWithHash Debug d k
           | None => Err BsErrNotFound
           end, s')
      /\ bs_wf s' /\ forall k', path_safe k' -> bs_view s' k' = bs_view s k';
  bs_Has_spec s k : bs_wf s -> path_safe k ->
    exists s', bs_Has k s = (Ok (bool_decide (is_Some (bs_view s k))), s')
      /\ bs_wf s' /\ forall k', path_safe k' -> bs_view s' k' = bs_view s k';
  bs_Put_spec s b : bs_wf s -> path_safe (Key_ b) ->
    exists s', bs_Put b s = (Ok tt, s') /\ bs_wf s'
      /\ forall k', path_safe k' ->
           bs_view s' k' = if decide (k' = Key_ b) then Some (default (Data b) (bs_view s k'))
                           else bs_view s k';
  bs_DeleteBlock_spec s k : bs_wf s -> path_safe k ->
    exists s', bs_DeleteBlock k s
        = (if bs_view s k is Some _ then Ok tt else Err DsErrNotFound, s')
      /\ bs_wf s'
      /\ forall k', path_safe k' ->
           bs_view s' k' = if decide (k' = k) then None else bs_view s k';
}.

(** ** blockstore.go *)
Section Blockstore.
Context (Debug : bool).

Record blockstore (D : Type) := mkBs { datastore : D }.
Arguments mkBs {D} _.
Arguments datastore {D} _.

(** [dsns.Wrap(d, BlockPrefix)], which panics on nil. *)
Definition NewBlockstore {S} `{Datastore S} (d : option S) : res (blockstore (Namespace.datastore S)) :=
  dd ← Namespace.Wrap d BlockPrefix; Ok (mkBs dd).

Context {D : Type} `{Datastore D}.

Definition Get (k : Key) (bs : blockstore D) : res Block * blockstore D :=
  let '(r, d) := ds_Get (DsKey k) (datastore bs) in
  (match r with
   | Err err => if decide (err = DsErrNotFound) then Err BsErrNotFound else Err err
   | Panic => Panic
   | Ok maybeData =>
       match maybeData with
       | VBytes bdata => NewBlockWithHash Debug bdata k
       | _ => Err ValueTypeMismatch
       end
   end, mkBs d).

(** The goroutine of [GetChan]: a block that [Get] fails on is skipped. *)
Fixpoint GetChan (ks : list Key) (bs : blockstore D) : res (list Block) * blockstore D :=
  match ks with
  | [] => (Ok [], bs)
  | k :: ks =>
      match Get k bs with
      | (Ok b, bs) => let '(out, bs) := GetChan ks bs in (out ← out; Ok (b :: out), bs)
      | (Err _, bs) => GetChan ks bs
      | (Panic, bs) => (Panic, bs)
      end
  end.

Definition Put (block : Block) (bs : blockstore D) : res unit * blockstore D :=
  let k := DsKey (Key_ block) in
  match ds_Has k (datastore bs) with
  | (Panic, d) => (Panic, mkBs d)
  | (Ok true, d) => (Ok tt, mkBs d)
  | (_, d) => let '(r, d) := ds_Put k (VBytes (Data block)) d in (r, mkBs d)
  end.

Definition Has (k : Key) (bs : blockstore D) : res bool * blockstore D :=
  let '(r, d) := ds_Has (DsKey k) (datastore bs) in (r, mkBs d).

Definition DeleteBlock (k : Key) (bs : blockstore D) : res unit * blockstore D :=
  let '(r, d) := ds_Delete (DsKey k) (datastore bs) in (r, mkBs d).

(** The body of [get] for one result, when [Done] is not taken: [None] when
    there is nothing more ([ok] is false), [Some []] for a key to ignore. *)
Definition get (e : Result) : res (option Key) :=
  if has_error e then Ok None
  else
    k ← KeyFromDsKey (NewKey (e_Key (r_Entry e)));
    match Cast k with
    | Ok _ => Ok (Some k)
    | Err _ => Ok (Some [])
    | Panic => Panic
    end.

(** The goroutine of [AllKeysChan]. *)
Fixpoint AllKeys_loop (done : list bool) (rs : Results) : res (list Key) :=
  match done with
  | true :: _ => Ok []
  | _ =>
      match rs with
      | [] => Ok []
      | e :: rs =>
          ok ← get e;
          match ok with
          | None => Ok []
          | Some k =>
              if decide (k = []) then AllKeys_loop (tail done) rs
              else match tail done with
                   | true :: _ => Ok []
                   | _ => out ← AllKeys_loop (tail (tail done)) rs; Ok (k :: out)
                   end
          end
      end
  end.

Definition AllKeysChan (done : list bool) (bs : blockstore D) : res (list Key) * blockstore D :=
  let q := mkQuery (DsKey.String_ BlockPrefix) [] [] 0 0 true in
  let '(r, d) := ds_Query q (datastore bs) in
  (rs ← r; AllKeys_loop done rs, mkBs d).

#[export] Instance blockstore_Blockstore : Blockstore (blockstore D) := {|
  bs_DeleteBlock := DeleteBlock; bs_Has := Has; bs_Get := Get; bs_Put := Put;
  bs_GetChan := GetChan; bs_AllKeysChan := AllKeysChan |}.
End Blockstore.
Arguments mkBs {D} _.
Arguments datastore {D} _.

(** ** Over a correct datastore it is a correct blockstore *)
Section Spec.
Context (Debug : bool) {D : Type} `{ByteStoreSpec D}.

Definition blocks_wf (bs : blockstore D) : Prop := bt_wf (datastore bs).
Definition data_of (v : value) : bytes := match v with VBytes b => b | _ => [] end.
Definition blocks_view (bs : blockstore D) (k : Key) : option bytes :=
  data_of <$> bt_view (datastore bs) (DsKey k).

Lemma view_same d d' k :
  same_view bt_view d d' -> blocks_view (mkBs d') k = blocks_view (mkBs d) k.
Proof. intros Hs. unfold blocks_view. simpl. by rewrite Hs by apply DsKey_clean. Qed.

Lemma view_put d d' k o :
  put_view bt_view (DsKey k) o d d' -> path_safe k ->
  forall k', path_safe k' ->
    blocks_view (mkBs d') k' = if decide (k' = k) then data_of <$> o else blocks_view (mkBs d) k'.
Proof.
  intros Hp Hk k' Hk'. unfold blocks_view. simpl. rewrite Hp by apply DsKey_clean.
  destruct (decide (k' = k)) as [->|Hne]; [by rewrite decide_True|].
  rewrite decide_False; [done|]. intros Heq. by apply Hne, DsKey_inj.
Qed.

#[export] Program Instance blockstore_Spec :
  @BlockstoreSpec (blockstore D) (blockstore_Blockstore Debug) Debug := {|
  bs_wf := blocks_wf; bs_view := blocks_view |}.
Next Obligation.
  intros [d] k Hwf Hk. destruct (bt_Get_spec d (DsKey k) Hwf (DsKey_clean k)) as (d' & Hg & Hwf' & Hs).
  exists (mkBs d'). simpl. unfold Get, blocks_view, blocks_wf. simpl. rewrite Hg. split_and!; [|done|].
  - f_equal. destruct (bt_view d (DsKey k)) as [v|] eqn:Hv; simpl; [|done].
    by destruct (bt_bytes d _ _ Hwf (DsKey_clean k) Hv) as [b ->].
  - intros k' _. by apply view_same.
Qed.
Next Obligation.
  intros [d] k Hwf Hk. destruct (bt_Has_spec d (DsKey k) Hwf (DsKey_clean k)) as (d' & Hg & Hwf' & Hs).
  exists (mkBs d'). simpl. unfold Has, blocks_view, blocks_wf. simpl. rewrite Hg. split_and!; [|done|].
  - by destruct (bt_view d (DsKey k)).
  - intros k' _. by apply view_same.
Qed.
Next Obligation.
  intros [d] b Hwf Hk.
  destruct (bt_Has_spec d (DsKey (Key_ b)) Hwf (DsKey_clean _)) as (d' & Hg & Hwf' & Hs).
  simpl. unfold Put, blocks_wf. simpl. rewrite Hg.
  assert (Hv : blocks_view (mkBs d) (Key_ b) = data_of <$> bt_view d (DsKey (Key_ b))) by done.
  destruct (bt_view d (DsKey (Key_ b))) as [v|]; simpl in *.
  - exists (mkBs d'). split_and!; [done..|].
    intros k' _. rewrite (view_same d d' k') by done.
    destruct (decide (k' = Key_ b)) as [->|]; [|done]. by rewrite Hv.
  - destruct (bt_Put_spec d' (DsKey (Key_ b)) (Data b) Hwf' (DsKey_clean _)) as (d'' & Hp & Hwf'' & HP).
    exists (mkBs d''). rewrite Hp. split_and!; [done..|].
    intros k' Hk'. rewrite (view_put d' d'' (Key_ b) _ HP Hk k' Hk').
    destruct (decide (k' = Key_ b)) as [->|]; [by rewrite Hv|by apply view_same].
Qed.
Next Obligation.
  intros [d] k Hwf Hk. destruct (bt_Delete_spec d (DsKey k) Hwf (DsKey_clean k)) as (d' & Hg & Hwf' & HP).
  exists (mkBs d'). simpl. unfold DeleteBlock, blocks_view, blocks_wf. simpl. rewrite Hg. split_and!; [|done|].
  - by destruct (bt_view d (DsKey k)).
  - intros k' Hk'. by apply (view_put d d' k None).
Qed.
End Spec.

(** ** What the blocks read back are *)
Inductive bs_op :=
  | BPut (b : Block)
  | BGet (k : Key)
  | BHas (k : Key)
  | BDeleteBlock (k : Key).

Definition bs_op_key (o : bs_op) : Key :=
  match o with BPut b => Key_ b | BGet k | BHas k | BDeleteBlock k => k end.

(** The block a call returns, if it returns one. *)
Definition bs_step {B} `{Blockstore B} (o : bs_op) (s : B) : option (res Block) * B :=
  match o with
  | BPut b => (None, (bs_Put b s).2)
  | BGet k => let '(r, s) := bs_Get k s in (Some r, s)
  | BHas k => (None, (bs_Has k s).2)
  | BDeleteBlock k => (None, (bs_DeleteBlock k s).2)
  end.
Fixpoint bs_run {B} `{Blockstore B} (l : list bs_op) (s : B) : list (option (res Block)) * B :=
  match l with
  | [] => ([], s)
  | o :: l =>
      let '(r, s) := bs_step o s in let '(rs, s) := bs_run l s in (r :: rs, s)
  end.

(** A block under the hash of its data. *)
Definition genuine (b : Block) : Prop := NewBlock (Data b) = Ok b.

Section Integrity.
Context {B : Type} {Debug : bool} `{BlockstoreSpec B Debug}.

(** Everything stored is under the hash of its data. *)
Definition honest (s : B) : Prop :=
  bs_wf s /\ forall k d, path_safe k -> bs_view s k = Some d -> genuine (mkBlock k d).

Lemma genuine_check k d : genuine (mkBlock k d) -> NewBlockWithHash Debug d k = Ok (mkBlock k d).
Proof.
  unfold genuine. rewrite NewBlock_Ok. intros [= <-].
  unfold NewBlockWithHash. destruct Debug; [|done]. rewrite Hash_Ok. cbn [mbind res_bind Data].
  by rewrite decide_True.
Qed.

Definition good_op (o : bs_op) : Prop :=
  path_safe (bs_op_key o) /\ match o with BPut b => genuine b | _ => True end.

(** What a call may return. *)
Definition good_out (s : B) (o : bs_op) (r : option (res Block)) : Prop :=
  match o with
  | BGet k => r = Some (match bs_view s k with
                        | Some d => Ok (mkBlock k d) | None => Err BsErrNotFound end)
  | _ => r = None
  end.

Lemma bs_step_honest o s :
  honest s -> good_op o -> honest (bs_step o s).2 /\ good_out s o (bs_step o s).1.
Proof.
  intros [Hwf Hh] [Hk Ho]. destruct o as [b|k|k|k]; simpl in *.
  - destruct (bs_Put_spec s b Hwf Hk) as (s' & -> & Hwf' & Hv). split; [|done]. split; [done|].
    intros k d Hsafe. simpl. rewrite Hv by done. destruct (decide (k = Key_ b)) as [->|]; [|by apply Hh].
    destruct (bs_view s (Key_ b)) as [d'|] eqn:Hd; intros [= <-]; [by apply Hh|by destruct b].
  - destruct (bs_Get_spec s k Hwf Hk) as (s' & -> & Hwf' & Hv). simpl. split.
    + split; [done|]. intros k' d Hsafe. rewrite Hv by done. by apply Hh.
    + destruct (bs_view s k) as [d|] eqn:Hd; [|done]. by rewrite (genuine_check k d (Hh k d Hk Hd)).
  - destruct (bs_Has_spec s k Hwf Hk) as (s' & -> & Hwf' & Hv). split; [|done]. split; [done|].
    intros k' d Hsafe. simpl. rewrite Hv by done. by apply Hh.
  - destruct (bs_DeleteBlock_spec s k Hwf Hk) as (s' & -> & Hwf' & Hv). split; [|done]. split; [done|].
    intros k' d Hsafe. simpl. rewrite Hv by done. destruct (decide (k' = k)); [done|]. by apply Hh.
Qed.

Lemma bs_run_honest l s :
  honest s -> Forall good_op l ->
  honest (bs_run l s).2
  /\ Forall2 (fun o r => forall k, o = BGet k ->
       r = Some (Err BsErrNotFound)
       \/ exists b, r = Some (Ok b) /\ genuine b /\ Key_ b = k) l (bs_run l s).1.
Proof.
  intros Hs Hl. revert s Hs. induction Hl as [|o l Ho Hl IH]; intros s Hs; [by split; [|constructor]|].
  destruct (bs_step_honest o s Hs Ho) as [Hs' Hr]. simpl. destruct (bs_step o s) as [r s']. simpl in *.
  destruct (IH s' Hs') as [Hs'' Hrs]. destruct (bs_run l s') as [rs s'']. split; [done|].
  constructor; [|done]. intros k ->. simpl in Hr. destruct Ho as [Hk _]. subst r.
  destruct (bs_view s k) as [d|] eqn:Hd; [|by left]. right. exists (mkBlock k d).
  split_and!; [done|by apply Hs|done].
Qed.
End Integrity.

(** C6. Integrity, for every blockstore that satisfies the interface: when only
    blocks under the hash of their data are put, then after any sequence of calls
    on path-safe keys every [Get] returns either [ErrNotFound] or the block
    with the wanted key whose data has that hash, in debug mode or not. *)
Theorem Blockstore_integrity {B Debug} `{BlockstoreSpec B Debug} l (s : B) :
  honest s -> Forall good_op l ->
  Forall2 (fun o r => forall k, o = BGet k ->
    r = Some (Err BsErrNotFound)
    \/ exists b, r = Some (Ok b) /\ genuine b /\ Key_ b = k) l (bs_run l s).1.
Proof. intros Hs Hl. by apply bs_run_honest. Qed.


(** ** Two correct blockstores cannot be told apart *)

(** The whole result of a call. *)
Definition bs_result {B} `{Blockstore B} (o : bs_op) (s : B) :
    (res unit + res Block + res bool) * B :=
  match o with
  | BPut b => let '(r, s) := bs_Put b s in (inl (inl r), s)
  | BGet k => let '(r, s) := bs_Get k s in (inl (inr r), s)
  | BHas k => let '(r, s) := bs_Has k s in (inr r, s)
  | BDeleteBlock k => let '(r, s) := bs_DeleteBlock k s in (inl (inl r), s)
  end.
Fixpoint bs_results {B} `{Blockstore B} (l : list bs_op) (s : B) :
    list (res unit + res Block + res bool) * B :=
  match l with
  | [] => ([], s)
  | o :: l => let '(r, s) := bs_result o s in let '(rs, s) := bs_results l s in (r :: rs, s)
  end.

Section Agree.
Context {B1 B2 : Type} {Debug : bool} `{BlockstoreSpec B1 Debug}.
Context `{H2 : Blockstore B2} `{!BlockstoreSpec B2 Debug}.

Definition bs_agree (s1 : B1) (s2 : B2) : Prop :=
  bs_wf s1 /\ bs_wf s2 /\ forall k, path_safe k -> bs_view s1 k = bs_view s2 k.

Lemma bs_result_agree o s1 s2 :
  path_safe (bs_op_key o) -> bs_agree s1 s2 ->
  (bs_result o s1).1 = (bs_result o s2).1 /\ bs_agree (bs_result o s1).2 (bs_result o s2).2.
Proof.
  intros Hk (Hw1 & Hw2 & Hv). pose proof (Hv _ Hk) as Hvk. unfold bs_agree.
  destruct o as [b|k|k|k]; simpl in Hk, Hvk |- *.
  - destruct (bs_Put_spec s1 b Hw1 Hk) as (s1' & -> & Hw1' & Hv1).
    destruct (bs_Put_spec s2 b Hw2 Hk) as (s2' & -> & Hw2' & Hv2). split_and!; [done..|].
    intros k Hsafe. simpl. by rewrite Hv1, Hv2, Hv.
  - destruct (bs_Get_spec s1 k Hw1 Hk) as (s1' & -> & Hw1' & Hv1).
    destruct (bs_Get_spec s2 k Hw2 Hk) as (s2' & -> & Hw2' & Hv2). rewrite Hvk.
    split_and!; [done..|]. intros k' Hsafe. simpl. by rewrite Hv1, Hv2, Hv.
  - destruct (bs_Has_spec s1 k Hw1 Hk) as (s1' & -> & Hw1' & Hv1).
    destruct (bs_Has_spec s2 k Hw2 Hk) as (s2' & -> & Hw2' & Hv2). rewrite Hvk.
    split_and!; [done..|]. intros k' Hsafe. simpl. by rewrite Hv1, Hv2, Hv.
  - destruct (bs_DeleteBlock_spec s1 k Hw1 Hk) as (s1' & -> & Hw1' & Hv1).
    destruct (bs_DeleteBlock_spec s2 k Hw2 Hk) as (s2' & -> & Hw2' & Hv2). rewrite Hvk.
    split_and!; [done..|]. intros k' Hsafe. simpl. by rewrite Hv1, Hv2, Hv.
Qed.

Lemma bs_results_agree l s1 s2 :
  Forall (fun o => path_safe (bs_op_key o)) l -> bs_agree s1 s2 ->
  (bs_results l s1).1 = (bs_results l s2).1 /\ bs_agree (bs_results l s1).2 (bs_results l s2).2.
Proof.
  intros Hl. revert s1 s2. induction Hl as [|o l Ho Hl IH]; intros s1 s2 Hag; [done|]. simpl.
  destruct (bs_result_agree o s1 s2 Ho Hag) as [Hr Hag'].
  destruct (bs_result o s1) as [r1 s1'], (bs_result o s2) as [r2 s2']. simpl in *. subst r2.
  destruct (IH s1' s2' Hag') as [Hrs Hag''].
  destruct (bs_results l s1') as [rs1 s1''], (bs_results l s2') as [rs2 s2'']. simpl in *. by subst.
Qed.
End Agree.

(** ** The blockstore that [NewBlockstore] makes *)

(** The store a new blockstore works on. *)
Definition over_store {S} `{Datastore S} (s : S) : blockstore (Namespace.datastore S) :=
  mkBs (ns BlockPrefix s).

Lemma NewBlockstore_over {S} `{Datastore S} (s : S) : NewBlockstore (Some s) = Ok (over_store s).
Proof. done. Qed.

Lemma over_store_wf {S} `{DatastoreSpec S} (s : S) :
  ds_wf s -> (forall k v, clean k -> ds_view s (Child BlockPrefix k) = Some v -> exists b, v = VBytes b) ->
  blocks_wf (over_store s).
Proof. intros Hwf Hb. split; [by apply ns_ns_wf, NewKey_clean|done]. Qed.

Definition empty_store : MapDatastore.MapDatastore := MapDatastore.NewMapDatastore.
Lemma empty_honest Debug `{!GoRange DsKey.Key} :
  @honest _ Debug _ (blockstore_Spec Debug) (over_store empty_store).
Proof. split; [|done]. apply over_store_wf; [apply MapDatastore.New_wf|done]. Qed.

Definition abc : Block := mkBlock (sha256_mh (str "abc")) (str "abc").
Lemma abc_genuine : genuine abc.
Proof. unfold genuine, abc. cbn [Data]. apply NewBlock_Ok. Qed.
Lemma abc_safe : path_safe (Key_ abc).
Proof. decide_compute. Qed.

Lemma Blockstore_integrity_witness :
  let R := elements_range DsKey.Key in
  let l := [BPut abc; BGet (Key_ abc)] in
  Forall2 (fun o r => forall k, o = BGet k ->
    r = Some (Err BsErrNotFound)
    \/ exists b, r = Some (Ok b) /\ genuine b /\ Key_ b = k) l
    (@bs_run _ (blockstore_Blockstore true) l (over_store empty_store)).1.
Proof.
  intros R l. apply (@Blockstore_integrity _ true _ (blockstore_Spec true)).
  - apply empty_honest.
  - constructor; [exact (conj abc_safe abc_genuine)|].
    constructor; [exact (conj abc_safe I)|constructor].
Defined.


(** [GetChan] delivers, in the order they are asked for, the blocks of the
    keys that are stored, and skips the others; without debug mode it is exactly
    what [Get] finds. *)
Theorem GetChan_delivers {D} `{DatastoreSpec D} ks (bs : blockstore D) :
  blocks_wf bs -> Forall path_safe ks ->
  exists bs', GetChan false ks bs
      = (Ok (omap (fun k => mkBlock k <$> blocks_view bs k) ks), bs')
    /\ forall k, path_safe k -> blocks_view bs' k = blocks_view bs k.
Proof.
  intros Hwf Hks. revert bs Hwf. induction Hks as [|k ks Hk Hks IH]; intros bs Hwf; [by exists bs|].
  destruct (@bs_Get_spec _ _ false (blockstore_Spec false) bs k Hwf Hk) as (bs1 & Hg & Hwf1 & Hv1).
  change (Get false k bs = (match blocks_view bs k with
    | Some d => NewBlockWithHash false d k | None => Err BsErrNotFound end, bs1)) in Hg.
  change (forall k', path_safe k' -> blocks_view bs1 k' = blocks_view bs k') in Hv1.
  destruct (IH bs1 Hwf1) as (bs2 & Hgc & Hv2). exists bs2.
  assert (Hext : omap (fun k => mkBlock k <$> blocks_view bs1 k) ks
                 = omap (fun k => mkBlock k <$> blocks_view bs k) ks).
  { apply omap_ext_in. intros x Hx. f_equal. apply Hv1. by apply (proj1 (Forall_forall _ _) Hks). }
  split; [|intros k' Hk'; by rewrite Hv2, Hv1].
  cbn [GetChan]. rewrite Hg, omap_cons. destruct (blocks_view bs k) as [d|]; simpl;
    by rewrite Hgc, Hext.
Qed.

Lemma GetChan_delivers_witness :
  let R := elements_range DsKey.Key in
  exists bs', GetChan false [Key_ abc] (over_store empty_store) = (Ok [], bs').
Proof.
  intros R. destruct (GetChan_delivers [Key_ abc] (over_store empty_store)) as (bs' & H & _).
  - apply (empty_honest false).
  - constructor; [exact abc_safe|constructor].
  - exists bs'. exact H.
Defined.

(** *** AllKeysChan *)

(** The key that the goroutine sends for an entry. *)
Definition entry_key (e : Entry) : option Key :=
  let k := Join (resolve (e_Key e)) slash in
  if Cast k is Ok _ then Some k else None.

Lemma get_entry e :
  get (entry_result e) = Ok (Some (default [] (entry_key e))).
Proof.
  unfold get, entry_key. cbn [has_error entry_result r_Error r_Entry].
  rewrite NewKey_resolve, KeyFromDsKey_key_of. cbn [mbind res_bind].
  destruct (Cast_total (Join (resolve (e_Key e)) slash)) as [->|[err ->]]; done.
Qed.

Lemma entry_key_nonnil e k : entry_key e = Some k -> k <> [] /\ Cast k = Ok k.
Proof.
  unfold entry_key. destruct (Cast_total (Join (resolve (e_Key e)) slash)) as [Hc|[err Hc]];
    rewrite Hc; [|done]. intros [= <-]. split; [by intros Hn; rewrite Hn in Hc|done].
Qed.

Lemma AllKeys_loop_step done_ e es :
  head done_ <> Some true ->
  AllKeys_loop done_ (map entry_result (e :: es))
  = match entry_key e with
    | None => AllKeys_loop (tail done_) (map entry_result es)
    | Some k => if decide (head (tail done_) = Some true) then Ok []
                else out ← AllKeys_loop (tail (tail done_)) (map entry_result es); Ok (k :: out)
    end.
Proof.
  intros Hd. cbn [map AllKeys_loop]. rewrite get_entry. cbn [mbind res_bind].
  destruct done_ as [|[|] done_]; [|done|];
    (destruct (entry_key e) as [k|] eqn:Hk;
      [apply entry_key_nonnil in Hk as [Hk _]; simpl; rewrite decide_False by done|done]).
  - done.
  - by destruct done_ as [|[|] done_].
Qed.

Lemma AllKeys_loop_all es : AllKeys_loop [] (map entry_result es) = Ok (omap entry_key es).
Proof.
  induction es as [|e es IH]; [done|]. rewrite AllKeys_loop_step, omap_cons by done. simpl tail.
  rewrite IH. by destruct (entry_key e).
Qed.

Lemma AllKeys_loop_prefix done_ es :
  exists ks, AllKeys_loop done_ (map entry_result es) = Ok ks /\ ks `prefix_of` omap entry_key es.
Proof.
  revert done_. induction es as [|e es IH]; intros done_.
  { exists []. split; [by destruct done_ as [|[|] ?]|apply prefix_nil]. }
  destruct (decide (head done_ = Some true)) as [Hd|Hd].
  { exists []. split; [by destruct done_ as [|[|] ?]|apply prefix_nil]. }
  rewrite AllKeys_loop_step, omap_cons by done. destruct (entry_key e) as [k|]; [|apply IH].
  destruct (decide (head (tail done_) = Some true)).
  { exists []. split; [done|apply prefix_nil]. }
  destruct (IH (tail (tail done_))) as (ks & -> & Hp). exists (k :: ks). split; [done|].
  by apply prefix_cons.
Qed.

Lemma entry_key_DsKey k v :
  path_safe k -> Cast k = Ok k -> entry_key (mkEntry (key_string (DsKey k)) v) = Some k.
Proof.
  intros (es & Hes & ->)%path_safe_es Hc. unfold entry_key, DsKey. cbn [e_Key].
  by rewrite NewKey_Join, resolve_key_of, Hc.
Qed.

Lemma entry_key_inv e k dk :
  clean dk -> e_Key e = key_string dk -> entry_key e = Some k -> path_safe k /\ dk = DsKey k.
Proof.
  intros (es & Hes & ->)%clean_key_of He Hk. unfold entry_key in Hk.
  rewrite He, resolve_key_of in Hk by done.
  destruct (Cast_total (Join es slash)) as [Hc|[err Hc]]; rewrite Hc in Hk; [|done].
  injection Hk as <-. split; [apply path_safe_es; by exists es|]. unfold DsKey. by rewrite NewKey_Join.
Qed.

(** The keys sent for a listing: the multihashes stored, each once. *)
Lemma entry_keys_list (view : DsKey.Key -> option value) keysOnly es :
  lists_view (below_root view) [] keysOnly es ->
  NoDup (omap entry_key es)
  /\ forall k, k ∈ omap entry_key es <-> path_safe k /\ Cast k = Ok k /\ is_Some (view (DsKey k)).
Proof.
  intros (Hnd & Hsnd & Hcmp). split.
  - apply (NoDup_omap_by _ e_Key); [|done]. intros x y k Hx Hy Hkx Hky.
    destruct (Hsnd x Hx) as (dx & _ & Hcx & Hex & _). destruct (Hsnd y Hy) as (dy & _ & Hcy & Hey & _).
    destruct (entry_key_inv x k dx Hcx Hex Hkx) as [_ ->].
    destruct (entry_key_inv y k dy Hcy Hey Hky) as [_ ->]. congruence.
  - intros k. rewrite list_elem_of_omap. split.
    + intros (e & He & Hk). destruct (Hsnd e He) as (dk & v & Hc & Hek & Hv & _).
      destruct (entry_key_inv e k dk Hc Hek Hk) as [Hs ->]. split; [done|].
      split; [by apply (entry_key_nonnil e)|]. unfold below_root in Hv. by case_decide; [|eexists].
    + intros (Hs & Hc & v & Hv). assert (Hne : DsKey k <> NewKey []).
      { intros Heq. pose proof (proj1 (DsKey_safe k) Hs) as Hd. rewrite Heq in Hd.
        injection Hd as Hd. by destruct k. }
      assert (Hin : key_string (DsKey k) ∈ map e_Key es).
      { apply (Hcmp (DsKey k) v (DsKey_clean k)); [|done]. unfold below_root. by rewrite decide_False. }
      apply list_elem_of_fmap in Hin as ([ek ev] & Hek & Hin). simpl in Hek. subst ek.
      eexists. split; [exact Hin|]. by apply entry_key_DsKey.
Qed.

(** C29. [AllKeysChan] of a blockstore made by [NewBlockstore], read to its end,
    delivers exactly the stored keys that are multihashes and path-safe, each
    once, provided that no key of the store outside the namespace starts like it;
    and a context that is cancelled at any point cuts this list short, nothing
    else. *)
Theorem AllKeysChan_lists {S} `{QuerySpec S} (s : S) done_ :
  ds_wf s -> no_siblings BlockPrefix s ->
  exists all some s',
    AllKeysChan [] (over_store s) = (Ok all, over_store s')
    /\ AllKeysChan done_ (over_store s) = (Ok some, over_store s')
    /\ NoDup all
    /\ (forall k, k ∈ all <->
          path_safe k /\ Cast k = Ok k /\ is_Some (blocks_view (over_store s) k))
    /\ some `prefix_of` all.
Proof.
  intros Hwf Hsib.
  destruct (ns_Query BlockPrefix s (DsKey.String_ BlockPrefix) true Hwf) as (es & s' & Hq & _ & _ & Hl).
  assert (Hl' : lists_view (below_root (ds_view (ns BlockPrefix s))) [] true (omap (strip BlockPrefix) es)).
  { apply (strip_lists BlockPrefix s (DsKey.String_ BlockPrefix)); [apply NewKey_clean|done..]. }
  destruct (entry_keys_list _ _ _ Hl') as [Hnd Hel].
  set (es' := omap (strip BlockPrefix) es) in *.
  destruct (AllKeys_loop_prefix done_ es') as (some & Hsome & Hpre).
  assert (Hrun : forall d, AllKeysChan d (over_store s)
    = (AllKeys_loop d (map entry_result es'), over_store s')).
  { intros d. unfold AllKeysChan. unfold prefix_query in Hq. cbn [datastore over_store].
    change (ds_Query ?q (ns BlockPrefix s)) with (Namespace.Query_ q (ns BlockPrefix s)).
    by rewrite Hq. }
  exists (omap entry_key es'), some, s'. rewrite !Hrun, AllKeys_loop_all, Hsome.
  split_and!; [done..| |done]. intros k. rewrite Hel. unfold blocks_view. cbn [datastore over_store].
  by rewrite fmap_is_Some.
Qed.

Lemma AllKeysChan_lists_witness :
  let R := elements_range DsKey.Key in
  exists all s', AllKeysChan [] (over_store empty_store) = (Ok all, over_store s') /\ NoDup all.
Proof.
  intros R. destruct (AllKeysChan_lists empty_store [false; true]) as (all & ? & s' & H1 & _ & H2 & _).
  - apply MapDatastore.New_wf.
  - intros k v _ Hv. vm_compute in Hv. done.
  - exists all, s'. exact (conj H1 H2).
Defined.

(** Two blocks under different SHA2-256 multihashes whose datastore keys
    collide: [Put] of the second reports success and stores nothing, and [Get] of
    its key returns the data of the first. *)
Theorem Put_loses_colliding_block :
  let R := elements_range DsKey.Key in
  let m (x : byte) : Key := [x12; x20; x] ++ str "/../" ++ replicate 27 x41 in
  let b1 := mkBlock (m x61) (str "one") in
  let b2 := mkBlock (m x62) (str "two") in
  let s1 := (Put b1 (over_store empty_store)).2 in
  Cast (m x61) = Ok (m x61) /\ Cast (m x62) = Ok (m x62) /\ m x61 <> m x62
  /\ Put b2 s1 = (Ok tt, s1)
  /\ (Get false (m x62) s1).1 = Ok (mkBlock (m x62) (str "one"))
  /\ (AllKeysChan [] s1).1 = Ok [].
Proof.
  intros R m b1 b2 s1.
  do 2 (split; [vm_compute; reflexivity|]). split; [done|].
  do 2 (split; [vm_compute; reflexivity|]). vm_compute. reflexivity.
Qed.
