(* ===== verification/WriteCache.v ===== *)
(** * The write cache

    Models [blockstore/write_cache.go]: a blockstore that remembers the keys it
    has put, in an LRU cache, and does not put them again. *)

From S2P Require Import Prelude GoList Multihash DsKey Datastore Namespace BlockKey Blocks Lru Blockstore.

Section WriteCache.
Context {B : Type} `{Blockstore B}.

Record writecache := mkWc { cache : Cache Key unit; inner : B }.

Definition WriteCached (bs : B) (size : Z) : res writecache :=
  c ← Lru.New size; Ok (mkWc c bs).

(** Runs the inner store after a call of the cache, which may have panicked. *)
Definition then_inner {A C : Type} (p : res A * Cache Key unit) (w : writecache)
    (f : A -> B -> res C * B) : res C * writecache :=
  let '(r, c) := p in
  match r with
  | Ok a => let '(x, s) := f a (inner w) in (x, mkWc c s)
  | Err e => (Err e, mkWc c (inner w))
  | Panic => (Panic, mkWc c (inner w))
  end.

Definition DeleteBlock (k : Key) (w : writecache) : res unit * writecache :=
  then_inner (Lru.Remove k (cache w)) w (fun _ => bs_DeleteBlock k).

Definition Has (k : Key) (w : writecache) : res bool * writecache :=
  then_inner (Lru.Get k (cache w)) w (fun ok s =>
    match ok with Some _ => (Ok true, s) | None => bs_Has k s end).

Definition Get (k : Key) (w : writecache) : res Block * writecache :=
  let '(r, s) := bs_Get k (inner w) in (r, mkWc (cache w) s).

Definition GetChan (ks : list Key) (w : writecache) : res (list Block) * writecache :=
  let '(r, s) := bs_GetChan ks (inner w) in (r, mkWc (cache w) s).

Definition Put (b : Block) (w : writecache) : res unit * writecache :=
  match Lru.Get (Key_ b) (cache w) with
  | (Ok (Some _), c) => (Ok tt, mkWc c (inner w))
  | (Ok None, c) => then_inner (Lru.Add (Key_ b) tt c) w (fun _ => bs_Put b)
  | (Err e, c) => (Err e, mkWc c (inner w))
  | (Panic, c) => (Panic, mkWc c (inner w))
  end.

Definition AllKeysChan (done : list bool) (w : writecache) : res (list Key) * writecache :=
  let '(r, s) := bs_AllKeysChan done (inner w) in (r, mkWc (cache w) s).

#[export] Instance writecache_Blockstore : Blockstore writecache := {|
  bs_DeleteBlock := DeleteBlock; bs_Has := Has; bs_Get := Get; bs_Put := Put;
  bs_GetChan := GetChan; bs_AllKeysChan := AllKeysChan |}.
End WriteCache.
Arguments writecache B : clear implicits.

(** ** What the cache knows *)
Section Spec.
Context {B : Type} {Debug : bool} `{BlockstoreSpec B Debug}.
Implicit Types w : writecache B.

Abbreviation cached c k := (a_lookup k (recency c) <> None).

(** Every cached key is stored. *)
Definition wc_wf w : Prop :=
  lru_inv (cache w) /\ bs_wf (inner w)
  /\ forall k, path_safe k -> cached (cache w) k -> bs_view (inner w) k <> None.
Definition wc_view w (k : Key) : option bytes := bs_view (inner w) k.

Lemma a_lookup_remove (k k' : Key) (l : list (Key * unit)) :
  a_lookup k' (a_remove k l) = if decide (k' = k) then None else a_lookup k' l.
Proof.
  induction l as [|[k1 v] l IH]; [by destruct (decide (k' = k))|].
  unfold a_remove in *. rewrite filter_cons. simpl. destruct (decide (k1 <> k)) as [Hne|Heq]; simpl.
  - rewrite IH. destruct (decide (k1 = k')) as [->|]; [by rewrite decide_False|done].
  - apply dec_stable in Heq as ->. rewrite IH.
    destruct (decide (k' = k)) as [->|]; [done|]. by rewrite decide_False.
Qed.

Lemma a_lookup_take n (k : Key) (l : list (Key * unit)) :
  a_lookup k (take n l) <> None -> a_lookup k l <> None.
Proof.
  revert n. induction l as [|[k1 v] l IH]; intros [|n]; simpl; [done..|].
  destruct (decide (k1 = k)); [done|]. apply IH.
Qed.

(** Looking a key up changes only the order. *)
Lemma a_get_cached (k k' : Key) (l : list (Key * unit)) :
  a_lookup k' (a_get k l).2 <> None <-> a_lookup k' l <> None.
Proof.
  unfold a_get. destruct (a_lookup k l) as [v|] eqn:Hk; [|done]. simpl.
  destruct (decide (k = k')) as [->|]; [by rewrite Hk|].
  by rewrite a_lookup_remove, decide_False.
Qed.

#[export] Program Instance writecache_Spec :
  @BlockstoreSpec (writecache B) writecache_Blockstore Debug := {|
  bs_wf := wc_wf; bs_view := wc_view |}.
Next Obligation.
  intros [c s] k (Hc & Hwf & Hin) Hk. destruct (bs_Get_spec s k Hwf Hk) as (s' & Hg & Hwf' & Hv).
  exists (mkWc c s'). simpl in *. unfold Get, wc_wf, wc_view. simpl. rewrite Hg.
  split_and!; [done..| |done]. intros k' Hk'. rewrite Hv by done. by apply Hin.
Qed.
Next Obligation.
  intros [c s] k (Hc & Hwf & Hin) Hk. simpl in *. unfold Has, then_inner, wc_wf, wc_view. simpl.
  destruct (Get_spec c k Hc) as (c' & -> & Hc' & _ & Hr).
  assert (Hin' : forall k, path_safe k -> cached c' k -> bs_view s k <> None).
  { intros k' Hk' Hcache. apply Hin; [done|]. rewrite Hr in Hcache. by apply a_get_cached in Hcache. }
  unfold a_get. destruct (a_lookup k (recency c)) as [v|] eqn:Hl; simpl.
  - exists (mkWc c' s). assert (Hp : bs_view s k <> None) by (apply Hin; congruence).
    split_and!; [|done..]. destruct (bs_view s k); [done|congruence].
  - destruct (bs_Has_spec s k Hwf Hk) as (s' & -> & Hwf' & Hv). exists (mkWc c' s').
    split_and!; [done..| |done]. intros k' Hk'. simpl. rewrite Hv by done. by apply Hin'.
Qed.
Next Obligation.
  intros [c s] b (Hc & Hwf & Hin) Hk. simpl in *. unfold Put, wc_wf, wc_view. simpl.
  destruct (Get_spec c (Key_ b) Hc) as (c' & -> & Hc' & _ & Hr).
  assert (Hin' : forall k, path_safe k -> cached c' k -> bs_view s k <> None).
  { intros k' Hk' Hcache. apply Hin; [done|]. rewrite Hr in Hcache. by apply a_get_cached in Hcache. }
  unfold a_get in *. destruct (a_lookup (Key_ b) (recency c)) as [v|] eqn:Hl; simpl.
  - exists (mkWc c' s). assert (Hp : bs_view s (Key_ b) <> None) by (apply Hin; congruence).
    split_and!; [done..|]. intros k' _. destruct (decide (k' = Key_ b)) as [->|]; [|done].
    simpl. by destruct (bs_view s (Key_ b)).
  - destruct (Add_spec_lru c' (Key_ b) tt Hc') as (c'' & -> & Hc'' & _ & Hr'').
    destruct (bs_Put_spec s b Hwf Hk) as (s' & Hp & Hwf' & Hv). simpl. rewrite Hp.
    exists (mkWc c'' s'). split_and!; [done..| |done]. intros k' Hk' Hcache. simpl in *.
    rewrite Hv by done. destruct (decide (k' = Key_ b)) as [->|Hne]; [done|].
    apply Hin'; [done|]. rewrite Hr'' in Hcache. unfold a_add in Hcache.
    apply a_lookup_take in Hcache. simpl in Hcache. rewrite decide_False in Hcache by congruence.
    by rewrite a_lookup_remove, decide_False in Hcache.
Qed.
Next Obligation.
  intros [c s] k (Hc & Hwf & Hin) Hk. simpl in *. unfold DeleteBlock, then_inner, wc_wf, wc_view. simpl.
  destruct (Remove_spec c k Hc) as (c' & -> & Hc' & _ & Hr).
  destruct (bs_DeleteBlock_spec s k Hwf Hk) as (s' & -> & Hwf' & Hv). exists (mkWc c' s').
  split_and!; [done..| |done]. intros k' Hk' Hcache. simpl in *. rewrite Hr, a_lookup_remove in Hcache.
  rewrite Hv by done. destruct (decide (k' = k)); [done|]. by apply Hin.
Qed.
End Spec.

(** ** Theorems *)

(** C8. The write cache is invisible over a store that does not fail: for every
    sequence of Put, Get, Has and DeleteBlock on path-safe keys it returns
    exactly what the store alone returns, whatever the size of the cache. *)
Theorem WriteCached_transparent {B Debug} `{BlockstoreSpec B Debug} (s : B) size l :
  bs_wf s -> (0 < size)%Z -> Forall (fun o => path_safe (bs_op_key o)) l ->
  exists w, WriteCached s size = Ok w
    /\ (bs_results l w).1 = (bs_results l s).1
    /\ bs_agree (bs_results l w).2 (bs_results l s).2.
Proof.
  intros Hs Hsize Hl. exists (mkWc (mkCache size GoList.New ∅) s). split.
  { unfold WriteCached, New. by destruct (Z.leb_spec size 0); [lia|]. }
  apply bs_results_agree; [done|]. split_and!; [|done..].
  split_and!; [by apply New_inv|done|]. by intros k _ Hk.
Qed.

Lemma WriteCached_transparent_witness :
  let R := elements_range DsKey.Key in
  let l := [BPut abc; BPut abc; BHas (Key_ abc); BDeleteBlock (Key_ abc); BHas (Key_ abc)] in
  exists w, WriteCached (over_store empty_store) 1 = Ok w
    /\ (@bs_results _ (@writecache_Blockstore _ (blockstore_Blockstore false)) l w).1
       = (@bs_results _ (blockstore_Blockstore false) l (over_store empty_store)).1.
Proof.
  intros R l.
  destruct (@WriteCached_transparent _ false _ (blockstore_Spec false) (over_store empty_store) 1 l)
    as (w & H1 & H2 & _).
  - apply (empty_honest false).
  - lia.
  - do 5 (constructor; [exact abc_safe|]). constructor.
  - exists w. exact (conj H1 H2).
Defined.

(** A key is put in the cache before the store has taken the block: when the
    store's [Put] fails, the error is returned once, but every later [Put] of the
    block is answered with success without calling the store, and [Has] says that
    the block is there, whatever the store says. *)
Theorem failed_Put_is_cached {B} `{Blockstore B} (w : writecache B) b e s' :
  lru_inv (cache w) -> a_lookup (Key_ b) (recency (cache w)) = None ->
  bs_Put b (inner w) = (Err e, s') ->
  exists w1, Put b w = (Err e, w1) /\ inner w1 = s'
    /\ (exists w2, Put b w1 = (Ok tt, w2) /\ inner w2 = s')
    /\ (exists w3, Has (Key_ b) w1 = (Ok true, w3) /\ inner w3 = s').
Proof.
  destruct w as [c s]. cbn [cache inner]. intros Hc Hl Hp.
  destruct (Get_spec c (Key_ b) Hc) as (c1 & Hg & Hc1 & _ & Hr1). unfold a_get in *. rewrite Hl in Hg, Hr1.
  destruct (Add_spec_lru c1 (Key_ b) tt Hc1) as (c2 & Ha & Hc2 & _ & Hr2).
  assert (Hhit : a_lookup (Key_ b) (recency c2) = Some tt).
  { rewrite Hr2. unfold a_add. destruct Hc1 as (_ & Hpos & _).
    destruct (Z.to_nat (size c1)) as [|n] eqn:Hn; [lia|]. simpl. by rewrite decide_True. }
  destruct (Get_spec c2 (Key_ b) Hc2) as (c3 & Hg3 & _). unfold a_get in Hg3. rewrite Hhit in Hg3.
  exists (mkWc c2 s'). unfold Put, Has, then_inner. cbn [cache inner]. simpl in Hg, Hg3.
  rewrite Hg, Ha, Hp, Hg3. split_and!; [done..| |]; by eexists.
Qed.

(** A store that is down. *)
Definition down : Blockstore unit := {|
  bs_DeleteBlock k s := (Err (errors_New "down"), s); bs_Has k s := (Err (errors_New "down"), s);
  bs_Get k s := (Err (errors_New "down"), s); bs_Put b s := (Err (errors_New "down"), s);
  bs_GetChan ks s := (Ok [], s); bs_AllKeysChan done s := (Err (errors_New "down"), s) |}.

Lemma failed_Put_is_cached_witness :
  let D := down in
  exists w w1, WriteCached tt 8 = Ok w /\ Put abc w = (Err (errors_New "down"), w1)
    /\ exists w2, Put abc w1 = (Ok tt, w2).
Proof.
  intros D. exists (mkWc (mkCache 8 GoList.New ∅) tt).
  destruct (@failed_Put_is_cached _ D (mkWc (mkCache 8 GoList.New ∅) tt) abc (errors_New "down") tt)
    as (w1 & H1 & _ & (w2 & H2 & _) & _).
  - by apply New_inv.
  - reflexivity.
  - reflexivity.
  - exists w1. split; [reflexivity|]. split; [exact H1|]. exists w2. exact H2.
Defined.
