(* ===== verification/BlockSet.v ===== *)
(** * Block sets

    Models [set/set.go] and [set/dbset.go]: sets of block keys, in memory and
    mirrored to a datastore. *)

From S2P Require Import Prelude DsKey Query Datastore BlockKey Bloom.

(** ** The interface *)
Class BlockSet (B : Type) := {
  set_AddBlock : Key -> B -> res unit * B;
  set_RemoveBlock : Key -> B -> res unit * B;
  set_HasKey : Key -> B -> bool * B;
  set_GetBloomFilter : B -> res filter_ * B;
  set_GetKeys : B -> list Key * B;
}.

(** ** set.go *)
Module Simple.
Record simpleBlockSet := mkSimple { blocks : gset Key }.
Definition NewSimpleBlockSet : simpleBlockSet := mkSimple ∅.
Definition SimpleSetFromKeys (keys : list Key) : simpleBlockSet :=
  fold_left (fun sbs k => mkSimple ({[k]} ∪ blocks sbs)) keys (mkSimple ∅).
Definition AddBlock (k : Key) (b : simpleBlockSet) : res unit * simpleBlockSet :=
  (Ok tt, mkSimple ({[k]} ∪ blocks b)).
Definition RemoveBlock (k : Key) (b : simpleBlockSet) : res unit * simpleBlockSet :=
  (Ok tt, mkSimple (blocks b ∖ {[k]})).
Definition HasKey (k : Key) (b : simpleBlockSet) : bool * simpleBlockSet :=
  (bool_decide (k ∈ blocks b), b).

Section Range.
Context `{!GoRange Key}.
(** [f.Add] in the loop over the map. *)
Definition GetBloomFilter (b : simpleBlockSet) : res filter_ * simpleBlockSet :=
  (f ← BasicFilter;
   (match adds (go_range (blocks b)) f with
    | (Ok _, f) => Ok f
    | (Err e, _) => Err e
    | (Panic, _) => Panic
    end), b).
Definition GetKeys (b : simpleBlockSet) : list Key * simpleBlockSet := (go_range (blocks b), b).

#[global] Instance simple_BlockSet : BlockSet simpleBlockSet := {|
  set_AddBlock := AddBlock; set_RemoveBlock := RemoveBlock; set_HasKey := HasKey;
  set_GetBloomFilter := GetBloomFilter; set_GetKeys := GetKeys |}.
End Range.
End Simple.

(** ** dbset.go *)
Module DbSet.
Section DbSet.
Context {S B : Type} `{Datastore S, BlockSet B}.
Record datastoreBlockSet := NewDBWrapperSet { dstore : S; bset : B }.

(** The error of [d.bset.AddBlock] is not looked at; a panic passes through. *)
Definition AddBlock (k : Key) (d : datastoreBlockSet) : res unit * datastoreBlockSet :=
  match ds_Put (DsKey k) (VBytes []) (dstore d) with
  | (Ok _, s) =>
      let '(r, b) := set_AddBlock k (bset d) in
      (match r with Panic => Panic | _ => Ok tt end, NewDBWrapperSet s b)
  | (r, s) => (r, NewDBWrapperSet s (bset d))
  end.
Definition RemoveBlock (k : Key) (d : datastoreBlockSet) : res unit * datastoreBlockSet :=
  match set_RemoveBlock k (bset d) with
  | (Panic, b) => (Panic, NewDBWrapperSet (dstore d) b)
  | (_, b) =>
      let '(has, b) := set_HasKey k b in
      if negb has then
        let '(r, s) := ds_Delete (DsKey k) (dstore d) in (r, NewDBWrapperSet s b)
      else (Ok tt, NewDBWrapperSet (dstore d) b)
  end.
Definition HasKey (k : Key) (d : datastoreBlockSet) : bool * datastoreBlockSet :=
  let '(has, b) := set_HasKey k (bset d) in (has, NewDBWrapperSet (dstore d) b).
Definition GetBloomFilter (d : datastoreBlockSet) : res filter_ * datastoreBlockSet :=
  let '(f, b) := set_GetBloomFilter (bset d) in (f, NewDBWrapperSet (dstore d) b).
Definition GetKeys (d : datastoreBlockSet) : list Key * datastoreBlockSet :=
  let '(ks, b) := set_GetKeys (bset d) in (ks, NewDBWrapperSet (dstore d) b).

#[global] Instance db_BlockSet : BlockSet datastoreBlockSet := {|
  set_AddBlock := AddBlock; set_RemoveBlock := RemoveBlock; set_HasKey := HasKey;
  set_GetBloomFilter := GetBloomFilter; set_GetKeys := GetKeys |}.
End DbSet.
Arguments datastoreBlockSet : clear implicits.
End DbSet.

(** ** Properties *)

Lemma BasicFilter_usable : exists f, BasicFilter = Ok f /\ usable f.
Proof. eexists. split; [reflexivity|]. split; [done|]. by vm_compute. Qed.

Lemma SimpleSetFromKeys_blocks keys :
  Simple.blocks (Simple.SimpleSetFromKeys keys) = list_to_set keys.
Proof.
  unfold Simple.SimpleSetFromKeys.
  assert (H : forall s, Simple.blocks (fold_left (fun sbs k => Simple.mkSimple ({[k]} ∪ Simple.blocks sbs)) keys s)
    = list_to_set keys ∪ Simple.blocks s); [|rewrite H; cbn; set_solver].
  induction keys as [|k keys IH]; intros s; cbn [fold_left list_to_set]; [set_solver|].
  rewrite IH. cbn. set_solver.
Qed.

(** A simple block set is a set of keys: [HasKey] and [GetKeys] agree after any
    construction, and its bloom filter never panics, finds every key of the set,
    and is the same whatever order Go visits the map in and however the set was
    built. *)
Theorem SimpleBlockSet_spec `{!GoRange Key} keys b k x :
  Simple.SimpleSetFromKeys keys = b ->
  ((Simple.HasKey x b).1 = true <-> x ∈ keys)
  /\ ((Simple.HasKey x (Simple.AddBlock k b).2).1 = true <-> x = k \/ x ∈ keys)
  /\ ((Simple.HasKey x (Simple.RemoveBlock k b).2).1 = true <-> x <> k /\ x ∈ keys)
  /\ NoDup (Simple.GetKeys b).1 /\ (forall y, y ∈ (Simple.GetKeys b).1 <-> y ∈ keys)
  /\ exists f0 f, BasicFilter = Ok f0 /\ adds keys f0 = (Ok tt, f)
       /\ (Simple.GetBloomFilter b).1 = Ok f /\ forall y, y ∈ keys -> Find y f = (Ok true, f).
Proof.
  intros <-. pose proof (SimpleSetFromKeys_blocks keys) as Hb.
  assert (Hel : forall y, y ∈ Simple.blocks (Simple.SimpleSetFromKeys keys) <-> y ∈ keys)
    by (intros y; rewrite Hb; apply elem_of_list_to_set).
  unfold Simple.HasKey, Simple.AddBlock, Simple.RemoveBlock, Simple.GetKeys. cbn [fst snd Simple.blocks].
  rewrite !bool_decide_eq_true. split_and!.
  - apply Hel.
  - rewrite elem_of_union, elem_of_singleton. by rewrite Hel.
  - rewrite elem_of_difference, elem_of_singleton, Hel. tauto.
  - apply NoDup_go_range.
  - intros y. rewrite elem_of_go_range. apply Hel.
  - destruct BasicFilter_usable as (f0 & Hf0 & Hu). destruct (adds_spec keys f0 Hu) as (f & Hf & _).
    exists f0, f. split_and!; [done..| |intros y Hy; by eapply adds_Find].
    unfold Simple.GetBloomFilter. rewrite Hf0. cbn [fst mbind res_bind].
    rewrite (adds_ext f0 (go_range _) keys Hu), Hf; [done|].
    intros y. rewrite elem_of_go_range. apply Hel.
Qed.

Lemma SimpleBlockSet_spec_witness :
  let R := elements_range Key in
  (Simple.HasKey (str "a") (Simple.SimpleSetFromKeys [str "a"; str "b"])).1 = true.
Proof.
  intros R.
  destruct (SimpleBlockSet_spec [str "a"; str "b"] _ [] (str "a") eq_refl) as [[_ H] _].
  apply H. apply elem_of_cons. by left.
Defined.

(** The mirror is exact: the datastore holds the path-safe keys of the set. *)
Definition mirrored {S} `{DatastoreSpec S} (d : DbSet.datastoreBlockSet S Simple.simpleBlockSet) : Prop :=
  ds_wf (DbSet.dstore d)
  /\ forall k, path_safe k ->
       (k ∈ Simple.blocks (DbSet.bset d) <-> is_Some (ds_view (DbSet.dstore d) (DsKey k))).

(** A database block set over a correct datastore keeps its two halves equal:
    [AddBlock] and [RemoveBlock] change both for that key and no other path-safe
    one; adding succeeds; removing a key that is not there reports the datastore's
    [ErrNotFound] and changes nothing. When the datastore fails to take a key,
    the set does not get it either. *)
Theorem DbSet_mirrors {S} `{DatastoreSpec S} `{!GoRange Key}
    (d : DbSet.datastoreBlockSet S Simple.simpleBlockSet) k :
  mirrored d -> path_safe k ->
  (exists d', DbSet.AddBlock k d = (Ok tt, d') /\ mirrored d'
     /\ Simple.blocks (DbSet.bset d') = {[k]} ∪ Simple.blocks (DbSet.bset d))
  /\ (exists d', DbSet.RemoveBlock k d
        = (if decide (k ∈ Simple.blocks (DbSet.bset d)) then Ok tt else Err DsErrNotFound, d')
     /\ mirrored d' /\ Simple.blocks (DbSet.bset d') = Simple.blocks (DbSet.bset d) ∖ {[k]}).
Proof.
  intros [Hwf Hm] Hk. destruct d as [s [bs]]. cbn [DbSet.dstore DbSet.bset Simple.blocks] in *. split.
  - destruct (ds_Put_spec s (DsKey k) (VBytes []) Hwf (DsKey_clean k)) as (s' & Hp & Hwf' & Hv).
    eexists. split_and!; [unfold DbSet.AddBlock; cbn [DbSet.dstore]; rewrite Hp; reflexivity|split; [done|]|done].
    intros k' Hk'. cbn. rewrite Hv by apply DsKey_clean. rewrite elem_of_union, elem_of_singleton, Hm by done.
    destruct (decide (k' = k)) as [->|Hne].
    + rewrite decide_True by done. split; [intros _; by eexists|intros _; by left].
    + rewrite decide_False; [naive_solver|]. intros Heq. by apply Hne, DsKey_inj.
  - destruct (ds_Delete_spec s (DsKey k) Hwf (DsKey_clean k)) as (s' & Hp & Hwf' & Hv).
    exists (DbSet.NewDBWrapperSet s' (Simple.mkSimple (bs ∖ {[k]}))). split_and!; [|split; [done|]|done].
    + unfold DbSet.RemoveBlock. cbn. rewrite bool_decide_eq_false_2 by set_solver. cbn [negb].
      rewrite Hp. f_equal. specialize (Hm k Hk). unfold deleted.
      destruct (ds_view s (DsKey k)) as [v|], (decide (k ∈ bs)) as [Hin|Hin];
        [done|exfalso; apply Hin, Hm; by eexists|exfalso|done].
      by apply Hm in Hin as [? ?].
    + intros k' Hk'. cbn. rewrite Hv by apply DsKey_clean.
      rewrite elem_of_difference, elem_of_singleton, Hm by done.
      destruct (decide (k' = k)) as [->|Hne].
      * rewrite decide_True by done. split; [naive_solver|by intros [? ?]].
      * rewrite decide_False; [naive_solver|]. intros Heq. by apply Hne, DsKey_inj.
Qed.

Lemma DbSet_mirrors_witness :
  let R := elements_range DsKey.Key in
  let R' := elements_range Key in
  exists d', DbSet.AddBlock (str "ab") (DbSet.NewDBWrapperSet MapDatastore.NewMapDatastore Simple.NewSimpleBlockSet)
             = (Ok tt, d') /\ mirrored d'.
Proof.
  intros R R'.
  destruct (DbSet_mirrors (DbSet.NewDBWrapperSet MapDatastore.NewMapDatastore Simple.NewSimpleBlockSet)
    (str "ab")) as ((d' & H1 & H2 & _) & _).
  - split; [apply MapDatastore.New_wf|]. intros k _. split; [intros Hin; set_solver|].
    intros [v Hv]. vm_compute in Hv. done.
  - decide_compute.
  - exists d'. exact (conj H1 H2).
Defined.
