(* ===== verification/Worker.v ===== *)
(** * The background worker of the block service

    Models [blockservice/worker/worker.go] and
    [Godeps/.../goprocess/ratelimit/ratelimit.go]: the client loop, the
    dispatcher and the rate-limited children that announce blocks to the exchange,
    as a step relation on their shared state. A step is one branch of a [select],
    or one channel operation. *)

From S2P Require Import Prelude GoList BlockKey Blocks BlockList.

Record Config := mkConfig { NumWorkers : Z; ClientBufferSize : nat; WorkerBufferSize : nat }.
Definition DefaultConfig : Config := mkConfig 1 0 0.

(** [if c.NumWorkers < 1 { c.NumWorkers = 1 }] *)
Definition workers (c : Config) : nat := Z.to_nat (if (NumWorkers c <? 1)%Z then 1 else NumWorkers c).

(** [LimitChan(limit)]: a channel of [limit] tokens. *)
Definition LimitChan (limit : nat) : nat := limit.

(** ** The client loop *)

(** The loop at its [select]: the block it offers, and the queue. *)
Record client := mkClient { nextBlock : option Block; workQueue : BlockList }.

(** The top of the loop. *)
Definition top (q : BlockList) : res client :=
  let '(r, q) := Pop q in next ← r; Ok (mkClient next q).

(** The branches of the [select]; each goes back to the top. *)
Definition on_sent (cl : client) : res client := top (workQueue cl).
Definition on_tick (cl : client) : res client := top (workQueue cl).
Definition on_added (block : Block) (cl : client) : res client :=
  let q := match nextBlock cl with Some n => Push n (workQueue cl) | None => workQueue cl end in
  top (Push block q).

(** ** The state

    [accepted] and [lost] are ghost: the blocks that [HasBlock] took, and the ones
    that a tick of [debugInfo] threw away. *)
Record worker := mkWorker {
  added : list Block;           (* the channel [w.added] *)
  loop : option client;         (* the client loop, until it returns *)
  workerChan : list Block;
  dispatching : bool;           (* the dispatcher, until it returns *)
  holding : option Block;       (* the dispatcher's block, waiting for a token *)
  running : list Block;         (* the children that call [exchange.HasBlock] *)
  freed : nat;                  (* children closed, their token not yet back *)
  tokens : nat;                 (* [limiter] *)
  announced : list Block;       (* the calls of [exchange.HasBlock] that returned *)
  closing : bool;
  accepted : list Block;
  lost : list Block;
}.

(** [NewWorker] and [start]: the loop is at its first [select]. *)
Definition NewWorker (c : Config) : worker :=
  mkWorker [] (Some (mkClient None zero)) [] true None [] 0 (LimitChan (workers c)) [] false [] [].

Inductive state := Run (w : worker) | Crash.

Inductive label := Accept (b : Block) | Tick | Internal.

(** [exchange] tells whether the worker has one; a call on a nil exchange panics
    in the child's goroutine, which ends the program. *)
Inductive step (c : Config) (exchange : bool) : worker -> label -> state -> Prop :=
  (* HasBlock, on a channel with room *)
  | step_HasBlock w b :
      length (added w) < ClientBufferSize c ->
      step c exchange w (Accept b)
        (Run (mkWorker (added w ++ [b]) (loop w) (workerChan w) (dispatching w) (holding w) (running w)
                (freed w) (tokens w) (announced w) (closing w) (accepted w ++ [b]) (lost w)))
  (* HasBlock, handing over to the loop *)
  | step_HasBlock_direct w b cl cl' :
      ClientBufferSize c = 0 -> loop w = Some cl -> on_added b cl = Ok cl' ->
      step c exchange w (Accept b)
        (Run (mkWorker (added w) (Some cl') (workerChan w) (dispatching w) (holding w) (running w)
                (freed w) (tokens w) (announced w) (closing w) (accepted w ++ [b]) (lost w)))
  (* case block := <-w.added *)
  | step_added w b bs cl cl' :
      added w = b :: bs -> loop w = Some cl -> on_added b cl = Ok cl' ->
      step c exchange w Internal
        (Run (mkWorker bs (Some cl') (workerChan w) (dispatching w) (holding w) (running w)
                (freed w) (tokens w) (announced w) (closing w) (accepted w) (lost w)))
  (* case sendToWorker <- nextBlock, into the buffer *)
  | step_send w cl b cl' :
      loop w = Some cl -> nextBlock cl = Some b -> length (workerChan w) < WorkerBufferSize c ->
      on_sent cl = Ok cl' ->
      step c exchange w Internal
        (Run (mkWorker (added w) (Some cl') (workerChan w ++ [b]) (dispatching w) (holding w) (running w)
                (freed w) (tokens w) (announced w) (closing w) (accepted w) (lost w)))
  (* the same, handing over to the dispatcher *)
  | step_send_direct w cl b cl' :
      loop w = Some cl -> nextBlock cl = Some b -> WorkerBufferSize c = 0 ->
      dispatching w = true -> holding w = None -> on_sent cl = Ok cl' ->
      step c exchange w Internal
        (Run (mkWorker (added w) (Some cl') (workerChan w) (dispatching w) (Some b) (running w)
                (freed w) (tokens w) (announced w) (closing w) (accepted w) (lost w)))
  (* case <-debugInfo.C *)
  | step_tick w cl cl' :
      loop w = Some cl -> on_tick cl = Ok cl' ->
      step c exchange w Tick
        (Run (mkWorker (added w) (Some cl') (workerChan w) (dispatching w) (holding w) (running w)
                (freed w) (tokens w) (announced w) (closing w) (accepted w)
                (lost w ++ option_list (nextBlock cl))))
  (* case <-proc.Closing(), in the loop *)
  | step_loop_closing w cl :
      loop w = Some cl -> closing w = true ->
      step c exchange w Internal
        (Run (mkWorker (added w) None (workerChan w) (dispatching w) (holding w) (running w)
                (freed w) (tokens w) (announced w) (closing w) (accepted w) (lost w)))
  (* case block, ok := <-workerChan *)
  | step_receive w b bs :
      dispatching w = true -> holding w = None -> workerChan w = b :: bs ->
      step c exchange w Internal
        (Run (mkWorker (added w) (loop w) bs (dispatching w) (Some b) (running w)
                (freed w) (tokens w) (announced w) (closing w) (accepted w) (lost w)))
  (* the dispatcher returns: closing, or workerChan closed and empty *)
  | step_dispatcher_returns w :
      dispatching w = true -> holding w = None ->
      closing w = true \/ (loop w = None /\ workerChan w = []) ->
      step c exchange w Internal
        (Run (mkWorker (added w) (loop w) (workerChan w) false (holding w) (running w)
                (freed w) (tokens w) (announced w) (closing w) (accepted w) (lost w)))
  (* LimitedGo: <-rl.limiter; rl.Go(f) *)
  | step_spawn w b n :
      holding w = Some b -> tokens w = S n ->
      step c exchange w Internal
        (Run (mkWorker (added w) (loop w) (workerChan w) (dispatching w) None (running w ++ [b])
                (freed w) n (announced w) (closing w) (accepted w) (lost w)))
  (* the child: w.exchange.HasBlock(ctx, block), whatever it returns *)
  | step_exchange w b l1 l2 :
      running w = l1 ++ b :: l2 -> exchange = true ->
      step c exchange w Internal
        (Run (mkWorker (added w) (loop w) (workerChan w) (dispatching w) (holding w) (l1 ++ l2)
                (S (freed w)) (tokens w) (announced w ++ [b]) (closing w) (accepted w) (lost w)))
  | step_nil_exchange w b l1 l2 :
      running w = l1 ++ b :: l2 -> exchange = false ->
      step c exchange w Internal Crash
  (* <-p.Closed(); rl.limiter <- struct{}{} *)
  | step_release w n :
      freed w = S n -> tokens w < workers c ->
      step c exchange w Internal
        (Run (mkWorker (added w) (loop w) (workerChan w) (dispatching w) (holding w) (running w)
                n (S (tokens w)) (announced w) (closing w) (accepted w) (lost w)))
  (* Close *)
  | step_Close w :
      step c exchange w Internal
        (Run (mkWorker (added w) (loop w) (workerChan w) (dispatching w) (holding w) (running w)
                (freed w) (tokens w) (announced w) true (accepted w) (lost w))).

(** Executions, with the labels of their steps. *)
Inductive steps (c : Config) (exchange : bool) : worker -> list label -> worker -> Prop :=
  | steps_refl w : steps c exchange w [] w
  | steps_cons w1 l w2 ls w3 :
      step c exchange w1 l (Run w2) -> steps c exchange w2 ls w3 -> steps c exchange w1 (l :: ls) w3.

(** [HasBlock] fails only once everything is closed. *)
Definition closed (w : worker) : Prop :=
  closing w = true /\ loop w = None /\ dispatching w = false /\ running w = [].

(** ** The client loop keeps its blocks *)

Definition pending (cl : client) : list Block := option_list (nextBlock cl) ++ queue (workQueue cl).

Definition loop_ok (cl : client) : Prop :=
  bl_wf (workQueue cl) /\ (nextBlock cl = None -> queue (workQueue cl) = []).

Lemma top_spec q : bl_wf q -> exists cl, top q = Ok cl /\ loop_ok cl /\ pending cl = queue q.
Proof.
  intros Hwf. pose proof (Pop_wf q Hwf) as Hp. unfold top. destruct (queue q) as [|b bs] eqn:Hq.
  - rewrite Hp. eexists. split_and!; [reflexivity|split; [done|by intros _]|].
    unfold pending. simpl. by rewrite Hq.
  - destruct Hp as (q' & -> & Hwf' & Hq'). eexists. split_and!; [reflexivity|by split|].
    unfold pending. simpl. by rewrite Hq'.
Qed.

(** Pushing adds the block, unless its key is there. *)
Lemma Push_elem s b :
  bl_wf s -> bl_wf (Push b s)
  /\ (forall x, x ∈ queue (Push b s) -> x = b \/ x ∈ queue s)
  /\ (forall k, k ∈ map Key_ (queue (Push b s)) <-> k = Key_ b \/ k ∈ map Key_ (queue s))
  /\ length (queue (Push b s)) <= S (length (queue s)).
Proof.
  intros Hwf. destruct (Push_wf s b Hwf) as [Hw ->]. split; [done|].
  destruct (decide (Key_ b ∈ map Key_ (queue s))) as [Hin|Hin].
  - split_and!; [by right|naive_solver|lia].
  - split_and!.
    + intros x [Hx|Hx%list_elem_of_singleton]%elem_of_app; [by right|by left].
    + intros k. rewrite map_app, elem_of_app. simpl. rewrite list_elem_of_singleton. tauto.
    + rewrite length_app. simpl. lia.
Qed.

Lemma on_added_spec b cl :
  loop_ok cl ->
  exists cl', on_added b cl = Ok cl' /\ loop_ok cl'
    /\ (forall x, x ∈ pending cl' -> x = b \/ x ∈ pending cl)
    /\ (forall k, k ∈ map Key_ (pending cl') <-> k = Key_ b \/ k ∈ map Key_ (pending cl))
    /\ length (pending cl') <= S (length (pending cl)).
Proof.
  intros [Hwf Hn]. unfold on_added, pending. destruct cl as [[n|] q]; cbn [nextBlock workQueue option_list app] in *.
  - destruct (Push_elem q n Hwf) as (Hw1 & He1 & Hk1 & Hl1).
    destruct (Push_elem (Push n q) b Hw1) as (Hw2 & He2 & Hk2 & Hl2).
    destruct (top_spec _ Hw2) as (cl' & -> & Hok & Hp). exists cl'. fold (pending cl'). rewrite Hp.
    split_and!; [done..| | |simpl; lia].
    + intros x [->|[->|Hx]%He1]%He2; [by left|right; by left|right; by right].
    + intros k. rewrite Hk2, Hk1. simpl. rewrite elem_of_cons. tauto.
  - destruct (Push_elem q b Hwf) as (Hw1 & He1 & Hk1 & Hl1).
    destruct (top_spec _ Hw1) as (cl' & -> & Hok & Hp). exists cl'. fold (pending cl'). by rewrite Hp.
Qed.

Lemma on_sent_spec cl :
  loop_ok cl ->
  exists cl', on_sent cl = Ok cl' /\ loop_ok cl' /\ pending cl' = queue (workQueue cl).
Proof. intros [Hwf _]. by apply top_spec. Qed.

(** ** Blocks of a state *)
Definition loop_pending (w : worker) : list Block :=
  match loop w with Some cl => pending cl | None => [] end.
Definition in_flight (w : worker) : list Block :=
  added w ++ loop_pending w ++ workerChan w ++ option_list (holding w) ++ running w.

(** A block can still be announced, or has been. *)
Definition live (w : worker) : list Block := in_flight w ++ announced w.
(** A key is somewhere: in flight, announced, or lost. *)
Definition everywhere (w : worker) : list Block := live w ++ lost w.

Record inv (c : Config) (w : worker) : Prop := {
  inv_loop : forall cl, loop w = Some cl -> loop_ok cl;
  inv_tokens : tokens w + freed w + length (running w) = workers c;
  inv_added : length (added w) <= ClientBufferSize c;
  inv_chan : length (workerChan w) <= WorkerBufferSize c;
  inv_sound : forall x, x ∈ everywhere w -> x ∈ accepted w;
  inv_kept : is_Some (loop w) -> forall k, k ∈ map Key_ (accepted w) -> k ∈ map Key_ (everywhere w);
}.

Lemma workers_pos c : 1 <= workers c.
Proof. unfold workers. destruct (Z.ltb_spec (NumWorkers c) 1); lia. Qed.

Lemma NewWorker_inv c : inv c (NewWorker c).
Proof.
  destruct zero_wf as [Hz Hq].
  assert (He : everywhere (NewWorker c) = []).
  { done. }
  split.
  - intros cl [= <-]. by split.
  - cbn. unfold LimitChan. lia.
  - cbn. lia.
  - cbn. lia.
  - rewrite He. by intros x ?%not_elem_of_nil.
  - by intros _ k ?%not_elem_of_nil.
Qed.

Lemma option_list_Some {A} (x : A) : option_list (Some x) = [x].
Proof. done. Qed.
Lemma option_list_None {A} : option_list (None : option A) = [].
Proof. done. Qed.

(** Membership in all the places at once. *)
Ltac spread :=
  repeat rewrite ?option_list_Some, ?option_list_None, ?map_app, ?elem_of_app, ?map_cons, ?elem_of_cons, ?elem_of_nil in *.
Ltac places :=
  unfold everywhere, live, in_flight, loop_pending in *;
  cbn [added loop workerChan holding running announced lost option_list map] in *; spread.

(** A step moves blocks from one place to another: it makes up none, and while the
    loop runs it drops no key. *)
Definition moves (w : worker) (l : label) (w' : worker) : Prop :=
  (forall cl, loop w' = Some cl -> loop_ok cl)
  /\ (forall x, x ∈ everywhere w' -> x ∈ everywhere w \/ l = Accept x)
  /\ (forall x, x ∈ live w' -> x ∈ live w \/ l = Accept x)
  /\ (is_Some (loop w') -> forall k,
        k ∈ map Key_ (everywhere w) \/ (exists b, l = Accept b /\ k = Key_ b) ->
        k ∈ map Key_ (everywhere w'))
  /\ (forall x, x ∈ accepted w' <-> x ∈ accepted w \/ l = Accept x).

(** The loop's state, and what the hypotheses say of its next state. *)
Ltac at_loop :=
  match goal with Hlp : loop _ = Some ?cl, Hok : (forall cl, loop _ = Some cl -> loop_ok cl) |- _ =>
    let Hl := fresh "Hl" in rename Hlp into Hl;
    let Hcl := fresh "Hcl" in pose proof (Hok cl Hl) as Hcl end.
Ltac after_added :=
  at_loop; match goal with Hon : on_added ?b ?cl = Ok _, Hcl : loop_ok ?cl |- _ =>
    destruct (on_added_spec b cl Hcl) as (cl2 & Hadd & Hok2 & Hx & Hk & _); rewrite Hon in Hadd end;
  simplify_eq.
Ltac after_sent :=
  at_loop; match goal with Hon : _ ?cl = Ok ?cl', Hcl : loop_ok ?cl |- _ =>
    destruct (on_sent_spec cl Hcl) as (cl2 & Hadd & Hok2 & Hp); change (on_sent cl = Ok cl') in Hon;
    rewrite Hon in Hadd end;
  simplify_eq.
Ltac moved := split_and!;
  [try done; by intros ? [= <-]|intros x; places|intros x; places|intros _ k; places|intros x; spread; naive_solver].

Ltac finish := first [tauto | intros [?|(? & [=] & _)]; tauto | naive_solver].

Lemma step_moves c ex w l w' :
  step c ex w l (Run w') -> (forall cl, loop w = Some cl -> loop_ok cl) -> moves w l w'.
Proof.
  intros Hs Hok. unfold moves.
  inversion Hs; subst; clear Hs; cbn [accepted loop].
  - moved; finish.
  - after_added. moved; rewrite Hl; [specialize (Hx x)|specialize (Hx x)|specialize (Hk k)]; finish.
  - after_added. moved; rewrite Hl; [specialize (Hx x)|specialize (Hx x)|specialize (Hk k)];
      match goal with H : added _ = _ |- _ => rewrite H end; spread; finish.
  - after_sent. moved; rewrite Hl, Hp; unfold pending;
      match goal with H : nextBlock _ = _ |- _ => rewrite H end; spread; finish.
  - after_sent. moved; rewrite Hl, Hp; unfold pending;
      match goal with H : nextBlock _ = _, H' : holding _ = _ |- _ => rewrite H, H' end; spread; finish.
  - after_sent. moved; rewrite Hl, Hp; unfold pending; spread; finish.
  - split_and!; [done| | |by intros [? [=]]|intros x; spread; naive_solver]; intros x; places; finish.
  - moved; match goal with H : holding _ = _, H' : workerChan _ = _ |- _ => rewrite H, H' end; spread; finish.
  - moved; finish.
  - moved; match goal with H : holding _ = _ |- _ => rewrite H end; spread; finish.
  - moved; match goal with H : running _ = _ |- _ => rewrite H end; spread; finish.
  - moved; finish.
  - moved; finish.
Qed.

Lemma step_inv c ex w l w' : step c ex w l (Run w') -> inv c w -> inv c w'.
Proof.
  intros Hs [Hok Htok Hadd Hchan Hsound Hkept].
  destruct (step_moves c ex w l w' Hs Hok) as (Hok' & Hnew & _ & Hold & Hacc).
  assert (Hloop : is_Some (loop w') -> is_Some (loop w)).
  { inversion Hs; subst; cbn [loop]; try done; (intros _; by eexists) || by intros [? [=]]. }
  split; [done|..].
  - inversion Hs; subst; cbn [tokens freed running]; try done;
      match goal with H : _ = _ |- _ => rewrite H in Htok end; rewrite ?length_app in *; simpl in *; lia.
  - inversion Hs; subst; cbn [added]; try done; [rewrite length_app; simpl; lia|].
    match goal with H : added _ = _ |- _ => rewrite H in Hadd end. simpl in *. lia.
  - inversion Hs; subst; cbn [workerChan]; try done; [rewrite length_app; simpl; lia|].
    match goal with H : workerChan _ = _ |- _ => rewrite H in Hchan end. simpl in *. lia.
  - intros x [Hx|Hx]%Hnew; apply Hacc; [left; by apply Hsound|by right].
  - intros Hl k (b & -> & Hb)%list_elem_of_fmap. apply (Hold Hl).
    apply Hacc in Hb as [Hb|Hb]; [|by right; exists b]. left. apply (Hkept (Hloop Hl)).
    by apply list_elem_of_fmap_2.
Qed.

Lemma steps_inv c ex w ls w' : steps c ex w ls w' -> inv c w -> inv c w'.
Proof. induction 1 as [|w1 l w2 ls w3 Hs _ IH]; [done|]. intros Hi. by apply IH, (step_inv c ex w1 l). Qed.

Lemma reachable_inv c ex ls w : steps c ex (NewWorker c) ls w -> inv c w.
Proof. intros Hs. by eapply steps_inv, NewWorker_inv. Qed.

Lemma steps_app c ex w1 l1 w2 l2 w3 :
  steps c ex w1 l1 w2 -> steps c ex w2 l2 w3 -> steps c ex w1 (l1 ++ l2) w3.
Proof. induction 1; intros H2; [done|]. simpl. econstructor; [done|by auto]. Qed.

Lemma steps_one c ex w1 l w2 : step c ex w1 l (Run w2) -> steps c ex w1 [l] w2.
Proof. intros H. econstructor; [exact H|constructor]. Qed.

(** Without a tick nothing is lost. *)
Lemma steps_lost c ex w ls w' : steps c ex w ls w' -> Tick ∉ ls -> lost w' = lost w.
Proof.
  induction 1 as [|w1 l w2 ls w3 Hs _ IH]; [done|]. intros Hn.
  rewrite elem_of_cons in Hn. rewrite IH by tauto.
  inversion Hs; subst; try done. exfalso. apply Hn. by left.
Qed.

(** The first block that a new worker accepts. *)
Lemma accept_one c ex b :
  ClientBufferSize c = 0 ->
  exists w, steps c ex (NewWorker c) [Accept b] w /\ accepted w = [b] /\ is_Some (loop w).
Proof.
  intros Hc. destruct (on_added_spec b (mkClient None zero)) as (cl' & Hcl & _).
  { destruct zero_wf. by split. }
  pose proof (step_HasBlock_direct c ex (NewWorker c) b _ cl' Hc eq_refl Hcl) as Hs.
  eexists. split; [eapply steps_cons; [exact Hs|apply steps_refl]|]. by split; [|eexists].
Qed.

(** C11. Rate limit: in every reachable state at most [NumWorkers] calls of the
    exchange are running (one, when the configuration asks for less), and each
    token of the limiter is free, with a running child, or on its way back; the
    two channels never hold more than their buffers. *)
Theorem worker_rate_limit c ex ls w :
  steps c ex (NewWorker c) ls w ->
  (Z.of_nat (length (running w)) <= Z.max 1 (NumWorkers c))%Z
  /\ tokens w + freed w + length (running w) = workers c
  /\ length (added w) <= ClientBufferSize c /\ length (workerChan w) <= WorkerBufferSize c.
Proof.
  intros Hi%reachable_inv. destruct Hi as [_ Htok Hadd Hchan _ _]. split_and!; [|done..].
  unfold workers in Htok. destruct (Z.ltb_spec (NumWorkers c) 1); lia.
Qed.

Lemma worker_rate_limit_witness :
  (Z.of_nat (length (running (NewWorker DefaultConfig))) <= Z.max 1 (NumWorkers DefaultConfig))%Z.
Proof. apply (worker_rate_limit DefaultConfig true [] (NewWorker DefaultConfig)). constructor. Defined.

(** C10. Conservation: as long as the client loop runs, every block that [HasBlock]
    accepted is, by its key, still on its way, or announced to the exchange, or
    was thrown away by a tick; only accepted blocks are announced; and in an
    execution without ticks none is thrown away. *)
Theorem worker_conserves c ex ls w :
  steps c ex (NewWorker c) ls w ->
  (forall x, x ∈ announced w -> x ∈ accepted w)
  /\ (is_Some (loop w) -> forall b, b ∈ accepted w ->
        Key_ b ∈ map Key_ (in_flight w) \/ Key_ b ∈ map Key_ (announced w) \/ Key_ b ∈ map Key_ (lost w))
  /\ (Tick ∉ ls -> lost w = []).
Proof.
  intros Hs. pose proof (reachable_inv c ex ls w Hs) as [_ _ _ _ Hsound Hkept]. split_and!.
  - intros x Hx. apply Hsound. unfold everywhere, live. rewrite !elem_of_app. tauto.
  - intros Hl b Hb. pose proof (Hkept Hl (Key_ b) ltac:(by apply list_elem_of_fmap_2)) as H.
    unfold everywhere, live in H. rewrite !map_app, !elem_of_app in H. tauto.
  - intros Ht. by rewrite (steps_lost c ex _ ls w Hs Ht).
Qed.

Lemma worker_conserves_witness :
  exists w, accepted w = [mkBlock [x01] [x02]] /\ lost w = []
    /\ ([x01] ∈ map Key_ (in_flight w) \/ [x01] ∈ map Key_ (announced w) \/ [x01] ∈ map Key_ (lost w)).
Proof.
  destruct (accept_one DefaultConfig true (mkBlock [x01] [x02]) eq_refl) as (w & Hs & Ha & Hl).
  exists w. destruct (worker_conserves _ _ _ _ Hs) as (_ & H1 & H2). split_and!; [done|..].
  - apply H2. by intros ?%list_elem_of_singleton.
  - apply (H1 Hl (mkBlock [x01] [x02])). rewrite Ha. by left.
Defined.

Lemma steps_live c ex w ls w' k :
  steps c ex w ls w' -> inv c w -> (forall b, Accept b ∈ ls -> Key_ b <> k) ->
  k ∉ map Key_ (live w) -> k ∉ map Key_ (live w').
Proof.
  induction 1 as [|w1 l w2 ls w3 Hs _ IH]; [done|]. intros Hi Hacc Hk. apply IH.
  - by eapply step_inv.
  - intros b Hb. apply Hacc. by right.
  - destruct (step_moves c ex w1 l w2 Hs (inv_loop c w1 Hi)) as (_ & _ & Hlive & _).
    intros (b & -> & Hb)%list_elem_of_fmap. apply Hlive in Hb as [Hb| ->].
    + apply Hk. by apply list_elem_of_fmap_2.
    + apply (Hacc b); [by left|done].
Qed.

(** The first block a new worker gets is the one its loop offers. *)
Lemma first_block b :
  exists cl, on_added b (mkClient None zero) = Ok cl /\ nextBlock cl = Some b
    /\ loop_ok cl /\ queue (workQueue cl) = [].
Proof.
  destruct zero_wf as [Hz Hq]. unfold on_added, top. cbn [nextBlock workQueue].
  destruct (Push_wf zero b Hz) as [Hw Hqb]. rewrite Hq in Hqb. cbn in Hqb.
  pose proof (Pop_wf _ Hw) as Hp. rewrite Hqb in Hp. destruct Hp as (q' & -> & Hwf' & Hq').
  eexists. split_and!; [reflexivity|done|by split|done].
Qed.

(** A tick of the debug ticker throws away the block the loop is offering: the
    configuration of the block service allows a block to be accepted, and then
    never announced, whatever the worker does afterwards, unless its key is
    accepted again. *)
Theorem worker_tick_loses c ex b :
  ClientBufferSize c = 0 ->
  exists w, steps c ex (NewWorker c) [Accept b; Tick] w
    /\ accepted w = [b] /\ lost w = [b] /\ in_flight w = []
    /\ forall ls w', steps c ex w ls w' -> (forall b', Accept b' ∈ ls -> Key_ b' <> Key_ b) ->
         Key_ b ∉ map Key_ (announced w').
Proof.
  intros Hc. destruct (first_block b) as (cl & Hon & Hn & Hok & Hq).
  destruct (on_sent_spec cl Hok) as (cl' & Ht & Hok' & Hp). rewrite Hq in Hp.
  set (w1 := mkWorker [] (Some cl) [] true None [] 0 (LimitChan (workers c)) [] false [b] []).
  set (w := mkWorker [] (Some cl') [] true None [] 0 (LimitChan (workers c)) [] false [b] [b]).
  assert (H1 : step c ex (NewWorker c) (Accept b) (Run w1))
    by exact (step_HasBlock_direct c ex (NewWorker c) b _ cl Hc eq_refl Hon).
  assert (H2 : step c ex w1 Tick (Run w)).
  { pose proof (step_tick c ex w1 cl cl' eq_refl Ht) as H. rewrite Hn in H. exact H. }
  assert (Hs : steps c ex (NewWorker c) [Accept b; Tick] w).
  { econstructor; [exact H1|]. by apply steps_one. }
  assert (Hfl : in_flight w = []) by (unfold in_flight, loop_pending; cbn; by rewrite Hp).
  exists w. split_and!; [done..|]. intros ls w' Hs' Hacc.
  pose proof (steps_live c ex w ls w' (Key_ b) Hs' (reachable_inv c ex _ w Hs) Hacc) as Hl.
  unfold live in Hl at 1. rewrite Hfl in Hl. cbn in Hl. specialize (Hl (not_elem_of_nil _)).
  unfold live in Hl. rewrite map_app, elem_of_app in Hl. tauto.
Qed.

Lemma worker_tick_loses_witness :
  exists w, steps (mkConfig 25 0 0) true (NewWorker (mkConfig 25 0 0))
              [Accept (mkBlock [x01] [x02]); Tick] w
    /\ accepted w = [mkBlock [x01] [x02]] /\ in_flight w = [].
Proof.
  destruct (worker_tick_loses (mkConfig 25 0 0) true (mkBlock [x01] [x02]) eq_refl)
    as (w & H1 & H2 & _ & H3 & _).
  exists w. exact (conj H1 (conj H2 H3)).
Defined.

(** ** Progress *)

(** The work left: each stage a block goes through counts one less. *)
Definition work (w : worker) : nat :=
  6 * length (added w) + 5 * length (loop_pending w) + 4 * length (workerChan w)
  + 3 * length (option_list (holding w)) + 2 * length (running w) + freed w.

(** Working order: the loop and the dispatcher are there. *)
Definition alive (w : worker) : Prop := is_Some (loop w) /\ dispatching w = true.

(** Some internal step finishes a part of the work. *)
Definition advances (c : Config) (w : worker) : Prop :=
  exists w', step c true w Internal (Run w') /\ work w' < work w /\ alive w'
    /\ accepted w' = accepted w /\ lost w' = lost w.

Ltac advance := eexists; split_and!;
  [|unfold work, loop_pending; cbn [added loop workerChan holding running freed option_list length]
   |split; [by eexists|done]|done|done].

Lemma child_advances c w b l : running w = b :: l -> alive w -> advances c w.
Proof.
  intros Hr [Hl Hd]. eexists. split_and!; [by apply (step_exchange c true w b [] l)| |by split|done|done].
  unfold work, loop_pending. cbn. rewrite Hr. simpl. lia.
Qed.

Lemma release_advances c w n : inv c w -> freed w = S n -> alive w -> advances c w.
Proof.
  intros Hi Hf [Hl Hd]. pose proof (inv_tokens c w Hi).
  eexists. split_and!; [apply (step_release c true w n Hf); lia| |by split|done|done].
  unfold work, loop_pending. cbn. lia.
Qed.

(** The dispatcher's block waits for a token: one is free, or a child or a token
    on its way back will give one. *)
Lemma holding_advances c w b : inv c w -> holding w = Some b -> alive w -> advances c w.
Proof.
  intros Hi Hh Ha. pose proof (inv_tokens c w Hi). pose proof (workers_pos c). destruct Ha as [Hl Hd].
  destruct (tokens w) as [|n] eqn:Ht.
  - destruct (running w) as [|b' l] eqn:Hr; [|by eapply child_advances].
    destruct (freed w) as [|m] eqn:Hf; [simpl in *; lia|]. by eapply release_advances.
  - eexists. split_and!; [by apply (step_spawn c true w b n)| |by split|done|done].
    unfold work, loop_pending. cbn. rewrite Hh, length_app. simpl. lia.
Qed.

Lemma receive_advances c w b bs :
  holding w = None -> workerChan w = b :: bs -> alive w -> advances c w.
Proof.
  intros Hh Hc [Hl Hd]. eexists. split_and!; [by apply (step_receive c true w b bs)| |by split|done|done].
  unfold work, loop_pending. cbn. rewrite Hc, Hh. simpl. lia.
Qed.

Lemma loop_advances c w cl b :
  inv c w -> loop w = Some cl -> nextBlock cl = Some b -> holding w = None -> workerChan w = [] ->
  alive w -> advances c w.
Proof.
  intros Hi Hl Hn Hh Hc [_ Hd]. destruct (on_sent_spec cl (inv_loop c w Hi cl Hl)) as (cl' & Hs & _ & Hp).
  destruct (WorkerBufferSize c) as [|n] eqn:Hb.
  - eexists. split_and!; [by apply (step_send_direct c true w cl b cl')| |by split; [eexists|]|done|done].
    unfold work, loop_pending. cbn. rewrite Hl, Hp, Hh, Hc. unfold pending. rewrite Hn. simpl. lia.
  - eexists. split_and!; [apply (step_send c true w cl b cl'); [done..| |done]| |by split; [eexists|]|done|done].
    + rewrite Hc, Hb. simpl. lia.
    + unfold work, loop_pending. cbn. rewrite Hl, Hp, Hh, Hc. unfold pending. rewrite Hn. simpl. lia.
Qed.

Lemma added_advances c w cl b bs :
  inv c w -> loop w = Some cl -> added w = b :: bs -> alive w -> advances c w.
Proof.
  intros Hi Hl Ha [_ Hd].
  destruct (on_added_spec b cl (inv_loop c w Hi cl Hl)) as (cl' & Hs & _ & _ & _ & Hlen).
  eexists. split_and!; [by apply (step_added c true w b bs cl cl')| |by split; [eexists|]|done|done].
  unfold work, loop_pending. cbn. rewrite Hl, Ha. simpl. lia.
Qed.

(** As long as a block is in flight, some step is possible. *)
Lemma in_flight_advances c w : inv c w -> alive w -> in_flight w <> [] -> advances c w.
Proof.
  intros Hi Ha Hne. destruct (holding w) as [b|] eqn:Hh; [by eapply holding_advances|].
  destruct (workerChan w) as [|b bs] eqn:Hc; [|by eapply receive_advances].
  destruct (running w) as [|b l] eqn:Hr; [|by eapply child_advances].
  pose proof Ha as [[cl Hl] _]. destruct (nextBlock cl) as [b|] eqn:Hn; [by eapply loop_advances|].
  destruct (added w) as [|b bs] eqn:Hadd; [|by eapply added_advances].
  exfalso. apply Hne. unfold in_flight, loop_pending. rewrite Hh, Hc, Hr, Hl, Hadd. unfold pending. rewrite Hn.
  destruct (inv_loop c w Hi cl Hl) as [_ Hq]. by rewrite Hq.
Qed.

Lemma drain c w :
  inv c w -> alive w ->
  exists ls w', Forall (fun l => l = Internal) ls /\ steps c true w ls w' /\ in_flight w' = []
    /\ alive w' /\ accepted w' = accepted w /\ lost w' = lost w.
Proof.
  remember (work w) as n eqn:Hn. revert w Hn. induction (lt_wf n) as [n _ IH]. intros w -> Hi Ha.
  destruct (decide (in_flight w = [])) as [He|Hne].
  { exists [], w. split_and!; [constructor|constructor|done..]. }
  destruct (in_flight_advances c w Hi Ha Hne) as (w1 & Hs & Hlt & Ha1 & Hacc & Hlost).
  destruct (IH (work w1) Hlt w1 eq_refl (step_inv c true w Internal w1 Hs Hi) Ha1)
    as (ls & w' & Hls & Hs' & He & Ha' & Hacc' & Hlost').
  exists (Internal :: ls), w'. split_and!; [by constructor|by econstructor|done..|congruence|congruence].
Qed.

(** Liveness: from every reachable state in which the loop and the dispatcher
    still run, and an exchange is there, the worker can finish on its own: some
    execution of internal steps leaves nothing in flight, so that every block
    accepted so far, but those a tick threw away, is announced by its key. *)
Theorem worker_drains c ls w :
  steps c true (NewWorker c) ls w -> alive w ->
  exists ls' w', Forall (fun l => l = Internal) ls' /\ steps c true w ls' w' /\ in_flight w' = []
    /\ forall b, b ∈ accepted w ->
         Key_ b ∈ map Key_ (announced w') \/ Key_ b ∈ map Key_ (lost w).
Proof.
  intros Hs Ha. pose proof (reachable_inv c true ls w Hs) as Hi.
  destruct (drain c w Hi Ha) as (ls' & w' & Hls & Hs' & He & [Hl' _] & Hacc & Hlost).
  exists ls', w'. split_and!; [done..|]. intros b Hb. rewrite <- Hacc in Hb. rewrite <- Hlost.
  pose proof (steps_inv c true w ls' w' Hs' Hi) as Hi'.
  pose proof (inv_kept c w' Hi' Hl' (Key_ b) ltac:(by apply list_elem_of_fmap_2)) as Hk.
  unfold everywhere, live in Hk. rewrite He in Hk. cbn [app] in Hk.
  by rewrite map_app, elem_of_app in Hk.
Qed.

Lemma worker_drains_witness :
  exists ls' w', steps DefaultConfig true (NewWorker DefaultConfig) ls' w' /\ in_flight w' = [].
Proof.
  destruct (worker_drains DefaultConfig [] (NewWorker DefaultConfig)) as (ls' & w' & _ & H1 & H2 & _).
  - constructor.
  - split; [by eexists|done].
  - exists ls', w'. exact (conj H1 H2).
Defined.

(** A worker without an exchange ends the program: once [HasBlock] has accepted
    a block, the worker can reach the call on the nil exchange, which panics. *)
Theorem worker_nil_exchange_crashes c b :
  ClientBufferSize c = 0 -> WorkerBufferSize c = 0 ->
  exists ls w, steps c false (NewWorker c) (Accept b :: ls) w /\ step c false w Internal Crash.
Proof.
  intros Hc Hw. destruct (first_block b) as (cl & Hon & Hn & Hok & Hq).
  destruct (on_sent_spec cl Hok) as (cl' & Ht & Hok' & Hp). pose proof (workers_pos c) as Hpos.
  destruct (workers c) as [|n] eqn:Hwk; [lia|].
  set (mk lp h r t := mkWorker [] (Some lp) [] true h r 0 t [] false [b] []).
  exists [Internal; Internal], (mk cl' None [b] n). split.
  - econstructor; [exact (step_HasBlock_direct c false (NewWorker c) b _ cl Hc eq_refl Hon)|].
    econstructor; [exact (step_send_direct c false (mk cl None [] (workers c)) cl b cl' eq_refl Hn Hw eq_refl eq_refl Ht)|].
    rewrite Hwk. apply steps_one. exact (step_spawn c false (mk cl' (Some b) [] (S n)) b n eq_refl eq_refl).
  - by apply (step_nil_exchange c false _ b [] []).
Qed.

Lemma worker_nil_exchange_crashes_witness :
  exists ls w, steps (mkConfig 25 0 0) false (NewWorker (mkConfig 25 0 0)) (Accept (mkBlock [x01] [x02]) :: ls) w
    /\ step (mkConfig 25 0 0) false w Internal Crash.
Proof. apply (worker_nil_exchange_crashes (mkConfig 25 0 0) (mkBlock [x01] [x02]) eq_refl eq_refl). Defined.

(** The loop is not first-in first-out: a block that arrives while the loop
    offers one sends the offered block to the back of the queue, behind every
    block that came after it. *)
Theorem worker_reorders cl n b :
  loop_ok cl -> nextBlock cl = Some n -> queue (workQueue cl) <> [] ->
  Key_ n ∉ map Key_ (queue (workQueue cl)) -> Key_ b ∉ Key_ n :: map Key_ (queue (workQueue cl)) ->
  exists cl', on_added b cl = Ok cl' /\ pending cl = n :: queue (workQueue cl)
    /\ pending cl' = queue (workQueue cl) ++ [n; b].
Proof.
  intros [Hwf _] Hn Hq Hnk Hb. unfold on_added. rewrite Hn.
  destruct (Push_wf (workQueue cl) n Hwf) as [Hw1 Hq1]. rewrite decide_False in Hq1 by done.
  destruct (Push_wf _ b Hw1) as [Hw2 Hq2]. rewrite Hq1, decide_False in Hq2.
  - destruct (top_spec _ Hw2) as (cl' & -> & _ & Hp). exists cl'. split; [done|]. split.
    + unfold pending. by rewrite Hn.
    + by rewrite Hp, Hq2, <- app_assoc.
  - rewrite map_app, elem_of_app. simpl. rewrite list_elem_of_singleton. rewrite elem_of_cons in Hb. tauto.
Qed.

Lemma worker_reorders_witness :
  let q := Push (mkBlock [x02] []) zero in
  exists cl', on_added (mkBlock [x03] []) (mkClient (Some (mkBlock [x01] [])) q) = Ok cl'
    /\ pending cl' = [mkBlock [x02] []; mkBlock [x01] []; mkBlock [x03] []].
Proof.
  intros q. destruct (Push_wf zero (mkBlock [x02] []) (proj1 zero_wf)) as [Hw Hq].
  destruct (worker_reorders (mkClient (Some (mkBlock [x01] [])) q) (mkBlock [x01] []) (mkBlock [x03] []))
    as (cl' & H1 & _ & H2).
  - split; [exact Hw|done].
  - reflexivity.
  - done.
  - decide_compute.
  - decide_compute.
  - exists cl'. exact (conj H1 H2).
Defined.
