(* ===== verification/BlockService.v ===== *)
(** * The block service

    Models [blockservice/blockservice.go], the exchange interface of
    [blockservice/exchange/interface.go] and the offline exchange of
    [blockservice/exchange/offline/offline.go]. The service, the blockstore and
    the exchange act on one world [W], since the exchange may be built over the
    very blockstore of the service. *)

From S2P Require Import Prelude GoList Multihash DsKey Query Datastore Namespace BlockKey Blocks Blockstore.

(** ** exchange.Interface *)
Class Exchange (W : Type) := {
  ex_GetBlock : Key -> W -> res Block * W;
  ex_GetBlocks : list bool -> list Key -> W -> res (list Block) * W;
  ex_HasBlock : Block -> W -> res unit * W;
  ex_Close : W -> res unit * W;
}.

(** Takes the next decision of a context: whether [Done] is chosen. *)
Definition is_done (done : list bool) : bool := match done with true :: _ => true | _ => false end.

(** ** offline.go *)
Module Offline.
Section Offline.
Context {W : Type} `{Blockstore W}.
Definition GetBlock (k : Key) (w : W) : res Block * W := bs_Get k w.
Definition HasBlock (b : Block) (w : W) : res unit * W := bs_Put b w.
Definition Close (w : W) : res unit * W := (Ok tt, w).
(** The goroutine of [GetBlocks]: a [select] after every miss and every hit. *)
Fixpoint GetBlocks (done : list bool) (ks : list Key) (w : W) : res (list Block) * W :=
  match ks with
  | [] => (Ok [], w)
  | k :: ks =>
      match bs_Get k w with
      | (Panic, w) => (Panic, w)
      | (Err _, w) => if is_done done then (Ok [], w) else GetBlocks (tail done) ks w
      | (Ok hit, w) =>
          if is_done done then (Ok [], w)
          else let '(out, w) := GetBlocks (tail done) ks w in (out ← out; Ok (hit :: out), w)
      end
  end.
End Offline.
Definition Exchange_ {W} `{Blockstore W} : Exchange W := {|
  ex_GetBlock := GetBlock; ex_GetBlocks := GetBlocks; ex_HasBlock := HasBlock; ex_Close := Close |}.
End Offline.

(** ** blockservice.go *)
Section BlockService.
Context {W : Type} `{Blockstore W, Exchange W}.

(** [Exchange] may be nil. The worker is [Worker.v]'s; the service only sees
    whether it is closed, and what it has handed to it. *)
Record BlockService := mkService {
  has_Exchange : bool;
  worker_closed : bool;
  worker_blocks : list Block;
  world : W;
}.

Definition New (bs : option W) (rem : bool) : res BlockService :=
  match bs with
  | None => Err (errors_New "BlockService requires valid blockstore")
  | Some w => Ok (mkService rem false [] w)
  end.

Definition with_world (s : BlockService) (w : W) : BlockService :=
  mkService (has_Exchange s) (worker_closed s) (worker_blocks s) w.

(** [s.worker.HasBlock(b)] *)
Definition worker_HasBlock (b : Block) (s : BlockService) : option error * BlockService :=
  if worker_closed s then (Some (errors_New "blockservice worker is closed"), s)
  else (None, mkService (has_Exchange s) false (worker_blocks s ++ [b]) (world s)).

(** Both results of [(key.Key, error)] matter. *)
Definition AddBlock (b : Block) (s : BlockService) : res (Key * option error) * BlockService :=
  let k := Key_ b in
  match bs_Put b (world s) with
  | (Panic, w) => (Panic, with_world s w)
  | (Err err, w) => (Ok (k, Some err), with_world s w)
  | (Ok _, w) =>
      let s := with_world s w in
      match worker_HasBlock b s with
      | (Some _, s) => (Ok ([], Some (errors_New "blockservice is closed")), s)
      | (None, s) => (Ok (k, None), s)
      end
  end.

Definition GetBlock (k : Key) (s : BlockService) : res Block * BlockService :=
  match bs_Get k (world s) with
  | (Panic, w) => (Panic, with_world s w)
  | (Ok block, w) => (Ok block, with_world s w)
  | (Err err, w) =>
      if bool_decide (err = BsErrNotFound) && has_Exchange s then
        let '(blk, w) := ex_GetBlock k w in (blk, with_world s w)
      else (Err SvcErrNotFound, with_world s w)
  end.

(** The first loop of [GetBlocks]: the hits sent, the misses, and the decisions
    left; [inl] when the goroutine returned. *)
Fixpoint local_loop (done : list bool) (ks misses : list Key) (w : W) :
    res (list Block * (unit + list bool * list Key)) * W :=
  match ks with
  | [] => (Ok ([], inr (done, misses)), w)
  | k :: ks =>
      match bs_Get k w with
      | (Panic, w) => (Panic, w)
      | (Err _, w) => local_loop done ks (misses ++ [k]) w
      | (Ok hit, w) =>
          if is_done done then (Ok ([], inl tt), w)
          else
            let '(r, w) := local_loop (tail done) ks misses w in
            (r ← r; Ok (hit :: r.1, r.2), w)
      end
  end.

(** The second loop: the exchange's blocks are passed on. *)
Fixpoint forward_loop (done : list bool) (rblocks : list Block) : list Block :=
  match rblocks with
  | [] => []
  | b :: rblocks => if is_done done then [] else b :: forward_loop (tail done) rblocks
  end.

(** [done] is the context as the service's goroutine sees it, [done'] as the
    exchange does. *)
Definition GetBlocks (done done' : list bool) (ks : list Key) (s : BlockService) :
    res (list Block) * BlockService :=
  let '(r, w) := local_loop done ks [] (world s) in
  match r with
  | Panic => (Panic, with_world s w)
  | Err e => (Err e, with_world s w)
  | Ok (hits, inl _) => (Ok hits, with_world s w)
  | Ok (hits, inr (done, misses)) =>
      if negb (has_Exchange s) then (Panic, with_world s w)
      else
        match ex_GetBlocks done' misses w with
        | (Panic, w) => (Panic, with_world s w)
        | (Err _, w) => (Ok hits, with_world s w)
        | (Ok rblocks, w) => (Ok (hits ++ forward_loop done rblocks), with_world s w)
        end
  end.

Definition DeleteBlock (k : Key) (s : BlockService) : res unit * BlockService :=
  let '(r, w) := bs_DeleteBlock k (world s) in (r, with_world s w).

Definition Close (s : BlockService) : res unit * BlockService :=
  (Ok tt, mkService (has_Exchange s) true (worker_blocks s) (world s)).
End BlockService.
Arguments BlockService : clear implicits.

(** ** Getting many blocks from a correct store *)
Section Local.
Context {W : Type} {Debug : bool} `{BlockstoreSpec W Debug}.

Definition stored (w : W) (k : Key) : option Block := mkBlock k <$> bs_view w k.

Lemma get_honest w k :
  honest w -> path_safe k ->
  exists w', bs_Get k w = (match stored w k with Some b => Ok b | None => Err BsErrNotFound end, w')
    /\ honest w' /\ forall k', path_safe k' -> stored w' k' = stored w k'.
Proof.
  intros [Hwf Hh] Hk. destruct (bs_Get_spec w k Hwf Hk) as (w' & Hg & Hwf' & Hv).
  exists w'. unfold stored. rewrite Hg. split_and!.
  - destruct (bs_view w k) as [d|] eqn:Hd; [|done]. simpl. by rewrite (genuine_check k d (Hh k d Hk Hd)).
  - split; [done|]. intros k' d Hk'. rewrite Hv by done. by apply Hh.
  - intros k' Hk'. by rewrite Hv.
Qed.

Lemma omap_stored w w' ks :
  Forall path_safe ks -> (forall k, path_safe k -> stored w' k = stored w k) ->
  omap (stored w') ks = omap (stored w) ks.
Proof. intros Hks Hv. apply omap_ext_in. intros k Hk. apply Hv. by apply (proj1 (Forall_forall _ _) Hks). Qed.

(** The keys that are not there. *)
Definition missing (w : W) (ks : list Key) : list Key := filter (fun k => bs_view w k = None) ks.

Lemma missing_same w w' ks :
  Forall path_safe ks -> (forall k, path_safe k -> stored w' k = stored w k) ->
  missing w' ks = missing w ks.
Proof.
  intros Hks Hv. unfold missing. induction Hks as [|k ks Hk Hks IH]; [done|]. rewrite !filter_cons, IH.
  specialize (Hv k Hk). unfold stored in Hv. destruct (bs_view w' k), (bs_view w k); done.
Qed.

(** What is sent of the hits before a [select] takes [Done], and the decisions left
    when all of them are. *)
Fixpoint sent (done : list bool) (hits : list Block) : list Block * option (list bool) :=
  match hits with
  | [] => ([], Some done)
  | b :: hits =>
      if is_done done then ([], None)
      else let '(out, more) := sent (tail done) hits in (b :: out, more)
  end.

Lemma sent_all hits : sent [] hits = (hits, Some []).
Proof. induction hits as [|b hits IH]; [done|]. cbn [sent is_done tail]. by rewrite IH. Qed.

Lemma local_loop_sent w ks misses done_ :
  honest w -> Forall path_safe ks ->
  let '(out, more) := sent done_ (omap (stored w) ks) in
  exists w', local_loop done_ ks misses w
      = (Ok (out, match more with Some done' => inr (done', misses ++ missing w ks) | None => inl tt end), w')
    /\ honest w' /\ forall k, path_safe k -> stored w' k = stored w k.
Proof.
  intros Hw Hks. revert w misses done_ Hw.
  induction Hks as [|k ks Hk Hks IH]; intros w misses done_ Hw; cbn [local_loop].
  { exists w. unfold missing. by rewrite app_nil_r. }
  destruct (get_honest w k Hw Hk) as (w1 & -> & Hw1 & Hv1). rewrite omap_cons.
  unfold missing. rewrite filter_cons. fold (missing w ks).
  destruct (stored w k) as [b|] eqn:Hs; unfold stored in Hs.
  - destruct (bs_view w k) as [d|]; [|done]. cbn [sent]. destruct (is_done done_); [by exists w1|].
    specialize (IH w1 misses (tail done_) Hw1). rewrite (omap_stored w w1 ks Hks Hv1) in IH.
    destruct (sent (tail done_) (omap (stored w) ks)) as [out more]. destruct IH as (w2 & -> & Hw2 & Hv2).
    exists w2. cbn [mbind res_bind fst snd]. rewrite (missing_same w w1 ks Hks Hv1).
    split_and!; [done..|]. intros k' Hk'. by rewrite Hv2, Hv1.
  - destruct (bs_view w k) as [d|]; [done|].
    specialize (IH w1 (misses ++ [k]) done_ Hw1). rewrite (omap_stored w w1 ks Hks Hv1) in IH.
    destruct (sent done_ (omap (stored w) ks)) as [out more]. destruct IH as (w2 & -> & Hw2 & Hv2).
    exists w2. rewrite (missing_same w w1 ks Hks Hv1), <- app_assoc.
    split_and!; [done..|]. intros k' Hk'. by rewrite Hv2, Hv1.
Qed.

Lemma local_loop_all w ks misses :
  honest w -> Forall path_safe ks ->
  exists w', local_loop [] ks misses w = (Ok (omap (stored w) ks, inr ([], misses ++ missing w ks)), w')
    /\ honest w' /\ forall k, path_safe k -> stored w' k = stored w k.
Proof. intros Hw Hks. pose proof (local_loop_sent w ks misses [] Hw Hks) as H'. by rewrite sent_all in H'. Qed.

Lemma offline_GetBlocks_all w ks done_ :
  honest w -> Forall path_safe ks ->
  exists out w', Offline.GetBlocks done_ ks w = (Ok out, w')
    /\ out `prefix_of` omap (stored w) ks
    /\ (done_ = [] -> out = omap (stored w) ks)
    /\ honest w' /\ forall k, path_safe k -> stored w' k = stored w k.
Proof.
  intros Hw Hks. revert w done_ Hw.
  induction Hks as [|k ks Hk Hks IH]; intros w done_ Hw; cbn [Offline.GetBlocks]; [by exists [], w|].
  destruct (get_honest w k Hw Hk) as (w1 & -> & Hw1 & Hv1). rewrite omap_cons.
  destruct (IH w1 (tail done_) Hw1) as (out & w2 & Hrun & Hp & Hall & Hw2 & Hv2).
  rewrite (omap_stored w w1 ks Hks Hv1) in Hp, Hall.
  assert (Hv2' : forall k', path_safe k' -> stored w2 k' = stored w k') by (intros k' Hk'; by rewrite Hv2, Hv1).
  destruct (stored w k) as [b|]; destruct (is_done done_) eqn:Hd.
  - exists [], w1. split_and!; [done|apply prefix_nil|by intros ->|done..].
  - rewrite Hrun. exists (b :: out), w2. split_and!; [done|by apply prefix_cons| |done..].
    intros ->. by rewrite Hall.
  - exists [], w1. split_and!; [done|apply prefix_nil|by intros ->|done..].
  - exists out, w2. split_and!; [done..| |done|done]. intros ->. by rewrite Hall.
Qed.

(** Nothing that the store misses is found by asking it again. *)
Lemma omap_missing w ks : omap (stored w) (missing w ks) = [].
Proof.
  unfold missing. induction ks as [|k ks IH]; [done|]. rewrite filter_cons.
  destruct (decide (bs_view w k = None)) as [Hn|]; [|done]. rewrite omap_cons. unfold stored at 1.
  by rewrite Hn.
Qed.

Lemma offline_finds_none w w1 ks done_ :
  honest w1 -> Forall path_safe ks -> (forall k, path_safe k -> stored w1 k = stored w k) ->
  exists w2, Offline.GetBlocks done_ (missing w ks) w1 = (Ok [], w2)
    /\ honest w2 /\ forall k, path_safe k -> stored w2 k = stored w k.
Proof.
  intros Hw1 Hks Hv1. assert (Hmiss : Forall path_safe (missing w ks)).
  { apply Forall_forall. intros k [_ Hk]%list_elem_of_filter. by apply (proj1 (Forall_forall _ _) Hks). }
  destruct (offline_GetBlocks_all w1 (missing w ks) done_ Hw1 Hmiss) as (out & w2 & Hrun & Hp & _ & Hw2 & Hv2).
  rewrite (omap_stored w w1 _ Hmiss Hv1), omap_missing in Hp. apply prefix_nil_inv in Hp as ->.
  exists w2. split_and!; [done..|]. intros k Hk. by rewrite Hv2, Hv1.
Qed.

(** The service over its own offline exchange sends what is stored, until it is
    cancelled; without an exchange it panics when it gets that far. *)
Lemma GetBlocks_sent (s : BlockService W) done_ done' ks :
  honest (world s) -> Forall path_safe ks ->
  let E := Offline.Exchange_ in
  let '(out, more) := sent done_ (omap (stored (world s)) ks) in
  exists w', GetBlocks done_ done' ks s
      = (if more is Some _ then if has_Exchange s then Ok out else Panic else Ok out, with_world s w')
    /\ honest w' /\ forall k, path_safe k -> stored w' k = stored (world s) k.
Proof.
  intros Hw Hks E. pose proof (local_loop_sent (world s) ks [] done_ Hw Hks) as Hl.
  unfold GetBlocks. destruct (sent done_ (omap (stored (world s)) ks)) as [out more].
  destruct Hl as (w1 & -> & Hw1 & Hv1). destruct more as [done2|]; [|by exists w1].
  destruct (has_Exchange s); cbn [negb app]; [|by exists w1].
  destruct (offline_finds_none (world s) w1 ks done' Hw1 Hks Hv1) as (w2 & Hrun & Hw2 & Hv2).
  cbn [ex_GetBlocks E Offline.Exchange_]. rewrite Hrun. exists w2. cbn [forward_loop]. by rewrite app_nil_r.
Qed.
End Local.

(** ** Theorems *)

(** Adding a genuine block to an open service stores it, hands it to the worker
    and returns its key; the service then returns that block. On a closed service
    the call fails with an empty key although the block has been stored, and is
    still served. *)
Theorem AddBlock_GetBlock {W Debug} `{BlockstoreSpec W Debug} `{Exchange W} (s : BlockService W) b :
  honest (world s) -> genuine b -> path_safe (Key_ b) ->
  (forall d, bs_view (world s) (Key_ b) = Some d -> d = Data b) ->
  exists s', AddBlock b s
      = (Ok (if worker_closed s then ([], Some (errors_New "blockservice is closed")) else (Key_ b, None)), s')
    /\ worker_blocks s' = worker_blocks s ++ (if worker_closed s then [] else [b])
    /\ honest (world s')
    /\ (GetBlock (Key_ b) s').1 = Ok b.
Proof.
  intros Hw Hb Hk Hsame. destruct (bs_step_honest (BPut b) (world s) Hw (conj Hk Hb)) as [Hw' _].
  simpl in Hw'. destruct Hw as [Hwf Hh]. destruct (bs_Put_spec (world s) b Hwf Hk) as (w' & Hp & Hwf' & Hv).
  rewrite Hp in Hw'. simpl in Hw'.
  assert (Hstored : stored w' (Key_ b) = Some b).
  { unfold stored. rewrite Hv, decide_True by done.
    destruct (bs_view (world s) (Key_ b)) as [d|] eqn:Hd; simpl; [rewrite (Hsame d eq_refl)|]; by destruct b. }
  destruct (get_honest w' (Key_ b) Hw' Hk) as (w'' & Hg & _). rewrite Hstored in Hg.
  unfold AddBlock, worker_HasBlock, GetBlock. rewrite Hp. cbn [worker_closed with_world].
  destruct (worker_closed s); eexists; split_and!; try reflexivity; cbn [world with_world worker_blocks];
    try done; try (by rewrite app_nil_r); by rewrite Hg.
Qed.

Lemma AddBlock_GetBlock_witness :
  let R := elements_range DsKey.Key in
  let B := @blockstore_Blockstore true (Namespace.datastore MapDatastore.MapDatastore) _ in
  let E := Offline.Exchange_ in
  exists s s', New (Some (over_store empty_store)) true = Ok s
    /\ AddBlock abc s = (Ok (Key_ abc, None), s')
    /\ (GetBlock (Key_ abc) s').1 = Ok abc.
Proof.
  intros R B E.
  destruct (@AddBlock_GetBlock _ true B (blockstore_Spec true) E
    (mkService true false [] (over_store empty_store)) abc) as (s' & H1 & _ & _ & H2).
  - apply empty_honest.
  - apply abc_genuine.
  - apply abc_safe.
  - done.
  - exists (mkService true false [] (over_store empty_store)), s'.
    exact (conj eq_refl (conj H1 H2)).
Defined.

(** C28. [GetBlock] goes to the exchange exactly when the blockstore says
    [ErrNotFound] and there is an exchange, and then returns what the exchange
    does; a block found locally is returned as it is; every other error of the
    store, whatever it is, is reported as the service's own [ErrNotFound]. *)
Theorem GetBlock_sources {W} `{Blockstore W, Exchange W} (s : BlockService W) k r w :
  bs_Get k (world s) = (r, w) ->
  (forall b, r = Ok b -> GetBlock k s = (Ok b, with_world s w))
  /\ (r = Err BsErrNotFound -> has_Exchange s = true ->
        GetBlock k s = let '(x, w') := ex_GetBlock k w in (x, with_world s w'))
  /\ (r = Err BsErrNotFound -> has_Exchange s = false -> GetBlock k s = (Err SvcErrNotFound, with_world s w))
  /\ (forall e, r = Err e -> e <> BsErrNotFound -> GetBlock k s = (Err SvcErrNotFound, with_world s w)).
Proof.
  intros Hg. unfold GetBlock. rewrite Hg. split_and!.
  - by intros b ->.
  - intros -> Hx. rewrite Hx. done.
  - intros -> Hx. rewrite Hx. done.
  - intros e -> He. by rewrite bool_decide_eq_false_2.
Qed.

Lemma GetBlock_sources_witness :
  let R := elements_range DsKey.Key in
  let B := @blockstore_Blockstore false (Namespace.datastore MapDatastore.MapDatastore) _ in
  let E := Offline.Exchange_ in
  (GetBlock (str "nokey") (mkService false false [] (over_store empty_store))).1 = Err SvcErrNotFound.
Proof.
  intros R B E.
  assert (Hg : @bs_Get _ B (str "nokey") (over_store empty_store) = (Err BsErrNotFound, over_store empty_store))
    by reflexivity.
  destruct (@GetBlock_sources _ B E (mkService false false [] (over_store empty_store)) (str "nokey") _ _ Hg)
    as (_ & _ & H & _).
  rewrite (H eq_refl eq_refl). reflexivity.
Defined.

(** With the offline exchange over its own blockstore, [GetBlocks] delivers
    exactly the blocks that are stored, in the order of the keys, each with the
    data of its hash, and then closes the channel; a cancelled context cuts this
    list short. *)
Theorem GetBlocks_offline {W Debug} `{BlockstoreSpec W Debug} (s : BlockService W) ks :
  honest (world s) -> Forall path_safe ks -> has_Exchange s = true ->
  let E := Offline.Exchange_ in
  exists s', GetBlocks [] [] ks s = (Ok (omap (stored (world s)) ks), s')
    /\ honest (world s')
    /\ Forall genuine (omap (stored (world s)) ks)
    /\ forall done_, exists out, (GetBlocks [] done_ ks s).1 = Ok out
         /\ out `prefix_of` omap (stored (world s)) ks.
Proof.
  intros Hw Hks Hx E.
  assert (Hrun : forall done_, exists w', GetBlocks [] done_ ks s
            = (Ok (omap (stored (world s)) ks), with_world s w') /\ honest w').
  { intros done_. pose proof (GetBlocks_sent s [] done_ ks Hw Hks) as Hg. rewrite sent_all, Hx in Hg.
    destruct Hg as (w' & Hg & Hw' & _). by exists w'. }
  destruct (Hrun []) as (w' & Hg & Hw'). exists (with_world s w'). split_and!; [done..| |].
  - apply Forall_forall. intros b (k & Hk & Hs)%list_elem_of_omap. unfold stored in Hs.
    destruct (bs_view (world s) k) as [d|] eqn:Hd; [|done]. simpl in Hs. injection Hs as <-.
    apply Hw; [by apply (proj1 (Forall_forall _ _) Hks)|done].
  - intros done_. destruct (Hrun done_) as (w3 & Hrun3 & _). eexists. split; [|reflexivity]. by rewrite Hrun3.
Qed.

Lemma GetBlocks_offline_witness :
  let R := elements_range DsKey.Key in
  let B := @blockstore_Blockstore true (Namespace.datastore MapDatastore.MapDatastore) _ in
  let E := Offline.Exchange_ in
  exists s', GetBlocks [] [] [Key_ abc] (mkService true false [] (over_store empty_store)) = (Ok [], s').
Proof.
  intros R B E.
  destruct (@GetBlocks_offline _ true B (blockstore_Spec true)
    (mkService true false [] (over_store empty_store)) [Key_ abc]) as (s' & H & _).
  - apply empty_honest.
  - constructor; [exact abc_safe|constructor].
  - done.
  - exists s'. exact H.
Defined.

(** [GetBlocks] of a service without an exchange panics, where [GetBlock] takes
    care of the nil exchange: whatever the keys, even if every block is local,
    unless the context is cancelled before the last hit is sent. *)
Theorem GetBlocks_nil_exchange_panics {W Debug} `{BlockstoreSpec W Debug} `{Exchange W}
    (s : BlockService W) done' ks :
  honest (world s) -> Forall path_safe ks -> has_Exchange s = false ->
  (GetBlocks [] done' ks s).1 = Panic.
Proof.
  intros Hw Hks Hx. destruct (local_loop_all (world s) ks [] Hw Hks) as (w1 & Hl & _).
  unfold GetBlocks. rewrite Hl, Hx. done.
Qed.

Lemma GetBlocks_nil_exchange_panics_witness :
  let R := elements_range DsKey.Key in
  let B := @blockstore_Blockstore true (Namespace.datastore MapDatastore.MapDatastore) _ in
  let E := Offline.Exchange_ in
  (GetBlocks [] [] [] (mkService false false [] (over_store empty_store))).1 = Panic.
Proof.
  intros R B E. apply (@GetBlocks_nil_exchange_panics _ true B (blockstore_Spec true) E).
  - apply empty_honest.
  - constructor.
  - reflexivity.
Defined.
