(* ===== verification/Process.v ===== *)
(** * Process trees

    Models [Godeps/.../goprocess]: [impl-mutex.go], [link.go] and the constructors
    of [goprocess.go]. Goroutines are threads of frames, one frame for each point
    where a goroutine can be between two steps; a step is one critical section of
    the process's mutex, or one channel operation. A [chan struct{}] that is only
    ever closed is a boolean. *)

From S2P Require Import Prelude.

Abbreviation pid := nat.
Abbreviation lid := nat.

(** What a client gave as a [TeardownFunc]: its identity and what it returns. *)
Inductive TeardownFunc := nilTeardownFunc | Teardown (id : nat) (err : option error).
Definition run_teardown (tf : TeardownFunc) : option error :=
  match tf with nilTeardownFunc => None | Teardown _ err => err end.

(** [made_for] is ghost: the child the link was made with. *)
Record processLink := mkLink { parent : option pid; child : option pid; made_for : pid }.

(** [locked] is the mutex; [unclosable] marks [Background()]. The field [waiting]
    of the source is never assigned, so receiving from it always blocks. *)
Record process := mkProcess {
  children : list lid;
  waitfors : list lid;
  waiters : list lid;
  teardown : TeardownFunc;
  closing : bool;
  closed : bool;
  closeErr : option error;
  locked : bool;
  unclosable : bool;
}.

(** [log], [waits] and [kids] are ghost: the teardowns that ran, in order, and the
    pairs that [WaitFor] and [AddChild], or [AddChild] and [AddChildNoWait], have
    registered on a process that was not closed yet. *)
Record store := mkStore {
  procs : list process;
  links : list processLink;
  log : list (pid * TeardownFunc);
  waits : list (pid * pid);
  kids : list (pid * pid);
}.

Definition newProcess (tf : TeardownFunc) (unc : bool) : process :=
  mkProcess [] [] [] tf false false None false unc.
(** [background], the process of [Background()], is the first of the store. *)
Definition Background : pid := 0.
Definition newProcessLink (p c : pid) : processLink := mkLink (Some p) (Some c) c.

(** ** Updates *)
Definition set_lock (b : bool) (P : process) : process :=
  mkProcess (children P) (waitfors P) (waiters P) (teardown P) (closing P) (closed P) (closeErr P) b (unclosable P).
Definition start_closing (P : process) : process :=
  mkProcess (children P) (waitfors P) (waiters P) (teardown P) true (closed P) (closeErr P) true (unclosable P).
Definition forget (P : process) : process :=
  mkProcess [] [] (waiters P) (teardown P) (closing P) (closed P) (closeErr P) (locked P) (unclosable P).
Definition finish (P : process) : process :=
  mkProcess (children P) (waitfors P) (waiters P) (teardown P) (closing P) true (run_teardown (teardown P)) false (unclosable P).
Definition add_waiter (l : lid) (P : process) : process :=
  mkProcess (children P) (waitfors P) (waiters P ++ [l]) (teardown P) (closing P) (closed P) (closeErr P) (locked P) (unclosable P).
Definition set_teardown (tf : TeardownFunc) (P : process) : process :=
  mkProcess (children P) (waitfors P) (waiters P) tf (closing P) (closed P) (closeErr P) (locked P) (unclosable P).
(** Registering a link: as a child to close, as a process to wait for, or both. *)
Definition register (kid wait : bool) (l : lid) (P : process) : process :=
  mkProcess (if kid then children P ++ [l] else children P) (if wait then waitfors P ++ [l] else waitfors P)
    (waiters P) (teardown P) (closing P) (closed P) (closeErr P) (locked P) (unclosable P).

Definition upd (p : pid) (f : process -> process) (s : store) : store :=
  mkStore (alter f p (procs s)) (links s) (log s) (waits s) (kids s).
Definition upd_link (l : lid) (f : processLink -> processLink) (s : store) : store :=
  mkStore (procs s) (alter f l (links s)) (log s) (waits s) (kids s).

Definition ClearChild (l : lid) : store -> store :=
  upd_link l (fun k => mkLink (parent k) None (made_for k)).
Definition ParentClear (l : lid) : store -> store :=
  upd_link l (fun k => mkLink None (child k) (made_for k)).
Definition Child (l : lid) (s : store) : option pid := links s !! l ≫= child.
Definition is_closed (s : store) (p : pid) : bool :=
  match procs s !! p with Some P => closed P | None => false end.
Definition is_closing (s : store) (p : pid) : bool :=
  match procs s !! p with Some P => closing P | None => false end.
(** Whether receiving from [ChildClosed()] returns. *)
Definition ChildClosed (l : lid) (s : store) : bool :=
  match Child l s with Some c => is_closed s c | None => true end.

(** ** Goroutines *)
Inductive frame :=
  (* Close, of the interface, and of a [*process] *)
  | FClose (p : pid) | FCloseSelf (p : pid) | FWaitClosed (p : pid)
  (* doClose: the loop, over the children, over the waitfors, a wait without the lock *)
  | FLoop (p : pid) | FChildren (p : pid) (ls : list lid) | FWaitfors (p : pid) (wf : list lid)
  | FWaiting (p : pid) (w : lid) (wf : list lid) | FRelock (p : pid) (w : lid) (wf : list lid)
  | FTeardown (p : pid)
  | FClear (ls : list lid)
  (* AddToChild *)
  | FAdd (l : lid) | FAddLock (l : lid) (c : pid)
  (* CloseAfterChildren *)
  | FAfter (p : pid) | FNext (p : pid) | FWaitNext (p : pid) (c : pid)
  (* the client's function, in the goroutine of Go *)
  | FBody.

(** A frame blocks, panics, or goes on: as other frames, with new goroutines. *)
Inductive outcome := Blocked | Panics | Next (fs gos : list frame) (s : store).

(** [nextToWaitFor]: the first child that is not closed. *)
Fixpoint nextToWaitFor (wf : list lid) (s : store) : option pid :=
  match wf with
  | [] => None
  | e :: wf =>
      match Child e s with
      | Some c => if is_closed s c then nextToWaitFor wf s else Some c
      | None => nextToWaitFor wf s
      end
  end.

Definition Close (p : pid) (P : process) (s : store) : outcome :=
  if locked P then Blocked
  else if closing P then Next [FWaitClosed p] [] s
  else Next [FLoop p] [] (upd p start_closing s).

Definition with_proc (s : store) (p : pid) (f : process -> outcome) : outcome :=
  match procs s !! p with Some P => f P | None => Blocked end.

(** [AddToChild]: reading the child, and the critical section of its mutex. *)
Definition AddToChild (l : lid) (s : store) : outcome :=
  match Child l s with
  | Some c => with_proc s c (fun C => if unclosable C then Panics else Next [FAddLock l c] [] s)
  | None => Panics
  end.
Definition AddToChild_locked (l : lid) (c : pid) (s : store) : outcome :=
  with_proc s c (fun C =>
    if locked C then Blocked
    else if closed C then Next [FClear [l]] [] s
    else Next [] [] (upd c (add_waiter l) s)).

Definition exec (f : frame) (s : store) : outcome :=
  match f with
  | FClose p => with_proc s p (fun P => if unclosable P then Blocked else Close p P s)
  | FCloseSelf p => with_proc s p (fun P => Close p P s)
  | FWaitClosed p => if is_closed s p then Next [] [] s else Blocked
  | FLoop p => with_proc s p (fun P =>
      match children P, waitfors P with
      | [], [] => Next [FTeardown p] [] s
      | ls, _ => Next [FChildren p ls] [] s
      end)
  | FChildren p (l :: ls) =>
      Next [FChildren p ls] (match Child l s with Some c => [FClose c] | None => [] end) (ParentClear l s)
  | FChildren p [] => with_proc s p (fun P => Next [FWaitfors p (waitfors P)] [] (upd p forget s))
  | FWaitfors p (w :: wf) => Next [FWaiting p w wf] [] (upd p (set_lock false) s)
  | FWaitfors p [] => Next [FLoop p] [] s
  | FWaiting p w wf => if ChildClosed w s then Next [FRelock p w wf] [] s else Blocked
  | FRelock p w wf => with_proc s p (fun P =>
      if locked P then Blocked else Next [FWaitfors p wf] [] (ParentClear w (upd p (set_lock true) s)))
  | FTeardown p => with_proc s p (fun P =>
      Next [] [FClear (waiters P)]
        (mkStore (alter finish p (procs s)) (links s) (log s ++ [(p, teardown P)]) (waits s) (kids s)))
  | FClear (l :: ls) => Next [FClear ls] [] (ClearChild l s)
  | FClear [] => Next [] [] s
  | FAdd l => AddToChild l s
  | FAddLock l c => AddToChild_locked l c s
  | FAfter p => with_proc s p (fun P =>
      if locked P then Blocked
      else if closed P then Next [FCloseSelf p] [] s
      else Next [FNext p] [] s)
  | FNext p => with_proc s p (fun P =>
      if locked P then Blocked
      else match nextToWaitFor (waitfors P) s with
           | Some c => Next [FWaitNext p c] [] s
           | None => Next [FCloseSelf p] [] s
           end)
  | FWaitNext p c => if is_closed s c then Next [FNext p] [] s else Blocked
  | FBody => Blocked
  end.

(** ** Calls of a client *)

(** The common part of [WaitFor], [AddChild] and [AddChildNoWait], once the
    [select] has not panicked. *)
Definition add_link (kid wait : bool) (p c : pid) (s : store) : store :=
  let s' := upd p (register kid wait (length (links s))) s in
  let live := negb (is_closed s p) in
  mkStore (procs s') (links s ++ [newProcessLink p c]) (log s)
    (if wait && live then waits s ++ [(p, c)] else waits s)
    (if kid && live then kids s ++ [(p, c)] else kids s).

Definition WaitFor (p : pid) (q : option pid) (s : store) : outcome :=
  match q with
  | None => Panics
  | Some q => with_proc s p (fun P =>
      if locked P then Blocked
      else if closed P then Panics
      else Next [] [FAdd (length (links s))] (add_link false true p q s))
  end.

(** [AddChildNoWait] and, with [wait], [AddChild]. On a closed process both of the
    first cases of the [select] are ready, and Go picks one: [pick] says whether it
    is the panic. *)
Definition AddChild_ (wait : bool) (p : pid) (c : option pid) (pick : bool) (s : store) : outcome :=
  match c with
  | None => Panics
  | Some c => with_proc s p (fun P =>
      if locked P then Blocked
      else if closed P && pick then Panics
      else Next [] ((if closing P then [FClose c] else []) ++ [FAdd (length (links s))])
             (add_link true wait p c s))
  end.

Definition AddChildNoWait := AddChild_ false.
Definition AddChild := AddChild_ true.

Definition SetTeardown (p : pid) (tf : option TeardownFunc) (s : store) : outcome :=
  with_proc s p (fun P =>
    if locked P then Blocked
    else Next [] [] (upd p (set_teardown (default nilTeardownFunc tf)) s)).

Definition new_process (tf : TeardownFunc) (s : store) : pid * store :=
  (length (procs s), mkStore (procs s ++ [newProcess tf false]) (links s) (log s) (waits s) (kids s)).

Definition WithTeardown (tf : option TeardownFunc) (s : store) : outcome :=
  match tf with
  | None => Panics
  | Some tf => Next [] [] (new_process tf s).2
  end.

Definition WithParent (parent : option pid) (pick : bool) (s : store) : outcome :=
  match parent with
  | None => Panics
  | Some parent => let '(q, s) := new_process nilTeardownFunc s in AddChild parent (Some q) pick s
  end.

(** The two processes of [Go], the first waiting for the second. *)
Definition go_processes (s : store) : pid * pid * store :=
  let '(c, s) := new_process nilTeardownFunc s in
  let '(w, s) := new_process nilTeardownFunc s in
  (c, w, add_link false true c w s).

(** The goroutine that [Go] starts, and the one that adds the link to [waitFor]. *)
Definition Go (p : pid) (pick : bool) (s : store) : outcome * list frame :=
  let l := length (links s) in
  let '(c, w, s) := go_processes s in
  match AddChild p (Some c) pick s with
  | Next fs gos s => (Next fs (FAdd l :: gos) s, [FBody; FClose w; FAfter c])
  | o => (o, [])
  end.

(** [goprocess.Go] *)
Definition Go_top (s : store) : outcome * list frame :=
  let l := length (links s) in
  let '(p, w, s) := go_processes s in (Next [] [FAdd l] s, [FBody; FClose w; FClose p]).

(** ** Executions *)
Inductive call :=
  | CClose (p : pid) | CCloseAfterChildren (p : pid)
  | CWaitFor (p : pid) (q : option pid)
  | CAddChildNoWait (p : pid) (q : option pid) (pick : bool)
  | CAddChild (p : pid) (q : option pid) (pick : bool)
  | CSetTeardown (p : pid) (tf : option TeardownFunc)
  | CGo (p : pid) (pick : bool) | CGo_top
  | CWithTeardown (tf : option TeardownFunc) | CWithParent (p : option pid) (pick : bool).

(** A call: its outcome, and the threads it starts with more than one frame. *)
Definition exec_call (c : call) (s : store) : outcome * list (list frame) :=
  match c with
  | CClose p => (Next [] [FClose p] s, [])
  | CCloseAfterChildren p => (Next [] [FAfter p] s, [])
  | CWaitFor p q => (WaitFor p q s, [])
  | CAddChildNoWait p q pick => (AddChildNoWait p q pick s, [])
  | CAddChild p q pick => (AddChild p q pick s, [])
  | CSetTeardown p tf => (SetTeardown p tf s, [])
  | CGo p pick => let '(o, t) := Go p pick s in (o, [t])
  | CGo_top => let '(o, t) := Go_top s in (o, [t])
  | CWithTeardown tf => (WithTeardown tf s, [])
  | CWithParent p pick => (WithParent p pick s, [])
  end.

Abbreviation thread := (list frame).
Record machine := mkMachine { mem : store; threads : list thread }.
Inductive state := Running (m : machine) | Crash.
Inductive label := Internal | Return | Call (c : call).

Definition spawned (gos : list frame) : list thread := map (fun f => [f]) gos.

Inductive step : machine -> label -> state -> Prop :=
  | step_frame s t1 f k t2 fs gos s' :
      exec f s = Next fs gos s' ->
      step (mkMachine s (t1 ++ (f :: k) :: t2)) Internal
        (Running (mkMachine s' (t1 ++ (fs ++ k) :: t2 ++ spawned gos)))
  | step_panic s t1 f k t2 :
      exec f s = Panics -> step (mkMachine s (t1 ++ (f :: k) :: t2)) Internal Crash
  (* the client's function returns *)
  | step_return s t1 k t2 :
      step (mkMachine s (t1 ++ (FBody :: k) :: t2)) Return (Running (mkMachine s (t1 ++ k :: t2)))
  | step_call s ts c fs gos s' t :
      exec_call c s = (Next fs gos s', t) ->
      step (mkMachine s ts) (Call c) (Running (mkMachine s' (ts ++ t ++ spawned gos)))
  | step_call_panic s ts c t :
      exec_call c s = (Panics, t) -> step (mkMachine s ts) (Call c) Crash.

Inductive reachable : machine -> Prop :=
  | reachable_init : reachable (mkMachine (mkStore [newProcess nilTeardownFunc true] [] [] [] []) [])
  | reachable_step m l m' : reachable m -> step m l (Running m') -> reachable m'.

(** An executable run: which thread moves, a function returns, or a client calls. *)
Inductive move := MThread (i : nat) | MReturn (i : nat) | MCall (c : call).
Definition do_move (mv : move) (m : machine) : option machine :=
  match mv with
  | MThread i =>
      match threads m !! i with
      | Some (f :: k) =>
          match exec f (mem m) with
          | Next fs gos s' =>
              Some (mkMachine s' (take i (threads m) ++ (fs ++ k) :: drop (S i) (threads m) ++ spawned gos))
          | _ => None
          end
      | _ => None
      end
  | MReturn i =>
      match threads m !! i with
      | Some (FBody :: k) => Some (mkMachine (mem m) (take i (threads m) ++ k :: drop (S i) (threads m)))
      | _ => None
      end
  | MCall c =>
      match exec_call c (mem m) with
      | (Next _ gos s', t) => Some (mkMachine s' (threads m ++ t ++ spawned gos))
      | _ => None
      end
  end.
Fixpoint do_moves (mvs : list move) (m : machine) : option machine :=
  match mvs with [] => Some m | mv :: mvs => do_move mv m ≫= do_moves mvs end.

Definition boot : machine := mkMachine (mkStore [newProcess nilTeardownFunc true] [] [] [] []) [].

Lemma do_move_reachable mv m m' : reachable m -> do_move mv m = Some m' -> reachable m'.
Proof.
  intros Hm H. destruct m as [s ts]. destruct mv as [i|i|c]; simpl in H.
  - destruct (ts !! i) as [[|f k]|] eqn:Hi; [done| |done]. destruct (exec f s) eqn:He; simplify_eq.
    eapply reachable_step; [done|]. rewrite <- (take_drop_middle ts i (f :: k) Hi) at 1.
    by apply step_frame.
  - destruct (ts !! i) as [[|[] k]|] eqn:Hi; simplify_eq.
    eapply reachable_step; [done|]. rewrite <- (take_drop_middle ts i (FBody :: k) Hi) at 1.
    apply step_return.
  - destruct (exec_call c s) as [[| |fs gos s'] t] eqn:He; simplify_eq.
    eapply reachable_step; [done|]. by eapply step_call.
Qed.

Lemma do_moves_reachable mvs m m' : reachable m -> do_moves mvs m = Some m' -> reachable m'.
Proof.
  revert m. induction mvs as [|mv mvs IH]; simpl; intros m Hm H; [by simplify_eq|].
  destruct (do_move mv m) as [m1|] eqn:H1; [|done]. simpl in H. eapply IH; [|done]. by eapply do_move_reachable.
Qed.

(** ** Flat executions

    For the invariants a machine is its store and the bag of all its frames, and a
    step is one of six effects. *)
Definition passive (f : frame) : bool :=
  match f with FClose _ | FCloseSelf _ | FAfter _ | FBody => true | _ => false end.

Inductive fstep : store -> list frame -> store -> list frame -> Prop :=
  | f_exec s f G fs gos s' : exec f s = Next fs gos s' -> fstep s (f :: G) s' (fs ++ gos ++ G)
  | f_return s G : fstep s (FBody :: G) s G
  | f_new tf s G : fstep s G (new_process tf s).2 G
  | f_link kid wait p c P s G :
      procs s !! p = Some P -> locked P = false -> (kid = false -> closed P = false) ->
      fstep s G (add_link kid wait p c s)
        (FAdd (length (links s)) :: (if kid && closing P then [FClose c] else []) ++ G)
  | f_set_teardown tf p P s G :
      procs s !! p = Some P -> locked P = false -> fstep s G (upd p (set_teardown tf) s) G
  | f_spawn fs s G : Forall (fun f => passive f = true) fs -> fstep s G s (fs ++ G).

(** An invariant of flat executions does not depend on the order of the bag. *)
Inductive freach : store -> list frame -> Prop :=
  | freach_init : freach (mem boot) []
  | freach_step s G s' G' : freach s G -> fstep s G s' G' -> freach s' G'
  | freach_perm s G G' : freach s G -> G ≡ₚ G' -> freach s G'.

Lemma concat_spawned gos : concat (spawned gos) = gos.
Proof. induction gos as [|f gos IH]; simpl; [done|]. by f_equal. Qed.

Lemma freach_link kid wait p c P s G :
  freach s G -> procs s !! p = Some P -> locked P = false -> (kid = false -> closed P = false) ->
  freach (add_link kid wait p c s)
    (FAdd (length (links s)) :: (if kid && closing P then [FClose c] else []) ++ G).
Proof. intros Hr Hp Hl Hk. eapply freach_step; [done|]. by eapply f_link. Qed.

Lemma freach_AddChild wait p c pick s G fs gos s' :
  freach s G -> AddChild_ wait p c pick s = Next fs gos s' -> fs = [] /\ freach s' (gos ++ G).
Proof.
  intros Hr. unfold AddChild_, with_proc. destruct c as [c|]; [|done].
  destruct (procs s !! p) as [P|] eqn:Hp; [|done]. destruct (locked P) eqn:Hl; [done|].
  destruct (closed P && pick); intros; simplify_eq. split; [done|].
  eapply freach_perm; [eapply (freach_link true wait p c P); done|]. simpl. solve_Permutation.
Qed.

Lemma freach_go s G c w s' :
  freach s G -> go_processes s = (c, w, s') -> freach s' (FAdd (length (links s)) :: G).
Proof.
  intros Hr Hg. injection Hg as <- <- <-.
  set (c := length (procs s)). set (w := length (procs s ++ [newProcess nilTeardownFunc false])).
  set (s2 := mkStore _ _ _ _ _).
  apply (freach_link false true c w (newProcess nilTeardownFunc false) s2 G); [|simpl|done|done].
  - eapply freach_step; [eapply freach_step; [done|apply (f_new nilTeardownFunc s)]|].
    apply (f_new nilTeardownFunc (new_process nilTeardownFunc s).2).
  - rewrite lookup_app_l by (rewrite length_app; simpl; lia). by rewrite lookup_app_r, Nat.sub_diag.
Qed.

Lemma freach_call c s G fs gos s' t :
  freach s G -> exec_call c s = (Next fs gos s', t) -> freach s' (gos ++ concat t ++ G).
Proof.
  intros Hr H. destruct c; cbn [exec_call] in H.
  - simplify_eq. eapply freach_step; [done|]. apply (f_spawn [_]). by repeat constructor.
  - simplify_eq. eapply freach_step; [done|]. apply (f_spawn [_]). by repeat constructor.
  - unfold WaitFor, with_proc in H. destruct q as [q|]; [|done]. destruct (procs s !! p) as [P|] eqn:Hp; [|done].
    destruct (locked P) eqn:Hl, (closed P) eqn:Hc; simplify_eq.
    apply (freach_link false true p q P); done.
  - simplify_eq. by eapply freach_AddChild.
  - simplify_eq. by eapply freach_AddChild.
  - unfold SetTeardown, with_proc in H. destruct (procs s !! p) as [P|] eqn:Hp; [|done].
    destruct (locked P) eqn:Hl; simplify_eq. eapply freach_step; [done|]. by eapply f_set_teardown.
  - unfold Go in H. destruct (go_processes s) as [[c w] s1] eqn:Hg.
    pose proof (freach_go s G c w s1 Hr Hg) as Hr1. clear Hg.
    destruct (AddChild p (Some c) pick s1) as [| |fs1 gos1 s2] eqn:Ha; simplify_eq.
    destruct (freach_AddChild true p (Some c) pick s1 _ fs gos1 s' Hr1 Ha) as [_ Hr2].
    eapply freach_perm; [eapply freach_step; [exact Hr2|apply (f_spawn [FBody; FClose w; FAfter c])]|].
    + by repeat constructor.
    + simpl. solve_Permutation.
  - unfold Go_top in H. destruct (go_processes s) as [[c w] s1] eqn:Hg.
    pose proof (freach_go s G c w s1 Hr Hg) as Hr1. clear Hg. simplify_eq.
    eapply freach_perm; [eapply freach_step; [exact Hr1|apply (f_spawn [FBody; FClose w; FClose c])]|].
    + by repeat constructor.
    + simpl. solve_Permutation.
  - unfold WithTeardown in H. destruct tf; simplify_eq. eapply freach_step; [done|]. apply f_new.
  - destruct p as [p|]; [|discriminate]. apply pair_eq in H as [H <-].
    apply (freach_AddChild true p (Some (new_process nilTeardownFunc s).1) pick
             (new_process nilTeardownFunc s).2 G fs gos s'); [|exact H].
    eapply freach_step; [done|]. apply f_new.
Qed.

Lemma reachable_flat m : reachable m -> freach (mem m) (concat (threads m)).
Proof.
  induction 1 as [|m l m' _ IH Hs]; [constructor|].
  inversion Hs; subst; simpl in *; rewrite ?concat_app in *; simpl in *.
  - eapply freach_perm; [eapply freach_step; [eapply freach_perm; [exact IH|]|by apply f_exec]|].
    + by rewrite <- Permutation_middle.
    + rewrite !concat_app, concat_spawned. solve_Permutation.
  - eapply freach_step; [eapply freach_perm; [exact IH|]|apply f_return].
    by rewrite <- Permutation_middle.
  - eapply freach_perm; [by eapply freach_call|]. rewrite ?concat_app, concat_spawned. solve_Permutation.
Qed.
