(* ===== verification/ProcessFacts.v ===== *)
(** * Process trees: what every execution keeps

    The invariants of [Process.v]: the life cycle of a process and its mutex, the
    links, the processes waited for and the children; and the theorems on teardown,
    waiting and deadlock that follow. *)

From S2P Require Import Prelude Process.

(** ** Stores *)
Lemma procs_upd p f s q :
  procs (upd p f s) !! q = (if decide (p = q) then f <$> procs s !! q else procs s !! q).
Proof. unfold upd. cbn [procs]. rewrite list_lookup_alter. by destruct (decide (p = q)) as [->|]. Qed.

Lemma is_closed_lookup s p P : procs s !! p = Some P -> is_closed s p = closed P.
Proof. unfold is_closed. by intros ->. Qed.
Lemma is_closing_lookup s p P : procs s !! p = Some P -> is_closing s p = closing P.
Proof. unfold is_closing. by intros ->. Qed.

(** What an update of one process does to the two flags of every process. *)
Lemma is_closed_upd p f s P q :
  procs s !! p = Some P ->
  is_closed (upd p f s) q = if decide (p = q) then closed (f P) else is_closed s q.
Proof.
  intros Hp. unfold is_closed. rewrite procs_upd. destruct (decide (p = q)) as [<-|]; by rewrite ?Hp.
Qed.
Lemma is_closing_upd p f s P q :
  procs s !! p = Some P ->
  is_closing (upd p f s) q = if decide (p = q) then closing (f P) else is_closing s q.
Proof.
  intros Hp. unfold is_closing. rewrite procs_upd. destruct (decide (p = q)) as [<-|]; by rewrite ?Hp.
Qed.

Lemma new_process_lookup tf s q Q :
  procs (new_process tf s).2 !! q = Some Q ->
  procs s !! q = Some Q \/ q = length (procs s) /\ Q = newProcess tf false.
Proof. simpl. intros [?|[? ?%list_lookup_singleton_Some]]%lookup_app_Some; naive_solver lia. Qed.
Lemma is_closed_new tf s q : is_closed (new_process tf s).2 q = is_closed s q.
Proof.
  unfold is_closed. simpl. destruct (procs s !! q) eqn:Hq.
  - by erewrite lookup_app_l_Some.
  - rewrite lookup_app_r by by apply lookup_ge_None. by destruct (q - length (procs s)) as [|[]].
Qed.
Lemma is_closing_new tf s q : is_closing (new_process tf s).2 q = is_closing s q.
Proof.
  unfold is_closing. simpl. destruct (procs s !! q) eqn:Hq.
  - by erewrite lookup_app_l_Some.
  - rewrite lookup_app_r by by apply lookup_ge_None. by destruct (q - length (procs s)) as [|[]].
Qed.

(** ** The life cycle *)

(** The frames of the one goroutine that closes [p], and those that hold its mutex. *)
Definition closer (p : pid) (f : frame) : bool :=
  match f with
  | FLoop q | FChildren q _ | FWaitfors q _ | FWaiting q _ _ | FRelock q _ _ | FTeardown q => p =? q
  | _ => false
  end.
Definition holder (p : pid) (f : frame) : bool :=
  match f with
  | FLoop q | FChildren q _ | FWaitfors q _ | FTeardown q => p =? q
  | _ => false
  end.
Fixpoint closers (p : pid) (G : list frame) : nat :=
  match G with [] => 0 | f :: G => Nat.b2n (closer p f) + closers p G end.

Lemma closers_app p G1 G2 : closers p (G1 ++ G2) = closers p G1 + closers p G2.
Proof. induction G1; simpl; lia. Qed.
Lemma closers_perm p G1 G2 : G1 ≡ₚ G2 -> closers p G1 = closers p G2.
Proof. induction 1; simpl; lia. Qed.
Lemma closers_0 p G f : closers p G = 0 -> f ∈ G -> closer p f = false.
Proof.
  induction G as [|g G IH]; simpl; intros H Hf; [by apply elem_of_nil in Hf|].
  apply elem_of_cons in Hf as [->|Hf]; [by destruct (closer p g)|]. apply IH; [lia|done].
Qed.
Lemma holder_closer p f : holder p f = true -> closer p f = true.
Proof. by destruct f. Qed.
Lemma holders_0 p G : closers p G = 0 -> existsb (holder p) G = false.
Proof.
  intros H. apply not_true_iff_false. intros (f & Hf & Hh)%existsb_exists.
  apply list_elem_of_In in Hf. apply holder_closer in Hh. by rewrite (closers_0 p G f H Hf) in Hh.
Qed.
Lemma passive_closers p fs : Forall (fun f => passive f = true) fs -> closers p fs = 0.
Proof. induction 1 as [|f fs Hf _ IH]; simpl; [done|]. rewrite IH. by destruct f. Qed.

Record life (s : store) (G : list frame) : Prop := {
  life_closers p : closers p G = Nat.b2n (is_closing s p && negb (is_closed s p));
  life_locked p P : procs s !! p = Some P -> locked P = existsb (holder p) G;
  life_closed p : is_closed s p = true -> is_closing s p = true;
  life_teardown p P : FTeardown p ∈ G -> procs s !! p = Some P -> children P = [] /\ waitfors P = [];
  life_log : NoDup (log s).*1 /\ forall p, p ∈ (log s).*1 <-> is_closed s p = true;
}.

Lemma life_init : life (mem boot) [].
Proof.
  split.
  - intros [|[]]; done.
  - intros [|[]]; simpl; intros; by simplify_eq.
  - intros [|[]]; done.
  - by intros p P ?%elem_of_nil.
  - split; [constructor|]. intros [|[]]; (split; [by intros ?%elem_of_nil|done]).
Qed.

Lemma existsb_perm (h : frame -> bool) G1 G2 : G1 ≡ₚ G2 -> existsb h G1 = existsb h G2.
Proof. induction 1; simpl; [done|by f_equal|by destruct (h x), (h y)|congruence]. Qed.

Lemma life_perm s G G' : life s G -> G ≡ₚ G' -> life s G'.
Proof.
  intros [H1 H2 H3 H4 H5] Hp. split; intros.
  - by rewrite <- (closers_perm p G G' Hp).
  - rewrite <- (existsb_perm _ G G' Hp). by apply H2.
  - by apply H3.
  - apply (H4 p P); [by rewrite Hp|done].
  - done.
Qed.

(** The goroutine at a closing frame of [p] is the only one. *)
Lemma at_closer s f G p :
  life s (f :: G) -> closer p f = true ->
  closers p G = 0 /\ exists P, procs s !! p = Some P /\ closing P = true /\ closed P = false
    /\ locked P = holder p f.
Proof.
  intros [H1 H2 _ _ _] Hf. specialize (H1 p). simpl in H1. rewrite Hf in H1. simpl in H1.
  unfold is_closing, is_closed in H1. destruct (procs s !! p) as [P|] eqn:Hp; [|done].
  destruct (closing P) eqn:Hc, (closed P) eqn:Hd; simpl in H1; try lia.
  split; [lia|]. exists P. rewrite (H2 p P Hp). simpl. rewrite (holders_0 p G) by lia.
  by rewrite orb_false_r.
Qed.

(** No goroutine is closing a process that is not closing, or is closed. *)
Lemma no_closer s G p P :
  life s G -> procs s !! p = Some P -> closing P = false \/ closed P = true -> closers p G = 0.
Proof.
  intros [H1 _ _ _ _] Hp H. rewrite H1. unfold is_closing, is_closed. rewrite Hp.
  destruct (closing P), (closed P); naive_solver.
Qed.

(** Frames [f] becomes [F]; the same closing and lock-holding frames, but for [p]. *)
Definition same_roles (f : frame) (F : list frame) (q : pid) : Prop :=
  closers q F = Nat.b2n (closer q f) /\ existsb (holder q) F = holder q f
  /\ (forall g, g ∈ F -> g = FTeardown q -> f = FTeardown q).

(** A step that changes no process. *)
Lemma life_frames s s' f F G :
  life s (f :: G) -> procs s' = procs s -> log s' = log s ->
  (forall q, same_roles f F q \/ exists P, procs s !! q = Some P /\ children P = [] /\ waitfors P = []
     /\ closers q F = Nat.b2n (closer q f) /\ existsb (holder q) F = holder q f) ->
  life s' (F ++ G).
Proof.
  intros [H1 H2 H3 H4 H5] Hp Hl HF.
  assert (Hc : forall q, closers q F = Nat.b2n (closer q f) /\ existsb (holder q) F = holder q f).
  { intros q. destruct (HF q) as [(? & ? & _)|(P & _ & _ & _ & ? & ?)]; done. }
  split.
  - intros q. rewrite closers_app, (proj1 (Hc q)). specialize (H1 q). simpl in H1.
    unfold is_closing, is_closed in *. by rewrite Hp.
  - intros q Q. rewrite Hp, existsb_app, (proj2 (Hc q)). apply H2.
  - intros q. specialize (H3 q). unfold is_closing, is_closed in *. by rewrite Hp.
  - intros q Q [Hq|Hq]%elem_of_app HQ; rewrite Hp in HQ.
    + destruct (HF q) as [(_ & _ & Ht)|(P & HP & ? & ? & _)]; [|by simplify_eq].
      apply (H4 q Q); [|done]. rewrite (Ht _ Hq eq_refl). by left.
    + apply (H4 q Q); [by right|done].
  - rewrite Hl. unfold is_closed in *. by rewrite Hp.
Qed.

(** A step that changes the process [p], but does not finish closing it. *)
Lemma life_update s s' f F G p P g :
  life s (f :: G) -> procs s !! p = Some P -> procs s' = alter g p (procs s) -> log s' = log s ->
  closed (g P) = closed P -> (closed P = true -> closing (g P) = true) ->
  (forall q, q <> p -> same_roles f F q) ->
  closers p (F ++ G) = Nat.b2n (closing (g P) && negb (closed P)) ->
  locked (g P) = existsb (holder p) (F ++ G) ->
  (FTeardown p ∈ F ++ G -> children (g P) = [] /\ waitfors (g P) = []) ->
  life s' (F ++ G).
Proof.
  intros [H1 H2 H3 H4 H5] Hp Hs Hl Hcl Hcc Hq Hc Hk Ht.
  assert (Hlook : forall q, procs s' !! q = if decide (p = q) then Some (g P) else procs s !! q).
  { intros q. rewrite Hs, list_lookup_alter. destruct (decide (p = q)) as [<-|]; by rewrite ?Hp. }
  assert (Hcd : forall q, is_closed s' q = is_closed s q).
  { intros q. unfold is_closed. rewrite Hlook. destruct (decide (p = q)) as [<-|]; by rewrite ?Hp. }
  assert (Hcg : forall q, is_closing s' q = if decide (p = q) then closing (g P) else is_closing s q).
  { intros q. unfold is_closing. rewrite Hlook. by destruct (decide (p = q)). }
  split.
  - intros q. rewrite Hcd, Hcg. destruct (decide (p = q)) as [<-|Hne].
    + rewrite Hc. by rewrite (is_closed_lookup s p P Hp).
    + destruct (Hq q) as (He & _); [done|]. rewrite closers_app, He. apply H1.
  - intros q Q. rewrite Hlook. destruct (decide (p = q)) as [<-|Hne]; [by intros [= <-]|].
    destruct (Hq q) as (_ & He & _); [done|]. rewrite existsb_app, He. apply H2.
  - intros q. rewrite Hcd, Hcg. destruct (decide (p = q)) as [<-|Hne]; [|apply H3].
    rewrite (is_closed_lookup s p P Hp). done.
  - intros q Q Hin. rewrite Hlook. destruct (decide (p = q)) as [<-|Hne]; [intros [= <-]; by apply Ht|].
    apply H4. apply elem_of_app in Hin as [Hin|Hin]; [|by right].
    destruct (Hq q) as (_ & _ & He); [done|]. rewrite (He _ Hin eq_refl). by left.
  - rewrite Hl. destruct H5 as [Hn Hi]. split; [done|]. intros q. by rewrite Hcd.
Qed.

Ltac no_teardown :=
  let Hg := fresh in
  intros ? Hg ->; rewrite ?elem_of_cons, ?elem_of_nil in Hg; naive_solver.
Ltac roles := repeat split; simpl; rewrite ?Nat.add_0_r, ?orb_false_r; try reflexivity; try no_teardown.

Lemma at_open s f G p P :
  life s (f :: G) -> procs s !! p = Some P -> locked P = false -> closing P = false ->
  closer p f = false -> closers p G = 0 /\ closed P = false.
Proof.
  intros HL Hp Hl Hc Hf. pose proof (no_closer s (f :: G) p P HL Hp (or_introl Hc)) as Hn.
  simpl in Hn. rewrite Hf in Hn. split; [done|]. apply not_true_iff_false. intros Hd.
  pose proof (life_closed _ _ HL p) as H. rewrite (is_closed_lookup s p P Hp), (is_closing_lookup s p P Hp) in H.
  rewrite H in Hc by done. done.
Qed.

(** Entering [doClose]. *)
Lemma life_Close s f G p P fs gos s' :
  life s (f :: G) -> procs s !! p = Some P -> (forall q, closer q f = false) -> (forall q, holder q f = false) ->
  Close p P s = Next fs gos s' -> life s' ((fs ++ gos) ++ G).
Proof.
  intros HL Hp Hf Hh. unfold Close. destruct (locked P) eqn:Hl; [done|]. destruct (closing P) eqn:Hc; intros; simplify_eq.
  - apply (life_frames s' s' f); [done..|]. intros q. left. unfold same_roles. rewrite Hf, Hh. roles.
  - destruct (at_open s f G p P HL Hp Hl Hc (Hf p)) as [Hn Hd].
    eapply (life_update s _ f _ G p P start_closing); try done; simpl.
    + intros q Hq. unfold same_roles. rewrite Hf, Hh. simpl.
      rewrite (proj2 (Nat.eqb_neq q p)) by done. roles.
    + by rewrite Nat.eqb_refl, Hn, Hd.
    + by rewrite Nat.eqb_refl.
    + intros [?|Ht]%elem_of_cons; [done|]. pose proof (closers_0 p G _ Hn Ht) as H.
      simpl in H. by rewrite Nat.eqb_refl in H.
Qed.

(** The closing goroutine takes or gives back the mutex, or clears the lists. *)
Lemma life_closer s s' f F G p P g :
  life s (f :: G) -> procs s !! p = Some P -> closer p f = true ->
  procs s' = alter g p (procs s) -> log s' = log s ->
  closing (g P) = closing P -> closed (g P) = closed P ->
  (forall q, closer q f = (q =? p)) -> (forall q, q <> p -> holder q f = false) ->
  closers p F = 1 -> (forall q, q <> p -> closers q F = 0) ->
  (forall q, existsb (holder q) F = if decide (q = p) then locked (g P) else false) ->
  (forall q, FTeardown q ∉ F) ->
  life s' (F ++ G).
Proof.
  intros HL Hp Hf Hs Hl Hg Hd Hq Hqh Hc Hc' Hh Ht.
  destruct (at_closer s f G p HL Hf) as (Hn & P' & HP & Hcl & Hcd & _). simplify_eq.
  eapply (life_update s _ f _ G p P g); try done.
  - by rewrite Hg.
  - intros q Hne. unfold same_roles. rewrite (Hc' q Hne), Hq, Hh, (Hqh q Hne).
    rewrite (proj2 (Nat.eqb_neq q p)) by done. rewrite decide_False by done.
    split_and!; [done|done|]. intros g0 Hg0 ->. by apply Ht in Hg0.
  - by rewrite closers_app, Hc, Hn, Hg, Hcl, Hcd.
  - rewrite existsb_app, Hh, (holders_0 p G Hn), orb_false_r. by rewrite decide_True.
  - intros [H|H]%elem_of_app; [by apply Ht in H|]. pose proof (closers_0 p G _ Hn H) as H'.
    simpl in H'. by rewrite Nat.eqb_refl in H'.
Qed.

(** The end of [doClose]. *)
Lemma life_finish s G p P fs gos s' :
  life s (FTeardown p :: G) -> procs s !! p = Some P -> exec (FTeardown p) s = Next fs gos s' ->
  life s' ((fs ++ gos) ++ G).
Proof.
  intros HL Hp He. simpl in He. unfold AddToChild, AddToChild_locked, with_proc in He. rewrite Hp in He. simplify_eq.
  destruct (at_closer s _ G p HL (Nat.eqb_refl p)) as (Hn & ? & ? & Hcl & Hcd & _). simplify_eq.
  destruct HL as [H1 H2 H3 H4 H5].
  set (s' := mkStore _ _ _ _ _).
  assert (Hlook : forall q, procs s' !! q = if decide (p = q) then Some (finish P) else procs s !! q).
  { intros q. simpl. rewrite list_lookup_alter. destruct (decide (p = q)) as [<-|]; by rewrite ?Hp. }
  assert (Hd' : forall q, is_closed s' q = if decide (p = q) then true else is_closed s q).
  { intros q. unfold is_closed. rewrite Hlook. by destruct (decide (p = q)). }
  assert (Hg' : forall q, is_closing s' q = is_closing s q).
  { intros q. unfold is_closing. rewrite Hlook. destruct (decide (p = q)) as [<-|]; by rewrite ?Hp. }
  assert (Hpd : is_closed s p = false) by by rewrite (is_closed_lookup s p P Hp).
  split; simpl app; rewrite ?app_nil_l.
  - intros q. rewrite Hd', Hg'. simpl. destruct (decide (p = q)) as [<-|Hne].
    + rewrite Hn. by destruct (is_closing s p).
    + specialize (H1 q). simpl in H1. by rewrite (proj2 (Nat.eqb_neq q p)) in H1 by done.
  - intros q Q. rewrite Hlook. simpl. destruct (decide (p = q)) as [<-|Hne].
    + intros [= <-]. symmetry. by apply holders_0.
    + intros HQ. rewrite (H2 q Q HQ). simpl. by rewrite (proj2 (Nat.eqb_neq q p)) by done.
  - intros q. rewrite Hd', Hg'. destruct (decide (p = q)) as [<-|Hne]; [|apply H3].
    by rewrite (is_closing_lookup s p P Hp).
  - intros q Q [?|Hin]%elem_of_cons; [done|]. rewrite Hlook. destruct (decide (p = q)) as [<-|Hne].
    + pose proof (closers_0 p G _ Hn Hin) as H. simpl in H. by rewrite Nat.eqb_refl in H.
    + apply H4. by right.
  - destruct H5 as [Hnd Hin]. simpl. rewrite map_app. simpl. split.
    + apply NoDup_app. split_and!; [done| |apply NoDup_singleton].
      intros q Hq ->%list_elem_of_singleton. apply Hin in Hq. by rewrite Hpd in Hq.
    + intros q. rewrite elem_of_app, list_elem_of_singleton, Hin, Hd'.
      destruct (decide (p = q)); naive_solver.
Qed.

Lemma life_exec_FLoop s p G fs gos s' :
  life s (FLoop p :: G) -> exec (FLoop p) s = Next fs gos s' -> life s' ((fs ++ gos) ++ G).
Proof.
  intros HL He.
  simpl in He; unfold AddToChild, AddToChild_locked, with_proc in He.
  destruct (procs s !! p) as [P|] eqn:Hp; [|done].
  destruct (children P) as [|c cs] eqn:Hcs, (waitfors P) as [|w wf] eqn:Hwf; simplify_eq;
    apply (life_frames s' s' (FLoop p)); try done; intros q.
  2-4: left; roles.
  destruct (decide (q = p)) as [->|Hne].
  + right. exists P. split_and!; [done..| |]; simpl; by rewrite ?Nat.eqb_refl.
  + left. unfold same_roles. simpl. rewrite (proj2 (Nat.eqb_neq q p)) by done. roles.
Qed.

Lemma life_exec_FChildren s p ls G fs gos s' :
  life s (FChildren p ls :: G) -> exec (FChildren p ls) s = Next fs gos s' -> life s' ((fs ++ gos) ++ G).
Proof.
  intros HL He.
  simpl in He; unfold AddToChild, AddToChild_locked, with_proc in He.
  destruct ls as [|l ls].
  + destruct (procs s !! p) as [P|] eqn:Hp; [|done]. simplify_eq.
    destruct (at_closer s _ G p HL (Nat.eqb_refl p)) as (_ & ? & ? & _ & _ & Hlk). simplify_eq.
    simpl in Hlk. rewrite Nat.eqb_refl in Hlk.
    eapply (life_closer s _ (FChildren p []) _ G p P forget); try done; simpl.
    * by rewrite Nat.eqb_refl.
    * intros q Hq. by apply Nat.eqb_neq.
    * by rewrite Nat.eqb_refl.
    * intros q Hq. by rewrite (proj2 (Nat.eqb_neq q p)).
    * intros q. rewrite orb_false_r, Hlk. destruct (decide (q = p)); [by apply Nat.eqb_eq|by apply Nat.eqb_neq].
    * intros q. by intros ?%list_elem_of_singleton.
  + simplify_eq. apply (life_frames s _ (FChildren p (l :: ls))); [done..|].
    intros q. left. destruct (Child l s); roles.
Qed.

Lemma life_exec_FWaitfors s p wf G fs gos s' :
  life s (FWaitfors p wf :: G) -> exec (FWaitfors p wf) s = Next fs gos s' -> life s' ((fs ++ gos) ++ G).
Proof.
  intros HL He.
  simpl in He; unfold AddToChild, AddToChild_locked, with_proc in He.
  destruct wf as [|w wf]; simplify_eq.
  + apply (life_frames s' s' (FWaitfors p [])); [done..|]. intros q. left. roles.
  + destruct (at_closer s _ G p HL (Nat.eqb_refl p)) as (_ & P & Hp & _).
    eapply (life_closer s _ (FWaitfors p (w :: wf)) _ G p P (set_lock false)); try done; simpl.
    * by rewrite Nat.eqb_refl.
    * intros q Hq. by apply Nat.eqb_neq.
    * by rewrite Nat.eqb_refl.
    * intros q Hq. by rewrite (proj2 (Nat.eqb_neq q p)).
    * intros q. by destruct (decide (q = p)).
    * intros q. by intros ?%list_elem_of_singleton.
Qed.

Lemma life_exec_FRelock s p w wf G fs gos s' :
  life s (FRelock p w wf :: G) -> exec (FRelock p w wf) s = Next fs gos s' -> life s' ((fs ++ gos) ++ G).
Proof.
  intros HL He.
  simpl in He; unfold AddToChild, AddToChild_locked, with_proc in He.
  destruct (procs s !! p) as [P|] eqn:Hp; [|done]. destruct (locked P); simplify_eq.
  eapply (life_closer s _ (FRelock p w wf) _ G p P (set_lock true)); try done; simpl.
  * by rewrite Nat.eqb_refl.
  * by rewrite Nat.eqb_refl.
  * intros q Hq. by rewrite (proj2 (Nat.eqb_neq q p)).
  * intros q. rewrite orb_false_r. destruct (decide (q = p)); [by apply Nat.eqb_eq|by apply Nat.eqb_neq].
  * intros q. by intros ?%list_elem_of_singleton.
Qed.

Lemma life_exec_FAddLock s l c G fs gos s' :
  life s (FAddLock l c :: G) -> exec (FAddLock l c) s = Next fs gos s' -> life s' ((fs ++ gos) ++ G).
Proof.
  intros HL He.
  simpl in He; unfold AddToChild, AddToChild_locked, with_proc in He.
  destruct (procs s !! c) as [C|] eqn:Hc; [|done]. destruct (locked C) eqn:Hl; [done|].
  destruct (closed C) eqn:Hd; simplify_eq.
  + apply (life_frames s' s' (FAddLock l c)); [done..|]. intros q. left. roles.
  + eapply (life_update s _ (FAddLock l c) _ G c C (add_waiter l)); try done; simpl.
    * by rewrite Hd.
    * intros q _. roles.
    * pose proof (life_closers _ _ HL c) as H. simpl in H. rewrite H.
      by rewrite (is_closing_lookup s c C Hc), (is_closed_lookup s c C Hc), Hd.
    * apply (life_locked _ _ HL c C Hc).
    * intros Ht. apply (life_teardown _ _ HL c C); [by right|done].
Qed.

Lemma life_exec s f G fs gos s' :
  life s (f :: G) -> exec f s = Next fs gos s' -> life s' ((fs ++ gos) ++ G).
Proof.
  intros HL He.
  destruct f as [p|p|p|p|p ls|p wf|p w wf|p w wf|p|ls|l|l c|p|p|p c|].
  all: simpl in He; unfold AddToChild, AddToChild_locked, with_proc in He.
  - destruct (procs s !! p) as [P|] eqn:Hp; [|done]. destruct (unclosable P); [done|].
    by eapply life_Close.
  - destruct (procs s !! p) as [P|] eqn:Hp; [|done]. by eapply life_Close.
  - destruct (is_closed s p); simplify_eq. apply (life_frames s' s' (FWaitClosed p)); [done..|].
    intros q. left. roles.
  - by eapply life_exec_FLoop.
  - by eapply life_exec_FChildren.
  - by eapply life_exec_FWaitfors.
  - destruct (ChildClosed w s); simplify_eq. apply (life_frames s' s' (FWaiting p w wf)); [done..|].
    intros q. left. roles.
  - by eapply life_exec_FRelock.
  - destruct (procs s !! p) as [P|] eqn:Hp; [|done]. eapply life_finish; [done..|].
    simpl. unfold with_proc. by rewrite Hp.
  - destruct ls as [|l ls]; simplify_eq.
    + apply (life_frames s' s' (FClear [])); [done..|]. intros q. left. roles.
    + apply (life_frames s _ (FClear (l :: ls))); [done..|]. intros q. left. roles.
  - destruct (Child l s) as [c|]; [|done]. destruct (procs s !! c) as [C|]; [|done].
    destruct (unclosable C); simplify_eq. apply (life_frames s' s' (FAdd l)); [done..|]. intros q. left. roles.
  - by eapply life_exec_FAddLock.
  - destruct (procs s !! p) as [P|]; [|done]. destruct (locked P); [done|].
    destruct (closed P); simplify_eq; apply (life_frames s' s' (FAfter p)); try done; intros q; left; roles.
  - destruct (procs s !! p) as [P|]; [|done]. destruct (locked P); [done|].
    destruct (nextToWaitFor _ _); simplify_eq; apply (life_frames s' s' (FNext p)); try done; intros q; left; roles.
  - destruct (is_closed s c); simplify_eq. apply (life_frames s' s' (FWaitNext p c)); [done..|].
    intros q. left. roles.
  - done.
Qed.

(** Goroutines that are not in [doClose] come and go. *)
Lemma life_spawn s fs G : life s G -> Forall (fun f => passive f = true) fs -> life s (fs ++ G).
Proof.
  intros [H1 H2 H3 H4 H5] Hf. split; [| |done| |done].
  - intros p. rewrite closers_app, passive_closers by done. apply H1.
  - intros p P Hp. rewrite existsb_app, holders_0 by by apply passive_closers. by apply H2.
  - intros p P [Hin|Hin]%elem_of_app; [|by apply H4]. rewrite Forall_forall in Hf. by apply Hf in Hin.
Qed.

Lemma unlocked_no_teardown s G p P :
  life s G -> procs s !! p = Some P -> locked P = false -> FTeardown p ∉ G.
Proof.
  intros HL Hp Hl Hin. rewrite (life_locked _ _ HL p P Hp) in Hl.
  apply not_true_iff_false in Hl. apply Hl, existsb_exists. exists (FTeardown p).
  split; [by apply list_elem_of_In|apply Nat.eqb_refl].
Qed.

(** A change of an unlocked process that leaves its flags alone. *)
Lemma life_unlocked s s' G p P g F :
  life s G -> procs s !! p = Some P -> locked P = false ->
  procs s' = alter g p (procs s) -> log s' = log s ->
  closing (g P) = closing P -> closed (g P) = closed P -> locked (g P) = false ->
  (forall q, closers q F = 0) -> (forall q, existsb (holder q) F = false) -> (forall q, FTeardown q ∉ F) ->
  life s' (F ++ G).
Proof.
  intros HL Hp Hl Hs Hg Hc Hd Hlk HF HFh HFt.
  assert (HB : life s (FBody :: G)) by (apply (life_spawn s [FBody]); [done|by repeat constructor]).
  pose proof (life_closers _ _ HL p) as Hcl. pose proof (life_closed _ _ HL p) as Hcd.
  rewrite (is_closing_lookup s p P Hp), (is_closed_lookup s p P Hp) in *.
  eapply (life_update s s' FBody F G p P g); try done.
  - by rewrite Hc.
  - intros q _. unfold same_roles. rewrite HF, HFh. split_and!; [done..|]. intros f Hf ->. by apply HFt in Hf.
  - by rewrite closers_app, HF, Hc.
  - rewrite existsb_app, HFh, Hlk. simpl. rewrite <- (life_locked _ _ HL p P Hp). done.
  - intros [H|H]%elem_of_app; [by apply HFt in H|]. by apply (unlocked_no_teardown s G p P) in H.
Qed.

Lemma life_step s G s' G' : life s G -> fstep s G s' G' -> life s' G'.
Proof.
  intros HL Hs. destruct Hs as [s f G fs gos s' He|s G|tf s G|kid wait p c P s G Hp Hl Hk|tf p P s G Hp Hl|fs s G Hf].
  - rewrite (assoc_L (++)). by eapply life_exec.
  - apply (life_frames s s FBody []); [done..|]. intros q. left. roles.
  - destruct HL as [H1 H2 H3 H4 H5]. split.
    + intros q. by rewrite is_closing_new, is_closed_new.
    + intros q Q [Hq|[-> ->]]%new_process_lookup; [by apply H2|]. symmetry. apply holders_0.
      rewrite H1. unfold is_closing. by rewrite (proj2 (lookup_ge_None _ _) (Nat.le_refl _)).
    + intros q. rewrite is_closing_new, is_closed_new. apply H3.
    + intros q Q Hin [Hq|[-> ->]]%new_process_lookup; [by eapply H4|done].
    + destruct H5 as [Hn Hi]. split; [done|]. intros q. rewrite is_closed_new. apply Hi.
  - apply (life_unlocked s _ G p P (register kid wait (length (links s)))
             (FAdd (length (links s)) :: (if kid && closing P then [FClose c] else []))); try done.
    + intros q. by destruct (kid && closing P).
    + intros q. by destruct (kid && closing P).
    + intros q. destruct (kid && closing P); rewrite ?elem_of_cons, elem_of_nil; naive_solver.
  - apply (life_unlocked s _ G p P (set_teardown tf) []); try done. by intros q ?%elem_of_nil.
  - by apply life_spawn.
Qed.

Lemma freach_life s G : freach s G -> life s G.
Proof. induction 1; [apply life_init|by eapply life_step|by eapply life_perm]. Qed.

(** ** Flags and links are kept *)

Definition made (s : store) (l : lid) : option pid := made_for <$> links s !! l.
Definition wf_of (s : store) (p : pid) : list lid := match procs s !! p with Some P => waitfors P | None => [] end.
Definition kids_of (s : store) (p : pid) : list lid := match procs s !! p with Some P => children P | None => [] end.
Definition waiters_of (s : store) (p : pid) : list lid := match procs s !! p with Some P => waiters P | None => [] end.

Lemma made_upd_link l f s l' :
  (forall k, made_for (f k) = made_for k) -> made (upd_link l f s) l' = made s l'.
Proof.
  intros Hf. unfold made, upd_link. cbn [links]. rewrite list_lookup_alter.
  destruct (decide (l = l')) as [<-|]; [|done]. destruct (links s !! l); simpl; [by rewrite Hf|done].
Qed.

(** How a step changes one process: not at all, or by one of the updates. *)
Inductive change (s s' : store) : Prop :=
  | ch_same : procs s' = procs s -> change s s'
  | ch_new tf : procs s' = procs s ++ [newProcess tf false] -> change s s'
  | ch_upd p P g : procs s !! p = Some P -> procs s' = alter g p (procs s) ->
      (closing P = true -> closing (g P) = true) -> (closed P = true -> closed (g P) = true) ->
      unclosable (g P) = unclosable P -> (closed P = true -> closeErr (g P) = closeErr P) -> change s s'.

Lemma exec_change s f G fs gos s' : life s (f :: G) -> exec f s = Next fs gos s' -> change s s'.
Proof.
  intros HL He. destruct f as [p|p|p|p|p ls|p wf|p w wf|p w wf|p|ls|l|l c|p|p|p c|]; simpl in He;
    unfold AddToChild, AddToChild_locked, with_proc, Close in He; repeat case_match; simplify_eq; try (by apply ch_same);
    try (eapply ch_upd; [done|reflexivity|done..]).
  - destruct (at_closer s _ G p HL (Nat.eqb_refl p)) as (_ & P & Hp & _).
    by eapply (ch_upd _ _ p P (set_lock false)).
  - destruct (at_closer s _ G p HL (Nat.eqb_refl p)) as (_ & ? & ? & _ & Hd & _). simplify_eq.
    eapply ch_upd; [done|reflexivity|done..|by rewrite Hd].
Qed.

Lemma fstep_change s G s' G' : life s G -> fstep s G s' G' -> change s s'.
Proof.
  intros HL Hs.
  destruct Hs as [s f G fs gos s' He|s G|tf s G|kid wait p c P s G Hp Hl Hk|tf p P s G Hp Hl|fs s G Hf].
  - by eapply exec_change.
  - by apply ch_same.
  - by eapply ch_new.
  - by eapply ch_upd.
  - by eapply ch_upd.
  - by apply ch_same.
Qed.

Lemma closing_mono s s' q : change s s' -> is_closing s q = true -> is_closing s' q = true.
Proof.
  unfold is_closing. intros [->|tf ->|p P g Hp -> Hc _ _ _]; [done| |].
  - destruct (procs s !! q) eqn:Hq; [|done]. by erewrite lookup_app_l_Some.
  - rewrite list_lookup_alter. destruct (decide (p = q)) as [<-|]; [rewrite Hp|done]. apply Hc.
Qed.
Lemma closed_mono s s' q : change s s' -> is_closed s q = true -> is_closed s' q = true.
Proof.
  unfold is_closed. intros [->|tf ->|p P g Hp -> _ Hc _ _]; [done| |].
  - destruct (procs s !! q) eqn:Hq; [|done]. by erewrite lookup_app_l_Some.
  - rewrite list_lookup_alter. destruct (decide (p = q)) as [<-|]; [rewrite Hp|done]. apply Hc.
Qed.

Definition fbusy (f : frame) : list lid := match f with FClear ls => ls | _ => [] end.

(** A link gives its child up only once the child is closed. *)
Record linked (s : store) (G : list frame) : Prop := {
  linked_child l k : links s !! l = Some k ->
    child k = Some (made_for k) \/ child k = None /\ is_closed s (made_for k) = true;
  linked_waiters p l : l ∈ waiters_of s p -> made s l = Some p;
  linked_add l c : FAddLock l c ∈ G -> made s l = Some c;
  linked_clear f l : f ∈ G -> l ∈ fbusy f -> exists q, made s l = Some q /\ is_closed s q = true;
}.

Lemma waiters_of_upd p f s q :
  waiters_of (upd p f s) q
  = if decide (p = q) then match procs s !! p with Some P => waiters (f P) | None => [] end else waiters_of s q.
Proof.
  unfold waiters_of. rewrite procs_upd. destruct (decide (p = q)) as [<-|]; [|done]. by destruct (procs s !! p).
Qed.
Lemma wf_of_upd p f s q :
  wf_of (upd p f s) q
  = if decide (p = q) then match procs s !! p with Some P => waitfors (f P) | None => [] end else wf_of s q.
Proof.
  unfold wf_of. rewrite procs_upd. destruct (decide (p = q)) as [<-|]; [|done]. by destruct (procs s !! p).
Qed.
Lemma kids_of_upd p f s q :
  kids_of (upd p f s) q
  = if decide (p = q) then match procs s !! p with Some P => children (f P) | None => [] end else kids_of s q.
Proof.
  unfold kids_of. rewrite procs_upd. destruct (decide (p = q)) as [<-|]; [|done]. by destruct (procs s !! p).
Qed.

Lemma linked_perm s G G' : linked s G -> G ≡ₚ G' -> linked s G'.
Proof.
  intros [H1 H2 H3 H4] Hp. split; [done|done|..].
  - intros l c Hin. apply H3. by rewrite Hp.
  - intros f l Hin. apply H4. by rewrite Hp.
Qed.

(** A step that does not touch the links, and adds no waiter. *)
Lemma linked_keep s s' f F G :
  linked s (f :: G) -> (forall q, is_closed s q = true -> is_closed s' q = true) ->
  links s' = links s -> (forall q, waiters_of s' q = waiters_of s q) ->
  (forall l c, FAddLock l c ∈ F -> made s l = Some c) ->
  (forall g l, g ∈ F -> l ∈ fbusy g -> exists q, made s l = Some q /\ is_closed s' q = true) ->
  linked s' (F ++ G).
Proof.
  intros [H1 H2 H3 H4] Hm Hl Hw Ha Hc. split.
  - intros l k Hk. rewrite Hl in Hk. destruct (H1 l k Hk) as [?|[? ?]]; [by left|right]. split; [done|by apply Hm].
  - intros p l. rewrite Hw. unfold made. rewrite Hl. apply H2.
  - intros l c [Hin|Hin]%elem_of_app; unfold made; rewrite Hl; [by apply Ha|]. apply H3. by right.
  - intros g l [Hin|Hin]%elem_of_app Hf; unfold made; rewrite Hl; [by eapply Hc|].
    destruct (H4 g l) as (q & ? & ?); [by right|done|]. exists q. split; [done|by apply Hm].
Qed.

(** A change of one link that keeps what it was made for. *)
Lemma linked_link s s' l g F f G :
  linked s (f :: G) -> (forall q, is_closed s' q = is_closed s q) -> links s' = alter g l (links s) ->
  (forall q, waiters_of s' q = waiters_of s q) ->
  (forall k, made_for (g k) = made_for k) ->
  (forall k, links s !! l = Some k -> child (g k) = child k \/ child (g k) = None /\ is_closed s (made_for k) = true) ->
  (forall l' c, FAddLock l' c ∉ F) ->
  (forall g0 l', g0 ∈ F -> l' ∈ fbusy g0 -> exists q, made s l' = Some q /\ is_closed s q = true) ->
  linked s' (F ++ G).
Proof.
  intros [H1 H2 H3 H4] Hcl Hl Hw Hg Hch Ha Hc.
  assert (Hmade : forall l', made s' l' = made s l').
  { intros l'. unfold made. rewrite Hl, list_lookup_alter. destruct (decide (l = l')) as [<-|]; [|done].
    destruct (links s !! l); simpl; [by rewrite Hg|done]. }
  split.
  - intros l' k Hk. rewrite Hcl. rewrite Hl, list_lookup_alter in Hk.
    destruct (decide (l = l')) as [<-|]; [|by eapply H1].
    destruct (links s !! l) as [k0|] eqn:Hk0; simplify_eq/=. rewrite Hg.
    destruct (Hch k0 eq_refl) as [->|[-> ?]]; [by eapply H1|by right].
  - intros p l'. rewrite Hw, Hmade. apply H2.
  - intros l' c [Hin|Hin]%elem_of_app; [by apply Ha in Hin|]. rewrite Hmade. apply H3. by right.
  - intros g0 l' [Hin|Hin]%elem_of_app Hf; rewrite Hmade.
    + destruct (Hc g0 l' Hin Hf) as (q & ? & ?). exists q. by rewrite Hcl.
    + destruct (H4 g0 l') as (q & ? & ?); [by right|done|]. exists q. by rewrite Hcl.
Qed.

Ltac not_in := repeat intro; rewrite ?elem_of_cons, ?elem_of_nil in *; naive_solver.

Lemma waiters_of_same s s' p g :
  procs s' = alter g p (procs s) -> (forall P, waiters (g P) = waiters P) ->
  forall q, waiters_of s' q = waiters_of s q.
Proof.
  intros Hs Hg q. unfold waiters_of. rewrite Hs, list_lookup_alter.
  destruct (decide (p = q)) as [<-|]; [|done]. destruct (procs s !! p); simpl; [by rewrite Hg|done].
Qed.

(** The new frames of most steps have no link to add or to clear. *)
Definition quiet (f : frame) : bool := match f with FAddLock _ _ | FClear (_ :: _) => false | _ => true end.

Lemma quiet_add F : forallb quiet F = true -> forall l c, FAddLock l c ∉ F.
Proof. intros H l c Hin%list_elem_of_In. by apply (proj1 (forallb_forall _ _) H) in Hin. Qed.
Lemma quiet_clear F : forallb quiet F = true -> forall f l, f ∈ F -> l ∉ fbusy f.
Proof.
  intros H f l Hin%list_elem_of_In Hl. apply (proj1 (forallb_forall _ _) H) in Hin.
  destruct f as [| | | | | | | | |[|]| | | | | |]; try done; by apply elem_of_nil in Hl.
Qed.

Lemma linked_quiet s s' f F G :
  linked s (f :: G) -> (forall q, is_closed s q = true -> is_closed s' q = true) ->
  links s' = links s -> (forall q, waiters_of s' q = waiters_of s q) ->
  forallb quiet F = true -> linked s' (F ++ G).
Proof.
  intros HK Hm Hl Hw Hq. eapply linked_keep; [done..| |].
  - intros l c Hin. by apply (quiet_add F Hq) in Hin.
  - intros g l Hin Hb. by apply (quiet_clear F Hq g l) in Hb.
Qed.

Lemma linked_exec_FChildren s p ls G fs gos s' :
  life s (FChildren p ls :: G) -> linked s (FChildren p ls :: G) -> exec (FChildren p ls) s = Next fs gos s' -> linked s' ((fs ++ gos) ++ G).
Proof.
  intros HL HK He. pose proof (fun q => closed_mono s s' q (exec_change _ _ _ _ _ _ HL He)) as Hm.
  simpl in He; unfold AddToChild, AddToChild_locked, with_proc, Close in He.
  destruct ls as [|l ls].
  + repeat case_match; simplify_eq. eapply linked_quiet; [exact HK|exact Hm|done| |reflexivity].
    by eapply waiters_of_same.
  + simplify_eq.
    assert (Hq : forallb quiet ([FChildren p ls] ++ match Child l s with Some c => [FClose c] | None => [] end) = true)
      by by destruct (Child l s).
    apply (linked_link s _ l (fun k => mkLink None (child k) (made_for k)) _ (FChildren p (l :: ls))); try done.
    * intros k _. by left.
    * by apply quiet_add.
    * intros g l' Hin Hb. by apply (quiet_clear _ Hq g l') in Hb.
Qed.

Lemma linked_exec_FRelock s p w wf G fs gos s' :
  life s (FRelock p w wf :: G) -> linked s (FRelock p w wf :: G) -> exec (FRelock p w wf) s = Next fs gos s' -> linked s' ((fs ++ gos) ++ G).
Proof.
  intros HL HK He. pose proof (fun q => closed_mono s s' q (exec_change _ _ _ _ _ _ HL He)) as Hm.
  simpl in He; unfold AddToChild, AddToChild_locked, with_proc, Close in He.
  repeat case_match; simplify_eq.
  apply (linked_link (upd p (set_lock true) s) _ w (fun k => mkLink None (child k) (made_for k)) [FWaitfors p wf] FBody);
    try done.
  + apply (linked_quiet s _ (FRelock p w wf) [FBody]); [exact HK|exact Hm|done| |reflexivity].
    by eapply waiters_of_same.
  + intros k _. by left.
  + by apply quiet_add.
  + intros g l' Hin Hb. by apply (quiet_clear [FWaitfors p wf] eq_refl g l') in Hb.
Qed.

Lemma linked_exec_FTeardown s p G fs gos s' :
  life s (FTeardown p :: G) -> linked s (FTeardown p :: G) -> exec (FTeardown p) s = Next fs gos s' -> linked s' ((fs ++ gos) ++ G).
Proof.
  intros HL HK He. pose proof (fun q => closed_mono s s' q (exec_change _ _ _ _ _ _ HL He)) as Hm.
  simpl in He; unfold AddToChild, AddToChild_locked, with_proc, Close in He.
  destruct (procs s !! p) as [P|] eqn:Hp; [|done]. simplify_eq.
  eapply linked_keep; [exact HK|exact Hm|done|by eapply waiters_of_same|by intros l c ?%list_elem_of_singleton|].
  intros g l [-> |Hg]%elem_of_cons Hl; [|by apply elem_of_nil in Hg]. exists p. split.
  + apply (linked_waiters _ _ HK). unfold waiters_of. by rewrite Hp.
  + unfold is_closed. simpl. rewrite list_lookup_alter_eq, Hp. done.
Qed.

Lemma linked_exec_FClear s ls G fs gos s' :
  life s (FClear ls :: G) -> linked s (FClear ls :: G) -> exec (FClear ls) s = Next fs gos s' -> linked s' ((fs ++ gos) ++ G).
Proof.
  intros HL HK He. pose proof (fun q => closed_mono s s' q (exec_change _ _ _ _ _ _ HL He)) as Hm.
  simpl in He; unfold AddToChild, AddToChild_locked, with_proc, Close in He.
  destruct ls as [|l ls]; simplify_eq.
  + eapply linked_quiet; [exact HK|exact Hm|done..].
  + destruct (linked_clear _ _ HK (FClear (l :: ls)) l) as (q & Hq & Hqc); [by left|by left|].
    apply (linked_link s _ l (fun k => mkLink (parent k) None (made_for k)) _ (FClear (l :: ls))); try done.
    * intros k Hk. right. unfold made in Hq. rewrite Hk in Hq. by simplify_eq/=.
    * by intros l' c ?%list_elem_of_singleton.
    * intros g l' [-> |Hg]%elem_of_cons Hl; [|by apply elem_of_nil in Hg].
      apply (linked_clear _ _ HK (FClear (l :: ls))); [by left|by right].
Qed.

Lemma linked_exec_FAdd s l G fs gos s' :
  life s (FAdd l :: G) -> linked s (FAdd l :: G) -> exec (FAdd l) s = Next fs gos s' -> linked s' ((fs ++ gos) ++ G).
Proof.
  intros HL HK He. pose proof (fun q => closed_mono s s' q (exec_change _ _ _ _ _ _ HL He)) as Hm.
  simpl in He; unfold AddToChild, AddToChild_locked, with_proc, Close in He.
  destruct (Child l s) as [c|] eqn:Hc; [|done]. repeat case_match; simplify_eq.
  eapply linked_keep; [exact HK|exact Hm|done|done| |].
  2: { intros g l' ->%list_elem_of_singleton Hl. by apply elem_of_nil in Hl. }
  intros l' c' [[= -> ->]|Hg]%elem_of_cons; [|by apply elem_of_nil in Hg].
  unfold Child in Hc. destruct (links s' !! l) as [k|] eqn:Hk; [|done]. simpl in Hc.
  unfold made. rewrite Hk. simpl. destruct (linked_child _ _ HK l k Hk) as [Hx|[Hx _]]; congruence.
Qed.

Lemma linked_exec_FAddLock s l c G fs gos s' :
  life s (FAddLock l c :: G) -> linked s (FAddLock l c :: G) -> exec (FAddLock l c) s = Next fs gos s' -> linked s' ((fs ++ gos) ++ G).
Proof.
  intros HL HK He. pose proof (fun q => closed_mono s s' q (exec_change _ _ _ _ _ _ HL He)) as Hm.
  simpl in He; unfold AddToChild, AddToChild_locked, with_proc, Close in He.
  destruct (procs s !! c) as [C|] eqn:Hc; [|done]. destruct (locked C); [done|].
  pose proof (linked_add _ _ HK l c ltac:(by left)) as Hmade.
  destruct (closed C) eqn:Hd; simplify_eq.
  + eapply linked_keep; [exact HK|exact Hm|done|done|by intros l' c' ?%list_elem_of_singleton|].
    intros g l' [-> |Hg]%elem_of_cons; [|by apply elem_of_nil in Hg]. intros ->%list_elem_of_singleton.
    exists c. split; [done|]. by rewrite (is_closed_lookup s' c C Hc).
  + destruct HK as [H1 H2 H3 H4]. split.
    * intros l' k Hk. destruct (H1 l' k Hk) as [?|[? ?]]; [by left|right]. split; [done|by apply Hm].
    * intros p l'. rewrite waiters_of_upd. destruct (decide (c = p)) as [<-|]; [|apply H2]. rewrite Hc. simpl.
      intros [Hin|Hin]%elem_of_app; [|by apply list_elem_of_singleton in Hin as ->].
      apply H2. unfold waiters_of. by rewrite Hc.
    * intros l' c' Hin. apply H3. by right.
    * intros g l' Hin Hl. destruct (H4 g l') as (q & ? & ?); [by right|done|]. exists q. split; [done|by apply Hm].
Qed.

Lemma linked_exec s f G fs gos s' :
  life s (f :: G) -> linked s (f :: G) -> exec f s = Next fs gos s' -> linked s' ((fs ++ gos) ++ G).
Proof.
  intros HL HK He. pose proof (fun q => closed_mono s s' q (exec_change _ _ _ _ _ _ HL He)) as Hm.
  destruct f as [p|p|p|p|p ls|p wf|p w wf|p w wf|p|ls|l|l c|p|p|p c|]; simpl in He; unfold AddToChild, AddToChild_locked, with_proc, Close in He.
  1-4,6-7,13-16: repeat case_match; simplify_eq; (eapply linked_quiet; [exact HK|exact Hm|done| |reflexivity]);
    first [done|by eapply waiters_of_same].
  - by eapply linked_exec_FChildren.
  - by eapply linked_exec_FRelock.
  - by eapply linked_exec_FTeardown.
  - by eapply linked_exec_FClear.
  - by eapply linked_exec_FAdd.
  - by eapply linked_exec_FAddLock.
Qed.

Lemma made_add_link kid wait p c s l q :
  made s l = Some q -> made (add_link kid wait p c s) l = Some q.
Proof.
  unfold made, add_link. cbn [links]. destruct (links s !! l) eqn:Hl; [|done].
  by rewrite (lookup_app_l_Some _ _ _ _ Hl).
Qed.
Lemma made_add_link_new kid wait p c s : made (add_link kid wait p c s) (length (links s)) = Some c.
Proof. unfold made, add_link. cbn [links]. by rewrite lookup_app_r, Nat.sub_diag. Qed.

Lemma linked_step s G s' G' : life s G -> linked s G -> fstep s G s' G' -> linked s' G'.
Proof.
  intros HL HK Hs. pose proof (fun q => closed_mono s s' q (fstep_change _ _ _ _ HL Hs)) as Hm.
  destruct Hs as [s f G fs gos s' He|s G|tf s G|kid wait p c P s G Hp Hl Hk|tf p P s G Hp Hl|fs s G Hf].
  - rewrite (assoc_L (++)). by eapply linked_exec.
  - by apply (linked_quiet s s FBody [] G).
  - destruct HK as [H1 H2 H3 H4]. split; [|intros p l Hin; apply (H2 p l)|done|].
    + intros l k Hk. rewrite is_closed_new. by apply (H1 l).
    + unfold waiters_of in *. destruct (procs (new_process tf s).2 !! p) as [P|] eqn:HP; [|by apply elem_of_nil in Hin].
      apply new_process_lookup in HP as [->|[-> ->]]; [done|by apply elem_of_nil in Hin].
    + intros f l Hin Hb. destruct (H4 f l Hin Hb) as (q & ? & ?). exists q. by rewrite is_closed_new.
  - assert (Hq : forallb quiet (FAdd (length (links s)) :: (if kid && closing P then [FClose c] else [])) = true)
      by by destruct (kid && closing P).
    destruct HK as [H1 H2 H3 H4]. split.
    + intros l k Hlk. unfold add_link in Hlk. cbn [links] in Hlk.
      apply lookup_app_Some in Hlk as [Hlk|[_ Hlk]].
      * destruct (H1 l k Hlk) as [?|[? ?]]; [by left|right]. split; [done|by apply Hm].
      * apply list_lookup_singleton_Some in Hlk as [_ <-]. by left.
    + intros q l Hin. apply made_add_link, H2.
      pose proof (waiters_of_same s (add_link kid wait p c s) p (register kid wait (length (links s)))
                    eq_refl (fun _ => eq_refl) q) as Hw.
      by rewrite Hw in Hin.
    + intros l c' Hin. apply made_add_link, H3. rewrite app_comm_cons in Hin.
      apply elem_of_app in Hin as [Hin|Hin]; [|done]. by apply (quiet_add _ Hq) in Hin.
    + intros f l Hin Hb. rewrite app_comm_cons in Hin.
      apply elem_of_app in Hin as [Hin|Hin]; [by apply (quiet_clear _ Hq f l) in Hb|].
      destruct (H4 f l Hin Hb) as (q & ? & ?). exists q. split; [by apply made_add_link|by apply Hm].
  - apply (linked_quiet s _ FBody []); [|exact Hm|done| |done].
    + destruct HK as [H1 H2 H3 H4]. split; [done|done|..].
      * intros l c [?|Hin]%elem_of_cons; [done|by apply H3].
      * intros f l [-> |Hin]%elem_of_cons Hb; [by apply elem_of_nil in Hb|by eapply H4].
    + by eapply waiters_of_same.
  - destruct HK as [H1 H2 H3 H4]. rewrite Forall_forall in Hf. split; [done|done|..].
    + intros l c [Hin|Hin]%elem_of_app; [by apply Hf in Hin|by apply H3].
    + intros f l [Hin|Hin]%elem_of_app Hb; [|by eapply H4].
      apply Hf in Hin. destruct f; try done; by apply elem_of_nil in Hb.
Qed.

Lemma freach_linked s G : freach s G -> linked s G.
Proof.
  induction 1 as [|s G s' G' Hr IH Hs|s G G' Hr IH Hp].
  - split.
    + intros l k Hk. by destruct l.
    + intros [|[]] l Hin; by apply elem_of_nil in Hin.
    + by intros l c ?%elem_of_nil.
    + by intros f l ?%elem_of_nil.
  - eapply linked_step; [by apply freach_life|done..].
  - by eapply linked_perm.
Qed.

(** What a process waits for is closed as soon as its link says so. *)
Lemma ChildClosed_made s G l q : linked s G -> made s l = Some q -> ChildClosed l s = is_closed s q.
Proof.
  intros HK. unfold made, ChildClosed, Child. destruct (links s !! l) as [k|] eqn:Hk; [|done].
  intros [= <-]. simpl. destruct (linked_child _ _ HK l k Hk) as [-> |[-> ->]]; done.
Qed.

(** ** What a process waits for *)

(** The links whose child the closing goroutine has still to wait for. *)
Definition pend (p : pid) (f : frame) : list lid :=
  match f with
  | FWaitfors q wf | FRelock q _ wf => if p =? q then wf else []
  | FWaiting q w wf => if p =? q then w :: wf else []
  | _ => []
  end.
Definition to_wait (s : store) (G : list frame) (p : pid) (l : lid) : Prop :=
  l ∈ wf_of s p \/ Exists (fun f => l ∈ pend p f) G.

Record waited (s : store) (G : list frame) : Prop := {
  waited_kept p q : (p, q) ∈ waits s -> is_closed s p = false ->
    is_closed s q = true \/ exists l, made s l = Some q /\ to_wait s G p l;
  waited_made p l : is_closed s p = false -> to_wait s G p l -> exists q, made s l = Some q /\ (p, q) ∈ waits s;
  waited_order p q : (p, q) ∈ waits s -> p ∈ (log s).*1 ->
    exists l1 l2, (log s).*1 = l1 ++ p :: l2 /\ q ∈ l1;
}.

Lemma to_wait_app s F G p l :
  to_wait s (F ++ G) p l <-> to_wait s F p l \/ Exists (fun f => l ∈ pend p f) G.
Proof. unfold to_wait. rewrite Exists_app. tauto. Qed.

Lemma pend_closer p f l : l ∈ pend p f -> closer p f = true.
Proof. destruct f; simpl; try (by intros ?%elem_of_nil); destruct (p =? p0); try done; by intros ?%elem_of_nil. Qed.

Lemma waited_perm s G G' : waited s G -> G ≡ₚ G' -> waited s G'.
Proof.
  intros [H1 H2 H3] Hp.
  assert (Ht : forall p l, to_wait s G' p l <-> to_wait s G p l).
  { intros p l. unfold to_wait. rewrite !Exists_exists. by setoid_rewrite Hp. }
  split; [|intros p l Hc; rewrite Ht; by apply H2|done].
  intros p q Hw Hc. destruct (H1 p q Hw Hc) as [?|(l & ? & ?)]; [by left|right]. exists l. by rewrite Ht.
Qed.

(** A step that registers nothing and finishes nothing: links leave the list of
    those to wait for only when their child is closed. *)
Lemma waited_keep s s' f F G :
  waited s (f :: G) -> (forall q, is_closed s' q = is_closed s q) -> (forall l, made s' l = made s l) ->
  waits s' = waits s -> log s' = log s ->
  (forall p l, to_wait s' F p l -> to_wait s [f] p l) ->
  (forall p l, to_wait s [f] p l -> to_wait s' F p l \/ exists q, made s l = Some q /\ is_closed s q = true) ->
  waited s' (F ++ G).
Proof.
  intros [H1 H2 H3] Hcl Hm Hw Hl Hback Hforth. change (f :: G) with ([f] ++ G) in *. split.
  - intros p q. rewrite Hw, !Hcl. intros Hin Hc. destruct (H1 p q Hin Hc) as [?|(l & Hlm & Ht)]; [by left|].
    apply to_wait_app in Ht as [Ht|Ht].
    + destruct (Hforth p l Ht) as [Ht'|(q' & Hq' & ?)].
      * right. exists l. rewrite Hm, to_wait_app. tauto.
      * left. by simplify_eq.
    + right. exists l. rewrite Hm, to_wait_app. tauto.
  - intros p l. rewrite Hcl. intros Hc [Ht|Ht]%to_wait_app; rewrite Hm, Hw; apply H2; try done; apply to_wait_app.
    + left. by apply Hback.
    + by right.
  - rewrite Hw, Hl. apply H3.
Qed.

Lemma wf_of_same s s' p g :
  procs s' = alter g p (procs s) -> (forall P, waitfors (g P) = waitfors P) -> forall q, wf_of s' q = wf_of s q.
Proof.
  intros Hs Hg q. unfold wf_of. rewrite Hs, list_lookup_alter.
  destruct (decide (p = q)) as [<-|]; [|done]. destruct (procs s !! p); simpl; [by rewrite Hg|done].
Qed.

Lemma Exists_pend p l F : Exists (fun f => l ∈ pend p f) F <-> l ∈ concat (map (pend p) F).
Proof.
  induction F as [|f F IH]; simpl; [by rewrite Exists_nil, elem_of_nil|].
  by rewrite Exists_cons, IH, elem_of_app.
Qed.

(** Most steps change neither list. *)
Lemma waited_same s s' f F G :
  waited s (f :: G) -> (forall q, is_closed s' q = is_closed s q) -> (forall l, made s' l = made s l) ->
  waits s' = waits s -> log s' = log s -> (forall q, wf_of s' q = wf_of s q) ->
  (forall p, concat (map (pend p) F) = pend p f) -> waited s' (F ++ G).
Proof.
  intros HW Hcl Hm Hw Hl Hwf Hp.
  assert (Ht : forall p l, to_wait s' F p l <-> to_wait s [f] p l).
  { intros p l. unfold to_wait. rewrite Hwf, !Exists_pend, Hp. simpl. by rewrite app_nil_r. }
  apply (waited_keep s s' f F G); try done; intros p l; rewrite Ht; tauto.
Qed.

Lemma is_closed_same s s' p g :
  procs s' = alter g p (procs s) -> (forall P, closed (g P) = closed P) -> forall q, is_closed s' q = is_closed s q.
Proof.
  intros Hs Hg q. unfold is_closed. rewrite Hs, list_lookup_alter.
  destruct (decide (p = q)) as [<-|]; [|done]. destruct (procs s !! p); simpl; [by rewrite Hg|done].
Qed.

Lemma waited_finish s p G fs gos s' :
  life s (FTeardown p :: G) -> waited s (FTeardown p :: G) -> exec (FTeardown p) s = Next fs gos s' ->
  waited s' ((fs ++ gos) ++ G).
Proof.
  intros HL HW He. destruct (at_closer s _ G p HL (Nat.eqb_refl p)) as (Hn & P & Hp & _ & Hd & _).
  destruct (life_teardown _ _ HL p P ltac:(by left) Hp) as [_ Hwf].
  simpl in He. unfold AddToChild, AddToChild_locked, with_proc in He. rewrite Hp in He. injection He as <- <- <-.
  set (s' := mkStore _ _ _ _ _).
  assert (Hcl : forall q, is_closed s' q = if decide (p = q) then true else is_closed s q).
  { intros q. unfold is_closed. simpl. rewrite list_lookup_alter. destruct (decide (p = q)) as [<-|]; by rewrite ?Hp. }
  assert (Hwf' : forall q, wf_of s' q = wf_of s q) by by eapply wf_of_same.
  assert (Ht : forall q l, to_wait s' ([FClear (waiters P)] ++ G) q l <-> to_wait s (FTeardown p :: G) q l).
  { intros q l. unfold to_wait. rewrite Hwf'. simpl. by rewrite !Exists_cons. }
  assert (Hnone : forall l, ~ to_wait s (FTeardown p :: G) p l).
  { intros l [Hin|Hin].
    - unfold wf_of in Hin. rewrite Hp, Hwf in Hin. by apply elem_of_nil in Hin.
    - apply Exists_cons in Hin as [Hin|Hin]; [by apply elem_of_nil in Hin|].
      apply Exists_exists in Hin as (f & Hf & Hl). apply pend_closer in Hl. by rewrite (closers_0 p G f Hn Hf) in Hl. }
  destruct HW as [H1 H2 H3]. destruct (life_log _ _ HL) as [_ Hlog]. simpl app. split.
  - intros q r Hin Hc. rewrite Hcl in Hc. destruct (decide (p = q)) as [|Hne]; [done|].
    destruct (H1 q r Hin Hc) as [?|(l & ? & ?)].
    + left. rewrite Hcl. by destruct (decide (p = r)).
    + right. exists l. split; [done|by apply Ht].
  - intros q l Hc Hl. rewrite Hcl in Hc. destruct (decide (p = q)); [done|]. apply (H2 q l Hc). by apply Ht.
  - intros q r Hin Hq. change ((log s').*1) with ((log s ++ [(p, teardown P)]).*1) in *. rewrite fmap_app in *. simpl in *.
    apply elem_of_app in Hq as [Hq|Hq].
    + destruct (H3 q r Hin Hq) as (l1 & l2 & -> & ?). exists l1, (l2 ++ [p]). split; [|done]. by rewrite <- app_assoc.
    + apply list_elem_of_singleton in Hq as ->. exists (log s).*1, []. split; [done|].
      apply Hlog. destruct (H1 p r Hin) as [?|(l & ? & Hl)]; [by rewrite (is_closed_lookup s p P Hp)|done|].
      by apply Hnone in Hl.
Qed.

Lemma waited_exec s f G fs gos s' :
  life s (f :: G) -> linked s (f :: G) -> waited s (f :: G) -> exec f s = Next fs gos s' -> waited s' ((fs ++ gos) ++ G).
Proof.
  intros HL HK HW He.
  destruct f as [p|p|p|p|p ls|p wf|p w wf|p w wf|p|ls|l|l c|p|p|p c|];
    [ | | | | | | | |by eapply waited_finish| | | | | | |done]; simpl in He; unfold AddToChild, AddToChild_locked, with_proc, Close in He.
  1-4,9-14: repeat case_match; simplify_eq; (eapply waited_same; [exact HW|..]); try done;
    try (by eapply is_closed_same); try (by eapply wf_of_same); by intros; apply made_upd_link.
  - destruct ls as [|l ls].
    + destruct (procs s !! p) as [P|] eqn:Hp; [|done]. simplify_eq.
      assert (Ht : forall q l, to_wait (upd p forget s) [FWaitfors p (waitfors P)] q l
                               <-> to_wait s [FChildren p []] q l).
      { intros q l. unfold to_wait. rewrite wf_of_upd, !Exists_pend. simpl. rewrite app_nil_r. unfold wf_of.
        destruct (decide (p = q)) as [<-|Hne].
        - rewrite Hp, Nat.eqb_refl. simpl. tauto.
        - rewrite (proj2 (Nat.eqb_neq q p)) by done. tauto. }
      apply (waited_keep s _ (FChildren p [])); try done; [by eapply is_closed_same|..]; intros q l; rewrite Ht; tauto.
    + simplify_eq. eapply waited_same; [exact HW|..]; try done; [by intros; apply made_upd_link|].
      intros q. by destruct (Child l s).
  - destruct wf as [|w wf]; simplify_eq; (eapply waited_same; [exact HW|..]); try done;
      try (by eapply is_closed_same); try (by eapply wf_of_same); intros q; simpl; rewrite ?app_nil_r; by destruct (q =? p).
  - destruct (ChildClosed w s) eqn:Hc; simplify_eq.
    destruct (at_closer s' _ G p HL (Nat.eqb_refl p)) as (_ & P & Hp & _ & Hd & _).
    apply (waited_keep s' _ (FWaiting p w wf)); try done.
    + intros q l. unfold to_wait. rewrite !Exists_pend. simpl. rewrite !app_nil_r.
      destruct (q =? p); [|done]. rewrite elem_of_cons. tauto.
    + intros q l. unfold to_wait. rewrite !Exists_pend. simpl. rewrite !app_nil_r.
      destruct (q =? p) eqn:Hqp; [apply Nat.eqb_eq in Hqp as ->|tauto]. rewrite elem_of_cons.
      intros [?|[-> |?]]; [tauto| |tauto]. right.
      destruct (waited_made _ _ HW p w) as (q & Hq & _).
      * by rewrite (is_closed_lookup s' p P Hp).
      * right. apply Exists_cons. left. simpl. rewrite Nat.eqb_refl. by left.
      * exists q. by rewrite <- (ChildClosed_made s' _ w q HK Hq).
  - repeat case_match; simplify_eq. eapply waited_same; [exact HW|..]; try done.
    + by eapply is_closed_same.
    + intros l. by apply (made_upd_link w _ (upd p (set_lock true) s)).
    + by eapply wf_of_same.
    + intros q. simpl. by rewrite app_nil_r.
Qed.

Lemma waited_new tf s G : waited s G -> waited (new_process tf s).2 G.
Proof.
  intros HW.
  assert (Hwf : forall q, wf_of (new_process tf s).2 q = wf_of s q).
  { intros q. unfold wf_of. destruct (procs (new_process tf s).2 !! q) as [Q|] eqn:HQ.
    - apply new_process_lookup in HQ as [->|[-> ->]]; [done|].
      by rewrite (proj2 (lookup_ge_None _ _) (Nat.le_refl _)).
    - simpl in HQ. destruct (procs s !! q) eqn:Hq; [|done]. by rewrite (lookup_app_l_Some _ _ _ _ Hq) in HQ. }
  destruct HW as [H1 H2 H3]. split; [|intros q l|done].
  + intros q r. rewrite !is_closed_new. intros Hin Hc. destruct (H1 q r Hin Hc) as [?|(l & ? & Ht)]; [by left|].
    right. exists l. split; [done|]. unfold to_wait in *. by rewrite Hwf.
  + rewrite is_closed_new. unfold to_wait. rewrite Hwf. apply H2.
Qed.

Lemma waited_link kid wait p c P s G :
  life s G -> waited s G -> procs s !! p = Some P ->
  waited (add_link kid wait p c s) (FAdd (length (links s)) :: (if kid && closing P then [FClose c] else []) ++ G).
Proof.
  intros HL HW Hp.
  assert (Hcl : forall q, is_closed (add_link kid wait p c s) q = is_closed s q) by by eapply is_closed_same.
  assert (Hwf : forall q, wf_of (add_link kid wait p c s) q
                = if decide (p = q) then (if wait then wf_of s q ++ [length (links s)] else wf_of s q) else wf_of s q).
  { intros q. transitivity (wf_of (upd p (register kid wait (length (links s))) s) q); [done|].
    rewrite wf_of_upd. unfold wf_of. destruct (decide (p = q)) as [<-|]; [|done]. by rewrite Hp. }
  assert (Hws : forall x, x ∈ waits s -> x ∈ waits (add_link kid wait p c s)).
  { intros x Hx. simpl. destruct (wait && _); [|done]. apply elem_of_app. by left. }
  assert (Hpend : forall q l, Exists (fun f => l ∈ pend q f)
      (FAdd (length (links s)) :: (if kid && closing P then [FClose c] else []) ++ G)
    <-> Exists (fun f => l ∈ pend q f) G).
  { intros q l. rewrite !Exists_pend. by destruct (kid && closing P). }
  destruct HW as [H1 H2 H3]. split.
  + intros q r Hin Hc. rewrite Hcl in *. simpl in Hin.
    assert ((q, r) ∈ waits s \/ wait = true /\ q = p /\ r = c) as [Hin'|(-> & -> & ->)].
    { destruct wait, (is_closed s p); simpl in Hin; try (by left).
      apply elem_of_app in Hin as [?|Hx]; [by left|right]. apply list_elem_of_singleton in Hx. by simplify_eq. }
    * destruct (H1 q r Hin' Hc) as [?|(l & ? & Ht)]; [by left|right]. exists l.
      split; [by apply made_add_link|]. unfold to_wait in *. rewrite Hwf, Hpend.
      destruct Ht as [Ht|Ht]; [left|by right]. destruct (decide (p = q)), wait; try done. apply elem_of_app. by left.
    * right. exists (length (links s)). split; [apply made_add_link_new|]. left. rewrite Hwf, decide_True by done.
      apply elem_of_app. right. by left.
  + intros q l Hc Ht. rewrite Hcl in Hc. unfold to_wait in Ht. rewrite Hwf, Hpend in Ht.
    assert (to_wait s G q l \/ wait = true /\ q = p /\ l = length (links s)) as [Ht'|(-> & -> & ->)].
    { destruct Ht as [Ht|Ht]; [|left; by right].
      destruct (decide (p = q)) as [<-|], wait; try (left; by left).
      apply elem_of_app in Ht as [?|Hx]; [left; by left|right]. by apply list_elem_of_singleton in Hx. }
    * destruct (H2 q l Hc Ht') as (r & ? & ?). exists r. split; [by apply made_add_link|by apply Hws].
    * exists c. split; [apply made_add_link_new|]. simpl. rewrite Hc. simpl. apply elem_of_app. right. by left.
  + intros q r Hin Hq. simpl in Hin. destruct (wait && negb (is_closed s p)) eqn:Hx; [|by apply H3].
    apply elem_of_app in Hin as [?|Hy]; [by apply H3|]. apply list_elem_of_singleton in Hy. simplify_eq.
    apply (proj2 (life_log _ _ HL)) in Hq. rewrite Hq, andb_false_r in Hx. done.
Qed.

(** Frames that wait for no link can be added. *)
Lemma waited_spawn fs s G : Forall (fun f => passive f = true) fs -> waited s G -> waited s (fs ++ G).
Proof.
  intros Hf HW.
  destruct HW as [H1 H2 H3].
  assert (Ht : forall q l, to_wait s (fs ++ G) q l <-> to_wait s G q l).
  { intros q l. unfold to_wait. rewrite !Exists_pend, map_app, concat_app.
    replace (concat (map (pend q) fs)) with (@nil lid); [done|].
    induction Hf as [|f fs Hf _ IH]; [done|]. simpl. rewrite <- IH. by destruct f. }
  split; [|intros q l Hc; rewrite Ht; by apply H2|done].
  intros q r Hin Hc. destruct (H1 q r Hin Hc) as [?|(l & ? & ?)]; [by left|right]. exists l. by rewrite Ht.
Qed.

Lemma waited_step s G s' G' : life s G -> linked s G -> waited s G -> fstep s G s' G' -> waited s' G'.
Proof.
  intros HL HK HW Hs.
  destruct Hs as [s f G fs gos s' He|s G|tf s G|kid wait p c P s G Hp Hl Hk|tf p P s G Hp Hl|fs s G Hf].
  - rewrite (assoc_L (++)). by eapply waited_exec.
  - by apply (waited_same s s FBody [] G).
  - by apply waited_new.
  - by apply waited_link.
  - apply (waited_same s _ FBody []); try done.
    + by apply (waited_spawn [FBody]); [constructor|].
    + by eapply is_closed_same.
    + by eapply wf_of_same.
  - by apply waited_spawn.
Qed.

Lemma freach_waited s G : freach s G -> waited s G.
Proof.
  induction 1 as [|s G s' G' Hr IH Hs|s G G' Hr IH Hp].
  - split; [by intros p q ?%elem_of_nil| |by intros p q ?%elem_of_nil].
    intros [|[|p]] l _ [Hin|Hin%Exists_nil]; by try apply elem_of_nil in Hin.
  - eapply waited_step; [by apply freach_life|by apply freach_linked|done..].
  - by eapply waited_perm.
Qed.

(** ** The children are told to close *)

Definition kidded (s : store) (G : list frame) : Prop :=
  forall p q, (p, q) ∈ kids s ->
    is_closing s q = true \/ FClose q ∈ G
    \/ exists l, made s l = Some q /\ is_closed s p = false /\ l ∈ kids_of s p
         /\ forall ls, FChildren p ls ∈ G -> l ∈ ls.

Lemma kidded_perm s G G' : kidded s G -> G ≡ₚ G' -> kidded s G'.
Proof.
  intros H Hp p q Hin. destruct (H p q Hin) as [?|[?|(l & ? & ? & ? & Hl)]]; [by left|right; left; by rewrite <- Hp|].
  right. right. exists l. split_and!; [done..|]. intros ls. rewrite <- Hp. apply Hl.
Qed.

(** Most steps leave the children alone. *)
Lemma kidded_keep s s' f F G :
  kidded s (f :: G) -> kids s' = kids s -> (forall l, made s' l = made s l) ->
  (forall q, is_closing s q = true -> is_closing s' q = true) ->
  (forall q, is_closed s' q = is_closed s q) -> (forall q, kids_of s' q = kids_of s q) ->
  (forall p ls, FChildren p ls ∈ F -> FChildren p ls = f \/ kids_of s p = ls) ->
  (forall q, f = FClose q -> is_closing s' q = true) -> kidded s' (F ++ G).
Proof.
  intros H Hk Hm Hcg Hcd Hkk HF Hf p q. rewrite Hk. intros Hin.
  destruct (H p q Hin) as [?|[Hq|(l & Hl & Hd & Hlk & Hch)]].
  - left. by apply Hcg.
  - apply elem_of_cons in Hq as [Hq|Hq]; [left; by apply Hf|]. right. left. apply elem_of_app. by right.
  - right. right. exists l. rewrite Hm, Hcd, Hkk. split_and!; [done..|].
    intros ls [Hin'|Hin']%elem_of_app.
    + destruct (HF p ls Hin') as [<-|Hls]; [apply Hch; by left|by rewrite <- Hls].
    + apply Hch. by right.
Qed.

Lemma kids_of_same s s' p g :
  procs s' = alter g p (procs s) -> (forall P, children (g P) = children P) -> forall q, kids_of s' q = kids_of s q.
Proof.
  intros Hs Hg q. unfold kids_of. rewrite Hs, list_lookup_alter.
  destruct (decide (p = q)) as [<-|]; [|done]. destruct (procs s !! p); simpl; [by rewrite Hg|done].
Qed.

Lemma kidded_Close s f G p P fs gos s' :
  procs s !! p = Some P -> (forall q, f = FClose q -> q = p) -> kidded s (f :: G) -> Close p P s = Next fs gos s' ->
  (forall q, is_closing s q = true -> is_closing s' q = true) -> kidded s' ((fs ++ gos) ++ G).
Proof.
  intros Hp Hf HK He Hm. unfold Close in He. destruct (locked P); [done|]. destruct (closing P) eqn:Hc; simplify_eq.
  - apply (kidded_keep s' s' f); try done; [by intros q ls ?%list_elem_of_singleton|].
    intros q ->%Hf. by rewrite (is_closing_lookup s' p P Hp).
  - apply (kidded_keep s _ f); try done.
    + by eapply is_closed_same.
    + by eapply kids_of_same.
    + by intros q ls ?%list_elem_of_singleton.
    + intros q ->%Hf. by rewrite (is_closing_upd p start_closing s P p Hp), decide_True.
Qed.

Lemma kidded_exec_FChildren s p ls G fs gos s' :
  life s (FChildren p ls :: G) -> linked s (FChildren p ls :: G) -> kidded s (FChildren p ls :: G) -> exec (FChildren p ls) s = Next fs gos s' -> kidded s' ((fs ++ gos) ++ G).
Proof.
  intros HL HB HK He. pose proof (fun q => closing_mono s s' q (exec_change _ _ _ _ _ _ HL He)) as Hm.
  simpl in He; unfold AddToChild, AddToChild_locked, with_proc in He.
  destruct ls as [|l ls].
  + destruct (procs s !! p) as [P|] eqn:Hp; [|done]. simplify_eq. intros q r Hin.
    destruct (HK q r Hin) as [?|[Hq|(l & Hl & Hd & Hlk & Hch)]]; [left; by apply Hm|..].
    * apply elem_of_cons in Hq as [?|Hq]; [done|]. right. left. by right.
    * right. right. exists l. destruct (decide (p = q)) as [<-|Hne].
      { pose proof (Hch [] ltac:(by left)) as Hx. by apply elem_of_nil in Hx. }
      split_and!; [done| | |].
      -- by rewrite (is_closed_upd p forget s P q Hp), decide_False.
      -- by rewrite kids_of_upd, decide_False.
      -- intros ls [?|?]%elem_of_cons; [done|]. apply Hch. by right.
  + simplify_eq.
    destruct (at_closer s _ G p HL (Nat.eqb_refl p)) as (Hn & _).
    intros q r Hin. destruct (HK q r Hin) as [?|[Hq|(l' & Hl & Hd & Hlk & Hch)]].
    * by left.
    * apply elem_of_cons in Hq as [?|Hq]; [done|]. right. left. apply elem_of_app. by right.
    * destruct (decide (p = q /\ l' = l)) as [[<- ->]|Hne].
      { unfold made in Hl. unfold Child. destruct (links s !! l) as [k|] eqn:Hk; [|done]. injection Hl as <-. simpl.
        destruct (linked_child _ _ HB l k Hk) as [-> |[-> Hc]]; [right; left|left].
        - by right; left.
        - apply (life_closed _ _ HL) in Hc. done. }
      right. right. exists l'. split_and!; [by rewrite <- Hl; apply made_upd_link|done|done|].
      intros ls' [Hin'|Hin']%elem_of_app; [|apply Hch; by right].
      apply elem_of_app in Hin' as [Hin'%list_elem_of_singleton|Hin'].
      -- simplify_eq. pose proof (Hch (l :: ls) ltac:(by left)) as [->|?]%elem_of_cons; [|done].
         by destruct Hne.
      -- destruct (Child l s); [by apply list_elem_of_singleton in Hin'|by apply elem_of_nil in Hin'].
Qed.

Lemma kidded_exec_FTeardown s p G fs gos s' :
  life s (FTeardown p :: G) -> linked s (FTeardown p :: G) -> kidded s (FTeardown p :: G) -> exec (FTeardown p) s = Next fs gos s' -> kidded s' ((fs ++ gos) ++ G).
Proof.
  intros HL HB HK He. pose proof (fun q => closing_mono s s' q (exec_change _ _ _ _ _ _ HL He)) as Hm.
  simpl in He; unfold AddToChild, AddToChild_locked, with_proc in He.
  destruct (procs s !! p) as [P|] eqn:Hp; [|done]. simplify_eq.
  destruct (life_teardown _ _ HL p P ltac:(by left) Hp) as [Hcs _].
  intros q r Hin. destruct (HK q r Hin) as [?|[Hq|(l & Hl & Hd & Hlk & Hch)]]; [left; by apply Hm|..].
  + apply elem_of_cons in Hq as [?|Hq]; [done|]. right. left. by right.
  + right. right. destruct (decide (p = q)) as [<-|Hne].
    { unfold kids_of in Hlk. rewrite Hp, Hcs in Hlk. by apply elem_of_nil in Hlk. }
    exists l. split_and!; [done| | |].
    * rewrite <- Hd. unfold is_closed. cbn [procs]. by rewrite list_lookup_alter_ne.
    * unfold kids_of. cbn [procs]. by rewrite list_lookup_alter_ne.
    * intros ls [?|?]%elem_of_cons; [done|]. apply Hch. by right.
Qed.

Lemma kidded_exec s f G fs gos s' :
  life s (f :: G) -> linked s (f :: G) -> kidded s (f :: G) -> exec f s = Next fs gos s' -> kidded s' ((fs ++ gos) ++ G).
Proof.
  intros HL HB HK He. pose proof (fun q => closing_mono s s' q (exec_change _ _ _ _ _ _ HL He)) as Hm.
  destruct f as [p|p|p|p|p ls|p wf|p w wf|p w wf|p|ls|l|l c|p|p|p c|]; simpl in He; unfold AddToChild, AddToChild_locked, with_proc in He.
  - destruct (procs s !! p) as [P|] eqn:Hp; [|done]. destruct (unclosable P); [done|].
    eapply kidded_Close; [exact Hp| |exact HK|exact He|exact Hm]. by intros q [= ->].
  - destruct (procs s !! p) as [P|] eqn:Hp; [|done].
    eapply kidded_Close; [exact Hp| |exact HK|exact He|exact Hm]. done.
  - destruct (is_closed s p); simplify_eq. apply (kidded_keep s' s' (FWaitClosed p) []); try done.
    by intros q ls ?%elem_of_nil.
  - destruct (procs s !! p) as [P|] eqn:Hp; [|done].
    assert (Hk : kids_of s p = children P) by (unfold kids_of; by rewrite Hp).
    destruct (children P) as [|x xs] eqn:Hcs, (waitfors P) as [|y ys] eqn:Hwf; simplify_eq;
      apply (kidded_keep s' s' (FLoop p)); try done; intros q ls Hin%list_elem_of_singleton; simplify_eq; by right.
  - by eapply kidded_exec_FChildren.
  - destruct wf as [|w wf]; simplify_eq.
    + apply (kidded_keep s' s' (FWaitfors p [])); try done. by intros q ls ?%list_elem_of_singleton.
    + apply (kidded_keep s _ (FWaitfors p (w :: wf))); try done.
      * by eapply is_closed_same.
      * by eapply kids_of_same.
      * by intros q ls ?%list_elem_of_singleton.
  - destruct (ChildClosed w s); simplify_eq. apply (kidded_keep s' s' (FWaiting p w wf)); try done.
    by intros q ls ?%list_elem_of_singleton.
  - destruct (procs s !! p) as [P|] eqn:Hp; [|done]. destruct (locked P); simplify_eq.
    apply (kidded_keep s _ (FRelock p w wf)); try done.
    + intros l. by apply (made_upd_link w _ (upd p (set_lock true) s)).
    + by eapply is_closed_same.
    + by eapply kids_of_same.
    + by intros q ls ?%list_elem_of_singleton.
  - by eapply kidded_exec_FTeardown.
  - destruct ls as [|l ls]; simplify_eq.
    + apply (kidded_keep s' s' (FClear []) []); try done. by intros q ls ?%elem_of_nil.
    + apply (kidded_keep s _ (FClear (l :: ls))); try done; [by intros; apply made_upd_link|].
      by intros q ls' ?%list_elem_of_singleton.
  - destruct (Child l s) as [c|]; [|done]. destruct (procs s !! c) as [C|]; [|done]. destruct (unclosable C); simplify_eq.
    apply (kidded_keep s' s' (FAdd l)); try done. by intros q ls ?%list_elem_of_singleton.
  - destruct (procs s !! c) as [C|]; [|done]. destruct (locked C); [done|]. destruct (closed C); simplify_eq.
    + apply (kidded_keep s' s' (FAddLock l c)); try done. by intros q ls ?%list_elem_of_singleton.
    + apply (kidded_keep s _ (FAddLock l c) []); try done.
      * by eapply is_closed_same.
      * by eapply kids_of_same.
      * by intros q ls ?%elem_of_nil.
  - destruct (procs s !! p) as [P|]; [|done]. destruct (locked P); [done|]. destruct (closed P); simplify_eq;
      apply (kidded_keep s' s' (FAfter p)); try done; by intros q ls ?%list_elem_of_singleton.
  - destruct (procs s !! p) as [P|]; [|done]. destruct (locked P); [done|]. destruct (nextToWaitFor _ _); simplify_eq;
      apply (kidded_keep s' s' (FNext p)); try done; by intros q ls ?%list_elem_of_singleton.
  - destruct (is_closed s c); simplify_eq. apply (kidded_keep s' s' (FWaitNext p c)); try done.
    by intros q ls ?%list_elem_of_singleton.
  - done.
Qed.

Lemma kidded_link kid wait p c P s G :
  life s G -> kidded s G -> procs s !! p = Some P -> locked P = false ->
  kidded (add_link kid wait p c s)
    (FAdd (length (links s)) :: (if kid && closing P then [FClose c] else []) ++ G).
Proof.
  intros HL HK Hp Hl q r Hin.
  assert (Hcl : forall q, is_closed (add_link kid wait p c s) q = is_closed s q) by by eapply is_closed_same.
  assert (Hcg : forall q, is_closing (add_link kid wait p c s) q = is_closing s q).
  { intros x. transitivity (is_closing (upd p (register kid wait (length (links s))) s) x); [done|].
    rewrite (is_closing_upd _ _ _ P) by done. destruct (decide (p = x)) as [<-|]; [|done].
    by rewrite (is_closing_lookup s p P Hp). }
  assert (Hkk : forall q, kids_of (add_link kid wait p c s) q
                = if decide (p = q) then (if kid then kids_of s q ++ [length (links s)] else kids_of s q) else kids_of s q).
  { intros x. transitivity (kids_of (upd p (register kid wait (length (links s))) s) x); [done|].
    rewrite kids_of_upd. unfold kids_of. destruct (decide (p = x)) as [<-|]; [|done]. by rewrite Hp. }
  assert (Hch : forall x ls, FChildren x ls ∈ FAdd (length (links s)) :: (if kid && closing P then [FClose c] else []) ++ G
                -> FChildren x ls ∈ G).
  { intros x ls [?|[Hx|?]%elem_of_app]%elem_of_cons; [done| |done].
    destruct (kid && closing P); [by apply list_elem_of_singleton in Hx|by apply elem_of_nil in Hx]. }
  assert ((q, r) ∈ kids s \/ kid = true /\ is_closed s p = false /\ q = p /\ r = c) as [Hin'|(-> & Hd & -> & ->)].
  { simpl in Hin. destruct kid, (is_closed s p); simpl in Hin; try (by left).
    apply elem_of_app in Hin as [?|Hx]; [by left|right]. apply list_elem_of_singleton in Hx. by simplify_eq. }
  - destruct (HK q r Hin') as [?|[Hq|(l & Hlm & Hd & Hlk & Hls)]].
    + left. by rewrite Hcg.
    + right. left. right. apply elem_of_app. by right.
    + right. right. exists l. rewrite Hcl, Hkk. split_and!; [by apply made_add_link|done| |].
      * destruct (decide (p = q)), kid; try done. apply elem_of_app. by left.
      * intros ls Hx. by apply Hls, Hch.
  - destruct (closing P) eqn:Hc; simpl.
    + right. left. right. by left.
    + right. right. exists (length (links s)). rewrite Hcl, Hkk, decide_True by done.
      split_and!; [apply made_add_link_new|done|apply elem_of_app; right; by left|].
      intros ls Hx%Hch. pose proof (no_closer s G p P HL Hp (or_introl Hc)) as Hn.
      pose proof (closers_0 p G _ Hn Hx) as Hy. simpl in Hy. by rewrite Nat.eqb_refl in Hy.
Qed.

Lemma kidded_body s f G : (forall p, closer p f = false) -> (forall q, f <> FClose q) -> kidded s G -> kidded s (f :: G).
Proof.
  intros Hf Hq HK p q Hin. destruct (HK p q Hin) as [?|[?|(l & ? & ? & ? & Hls)]]; [by left|right; left; by right|].
  right. right. exists l. split_and!; [done..|]. intros ls [Hx|?]%elem_of_cons; [|by apply Hls].
  specialize (Hf p). rewrite <- Hx in Hf. simpl in Hf. by rewrite Nat.eqb_refl in Hf.
Qed.

Lemma kidded_step s G s' G' : life s G -> linked s G -> kidded s G -> fstep s G s' G' -> kidded s' G'.
Proof.
  intros HL HB HK Hs. pose proof (fun q => closing_mono s s' q (fstep_change _ _ _ _ HL Hs)) as Hm.
  destruct Hs as [s f G fs gos s' He|s G|tf s G|kid wait p c P s G Hp Hl Hk|tf p P s G Hp Hl|fs s G Hf].
  - rewrite (assoc_L (++)). by eapply kidded_exec.
  - apply (kidded_keep s s FBody []); try done. by intros q ls ?%elem_of_nil.
  - intros p q Hin. destruct (HK p q Hin) as [?|[?|(l & ? & ? & Hkp & ?)]]; [left; by apply Hm|by right; left|].
    right. right. exists l. rewrite is_closed_new. split_and!; [done|done| |done].
    unfold kids_of in *. destruct (procs s !! p) as [P|] eqn:Hp; [|by apply elem_of_nil in Hkp].
    simpl. by rewrite (lookup_app_l_Some _ _ _ _ Hp).
  - by apply kidded_link.
  - apply (kidded_keep s _ FBody []); try done.
    + by apply kidded_body.
    + by eapply is_closed_same.
    + by eapply kids_of_same.
    + by intros q ls ?%elem_of_nil.
  - induction Hf as [|f fs Hf _ IH]; [done|]. intros p q Hin.
    destruct (IH p q Hin) as [?|[?|(l & ? & ? & ? & Hls)]]; [by left|right; left; by right|].
    right. right. exists l. split_and!; [done..|]. intros ls [Hx|?]%elem_of_cons; [|by apply Hls]. by subst f.
Qed.

Lemma freach_kidded s G : freach s G -> kidded s G.
Proof.
  induction 1 as [|s G s' G' Hr IH Hs|s G G' Hr IH Hp].
  - by intros p q ?%elem_of_nil.
  - eapply kidded_step; [by apply freach_life|by apply freach_linked|done..].
  - by eapply kidded_perm.
Qed.

(** ** The error of a closed process *)

Definition errs (s : store) : Prop :=
  forall p tf, (p, tf) ∈ log s -> exists P, procs s !! p = Some P /\ closed P = true /\ closeErr P = run_teardown tf.

Lemma errs_change s s' p P :
  change s s' -> procs s !! p = Some P -> closed P = true ->
  exists P', procs s' !! p = Some P' /\ closed P' = true /\ closeErr P' = closeErr P.
Proof.
  intros [->|tf ->|q Q g Hq -> _ Hc _ He] Hp Hd.
  - by exists P.
  - exists P. by rewrite (lookup_app_l_Some _ _ _ _ Hp).
  - rewrite list_lookup_alter. destruct (decide (q = p)) as [->|]; [|by exists P]. simplify_eq. exists (g Q).
    rewrite Hq. split_and!; [done|by apply Hc|by apply He].
Qed.

Lemma fstep_log s G s' G' :
  life s G -> fstep s G s' G' ->
  log s' = log s \/ exists p P, procs s !! p = Some P /\ procs s' !! p = Some (finish P)
                                /\ log s' = log s ++ [(p, teardown P)].
Proof.
  intros HL Hs.
  destruct Hs as [s f G fs gos s' He|s G|tf s G|kid wait p c P s G Hp Hl Hk|tf p P s G Hp Hl|fs s G Hf];
    try (by left).
  destruct f as [p|p|p|p|p ls|p wf|p w wf|p w wf|p|ls|l|l c|p|p|p c|]; simpl in He; unfold AddToChild, AddToChild_locked, with_proc, Close in He;
    try (repeat case_match; simplify_eq; by left).
  destruct (procs s !! p) as [P|] eqn:Hp; [|done]. simplify_eq. right. exists p, P. split_and!; [done| |done].
  simpl. by rewrite list_lookup_alter_eq, Hp.
Qed.

Lemma freach_errs s G : freach s G -> errs s.
Proof.
  induction 1 as [|s G s' G' Hr IH Hs|]; [by intros p tf ?%elem_of_nil| |done].
  pose proof (freach_life _ _ Hr) as HL. pose proof (fstep_change _ _ _ _ HL Hs) as Hc.
  intros p tf Hin. destruct (fstep_log _ _ _ _ HL Hs) as [Hl|(q & Q & HQ & HQ' & Hl)]; rewrite Hl in Hin.
  - destruct (IH p tf Hin) as (P & Hp & Hd & He). destruct (errs_change _ _ _ _ Hc Hp Hd) as (P' & ? & ? & ?).
    exists P'. split_and!; [done|done|congruence].
  - apply elem_of_app in Hin as [Hin|Hin].
    + destruct (IH p tf Hin) as (P & Hp & Hd & He). destruct (errs_change _ _ _ _ Hc Hp Hd) as (P' & ? & ? & ?).
      exists P'. split_and!; [done|done|congruence].
    + apply list_elem_of_singleton in Hin. simplify_eq. by exists (finish Q).
Qed.
