(* ===== verification/ProcessProps.v ===== *)
(** * Process trees: the theorems

    Exactly-once teardown, the order in which processes close, what closing does to
    the children, freedom from deadlock, and two defects of the life cycle, for
    every reachable machine of [Process.v]. *)

From stdpp Require Import relations.
From S2P Require Import Prelude Process ProcessFacts.

(** ** The shape of the threads *)

Definition well_shaped (t : thread) : Prop := Forall (fun f => passive f = true) (tail t).

Lemma exec_short f s fs gos s' : exec f s = Next fs gos s' -> length fs <= 1.
Proof.
  destruct f; simpl; unfold AddToChild, AddToChild_locked, with_proc, Close; intros; repeat case_match; simplify_eq; simpl; lia.
Qed.

Lemma shaped_tail f k : well_shaped (f :: k) -> well_shaped k.
Proof. unfold well_shaped. simpl. destruct k; [done|]. by intros [_ H]%Forall_cons. Qed.

Lemma spawned_shaped gos : Forall well_shaped (spawned gos).
Proof. induction gos; constructor; [by constructor|done]. Qed.

Lemma calls_shaped c s fs gos s' t : exec_call c s = (Next fs gos s', t) -> Forall well_shaped t.
Proof.
  destruct c; cbn [exec_call]; intros H; try (by simplify_eq; constructor).
  - unfold Go in H. destruct (go_processes s) as [[x w] s1]. destruct (AddChild p (Some x) pick s1); simplify_eq.
    repeat constructor.
  - unfold Go_top in H. destruct (go_processes s) as [[x w] s1]. simplify_eq. repeat constructor.
Qed.

Lemma reachable_shaped m : reachable m -> Forall well_shaped (threads m).
Proof.
  induction 1 as [|m l m' _ IH Hs]; [constructor|]. inversion Hs; subst; simpl in *.
  - apply Forall_app in IH as [Ht1 Ht2]. apply Forall_cons in Ht2 as [Hk Ht2].
    rewrite Forall_app, Forall_cons, Forall_app. split_and!; [done| |done|apply spawned_shaped].
    match goal with He : exec _ _ = Next _ _ _ |- _ => pose proof (exec_short _ _ _ _ _ He) end.
    destruct fs as [|g fs]; [by apply (shaped_tail f)|]. destruct fs; [done|simpl in *; lia].
  - apply Forall_app in IH as [Ht1 Ht2]. apply Forall_cons in Ht2 as [Hk Ht2].
    rewrite Forall_app, Forall_cons. split_and!; [done| |done].
    by apply shaped_tail in Hk.
  - rewrite !Forall_app. split_and!; [done|by eapply calls_shaped|apply spawned_shaped].
Qed.

(** ** Teardown *)

Lemma exec_log f s fs gos s' x : exec f s = Next fs gos s' -> x ∈ log s -> x ∈ log s'.
Proof.
  destruct f; simpl; unfold AddToChild, AddToChild_locked, with_proc, Close; intros; repeat case_match; simplify_eq; try done.
  apply elem_of_app. by left.
Qed.

Lemma call_log c s fs gos s' t : exec_call c s = (Next fs gos s', t) -> log s' = log s.
Proof.
  destruct c; cbn [exec_call]; unfold Go, Go_top, WaitFor, WithParent, WithTeardown, SetTeardown,
    AddChild, AddChildNoWait, AddChild_, go_processes, new_process, with_proc;
    intros; repeat case_match; by simplify_eq/=.
Qed.

Lemma step_log m l m' x : step m l (Running m') -> x ∈ log (mem m) -> x ∈ log (mem m').
Proof.
  intros Hs Hx. inversion Hs; subst; simpl in *; [by eapply exec_log|done|].
  by erewrite call_log.
Qed.

(** The processes whose teardown has run, in that order. *)
Definition torn_down (m : machine) : list pid := (log (mem m)).*1.


(** ** Order *)

Lemma waits_before m p q :
  reachable m -> (p, q) ∈ waits (mem m) -> is_closed (mem m) p = true ->
  is_closed (mem m) q = true /\ exists l1 l2, (log (mem m)).*1 = l1 ++ p :: l2 /\ q ∈ l1.
Proof.
  intros Hr Hw Hc. pose proof (reachable_flat m Hr) as Hf. pose proof (freach_life _ _ Hf) as HL.
  apply (proj2 (life_log _ _ HL)) in Hc.
  destruct (waited_order _ _ (freach_waited _ _ Hf) p q Hw Hc) as (l1 & l2 & Hl & Hq).
  split; [|by exists l1, l2]. apply (proj2 (life_log _ _ HL)). rewrite Hl. apply elem_of_app. by left.
Qed.

(** C17. Well-ordered teardown: when [WaitFor] or [AddChild] has registered [q] on a
    process [p] that was not closed, then [p] is closed only after [q] is: in the
    order in which the teardowns run, that of [q] comes before that of [p]. *)
Theorem teardown_order m p q :
  reachable m -> (p, q) ∈ waits (mem m) -> is_closed (mem m) p = true ->
  is_closed (mem m) q = true /\ exists l1 l2, torn_down m = l1 ++ p :: l2 /\ q ∈ l1.
Proof. apply waits_before. Qed.

(** Closing a process closes its children: once a process to which [AddChild] or
    [AddChildNoWait] added a child is closed, the child is closing, or a goroutine
    is about to call its [Close]; after [AddChild] the child is closed. *)
Theorem closing_reaches_children m p q :
  reachable m -> (p, q) ∈ kids (mem m) -> is_closed (mem m) p = true ->
  (is_closing (mem m) q = true \/ exists t, t ∈ threads m /\ FClose q ∈ t)
  /\ ((p, q) ∈ waits (mem m) -> is_closed (mem m) q = true).
Proof.
  intros Hr Hk Hc. pose proof (reachable_flat m Hr) as Hf. split.
  - destruct (freach_kidded _ _ Hf p q Hk) as [?|[Hin|(l & _ & Hn & _)]]; [by left| |congruence].
    right. apply list_elem_of_In, in_concat in Hin as (t & Ht & Hin).
    exists t. by rewrite !list_elem_of_In.
  - intros Hw. by apply (waits_before m p q).
Qed.

(** ** Deadlock *)

(** No goroutine can take a step of its own. *)
Definition stuck (m : machine) : Prop :=
  forall f k, (f :: k) ∈ threads m -> exec f (mem m) = Blocked.

(** In such a machine a process that is closing, but not closed, waits for another
    one that is not closed. *)
Lemma stuck_waits m p :
  reachable m -> stuck m -> is_closing (mem m) p = true -> is_closed (mem m) p = false ->
  exists q, (p, q) ∈ waits (mem m) /\ is_closed (mem m) q = false.
Proof.
  intros Hr Hst Hg Hd. pose proof (reachable_flat m Hr) as Hf. pose proof (freach_life _ _ Hf) as HL.
  pose proof (life_closers _ _ HL p) as Hn. rewrite Hg, Hd in Hn. simpl in Hn.
  assert (exists f, f ∈ concat (threads m) /\ closer p f = true) as (f & Hin & Hcl).
  { clear -Hn. induction (concat (threads m)) as [|f G IH]; simpl in Hn; [done|].
    destruct (closer p f) eqn:Hf; [by exists f; split; [left|]|].
    destruct IH as (g & ? & ?); [done|]. exists g. by split; [right|]. }
  assert (Hb : exec f (mem m) = Blocked).
  { apply list_elem_of_In, in_concat in Hin as (t & Ht & Hin). apply list_elem_of_In in Ht, Hin.
    pose proof (proj1 (Forall_forall _ _) (reachable_shaped m Hr) t Ht) as Hs.
    destruct t as [|g k]; [by apply elem_of_nil in Hin|]. apply elem_of_cons in Hin as [->|Hin]; [by eapply Hst|].
    apply (proj1 (Forall_forall _ _) Hs) in Hin. by destruct f. }
  apply elem_of_Permutation in Hin as (G & HG).
  pose proof (life_perm _ _ _ HL HG) as HL'. pose proof (linked_perm _ _ _ (freach_linked _ _ Hf) HG) as HK.
  pose proof (waited_perm _ _ _ (freach_waited _ _ Hf) HG) as HW.
  destruct (at_closer _ f _ p HL' Hcl) as (_ & P & Hp & _ & _ & Hlk).
  destruct f as [| | |q|q ls|q wf|q w wf|q w wf|q| | | | | | |]; try done;
    apply Nat.eqb_eq in Hcl as <-; simpl in Hb; unfold with_proc in Hb; rewrite ?Hp in Hb.
  - by destruct (children P), (waitfors P).
  - by destruct ls.
  - by destruct wf.
  - destruct (ChildClosed w (mem m)) eqn:Hc; [done|].
    destruct (waited_made _ _ HW p w Hd) as (q & Hq & ?).
    { right. apply Exists_cons. left. simpl. rewrite Nat.eqb_refl. by left. }
    exists q. split; [done|]. by rewrite <- (ChildClosed_made _ _ _ _ HK Hq).
  - simpl in Hlk. by rewrite Hlk in Hb.
  - done.
Qed.

(** ** Termination *)

(** The steps that goroutines can still take of their own: those of each frame,
    and those that a process's lists and its closing will cost. *)
Definition loop_cost (P : process) : nat :=
  match children P, waitfors P with [], [] => 0 | ls, _ => 3 * length ls + 4 end.
Definition proc_cost (P : process) : nat :=
  3 * length (waitfors P) + (if closed P then 0 else length (waiters P))
  + (if closing P then 0 else 3 + loop_cost P).
Definition open_procs (s : store) : nat := length (List.filter (fun P => negb (closed P)) (procs s)).
Definition loop_cost_of (s : store) (p : pid) : nat :=
  match procs s !! p with Some P => loop_cost P | None => 0 end.

Definition frame_cost (s : store) (f : frame) : nat :=
  match f with
  | FClose _ | FCloseSelf _ => 2
  | FWaitClosed _ => 1
  | FLoop p => 3 + loop_cost_of s p
  | FChildren _ ls => 3 * length ls + 5
  | FWaitfors p wf => 3 * length wf + 4 + loop_cost_of s p
  | FWaiting p _ wf => 3 * length wf + 6 + loop_cost_of s p
  | FRelock p _ wf => 3 * length wf + 5 + loop_cost_of s p
  | FTeardown _ => 2
  | FClear ls => length ls + 1
  | FAdd _ => 4
  | FAddLock _ _ => 3
  | FAfter _ => 5 + 2 * open_procs s
  | FNext _ => 4 + 2 * open_procs s
  | FWaitNext _ c => if is_closed s c then 5 + 2 * open_procs s else 3 + 2 * open_procs s
  | FBody => 0
  end.
Definition procs_cost (s : store) : nat := sum_list (map proc_cost (procs s)).
Definition frames_cost (s : store) (G : list frame) : nat := sum_list (map (frame_cost s) G).
Definition cost (m : machine) : nat := procs_cost (mem m) + frames_cost (mem m) (concat (threads m)).

Lemma sum_list_alter (c : process -> nat) g p l P :
  l !! p = Some P -> sum_list (map c (alter g p l)) + c P = sum_list (map c l) + c (g P).
Proof.
  revert p. induction l as [|Q l IH]; intros p H; [done|]. destruct p as [|p].
  - injection H as ->. simpl. lia.
  - specialize (IH p H). change (alter g (S p) (Q :: l)) with (Q :: alter g p l). csimpl. lia.
Qed.
Lemma open_alter g p l P :
  l !! p = Some P -> (closed P = true -> closed (g P) = true) ->
  length (List.filter (fun P => negb (closed P)) (alter g p l)) + (if closed P then 0 else if closed (g P) then 1 else 0)
  = length (List.filter (fun P => negb (closed P)) l).
Proof.
  intros H Hc. revert p H. induction l as [|Q l IH]; intros p H; [done|]. destruct p as [|p].
  - injection H as ->. simpl. destruct (closed P) eqn:Hd; [rewrite Hc by done; simpl; lia|].
    destruct (closed (g P)); simpl; lia.
  - specialize (IH p H). change (alter g (S p) (Q :: l)) with (Q :: alter g p l). csimpl.
    destruct (closed Q); csimpl; lia.
Qed.

(** A step that only takes from the lists, and closes, makes no frame dearer. *)
Definition cheaper (s s' : store) : Prop :=
  open_procs s' <= open_procs s /\ (forall p, loop_cost_of s' p <= loop_cost_of s p)
  /\ forall c, is_closed s' c = is_closed s c \/ is_closed s' c = true /\ open_procs s' < open_procs s.

Lemma frame_cheaper s s' f : cheaper s s' -> frame_cost s' f <= frame_cost s f.
Proof.
  intros (Ho & Hl & Hc). destruct f as [| | |p| |p wf|p w wf|p w wf| | | | | | |p c|]; simpl;
    try (specialize (Hl p)); try lia.
  destruct (Hc c) as [->|[-> ?]]; [destruct (is_closed s c); lia|]. destruct (is_closed s c); lia.
Qed.

Lemma frames_cheaper s s' G : cheaper s s' -> frames_cost s' G <= frames_cost s G.
Proof.
  intros H. unfold frames_cost. induction G as [|f G IH]; simpl; [lia|]. pose proof (frame_cheaper s s' f H). lia.
Qed.

Lemma cheaper_refl s s' : procs s' = procs s -> cheaper s s'.
Proof.
  intros H. unfold cheaper, open_procs, loop_cost_of, is_closed. rewrite H. split_and!; [lia|lia|by left].
Qed.

Lemma cheaper_upd s s' p P g :
  procs s !! p = Some P -> procs s' = alter g p (procs s) ->
  (closed P = true -> closed (g P) = true) -> loop_cost (g P) <= loop_cost P -> cheaper s s'.
Proof.
  intros Hp Hs Hc Hl. unfold cheaper.
  pose proof (open_alter g p (procs s) P Hp Hc) as Ho.
  assert (Ho' : open_procs s' + (if closed P then 0 else if closed (g P) then 1 else 0) = open_procs s)
    by (unfold open_procs; rewrite Hs; exact Ho).
  split_and!.
  - destruct (closed P), (closed (g P)); lia.
  - intros q. unfold loop_cost_of. rewrite Hs, list_lookup_alter.
    destruct (decide (p = q)) as [<-|]; [|done]. by rewrite Hp.
  - intros q. unfold is_closed. rewrite Hs, list_lookup_alter. destruct (decide (p = q)) as [<-|]; [|by left].
    rewrite Hp. simpl. destruct (closed P); [left; by apply Hc|]. destruct (closed (g P)); [right; split; [done|lia]|by left].
Qed.

Lemma procs_cost_alter s s' p P g :
  procs s !! p = Some P -> procs s' = alter g p (procs s) -> procs_cost s' + proc_cost P = procs_cost s + proc_cost (g P).
Proof. unfold procs_cost. intros Hp ->. by apply sum_list_alter. Qed.

Lemma loop_cost_lookup s p P : procs s !! p = Some P -> loop_cost_of s p = loop_cost P.
Proof. unfold loop_cost_of. by intros ->. Qed.

Lemma loop_cost_upd s s' p P g :
  procs s !! p = Some P -> procs s' = alter g p (procs s) -> loop_cost_of s' p = loop_cost (g P).
Proof. intros Hp Hs. unfold loop_cost_of. by rewrite Hs, list_lookup_alter_eq, Hp. Qed.

Lemma nextToWaitFor_open wf s c : nextToWaitFor wf s = Some c -> is_closed s c = false.
Proof.
  induction wf as [|e wf IH]; simpl; [done|]. destruct (Child e s) as [d|]; [|done].
  destruct (is_closed s d) eqn:Hd; [done|]. by intros [= <-].
Qed.

(** A step within the frames, on the same processes. *)
Lemma pays_frames s s' f F :
  procs s' = procs s -> frames_cost s F < frame_cost s f ->
  cheaper s s' /\ procs_cost s' + frames_cost s' F < procs_cost s + frame_cost s f.
Proof.
  intros Hp Hc. split; [by apply cheaper_refl|]. pose proof (frames_cheaper s s' F (cheaper_refl s s' Hp)).
  unfold procs_cost. rewrite Hp. lia.
Qed.

(** A step that changes one process. *)
Lemma pays_upd s s' p P g f F :
  procs s !! p = Some P -> procs s' = alter g p (procs s) ->
  (closed P = true -> closed (g P) = true) -> loop_cost (g P) <= loop_cost P ->
  proc_cost (g P) + frames_cost s' F < proc_cost P + frame_cost s f ->
  cheaper s s' /\ procs_cost s' + frames_cost s' F < procs_cost s + frame_cost s f.
Proof.
  intros Hp Hs Hc Hl Hlt. split; [by eapply cheaper_upd|]. pose proof (procs_cost_alter s s' p P g Hp Hs). lia.
Qed.

Lemma Close_pays s f p P fs gos s' :
  procs s !! p = Some P -> frame_cost s f = 2 -> Close p P s = Next fs gos s' ->
  cheaper s s' /\ procs_cost s' + frames_cost s' (fs ++ gos) < procs_cost s + frame_cost s f.
Proof.
  intros Hp Hf. unfold Close. destruct (locked P); [done|]. destruct (closing P) eqn:Hc; intros; simplify_eq.
  - apply pays_frames; [done|]. rewrite Hf. unfold frames_cost. simpl. lia.
  - eapply (pays_upd s _ p P start_closing); try done. rewrite Hf. unfold frames_cost. simpl.
    rewrite (loop_cost_upd s _ p P start_closing) by done.
    unfold proc_cost. simpl. rewrite Hc. change (loop_cost (start_closing P)) with (loop_cost P). lia.
Qed.

Lemma exec_pays_FChildren s p ls G fs gos s' :
  life s (FChildren p ls :: G) -> exec (FChildren p ls) s = Next fs gos s' ->
  cheaper s s' /\ procs_cost s' + frames_cost s' (fs ++ gos) < procs_cost s + frame_cost s (FChildren p ls).
Proof.
  intros HL He.
  simpl in He; unfold AddToChild, AddToChild_locked, with_proc in He.
  destruct ls as [|l ls].
  + destruct (procs s !! p) as [P|] eqn:Hp; [|done]. simplify_eq.
    eapply (pays_upd s _ p P forget); try done.
    * unfold loop_cost. simpl. lia.
    * unfold frames_cost. simpl. rewrite (loop_cost_upd s _ p P forget) by done.
      unfold proc_cost, loop_cost. simpl. destruct (closing P), (closed P); lia.
  + simplify_eq. apply pays_frames; [done|]. unfold frames_cost. destruct (Child l s); simpl; lia.
Qed.

Lemma exec_pays_FAddLock s l c G fs gos s' :
  life s (FAddLock l c :: G) -> exec (FAddLock l c) s = Next fs gos s' ->
  cheaper s s' /\ procs_cost s' + frames_cost s' (fs ++ gos) < procs_cost s + frame_cost s (FAddLock l c).
Proof.
  intros HL He.
  simpl in He; unfold AddToChild, AddToChild_locked, with_proc in He.
  destruct (procs s !! c) as [C|] eqn:Hp; [|done]. destruct (locked C); [done|]. destruct (closed C) eqn:Hd; simplify_eq.
  + apply pays_frames; [done|]. unfold frames_cost. simpl. lia.
  + eapply (pays_upd s _ c C (add_waiter l)); try done. unfold frames_cost, proc_cost. simpl. rewrite Hd, length_app.
    change (loop_cost (add_waiter l C)) with (loop_cost C). simpl. lia.
Qed.

Lemma exec_pays s f G fs gos s' :
  life s (f :: G) -> exec f s = Next fs gos s' ->
  cheaper s s' /\ procs_cost s' + frames_cost s' (fs ++ gos) < procs_cost s + frame_cost s f.
Proof.
  intros HL He.
  destruct f as [p|p|p|p|p ls|p wf|p w wf|p w wf|p|ls|l|l c|p|p|p c|]; simpl in He; unfold AddToChild, AddToChild_locked, with_proc in He.
  - destruct (procs s !! p) as [P|] eqn:Hp; [|done]. destruct (unclosable P); [done|]. by eapply Close_pays.
  - destruct (procs s !! p) as [P|] eqn:Hp; [|done]. by eapply Close_pays.
  - destruct (is_closed s p); simplify_eq. apply pays_frames; [done|]. unfold frames_cost. simpl. lia.
  - destruct (procs s !! p) as [P|] eqn:Hp; [|done]. pose proof (loop_cost_lookup s p P Hp) as Hlc. unfold loop_cost in Hlc.
    destruct (children P) as [|x xs], (waitfors P) as [|y ys]; simplify_eq; apply pays_frames; try done;
      unfold frames_cost; simpl; rewrite Hlc; simpl; lia.
  - by eapply exec_pays_FChildren.
  - destruct wf as [|w wf]; simplify_eq.
    + apply pays_frames; [done|]. unfold frames_cost. simpl. lia.
    + destruct (at_closer s _ G p HL (Nat.eqb_refl p)) as (_ & P & Hp & _).
      eapply (pays_upd s _ p P (set_lock false)); try done.
      unfold frames_cost. simpl. rewrite (loop_cost_upd s _ p P (set_lock false)), (loop_cost_lookup s p P) by done.
      change (loop_cost (set_lock false P)) with (loop_cost P). change (proc_cost (set_lock false P)) with (proc_cost P). lia.
  - destruct (ChildClosed w s); simplify_eq. apply pays_frames; [done|]. unfold frames_cost. simpl. lia.
  - destruct (procs s !! p) as [P|] eqn:Hp; [|done]. destruct (locked P); simplify_eq.
    eapply (pays_upd s _ p P (set_lock true)); try done.
    unfold frames_cost. simpl. rewrite (loop_cost_upd s _ p P (set_lock true)), (loop_cost_lookup s p P) by done.
    change (loop_cost (set_lock true P)) with (loop_cost P). change (proc_cost (set_lock true P)) with (proc_cost P). lia.
  - destruct (at_closer s _ G p HL (Nat.eqb_refl p)) as (_ & P & Hp & _ & Hd & _). rewrite Hp in He. simplify_eq.
    eapply (pays_upd s _ p P finish); try done. unfold frames_cost. simpl.
    unfold proc_cost. simpl. rewrite Hd. change (loop_cost (finish P)) with (loop_cost P). lia.
  - destruct ls as [|l ls]; simplify_eq; apply pays_frames; try done; unfold frames_cost; simpl; lia.
  - destruct (Child l s) as [c|]; [|done]. destruct (procs s !! c) as [C|]; [|done]. destruct (unclosable C); simplify_eq.
    apply pays_frames; [done|]. unfold frames_cost. simpl. lia.
  - by eapply exec_pays_FAddLock.
  - destruct (procs s !! p) as [P|]; [|done]. destruct (locked P); [done|]. destruct (closed P); simplify_eq;
      apply pays_frames; try done; unfold frames_cost; simpl; lia.
  - destruct (procs s !! p) as [P|]; [|done]. destruct (locked P); [done|].
    destruct (nextToWaitFor _ _) as [c|] eqn:Hn; simplify_eq; apply pays_frames; try done; unfold frames_cost; simpl; [|lia].
    rewrite (nextToWaitFor_open _ _ _ Hn). lia.
  - destruct (is_closed s c) eqn:Hc; simplify_eq. apply pays_frames; [done|]. unfold frames_cost. simpl. rewrite Hc. lia.
  - done.
Qed.

Lemma frames_cost_app s F G : frames_cost s (F ++ G) = frames_cost s F + frames_cost s G.
Proof. unfold frames_cost. rewrite map_app. induction (map (frame_cost s) F); simpl; lia. Qed.

Lemma frames_cost_perm s F G : F ≡ₚ G -> frames_cost s F = frames_cost s G.
Proof. unfold frames_cost. induction 1; simpl; lia. Qed.

Lemma internal_pays m m' : reachable m -> step m Internal (Running m') -> cost m' < cost m.
Proof.
  intros Hr Hs. pose proof (freach_life _ _ (reachable_flat m Hr)) as HL. inversion Hs; subst.
  unfold cost. simpl in *. rewrite !concat_app in *. simpl in *. rewrite !concat_app, concat_spawned in *.
  match goal with He : exec _ _ = Next _ _ _ |- _ => rename He into Hx end.
  eapply life_perm in HL; [|symmetry; apply Permutation_middle].
  destruct (exec_pays _ _ _ _ _ _ HL Hx) as [Hc Hlt].
  pose proof (frames_cheaper _ _ (concat t1) Hc). pose proof (frames_cheaper _ _ k Hc).
  pose proof (frames_cheaper _ _ (concat t2) Hc).
  assert (Hf : frames_cost s (f :: k ++ concat t2) = frame_cost s f + frames_cost s (k ++ concat t2)) by done.
  rewrite !frames_cost_app. simpl in Hf. rewrite Hf, !frames_cost_app.
  rewrite frames_cost_app in Hlt. lia.
Qed.

(** A step of the library alone. *)
Definition internal (m m' : machine) : Prop := step m Internal (Running m').

(** C19. Termination: when clients make no more calls and their functions do not
    return, the goroutines of the library stop after finitely many steps, whatever
    order they run in: the loops of [doClose] and of [CloseAfterChildren] end. *)
Theorem internal_terminates m :
  reachable m -> Acc (fun m2 m1 => internal m1 m2) m.
Proof.
  remember (cost m) as n eqn:Hn. revert m Hn. induction (lt_wf n) as [n _ IH]. intros m -> Hr.
  constructor. intros m' Hs. apply (IH (cost m') (internal_pays m m' Hr Hs) m' eq_refl).
  exact (reachable_step m Internal m' Hr Hs).
Qed.

Definition blocked (s : store) (t : thread) : bool :=
  match t with f :: _ => match exec f s with Blocked => true | _ => false end | [] => true end.

Lemma runs_out m :
  reachable m -> exists m', rtc internal m m' /\ reachable m' /\ (step m' Internal Crash \/ stuck m').
Proof.
  remember (cost m) as n eqn:Hn. revert m Hn. induction (lt_wf n) as [n _ IH]. intros m -> Hr.
  destruct (decide (Forall (fun t => blocked (mem m) t = true) (threads m))) as [Hall|Hsome].
  - exists m. split_and!; [done|done|right]. intros f k Hin.
    pose proof (proj1 (Forall_forall _ _) Hall _ Hin) as H. simpl in H. by destruct (exec f (mem m)).
  - apply not_Forall_Exists in Hsome; [|intros t; apply _]. apply Exists_exists in Hsome as (t & Hin & Ht).
    unfold compose in Ht. destruct t as [|f k]; [by destruct Ht|]. destruct m as [s ts]. simpl in *.
    apply list_elem_of_split in Hin as (t1 & t2 & ->).
    destruct (exec f s) as [| |fs gos s'] eqn:He; [by destruct Ht| |].
    + exists (mkMachine s (t1 ++ (f :: k) :: t2)). split_and!; [done|done|left]. by apply step_panic.
    + pose proof (step_frame s t1 f k t2 fs gos s' He) as Hs. pose proof (internal_pays _ _ Hr Hs) as Hlt.
      destruct (IH _ Hlt _ eq_refl (reachable_step _ _ _ Hr Hs)) as (m' & Hm & ? & ?).
      exists m'. split_and!; [|done|done]. by eapply rtc_l.
Qed.

Lemma internal_waits m m' : rtc internal m m' -> waits (mem m') = waits (mem m).
Proof.
  induction 1 as [m|m m1 m' Hs _ IH]; [done|]. rewrite IH. unfold internal in Hs. inversion Hs; subst; simpl in *.
  match goal with He : exec ?f _ = Next _ _ _ |- _ => destruct f; simpl in He; unfold AddToChild, AddToChild_locked, with_proc, Close in He end;
    repeat case_match; by simplify_eq.
Qed.

Lemma stuck_deadlock m rank p :
  reachable m -> stuck m -> (forall p q, (p, q) ∈ waits (mem m) -> rank q < rank p) ->
  is_closing (mem m) p = true -> is_closed (mem m) p = false ->
  exists q, tc (fun p q => (p, q) ∈ waits (mem m)) p q /\ is_closing (mem m) q = false.
Proof.
  intros Hr Hst Hrank. remember (rank p) as n eqn:Hn. revert p Hn.
  induction (lt_wf n) as [n _ IH]. intros p -> Hg Hd.
  destruct (stuck_waits m p Hr Hst Hg Hd) as (q & Hw & Hq).
  destruct (is_closing (mem m) q) eqn:Hgq; [|exists q; split; [by apply tc_once|done]].
  destruct (IH (rank q) (Hrank p q Hw) q eq_refl Hgq Hq) as (r & Hr' & ?).
  exists r. split; [by eapply tc_l|done].
Qed.

(** C18. No deadlock, and closing completes: when the processes wait for each other
    without a cycle, the goroutines of the library can run to a point where every
    process that is closing is closed, but for those that wait, directly or through
    others, for a process that nobody has begun to close; unless [AddToChild]
    panics. And at every point where no goroutine can go on it is so: locks alone
    never block anything for good. *)
Theorem closing_completes m rank :
  reachable m -> (forall p q, (p, q) ∈ waits (mem m) -> rank q < rank p) ->
  let settled m' := forall p, is_closing (mem m') p = true ->
    is_closed (mem m') p = true
    \/ exists q, tc (fun p q => (p, q) ∈ waits (mem m')) p q /\ is_closing (mem m') q = false in
  (stuck m -> settled m)
  /\ exists m', rtc internal m m' /\ (step m' Internal Crash \/ settled m').
Proof.
  intros Hr Hrank settled.
  assert (Hset : forall m', reachable m' -> waits (mem m') = waits (mem m) -> stuck m' -> settled m').
  { intros m' Hr' Hw Hst p Hg. destruct (is_closed (mem m') p) eqn:Hd; [by left|right].
    apply (stuck_deadlock m' rank); try done. intros x y. rewrite Hw. apply Hrank. }
  split; [by apply Hset|]. destruct (runs_out m Hr) as (m' & Hm & Hr' & [?|Hst]).
  - exists m'. split; [done|by left].
  - exists m'. split; [done|right]. apply Hset; [done|by apply internal_waits|done].
Qed.

(** ** Examples and defects *)

(** A parent [1] with a child [2], both with a teardown, that is told to close. *)
Definition family : list move :=
  [MCall (CWithTeardown (Some (Teardown 10 (Some (errors_New "one")))));
   MCall (CWithTeardown (Some (Teardown 20 None)));
   MCall (CAddChild 1 (Some 2) false); MThread 0; MThread 0; MCall (CClose 1)].
Definition after (mvs : list move) : machine := default boot (do_moves mvs boot).

Lemma after_reachable mvs : is_Some (do_moves mvs boot) -> reachable (after mvs).
Proof.
  intros [m Hm]. unfold after. rewrite Hm. eapply do_moves_reachable; [apply reachable_init|done].
Qed.

(** Thread 1 closes the parent: it starts to close the child and waits for it,
    thread 2 closes the child, and the parent goes on. *)
Definition family_closed : list move :=
  family ++ replicate 5 (MThread 1) ++ replicate 3 (MThread 2) ++ replicate 5 (MThread 1).

Lemma family_reachable : reachable (after family).
Proof. apply after_reachable. vm_compute. by eexists. Qed.
Lemma family_closed_reachable : reachable (after family_closed).
Proof. apply after_reachable. vm_compute. by eexists. Qed.


Lemma teardown_order_witness :
  is_closed (mem (after family_closed)) 2 = true
  /\ exists l1 l2, (log (mem (after family_closed))).*1 = l1 ++ 1 :: l2 /\ 2 ∈ l1.
Proof.
  apply (teardown_order (after family_closed) 1 2 family_closed_reachable).
  - vm_compute. left.
  - vm_compute. reflexivity.
Defined.

Lemma closing_reaches_children_witness : is_closed (mem (after family_closed)) 2 = true.
Proof.
  apply (closing_reaches_children (after family_closed) 1 2 family_closed_reachable).
  - vm_compute. left.
  - vm_compute. reflexivity.
  - vm_compute. left.
Defined.

Lemma internal_terminates_witness : Acc (fun m2 m1 => step m1 Internal (Running m2)) (after family).
Proof. apply (internal_terminates (after family) family_reachable). Defined.

Lemma closing_completes_witness :
  exists m', rtc internal (after family) m'
    /\ (step m' Internal Crash \/ forall p, is_closing (mem m') p = true ->
          is_closed (mem m') p = true
          \/ exists q, tc (fun p q => (p, q) ∈ waits (mem m')) p q /\ is_closing (mem m') q = false).
Proof.
  apply (closing_completes (after family) (fun p => 5 - p) family_reachable).
  intros p q H. vm_compute in H. apply list_elem_of_singleton in H. injection H as -> ->. vm_compute. lia.
Defined.

(** The background process is documented to be one "that can never close", and
    its [Close] hangs; but [CloseAfterChildren] is promoted from the process inside
    it, whose own [Close] it calls, and closes it. *)
Theorem CloseAfterChildren_closes_Background :
  exists m mvs, do_moves (MCall (CCloseAfterChildren 0) :: mvs) boot = Some m
    /\ Background = 0 /\ is_closed (mem m) Background = true
    /\ forall s P, procs s !! Background = Some P -> unclosable P = true -> exec (FClose Background) s = Blocked.
Proof.
  exists (after [MCall (CCloseAfterChildren 0); MThread 0; MThread 0; MThread 0; MThread 0; MThread 0]),
    [MThread 0; MThread 0; MThread 0; MThread 0; MThread 0].
  split_and!; [reflexivity..|]. intros s P Hp Hu. simpl. unfold with_proc. by rewrite Hp, Hu.
Qed.

(** Adding a child to a closed process is documented to panic; both cases of
    the [select] are ready then, and Go picks one, so that the call can also return
    normally, with the child registered under a parent that was torn down before
    the child has even begun to close. *)
Theorem AddChild_to_closed_may_return :
  let m := after [MCall (CWithTeardown (Some (Teardown 10 None))); MCall (CWithTeardown (Some (Teardown 20 None)));
                  MCall (CClose 1); MThread 0; MThread 0; MThread 0] in
  reachable m /\ is_closed (mem m) 1 = true /\ is_closing (mem m) 2 = false
  /\ AddChild 1 (Some 2) true (mem m) = Panics
  /\ exists gos s', AddChild 1 (Some 2) false (mem m) = Next [] gos s' /\ FClose 2 ∈ gos
       /\ kids_of s' 1 <> [] /\ is_closing s' 2 = false /\ is_closed s' 1 = true.
Proof.
  split; [apply after_reachable; vm_compute; by eexists|].
  split_and!; [reflexivity..|]. eexists _, _. split; [vm_compute; reflexivity|].
  split_and!; [by left|by vm_compute|reflexivity..].
Qed.
