(* ===== verification/Mount.v ===== *)
(** * Mounts

    Models [Godeps/.../jbenet/go-datastore/mount/mount.go]: a store made of
    other stores, each mounted at a prefix. The mounted stores are pointers, so a
    mount holds an index into the list of the stores there are, and two mounts may
    share one. *)

From S2P Require Import Prelude DsKey Query Datastore Namespace.

Module Mount.
Section Mount.
Context {S : Type} `{Datastore S}.

(** [type Mount struct]: [Datastore_] is [None] for a nil interface. *)
Record Mount := mkMount { Prefix : Key; Datastore_ : option nat }.

(** [type Datastore struct], and the stores its pointers reach. *)
Record datastore := mkDs { mounts : list Mount; stores : list S }.

(** [New] copies the slice, so that a later change of it has no effect. *)
Definition New (ms : list Mount) (heap : list S) : datastore := mkDs ms heap.

Fixpoint lookup_ (ms : list Mount) (key : Key) : option nat * Key * Key :=
  match ms with
  | [] => (None, NewKey [slash], key)
  | m :: ms =>
      if DsKey.Equal (Prefix m) key || IsAncestorOf (Prefix m) key then
        let s := TrimPrefix (String_ key) (String_ (Prefix m)) in
        (Datastore_ m, Prefix m, NewKey s)
      else lookup_ ms key
  end.
Definition lookup (d : datastore) (key : Key) : option nat * Key * Key := lookup_ (mounts d) key.

(** A call on the store [h] points to. *)
Definition on_store {A} (h : nat) (call : S -> res A * S) (d : datastore) : res A * datastore :=
  match stores d !! h with
  | None => (Panic, d)
  | Some s => let '(r, s) := call s in (r, mkDs (mounts d) (<[h := s]> (stores d)))
  end.

Definition Put (key : Key) (v : value) (d : datastore) : res unit * datastore :=
  let '(ds, _, k) := lookup d key in
  match ds with None => (Err ErrNoMount, d) | Some h => on_store h (ds_Put k v) d end.

Definition Get (key : Key) (d : datastore) : res value * datastore :=
  let '(ds, _, k) := lookup d key in
  match ds with None => (Err DsErrNotFound, d) | Some h => on_store h (ds_Get k) d end.

Definition Has (key : Key) (d : datastore) : res bool * datastore :=
  let '(ds, _, k) := lookup d key in
  match ds with None => (Ok false, d) | Some h => on_store h (ds_Has k) d end.

Definition Delete (key : Key) (d : datastore) : res unit * datastore :=
  let '(ds, _, k) := lookup d key in
  match ds with None => (Err DsErrNotFound, d) | Some h => on_store h (ds_Delete k) d end.

(** The pair of functions that [Query] wraps the mounted store with. [Convert]
    panics in the code; [ktds.Query] never calls it. *)
Definition mount_pair (mount : Key) : Keytransform.Pair :=
  Keytransform.mkPair (fun k => k) (fun k => Ok (Child mount k)).

Definition Query_ (q : Query) (d : datastore) : res Results * datastore :=
  if (0 <? length (q_Filters q)) || (0 <? length (q_Orders q))
     || (0 <? q_Limit q)%Z || (0 <? q_Offset q)%Z
  then (Err (errors_New "mount only supports listing all prefixed keys in random order"), d)
  else
    let key := NewKey (q_Prefix q) in
    let '(ds, mount, k) := lookup d key in
    match ds with
    | None => (Err (errors_New "mount only supports listing a mount point"), d)
    | Some h =>
        let q2 := mkQuery (String_ k) (q_Filters q) (q_Orders q) (q_Limit q) (q_Offset q)
                    (q_KeysOnly q) in
        on_store h (fun s =>
          match Keytransform.Wrap (Some s) (Some (mount_pair mount)) with
          | Ok wrapDS =>
              let '(r, wrapDS) := Keytransform.Query_ q2 wrapDS in
              (r, Keytransform.child wrapDS)
          | Err e => (Err e, s)
          | Panic => (Panic, s)
          end) d
    end.

#[global] Instance mount_Datastore : Datastore datastore := {|
  ds_Put := Put; ds_Get := Get; ds_Has := Has; ds_Delete := Delete; ds_Query := Query_ |}.
End Mount.
Arguments datastore : clear implicits.
End Mount.

(** ** Keys under a mount *)

Lemma trim_Child p k :
  clean p -> clean k -> NewKey (TrimPrefix (key_string (Child p k)) (key_string p)) = k.
Proof.
  intros (ps & Hp & ->)%clean_key_of (es & Hes & ->)%clean_key_of. rewrite Child_key_of by done.
  destruct es as [|e es]; [|by apply TrimPrefix_Child].
  rewrite app_nil_r. rewrite <- (app_nil_r (key_string (key_of ps))) at 1.
  by rewrite TrimPrefix_app.
Qed.

(** The strings of keys under a prefix start alike when the keys do. *)
Lemma HasPrefix_Child_iff p k pre :
  clean p -> clean k -> clean pre ->
  HasPrefix (key_string (Child p k)) (key_string (Child p pre))
  = HasPrefix (key_string k) (key_string pre).
Proof.
  intros (ps & Hp & ->)%clean_key_of (es & Hes & ->)%clean_key_of (fs & Hfs & ->)%clean_key_of.
  rewrite !Child_key_of by done. destruct ps as [|p ps]; [done|].
  assert (Hroot : forall gs, gs <> [] ->
    key_string (key_of ((p :: ps) ++ gs)) = key_string (key_of (p :: ps)) ++ key_string (key_of gs))
    by (intros gs Hgs; by rewrite key_string_app).
  apply Bool.eq_iff_eq_true. rewrite !HasPrefix_spec.
  destruct fs as [|f fs], es as [|e es]; rewrite ?app_nil_r, ?Hroot by done.
  - split; intros _; [by exists []|]. exists []. by rewrite app_nil_r.
  - split; intros _; [|by eexists]. by exists (Join (e :: es) slash).
  - split; intros [t Ht]; exfalso; apply (f_equal length) in Ht;
      rewrite !length_app in Ht.
    + assert (0 < length (key_string (key_of (f :: fs)))) by (simpl; lia). lia.
    + apply Forall_cons in Hfs as [[Hf _] _]. pose proof (Join_nonnil f fs slash Hf) as Hj.
      cbn [key_of key_string length] in Ht.
      destruct (Join (f :: fs) slash); [done|]. simpl in Ht. lia.
  - split; intros [t Ht]; exists t; [|by rewrite Ht, <- app_assoc].
    rewrite <- app_assoc in Ht. by apply app_inv_head in Ht.
Qed.

Section Spec.
Import Mount.
Context {S : Type} `{DatastoreSpec S}.
Implicit Types d : Mount.datastore S.

(** Every prefix is a canonical key, every pointer leads to a correct store. *)
Definition mount_wf d : Prop :=
  Forall ds_wf (stores d)
  /\ Forall (fun m => clean (Prefix m)
       /\ forall h, Datastore_ m = Some h -> is_Some (stores d !! h)) (mounts d).

(** No store is mounted twice. *)
Definition separate d : Prop := NoDup (omap Datastore_ (mounts d)).

(** The key belongs to a mounted store: it is the mount's prefix followed by
    the key that the store is asked for. *)
Definition mounted d (k : Key) : Prop :=
  exists h p rest, lookup d k = (Some h, p, rest) /\ k = Child p rest.

(** What the mounted stores hold, as one map. *)
Definition mount_view d (k : Key) : option value :=
  match lookup d k with
  | (Some h, _, rest) => s ← stores d !! h; ds_view s rest
  | (None, _, _) => None
  end.

Lemma lookup_Some ms k h p rest :
  Mount.lookup_ ms k = (Some h, p, rest) ->
  mkMount p (Some h) ∈ ms /\ rest = NewKey (TrimPrefix (key_string k) (key_string p)).
Proof.
  induction ms as [|[p' h'] ms IH]; [done|]. simpl. destruct (_ || _).
  - intros [= -> -> <-]. split; [by left|done].
  - intros [Hin ?]%IH. split; [by right|done].
Qed.

Lemma lookup_wf d k h p rest :
  mount_wf d -> lookup d k = (Some h, p, rest) ->
  clean p /\ clean rest /\ exists s, stores d !! h = Some s /\ ds_wf s.
Proof.
  intros [Hst Hms] [Hin ->]%lookup_Some. rewrite Forall_forall in Hms.
  destruct (Hms _ Hin) as [Hp Hh]. destruct (Hh h eq_refl) as [s Hs].
  split_and!; [done|apply NewKey_clean|]. exists s. split; [done|].
  by eapply Forall_lookup_1.
Qed.

(** Different keys of mounted stores are different keys for the stores. *)
Lemma separate_prefix ms h p1 p2 :
  NoDup (omap Datastore_ ms) -> mkMount p1 (Some h) ∈ ms -> mkMount p2 (Some h) ∈ ms -> p1 = p2.
Proof.
  induction ms as [|m ms IH]; [by intros _ ?%elem_of_nil|]. rewrite omap_cons, !elem_of_cons.
  intros Hnd H1 H2.
  assert (Hout : forall p, mkMount p (Some h) ∈ ms -> Datastore_ m = Some h -> False).
  { intros p Hp Hm. rewrite Hm in Hnd. apply NoDup_cons in Hnd as [Hnin _]. apply Hnin.
    apply list_elem_of_omap. by exists (mkMount p (Some h)). }
  assert (NoDup (omap Datastore_ ms)) as Hnd'.
  { destruct (Datastore_ m); [by apply NoDup_cons in Hnd as [_ ?]|done]. }
  destruct H1 as [H1|H1], H2 as [H2|H2]; [congruence| | |by apply IH].
  - subst m. destruct (Hout p2 H2 eq_refl).
  - subst m. destruct (Hout p1 H1 eq_refl).
Qed.

Lemma mounted_inj d k1 k2 h p1 p2 rest :
  separate d -> lookup d k1 = (Some h, p1, rest) -> lookup d k2 = (Some h, p2, rest) ->
  k1 = Child p1 rest -> k2 = Child p2 rest -> k1 = k2.
Proof.
  intros Hsep [H1 _]%lookup_Some [H2 _]%lookup_Some -> ->.
  by rewrite (separate_prefix _ _ _ _ Hsep H1 H2).
Qed.

(** One of the stores after a call. *)
Definition set_store d (h : nat) (s : S) : Mount.datastore S := mkDs (mounts d) (<[h := s]> (stores d)).

Lemma set_store_wf d h s : mount_wf d -> ds_wf s -> mount_wf (set_store d h s).
Proof.
  intros [Hst Hms] Hs. split; simpl; [by apply Forall_insert|].
  eapply Forall_impl; [exact Hms|]. intros m [Hp Hh]. split; [done|]. intros h' Hm.
  apply lookup_lt_is_Some. rewrite length_insert. by apply lookup_lt_is_Some, Hh.
Qed.

Lemma mount_view_same d h s s' k :
  mount_wf d -> stores d !! h = Some s -> same_view ds_view s s' ->
  mount_view (set_store d h s') k = mount_view d k.
Proof.
  intros Hwf Hs Hsame. unfold mount_view. change (lookup (set_store d h s') k) with (lookup d k).
  destruct (lookup d k) as [[[h'|] p] rest] eqn:Hl; [|done]. simpl.
  destruct (decide (h' = h)) as [->|Hne].
  - rewrite list_lookup_insert_eq by by eapply lookup_lt_Some. rewrite Hs. simpl.
    apply Hsame. by apply (lookup_wf _ _ _ _ _ Hwf) in Hl as (_ & ? & _).
  - by rewrite list_lookup_insert_ne by done.
Qed.

Lemma mount_view_put d h p s s' k rest o k' :
  mount_wf d -> separate d -> stores d !! h = Some s -> lookup d k = (Some h, p, rest) ->
  k = Child p rest -> put_view ds_view rest o s s' -> mounted d k' ->
  mount_view (set_store d h s') k' = if decide (k' = k) then o else mount_view d k'.
Proof.
  intros Hwf Hsep Hs Hl Hk Hput (h' & p' & rest' & Hl' & Hk'). unfold mount_view.
  change (lookup (set_store d h s') k') with (lookup d k'). rewrite Hl'. simpl.
  destruct (lookup_wf _ _ _ _ _ Hwf Hl') as (_ & Hr' & _).
  destruct (decide (h' = h)) as [->|Hne].
  - rewrite list_lookup_insert_eq by by eapply lookup_lt_Some. rewrite Hs. simpl.
    rewrite (Hput _ Hr'). destruct (decide (rest' = rest)) as [->|Hrne].
    + by rewrite decide_True by by eapply mounted_inj.
    + rewrite decide_False; [done|]. intros Heq. apply Hrne. rewrite Heq in Hl'. congruence.
  - rewrite list_lookup_insert_ne by done. rewrite decide_False; [done|].
    intros Heq. apply Hne. rewrite Heq in Hl'. congruence.
Qed.

(** What an operation does to a mounted key is what its store does to the rest
    of it. *)
Definition with_key (o : op) (k : Key) : op :=
  match o with OPut _ v => OPut k v | OGet _ => OGet k | OHas _ => OHas k | ODelete _ => ODelete k end.

Lemma run_op_routed d o h p rest s :
  lookup d (op_key o) = (Some h, p, rest) -> stores d !! h = Some s ->
  run_op o d = ((run_op (with_key o rest) s).1, set_store d h (run_op (with_key o rest) s).2).
Proof.
  intros Hl Hs. destruct o as [k v|k|k|k]; cbn [op_key] in Hl;
    cbn [run_op with_key mount_Datastore ds_Put ds_Get ds_Has ds_Delete];
    unfold Put, Get, Has, Delete, on_store, out; rewrite Hl, Hs;
    (match goal with |- context [?c s] => by destruct (c s) end).
Qed.

(** The answer of a store that holds [v] at the key of the operation, and what
    it holds there afterwards. *)
Definition answer (o : op) (v : option value) : outcome :=
  match o with
  | OPut _ _ => RUnit (Ok tt)
  | OGet _ => RValue (found v)
  | OHas _ => RBool (Ok (present v))
  | ODelete _ => RUnit (deleted v)
  end.
Definition left_by (o : op) (v : option value) : option value :=
  match o with OPut _ v => Some v | ODelete _ => None | _ => v end.

Lemma run_op_mounted d o :
  mount_wf d -> separate d -> mounted d (op_key o) ->
  exists d', run_op o d = (answer o (mount_view d (op_key o)), d')
    /\ mount_wf d' /\ mounts d' = mounts d
    /\ forall k, mounted d k ->
         mount_view d' k = if decide (k = op_key o) then left_by o (mount_view d k) else mount_view d k.
Proof.
  intros Hwf Hsep (h & p & rest & Hl & Hk).
  destruct (lookup_wf _ _ _ _ _ Hwf Hl) as (Hp & Hr & s & Hs & Hss).
  rewrite (run_op_routed d o h p rest s Hl Hs).
  destruct (run_op_spec (with_key o rest) s Hss ltac:(by destruct o)) as (s' & Hrun & Hwf' & Hv).
  rewrite Hrun. exists (set_store d h s'). simpl fst. simpl snd. split_and!; [|by apply set_store_wf|done|].
  - assert (mount_view d (op_key o) = ds_view s rest) as -> by (unfold mount_view; by rewrite Hl, Hs).
    by destruct o.
  - intros k Hm.
    assert (Hread : same_view ds_view s s' -> left_by o (mount_view d k) = mount_view d k ->
      mount_view (set_store d h s') k
      = if decide (k = op_key o) then left_by o (mount_view d k) else mount_view d k).
    { intros Hsame ->. rewrite (mount_view_same d h s s') by done. by case_decide. }
    destruct o as [k0 v|k0|k0|k0]; [|by apply Hread..|];
      by eapply mount_view_put.
Qed.

End Spec.

(** Two stores mounted at [/blocks] and [/local], used by the witnesses. *)
Definition two_mounts : Mount.datastore MapDatastore.MapDatastore :=
  Mount.New [Mount.mkMount (NewKey (str "/blocks")) (Some 0);
             Mount.mkMount (NewKey (str "/local")) (Some 1)]
    [MapDatastore.NewMapDatastore; MapDatastore.NewMapDatastore].

Lemma two_mounts_wf `{!GoRange Key} : mount_wf two_mounts.
Proof.
  split.
  - repeat constructor; apply MapDatastore.New_wf.
  - repeat constructor; try apply NewKey_clean; intros h [= <-]; by eexists.
Qed.

Lemma two_mounts_separate : separate two_mounts.
Proof. decide_compute. Qed.

Lemma mounted_at {S} `{Datastore S} (d : Mount.datastore S) k h p rest :
  Mount.lookup d k = (Some h, p, rest) -> k = Child p rest -> mounted d k.
Proof. intros H1 H2. by exists h, p, rest. Qed.


(** ** Keys without a mount *)
Section Errors.
Context {S : Type} `{Datastore S}.

Lemma lookup_none (ms : list Mount.Mount) k :
  (forall m, m ∈ ms -> HasPrefix (key_string k) (key_string (Mount.Prefix m)) = false) ->
  Mount.lookup_ ms k = (None, NewKey [slash], k).
Proof.
  induction ms as [|m ms IH]; intros Hms; [done|]. simpl.
  pose proof (Hms m ltac:(by left)) as Hm.
  assert (DsKey.Equal (Mount.Prefix m) k || IsAncestorOf (Mount.Prefix m) k = false) as ->.
  { apply orb_false_intro; apply not_true_is_false.
    - intros Heq%bool_decide_eq_true. rewrite Heq in Hm.
      rewrite (proj2 (HasPrefix_spec _ _)) in Hm; [done|]. exists []. by rewrite app_nil_r.
    - intros (t & _ & Ht)%IsAncestorOf_iff. rewrite Ht in Hm.
      rewrite (proj2 (HasPrefix_spec _ _)) in Hm; [done|]. by exists t. }
  apply IH. intros m' Hm'. apply Hms. by right.
Qed.

(** A key that starts with no mounted prefix: [Put] returns [ErrNoMount],
    [Get] and [Delete] return [ErrNotFound], [Has] answers no, a [Query] for it is
    refused, and no mounted store is touched; a query that filters, orders, skips
    or limits is refused for every key. *)
Theorem Mount_no_mount (d : Mount.datastore S) k v q :
  (forall m, m ∈ Mount.mounts d -> HasPrefix (key_string k) (key_string (Mount.Prefix m)) = false) ->
  ds_Put k v d = (Err ErrNoMount, d)
  /\ ds_Get k d = (Err DsErrNotFound, d)
  /\ ds_Has k d = (Ok false, d)
  /\ ds_Delete k d = (Err DsErrNotFound, d)
  /\ (NewKey (q_Prefix q) = k -> exists msg, ds_Query q d = (Err (errors_New msg), d))
  /\ forall q', (q_Filters q' <> [] \/ q_Orders q' <> [] \/ (0 < q_Limit q')%Z \/ (0 < q_Offset q')%Z) ->
       exists msg, ds_Query q' d = (Err (errors_New msg), d).
Proof.
  intros Hk. apply lookup_none in Hk.
  cbn [Mount.mount_Datastore ds_Put ds_Get ds_Has ds_Delete ds_Query].
  unfold Mount.Put, Mount.Get, Mount.Has, Mount.Delete, Mount.Query_, Mount.lookup. rewrite Hk.
  split_and!; [done..| |].
  - intros ->. rewrite Hk. case_match; by eexists.
  - intros q' Hq'. assert ((0 <? length (q_Filters q')) || (0 <? length (q_Orders q'))
      || (0 <? q_Limit q')%Z || (0 <? q_Offset q')%Z = true) as ->; [|by eexists].
    rewrite !orb_true_iff, !Nat.ltb_lt, !Z.ltb_lt.
    assert (Hlen : forall A (l : list A), l <> [] -> 0 < length l)
      by (intros A [|? ?]; [done|simpl; lia]).
    destruct Hq' as [?|[?|[?|?]]]; auto.
Qed.
End Errors.

Lemma Mount_no_mount_witness :
  let R := elements_range Key in
  let k := NewKey (str "/quux") in
  ds_Put k VNil two_mounts = (Err ErrNoMount, two_mounts)
  /\ ds_Get k two_mounts = (Err DsErrNotFound, two_mounts).
Proof.
  intros R k. destruct (@Mount_no_mount _ (@MapDatastore.map_Datastore R) two_mounts k VNil
    (prefix_query (str "/quux") true)) as (H1 & H2 & _); [|by split].
  intros m. cbn [two_mounts Mount.New Mount.mounts]. rewrite !elem_of_cons, elem_of_nil.
  intros [->|[->|[]]]; by vm_compute.
Defined.

(** ** Collisions

    The test that a key is under a prefix compares strings: a key whose string
    starts with the prefix is served by the mount although none of the mount's
    keys, and it is given the name of one. A value put at [/blocksize/x] is then
    read back at [/blocks/ize/x]. *)
Theorem Mount_sibling_collision `{!GoRange Key} v :
  let other := NewKey (str "/blocksize/x") in
  let inside := NewKey (str "/blocks/ize/x") in
  ~ mounted two_mounts other /\ mounted two_mounts inside
  /\ (ds_Put other v two_mounts).1 = Ok tt
  /\ (ds_Get inside (ds_Put other v two_mounts).2).1 = Ok v.
Proof.
  intros other inside. split_and!; [|eapply mounted_at; vm_compute; reflexivity
    |vm_compute; reflexivity..].
  intros (h & p & rest & Hl & Hk). vm_compute in Hl. injection Hl as <- <- <-.
  vm_compute in Hk. done.
Qed.

(** ** Listing *)

(** The keys under [p], with what the store mounted there holds. *)
Definition under_view (p : Key) (view : Key -> option value) (key : Key) : option value :=
  let k := NewKey (TrimPrefix (key_string key) (key_string p)) in
  if decide (key = Child p k) then view k else None.

Lemma under_view_Child p view k :
  clean p -> clean k -> under_view p view (Child p k) = view k.
Proof. intros Hp Hk. unfold under_view. by rewrite trim_Child, decide_True. Qed.

(** What [Query] makes of an entry of the mounted store. *)
Definition mount_entry (p : Key) (e : Entry) : Entry :=
  mkEntry (key_string (Child p (NewKey (e_Key e)))) (e_Value e).

Lemma invert_mount_pair p es :
  Keytransform.invert_results (Mount.mount_pair p) (map entry_result es)
  = Ok (map entry_result (map (mount_entry p) es)).
Proof.
  induction es as [|e es IH]; [done|]. cbn [map Keytransform.invert_results]. by rewrite IH.
Qed.

Lemma mount_entries_list p k view keysOnly es :
  clean p -> clean k ->
  lists_view view (key_string k) keysOnly es ->
  lists_view (under_view p view) (key_string (Child p k)) keysOnly (map (mount_entry p) es).
Proof.
  intros Hp Hk (Hnd & Hsnd & Hcmp).
  assert (Hent : forall e, e ∈ es -> exists k' v, clean k' /\ e_Key e = key_string k'
    /\ mount_entry p e = mkEntry (key_string (Child p k')) (e_Value e) /\ view k' = Some v
    /\ HasPrefix (key_string k') (key_string k) = true /\ (keysOnly = false -> e_Value e = v)).
  { intros e (k' & v & Hk' & He & Hv & Hpre & Hval)%Hsnd. exists k', v.
    unfold mount_entry. by rewrite He, Hk'. }
  split_and!.
  - rewrite map_map.
    rewrite (map_ext _ (fun e => key_string (Child p (NewKey (e_Key e))))) by done.
    rewrite <- (map_map e_Key (fun s => key_string (Child p (NewKey s)))).
    apply NoDup_fmap_2_strong; [|done].
    intros s1 s2 (e1 & -> & H1)%list_elem_of_fmap (e2 & -> & H2)%list_elem_of_fmap.
    destruct (Hent e1 H1) as (k1 & _ & Hk1 & -> & _), (Hent e2 H2) as (k2 & _ & Hk2 & -> & _).
    rewrite Hk1, Hk2. intros Heq%MapDatastore.key_string_inj%Child_inj; [by subst|done..].
  - intros e' (e & -> & He)%list_elem_of_fmap.
    destruct (Hent e He) as (k' & v & Hk' & _ & -> & Hv & Hpre & Hval).
    exists (Child p k'), v. rewrite under_view_Child, HasPrefix_Child_iff by done.
    split_and!; [by apply Child_clean|done..].
  - intros key v Hkey. unfold under_view. set (k' := NewKey _). case_decide as Hin; [|done].
    assert (clean k') as Hk' by apply NewKey_clean. rewrite Hin, HasPrefix_Child_iff by done.
    intros Hv Hpre. destruct (list_elem_of_fmap_1 _ _ _ (Hcmp k' v Hk' Hv Hpre)) as (e & He & Hine).
    apply list_elem_of_fmap. exists (mount_entry p e). split; [|by apply list_elem_of_fmap_2].
    cbn [mount_entry e_Key]. by rewrite <- He, Hk'.
Qed.

(** [Query] of a prefix that belongs to a mount lists the keys of the mounted
    store, each once, under its full name and with its value: exactly those keys
    under the mount whose full name starts with the prefix. What it lists is what
    [Get] returns for every key that the mount serves. *)
Theorem Mount_Query_lists {S} `{QuerySpec S} (d : Mount.datastore S) prefix keysOnly h p k s :
  mount_wf d -> Mount.lookup d (NewKey prefix) = (Some h, p, k) -> NewKey prefix = Child p k ->
  Mount.stores d !! h = Some s ->
  let view := under_view p (ds_view s) in
  exists es d', Mount.Query_ (prefix_query prefix keysOnly) d = (Ok (map entry_result es), d')
    /\ mount_wf d' /\ same_view mount_view d d'
    /\ lists_view view (key_string (NewKey prefix)) keysOnly es
    /\ forall key rest, Mount.lookup d key = (Some h, p, rest) -> key = Child p rest ->
         mount_view d key = view key.
Proof.
  intros Hwf Hl Hk Hs view. destruct (lookup_wf _ _ _ _ _ Hwf Hl) as (Hp & Hck & s0 & Hs0 & Hss).
  assert (s0 = s) as -> by congruence.
  destruct (ds_Query_spec s (key_string k) keysOnly Hss) as (es & s' & Hq & Hwf' & Hsame & Hls).
  exists (map (mount_entry p) es), (set_store d h s'). split_and!.
  - unfold Mount.Query_. cbn [prefix_query q_Prefix q_Filters q_Orders q_Limit q_Offset q_KeysOnly].
    cbn [length Nat.ltb Nat.leb Z.ltb Z.compare orb]. rewrite Hl. unfold Mount.on_store. rewrite Hs.
    unfold Keytransform.Wrap, Keytransform.Query_, on_child. cbn [Keytransform.child].
    change (mkQuery (String_ k) [] [] 0 0 keysOnly) with (prefix_query (key_string k) keysOnly).
    rewrite Hq. cbn [Keytransform.KeyTransform mbind res_bind fst snd].
    by rewrite invert_mount_pair.
  - by apply set_store_wf.
  - intros key _. by apply (mount_view_same d h s s').
  - rewrite Hk. by apply mount_entries_list.
  - intros key rest Hlk ->. destruct (lookup_wf _ _ _ _ _ Hwf Hlk) as (_ & Hr & _).
    unfold view, mount_view. rewrite under_view_Child by done. by rewrite Hlk, Hs.
Qed.

Lemma Mount_Query_lists_witness :
  let R := elements_range Key in
  let d := (ds_Put (NewKey (str "/local/a")) VNil two_mounts).2 in
  exists es d', Mount.Query_ (prefix_query (str "/local") true) d = (Ok (map entry_result es), d').
Proof.
  intros R d.
  destruct (@Mount_Query_lists _ _ _ (@MapDatastore.map_QuerySpec R) d (str "/local") true 1
    (NewKey (str "/local")) (NewKey []) (MapDatastore.mkMap {[NewKey (str "/a") := VNil]}))
    as (es & d' & Hq & _).
  - split.
    + apply Forall_cons. split; [apply MapDatastore.New_wf|]. apply Forall_singleton.
      intros k [v Hv]. simpl in Hv. apply lookup_insert_Some in Hv as [[<- _]|[_ Hv]];
        [apply NewKey_clean|by rewrite lookup_empty in Hv].
    + repeat constructor; try apply NewKey_clean; intros h [= <-]; by eexists.
  - vm_compute. reflexivity.
  - vm_compute. reflexivity.
  - vm_compute. reflexivity.
  - by exists es, d'.
Defined.
