(* ===== verification/Tiered.v ===== *)
(** * Tiered stores

    Models [Godeps/.../jbenet/go-datastore/tiered/tiered.go]: a list of stores,
    written in parallel and read one after the other. *)

From S2P Require Import Prelude DsKey Query Datastore.

(** The goroutines that a call starts finish in an order that the language
    leaves open: some permutation of the indices of the tiers. *)
Class GoSched := {
  go_sched : nat -> list nat;
  go_sched_perm n : go_sched n ≡ₚ seq 0 n;
}.

(** An order to evaluate examples with: the last goroutine finishes first. *)
Definition reverse_sched : GoSched :=
  {| go_sched n := rev (seq 0 n); go_sched_perm n := symmetry (Permutation_rev (seq 0 n)) |}.

Module Tiered.
Section Tiered.
Context {S : Type} `{Datastore S}.

(** [type tiered []ds.Datastore], the stores being different ones. *)
Record tiered := New { tiers : list S }.

(** The goroutines of [Put] and [Delete], in the order in which they finish, and
    the channel [errs]: the errors in the same order. A goroutine that panics
    ends the program. *)
Fixpoint each (call : S -> res unit * S) (order : list nat) (d : list S) : res (list error) * list S :=
  match order with
  | [] => (Ok [], d)
  | i :: order =>
      match d !! i with
      | None => each call order d
      | Some cd =>
          let '(r, cd) := call cd in
          let d := <[i := cd]> d in
          match r with
          | Panic => (Panic, d)
          | Ok _ => each call order d
          | Err err => let '(errs, d) := each call order d in (cons err <$> errs, d)
          end
      end
  end.

(** The first error received, if there is one. *)
Definition first_error (p : res (list error) * list S) : res unit * tiered :=
  (errs ← p.1; match errs with err :: _ => Err err | [] => Ok tt end, New p.2).

Definition Put_order (order : list nat) (key : Key) (v : value) (d : tiered) : res unit * tiered :=
  first_error (each (ds_Put key v) order (tiers d)).
Definition Delete_order (order : list nat) (key : Key) (d : tiered) : res unit * tiered :=
  first_error (each (ds_Delete key) order (tiers d)).

Definition no_datastores : error := errors_New "no datastores".

(** The loops of [Get] and [Has]: the result of the last call made, and the
    stores. *)
Fixpoint try_each {A} (call : S -> res A * S) (stop : A -> bool) (last : res A) (ts : list S)
    : res A * list S :=
  match ts with
  | [] => (last, [])
  | cd :: ts =>
      let '(r, cd) := call cd in
      let go_on := let '(r, ts) := try_each call stop r ts in (r, cd :: ts) in
      match r with
      | Ok a => if stop a then (r, cd :: ts) else go_on
      | Err _ => go_on
      | Panic => (r, cd :: ts)
      end
  end.
Definition of_list {A} (p : res A * list S) : res A * tiered := (p.1, New p.2).

Definition Get (key : Key) (d : tiered) : res value * tiered :=
  of_list (try_each (ds_Get key) (fun _ => true) (Err no_datastores) (tiers d)).
Definition Has (key : Key) (d : tiered) : res bool * tiered :=
  of_list (try_each (ds_Has key) (fun ex => ex) (Err no_datastores) (tiers d)).

(** [d[len(d)-1]] panics when there are no tiers. *)
Definition Query_ (q : Query) (d : tiered) : res Results * tiered :=
  let i := length (tiers d) - 1 in
  match tiers d !! i with
  | None => (Panic, d)
  | Some cd => let '(r, cd) := ds_Query q cd in (r, New (<[i := cd]> (tiers d)))
  end.

Context `{!GoSched}.
Definition Put (key : Key) (v : value) (d : tiered) : res unit * tiered :=
  Put_order (go_sched (length (tiers d))) key v d.
Definition Delete (key : Key) (d : tiered) : res unit * tiered :=
  Delete_order (go_sched (length (tiers d))) key d.

#[global] Instance tiered_Datastore : Datastore tiered := {|
  ds_Put := Put; ds_Get := Get; ds_Has := Has; ds_Delete := Delete; ds_Query := Query_ |}.
End Tiered.
Arguments tiered : clear implicits.
End Tiered.
Import Tiered.

(** ** Writing to every tier *)
Section Writes.
Context {S : Type} (call : S -> res unit * S).

(** What a store reports when it is called. *)
Definition err_of (d : list S) (i : nat) : list error :=
  match d !! i with
  | Some s => match (call s).1 with Err e => [e] | _ => [] end
  | None => []
  end.

(** Whatever the order in which the goroutines finish, each store is called
    once, and the channel holds the errors they report. *)
Lemma each_spec order d :
  NoDup order -> (forall i s, i ∈ order -> d !! i = Some s -> (call s).1 <> Panic) ->
  exists d', each call order d = (Ok (concat (map (err_of d) order)), d')
    /\ forall j, d' !! j = if decide (j ∈ order) then snd ∘ call <$> d !! j else d !! j.
Proof.
  intros Hnd. revert d. induction Hnd as [|i order Hi Hnd IH]; intros d Hok.
  { exists d. split; [done|]. intros j. case_decide as Hj; [by apply elem_of_nil in Hj|done]. }
  cbn [each map concat]. unfold err_of at 1. destruct (d !! i) as [s|] eqn:Hs.
  - destruct (call s) as [r s'] eqn:Hc.
    assert (Hsame : forall j, j ∈ order -> <[i := s']> d !! j = d !! j)
      by (intros j Hj; apply list_lookup_insert_ne; by intros ->).
    destruct (IH (<[i := s']> d)) as (d' & He & Hd').
    { intros j t Hj. rewrite Hsame by done. apply Hok. by right. }
    assert (map (err_of (<[i := s']> d)) order = map (err_of d) order) as Herr.
    { apply map_ext_in. intros j Hj%list_elem_of_In. unfold err_of. by rewrite Hsame. }
    rewrite Herr in He.
    assert (Hfin : forall j, d' !! j
      = if decide (j ∈ i :: order) then snd ∘ call <$> d !! j else d !! j).
    { intros j. rewrite Hd'. destruct (decide (j = i)) as [->|Hj].
      - rewrite decide_False, decide_True by (done || by left).
        rewrite list_lookup_insert_eq by by eapply lookup_lt_Some.
        rewrite Hs. simpl. by rewrite Hc.
      - rewrite list_lookup_insert_ne by done.
        destruct (decide (j ∈ order)); [rewrite decide_True by by right|rewrite decide_False]; try done.
        by rewrite elem_of_cons; intros [?|?]. }
    pose proof (Hok i s ltac:(by left) Hs) as Hp. rewrite Hc in Hp. simpl fst.
    destruct r as [u|e|]; [| |done]; rewrite He; by exists d'.
  - destruct (IH d) as (d' & He & Hd'); [intros j t Hj; apply Hok; by right|].
    exists d'. split; [done|]. intros j. rewrite Hd'.
    destruct (decide (j = i)) as [->|Hj].
    + rewrite decide_False, decide_True by (done || by left). by rewrite Hs.
    + destruct (decide (j ∈ order)); [rewrite decide_True by by right|rewrite decide_False]; try done.
      by rewrite elem_of_cons; intros [?|?].
Qed.

(** Every store has been called when the call returns. *)
Lemma each_all order d :
  order ≡ₚ seq 0 (length d) -> (forall s, s ∈ d -> (call s).1 <> Panic) ->
  each call order d = (Ok (concat (map (err_of d) order)), map (snd ∘ call) d).
Proof.
  intros Ho Hok. destruct (each_spec order d) as (d' & -> & Hd').
  - rewrite Ho. apply NoDup_seq.
  - intros i s _ Hs. by eapply Hok, list_elem_of_lookup_2.
  - f_equal. apply list_eq. intros j. change (map (snd ∘ call) d) with (snd ∘ call <$> d).
    rewrite list_lookup_fmap, Hd'. case_decide as Hj; [done|].
    destruct (d !! j) as [s|] eqn:Hs; [|done]. exfalso. apply Hj. rewrite Ho.
    apply elem_of_seq. apply lookup_lt_Some in Hs. lia.
Qed.

Lemma errs_none order d :
  (forall s, s ∈ d -> exists u, (call s).1 = Ok u) -> concat (map (err_of d) order) = [].
Proof.
  intros Hok. induction order as [|i order IH]; [done|]. cbn [map concat]. rewrite IH, app_nil_r.
  unfold err_of. destruct (d !! i) as [s|] eqn:Hs; [|done].
  destruct (Hok s) as [u ->]; [by eapply list_elem_of_lookup_2|done].
Qed.

Lemma errs_all order d e :
  order ≡ₚ seq 0 (length d) ->
  e ∈ concat (map (err_of d) order) <-> exists s, s ∈ d /\ (call s).1 = Err e.
Proof.
  intros Ho. rewrite list_elem_of_In, in_concat. split.
  - intros (l & Hl%list_elem_of_In & He). apply list_elem_of_fmap in Hl as (i & -> & Hi).
    unfold err_of in He. destruct (d !! i) as [s|] eqn:Hs; [|done].
    exists s. split; [by eapply list_elem_of_lookup_2|]. destruct (call s).1; simpl in He; naive_solver.
  - intros (s & [i Hs]%list_elem_of_lookup_1 & He). exists (err_of d i). split.
    + apply list_elem_of_In, list_elem_of_fmap. exists i. split; [done|]. rewrite Ho.
      apply elem_of_seq. apply lookup_lt_Some in Hs. lia.
    + unfold err_of. rewrite Hs, He. by left.
Qed.
End Writes.

(** ** Tiers that are correct stores *)
Section Spec.
Context {S : Type} `{DatastoreSpec S}.
Implicit Types (d : tiered S) (ts : list S).

(** What each tier becomes. *)
Abbreviation tierwise P := (Forall2 (fun s s' => ds_wf s' /\ P s s')).

Lemma tierwise_map (P : S -> S -> Prop) (f : S -> S) ts :
  Forall ds_wf ts -> (forall s, ds_wf s -> ds_wf (f s) /\ P s (f s)) -> tierwise P ts (map f ts).
Proof. intros Hts HP. induction Hts; simpl; constructor; auto. Qed.

Lemma put_through order d k v :
  Forall ds_wf (tiers d) -> clean k -> order ≡ₚ seq 0 (length (tiers d)) ->
  exists d', Put_order order k v d = (Ok tt, d')
    /\ tierwise (put_view ds_view k (Some v)) (tiers d) (tiers d').
Proof.
  intros Hwf Hk Ho. assert (Hin : forall s, s ∈ tiers d -> ds_wf s) by by apply Forall_forall.
  assert (Hput : forall s, ds_wf s -> exists s', ds_Put k v s = (Ok tt, s') /\ ds_wf s'
    /\ put_view ds_view k (Some v) s s') by by (intros; apply ds_Put_spec).
  unfold Put_order, first_error.
  rewrite each_all by (done || intros s Hs%Hin; by destruct (Hput s Hs) as (? & -> & _)).
  rewrite errs_none by (intros s Hs%Hin; destruct (Hput s Hs) as (? & -> & _); by eexists).
  eexists. split; [done|]. apply tierwise_map; [done|]. intros s Hs. simpl.
  by destruct (Hput s Hs) as (? & -> & ? & ?).
Qed.

Lemma delete_through order d k :
  Forall ds_wf (tiers d) -> clean k -> order ≡ₚ seq 0 (length (tiers d)) ->
  exists d', Delete_order order k d
      = (if forallb (fun s => present (ds_view s k)) (tiers d) then Ok tt else Err DsErrNotFound, d')
    /\ tierwise (put_view ds_view k None) (tiers d) (tiers d').
Proof.
  intros Hwf Hk Ho. assert (Hin : forall s, s ∈ tiers d -> ds_wf s) by by apply Forall_forall.
  assert (Hdel : forall s, ds_wf s -> exists s', ds_Delete k s = (deleted (ds_view s k), s') /\ ds_wf s'
    /\ put_view ds_view k None s s') by by (intros; apply ds_Delete_spec).
  assert (Hres : forall s, s ∈ tiers d -> (ds_Delete k s).1 = deleted (ds_view s k))
    by (intros s Hs%Hin; by destruct (Hdel s Hs) as (? & -> & _)).
  unfold Delete_order, first_error.
  rewrite each_all by (done || intros s Hs; rewrite Hres by done; by destruct (ds_view s k)).
  eexists. split.
  - f_equal. cbn [fst mbind res_bind].
    pose proof (errs_all (ds_Delete k) order (tiers d)) as He. destruct (forallb _ _) eqn:Hall.
    + rewrite forallb_forall in Hall.
      rewrite errs_none; [done|]. intros s Hs. rewrite Hres by done.
      specialize (Hall s ltac:(by apply list_elem_of_In)). destruct (ds_view s k); [by eexists|done].
    + destruct (concat _) as [|e es] eqn:Hc.
      * exfalso. apply not_true_iff_false in Hall. apply Hall, forallb_forall.
        intros s Hs%list_elem_of_In. destruct (ds_view s k) eqn:Hv; [done|]. exfalso.
        apply (not_elem_of_nil DsErrNotFound), He; [done|]. exists s. by rewrite Hres, Hv.
      * destruct (proj1 (He e Ho)) as (s & Hs & Hse); [by left|]. rewrite Hres in Hse by done.
        by destruct (ds_view s k); simplify_eq/=.
  - apply tierwise_map; [done|]. intros s Hs. simpl. by destruct (Hdel s Hs) as (? & -> & ? & ?).
Qed.

(** Writing goes through to every tier. In whatever order the goroutines
    finish, [Put] succeeds and leaves the value in all the tiers, and [Delete]
    removes the key from all of them; [Delete] reports [ErrNotFound] as soon as
    one tier does not hold the key, although the others do. Nothing else in any
    tier changes. *)
Theorem tiered_write_through order d k v :
  Forall ds_wf (tiers d) -> clean k -> order ≡ₚ seq 0 (length (tiers d)) ->
  (exists d', Put_order order k v d = (Ok tt, d')
     /\ tierwise (put_view ds_view k (Some v)) (tiers d) (tiers d'))
  /\ (exists d', Delete_order order k d
        = (if forallb (fun s => present (ds_view s k)) (tiers d) then Ok tt else Err DsErrNotFound, d')
     /\ tierwise (put_view ds_view k None) (tiers d) (tiers d')).
Proof. intros Hwf Hk Ho. split; [by apply put_through|by apply delete_through]. Qed.

(** The first tier that holds the key answers. *)
Definition first_view ts (k : Key) : option value := head (omap (fun s => ds_view s k) ts).

Lemma try_Get ts k last :
  Forall ds_wf ts -> clean k ->
  exists ts', try_each (ds_Get k) (fun _ => true) last ts
      = (match first_view ts k with
         | Some v => Ok v
         | None => match ts with [] => last | _ => Err DsErrNotFound end
         end, ts')
    /\ tierwise (same_view ds_view) ts ts'.
Proof.
  intros Hwf Hk. revert last. induction Hwf as [|s ts Hs Hts IH]; intros last; [by exists []|].
  unfold first_view. cbn [try_each]. rewrite omap_cons.
  destruct (ds_Get_spec s k Hs Hk) as (s' & -> & Hs' & Hsame).
  destruct (ds_view s k) as [v|] eqn:Hv; simpl.
  - exists (s' :: ts). split; [done|]. constructor; [done|].
    clear IH. induction Hts; constructor; auto. by split.
  - destruct (IH (Err DsErrNotFound)) as (ts' & -> & Hts'). exists (s' :: ts').
    split; [|by constructor]. fold (first_view ts k).
    destruct (first_view ts k); [done|]. by destruct ts.
Qed.

Lemma try_Has ts k last :
  Forall ds_wf ts -> clean k ->
  exists ts', try_each (ds_Has k) (fun ex => ex) last ts
      = (match ts with [] => last | _ => Ok (present (first_view ts k)) end, ts')
    /\ tierwise (same_view ds_view) ts ts'.
Proof.
  intros Hwf Hk. revert last. induction Hwf as [|s ts Hs Hts IH]; intros last; [by exists []|].
  unfold first_view. cbn [try_each]. rewrite omap_cons.
  destruct (ds_Has_spec s k Hs Hk) as (s' & -> & Hs' & Hsame).
  destruct (ds_view s k) as [v|] eqn:Hv; simpl.
  - exists (s' :: ts). split; [done|]. constructor; [done|].
    clear IH. induction Hts; constructor; auto. by split.
  - destruct (IH (Ok false)) as (ts' & -> & Hts'). exists (s' :: ts').
    split; [|by constructor]. fold (first_view ts k). by destruct ts.
Qed.

(** Reading asks the tiers in turn: [Get] and [Has] answer from the first
    tier that holds the key, [Get] with [ErrNotFound] and [Has] with no when none
    does; no tier changes. Without tiers, reading and testing fail, writing and
    deleting succeed with nothing done, and [Query] panics. *)
Theorem tiered_reads `{!GoSched} d k :
  Forall ds_wf (tiers d) -> clean k ->
  (tiers d <> [] ->
     (exists d', Get k d = (found (first_view (tiers d) k), d')
        /\ tierwise (same_view ds_view) (tiers d) (tiers d'))
     /\ (exists d', Has k d = (Ok (present (first_view (tiers d) k)), d')
        /\ tierwise (same_view ds_view) (tiers d) (tiers d')))
  /\ (tiers d = [] -> forall v q,
       (Get k d).1 = Err no_datastores /\ (Has k d).1 = Err no_datastores
       /\ Put k v d = (Ok tt, d) /\ Delete k d = (Ok tt, d) /\ (Query_ q d).1 = Panic).
Proof.
  intros Hwf Hk. split.
  - intros Hne. unfold Get, Has.
    destruct (try_Get (tiers d) k (Err no_datastores) Hwf Hk) as (ts1 & -> & Hts1).
    destruct (try_Has (tiers d) k (Err no_datastores) Hwf Hk) as (ts2 & -> & Hts2).
    destruct (tiers d) as [|s ts]; [done|].
    split; [exists (New ts1)|exists (New ts2)]; (split; [|done]); [|done]. unfold of_list, found.
    cbn [fst snd]. by destruct (first_view (s :: ts) k).
  - destruct d as [ts]. simpl. intros -> v q. unfold Put, Delete.
    assert (go_sched 0 = []) as Hs.
    { pose proof (Permutation_length (go_sched_perm 0)) as Hl. by destruct (go_sched 0). }
    cbn [tiers length]. by rewrite Hs.
Qed.

(** ** Tiers that agree *)

(** There is a tier, every tier is well formed, and all hold the same values;
    the view is the last one's, the tier that [Query] reads. *)
Definition tiered_view d (k : Key) : option value := s ← last (tiers d); ds_view s k.
Definition tiered_wf d : Prop :=
  tiers d <> [] /\ Forall ds_wf (tiers d)
  /\ forall s k, s ∈ tiers d -> clean k -> ds_view s k = tiered_view d k.

Lemma tierwise_wf (f : Key -> option value -> option value) d d' :
  tiered_wf d ->
  tierwise (fun s s' => forall k, clean k -> ds_view s' k = f k (ds_view s k)) (tiers d) (tiers d') ->
  tiered_wf d' /\ forall k, clean k -> tiered_view d' k = f k (tiered_view d k).
Proof.
  intros (Hne & Hwf & Hag) HF.
  assert (Hall : forall s' k, s' ∈ tiers d' -> clean k -> ds_view s' k = f k (tiered_view d k)).
  { intros s' k [i Hi]%list_elem_of_lookup_1 Hk.
    destruct (Forall2_lookup_r _ _ _ _ _ HF Hi) as (s & Hs & _ & Hv).
    rewrite Hv by done. f_equal. apply Hag; [by eapply list_elem_of_lookup_2|done]. }
  assert (Hne' : tiers d' <> []).
  { intros Hnil. rewrite Hnil in HF. by apply Forall2_nil_inv_r in HF. }
  assert (Hlast : forall k, clean k -> tiered_view d' k = f k (tiered_view d k)).
  { intros k Hk. unfold tiered_view at 1. destruct (last (tiers d')) as [s'|] eqn:Hl.
    - simpl. apply Hall; [|done]. by apply last_Some_elem_of.
    - by apply last_None in Hl. }
  split; [split_and!; [done| |]|done].
  - clear -HF. induction HF as [|s s' ts ts' [? _] _ IH]; by constructor.
  - intros s' k Hs' Hk. by rewrite Hall, Hlast.
Qed.

Lemma tiered_first d k : tiered_wf d -> clean k -> first_view (tiers d) k = tiered_view d k.
Proof.
  intros (Hne & _ & Hag) Hk. unfold first_view. destruct (tiers d) as [|s ts]; [done|].
  rewrite omap_cons, <- (Hag s k) by (done || by left).
  destruct (ds_view s k) eqn:Hv; [done|].
  assert (omap (fun s => ds_view s k) ts = []) as ->; [|done].
  assert (Hno : forall s', s' ∈ ts -> ds_view s' k = None).
  { intros s' Hs'. rewrite Hag by (done || by right). by rewrite <- (Hag s k) by (done || by left). }
  clear -Hno. induction ts as [|s' ts IH]; [done|]. rewrite omap_cons, Hno by by left.
  apply IH. intros s'' Hs''. apply Hno. by right.
Qed.

Lemma tiered_present d k :
  tiered_wf d -> clean k ->
  forallb (fun s => present (ds_view s k)) (tiers d) = present (tiered_view d k).
Proof.
  intros (Hne & _ & Hag) Hk. destruct (tiered_view d k) as [v|] eqn:Hv; simpl.
  - apply forallb_forall. intros s Hs%list_elem_of_In. by rewrite Hag, Hv.
  - destruct (tiers d) as [|s ts]; [done|]. simpl. by rewrite Hag by (done || by left); rewrite Hv.
Qed.
End Spec.

(** Tiers in agreement are a correct store, whatever the scheduler does. *)
#[export] Program Instance tiered_DatastoreSpec {S} `{DatastoreSpec S} `{!GoSched} :
  DatastoreSpec (tiered S) := {| ds_wf := tiered_wf; ds_view := tiered_view |}.
Next Obligation.
  intros S HS Hspec Hg d k v Hwf Hk. destruct (put_through (go_sched (length (tiers d))) d k v)
    as (d' & Hd' & HF); [apply Hwf|done|apply go_sched_perm|].
  exists d'. split; [exact Hd'|].
  by apply (tierwise_wf (fun k' o => if decide (k' = k) then Some v else o)).
Qed.
Next Obligation.
  intros S HS Hspec Hg d k Hwf Hk. pose proof (tiered_first d k Hwf Hk) as Hf.
  destruct (try_Get (tiers d) k (Err no_datastores)) as (ts & Hts & HF); [apply Hwf|done|].
  exists (New ts). split; [|by apply (tierwise_wf (fun _ o => o) d (New ts))].
  simpl. unfold Get. rewrite Hts, Hf. unfold of_list. simpl.
  destruct Hwf as (Hne & _). destruct (tiered_view d k); [done|]. by destruct (tiers d).
Qed.
Next Obligation.
  intros S HS Hspec Hg d k Hwf Hk. pose proof (tiered_first d k Hwf Hk) as Hf.
  destruct (try_Has (tiers d) k (Err no_datastores)) as (ts & Hts & HF); [apply Hwf|done|].
  exists (New ts). split; [|by apply (tierwise_wf (fun _ o => o) d (New ts))].
  simpl. unfold Has. rewrite Hts, Hf. unfold of_list. simpl.
  destruct Hwf as (Hne & _). by destruct (tiers d).
Qed.
Next Obligation.
  intros S HS Hspec Hg d k Hwf Hk.
  destruct (delete_through (go_sched (length (tiers d))) d k)
    as (d' & Hd' & HF); [apply Hwf|done|apply go_sched_perm|].
  rewrite tiered_present in Hd' by done. exists d'. split.
  - simpl. unfold Delete. rewrite Hd'. by destruct (tiered_view d k).
  - by apply (tierwise_wf (fun k' o => if decide (k' = k) then None else o)).
Qed.

(** A query of tiers in agreement lists what they hold. *)
#[export] Instance tiered_QuerySpec {S} `{QuerySpec S} `{!GoSched} : QuerySpec (tiered S).
Proof.
  intros d prefix keysOnly Hwf. pose proof Hwf as (Hne & Hts & Hag).
  cbn [ds_Query tiered_Datastore]. unfold Query_.
  assert (exists s, tiers d !! (length (tiers d) - 1) = Some s /\ last (tiers d) = Some s)
    as (s & Hs & Hl).
  { rewrite last_lookup. replace (pred (length (tiers d))) with (length (tiers d) - 1) by lia.
    destruct (lookup_lt_is_Some_2 (tiers d) (length (tiers d) - 1)) as [s Hs]; [|by exists s].
    destruct (tiers d); [done|simpl; lia]. }
  rewrite Hs. assert (Hin : s ∈ tiers d) by by eapply list_elem_of_lookup_2.
  assert (Hss : ds_wf s) by by eapply Forall_lookup_1.
  destruct (ds_Query_spec s prefix keysOnly Hss) as (es & s' & -> & Hs' & Hsame & Hls).
  exists es, (New (<[length (tiers d) - 1 := s']> (tiers d))).
  destruct (tierwise_wf (fun _ o => o) d (New (<[length (tiers d) - 1 := s']> (tiers d))) Hwf)
    as [Hwf' Hv].
  { apply Forall2_same_length_lookup. simpl. rewrite length_insert. split; [done|].
    intros i a b Ha Hb. apply list_lookup_insert_Some in Hb as [(<- & <- & _)|[_ Hb]].
    - assert (a = s) as -> by congruence. done.
    - assert (b = a) as -> by congruence. split; [by eapply Forall_lookup_1|done]. }
  split_and!; [done..|].
  destruct Hls as (Hnd & Hsnd & Hcmp). cbn [ds_view tiered_DatastoreSpec]. unfold tiered_view.
  rewrite Hl. done.
Qed.



Lemma tiered_reads_witness :
  let R := elements_range Key in
  let G := reverse_sched in
  let a := NewKey (str "/a") in
  let d := New [MapDatastore.NewMapDatastore; (ds_Put a VNil MapDatastore.NewMapDatastore).2] in
  exists d', Get a d = (Ok VNil, d').
Proof.
  intros R G a d.
  destruct (@tiered_reads _ _ (@MapDatastore.map_DatastoreSpec R) G d a) as [Hne _].
  - apply Forall_cons. split; [apply MapDatastore.New_wf|]. apply Forall_singleton.
    intros k [v Hv]. simpl in Hv. apply lookup_insert_Some in Hv as [[<- _]|[_ Hv]];
      [apply NewKey_clean|by rewrite lookup_empty in Hv].
  - apply NewKey_clean.
  - destruct (Hne ltac:(done)) as [(d' & Hd' & _) _]. exists d'. exact Hd'.
Defined.

Lemma tiered_write_through_witness :
  let R := elements_range Key in
  let a := NewKey (str "/a") in
  let d := New [MapDatastore.NewMapDatastore; (ds_Put a VNil MapDatastore.NewMapDatastore).2] in
  exists d', Delete_order [1; 0] a d = (Err DsErrNotFound, d').
Proof.
  intros R a d.
  destruct (@tiered_write_through _ _ (@MapDatastore.map_DatastoreSpec R) [1; 0] d a VNil)
    as [_ (d' & Hd' & _)].
  - apply Forall_cons. split; [apply MapDatastore.New_wf|]. apply Forall_singleton.
    intros k [v Hv]. simpl in Hv. apply lookup_insert_Some in Hv as [[<- _]|[_ Hv]];
      [apply NewKey_clean|by rewrite lookup_empty in Hv].
  - apply NewKey_clean.
  - apply perm_swap.
  - exists d'. exact Hd'.
Defined.
