(* ===== verification/Timecache.v ===== *)
(** * Time caches

    Models [Godeps/.../jbenet/go-datastore/timecache/timecache.go]: a store
    whose keys expire. [time.Now()] is an argument of the operations that call it,
    in nanoseconds; [now.After(t)] is [t < now]. *)

From S2P Require Import Prelude DsKey Query Datastore.

Module Timecache.
Section Timecache.
Context {S : Type} `{Datastore S} `{!GoRange Key}.

(** [type datastore struct]; the mutex guards single operations on [ttls]. *)
Record datastore := mkTc { cache : S; ttl : Z; ttls : gmap Key Z }.

Definition WithCache (d : S) (ttl : Z) : datastore := mkTc d ttl ∅.

(** The loop over [ttls]: the expired keys, in the order met. *)
Definition expired (now : Z) (d : datastore) : list Key :=
  (filter (fun kt => (kt.2 < now)%Z) (go_range_map (ttls d))).*1.

(** [d.cache.Delete(k)] for each of them, errors dropped. *)
Fixpoint delete_all (del : list Key) (s : S) : S :=
  match del with [] => s | k :: del => delete_all del (ds_Delete k s).2 end.

Definition gc (now : Z) (d : datastore) : datastore :=
  let del := expired now d in
  mkTc (delete_all del (cache d)) (ttl d)
    (filter (fun kt : Key * Z => ~ (kt.2 < now)%Z) (ttls d)).

Definition ttlPut (now : Z) (key : Key) (d : datastore) : datastore :=
  mkTc (cache d) (ttl d) (<[key := (now + ttl d)%Z]> (ttls d)).
Definition ttlDelete (key : Key) (d : datastore) : datastore :=
  mkTc (cache d) (ttl d) (delete key (ttls d)).

Definition with_cache (d : datastore) (s : S) : datastore := mkTc s (ttl d) (ttls d).

Definition Put (now : Z) (key : Key) (v : value) (d : datastore) : res unit * datastore :=
  let '(err, s) := ds_Put key v (cache d) in
  (err, ttlPut now key (with_cache d s)).
Definition Get (now : Z) (key : Key) (d : datastore) : res value * datastore :=
  let d := gc now d in on_child (with_cache d) (ds_Get key (cache d)).
Definition Has (now : Z) (key : Key) (d : datastore) : res bool * datastore :=
  let d := gc now d in on_child (with_cache d) (ds_Has key (cache d)).
Definition Delete (key : Key) (d : datastore) : res unit * datastore :=
  let d := ttlDelete key d in on_child (with_cache d) (ds_Delete key (cache d)).
Definition Query_ (q : Query) (d : datastore) : res Results * datastore :=
  on_child (with_cache d) (ds_Query q (cache d)).

(** The store as it is at one moment. *)
Definition run_at (now : Z) (o : op) (d : datastore) : outcome * datastore :=
  match o with
  | OPut k v => out RUnit (Put now k v d)
  | OGet k => out RValue (Get now k d)
  | OHas k => out RBool (Has now k d)
  | ODelete k => out RUnit (Delete k d)
  end.

Fixpoint run_timed (l : list (Z * op)) (d : datastore) : list outcome * datastore :=
  match l with
  | [] => ([], d)
  | (now, o) :: l =>
      let '(r, d) := run_at now o d in
      let '(rs, d) := run_timed l d in
      (r :: rs, d)
  end.
End Timecache.
Arguments datastore : clear implicits.
End Timecache.

(** [WithTTL], over a map datastore. *)
Definition WithTTL (ttl : Z) : Timecache.datastore MapDatastore.MapDatastore :=
  Timecache.WithCache MapDatastore.NewMapDatastore ttl.

(** ** Reference: a map whose entries carry the moment they expire *)
Abbreviation expiring := (gmap Key (value * Z)).

Definition live (now : Z) (m : expiring) (k : Key) : option value :=
  match m !! k with
  | Some (v, exp) => if decide (exp < now)%Z then None else Some v
  | None => None
  end.

Definition ref_step (now ttl : Z) (o : op) (m : expiring) : expiring :=
  match o with
  | OPut k v => <[k := (v, (now + ttl)%Z)]> m
  | ODelete k => delete k m
  | _ => m
  end.

(** What an operation may return: deleting an expired key may find it or not,
    since only a read removes the expired keys. *)
Definition ref_answer (now : Z) (o : op) (m : expiring) (r : outcome) : Prop :=
  match o with
  | OPut _ _ => r = RUnit (Ok tt)
  | OGet k => r = RValue (found (live now m k))
  | OHas k => r = RBool (Ok (present (live now m k)))
  | ODelete k =>
      r = RUnit (deleted (live now m k))
      \/ (exists v exp, m !! k = Some (v, exp) /\ (exp < now)%Z) /\ r = RUnit (Ok tt)
  end.

Fixpoint ref_answers (ttl : Z) (l : list (Z * op)) (m : expiring) (rs : list outcome) : Prop :=
  match l, rs with
  | [], [] => True
  | (now, o) :: l, r :: rs => ref_answer now o m r /\ ref_answers ttl l (ref_step now ttl o m) rs
  | _, _ => False
  end.

(** The clock does not go back. *)
Fixpoint monotone (t : Z) (l : list (Z * op)) : Prop :=
  match l with [] => True | (now, _) :: l => (t <= now)%Z /\ monotone now l end.

Section Spec.
Import Timecache.
Context {S : Type} `{DatastoreSpec S} `{!GoRange Key}.
Implicit Types d : Timecache.datastore S.

(** An entry of the reference is in the cache with its moment; once expired it
    may have been removed. *)
Definition holds (now : Z) (e : option (value * Z)) (v : option value) (t : option Z) : Prop :=
  match e with
  | Some (x, exp) =>
      (v = Some x /\ t = Some exp) \/ (v = None /\ t = None /\ (exp < now)%Z)
  | None => v = None /\ t = None
  end.

Definition tracks (now : Z) (m : expiring) d : Prop :=
  ds_wf (cache d)
  /\ (forall k, is_Some (ttls d !! k) -> clean k)
  /\ forall k, clean k -> holds now (m !! k) (ds_view (cache d) k) (ttls d !! k).

Lemma holds_later t now e v x : (t <= now)%Z -> holds t e v x -> holds now e v x.
Proof. destruct e as [[? exp]|]; simpl; [|done]. intros Ht [?|(? & ? & ?)]; [by left|right]; lia || auto with lia. Qed.

Lemma tracks_later t now m d : (t <= now)%Z -> tracks t m d -> tracks now m d.
Proof.
  intros Ht (Hwf & Hc & Hh). split_and!; [done..|]. intros k Hk. eapply holds_later; eauto.
Qed.

Lemma delete_all_spec del s :
  ds_wf s -> Forall clean del ->
  ds_wf (delete_all del s)
  /\ forall k, clean k -> ds_view (delete_all del s) k = if decide (k ∈ del) then None else ds_view s k.
Proof.
  intros Hs Hdel. revert s Hs. induction Hdel as [|k del Hk Hdel IH]; intros s Hs; cbn [delete_all].
  - split; [done|]. intros k _. rewrite decide_False; [done|apply not_elem_of_nil].
  - destruct (ds_Delete_spec s k Hs Hk) as (s' & -> & Hs' & Hv). simpl.
    destruct (IH s' Hs') as [Hwf Hrest]. split; [done|]. intros k' Hk'.
    rewrite Hrest by done. rewrite (Hv k' Hk').
    destruct (decide (k' ∈ del)); [by rewrite decide_True by by right|].
    destruct (decide (k' = k)) as [->|]; [by rewrite decide_True by by left|].
    rewrite decide_False; [done|]. by rewrite elem_of_cons; intros [?|?].
Qed.

Lemma elem_of_expired now d k :
  k ∈ expired now d <-> exists t, ttls d !! k = Some t /\ (t < now)%Z.
Proof.
  unfold expired. rewrite list_elem_of_fmap. split.
  - intros ([k' t] & -> & [Ht Hin]%list_elem_of_filter). exists t.
    by rewrite <- elem_of_go_range_map.
  - intros (t & Ht & Hlt). exists (k, t). split; [done|]. apply list_elem_of_filter.
    by rewrite elem_of_go_range_map.
Qed.

(** After [gc] the cache holds exactly the entries that have not expired. *)
Lemma gc_spec now m d :
  tracks now m d ->
  tracks now m (gc now d) /\ ttl (gc now d) = ttl d
  /\ forall k, clean k -> ds_view (cache (gc now d)) k = live now m k.
Proof.
  intros (Hwf & Hc & Hh). unfold gc. cbn [cache ttl ttls].
  assert (Hdel : Forall clean (expired now d)).
  { apply Forall_forall. intros k (t & Ht & _)%elem_of_expired. apply Hc. by eexists. }
  destruct (delete_all_spec (expired now d) (cache d) Hwf Hdel) as [Hwf' Hv].
  assert (Hk : forall k, clean k ->
    (ds_view (delete_all (expired now d) (cache d)) k
       = match m !! k with Some (v, exp) => if decide (exp < now)%Z then None else Some v | None => None end)
    /\ filter (fun kt : Key * Z => ~ (kt.2 < now)%Z) (ttls d) !! k
       = match m !! k with Some (v, exp) => if decide (exp < now)%Z then None else Some exp | None => None end).
  { intros k Hk. rewrite (Hv k Hk). specialize (Hh k Hk). unfold holds in Hh.
    destruct (decide (k ∈ expired now d)) as [Hin|Hout].
    - pose proof Hin as (t & Ht & Hlt)%elem_of_expired. rewrite Ht in Hh.
      destruct (m !! k) as [[v exp]|]; [|naive_solver].
      destruct Hh as [[_ [= ->]]|(_ & [=] & _)]. rewrite !decide_True by done. split; [done|].
      apply map_lookup_filter_None. right. rewrite Ht. intros ? [= <-]. simpl. lia.
    - destruct (m !! k) as [[v exp]|].
      + destruct Hh as [[-> Ht]|(-> & Ht & Hlt)].
        * destruct (decide (exp < now)%Z) as [Hlt|Hge].
          { exfalso. apply Hout, elem_of_expired. by exists exp. }
          split; [done|]. by apply map_lookup_filter_Some.
        * rewrite !decide_True by done. split; [done|].
          apply map_lookup_filter_None. by left.
      + destruct Hh as [-> Ht]. split; [done|]. apply map_lookup_filter_None. by left. }
  split_and!; [|done|intros k Hk'; apply Hk; done].
  split_and!; [done| |].
  - intros k [t (Ht & _)%map_lookup_filter_Some]. apply Hc. by eexists.
  - intros k Hk'. cbn [cache ttls]. destruct (Hk k Hk') as [-> ->]. unfold holds.
    destruct (m !! k) as [[v exp]|]; [|done].
    destruct (decide (exp < now)%Z); [by right|by left].
Qed.

Lemma tracks_insert now m d s k v exp :
  tracks now m d -> clean k -> ds_wf s -> put_view ds_view k (Some v) (cache d) s ->
  tracks now (<[k := (v, exp)]> m) (mkTc s (ttl d) (<[k := exp]> (ttls d))).
Proof.
  intros (Hwf & Hc & Hh) Hk Hs Hput. split_and!; [done| |]; cbn [cache ttls].
  - intros k' [t [[<- _]|[_ Ht]]%lookup_insert_Some]; [done|]. apply Hc. by eexists.
  - intros k' Hk'. rewrite (Hput k' Hk'). destruct (decide (k' = k)) as [->|Hne].
    + rewrite lookup_insert_eq, lookup_insert_eq. by left.
    + rewrite lookup_insert_ne, lookup_insert_ne by done. by apply Hh.
Qed.

Lemma tracks_delete now m d s k :
  tracks now m d -> clean k -> ds_wf s -> put_view ds_view k None (cache d) s ->
  tracks now (delete k m) (mkTc s (ttl d) (delete k (ttls d))).
Proof.
  intros (Hwf & Hc & Hh) Hk Hs Hput. split_and!; [done| |]; cbn [cache ttls].
  - intros k' [t [_ Ht]%lookup_delete_Some]. apply Hc. by eexists.
  - intros k' Hk'. rewrite (Hput k' Hk'). destruct (decide (k' = k)) as [->|Hne].
    + by rewrite lookup_delete_eq, lookup_delete_eq.
    + rewrite lookup_delete_ne, lookup_delete_ne by done. by apply Hh.
Qed.

Lemma tracks_same now m d s :
  tracks now m d -> ds_wf s -> same_view ds_view (cache d) s -> tracks now m (with_cache d s).
Proof.
  intros (Hwf & Hc & Hh) Hs Hsame. split_and!; [done..|]. cbn [with_cache cache ttls].
  intros k Hk. rewrite (Hsame k Hk). by apply Hh.
Qed.

Lemma run_at_spec now o m d :
  tracks now m d -> clean (op_key o) ->
  ref_answer now o m (run_at now o d).1
  /\ tracks now (ref_step now (ttl d) o m) (run_at now o d).2
  /\ ttl (run_at now o d).2 = ttl d.
Proof.
  intros Htr Hk. pose proof Htr as (Hwf & Hc & Hh). destruct o as [k v|k|k|k]; cbn [op_key] in Hk;
    cbn [run_at ref_answer ref_step]; unfold Put, Get, Has, Delete, out, on_child; cbn [fst snd].
  - destruct (ds_Put_spec (cache d) k v Hwf Hk) as (s & -> & Hs & Hput). cbn [fst snd].
    split_and!; [done| |done]. exact (tracks_insert _ _ _ _ _ _ _ Htr Hk Hs Hput).
  - destruct (gc_spec now m d Htr) as (Htr' & Httl & Hv).
    destruct (ds_Get_spec (cache (gc now d)) k (proj1 Htr') Hk) as (s & -> & Hs & Hsame).
    rewrite (Hv k Hk). split_and!; [done|exact (tracks_same _ _ _ _ Htr' Hs Hsame)|done].
  - destruct (gc_spec now m d Htr) as (Htr' & Httl & Hv).
    destruct (ds_Has_spec (cache (gc now d)) k (proj1 Htr') Hk) as (s & -> & Hs & Hsame).
    rewrite (Hv k Hk). split_and!; [done|exact (tracks_same _ _ _ _ Htr' Hs Hsame)|done].
  - destruct (ds_Delete_spec (cache d) k Hwf Hk) as (s & Hd & Hs & Hput).
    cbn [ttlDelete cache]. rewrite Hd. cbn [fst snd]. split_and!; [|exact (tracks_delete _ _ _ _ _ Htr Hk Hs Hput)|done].
    specialize (Hh k Hk). unfold live. unfold holds in Hh.
    destruct (m !! k) as [[v exp]|].
    + destruct Hh as [[-> _]|(-> & _ & Hlt)]; [|left; by rewrite decide_True].
      destruct (decide (exp < now)%Z); [right|by left]. split; [by exists v, exp|done].
    + destruct Hh as [-> _]. by left.
Qed.

(** C25. A time cache is a map whose entries expire. For every sequence of calls
    made at moments that do not go back, on a cache that starts empty, a [Get] or
    [Has] sees exactly the values put at most the TTL ago and not deleted since;
    [Put] succeeds; [Delete] finds a live key, does not find one that was never
    put, and may or may not still find an expired one. *)
Theorem timecache_expires l (s : S) time t :
  ds_wf s -> (forall k, clean k -> ds_view s k = None) ->
  Forall (fun no => clean (op_key no.2)) l -> monotone t l ->
  ref_answers time l ∅ (run_timed l (WithCache s time)).1.
Proof.
  intros Hs Hempty Hl Hmono.
  assert (Htr : tracks t ∅ (WithCache s time)).
  { split_and!; [done| |].
    - intros k [x Hx]. cbn [WithCache ttls] in Hx. by rewrite lookup_empty in Hx.
    - intros k Hk. cbn [WithCache ttls cache]. rewrite lookup_empty, lookup_empty. split; [by apply Hempty|done]. }
  cut (forall d m, tracks t m d -> ref_answers (ttl d) l m (run_timed l d).1).
  { intros Hcut. apply (Hcut _ _ Htr). }
  clear s Hs Hempty Htr. revert t Hmono.
  induction Hl as [|[now o] l Ho Hl IH]; intros t Hmono d m Htr; [done|].
  destruct Hmono as [Ht Hmono]. apply (tracks_later t now) in Htr; [|done].
  destruct (run_at_spec now o m d Htr Ho) as (Ha & Htr' & Httl). cbn [run_timed].
  destruct (run_at now o d) as [r d'] eqn:Hr. simpl in Ha, Htr', Httl.
  specialize (IH now Hmono d' _ Htr'). rewrite Httl in IH.
  destruct (run_timed l d') as [rs d'']. simpl in *. done.
Qed.
End Spec.

Lemma timecache_expires_witness :
  let R := elements_range Key in
  let k := NewKey (str "/a") in
  let l := [(0, OPut k VNil); (10, OGet k); (11, OHas k); (12, ODelete k)]%Z in
  ref_answers 10 l ∅ (Timecache.run_timed l (WithTTL 10)).1.
Proof.
  intros R k l.
  apply (@timecache_expires _ _ (@MapDatastore.map_DatastoreSpec R) R l _ 10%Z 0%Z).
  - apply MapDatastore.New_wf.
  - done.
  - repeat constructor; apply NewKey_clean.
  - simpl. lia.
Defined.

(** [Query] does not remove expired keys: it lists one that [Get] no longer
    finds, and [Delete] still finds it. *)
Theorem timecache_Query_lists_expired :
  let R := elements_range Key in
  let k := NewKey (str "/a") in
  let d := (Timecache.Put 0 k VNil (WithTTL 10)).2 in
  (Timecache.Query_ (prefix_query [] false) d).1 = Ok [entry_result (mkEntry (str "/a") VNil)]
  /\ (Timecache.Get 11 k d).1 = Err DsErrNotFound
  /\ (Timecache.Delete k d).1 = Ok tt.
Proof. by vm_compute. Qed.
