(* ===== verification/Sync.v ===== *)
(** * Stores behind a lock

    Models [Godeps/.../jbenet/go-datastore/sync/sync.go], the readers-writer lock
    around a store, and the wrappers of [thirdparty/datastore2] that only change
    its type: [threadsafe.go] and [datastore_closer.go].

    The child store is not safe for concurrent use: a call reads the state when it
    begins and writes its own next state when it ends, so that two calls at once
    may lose an update. Goroutines take their steps in any order. *)

From S2P Require Import Prelude DsKey Query Datastore.

Module Sync.
Section Sync.
Context {S : Type} `{Datastore S}.

(** The calls of a datastore and their results. *)
Inductive call :=
  | COp (o : op)
  | CQuery (q : Query).
Inductive answer :=
  | AOp (r : outcome)
  | AQuery (r : res Results).

Definition run_call (c : call) (s : S) : answer * S :=
  match c with
  | COp o => let '(r, s) := run_op o s in (AOp r, s)
  | CQuery q => let '(r, s) := ds_Query q s in (AQuery r, s)
  end.

(** The statements of a method body; the deferred call comes last. *)
Inductive instr := Lock | RLock | Unlock | RUnlock | Child (c : call).

Definition Put (key : Key) (v : value) : list instr := [Lock; Child (COp (OPut key v)); Unlock].
Definition Get (key : Key) : list instr := [RLock; Child (COp (OGet key)); RUnlock].
Definition Has (key : Key) : list instr := [RLock; Child (COp (OHas key)); RUnlock].
Definition Delete (key : Key) : list instr := [Lock; Child (COp (ODelete key)); Unlock].
Definition Query_ (q : Query) : list instr := [RLock; Child (CQuery q); RUnlock].

Definition body (c : call) : list instr :=
  match c with
  | COp (OPut k v) => Put k v
  | COp (OGet k) => Get k
  | COp (OHas k) => Has k
  | COp (ODelete k) => Delete k
  | CQuery q => Query_ q
  end.

(** A goroutine in a method: what is left of the body, the state its call of the
    child began with while it lasts, and the result once it has one. *)
Record thread := mkThread {
  t_call : call;
  t_code : list instr;
  t_begun : option S;
  t_res : option answer;
}.

(** [type MutexDatastore struct]: the lock as its writer flag and its count of
    readers, the child, and the goroutines that are or were in a method. [log] is
    ghost state: the calls of the child, in the order in which they ended. *)
Record MutexDatastore := mkMutex {
  writer : bool;
  readers : nat;
  child : S;
  threads : list thread;
  log : list (nat * call);
}.

Definition MutexWrap (d : S) : MutexDatastore := mkMutex false 0 d [] [].
Definition Children (d : MutexDatastore) : list S := [child d].
Definition IsThreadSafe (d : MutexDatastore) : unit := tt.

Definition set_thread (i : nat) (t : thread) (d : MutexDatastore) : list thread :=
  <[i := t]> (threads d).
(** The goroutine after the first statement left. *)
Definition next (t : thread) : thread := mkThread (t_call t) (tail (t_code t)) (t_begun t) (t_res t).

(** [Lock] waits until nobody holds the lock, [RLock] until no writer does. That
    Go's [RLock] also waits behind a waiting writer only takes steps away. *)
Inductive step : MutexDatastore -> MutexDatastore -> Prop :=
  | step_call d c :
      step d (mkMutex (writer d) (readers d) (child d)
                (threads d ++ [mkThread c (body c) None None]) (log d))
  | step_Lock d i t code :
      threads d !! i = Some t -> t_code t = Lock :: code ->
      writer d = false -> readers d = 0 ->
      step d (mkMutex true 0 (child d) (set_thread i (next t) d) (log d))
  | step_RLock d i t code :
      threads d !! i = Some t -> t_code t = RLock :: code ->
      writer d = false ->
      step d (mkMutex false (readers d + 1) (child d) (set_thread i (next t) d) (log d))
  | step_begin d i t c code :
      threads d !! i = Some t -> t_code t = Child c :: code -> t_begun t = None ->
      step d (mkMutex (writer d) (readers d) (child d)
                (set_thread i (mkThread (t_call t) (t_code t) (Some (child d)) (t_res t)) d) (log d))
  | step_end d i t c code s :
      threads d !! i = Some t -> t_code t = Child c :: code -> t_begun t = Some s ->
      step d (mkMutex (writer d) (readers d) (run_call c s).2
                (set_thread i (mkThread (t_call t) code None (Some (run_call c s).1)) d)
                (log d ++ [(i, c)]))
  | step_Unlock d i t code :
      threads d !! i = Some t -> t_code t = Unlock :: code ->
      step d (mkMutex false (readers d) (child d) (set_thread i (next t) d) (log d))
  | step_RUnlock d i t code :
      threads d !! i = Some t -> t_code t = RUnlock :: code ->
      step d (mkMutex (writer d) (readers d - 1) (child d) (set_thread i (next t) d) (log d)).

Inductive steps : MutexDatastore -> MutexDatastore -> Prop :=
  | steps_refl d : steps d d
  | steps_next d d' d'' : steps d d' -> step d' d'' -> steps d d''.
End Sync.
Arguments thread : clear implicits.
Arguments MutexDatastore : clear implicits.
End Sync.

(** ** Wrappers that only change the type *)
Module ThreadSafe.
(** [ClaimThreadSafe]: the store itself, with a method that does nothing. *)
Record ClaimThreadSafe (S : Type) := Claim { Datastore_ : S }.
Arguments Claim {S} _.
Arguments Datastore_ {S} _.
Definition IsThreadSafe {S} (d : ClaimThreadSafe S) : unit := tt.

(** [datastoreCloserWrapper]: closing is a no-op that returns nil. *)
Record datastoreCloserWrapper (S : Type) := CloserWrap { ThreadSafeDatastore : S }.
Arguments CloserWrap {S} _.
Arguments ThreadSafeDatastore {S} _.
Definition Close {S} (w : datastoreCloserWrapper S) : res unit * datastoreCloserWrapper S := (Ok tt, w).
End ThreadSafe.

(** ** The calls one after the other *)
Section Serial.
Import Sync.
Context {S : Type} `{Datastore S}.

Fixpoint run_calls (l : list call) (s : S) : list answer * S :=
  match l with
  | [] => ([], s)
  | c :: l =>
      let '(r, s) := run_call c s in
      let '(rs, s) := run_calls l s in
      (r :: rs, s)
  end.

Lemma run_calls_snoc l c s :
  run_calls (l ++ [c]) s
  = ((run_calls l s).1 ++ [(run_call c (run_calls l s).2).1], (run_call c (run_calls l s).2).2).
Proof.
  revert s. induction l as [|c' l IH]; intros s; simpl.
  - by destruct (run_call c s).
  - destruct (run_call c' s) as [r s']. rewrite IH. by destruct (run_calls l s').
Qed.

Lemma run_calls_length l s : length (run_calls l s).1 = length l.
Proof.
  revert s. induction l as [|c l IH]; intros s; [done|]. simpl. destruct (run_call c s) as [r s'].
  specialize (IH s'). destruct (run_calls l s'). simpl in *. lia.
Qed.

Definition is_write (c : call) : bool :=
  match c with COp (OPut _ _) | COp (ODelete _) => true | _ => false end.

(** The lock a call takes. *)
Lemma body_eq c :
  body c = if is_write c then [Lock; Child c; Unlock] else [RLock; Child c; RUnlock].
Proof. by destruct c as [[]|]. Qed.
End Serial.

(** ** Invariant *)
Section Linear.
Import Sync.
Context {S : Type} `{Datastore S}.
Implicit Types (d : MutexDatastore S) (t : thread S) (c : call).

(** The child's reads leave its state as it is; with the lock held for reading,
    two of them may run at once. *)
Hypothesis reads_pure : forall c s, is_write c = false -> (run_call c s).2 = s.

Definition unlock_of c : instr := if is_write c then Unlock else RUnlock.

(** Where a goroutine can be. *)
Inductive phase : thread S -> Prop :=
  | ph_new c : phase (mkThread c (body c) None None)
  | ph_hold c b : phase (mkThread c [Child c; unlock_of c] b None)
  | ph_done c r : phase (mkThread c [unlock_of c] None (Some r))
  | ph_ret c r : phase (mkThread c [] None (Some r)).

(** It holds the lock. *)
Definition holds t : bool :=
  match t_code t with Child _ :: _ | Unlock :: _ | RUnlock :: _ => true | _ => false end.
Definition reads t : bool := holds t && negb (is_write (t_call t)).

Variable s0 : S.
Definition serial d : list answer * S := run_calls (map snd (log d)) s0.

Record inv d : Prop := {
  inv_phase i t : threads d !! i = Some t -> phase t;
  inv_alone i j ti tj : i <> j -> threads d !! i = Some ti -> threads d !! j = Some tj ->
    holds ti = true -> holds tj = true -> is_write (t_call ti) = false;
  inv_writer i t : threads d !! i = Some t -> holds t = true -> is_write (t_call t) = true ->
    writer d = true;
  inv_readers : readers d = count_if reads (threads d);
  inv_begun i t s : threads d !! i = Some t -> t_begun t = Some s -> s = child d;
  inv_child : (serial d).2 = child d;
  inv_log p i c : log d !! p = Some (i, c) ->
    exists t, threads d !! i = Some t /\ t_call t = c /\ t_res t = (serial d).1 !! p;
  inv_res i t r : threads d !! i = Some t -> t_res t = Some r -> i ∈ (log d).*1;
  inv_once : NoDup (log d).*1;
}.

Lemma inv_init : inv (MutexWrap s0).
Proof. constructor; simpl; try done; try apply NoDup_nil_2; intros *; by rewrite lookup_nil. Qed.

(** A step of one goroutine that neither begins nor ends a call of the child. *)
Lemma lock_inv_move d i t t' w n :
  inv d -> threads d !! i = Some t -> phase t' -> t_call t' = t_call t -> t_res t' = t_res t ->
  (forall s, t_begun t' = Some s -> s = child d) ->
  (holds t' = true -> holds t = true \/ forall j tj, threads d !! j = Some tj ->
     holds tj = true -> is_write (t_call tj) = false /\ is_write (t_call t) = false) ->
  (holds t' = true -> is_write (t_call t) = true -> w = true) ->
  (forall j tj, j <> i -> threads d !! j = Some tj -> holds tj = true ->
     is_write (t_call tj) = true -> w = true) ->
  n + (if reads t then 1 else 0) = readers d + (if reads t' then 1 else 0) ->
  inv (mkMutex w n (child d) (<[i := t']> (threads d)) (log d)).
Proof.
  intros [Hph Hal Hwr Hrd Hbg Hch Hlg Hrs Hon] Hi Ht' Hc Hr Hb Ha Hw Hwo Hn.
  pose proof (lookup_lt_Some _ _ _ Hi) as Hlt.
  constructor; cbn [threads writer readers child log]; [..|done].
  - intros j tj [(-> & <- & _)|[_ Hj]]%list_lookup_insert_Some; [done|by eapply Hph].
  - intros j k tj tk Hjk.
    intros [(-> & <- & _)|[Hji Hj]]%list_lookup_insert_Some
      [(-> & <- & _)|[Hki Hk]]%list_lookup_insert_Some Hhj Hhk; [done| | |by eapply (Hal j k)].
    + rewrite Hc. destruct (Ha Hhj) as [Hh|Hall]; [by eapply (Hal j k)|by eapply Hall].
    + destruct (Ha Hhk) as [Hh|Hall]; [by eapply (Hal j k)|by eapply Hall].
  - intros j tj [(-> & <- & _)|[Hji Hj]]%list_lookup_insert_Some; [rewrite Hc; by apply Hw|].
    by eapply Hwo.
  - pose proof (count_if_insert reads (threads d) i t t' Hi). lia.
  - intros j tj s [(-> & <- & _)|[_ Hj]]%list_lookup_insert_Some; [by apply Hb|by eapply Hbg].
  - exact Hch.
  - intros p j c Hp. destruct (Hlg p j c Hp) as (tj & Hj & Hcj & Hrj).
    destruct (decide (j = i)) as [->|Hne].
    + exists t'. rewrite list_lookup_insert_eq by done. simplify_eq.
      split_and!; [done|congruence|by rewrite Hr].
    + exists tj. by rewrite list_lookup_insert_ne by done.
  - intros j tj r [(-> & <- & _)|[_ Hj]]%list_lookup_insert_Some; [|by eapply Hrs].
    rewrite Hr. by apply Hrs.
Qed.

(** A call that is running is not in the log yet. *)
Lemma inv_running_unlogged d i t :
  inv d -> threads d !! i = Some t -> t_res t = None -> i ∉ (log d).*1.
Proof.
  intros Hinv Hi Hn. pose proof Hinv as [_ _ _ _ _ _ Hlg _ _].
  intros ([i' c'] & Hi' & [p Hp]%list_elem_of_lookup_1)%list_elem_of_fmap. simpl in Hi'. subst i'.
  destruct (Hlg p i c' Hp) as (t' & Ht & _ & Hres). rewrite Hi in Ht. injection Ht as <-.
  rewrite Hn in Hres. symmetry in Hres. apply lookup_ge_None in Hres. unfold serial in Hres.
  rewrite run_calls_length, length_map in Hres. apply lookup_lt_Some in Hp. lia.
Qed.

(** The serial run of the log with one more call. *)
Lemma serial_snoc d i c w n th :
  inv d -> serial (mkMutex w n (run_call c (child d)).2 th (log d ++ [(i, c)]))
    = ((serial d).1 ++ [(run_call c (child d)).1], (run_call c (child d)).2).
Proof.
  intros [_ _ _ _ _ Hch _ _ _]. unfold serial. cbn [log]. rewrite map_app. cbn [map snd].
  rewrite run_calls_snoc. unfold serial in Hch. by rewrite Hch.
Qed.

(** The goroutine that ends a call of the child. *)
Lemma inv_end d i c s :
  inv d -> threads d !! i = Some (mkThread c [Child c; unlock_of c] (Some s) None) ->
  inv (mkMutex (writer d) (readers d) (run_call c s).2
        (<[i := mkThread c [unlock_of c] None (Some (run_call c s).1)]> (threads d))
        (log d ++ [(i, c)])).
Proof.
  intros Hinv Hi. pose proof Hinv as [Hph Hal Hwr Hrd Hbg Hch Hlg Hrs Hon].
  pose proof (lookup_lt_Some _ _ _ Hi) as Hlt.
  assert (s = child d) as -> by by eapply (Hbg i).
  assert (Hnl : i ∉ (log d).*1) by by eapply inv_running_unlogged.
  set (t' := mkThread c [unlock_of c] None _).
  assert (Hh' : holds t' = true) by (unfold t', holds, unlock_of; simpl; by destruct (is_write c)).
  assert (Hserial := fun w n th => serial_snoc d i c w n th Hinv).
  constructor; cbn [threads writer readers child log].
  - intros j tj [(-> & <- & _)|[_ Hj]]%list_lookup_insert_Some; [constructor|by eapply Hph].
  - intros j k tj tk Hjk.
    intros [(-> & <- & _)|[Hji Hj]]%list_lookup_insert_Some
      [(-> & <- & _)|[Hki Hk]]%list_lookup_insert_Some Hhj Hhk; [done| | |by eapply (Hal j k)].
    + by eapply (Hal j k _ _ Hjk Hi Hk).
    + by eapply (Hal j k _ _ Hjk Hj Hi).
  - intros j tj [(-> & <- & _)|[Hji Hj]]%list_lookup_insert_Some; [|by eapply Hwr].
    intros _ Hw. by eapply (Hwr j _ Hi).
  - pose proof (count_if_insert reads (threads d) i _ t' Hi) as Hc. unfold reads in Hc.
    rewrite Hh' in Hc. simpl in Hc. fold reads in Hc. rewrite Hrd.
    change (count_if (fun t => holds t && negb (is_write (t_call t)))) with (count_if reads) in Hc. lia.
  - intros j tj s [(-> & <- & _)|[Hji Hj]]%list_lookup_insert_Some; [done|]. intros Hs.
    rewrite (Hbg j tj s Hj Hs). symmetry. destruct (is_write c) eqn:Hw; [|by apply reads_pure].
    exfalso. assert (Hhj : holds tj = true).
    { specialize (Hph j tj Hj). by destruct Hph. }
    pose proof (Hal i j _ tj Hji Hi Hj eq_refl Hhj) as Hr. simpl in Hr. congruence.
  - by rewrite Hserial.
  - intros p j c' Hp. rewrite Hserial. cbn [fst]. apply lookup_snoc_Some in Hp as [[Hlp Hp]|[-> [= <- <-]]].
    + destruct (Hlg p j c' Hp) as (tj & Hj & Hcj & Hrj). exists tj.
      assert (j <> i).
      { intros ->. apply Hnl, list_elem_of_fmap. exists (i, c'). split; [done|].
        by eapply list_elem_of_lookup_2. }
      rewrite list_lookup_insert_ne by done. split_and!; [done..|].
      rewrite lookup_app_l; [done|]. unfold serial. by rewrite run_calls_length, length_map.
    + exists t'. rewrite list_lookup_insert_eq by done. split_and!; [done..|].
      rewrite lookup_app_r; unfold serial; rewrite run_calls_length, length_map; [|done].
      by rewrite Nat.sub_diag.
  - intros j tj r. rewrite fmap_app, elem_of_app.
    intros [(-> & <- & _)|[_ Hj]]%list_lookup_insert_Some Hr; [right; by left|left; by eapply Hrs].
  - rewrite fmap_app. apply NoDup_app. split_and!; [done| |apply NoDup_singleton].
    intros j Hj Hj'%list_elem_of_singleton. simpl in Hj'. by subst.
Qed.

Lemma lock_inv_call d c :
  inv d ->
  inv (mkMutex (writer d) (readers d) (child d) (threads d ++ [mkThread c (body c) None None]) (log d)).
Proof.
  intros [Hph Hal Hwr Hrd Hbg Hch Hlg Hrs Hon].
  assert (Hnew : forall j tj, (threads d ++ [mkThread c (body c) None None]) !! j = Some tj ->
    threads d !! j = Some tj \/ tj = mkThread c (body c) None None).
  { intros j tj [Hj|[_ Hj]]%lookup_app_Some; [by left|right].
    by apply list_lookup_singleton_Some in Hj as [_ ->]. }
  assert (Hnh : holds (mkThread c (body c) None None) = false)
    by (rewrite body_eq; by destruct (is_write c)).
  constructor; cbn [threads writer readers child log]; [..|done].
  - intros j tj [Hj| ->]%Hnew; [by eapply Hph|constructor].
  - intros j k tj tk Hjk [Hj| ->]%Hnew [Hk| ->]%Hnew Hhj Hhk; [by eapply (Hal j k)|congruence..].
  - intros j tj [Hj| ->]%Hnew Hh Hw; [by eapply Hwr|congruence].
  - rewrite count_if_app, Hrd, count_if_cons. unfold reads at 3. rewrite Hnh. simpl. unfold count_if. simpl. lia.
  - intros j tj s [Hj| ->]%Hnew; [by eapply Hbg|done].
  - exact Hch.
  - intros p j c' Hp. destruct (Hlg p j c' Hp) as (t & Hj & ?). exists t. split; [|done].
    by apply lookup_app_l_Some.
  - intros j tj r [Hj| ->]%Hnew Hr; [by eapply Hrs|done].
Qed.

Lemma holds_new c b r : holds (mkThread c (body c) b r) = false.
Proof. rewrite body_eq. by destruct (is_write c). Qed.
Lemma holds_held c b r : holds (mkThread c [unlock_of c] b r) = true.
Proof. unfold holds, unlock_of. simpl. by destruct (is_write c). Qed.

Lemma inv_acquire d i c :
  inv d -> threads d !! i = Some (mkThread c (body c) None None) -> writer d = false ->
  (is_write c = true -> readers d = 0) ->
  inv (mkMutex (is_write c) (if is_write c then 0 else readers d + 1) (child d)
         (<[i := mkThread c [Child c; unlock_of c] None None]> (threads d)) (log d)).
Proof.
  intros Hinv Hi Hw Hr. pose proof Hinv as [_ _ Hwr Hrd _ _ _ _ _].
  assert (Hnw : forall j tj, threads d !! j = Some tj -> holds tj = true -> is_write (t_call tj) = false).
  { intros j tj Hj Hhj. apply not_true_is_false. intros Hwj.
    by rewrite (Hwr j tj Hj Hhj Hwj) in Hw. }
  eapply lock_inv_move; [done|exact Hi|constructor|done..| | | |].
  - intros _. right. intros j tj Hj Hhj. split; [by eapply Hnw|]. simpl.
    apply not_true_is_false. intros Hwc. rewrite (Hr Hwc) in Hrd.
    pose proof (count_if_0 reads _ _ _ (eq_sym Hrd) Hj) as Hn. unfold reads in Hn.
    by rewrite Hhj, (Hnw j tj Hj Hhj) in Hn.
  - done.
  - intros j tj _ Hj Hhj Hwj. by rewrite (Hnw j tj Hj Hhj) in Hwj.
  - unfold reads. rewrite holds_new. cbn [t_call holds t_code andb].
    destruct (is_write c); simpl; [|lia]. by rewrite Hr.
Qed.

Lemma inv_release d i c r w :
  inv d -> threads d !! i = Some (mkThread c [unlock_of c] None (Some r)) ->
  (is_write c = false -> w = writer d) ->
  inv (mkMutex w (if is_write c then readers d else readers d - 1) (child d)
         (<[i := mkThread c [] None (Some r)]> (threads d)) (log d)).
Proof.
  intros Hinv Hi Hw. pose proof Hinv as [_ Hal Hwr Hrd _ _ _ _ _].
  pose proof (holds_held c None (Some r)) as Hh.
  assert (Hpos : is_write c = false -> 0 < readers d).
  { intros Hwc. rewrite Hrd. destruct (count_if reads (threads d)) eqn:Hn; [|lia].
    pose proof (count_if_0 reads _ _ _ Hn Hi) as Hno. unfold reads in Hno.
    rewrite Hh in Hno. simpl in Hno. by rewrite Hwc in Hno. }
  eapply lock_inv_move; [done|exact Hi|constructor|done..| | | |].
  - done.
  - done.
  - intros j tj Hji Hj Hhj Hwj. destruct (is_write c) eqn:Hwc.
    + pose proof (Hal i j _ tj (not_eq_sym Hji) Hi Hj Hh Hhj) as Hf. simpl in Hf. congruence.
    + rewrite Hw by done. by eapply Hwr.
  - unfold reads. rewrite Hh. cbn [t_call holds t_code andb].
    destruct (is_write c); simpl; [lia|]. specialize (Hpos eq_refl). lia.
Qed.

(** What the first statement left tells about a goroutine. *)
Lemma phase_head t ins code :
  phase t -> t_code t = ins :: code ->
  match ins with
  | Lock | RLock =>
      exists c, t = mkThread c (body c) None None /\ is_write c = match ins with Lock => true | _ => false end
        /\ next t = mkThread c [Child c; unlock_of c] None None
  | Child c => t_call t = c /\ code = [unlock_of c] /\ t_res t = None
  | Unlock | RUnlock =>
      exists c r, t = mkThread c [unlock_of c] None (Some r) /\ is_write c = match ins with Unlock => true | _ => false end
  end.
Proof.
  intros [c|c b|c r|c r]; cbn [t_code t_res t_call]; rewrite ?body_eq; unfold unlock_of;
    destruct (is_write c) eqn:Hw; intros [= <- <-]; rewrite ?Hw; try done.
  - exists c. unfold next. cbn [t_code t_call t_begun t_res]. by rewrite body_eq, Hw.
  - exists c. unfold next. cbn [t_code t_call t_begun t_res]. by rewrite body_eq, Hw.
  - exists c, r. by rewrite Hw.
  - exists c, r. by rewrite Hw.
Qed.

Lemma lock_inv_step d d' : inv d -> step d d' -> inv d'.
Proof.
  intros Hinv Hstep. pose proof (inv_phase _ Hinv) as Hph.
  destruct Hstep as [d c|d i t code Hi Hc Hw Hr|d i t code Hi Hc Hw|d i t c code Hi Hc Hb
    |d i t c code s Hi Hc Hb|d i t code Hi Hc|d i t code Hi Hc]; [by apply lock_inv_call|..];
    pose proof (phase_head t _ _ (Hph i t Hi) Hc) as Ht; unfold set_thread.
  - destruct Ht as (c & -> & Hwc & ->). pose proof (inv_acquire d i c Hinv Hi Hw) as Hacq.
    rewrite Hwc in Hacq. by apply Hacq.
  - destruct Ht as (c & -> & Hwc & ->). pose proof (inv_acquire d i c Hinv Hi Hw) as Hacq.
    rewrite Hwc in Hacq. by apply Hacq.
  - destruct t as [c' code' b r]. cbn [t_call t_code t_begun t_res] in *.
    destruct Ht as (-> & -> & ->). subst.
    eapply lock_inv_move; [done|exact Hi|constructor|done..| | | | |].
    + by intros s [= <-].
    + by left.
    + intros _ Hwc. by eapply (inv_writer _ Hinv i _ Hi).
    + intros j tj _ Hj. by eapply (inv_writer _ Hinv).
    + done.
  - destruct t as [c' code' b r]. cbn [t_call t_code t_begun t_res] in *.
    destruct Ht as (-> & -> & ->). subst. by apply inv_end.
  - destruct Ht as (c & r & -> & Hwc). pose proof (inv_release d i c r false Hinv Hi) as Hrel.
    rewrite Hwc in Hrel. by apply Hrel.
  - destruct Ht as (c & r & -> & Hwc). pose proof (inv_release d i c r (writer d) Hinv Hi) as Hrel.
    rewrite Hwc in Hrel. by apply Hrel.
Qed.

Lemma inv_steps d d' : inv d -> steps d d' -> inv d'.
Proof. intros Hinv Hs. revert Hinv. induction Hs; eauto using lock_inv_step. Qed.

(** The log and the goroutines only grow. *)
Lemma step_grows d d' :
  step d d' -> (exists l, log d' = log d ++ l) /\ length (threads d) <= length (threads d').
Proof.
  intros []; cbn [log threads]; unfold set_thread; rewrite ?length_insert, ?length_app; (split; [|lia]);
    try (exists []; by rewrite app_nil_r); by eexists.
Qed.

Lemma steps_grow d d' :
  steps d d' -> (exists l, log d' = log d ++ l) /\ length (threads d) <= length (threads d').
Proof.
  induction 1 as [d|d d' d'' _ [[l Hl] IH] Hs]; [split; [by exists []; rewrite app_nil_r|done]|].
  destruct (step_grows _ _ Hs) as [[l' Hl'] Hlen]. split; [|lia].
  exists (l ++ l'). by rewrite Hl', Hl, app_assoc.
Qed.

(** The writer flag is up only while a goroutine holds the lock for writing. *)
Definition held d : Prop :=
  writer d = true ->
  exists i t, threads d !! i = Some t /\ holds t = true /\ is_write (t_call t) = true.

Lemma held_step d d' : inv d -> held d -> step d d' -> held d'.
Proof.
  intros Hinv Hh Hstep. pose proof (inv_phase _ Hinv) as Hph. unfold held.
  assert (Hkeep : forall i t t', threads d !! i = Some t -> t_call t' = t_call t ->
    (holds t = true -> is_write (t_call t) = true -> holds t' = true) -> writer d = true ->
    exists j tj, set_thread i t' d !! j = Some tj /\ holds tj = true /\ is_write (t_call tj) = true).
  { intros i t t' Hi Hc Ht' (j & tj & Hj & Hhj & Hwj)%Hh. unfold set_thread.
    destruct (decide (j = i)) as [->|Hne].
    - exists i, t'. rewrite list_lookup_insert_eq by by eapply lookup_lt_Some. simplify_eq.
      split_and!; [done|by apply Ht'|congruence].
    - exists j, tj. by rewrite list_lookup_insert_ne by done. }
  destruct Hstep as [d c|d i t code Hi Hc Hw Hr|d i t code Hi Hc Hw|d i t c code Hi Hc Hb
    |d i t c code s Hi Hc Hb|d i t code Hi Hc|d i t code Hi Hc]; cbn [writer threads]; try done.
  - intros (j & tj & Hj & ?)%Hh. exists j, tj. by rewrite (lookup_app_l_Some _ _ _ _ Hj).
  - destruct (phase_head t _ _ (Hph i t Hi) Hc) as (c & -> & Hwc & ->). intros _.
    exists i, (mkThread c [Child c; unlock_of c] None None). unfold set_thread.
    by rewrite list_lookup_insert_eq by by eapply lookup_lt_Some.
  - apply (Hkeep i t); [done..|]. unfold holds. simpl. by rewrite Hc.
  - apply (Hkeep i t); [done..|]. intros _ _.
    destruct (phase_head t _ _ (Hph i t Hi) Hc) as (_ & -> & _). by rewrite <- (holds_held c None None).
  - apply (Hkeep i t); [done..|]. intros Hht Hwt.
    destruct (phase_head t _ _ (Hph i t Hi) Hc) as (c & r & -> & Hwc). simpl in Hwt. congruence.
Qed.

Lemma lock_reach_inv d : steps (MutexWrap s0) d -> inv d /\ held d.
Proof.
  intros Hs. remember (MutexWrap s0) as d0 eqn:Hd0.
  induction Hs as [d|d d' d'' _ IH Hst]; subst.
  - split; [apply inv_init|done].
  - destruct IH as [Hi Hh]; [done|]. split; [by eapply lock_inv_step|by eapply held_step].
Qed.


(** Mutual exclusion: while a goroutine holds the lock for a [Put] or
    [Delete], no other one is inside a call, and the child has the state that
    every call in progress began with: no update is lost. *)
Theorem MutexDatastore_excludes d i j ti tj s :
  steps (MutexWrap s0) d -> threads d !! i = Some ti -> threads d !! j = Some tj ->
  holds ti = true ->
  (i <> j -> holds tj = true -> is_write (t_call ti) = false /\ is_write (t_call tj) = false)
  /\ (t_begun ti = Some s -> s = child d).
Proof.
  intros Hd Hi Hj Hh. destruct (lock_reach_inv d Hd) as [Hinv _]. split.
  - intros Hij Hhj. split; [by eapply (inv_alone _ Hinv i j)|].
    by eapply (inv_alone _ Hinv j i tj ti).
  - by eapply inv_begun.
Qed.

(** ** Every call returns *)

(** The steps a goroutine has left. *)
Definition left_of t : nat := 2 * length (t_code t) - match t_begun t with Some _ => 1 | None => 0 end.
Definition work d : nat := sum_list (map left_of (threads d)).

Lemma work_insert d w n s lg i t t' :
  threads d !! i = Some t -> left_of t' < left_of t ->
  work (mkMutex w n s (set_thread i t' d) lg) < work d.
Proof.
  intros Hi Hlt. unfold work, set_thread. cbn [threads]. revert i Hi.
  induction (threads d) as [|x l IH]; intros [|i] Hi; [done..| |].
  - injection Hi as ->. simpl. lia.
  - change (<[Datatypes.S i := t']> (x :: l)) with (x :: <[i := t']> l). simpl. specialize (IH i Hi). lia.
Qed.

(** A step of the goroutines that are there uses up some of their work. *)
Lemma step_work d d' : step d d' -> length (threads d') = length (threads d) -> work d' < work d.
Proof.
  intros []; cbn [threads]; [rewrite length_app; simpl; lia|intros _..];
    (eapply work_insert; [eassumption|]); unfold left_of, next;
    destruct t as [c' code' b r']; cbn [t_code t_begun t_call t_res] in *; subst; simpl; try lia;
    destruct b; lia.
Qed.

Ltac takes s :=
  eexists; split; [eapply s; try eassumption; try reflexivity|cbn [threads]; apply length_insert].

Lemma internal_step d : inv d -> held d ->
  (exists i t, threads d !! i = Some t /\ t_code t <> []) ->
  exists d', step d d' /\ length (threads d') = length (threads d).
Proof.
  intros Hinv Hheld (i0 & t0 & Hi0 & Ht0). pose proof (inv_phase _ Hinv) as Hph.
  assert (Hhold : forall i t, threads d !! i = Some t -> holds t = true ->
    exists d', step d d' /\ length (threads d') = length (threads d)).
  { intros i t Hi Hh. destruct (Hph i t Hi) as [c|c b|c r|c r]; [by rewrite holds_new in Hh| | |done].
    - destruct b as [s|]; [by takes (step_end d i)|by takes (step_begin d i)].
    - unfold unlock_of in Hi.
      destruct (is_write c); [by takes (step_Unlock d i)|by takes (step_RUnlock d i)]. }
  destruct (Hph i0 t0 Hi0) as [c|c b|c r|c r]; [|by eapply Hhold|
    eapply Hhold; [done|apply holds_held]|done].
  destruct (writer d) eqn:Hw.
  { destruct (Hheld Hw) as (i & t & Hi & Hh & _). by eapply Hhold. }
  destruct (is_write c) eqn:Hwc.
  - destruct (decide (readers d = 0)) as [Hr|Hr].
    + takes (step_Lock d i0). simpl. by rewrite body_eq, Hwc.
    + rewrite (inv_readers _ Hinv) in Hr. unfold count_if in Hr.
      destruct (filter _ _) as [|t fl] eqn:Hf; [done|].
      assert (t ∈ filter (fun x => reads x = true) (threads d)) as Hin by (rewrite Hf; by left).
      apply list_elem_of_filter in Hin as [Hrt [i Hi]%list_elem_of_lookup_1].
      apply (Hhold i t Hi). unfold reads in Hrt. by apply andb_true_iff in Hrt as [? _].
  - takes (step_RLock d i0). simpl. by rewrite body_eq, Hwc.
Qed.

(** Termination: as long as some call has not returned there is a step to
    take, whatever happened before, and each step of the goroutines that are there
    uses up some of a finite amount of work: no schedule deadlocks or runs on, and
    when none can step any more every call has returned. *)
Theorem MutexDatastore_terminates d :
  steps (MutexWrap s0) d ->
  ((exists i t, threads d !! i = Some t /\ t_code t <> []) ->
     exists d', step d d' /\ length (threads d') = length (threads d))
  /\ (forall d', step d d' -> length (threads d') = length (threads d) -> work d' < work d).
Proof.
  intros Hd. destruct (lock_reach_inv d Hd) as [Hinv Hheld].
  split; [by apply internal_step|]. intros d'. apply step_work.
Qed.
End Linear.

(** ** A map datastore behind the lock *)

Lemma map_reads_pure `{!GoRange Key} c (s : MapDatastore.MapDatastore) :
  is_write c = false -> (Sync.run_call c s).2 = s.
Proof.
  destruct c as [[k v|k|k|k]|q]; try done. intros _. simpl. unfold MapDatastore.Get.
  by destruct (MapDatastore.values s !! k).
Qed.

(** A [Put] that has returned, and a [Get] that has not started. *)
Definition put_done : Sync.MutexDatastore MapDatastore.MapDatastore :=
  let k := NewKey (str "a") in
  Sync.mkMutex false 0 (MapDatastore.mkMap {[k := VNil]})
    [Sync.mkThread (Sync.COp (OPut k VNil)) [] None (Some (Sync.AOp (RUnit (Ok tt))))]
    [(0, Sync.COp (OPut k VNil))].

Lemma put_done_reached `{!GoRange Key} :
  Sync.steps (Sync.MutexWrap MapDatastore.NewMapDatastore) put_done.
Proof.
  pose proof (Sync.steps_refl (Sync.MutexWrap MapDatastore.NewMapDatastore)) as H0.
  pose proof (Sync.steps_next _ _ _ H0 (Sync.step_call _ (Sync.COp (OPut (NewKey (str "a")) VNil)))) as H1.
  pose proof (Sync.steps_next _ _ _ H1 ltac:(eapply (Sync.step_Lock _ 0); reflexivity)) as H2.
  pose proof (Sync.steps_next _ _ _ H2 ltac:(eapply (Sync.step_begin _ 0); reflexivity)) as H3.
  pose proof (Sync.steps_next _ _ _ H3 ltac:(eapply (Sync.step_end _ 0); reflexivity)) as H4.
  exact (Sync.steps_next _ _ _ H4 ltac:(eapply (Sync.step_Unlock _ 0); reflexivity)).
Qed.


(** Two readers at once. *)
Definition get_a : Sync.call := Sync.COp (OGet (NewKey (str "a"))).
Definition reader : Sync.thread MapDatastore.MapDatastore :=
  Sync.mkThread get_a [Sync.Child get_a; Sync.RUnlock] None None.
Definition two_readers : Sync.MutexDatastore MapDatastore.MapDatastore :=
  Sync.mkMutex false 2 MapDatastore.NewMapDatastore [reader; reader] [].

Lemma two_readers_reached `{!GoRange Key} :
  Sync.steps (Sync.MutexWrap MapDatastore.NewMapDatastore) two_readers.
Proof.
  pose proof (Sync.steps_refl (Sync.MutexWrap MapDatastore.NewMapDatastore)) as H0.
  pose proof (Sync.steps_next _ _ _ H0 (Sync.step_call _ get_a)) as H1.
  pose proof (Sync.steps_next _ _ _ H1 (Sync.step_call _ get_a)) as H2.
  pose proof (Sync.steps_next _ _ _ H2 ltac:(eapply (Sync.step_RLock _ 0); reflexivity)) as H3.
  exact (Sync.steps_next _ _ _ H3 ltac:(eapply (Sync.step_RLock _ 1); reflexivity)).
Qed.

Lemma MutexDatastore_excludes_witness :
  let R := elements_range Key in
  holds reader = true /\ is_write (Sync.t_call reader) = false.
Proof.
  intros R. split; [reflexivity|].
  apply (@MutexDatastore_excludes _ _ (@map_reads_pure R) MapDatastore.NewMapDatastore
    two_readers 0 1 reader reader MapDatastore.NewMapDatastore); [apply two_readers_reached|..];
    try reflexivity. done.
Defined.

Lemma MutexDatastore_terminates_witness :
  let R := elements_range Key in
  exists d', Sync.step two_readers d' /\ length (Sync.threads d') = 2.
Proof.
  intros R.
  apply (@MutexDatastore_terminates _ _ (@map_reads_pure R) MapDatastore.NewMapDatastore
    two_readers two_readers_reached).
  by exists 0, reader.
Defined.
