(* ===== verification/Coalesce.v ===== *)
(** * Coalescing stores

    Models [Godeps/.../jbenet/go-datastore/coalesce/coalesce.go]: a store that
    serves requests for the same key that arrive while one is under way with the
    result of that one. The child is called by several goroutines at once, so it
    is taken to be safe for concurrent use: each call of it is one step. *)

From S2P Require Import Prelude DsKey Query Datastore Mount.

Module Coalesce.
Section Coalesce.
Context {S : Type} `{Datastore S}.

(** [type keySync struct], a key of the map of requests. *)
Record keySync := mkKs { ks_op : string; ks_k : Key; ks_value : value }.

#[global] Instance keySync_eq_dec : EqDecision keySync.
Proof. solve_decision. Defined.

Definition putKey : string := "put".
Definition getKey : string := "get".
Definition hasKey : string := "has".
Definition deleteKey : string := "delete".

(** The request that a call makes. *)
Definition key_sync (o : op) : keySync :=
  match o with
  | OPut key v => mkKs putKey key v
  | OGet key => mkKs getKey key VNil
  | OHas key => mkKs hasKey key VNil
  | ODelete key => mkKs deleteKey key VNil
  end.

(** Looking up a map whose key holds a byte slice is a run-time panic: slices
    cannot be compared. *)
Definition hashable (ks : keySync) : bool :=
  match ks_value ks with VBytes _ => false | _ => true end.

(** [type valSync struct]: the result once the child gave one, and whether
    [done] is closed. *)
Record valSync := mkVs { result : option outcome; done : bool }.

(** A panic ends the program; here it ends the goroutine. *)

(** A goroutine in a method: before [sync]; after it, as the one that calls the
    child or as one that waits for it; between the child and [syncDone]; back. *)
Inductive place :=
  | AtSync
  | AtChild (vs : nat)
  | AtDone (vs : nat)
  | Waits (vs : nat)
  | Returned (vs : nat) (r : outcome)
  | Panicked.
Record thread := mkThread { t_op : op; t_place : place }.

(** [type datastore struct], its goroutines and the values of type [valSync]
    made so far. [req] is the map, the newest binding first. [log] is ghost state:
    the calls of the child, each with the goroutine, the [valSync] and the
    result. *)
Record datastore := mkCo {
  child : S;
  req : list (keySync * nat);
  vals : list valSync;
  threads : list thread;
  log : list (nat * nat * outcome);
}.

Definition Wrap (d : S) : datastore := mkCo d [] [] [] [].

Definition find_req (ks : keySync) (l : list (keySync * nat)) : option nat :=
  snd <$> head (filter (fun p => p.1 = ks) l).
Definition delete_req (ks : keySync) (l : list (keySync * nat)) : list (keySync * nat) :=
  filter (fun p => p.1 <> ks) l.

Definition at_place (i : nat) (o : op) (p : place) (d : datastore) : list thread :=
  <[i := mkThread o p]> (threads d).

(** [sync], up to the wait. *)
Definition sync (i : nat) (o : op) (d : datastore) : datastore :=
  let k := key_sync o in
  if negb (hashable k) then mkCo (child d) (req d) (vals d) (at_place i o Panicked d) (log d)
  else match find_req k (req d) with
  | Some vs => mkCo (child d) (req d) (vals d) (at_place i o (Waits vs) d) (log d)
  | None =>
      let vs := length (vals d) in
      mkCo (child d) ((k, vs) :: req d) (vals d ++ [mkVs None false])
        (at_place i o (AtChild vs) d) (log d)
  end.

(** What a method returns of the [valSync]: [Put] returns its own [err], which
    nothing assigns. *)
Definition returns (o : op) (r : outcome) : outcome :=
  match o with OPut _ _ => RUnit (Ok tt) | _ => r end.

(** The call of the child. *)
Definition call_child (i : nat) (o : op) (vs : nat) (d : datastore) : datastore :=
  let '(r, s) := run_op o (child d) in
  mkCo s (req d) (<[vs := mkVs (Some r) false]> (vals d)) (at_place i o (AtDone vs) d)
    (log d ++ [(i, vs, r)]).

Definition close_done (vs : valSync) : valSync := mkVs (result vs) true.

(** [syncDone] and the return. *)
Definition syncDone (i : nat) (o : op) (vs : nat) (r : outcome) (d : datastore) : datastore :=
  let k := key_sync o in
  match find_req k (req d) with
  | None => mkCo (child d) (req d) (vals d) (at_place i o Panicked d) (log d)
  | Some vs' =>
      mkCo (child d) (delete_req k (req d)) (alter close_done vs' (vals d))
        (at_place i o (Returned vs (returns o r)) d) (log d)
  end.

(** [Put], [Get], [Has] and [Delete], a step at a time. *)
Inductive step : datastore -> datastore -> Prop :=
  | step_call d o :
      step d (mkCo (child d) (req d) (vals d) (threads d ++ [mkThread o AtSync]) (log d))
  | step_sync d i o :
      threads d !! i = Some (mkThread o AtSync) -> step d (sync i o d)
  | step_child d i o vs :
      threads d !! i = Some (mkThread o (AtChild vs)) -> step d (call_child i o vs d)
  | step_done d i o vs r b :
      threads d !! i = Some (mkThread o (AtDone vs)) -> vals d !! vs = Some (mkVs (Some r) b) ->
      step d (syncDone i o vs r d)
  | step_wait d i o vs r :
      threads d !! i = Some (mkThread o (Waits vs)) -> vals d !! vs = Some (mkVs (Some r) true) ->
      step d (mkCo (child d) (req d) (vals d) (at_place i o (Returned vs (returns o r)) d) (log d)).

Inductive steps : datastore -> datastore -> Prop :=
  | steps_refl d : steps d d
  | steps_next d d' d'' : steps d d' -> step d' d'' -> steps d d''.

(** [Query] is passed on. *)
Definition Query_ (q : Query) (s : S) : res Results * S := ds_Query q s.
End Coalesce.
Arguments datastore : clear implicits.
End Coalesce.

(** ** Invariant *)
Section Facts.
Import Coalesce.
Context {S : Type} `{Datastore S}.
Implicit Types d : Coalesce.datastore S.

Lemma find_req_Some ks vs l : NoDup l.*1 -> (ks, vs) ∈ l -> find_req ks l = Some vs.
Proof.
  unfold find_req. induction l as [|[ks' vs'] l IH]; [by intros _ ?%elem_of_nil|].
  rewrite fmap_cons, NoDup_cons, elem_of_cons, filter_cons. cbn [fst].
  intros [Hn Hnd] [[= <- <-]|Hin].
  - by rewrite decide_True.
  - rewrite decide_False; [by apply IH|]. intros ->. apply Hn, list_elem_of_fmap. by exists (ks, vs).
Qed.

Lemma find_req_elem ks vs l : find_req ks l = Some vs -> (ks, vs) ∈ l.
Proof.
  unfold find_req. destruct (filter _ l) as [|[ks' vs'] l'] eqn:Hf; [done|]. intros [= ->].
  assert ((ks', vs) ∈ filter (fun p : keySync * nat => p.1 = ks) l) as Hin by (rewrite Hf; by left).
  apply list_elem_of_filter in Hin as [Hk Hin]. simpl in Hk. by subst.
Qed.

Lemma find_req_None ks vs l : find_req ks l = None -> (ks, vs) ∉ l.
Proof.
  intros Hf Hin. unfold find_req in Hf.
  assert ((ks, vs) ∈ filter (fun p : keySync * nat => p.1 = ks) l) as Hin' by by apply list_elem_of_filter.
  destruct (filter _ l); [by apply elem_of_nil in Hin'|done].
Qed.

(** The goroutine that has the request of a [valSync] in hand. *)
Definition leads (t : thread) (vs : nat) : Prop := t_place t = AtChild vs \/ t_place t = AtDone vs.

(** The results the child gave for a [valSync]. *)
Definition calls_of (vs : nat) (l : list (nat * nat * outcome)) : list outcome :=
  map snd (filter (fun p => p.1.2 = vs) l).

(** [keys] are the requests for which the values of type [valSync] were made. *)
Definition thread_ok (keys : list keySync) d (t : thread) : Prop :=
  match t_place t with
  | AtSync | Panicked => True
  | AtChild vs =>
      keys !! vs = Some (key_sync (t_op t)) /\ (key_sync (t_op t), vs) ∈ req d
      /\ vals d !! vs = Some (mkVs None false)
  | AtDone vs =>
      keys !! vs = Some (key_sync (t_op t)) /\ (key_sync (t_op t), vs) ∈ req d
      /\ exists r, vals d !! vs = Some (mkVs (Some r) false)
  | Waits vs => keys !! vs = Some (key_sync (t_op t))
  | Returned vs r =>
      keys !! vs = Some (key_sync (t_op t))
      /\ exists r', vals d !! vs = Some (mkVs (Some r') true) /\ r = returns (t_op t) r'
  end.

Record inv (keys : list keySync) d : Prop := {
  co_keys : length keys = length (vals d);
  co_thread i t : threads d !! i = Some t -> thread_ok keys d t;
  co_req ks vs : (ks, vs) ∈ req d -> keys !! vs = Some ks;
  co_nodup : NoDup (req d).*1;
  co_open vs r : vals d !! vs = Some (mkVs r false) ->
    exists i t, threads d !! i = Some t /\ leads t vs;
  co_one i j ti tj vs : threads d !! i = Some ti -> threads d !! j = Some tj ->
    leads ti vs -> leads tj vs -> i = j;
  co_log vs : calls_of vs (log d) = match vals d !! vs with Some (mkVs (Some r) _) => [r] | _ => [] end;
  co_done vs : vals d !! vs <> Some (mkVs None true);
}.

Lemma inv_Wrap s : inv [] (Wrap s).
Proof.
  constructor; simpl; try done; try (intros *; rewrite lookup_nil; done).
  - intros ks vs Hin. by apply elem_of_nil in Hin.
  - constructor.
Qed.

Lemma thread_ok_mono keys keys' d d' t :
  (forall vs ks, keys !! vs = Some ks -> keys' !! vs = Some ks) ->
  (forall vs, leads t vs -> (key_sync (t_op t), vs) ∈ req d -> (key_sync (t_op t), vs) ∈ req d') ->
  (forall vs, leads t vs -> vals d' !! vs = vals d !! vs) ->
  (forall vs r, vals d !! vs = Some (mkVs (Some r) true) -> vals d' !! vs = Some (mkVs (Some r) true)) ->
  thread_ok keys d t -> thread_ok keys' d' t.
Proof.
  intros Hkeys Hreq Hvals Hdone. unfold thread_ok, leads in *.
  destruct (t_place t) as [|vs|vs|vs|vs r|]; try done.
  - intros (? & ? & ?). rewrite Hvals by by left. split_and!; [by apply Hkeys| |done].
    apply Hreq; [by left|done].
  - intros (? & ? & ?). rewrite Hvals by by right. split_and!; [by apply Hkeys| |done].
    apply Hreq; [by right|done].
  - apply Hkeys.
  - intros (? & r' & ? & ?). split; [by apply Hkeys|]. exists r'. split; [by apply Hdone|done].
Qed.

(** Steps that leave the requests alone. *)
Lemma inv_move keys d i t t' :
  inv keys d -> threads d !! i = Some t ->
  (forall vs, ~ leads t vs) -> (forall vs, ~ leads t' vs) -> thread_ok keys d t' ->
  inv keys (mkCo (child d) (req d) (vals d) (<[i := t']> (threads d)) (log d)).
Proof.
  intros [Hk Ht Hr Hnd Ho Hu Hl Hd] Hi Hnl Hnl' Hok.
  constructor; cbn [threads req vals log]; try done.
  - intros j tj [(-> & <- & _)|[_ Hj]]%list_lookup_insert_Some; [done|by apply (Ht j)].
  - intros vs r (j & tj & Hj & Hlj)%Ho. exists j, tj. split; [|done].
    rewrite list_lookup_insert_ne; [done|]. intros ->. simplify_eq. by eapply Hnl.
  - intros j k tj tk vs [(-> & <- & _)|[_ Hj]]%list_lookup_insert_Some
      [(-> & <- & _)|[_ Hk']]%list_lookup_insert_Some Hlj Hlk; [done|by edestruct Hnl'..|by eapply Hu].
Qed.

Lemma inv_call keys d o :
  inv keys d -> inv keys (mkCo (child d) (req d) (vals d) (threads d ++ [mkThread o AtSync]) (log d)).
Proof.
  intros [Hk Ht Hr Hnd Ho Hu Hl Hd].
  assert (Hnew : forall j tj, (threads d ++ [mkThread o AtSync]) !! j = Some tj ->
    threads d !! j = Some tj \/ tj = mkThread o AtSync).
  { intros j tj [Hj|[_ Hj]]%lookup_app_Some; [by left|right].
    by apply list_lookup_singleton_Some in Hj as [_ ->]. }
  constructor; cbn [threads req vals log]; try done.
  - intros j tj [Hj| ->]%Hnew; [by apply (Ht j)|done].
  - intros vs r (j & tj & Hj & Hlj)%Ho. exists j, tj. split; [by apply lookup_app_l_Some|done].
  - intros j k tj tk vs [Hj| ->]%Hnew [Hk'| ->]%Hnew Hlj Hlk; [by eapply Hu|by destruct Hlk|by destruct Hlj..].
Qed.

Lemma leads_unique t vs vs' : leads t vs -> leads t vs' -> vs = vs'.
Proof. unfold leads. destruct (t_place t); naive_solver. Qed.

Lemma inv_new keys d i o :
  inv keys d -> threads d !! i = Some (mkThread o AtSync) -> find_req (key_sync o) (req d) = None ->
  let vs := length (vals d) in
  inv (keys ++ [key_sync o])
    (mkCo (child d) ((key_sync o, vs) :: req d) (vals d ++ [mkVs None false])
       (<[i := mkThread o (AtChild vs)]> (threads d)) (log d)).
Proof.
  intros [Hk Ht Hr Hnd Ho Hu Hl Hd] Hi Hf vs. pose proof (lookup_lt_Some _ _ _ Hi) as Hlt.
  assert (Hold : forall w v, vals d !! w = Some v -> w <> vs).
  { intros w v Hw%lookup_lt_Some ->. unfold vs in Hw. lia. }
  assert (Hlold : forall j tj w, threads d !! j = Some tj -> leads tj w -> exists v, vals d !! w = Some v).
  { intros j tj w Hj [Hp|Hp]; specialize (Ht j tj Hj); unfold thread_ok in Ht; rewrite Hp in Ht;
      naive_solver. }
  constructor; cbn [threads req vals log].
  - rewrite !length_app, Hk. done.
  - intros j tj [(-> & <- & _)|[_ Hj]]%list_lookup_insert_Some.
    + unfold thread_ok. cbn [t_place t_op req vals]. split_and!.
      * unfold vs. rewrite <- Hk. by rewrite lookup_app_r, Nat.sub_diag.
      * by left.
      * unfold vs. by rewrite lookup_app_r, Nat.sub_diag.
    + eapply (thread_ok_mono keys _ d); [..|by apply (Ht j)]; cbn [req vals].
      * intros w ks Hw. by apply lookup_app_l_Some.
      * intros w _ Hin. by right.
      * intros w Hw. destruct (Hlold j tj w Hj Hw) as [v Hv]. rewrite Hv. by apply lookup_app_l_Some.
      * intros w r Hw. by apply lookup_app_l_Some.
  - intros ks w [[= -> ->]|Hin]%elem_of_cons.
    + unfold vs. rewrite <- Hk. by rewrite lookup_app_r, Nat.sub_diag.
    + by apply lookup_app_l_Some, Hr.
  - rewrite fmap_cons. apply NoDup_cons. split; [|done]. cbn [fst].
    intros ([ks w] & Hks & Hin)%list_elem_of_fmap. simpl in Hks. subst ks.
    by apply (find_req_None _ w _ Hf).
  - intros w r [Hw|[Hw1 Hw2]]%lookup_app_Some.
    + destruct (Ho w r Hw) as (j & tj & Hj & Hlj). exists j, tj. split; [|done].
      rewrite list_lookup_insert_ne; [done|]. intros ->. simplify_eq. by destruct Hlj.
    + apply list_lookup_singleton_Some in Hw2 as [Hw2 _]. assert (w = vs) as -> by (unfold vs; lia).
      exists i, (mkThread o (AtChild vs)). rewrite list_lookup_insert_eq by done. split; [done|by left].
  - intros j k tj tk w [(-> & <- & _)|[Hij Hj]]%list_lookup_insert_Some
      [(-> & <- & _)|[Hik Hk']]%list_lookup_insert_Some Hlj Hlk; [done| | |by eapply Hu].
    + destruct (Hlold _ _ _ Hk' Hlk) as [v Hv]. exfalso. apply (Hold _ _ Hv). by destruct Hlj as [[= <-]|].
    + destruct (Hlold _ _ _ Hj Hlj) as [v Hv]. exfalso. apply (Hold _ _ Hv). by destruct Hlk as [[= <-]|].
  - intros w. rewrite Hl. destruct (vals d !! w) as [v|] eqn:Hw.
    + by rewrite (lookup_app_l_Some _ _ _ _ Hw).
    + apply lookup_ge_None in Hw. rewrite lookup_app_r by done.
      by destruct (w - length (vals d)).
  - intros w [Hw|[_ Hw]]%lookup_app_Some; [by apply (Hd w)|].
    by apply list_lookup_singleton_Some in Hw as [_ [=]].
Qed.

Lemma inv_child keys d i o vs :
  inv keys d -> threads d !! i = Some (mkThread o (AtChild vs)) -> inv keys (call_child i o vs d).
Proof.
  intros [Hk Ht Hr Hnd Ho Hu Hl Hd] Hi. pose proof (lookup_lt_Some _ _ _ Hi) as Hlt.
  destruct (Ht i _ Hi) as (Hkey & Hreq & Hval). cbn [t_op] in *.
  pose proof (lookup_lt_Some _ _ _ Hval) as Hvlt.
  unfold call_child, at_place. destruct (run_op o (child d)) as [r s].
  constructor; cbn [threads req vals log]; [by rewrite length_insert| |done..| | | |].
  - intros j tj [(-> & <- & _)|[Hij Hj]]%list_lookup_insert_Some.
    + unfold thread_ok. cbn [t_place t_op req vals]. split_and!; [done..|]. exists r.
      by rewrite list_lookup_insert_eq.
    + eapply (thread_ok_mono keys _ d); [done|done| | |by apply (Ht j)]; cbn [req vals].
      * intros w Hw. rewrite list_lookup_insert_ne; [done|]. intros <-. apply Hij.
        eapply (Hu i j); [done..| |done]. by left.
      * intros w r' Hw. rewrite list_lookup_insert_ne; [done|]. intros <-. congruence.
  - intros w r' [(-> & [= <-] & _)|[Hne Hw]]%list_lookup_insert_Some.
    + exists i, (mkThread o (AtDone w)). rewrite list_lookup_insert_eq by done.
      split; [done|by right].
    + destruct (Ho w r' Hw) as (j & tj & Hj & Hlj). exists j, tj. split; [|done].
      rewrite list_lookup_insert_ne; [done|]. intros ->. simplify_eq. by destruct Hlj; simplify_eq/=.
  - assert (Hlead : leads (mkThread o (AtChild vs)) vs) by by left.
    assert (Hback : forall w, leads (mkThread o (AtDone vs)) w -> w = vs)
      by (intros w [?|?]; simplify_eq/=; done).
    intros j k tj tk w [(-> & <- & _)|[Hij Hj]]%list_lookup_insert_Some
      [(-> & <- & _)|[Hik Hk']]%list_lookup_insert_Some Hlj Hlk; [done| | |by eapply Hu].
    + apply Hback in Hlj as ->. by eapply Hu.
    + apply Hback in Hlk as ->. by eapply Hu.
  - intros w. unfold calls_of in *. rewrite filter_app, map_app, Hl, filter_cons. cbn [fst snd].
    destruct (decide (vs = w)) as [->|Hne].
    + rewrite Hval, list_lookup_insert_eq by done. done.
    + rewrite list_lookup_insert_ne by done. by rewrite app_nil_r.
  - intros w [(_ & [=] & _)|[_ Hw]]%list_lookup_insert_Some. by apply (Hd w).
Qed.

Lemma inv_done keys d i o vs r :
  inv keys d -> threads d !! i = Some (mkThread o (AtDone vs)) ->
  (exists b, vals d !! vs = Some (mkVs (Some r) b)) -> inv keys (syncDone i o vs r d).
Proof.
  intros [Hk Ht Hr Hnd Ho Hu Hl Hd] Hi [b Hb]. pose proof (lookup_lt_Some _ _ _ Hi) as Hlt.
  destruct (Ht i _ Hi) as (Hkey & Hreq & r' & Hval). cbn [t_op] in *.
  assert (r' = r) as -> by congruence. clear b Hb.
  unfold syncDone, at_place. rewrite (find_req_Some _ _ _ Hnd Hreq).
  assert (Hlead : leads (mkThread o (AtDone vs)) vs) by by right.
  assert (Hnl : forall w, ~ leads (mkThread o (Returned vs (returns o r))) w) by by intros w [?|?].
  assert (Hother : forall w, w <> vs -> alter close_done vs (vals d) !! w = vals d !! w)
    by (intros w Hw; by apply list_lookup_alter_ne).
  assert (Hsame : alter close_done vs (vals d) !! vs = Some (mkVs (Some r) true))
    by by rewrite list_lookup_alter_eq, Hval.
  constructor; cbn [threads req vals log]; [by rewrite length_alter| | | | | | |].
  - intros j tj [(-> & <- & _)|[Hij Hj]]%list_lookup_insert_Some.
    + unfold thread_ok. cbn [t_place t_op req vals]. split; [done|]. by exists r.
    + assert (Hne : forall w, leads tj w -> w <> vs).
      { intros w Hw ->. apply Hij. by eapply (Hu i j). }
      eapply (thread_ok_mono keys _ d); [done| | | |by apply (Ht j)]; cbn [req vals].
      * intros w Hw Hin. apply list_elem_of_filter. split; [|done]. cbn [fst]. intros Heq.
        apply (Hne w Hw). rewrite Heq in Hin.
        pose proof (find_req_Some _ _ _ Hnd Hin). pose proof (find_req_Some _ _ _ Hnd Hreq). congruence.
      * intros w Hw. by apply Hother, Hne.
      * intros w r' Hw. rewrite Hother; [done|]. intros ->. congruence.
  - intros ks w [_ Hin]%list_elem_of_filter. by apply Hr.
  - unfold delete_req. clear -Hnd. induction (req d) as [|[ks w] l IH]; [constructor|].
    rewrite fmap_cons in Hnd. apply NoDup_cons in Hnd as [Hn Hnd]. rewrite filter_cons.
    destruct (decide _); [|by apply IH]. rewrite fmap_cons. apply NoDup_cons. split; [|by apply IH].
    intros (p & Hp & [_ Hin]%list_elem_of_filter)%list_elem_of_fmap. apply Hn.
    rewrite Hp. by apply list_elem_of_fmap_2.
  - intros w r' Hw. destruct (decide (w = vs)) as [->|Hne]; [congruence|].
    rewrite Hother in Hw by done. destruct (Ho w r' Hw) as (j & tj & Hj & Hlj). exists j, tj.
    split; [|done]. rewrite list_lookup_insert_ne; [done|]. intros ->. simplify_eq.
    apply Hne. by eapply leads_unique.
  - intros j k tj tk w [(-> & <- & _)|[Hij Hj]]%list_lookup_insert_Some
      [(-> & <- & _)|[Hik Hk']]%list_lookup_insert_Some Hlj Hlk; [done|by edestruct Hnl..|by eapply Hu].
  - intros w. rewrite Hl. destruct (decide (w = vs)) as [->|Hne]; [by rewrite Hval, Hsame|].
    by rewrite Hother.
  - intros w Hw. destruct (decide (w = vs)) as [->|Hne]; [congruence|].
    rewrite Hother in Hw by done. by apply (Hd w).
Qed.

Lemma inv_step keys d d' : inv keys d -> step d d' -> exists keys', inv keys' d'.
Proof.
  intros Hinv Hstep. pose proof Hinv as [_ Ht _ _ _ _ _ _].
  destruct Hstep as [d o|d i o Hi|d i o vs Hi|d i o vs r b Hi Hv|d i o vs r Hi Hv].
  - exists keys. by apply inv_call.
  - unfold sync. destruct (negb _).
    + exists keys. by eapply inv_move; [done|exact Hi|intros ? [?|?]..|].
    + destruct (find_req _ _) as [vs|] eqn:Hf.
      * exists keys. eapply inv_move; [done|exact Hi|by intros ? [?|?]..|].
        by apply (co_req _ _ Hinv), find_req_elem.
      * eexists. by apply inv_new.
  - exists keys. by apply inv_child.
  - exists keys. apply inv_done; [done..|by eexists].
  - exists keys. eapply inv_move; [done|exact Hi|by intros ? [?|?]..|].
    specialize (Ht i _ Hi). split; [exact Ht|by exists r].
Qed.

Lemma reach_inv s d : steps (Wrap s) d -> exists keys, inv keys d.
Proof.
  intros Hs. remember (Wrap s) as d0 eqn:Hd0. induction Hs as [d|d d' d'' _ IH Hst]; subst.
  - exists []. apply inv_Wrap.
  - destruct IH as [keys Hk]; [done|]. by eapply inv_step.
Qed.

(** Coalesced calls yield the same result: the calls that share a request are
    the same call on the same key, the child was called exactly once for all of
    them, and each returns what the child returned, except that a [Put] returns no
    error whatever the child returned. *)
Theorem coalesce_one_call s d i j ti tj vs ri rj :
  steps (Wrap s) d -> threads d !! i = Some ti -> threads d !! j = Some tj ->
  t_place ti = Returned vs ri -> t_place tj = Returned vs rj ->
  key_sync (t_op ti) = key_sync (t_op tj) /\ exists r, calls_of vs (log d) = [r]
    /\ ri = returns (t_op ti) r /\ rj = returns (t_op tj) r.
Proof.
  intros [keys Hinv]%reach_inv Hi Hj Hpi Hpj. pose proof Hinv as [_ Ht _ _ _ _ Hl _].
  pose proof (Ht i ti Hi) as Hti. pose proof (Ht j tj Hj) as Htj.
  unfold thread_ok in Hti, Htj. rewrite Hpi in Hti. rewrite Hpj in Htj.
  destruct Hti as (Hki & r & Hv & ->), Htj as (Hkj & r' & Hv' & ->).
  split; [congruence|]. exists r. rewrite Hl, Hv. split_and!; [done..|]. congruence.
Qed.

End Facts.

(** ** Runs *)

(** One more step of a run, by the rule [rule]. *)
Tactic Notation "run" hyp(H) "by" uconstr(rule) :=
  let H' := fresh in
  pose proof (Coalesce.steps_next _ _ _ H ltac:(eapply rule; reflexivity)) as H'; clear H; rename H' into H.

Definition key_a : Key := NewKey (str "a").

Lemma get_twice `{!GoRange Key} (s : MapDatastore.MapDatastore) :
  exists d r, Coalesce.steps (Coalesce.Wrap s) d
    /\ Coalesce.threads d = [Coalesce.mkThread (OGet key_a) (Coalesce.Returned 0 r);
                             Coalesce.mkThread (OGet key_a) (Coalesce.Returned 0 r)].
Proof.
  pose proof (Coalesce.steps_refl (Coalesce.Wrap s)) as H.
  run H by (Coalesce.step_call _ (OGet key_a)).
  run H by (Coalesce.step_call _ (OGet key_a)).
  run H by (Coalesce.step_sync _ 0).
  run H by (Coalesce.step_sync _ 1).
  run H by (Coalesce.step_child _ 0).
  run H by (Coalesce.step_done _ 0).
  run H by (Coalesce.step_wait _ 1).
  by eexists _, _.
Qed.

Lemma coalesce_one_call_witness :
  let R := elements_range Key in
  exists (d : Coalesce.datastore MapDatastore.MapDatastore) r, Coalesce.threads d
      = [Coalesce.mkThread (OGet key_a) (Coalesce.Returned 0 r);
         Coalesce.mkThread (OGet key_a) (Coalesce.Returned 0 r)]
    /\ exists r', calls_of 0 (Coalesce.log d) = [r'] /\ r = r'.
Proof.
  intros R. destruct (get_twice MapDatastore.NewMapDatastore) as (d & r & Hd & Ht).
  exists d, r. split; [exact Ht|].
  destruct (coalesce_one_call MapDatastore.NewMapDatastore d 0 1 (Coalesce.mkThread (OGet key_a) (Coalesce.Returned 0 r))
    (Coalesce.mkThread (OGet key_a) (Coalesce.Returned 0 r)) 0 r r Hd) as (_ & r' & Hc & Hr & _);
    [by rewrite Ht|by rewrite Ht|done|done|].
  by exists r'.
Defined.


(** A coalescing store is not linearizable: a [Get] that begins after a [Put] of
    the same key has returned may still return the value from before it, when an
    older [Get] of that key has read the child and not yet returned. *)
Theorem coalesce_stale_read `{!GoRange Key} :
  let s := MapDatastore.mkMap {[key_a := VOther 0]} in
  exists d d',
    Coalesce.steps (Coalesce.Wrap s) d /\ Coalesce.steps d d'
    /\ length (Coalesce.threads d) = 2
    /\ Coalesce.threads d !! 1
       = Some (Coalesce.mkThread (OPut key_a (VOther 1)) (Coalesce.Returned 1 (RUnit (Ok tt))))
    /\ MapDatastore.values (Coalesce.child d) !! key_a = Some (VOther 1)
    /\ Coalesce.threads d' !! 2
       = Some (Coalesce.mkThread (OGet key_a) (Coalesce.Returned 0 (RValue (Ok (VOther 0))))).
Proof.
  intros s. pose proof (Coalesce.steps_refl (Coalesce.Wrap s)) as H.
  run H by (Coalesce.step_call _ (OGet key_a)).
  run H by (Coalesce.step_sync _ 0).
  run H by (Coalesce.step_child _ 0).
  run H by (Coalesce.step_call _ (OPut key_a (VOther 1))).
  run H by (Coalesce.step_sync _ 1).
  run H by (Coalesce.step_child _ 1).
  run H by (Coalesce.step_done _ 1).
  match type of H with Coalesce.steps _ ?d => pose proof (Coalesce.steps_refl d) as H0; exists d end.
  run H0 by (Coalesce.step_call _ (OGet key_a)).
  run H0 by (Coalesce.step_sync _ 2).
  run H0 by (Coalesce.step_done _ 0).
  run H0 by (Coalesce.step_wait _ 2).
  match type of H0 with Coalesce.steps _ ?d => exists d end.
  split; [exact H|]. split; [exact H0|]. by vm_compute.
Qed.

(** [Put] returns no error when the child failed, whatever the goroutine that
    made the call or waited for it; and putting a byte slice, which is what the
    block store puts, panics before the child is called. *)
Theorem coalesce_Put_errors `{!GoRange Key} k b (d : Coalesce.datastore MapDatastore.MapDatastore) i :
  let s : Mount.Mount.datastore MapDatastore.MapDatastore := Mount.Mount.New [] [] in
  (exists d, Coalesce.steps (Coalesce.Wrap s) d
     /\ calls_of 0 (Coalesce.log d) = [RUnit (Err ErrNoMount)]
     /\ Coalesce.threads d
        = [Coalesce.mkThread (OPut key_a VNil) (Coalesce.Returned 0 (RUnit (Ok tt)))])
  /\ (i < length (Coalesce.threads d) ->
       let d' := Coalesce.sync i (OPut k (VBytes b)) d in
       Coalesce.threads d' !! i = Some (Coalesce.mkThread (OPut k (VBytes b)) Coalesce.Panicked)
       /\ Coalesce.child d' = Coalesce.child d).
Proof.
  intros s. split.
  - pose proof (Coalesce.steps_refl (Coalesce.Wrap s)) as H.
    run H by (Coalesce.step_call _ (OPut key_a VNil)).
    run H by (Coalesce.step_sync _ 0).
    run H by (Coalesce.step_child _ 0).
    run H by (Coalesce.step_done _ 0).
    eexists. split; [exact H|]. by vm_compute.
  - intros Hi. split; [|done]. by apply list_lookup_insert_eq.
Qed.
