(* ===== verification/Context.v ===== *)
(** * Contexts

    Models [Godeps/.../golang.org/x/net/context/context.go]: the tree of
    contexts that carry cancelation, deadlines and values to the goroutines of the
    block service. A context is a pointer, here an index; its immutable part (what
    it is and its parent) is in [ctxs], the mutable part of a [cancelCtx] in
    [cells]. Locks are taken from a parent to its children and held while the
    subtree is canceled, so that each operation is one step.

    The contexts are those of this package: the goroutine that
    [propagateCancel] starts for a parent of another package has no counterpart. *)

From S2P Require Import Prelude Query.

(** ** Data *)
Inductive ctx :=
  | emptyCtx (todo : bool)
  | cancelCtx (parent : nat)
  | timerCtx (parent : nat) (deadline : Z)
  | valueCtx (parent : nat) (key val : value).

(** The fields of [cancelCtx] that change, and whether the [timer] of a
    [timerCtx] is set. *)
Record cell := mkCell {
  done : bool;
  children : gset nat;
  err : option error;
  timer : bool;
}.

Record world := mkWorld { ctxs : list ctx; cells : gmap nat cell }.

(** [background] and [todo]. *)
Definition Background : nat := 0.
Definition TODO : nat := 1.
Definition package : world := mkWorld [emptyCtx false; emptyCtx true] ∅.

(** ** Methods that look up the tree

    A parent is made before its child, so its index is smaller and the index
    bounds the walk. *)
Fixpoint parentCancel_loop (fuel : nat) (cs : list ctx) (parent : nat) : option nat :=
  match fuel with
  | O => None
  | S fuel =>
      match cs !! parent with
      | Some (cancelCtx _) | Some (timerCtx _ _) => Some parent
      | Some (valueCtx p _ _) => parentCancel_loop fuel cs p
      | _ => None
      end
  end.
Definition parentCancelCtx (cs : list ctx) (parent : nat) : option nat :=
  parentCancel_loop (S parent) cs parent.

(** [Done]: the context whose channel it is, [None] for the nil channel. *)
Fixpoint Done_loop (fuel : nat) (cs : list ctx) (c : nat) : option nat :=
  match fuel with
  | O => None
  | S fuel =>
      match cs !! c with
      | Some (cancelCtx _) | Some (timerCtx _ _) => Some c
      | Some (valueCtx p _ _) => Done_loop fuel cs p
      | _ => None
      end
  end.
Definition Done (w : world) (c : nat) : option nat := Done_loop (S c) (ctxs w) c.

(** Is the channel closed? The nil channel never is. *)
Definition Done_closed (w : world) (c : nat) : bool :=
  match Done w c with
  | Some d => match cells w !! d with Some x => done x | None => false end
  | None => false
  end.

Fixpoint Err_loop (fuel : nat) (w : world) (c : nat) : option error :=
  match fuel with
  | O => None
  | S fuel =>
      match ctxs w !! c with
      | Some (cancelCtx _) | Some (timerCtx _ _) => x ← cells w !! c; err x
      | Some (valueCtx p _ _) => Err_loop fuel w p
      | _ => None
      end
  end.
Definition Err (w : world) (c : nat) : option error := Err_loop (S c) w c.

Fixpoint Deadline_loop (fuel : nat) (cs : list ctx) (c : nat) : option Z :=
  match fuel with
  | O => None
  | S fuel =>
      match cs !! c with
      | Some (timerCtx _ deadline) => Some deadline
      | Some (cancelCtx p) | Some (valueCtx p _ _) => Deadline_loop fuel cs p
      | _ => None
      end
  end.
Definition Deadline (cs : list ctx) (c : nat) : option Z := Deadline_loop (S c) cs c.

(** [c.key == key] on interfaces panics when both are byte slices. *)
Definition keys_equal (k1 k2 : value) : res bool :=
  match k1, k2 with
  | VBytes _, VBytes _ => Panic
  | _, _ => Ok (bool_decide (k1 = k2))
  end.

Fixpoint Value_loop (fuel : nat) (cs : list ctx) (c : nat) (key : value) : res value :=
  match fuel with
  | O => Ok VNil
  | S fuel =>
      match cs !! c with
      | Some (valueCtx p k v) =>
          eq ← keys_equal k key;
          if eq : bool then Ok v else Value_loop fuel cs p key
      | Some (cancelCtx p) | Some (timerCtx p _) => Value_loop fuel cs p key
      | _ => Ok VNil
      end
  end.
Definition Value (cs : list ctx) (c : nat) (key : value) : res value := Value_loop (S c) cs c key.

(** ** Cancelation *)
Section Cancel.
Context `{!GoRange nat}.

Definition set_cell (c : nat) (x : cell) (w : world) : world := mkWorld (ctxs w) (<[c := x]> (cells w)).

Definition removeChild (parent child : nat) (w : world) : world :=
  match parentCancelCtx (ctxs w) parent with
  | None => w
  | Some p =>
      match cells w !! p with
      | Some x => set_cell p (mkCell (done x) (children x ∖ {[child]}) (err x) (timer x)) w
      | None => w
      end
  end.

(** [c.timer.Stop(); c.timer = nil], when there is one. *)
Definition stop_timer (c : nat) (w : world) : world :=
  match cells w !! c with
  | Some x => set_cell c (mkCell (done x) (children x) (err x) false) w
  | None => w
  end.

(** [cancelCtx.cancel] and [timerCtx.cancel]; [rec] cancels a child without
    removing it. *)
Definition cancel_body (rec : nat -> world -> world) (e : error) (c : nat) (w : world) : world :=
  match cells w !! c with
  | None => w
  | Some x =>
      match err x with
      | Some _ => w
      | None =>
          let w := set_cell c (mkCell true (children x) (Some e) (timer x)) w in
          let w := fold_left (fun w child => rec child w) (go_range (children x)) w in
          match cells w !! c with
          | Some x => set_cell c (mkCell (done x) ∅ (err x) (timer x)) w
          | None => w
          end
      end
  end.

Fixpoint cancel_loop (fuel : nat) (removeFromParent : bool) (e : error) (c : nat) (w : world) : world :=
  match fuel with
  | O => w
  | S fuel =>
      match ctxs w !! c with
      | Some (cancelCtx parent) =>
          let w' := cancel_body (cancel_loop fuel false e) e c w in
          match cells w !! c with
          | Some (mkCell _ _ None _) => if removeFromParent then removeChild parent c w' else w'
          | _ => w'
          end
      | Some (timerCtx parent _) =>
          let w := cancel_body (cancel_loop fuel false e) e c w in
          let w := if removeFromParent then removeChild parent c w else w in
          stop_timer c w
      | _ => w
      end
  end.

(** A child's index is larger than its parent's: the number of contexts bounds
    the depth. *)
Definition cancel (removeFromParent : bool) (e : error) (c : nat) (w : world) : world :=
  cancel_loop (S (length (ctxs w))) removeFromParent e c w.

(** ** Making contexts *)

Definition propagateCancel (parent child : nat) (w : world) : world :=
  match Done w parent with
  | None => w
  | Some _ =>
      match parentCancelCtx (ctxs w) parent with
      | Some p =>
          match cells w !! p with
          | Some x =>
              match err x with
              | Some e => cancel false e child w
              | None => set_cell p (mkCell (done x) (children x ∪ {[child]}) (err x) (timer x)) w
              end
          | None => w
          end
      | None => w
      end
  end.

(** A new context, and with [newCancelCtx] its cell. *)
Definition alloc (c : ctx) (w : world) : nat * world :=
  (length (ctxs w), mkWorld (ctxs w ++ [c]) (cells w)).
Definition newCancelCtx (c : ctx) (w : world) : nat * world :=
  let '(i, w) := alloc c w in (i, set_cell i (mkCell false ∅ None false) w).

Definition WithCancel (parent : nat) (w : world) : nat * world :=
  let '(c, w) := newCancelCtx (cancelCtx parent) w in
  (c, propagateCancel parent c w).

(** The function returned with a context. *)
Definition CancelFunc (c : nat) (w : world) : world := cancel true Canceled c w.

(** [c.timer = time.AfterFunc(...)], unless the context is canceled. *)
Definition start_timer (c : nat) (w : world) : world :=
  match cells w !! c with
  | Some x =>
      match err x with
      | None => set_cell c (mkCell (done x) (children x) (err x) true) w
      | Some _ => w
      end
  | None => w
  end.

Definition WithDeadline (now : Z) (parent : nat) (deadline : Z) (w : world) : nat * world :=
  if match Deadline (ctxs w) parent with Some cur => (cur <? deadline)%Z | None => false end
  then WithCancel parent w
  else
    let '(c, w) := newCancelCtx (timerCtx parent deadline) w in
    let w := propagateCancel parent c w in
    let d := (deadline - now)%Z in
    if (d <=? 0)%Z then (c, cancel true DeadlineExceeded c w)
    else (c, start_timer c w).

Definition WithTimeout (now : Z) (parent : nat) (timeout : Z) (w : world) : nat * world :=
  WithDeadline now parent (now + timeout) w.

Definition WithValue (parent : nat) (key val : value) (w : world) : nat * world :=
  alloc (valueCtx parent key val) w.

(** What can happen: a context is made from one there is, the function returned
    with a context is called, a timer that is set goes off. *)
Inductive step (w : world) : world -> Prop :=
  | step_WithCancel p : p < length (ctxs w) -> step w (WithCancel p w).2
  | step_WithDeadline now p d : p < length (ctxs w) -> step w (WithDeadline now p d w).2
  | step_WithValue p k v : p < length (ctxs w) -> step w (WithValue p k v w).2
  | step_CancelFunc c x : cells w !! c = Some x -> step w (CancelFunc c w)
  | step_timer c x : cells w !! c = Some x -> timer x = true ->
      step w (cancel true DeadlineExceeded c w).

Inductive reachable : world -> Prop :=
  | reach_init : reachable package
  | reach_step w w' : reachable w -> step w w' -> reachable w'.
End Cancel.
