(* ===== verification/ContextFacts.v ===== *)
(** * Contexts: the tree and what canceling does to it

    The lemmas behind [ContextProps]: the walk to the nearest cancelable
    ancestor, the part of the tree below a context, the exact effect of [cancel],
    and the invariant of all reachable trees. *)

From S2P Require Import Prelude Query Context.

(** ** The tree *)
Definition parent_of (c : ctx) : option nat :=
  match c with
  | emptyCtx _ => None
  | cancelCtx p | timerCtx p _ | valueCtx p _ _ => Some p
  end.

(** It can be canceled: [canceler] in the code. *)
Definition canceler (cs : list ctx) (c : nat) : Prop :=
  match cs !! c with Some (cancelCtx _) | Some (timerCtx _ _) => True | _ => False end.

Definition tree_wf (cs : list ctx) : Prop :=
  forall i c p, cs !! i = Some c -> parent_of c = Some p -> p < i.

(** The nearest cancelable ancestor of a cancelable context. *)
Definition up (cs : list ctx) (c : nat) : option nat :=
  match cs !! c with
  | Some (cancelCtx p) | Some (timerCtx p _) => parentCancelCtx cs p
  | _ => None
  end.

Section Tree.
Variable cs : list ctx.
Hypothesis Hwf : tree_wf cs.

Lemma parentCancel_fuel f1 f2 p :
  p < f1 -> p < f2 -> parentCancel_loop f1 cs p = parentCancel_loop f2 cs p.
Proof.
  revert f2 p. induction f1 as [|f1 IH]; intros [|f2] p H1 H2; [lia..|]. simpl.
  destruct (cs !! p) as [[]|] eqn:Hp; try done.
  pose proof (Hwf _ _ _ Hp eq_refl). apply IH; lia.
Qed.

Lemma parentCancel_Some p q :
  parentCancelCtx cs p = Some q -> q <= p /\ canceler cs q.
Proof.
  unfold parentCancelCtx. generalize (S p) as f. intros f. revert p.
  induction f as [|f IH]; intros p; [done|]. simpl. unfold canceler.
  destruct (cs !! p) as [[b|p'|p' d|p' k v]|] eqn:Hp; try done.
  - intros [= ->]. by rewrite Hp.
  - intros [= ->]. by rewrite Hp.
  - intros [Hq Hc]%IH. pose proof (Hwf _ _ _ Hp eq_refl). split; [lia|done].
Qed.

Lemma parentCancel_canceler c : canceler cs c -> parentCancelCtx cs c = Some c.
Proof. unfold canceler, parentCancelCtx. simpl. by destruct (cs !! c) as [[]|]. Qed.

Lemma parentCancel_value c p k v :
  cs !! c = Some (valueCtx p k v) -> parentCancelCtx cs c = parentCancelCtx cs p.
Proof.
  intros Hc. pose proof (Hwf _ _ _ Hc eq_refl). unfold parentCancelCtx at 1. simpl.
  rewrite Hc. apply parentCancel_fuel; lia.
Qed.

Lemma up_lt c p : up cs c = Some p -> p < c /\ canceler cs p /\ canceler cs c.
Proof.
  unfold up, canceler at 2. destruct (cs !! c) as [[b|p'|p' d|p' k v]|] eqn:Hc; try done;
    intros [Hp ?]%parentCancel_Some; pose proof (Hwf _ _ _ Hc eq_refl); split_and!; (done || lia).
Qed.

(** The cancelable contexts below [c]. *)
Inductive below (c : nat) : nat -> Prop :=
  | below_refl : below c c
  | below_up x p : up cs x = Some p -> below c p -> below c x.

Lemma below_le c x : below c x -> c <= x.
Proof. induction 1 as [|x p Hx _ IH]; [done|]. apply up_lt in Hx as [? _]. lia. Qed.

Lemma below_trans a b x : below a b -> below b x -> below a x.
Proof. intros Hab. induction 1; [done|]. by eapply below_up. Qed.

Lemma below_down c x : below c x -> x = c \/ exists ch, up cs ch = Some c /\ below ch x.
Proof.
  induction 1 as [|x p Hx _ [->|(ch & Hch & IH)]]; [by left|right|right].
  - exists x. split; [done|constructor].
  - exists ch. split; [done|]. by eapply below_up.
Qed.

Lemma below_linear a b x : below a x -> below b x -> below a b \/ below b a.
Proof.
  induction 1 as [|x p Hx Hap IH]; [by right|].
  intros Hb. inversion Hb as [|? p' Hx' Hbp]; subst.
  - left. by eapply below_up.
  - simplify_eq. auto.
Qed.

(** Two children of one context have nothing in common below them. *)
Lemma below_siblings c a b x :
  up cs a = Some c -> up cs b = Some c -> below a x -> below b x -> a = b.
Proof.
  intros Ha Hb Hax Hbx. assert (Hone : forall a b, up cs a = Some c -> up cs b = Some c -> below a b -> a = b).
  { clear - Hwf. intros a b Ha Hb Hab. inversion Hab as [|? p Hp Hap]; [done|]. simplify_eq.
    apply below_le in Hap. apply up_lt in Ha as [? _]. lia. }
  destruct (below_linear a b x Hax Hbx); [by apply Hone|symmetry; by apply Hone].
Qed.

Lemma below_em c x : below c x \/ ~ below c x.
Proof.
  induction (lt_wf x) as [x _ IH]. destruct (decide (x = c)) as [->|Hne]; [left; constructor|].
  destruct (up cs x) as [p|] eqn:Hx.
  - destruct (IH p) as [Hp|Hp]; [by apply up_lt in Hx as [? _]|left; by eapply below_up|right].
    intros Hb. inversion Hb; simplify_eq.
  - right. intros Hb. inversion Hb; simplify_eq.
Qed.
End Tree.

Lemma lookup_app_lt {A} (l k : list A) i : i < length l -> (l ++ k) !! i = l !! i.
Proof. apply lookup_app_l. Qed.

Lemma parentCancel_app cs k p :
  tree_wf cs -> p < length cs -> parentCancelCtx (cs ++ k) p = parentCancelCtx cs p.
Proof.
  intros Hwf. unfold parentCancelCtx. generalize (S p) as f. intros f. revert p.
  induction f as [|f IH]; intros p Hp; [done|]. simpl. rewrite lookup_app_lt by done.
  destruct (cs !! p) as [[]|] eqn:Hc; try done. apply IH. pose proof (Hwf _ _ _ Hc eq_refl). lia.
Qed.

Lemma up_app cs k c : tree_wf cs -> c < length cs -> up (cs ++ k) c = up cs c.
Proof.
  intros Hwf Hc. unfold up. rewrite lookup_app_lt by done.
  destruct (cs !! c) as [[]|] eqn:Hx; try done; pose proof (Hwf _ _ _ Hx eq_refl);
    apply parentCancel_app; (done || lia).
Qed.

(** ** What canceling does *)

(** A cell once its context is canceled. *)
Definition kill (e : error) (x : cell) : cell :=
  match err x with Some _ => x | None => mkCell true ∅ (Some e) false end.

Definition live (w : world) (c : nat) : Prop := exists x, cells w !! c = Some x /\ err x = None.

(** What the tree below [c] has to satisfy for a cancelation of [c]: the children
    of a live context are exactly the live ones there are, a live context has no
    canceled one above it up to [c], and a canceled context has no timer. *)
Record region (w : world) (c : nat) : Prop := {
  rg_cells x : canceler (ctxs w) x -> is_Some (cells w !! x);
  rg_children x y z : below (ctxs w) c x -> cells w !! x = Some z -> err z = None ->
    y ∈ children z <-> up (ctxs w) y = Some x /\ live w y;
  rg_up x y : below (ctxs w) c x -> up (ctxs w) y = Some x -> live w y -> live w x;
  rg_timer x z e : below (ctxs w) c x -> cells w !! x = Some z -> err z = Some e -> timer z = false;
  rg_cancelCtx x z p : below (ctxs w) c x -> cells w !! x = Some z ->
    ctxs w !! x = Some (cancelCtx p) -> timer z = false;
}.

(** [w'] is [w] with the contexts below those in [l] canceled. *)
Definition killed (e : error) (l : list nat) (w w' : world) : Prop :=
  ctxs w' = ctxs w
  /\ forall x, ((exists c, c ∈ l /\ below (ctxs w) c x) -> cells w' !! x = kill e <$> cells w !! x)
         /\ ((forall c, c ∈ l -> ~ below (ctxs w) c x) -> cells w' !! x = cells w !! x).

Section Kill.
Context `{!GoRange nat} (e : error).

Lemma region_child w c ch : tree_wf (ctxs w) -> region w c -> below (ctxs w) c ch -> region w ch.
Proof.
  intros Hwf [H1 H2 H3 H4 H5] Hch.
  assert (Hb : forall x, below (ctxs w) ch x -> below (ctxs w) c x) by (intros; by eapply below_trans).
  constructor; eauto.
Qed.

(** The region of [c] only depends on the cells below it. *)
Lemma region_eq w w' c :
  ctxs w' = ctxs w -> (forall x, below (ctxs w) c x -> cells w' !! x = cells w !! x) ->
  (forall x, canceler (ctxs w) x -> is_Some (cells w' !! x)) ->
  region w c -> region w' c.
Proof.
  intros Hc Heq Hs [H1 H2 H3 H4 H5].
  assert (Hlive : forall x, below (ctxs w) c x -> live w' x <-> live w x)
    by (intros x Hx; unfold live; by rewrite Heq).
  assert (Hy : forall x y, below (ctxs w) c x -> up (ctxs w) y = Some x -> below (ctxs w) c y)
    by (intros x y Hx Hy; by eapply below_up).
  constructor; rewrite ?Hc; [done| | | |].
  - intros x y z Hx Hz He. rewrite Heq in Hz by done. rewrite (H2 x y z Hx Hz He).
    split; intros [Hu Hl]; (split; [done|]); by apply (Hlive y); eauto.
  - intros x y Hx Hu Hl. apply Hlive; [done|]. eapply H3; [done..|]. apply Hlive; eauto.
  - intros x z e' Hx. rewrite Heq by done. by apply H4.
  - intros x z p Hx. rewrite Heq by done. by apply H5.
Qed.

(** Canceling children one after the other, given what canceling one does. *)
Lemma fold_killed (rec : nat -> world -> world) c l w :
  tree_wf (ctxs w) -> NoDup l -> (forall ch, ch ∈ l -> up (ctxs w) ch = Some c /\ region w ch) ->
  (forall ch w', ch ∈ l -> ctxs w' = ctxs w -> region w' ch -> killed e [ch] w' (rec ch w')) ->
  killed e l w (fold_left (fun w ch => rec ch w) l w).
Proof.
  intros Hwf Hnd. revert w Hwf. induction Hnd as [|ch l Hn Hnd IH]; intros w Hwf Hl Hrec.
  { split; [done|]. intros x. split; [|done]. intros (c' & Hc' & _). by apply elem_of_nil in Hc'. }
  destruct (Hl ch ltac:(by left)) as [Hup Hreg].
  destruct (Hrec ch w ltac:(by left) eq_refl Hreg) as [Hcs Hk]. simpl fold_left.
  set (w1 := rec ch w) in *.
  assert (Hkill : forall x, below (ctxs w) ch x -> cells w1 !! x = kill e <$> cells w !! x).
  { intros x Hx. apply Hk. exists ch. split; [by left|done]. }
  assert (Hsame : forall x, ~ below (ctxs w) ch x -> cells w1 !! x = cells w !! x).
  { intros x Hx. apply Hk. by intros c' ->%list_elem_of_singleton. }
  destruct (IH w1) as [Hcs' Hk'].
  - by rewrite Hcs.
  - intros ch' Hch'. rewrite Hcs. destruct (Hl ch' ltac:(by right)) as [Hup' Hreg'].
    split; [done|]. eapply region_eq; [done| | |exact Hreg'].
    + intros x Hx. apply Hsame. intros Hx'.
      pose proof (below_siblings _ Hwf c ch ch' x Hup Hup' Hx' Hx). by subst.
    + intros x Hx. destruct (rg_cells _ _ Hreg x Hx) as [z Hz].
      destruct (below_em _ Hwf ch x) as [Hb|Hb]; [rewrite Hkill by done|rewrite Hsame by done];
        rewrite Hz; by eexists.
  - intros ch' w' Hch' Hw'. apply Hrec; [by right|congruence].
  - split; [congruence|]. rewrite Hcs in Hk'. intros x. destruct (Hk' x) as [Hin Hout]. split.
    + intros (c' & [->|Hc']%elem_of_cons & Hx).
      * rewrite Hout; [by apply Hkill|]. intros c' Hc' Hx'.
        destruct (Hl c' ltac:(by right)) as [Hup' _].
        pose proof (below_siblings _ Hwf c ch c' x Hup Hup' Hx Hx'). by subst.
      * rewrite Hin by by exists c'. f_equal. apply Hsame. intros Hx'.
        destruct (Hl c' ltac:(by right)) as [Hup' _].
        pose proof (below_siblings _ Hwf c ch c' x Hup Hup' Hx' Hx). by subst.
    + intros Hno. rewrite Hout by (intros c' Hc'; apply Hno; by right).
      apply Hsame, Hno. by left.
Qed.

Lemma below_dead w c x :
  region w c -> ~ live w c -> below (ctxs w) c x -> ~ live w x.
Proof.
  intros Hreg Hc. induction 1 as [|x p Hx Hp IH]; [done|]. intros Hl. apply IH.
  by eapply (rg_up _ _ Hreg).
Qed.

Lemma kill_dead w x : ~ live w x -> kill e <$> cells w !! x = cells w !! x.
Proof.
  intros Hl. destruct (cells w !! x) as [z|] eqn:Hz; [|done]. simpl. f_equal. unfold kill.
  destruct (err z) eqn:He; [done|]. exfalso. apply Hl. by exists z.
Qed.

Lemma killed_nothing w c : region w c -> ~ live w c -> killed e [c] w w.
Proof.
  intros Hreg Hc. split; [done|]. intros x. split; [|done].
  intros (c' & ->%list_elem_of_singleton & Hx). rewrite kill_dead; [done|]. by eapply below_dead.
Qed.

Lemma live_dec w c : live w c \/ ~ live w c.
Proof.
  unfold live. destruct (cells w !! c) as [z|]; [|right; naive_solver].
  destruct (err z) eqn:He; [right|left]; naive_solver.
Qed.

Lemma set_cell_eq c x w : cells (set_cell c x w) !! c = Some x.
Proof. apply lookup_insert_eq. Qed.
Lemma set_cell_ne c x w y : y <> c -> cells (set_cell c x w) !! y = cells w !! y.
Proof. intros Hy. by apply lookup_insert_ne. Qed.

(** The body of [cancel] on a live context, before the timer is stopped. *)
Lemma cancel_body_live rec c w z :
  tree_wf (ctxs w) -> region w c -> cells w !! c = Some z -> err z = None ->
  (forall ch w', up (ctxs w) ch = Some c -> ctxs w' = ctxs w -> region w' ch ->
     killed e [ch] w' (rec ch w')) ->
  let w' := cancel_body rec e c w in
  ctxs w' = ctxs w
  /\ cells w' !! c = Some (mkCell true ∅ (Some e) (timer z))
  /\ forall x, x <> c -> (below (ctxs w) c x -> cells w' !! x = kill e <$> cells w !! x)
       /\ (~ below (ctxs w) c x -> cells w' !! x = cells w !! x).
Proof.
  intros Hwf Hreg Hz He Hrec w'. unfold w', cancel_body. rewrite Hz, He.
  set (w1 := set_cell c (mkCell true (children z) (Some e) (timer z)) w).
  set (l := go_range (children z)).
  assert (Hl : forall ch, ch ∈ l <-> up (ctxs w) ch = Some c /\ live w ch).
  { intros ch. unfold l. rewrite elem_of_go_range.
    apply (rg_children _ _ Hreg c ch z); [constructor|done..]. }
  assert (Hlt : forall ch x, up (ctxs w) ch = Some c -> below (ctxs w) ch x -> x <> c).
  { intros ch x Hch Hx ->. apply below_le in Hx; [|done]. apply up_lt in Hch as [? _]; [lia|done]. }
  destruct (fold_killed rec c l w1) as [Hcs Hk].
  - done.
  - apply NoDup_go_range.
  - intros ch [Hup _]%Hl. split; [done|]. apply (region_eq w); [done| | |].
    + intros x Hx. apply set_cell_ne. by eapply Hlt.
    + intros x Hx. destruct (decide (x = c)) as [->|Hne].
      * unfold w1. rewrite set_cell_eq. by eexists.
      * unfold w1. rewrite set_cell_ne by done. by apply (rg_cells _ _ Hreg).
    + eapply region_child; [done|exact Hreg|]. eapply below_up; [exact Hup|constructor].
  - intros ch w2 [Hup _]%Hl Hcs. by apply Hrec.
  - set (w2 := fold_left _ _ _) in *. change (ctxs w1) with (ctxs w) in *.
    assert (Hc2 : cells w2 !! c = Some (mkCell true (children z) (Some e) (timer z))).
    { rewrite (proj2 (Hk c)); [apply set_cell_eq|]. intros ch [Hup _]%Hl Hx. by eapply Hlt. }
    rewrite Hc2. cbn [done err timer]. split_and!; [exact Hcs|apply set_cell_eq|].
    intros x Hx. rewrite set_cell_ne by done. split.
    + intros [->|(ch & Hup & Hb)]%below_down; [done|].
      destruct (live_dec w ch) as [Hlv|Hdead].
      * rewrite (proj1 (Hk x)) by (exists ch; split; [by apply Hl|done]).
        unfold w1. by rewrite set_cell_ne.
      * rewrite (proj2 (Hk x)).
        -- unfold w1. rewrite set_cell_ne by done. rewrite kill_dead; [done|].
           eapply below_dead; [|done..]. eapply region_child; [done|exact Hreg|].
           eapply below_up; [exact Hup|constructor].
        -- intros ch' [Hup' Hl']%Hl Hb'.
           pose proof (below_siblings _ Hwf c ch ch' x Hup Hup' Hb Hb'). by subst.
    + intros Hno. rewrite (proj2 (Hk x)); [unfold w1; by rewrite set_cell_ne|].
      intros ch [Hup _]%Hl Hb. apply Hno. eapply below_trans; [|done].
      eapply below_up; [exact Hup|constructor].
Qed.

Lemma stop_timer_cells c w x :
  cells (stop_timer c w) !! x
  = if decide (x = c) then (fun z => mkCell (done z) (children z) (err z) false) <$> cells w !! c
    else cells w !! x.
Proof.
  unfold stop_timer. destruct (decide (x = c)) as [->|Hne].
  - destruct (cells w !! c) eqn:Hc; [by rewrite set_cell_eq|done].
  - destruct (cells w !! c); [by rewrite set_cell_ne|done].
Qed.

Lemma stop_timer_ctxs c w : ctxs (stop_timer c w) = ctxs w.
Proof. unfold stop_timer. by destruct (cells w !! c). Qed.

(** What [cancel(false, e)] does: it cancels what is below the context, and
    touches nothing else. The fuel is enough when it exceeds the height that the
    number of contexts leaves above the index. *)
Lemma cancel_false_killed fuel c w :
  tree_wf (ctxs w) -> canceler (ctxs w) c -> region w c -> length (ctxs w) - c < fuel ->
  killed e [c] w (cancel_loop fuel false e c w).
Proof.
  revert c w. induction fuel as [|fuel IH]; intros c w Hwf Hcan Hreg Hf; [lia|].
  assert (Hrec : forall ch w', up (ctxs w) ch = Some c -> ctxs w' = ctxs w -> region w' ch ->
    killed e [ch] w' (cancel_loop fuel false e ch w')).
  { intros ch w' Hup Hcs Hreg'. apply up_lt in Hup as (? & ? & Hch); [|done].
    apply IH; rewrite ?Hcs; try done.
    assert (ch < length (ctxs w)).
    { unfold canceler in Hch. destruct (ctxs w !! ch) eqn:Hx; [by eapply lookup_lt_Some|done]. }
    lia. }
  destruct (rg_cells _ _ Hreg c Hcan) as [z Hz].
  assert (Hself : forall x, x <> c -> (exists c', c' ∈ [c] /\ below (ctxs w) c' x) -> below (ctxs w) c x)
    by (intros x Hx (c' & ->%list_elem_of_singleton & ?); done).
  assert (Hnot : forall x, (forall c', c' ∈ [c] -> ~ below (ctxs w) c' x) -> x <> c /\ ~ below (ctxs w) c x).
  { intros x Hno. assert (~ below (ctxs w) c x) as Hb by (apply Hno; by left).
    split; [|done]. intros ->. apply Hb. constructor. }
  destruct (err z) as [e0|] eqn:He.
  - assert (Hdead : ~ live w c) by (intros (z' & Hz' & He'); congruence).
    assert (Hbody : cancel_body (cancel_loop fuel false e) e c w = w)
      by (unfold cancel_body; by rewrite Hz, He).
    pose proof (killed_nothing w c Hreg Hdead) as Hk.
    cbn [cancel_loop]. unfold canceler in Hcan.
    destruct (ctxs w !! c) as [[b|p|p d|p k v]|]; try done; rewrite Hbody.
    + by destruct (cells w !! c) as [[? ? []]|].
    + unfold stop_timer. rewrite Hz.
      assert (set_cell c (mkCell (done z) (children z) (err z) false) w = w) as ->; [|done].
      destruct w as [cs ws]. unfold set_cell. cbn [ctxs cells] in *. f_equal.
      rewrite <- (rg_timer _ _ Hreg c z e0 (below_refl _ _) Hz He).
      apply insert_id. rewrite Hz. by destruct z.
  - destruct (cancel_body_live (cancel_loop fuel false e) c w z Hwf Hreg Hz He Hrec) as (Hcs & Hc & Hx).
    set (w' := cancel_body _ e c w) in *. cbn [cancel_loop]. unfold canceler in Hcan.
    destruct (ctxs w !! c) as [[b|p|p d|p k v]|] eqn:Hcc; try done; fold w'.
    + assert (match cells w !! c with Some (mkCell _ _ None _) => w' | _ => w' end = w') as ->
        by (by destruct (cells w !! c) as [[? ? []]|]).
      split; [done|]. intros x. destruct (decide (x = c)) as [->|Hne].
      * rewrite Hc, Hz. simpl. unfold kill. rewrite He.
        rewrite (rg_cancelCtx _ _ Hreg c z p (below_refl _ _) Hz Hcc).
        split; [done|]. intros [[] _]%Hnot. done.
      * destruct (Hx x Hne) as [H1 H2]. split; [intros Hb; apply H1; by apply Hself|].
        intros [_ Hb]%Hnot. by apply H2.
    + split; [by rewrite stop_timer_ctxs|]. intros x. rewrite stop_timer_cells.
      destruct (decide (x = c)) as [->|Hne].
      * rewrite Hc, Hz. simpl. unfold kill. rewrite He. split; [done|]. by intros [[] _]%Hnot.
      * destruct (Hx x Hne) as [H1 H2]. split; [intros Hb; apply H1; by apply Hself|].
        intros [_ Hb]%Hnot. by apply H2.
Qed.
End Kill.

(** ** Canceling with removal from the parent *)

Definition minus (c : nat) (z : cell) : cell := mkCell (done z) (children z ∖ {[c]}) (err z) (timer z).

Lemma removeChild_cells p c w x :
  cells (removeChild p c w) !! x
  = if decide (parentCancelCtx (ctxs w) p = Some x) then minus c <$> cells w !! x else cells w !! x.
Proof.
  unfold removeChild. destruct (parentCancelCtx (ctxs w) p) as [q|] eqn:Hp; [|done].
  destruct (decide (Some q = Some x)) as [[= ->]|Hne].
  - destruct (cells w !! x) eqn:Hx; [by rewrite set_cell_eq|by rewrite Hx].
  - destruct (cells w !! q); [rewrite set_cell_ne by congruence|]; done.
Qed.

Lemma removeChild_ctxs p c w : ctxs (removeChild p c w) = ctxs w.
Proof. unfold removeChild. destruct (parentCancelCtx _ _); [|done]. by destruct (cells w !! _). Qed.

(** The invariant of the trees that the package makes. *)
Record inv (w : world) : Prop := {
  iv_wf : tree_wf (ctxs w);
  iv_cells x : is_Some (cells w !! x) <-> canceler (ctxs w) x;
  iv_children x y z : cells w !! x = Some z -> err z = None ->
    y ∈ children z <-> up (ctxs w) y = Some x /\ live w y;
  iv_up x y : up (ctxs w) y = Some x -> live w y -> live w x;
  iv_dead x z : cells w !! x = Some z -> err z <> None -> done z = true /\ children z = ∅ /\ timer z = false;
  iv_open x z : cells w !! x = Some z -> err z = None -> done z = false;
  iv_cancelCtx x z p : cells w !! x = Some z -> ctxs w !! x = Some (cancelCtx p) -> timer z = false;
}.

Lemma inv_region w c : inv w -> region w c.
Proof.
  intros [H1 H2 H3 H4 H5 H6 H7]. constructor; try (intros; eauto; fail).
  - intros x Hx. by apply H2.
  - intros x z e _ Hz He. apply (H5 x z Hz). congruence.
Qed.

Section Remove.
Context `{!GoRange nat} (e : error).

Lemma up_parent cs c p :
  (exists d, cs !! c = Some (timerCtx p d)) \/ cs !! c = Some (cancelCtx p) ->
  up cs c = parentCancelCtx cs p.
Proof. unfold up. by intros [[d ->]| ->]. Qed.

Lemma minus_id w c x :
  inv w -> ~ live w c -> minus c <$> cells w !! x = cells w !! x.
Proof.
  intros Hinv Hd. destruct (cells w !! x) as [z|] eqn:Hz; [|done]. simpl. f_equal.
  assert (children z ∖ {[c]} = children z) as Hc.
  { destruct (err z) as [e'|] eqn:He.
    - destruct (iv_dead _ Hinv x z Hz) as (_ & -> & _); [congruence|set_solver].
    - assert (c ∉ children z); [|set_solver].
      by intros [_ ?]%(iv_children _ Hinv x c z Hz He). }
  unfold minus. rewrite Hc. by destruct z.
Qed.

(** What [cancel(true, e)] does. *)
Lemma cancel_true_cells c w :
  inv w -> canceler (ctxs w) c ->
  let w' := cancel true e c w in
  ctxs w' = ctxs w
  /\ forall x, (below (ctxs w) c x -> cells w' !! x = kill e <$> cells w !! x)
       /\ (~ below (ctxs w) c x -> cells w' !! x
             = if decide (up (ctxs w) c = Some x) then minus c <$> cells w !! x else cells w !! x).
Proof.
  intros Hinv Hcan w'. pose proof (iv_wf _ Hinv) as Hwf.
  destruct (cancel_false_killed e (S (length (ctxs w))) c w Hwf Hcan (inv_region w c Hinv) ltac:(lia))
    as [Hcs Hk].
  assert (Hin : forall x, below (ctxs w) c x ->
    cells (cancel_loop (S (length (ctxs w))) false e c w) !! x = kill e <$> cells w !! x).
  { intros x Hx. apply Hk. exists c. split; [by left|done]. }
  assert (Hout : forall x, ~ below (ctxs w) c x ->
    cells (cancel_loop (S (length (ctxs w))) false e c w) !! x = cells w !! x).
  { intros x Hx. apply Hk. by intros c' ->%list_elem_of_singleton. }
  clear Hk. unfold w', cancel. cbn [cancel_loop] in *. pose proof Hcan as Hcan'.
  unfold canceler in Hcan'. destruct (ctxs w !! c) as [[b|p|p d|p k v]|] eqn:Hc; try done.
  - assert (Hup : up (ctxs w) c = parentCancelCtx (ctxs w) p) by (apply up_parent; by right).
    rewrite Hup. set (B := cancel_body _ e c w) in *.
    assert (HB : match cells w !! c with Some (mkCell _ _ None _) => B | _ => B end = B)
      by (by destruct (cells w !! c) as [[? ? []]|]).
    rewrite HB in *. destruct (live_dec w c) as [Hl|Hd].
    + assert (match cells w !! c with
              | Some (mkCell _ _ None _) => removeChild p c B | _ => B end = removeChild p c B) as ->.
      { destruct Hl as (z & -> & He). destruct z as [? ? []]; done. }
      rewrite removeChild_ctxs. split; [done|]. intros x. rewrite removeChild_cells, Hcs. split.
      * intros Hx. rewrite decide_False; [by apply Hin|]. intros Hp.
        rewrite <- Hup in Hp. apply up_lt in Hp as [? _]; [|done]. apply below_le in Hx; [lia|done].
      * intros Hx. by rewrite Hout.
    + assert (match cells w !! c with
              | Some (mkCell _ _ None _) => removeChild p c B | _ => B end = B) as ->.
      { destruct (cells w !! c) as [[? ? [|] ?]|] eqn:Hz; [done| |done].
        exfalso. apply Hd. by eexists. }
      split; [done|]. intros x. split; [apply Hin|]. intros Hx. rewrite Hout by done.
      case_decide; [|done]. by rewrite minus_id.
  - assert (Hup : up (ctxs w) c = parentCancelCtx (ctxs w) p) by (apply up_parent; left; by exists d).
    rewrite Hup. set (B := cancel_body _ e c w) in *. rewrite stop_timer_ctxs in Hcs.
    rewrite stop_timer_ctxs, removeChild_ctxs. split; [done|]. intros x.
    rewrite stop_timer_cells, !removeChild_cells, Hcs.
    assert (Hne : parentCancelCtx (ctxs w) p <> Some c).
    { rewrite <- Hup. intros Hp. apply up_lt in Hp as [? _]; [lia|done]. }
    rewrite (decide_False (P := parentCancelCtx (ctxs w) p = Some c)) by done.
    specialize (Hin x). specialize (Hout x). rewrite stop_timer_cells in Hin, Hout. split.
    + intros Hx. rewrite <- Hin by done. destruct (decide (x = c)); [done|].
      rewrite decide_False; [done|]. intros Hp. rewrite <- Hup in Hp.
      apply up_lt in Hp as [? _]; [|done]. apply below_le in Hx; [lia|done].
    + intros Hx. rewrite <- Hout by done. destruct (decide (x = c)) as [->|]; [|done].
      exfalso. apply Hx. constructor.
Qed.

(** The invariant survives. *)
Lemma cancel_true_inv c w : inv w -> canceler (ctxs w) c -> inv (cancel true e c w).
Proof.
  intros Hinv Hcan. destruct (cancel_true_cells c w Hinv Hcan) as [Hcs Hk].
  set (w' := cancel true e c w) in *.
  pose proof Hinv as [Hwf Hcells Hch Hup Hdead Hopen Htim].
  assert (Hin : forall x, below (ctxs w) c x -> cells w' !! x = kill e <$> cells w !! x) by apply Hk.
  assert (Hout : forall x, ~ below (ctxs w) c x -> cells w' !! x
    = if decide (up (ctxs w) c = Some x) then minus c <$> cells w !! x else cells w !! x) by apply Hk.
  assert (Hlive : forall x, live w' x <-> live w x /\ ~ below (ctxs w) c x).
  { intros x. unfold live. destruct (below_em _ Hwf c x) as [Hb|Hb].
    - rewrite Hin by done. split; [|naive_solver]. intros (z & Hz & He).
      destruct (cells w !! x) as [z0|]; [|done]. injection Hz as <-. unfold kill in He.
      by destruct (err z0) eqn:He0; simplify_eq/=.
    - rewrite Hout by done. case_decide; [|naive_solver].
      destruct (cells w !! x) as [z0|]; naive_solver. }
  constructor; rewrite ?Hcs; [done| | | | | |].
  - intros x. rewrite <- Hcells. destruct (below_em _ Hwf c x) as [Hb|Hb].
    + rewrite Hin by done. apply fmap_is_Some.
    + rewrite Hout by done. case_decide; [apply fmap_is_Some|done].
  - intros x y z Hz He. assert (Hl : live w' x) by by exists z.
    apply Hlive in Hl as [_ Hb]. rewrite Hout in Hz by done. rewrite Hlive.
    assert (Hby : up (ctxs w) y = Some x -> (~ below (ctxs w) c y <-> y <> c)).
    { intros Hy. split; [by intros Hn ->; apply Hn; constructor|].
      intros Hyc Hn. inversion Hn as [|? p Hp Hbp]; [done|]. simplify_eq. }
    case_decide as Hc.
    + destruct (cells w !! x) as [z0|] eqn:Hz0; [|done]. injection Hz as <-. cbn [minus children err] in *.
      pose proof (Hch x y z0 Hz0 He). set_solver.
    + pose proof (Hch x y z Hz He) as Hy. rewrite Hy. split; [|tauto]. intros [Hu Hl].
      split_and!; [done..|]. apply Hby; [done|]. by intros ->.
  - intros x y Hy. rewrite !Hlive. intros [Hl Hb]. split; [by eapply Hup|]. intros Hbx.
    apply Hb. by eapply below_up.
  - intros x z. destruct (below_em _ Hwf c x) as [Hb|Hb].
    + rewrite Hin by done. destruct (cells w !! x) as [z0|] eqn:Hz0; [|done]. intros [= <-].
      unfold kill. destruct (err z0) eqn:He0; [|done]. intros _. apply (Hdead x z0 Hz0). congruence.
    + rewrite Hout by done. case_decide; [|by apply Hdead].
      destruct (cells w !! x) as [z0|] eqn:Hz0; [|done]. intros [= <-] He. cbn [minus done children timer err] in *.
      destruct (Hdead x z0 Hz0 He) as (? & -> & ?). set_solver.
  - intros x z Hz He. assert (Hl : live w' x) by by exists z. apply Hlive in Hl as [_ Hb].
    rewrite Hout in Hz by done. case_decide; [|by eapply Hopen].
    destruct (cells w !! x) as [z0|] eqn:Hz0; [|done]. injection Hz as <-. by eapply (Hopen x z0).
  - intros x z p Hz Hx. destruct (below_em _ Hwf c x) as [Hb|Hb].
    + rewrite Hin in Hz by done. destruct (cells w !! x) as [z0|] eqn:Hz0; [|done]. injection Hz as <-.
      unfold kill. destruct (err z0); [by eapply Htim|done].
    + rewrite Hout in Hz by done. case_decide; [|by eapply Htim].
      destruct (cells w !! x) as [z0|] eqn:Hz0; [|done]. injection Hz as <-. by eapply (Htim x z0).
Qed.
End Remove.

(** ** Making contexts *)

Definition plus (c : nat) (z : cell) : cell := mkCell (done z) (children z ∪ {[c]}) (err z) (timer z).
Definition fresh_cell : cell := mkCell false ∅ None false.

Lemma Done_parentCancel w c : Done w c = parentCancelCtx (ctxs w) c.
Proof.
  unfold Done, parentCancelCtx. generalize (S c) as f. intros f. revert c.
  induction f as [|f IH]; intros c; [done|]. simpl. by destruct (ctxs w !! c) as [[]|].
Qed.

Lemma canceler_lt cs c : canceler cs c -> c < length cs.
Proof. unfold canceler. destruct (cs !! c) eqn:Hc; [intros _; by eapply lookup_lt_Some|done]. Qed.

Lemma canceler_app cs k c : c < length cs -> canceler (cs ++ k) c <-> canceler cs c.
Proof. intros Hc. unfold canceler. by rewrite lookup_app_lt. Qed.

Lemma tree_wf_snoc cs k :
  tree_wf cs -> (forall p, parent_of k = Some p -> p < length cs) -> tree_wf (cs ++ [k]).
Proof.
  intros Hwf Hk i c p [Hi|[Hl Hi]]%lookup_app_Some Hp; [by eapply Hwf|].
  apply list_lookup_singleton_Some in Hi as [Hi ->]. specialize (Hk p Hp). lia.
Qed.

Lemma cells_lt w x z : inv w -> cells w !! x = Some z -> x < length (ctxs w).
Proof. intros Hinv Hz. apply canceler_lt, (iv_cells _ Hinv). by exists z. Qed.

(** A cancelable context [c] has been added below [p]: it is registered with its
    nearest cancelable ancestor if that is live, and canceled otherwise. *)
Section Added.
Context (w w' : world) (k : ctx) (p : nat) (zc : cell).
Local Abbreviation c := (length (ctxs w)).
Hypothesis (Hinv : inv w) (Hp : p < c) (Hk : (exists d, k = timerCtx p d) \/ k = cancelCtx p).
Hypothesis (Hcs : ctxs w' = ctxs w ++ [k]) (Hc : cells w' !! c = Some zc).
Hypothesis (Hch0 : children zc = ∅) (Htm0 : timer zc = false) (Hdn0 : done zc = bool_decide (err zc <> None)).
Hypothesis Hq : forall q, parentCancelCtx (ctxs w) p = Some q -> err zc = None -> live w q.
Hypothesis Hx : forall x, x <> c -> cells w' !! x
  = if decide (parentCancelCtx (ctxs w) p = Some x /\ err zc = None) then plus c <$> cells w !! x
    else cells w !! x.

Lemma added_wf : tree_wf (ctxs w ++ [k]).
Proof.
  pose proof Hinv as [Hwf _ _ _ _ _ _].
  assert (Hpk : parent_of k = Some p) by (destruct Hk as [[d ->]| ->]; done).
  apply tree_wf_snoc; [done|by intros ? [= <-]%(eq_trans (eq_sym Hpk))].
Qed.

Lemma added_up : up (ctxs w ++ [k]) c = parentCancelCtx (ctxs w) p.
Proof.
  pose proof Hinv as [Hwf _ _ _ _ _ _]. rewrite <- (parentCancel_app _ [k]) by done. apply up_parent.
  rewrite lookup_app_r, Nat.sub_diag by done. destruct Hk as [[d ->]| ->]; [left; by exists d|by right].
Qed.

Lemma added_up_old x : x < c -> up (ctxs w ++ [k]) x = up (ctxs w) x.
Proof. pose proof Hinv as [Hwf _ _ _ _ _ _]. intros. by apply up_app. Qed.

Lemma added_not_up x : up (ctxs w ++ [k]) x <> Some c.
Proof.
  intros Hy. assert (x < length (ctxs w ++ [k])).
  { apply canceler_lt. by apply (up_lt _ added_wf) in Hy as (_ & _ & ?). }
  rewrite length_app in *. simpl in *. apply (up_lt _ added_wf) in Hy as [? _]. lia.
Qed.

Lemma added_live x : x <> c -> live w' x <-> live w x.
Proof.
  intros Hne. unfold live. rewrite Hx by done. case_decide; [|done].
  destruct (cells w !! x) as [z0|]; simpl; naive_solver.
Qed.

Lemma added_old x z : x <> c -> cells w' !! x = Some z -> x < c /\ exists z0, cells w !! x = Some z0
  /\ err z = err z0 /\ done z = done z0 /\ timer z = timer z0
  /\ children z = if decide (parentCancelCtx (ctxs w) p = Some x /\ err zc = None)
                  then children z0 ∪ {[c]} else children z0.
Proof.
  intros Hne Hz. rewrite Hx in Hz by done. case_decide.
  - destruct (cells w !! x) as [z0|] eqn:Hz0; [|done]. injection Hz as <-.
    split; [by eapply cells_lt|]. by exists z0.
  - split; [by eapply cells_lt|]. by exists z.
Qed.

Lemma added_cells x : is_Some (cells w' !! x) <-> canceler (ctxs w ++ [k]) x.
Proof.
  pose proof Hinv as [_ Hcells _ _ _ _ _].
  destruct (decide (x = c)) as [->|Hne].
  - split; [|intros _; by exists zc]. intros _. unfold canceler.
    rewrite lookup_app_r, Nat.sub_diag by done. destruct Hk as [[d ->]| ->]; done.
  - split.
    + intros [z Hz]. destruct (added_old x z Hne Hz) as (Hxc & z0 & Hz0 & _).
      rewrite canceler_app by done. apply Hcells. by exists z0.
    + intros Hcan. assert (x < c).
      { apply canceler_lt in Hcan. rewrite length_app in Hcan. simpl in Hcan. lia. }
      rewrite canceler_app in Hcan by done. apply Hcells in Hcan. rewrite Hx by done.
      case_decide; [by apply fmap_is_Some|done].
Qed.

Lemma added_children x y z : cells w' !! x = Some z -> err z = None ->
  y ∈ children z <-> up (ctxs w ++ [k]) y = Some x /\ live w' y.
Proof.
  pose proof Hinv as [Hwf _ Hch _ _ _ _].
  intros Hz He. destruct (decide (x = c)) as [->|Hne].
  { assert (z = zc) as -> by congruence. rewrite Hch0. split; [set_solver|]. by intros [Hy%added_not_up _]. }
  destruct (added_old x z Hne Hz) as (Hxc & z0 & Hz0 & He0 & _ & _ & ->). rewrite He0 in He.
  pose proof (Hch x y z0 Hz0 He) as Hy. destruct (decide (y = c)) as [->|Hyc].
  - assert (c ∉ children z0).
    { intros [Hu _]%(Hch x c z0 Hz0 He). apply (up_lt _ Hwf) in Hu as (_ & _ & Hcc%canceler_lt). lia. }
    rewrite added_up. assert (live w' c <-> err zc = None) as ->.
    { unfold live. rewrite Hc. naive_solver. }
    case_decide; set_solver.
  - rewrite added_live by done.
    assert (y ∈ children z0 <-> up (ctxs w ++ [k]) y = Some x /\ live w y) as Hy'.
    { rewrite Hy. split; intros [Hu Hl]; (split; [|done]).
      - rewrite added_up_old; [done|]. by apply (up_lt _ Hwf) in Hu as (_ & _ & ?%canceler_lt).
      - rewrite added_up_old in Hu; [done|]. destruct Hl as (zy & Hzy & _). by eapply cells_lt. }
    case_decide; set_solver.
Qed.

Lemma added_up_live x y : up (ctxs w ++ [k]) y = Some x -> live w' y -> live w' x.
Proof.
  pose proof Hinv as [_ _ _ Hup _ _ _].
  intros Hy Hl. apply added_live; [intros ->; by apply added_not_up in Hy|]. destruct (decide (y = c)) as [->|Hyc].
  - rewrite added_up in Hy. apply Hq; [done|]. destruct Hl as (z & Hz & He). congruence.
  - apply added_live in Hl; [|done]. eapply Hup; [|exact Hl]. rewrite <- added_up_old; [done|].
    destruct Hl as (zy & Hzy & _). by eapply cells_lt.
Qed.

Lemma ctx_inv_new : inv w'.
Proof.
  pose proof Hinv as [_ _ _ _ Hdead Hopen Htim].
  constructor; rewrite ?Hcs; [apply added_wf|apply added_cells|apply added_children|apply added_up_live|..].
  - intros x z Hz He. destruct (decide (x = c)) as [->|Hne].
    + assert (z = zc) as -> by congruence. rewrite Hdn0. by rewrite bool_decide_eq_true_2.
    + destruct (added_old x z Hne Hz) as (Hxc & z0 & Hz0 & He0 & -> & -> & ->). rewrite He0 in He.
      destruct (Hdead x z0 Hz0 He) as (? & Hc0 & ?). split_and!; [done| |done]. case_decide as Hcs'; [|done].
      destruct Hcs' as [Hpq He1]. destruct (Hq x Hpq He1) as (z1 & Hz1 & Hl1). congruence.
  - intros x z Hz He. destruct (decide (x = c)) as [->|Hne].
    + assert (z = zc) as -> by congruence. rewrite Hdn0. apply bool_decide_eq_false_2. by intros [].
    + destruct (added_old x z Hne Hz) as (Hxc & z0 & Hz0 & He0 & -> & _). eapply Hopen; [done|congruence].
  - intros x z p' Hz Hxp. destruct (decide (x = c)) as [->|Hne]; [congruence|].
    destruct (added_old x z Hne Hz) as (Hxc & z0 & Hz0 & _ & _ & -> & _).
    rewrite lookup_app_lt in Hxp by done. by eapply Htim.
Qed.
End Added.

Section Make.
Context `{!GoRange nat}.

(** The context that a new one is registered with, if any. *)
Definition registers (w : world) (p : nat) (q : nat) : Prop :=
  parentCancelCtx (ctxs w) p = Some q /\ live w q.

(** What [newCancelCtx] and [propagateCancel] leave: the new cell is canceled with
    the error of the nearest cancelable ancestor, if that is canceled. *)
Definition new_cell (w : world) (p : nat) : cell :=
  match parentCancelCtx (ctxs w) p with
  | Some q => match cells w !! q with
              | Some z => match err z with Some e => mkCell true ∅ (Some e) false | None => fresh_cell end
              | None => fresh_cell
              end
  | None => fresh_cell
  end.

Lemma go_range_empty : go_range (∅ : gset nat) = [].
Proof.
  destruct (go_range ∅) as [|x l] eqn:Hl; [done|].
  assert (x ∈ go_range (∅ : gset nat)) as Hx by (rewrite Hl; by left).
  by apply elem_of_go_range, elem_of_empty in Hx.
Qed.

(** Canceling a context that was just made. *)
Lemma cancel_fresh e c k p w :
  ctxs w !! c = Some k -> (exists d, k = timerCtx p d) \/ k = cancelCtx p ->
  cells w !! c = Some fresh_cell ->
  ctxs (cancel false e c w) = ctxs w
  /\ cells (cancel false e c w) !! c = Some (mkCell true ∅ (Some e) false)
  /\ forall x, x <> c -> cells (cancel false e c w) !! x = cells w !! x.
Proof.
  intros Hk Hkk Hc.
  set (w1 := set_cell c (mkCell true ∅ (Some e) false) w).
  assert (Hbody : forall rec, cancel_body rec e c w
    = set_cell c (mkCell true ∅ (Some e) false) w1).
  { intros rec. unfold cancel_body. rewrite Hc. cbn [err fresh_cell children done timer].
    rewrite go_range_empty. cbn [fold_left]. fold w1. unfold w1 at 1. by rewrite set_cell_eq. }
  unfold cancel. cbn [cancel_loop]. rewrite Hk, Hc, Hbody.
  assert (H1 : cells (set_cell c (mkCell true ∅ (Some e) false) w1) !! c
    = Some (mkCell true ∅ (Some e) false)) by apply set_cell_eq.
  assert (H2 : forall x, x <> c -> cells (set_cell c (mkCell true ∅ (Some e) false) w1) !! x = cells w !! x)
    by (intros x Hx; unfold w1; by rewrite !set_cell_ne).
  destruct Hkk as [[d ->]| ->]; cbn [fresh_cell]; [|done].
  rewrite stop_timer_ctxs. split_and!; [done| |].
  - rewrite stop_timer_cells, decide_True by done. by rewrite H1.
  - intros x Hx. rewrite stop_timer_cells, decide_False by done. by apply H2.
Qed.

Lemma propagate_cells w k p :
  let c := length (ctxs w) in
  let w' := propagateCancel p c (newCancelCtx k w).2 in
  inv w -> p < c -> (exists d, k = timerCtx p d) \/ k = cancelCtx p ->
  ctxs w' = ctxs w ++ [k] /\ cells w' !! c = Some (new_cell w p)
  /\ forall x, x <> c -> cells w' !! x
       = if decide (parentCancelCtx (ctxs w) p = Some x /\ err (new_cell w p) = None)
         then plus c <$> cells w !! x else cells w !! x.
Proof.
  intros c w' Hinv Hp Hk. set (w1 := (newCancelCtx k w).2).
  assert (Hcs1 : ctxs w1 = ctxs w ++ [k]) by done.
  assert (Hc1 : cells w1 !! c = Some fresh_cell) by apply lookup_insert_eq.
  assert (Hx1 : forall x, x <> c -> cells w1 !! x = cells w !! x) by (intros; by apply lookup_insert_ne).
  assert (Hpc : parentCancelCtx (ctxs w1) p = parentCancelCtx (ctxs w) p)
    by (rewrite Hcs1; apply parentCancel_app; [apply Hinv|done]).
  assert (Hlk : ctxs w1 !! c = Some k) by (rewrite Hcs1; by rewrite lookup_app_r, Nat.sub_diag).
  unfold w', propagateCancel, new_cell. fold w1. rewrite Done_parentCancel, Hpc.
  destruct (parentCancelCtx (ctxs w) p) as [q|] eqn:Hq.
  - assert (q <> c) as Hqc by (apply (parentCancel_Some _ (iv_wf _ Hinv)) in Hq as [? _]; lia).
    destruct (parentCancel_Some _ (iv_wf _ Hinv) p q Hq) as [_ [z Hz]%(iv_cells _ Hinv)].
    rewrite Hx1, Hz by done. destruct (err z) as [e|] eqn:He.
    + destruct (cancel_fresh e c k p w1 Hlk Hk Hc1) as (-> & -> & Hx). split_and!; [done..|].
      intros x Hne. rewrite Hx, Hx1 by done. cbn [err]. by rewrite decide_False by naive_solver.
    + split_and!; [done| |].
      * rewrite set_cell_ne by done. done.
      * intros x Hne. cbn [err fresh_cell]. destruct (decide (x = q)) as [->|Hxq].
        -- rewrite set_cell_eq, decide_True, Hz by done. unfold plus. simpl. by rewrite He.
        -- rewrite set_cell_ne, Hx1 by done. rewrite decide_False; [done|]. intros [[= ->] _]. done.
  - split_and!; [done..|]. intros x Hne. rewrite Hx1 by done.
    rewrite decide_False; [done|]. by intros [? _].
Qed.

Lemma new_cell_fields w p :
  children (new_cell w p) = ∅ /\ timer (new_cell w p) = false
  /\ done (new_cell w p) = bool_decide (err (new_cell w p) <> None).
Proof. unfold new_cell. repeat case_match; by split_and!. Qed.

Lemma propagate_inv w k p :
  inv w -> p < length (ctxs w) -> (exists d, k = timerCtx p d) \/ k = cancelCtx p ->
  inv (propagateCancel p (length (ctxs w)) (newCancelCtx k w).2).
Proof.
  intros Hinv Hp Hk. destruct (propagate_cells w k p Hinv Hp Hk) as (Hcs & Hc & Hx).
  destruct (new_cell_fields w p) as (H1 & H2 & H3).
  apply (ctx_inv_new w _ k p (new_cell w p)); [done..| |done].
  intros q Hq. unfold new_cell. rewrite Hq.
  destruct (parentCancel_Some _ (iv_wf _ Hinv) p q Hq) as [_ [z Hz]%(iv_cells _ Hinv)].
  rewrite Hz. destruct (err z) eqn:He; [done|]. intros _. by exists z.
Qed.

Lemma start_timer_cells c w x :
  cells (start_timer c w) !! x
  = if decide (x = c) then (fun z => match err z with None => mkCell (done z) (children z) None true
                                      | Some _ => z end) <$> cells w !! c
    else cells w !! x.
Proof.
  unfold start_timer. destruct (cells w !! c) as [z|] eqn:Hc.
  - destruct (err z) eqn:He; destruct (decide (x = c)) as [->|Hne];
      rewrite ?set_cell_eq, ?set_cell_ne by done; simpl; by rewrite ?He, ?Hc.
  - by destruct (decide (x = c)) as [->|].
Qed.

Lemma start_timer_ctxs c w : ctxs (start_timer c w) = ctxs w.
Proof. unfold start_timer. destruct (cells w !! c) as [z|]; [|done]. by destruct (err z). Qed.

Lemma start_timer_inv c w p d : inv w -> ctxs w !! c = Some (timerCtx p d) -> inv (start_timer c w).
Proof.
  intros [Hwf Hcells Hch Hup Hdead Hopen Htim] Hc.
  assert (Hcell : forall x z, cells (start_timer c w) !! x = Some z ->
    exists z0, cells w !! x = Some z0 /\ err z = err z0 /\ done z = done z0 /\ children z = children z0
      /\ (timer z = timer z0 \/ x = c /\ err z = None)).
  { intros x z. rewrite start_timer_cells. destruct (decide (x = c)) as [->|Hne].
    - destruct (cells w !! c) as [z0|]; [|done]. intros [= <-]. exists z0. destruct (err z0) eqn:He;
        simpl; rewrite ?He; split_and!; auto.
    - intros Hz. exists z. split_and!; auto. }
  assert (Hlive : forall x, live (start_timer c w) x <-> live w x).
  { intros x. unfold live. split.
    - intros (z & (z0 & Hz0 & He & _)%Hcell & Hz). exists z0. split; [done|congruence].
    - intros (z & Hz & He). rewrite start_timer_cells. case_decide as Hx; [|by exists z].
      subst x. rewrite Hz. simpl. rewrite He. by eexists. }
  constructor; rewrite ?start_timer_ctxs; [done| | | | | |].
  - intros x. rewrite <- Hcells, start_timer_cells. case_decide as Hx; [|done]. subst.
    apply fmap_is_Some.
  - intros x y z (z0 & Hz0 & He & _ & -> & _)%Hcell Hz. rewrite Hlive. apply Hch; congruence.
  - intros x y Hy. rewrite !Hlive. by apply Hup.
  - intros x z (z0 & Hz0 & He & -> & -> & Ht)%Hcell Hz.
    destruct (Hdead x z0 Hz0) as (? & ? & ?); [congruence|]. split_and!; [done..|].
    destruct Ht as [->|[_ ?]]; [done|congruence].
  - intros x z (z0 & Hz0 & He & -> & _)%Hcell Hz. apply (Hopen x z0 Hz0). congruence.
  - intros x z p' (z0 & Hz0 & _ & _ & _ & Ht)%Hcell Hx. destruct Ht as [->|[-> _]]; [by eapply Htim|congruence].
Qed.

Lemma WithValue_inv p k v w : inv w -> p < length (ctxs w) -> inv (WithValue p k v w).2.
Proof.
  intros [Hwf Hcells Hch Hup Hdead Hopen Htim] Hp. cbn [WithValue alloc snd].
  assert (Hwf' : tree_wf (ctxs w ++ [valueCtx p k v])) by (apply tree_wf_snoc; [done|by intros ? [= <-]]).
  assert (Hcan : forall x, canceler (ctxs w ++ [valueCtx p k v]) x <-> canceler (ctxs w) x).
  { intros x. destruct (decide (x < length (ctxs w))) as [Hl|Hl]; [by apply canceler_app|].
    split; intros Hx; exfalso; [|by apply canceler_lt in Hx].
    pose proof (canceler_lt _ _ Hx) as Hlt. rewrite length_app in Hlt. simpl in Hlt.
    assert (x = length (ctxs w)) as -> by lia. unfold canceler in Hx.
    by rewrite lookup_app_r, Nat.sub_diag in Hx. }
  assert (Hupx : forall x y, up (ctxs w ++ [valueCtx p k v]) y = Some x <-> up (ctxs w) y = Some x).
  { intros x y. destruct (decide (y < length (ctxs w))) as [Hl|Hl]; [by rewrite up_app|].
    split; intros Hu; exfalso; apply up_lt in Hu as (_ & _ & Hu); try done;
      [apply Hcan in Hu|]; by apply canceler_lt in Hu. }
  constructor; cbn [ctxs cells]; [done| | | | | |].
  - intros x. by rewrite Hcan.
  - intros x y z Hz He. rewrite Hupx. by apply Hch.
  - intros x y. rewrite Hupx. apply Hup.
  - apply Hdead.
  - apply Hopen.
  - intros x z p' Hz Hx. apply (Htim x z p' Hz).
    rewrite lookup_app_lt in Hx; [done|]. apply canceler_lt, Hcells. by exists z.
Qed.

Lemma WithCancel_inv p w : inv w -> p < length (ctxs w) -> inv (WithCancel p w).2.
Proof. intros Hinv Hp. apply propagate_inv; [done..|by right]. Qed.

Lemma WithDeadline_inv now p d w : inv w -> p < length (ctxs w) -> inv (WithDeadline now p d w).2.
Proof.
  intros Hinv Hp. unfold WithDeadline.
  match goal with |- context [if ?b then WithCancel p w else _] => destruct b end;
    [by apply WithCancel_inv|].
  assert (Hk : (exists d', timerCtx p d = timerCtx p d') \/ timerCtx p d = cancelCtx p) by (left; by eexists).
  pose proof (propagate_inv w _ p Hinv Hp Hk) as Hinv'.
  destruct (propagate_cells w _ p Hinv Hp Hk) as (Hcs & _ & _). cbn [newCancelCtx alloc] in *.
  assert (Hc : (ctxs w ++ [timerCtx p d]) !! length (ctxs w) = Some (timerCtx p d))
    by by rewrite lookup_app_r, Nat.sub_diag.
  destruct (d - now <=? 0)%Z; cbn [snd] in *.
  - apply cancel_true_inv; [done|]. cbn [snd] in Hcs. rewrite Hcs. unfold canceler. by rewrite Hc.
  - eapply start_timer_inv; [done|]. cbn [snd] in Hcs. by rewrite Hcs.
Qed.

Lemma inv_package : inv package.
Proof.
  constructor; cbn [package ctxs cells]; try (intros *; rewrite lookup_empty; done).
  - intros [|[|i]] c p Hc Hp; simpl in Hc; [by simplify_eq/=..|done].
  - intros x. rewrite lookup_empty. unfold canceler. split; [by intros []|].
    by destruct x as [|[|x]].
  - intros x y _ (z & Hz & _). cbn [package cells] in Hz. by rewrite lookup_empty in Hz.
Qed.

Lemma ctx_step_inv w w' : inv w -> step w w' -> inv w'.
Proof.
  intros Hinv [p Hp|now p d Hp|p k v Hp|c x Hc|c x Hc _].
  - by apply WithCancel_inv.
  - by apply WithDeadline_inv.
  - by apply WithValue_inv.
  - apply cancel_true_inv; [done|]. apply (iv_cells _ Hinv). by exists x.
  - apply cancel_true_inv; [done|]. apply (iv_cells _ Hinv). by exists x.
Qed.

Lemma ctx_reachable_inv w : reachable w -> inv w.
Proof. induction 1; [apply inv_package|by eapply ctx_step_inv]. Qed.
End Make.
