(* ===== verification/ContextProps.v ===== *)
(** * Contexts: what the package promises

    The theorems about [Context]: how far a cancelation reaches, that it is
    final, that nothing is leaked, deadlines, timers and values. *)

From S2P Require Import Prelude Query Context ContextFacts.

(** ** The methods, by the nearest cancelable context *)

Lemma Err_cell w c :
  Err w c = (q ← parentCancelCtx (ctxs w) c; z ← cells w !! q; err z).
Proof.
  unfold Err, parentCancelCtx. generalize (S c) as f. intros f. revert c.
  induction f as [|f IH]; intros c; [done|]. simpl. destruct (ctxs w !! c) as [[]|]; done || apply IH.
Qed.

Lemma Done_cell w c :
  Done_closed w c = match parentCancelCtx (ctxs w) c with
                    | Some q => match cells w !! q with Some z => done z | None => false end
                    | None => false end.
Proof. unfold Done_closed. by rewrite Done_parentCancel. Qed.

(** [x] is [a] or was made from it, in any number of steps. *)
Inductive descends (cs : list ctx) (a : nat) : nat -> Prop :=
  | desc_refl : descends cs a a
  | desc_up x c p : cs !! x = Some c -> parent_of c = Some p -> descends cs a p -> descends cs a x.

Lemma descends_trans cs a b x : descends cs a b -> descends cs b x -> descends cs a x.
Proof. intros Hab. induction 1; [done|]. by eapply desc_up. Qed.

Section Descends.
Variable cs : list ctx.
Hypothesis Hwf : tree_wf cs.

Lemma parentCancel_descends x q : parentCancelCtx cs x = Some q -> descends cs q x.
Proof.
  unfold parentCancelCtx. generalize (S x) as f. intros f. revert x.
  induction f as [|f IH]; intros x; [done|]. simpl.
  destruct (cs !! x) as [[b|p|p d|p k v]|] eqn:Hx; try done; try (intros [= ->]; constructor).
  intros Hq. eapply desc_up; [exact Hx|done|by apply IH].
Qed.

Lemma up_descends c p : up cs c = Some p -> descends cs p c.
Proof.
  unfold up. destruct (cs !! c) as [[]|] eqn:Hc; try done;
    intros Hp%parentCancel_descends; by eapply desc_up.
Qed.

Lemma below_descends a x : below cs a x -> descends cs a x.
Proof.
  induction 1 as [|x p Hx _ IH]; [constructor|]. eapply descends_trans; [done|by apply up_descends].
Qed.

(** What descends from a cancelable context has its nearest cancelable context
    below it, and the other way round. *)
Lemma descends_below a x :
  canceler cs a -> descends cs a x <-> exists q, parentCancelCtx cs x = Some q /\ below cs a q.
Proof.
  intros Ha. split.
  - induction 1 as [|x c p Hx Hp _ (q & Hq & Hb)].
    + exists a. split; [by apply parentCancel_canceler|constructor].
    + destruct c as [b|p'|p' d|p' k v]; simplify_eq/=.
      * exists x. split; [apply parentCancel_canceler; unfold canceler; by rewrite Hx|].
        eapply below_up; [|exact Hb]. unfold up. by rewrite Hx.
      * exists x. split; [apply parentCancel_canceler; unfold canceler; by rewrite Hx|].
        eapply below_up; [|exact Hb]. unfold up. by rewrite Hx.
      * exists q. split; [|done]. by rewrite (parentCancel_value _ Hwf x p k v Hx).
  - intros (q & Hq & Hb). eapply descends_trans; [by apply below_descends|].
    by apply parentCancel_descends.
Qed.
End Descends.

Section Props.
Context `{!GoRange nat}.

(** ** Cancelation reaches what descends, and nothing else *)

Lemma kill_err e z : err (kill e z) = Some (default e (err z)).
Proof. unfold kill. by destruct (err z) eqn:He. Qed.

Lemma kill_done e w x z : inv w -> cells w !! x = Some z -> done (kill e z) = true.
Proof.
  intros Hinv Hz. unfold kill. destruct (err z) eqn:He; [|done].
  apply (iv_dead _ Hinv x z Hz). congruence.
Qed.

(** What canceling does, to the contexts below and to the others. *)
Lemma cancel_effect w c z e x :
  reachable w -> cells w !! c = Some z ->
  let w' := cancel true e c w in
  (descends (ctxs w) c x -> Err w' x = Some (default e (Err w x)) /\ Done_closed w' x = true)
  /\ (~ descends (ctxs w) c x -> Err w' x = Err w x /\ Done_closed w' x = Done_closed w x).
Proof.
  intros Hinv%ctx_reachable_inv Hz w'.
  assert (Hcan : canceler (ctxs w) c) by (apply (iv_cells _ Hinv); by exists z).
  destruct (cancel_true_cells e c w Hinv Hcan) as [Hcs Hk].
  rewrite (descends_below _ (iv_wf _ Hinv) c x Hcan), !Err_cell, !Done_cell.
  fold w' in Hcs, Hk |- *. rewrite Hcs. split.
  - intros (q & Hq & Hb). rewrite Hq. cbn [mbind option_bind]. rewrite (proj1 (Hk q) Hb).
    destruct (parentCancel_Some _ (iv_wf _ Hinv) x q Hq) as [_ [zq Hzq]%(iv_cells _ Hinv)].
    rewrite Hzq. cbn. split; [apply kill_err|by eapply kill_done].
  - intros Hno. destruct (parentCancelCtx (ctxs w) x) as [q|] eqn:Hq; [|done]. cbn [mbind option_bind].
    rewrite (proj2 (Hk q)) by (intros Hb; apply Hno; by exists q).
    case_decide; [|done]. by destruct (cells w !! q).
Qed.

(** C21. Canceling a context, by the function returned with it or by its timer,
    cancels every context that was made from it, however many steps away and
    through contexts with values: its [Done] channel is closed, and [Err] is the
    cause, or the older one if it was canceled already. No other context is
    affected. *)
Theorem cancel_reaches w c z e x :
  reachable w -> cells w !! c = Some z ->
  let w' := cancel true e c w in
  (descends (ctxs w) c x -> Err w' x = Some (default e (Err w x)) /\ Done_closed w' x = true)
  /\ (~ descends (ctxs w) c x -> Err w' x = Err w x /\ Done_closed w' x = Done_closed w x).
Proof. apply cancel_effect. Qed.

(** C22. In every tree that the package makes a context is canceled as soon as one
    it was made from is, and its [Done] channel is closed exactly when [Err] is
    not nil. A cancelable context keeps as children exactly the contexts that are
    not canceled and have it as nearest cancelable ancestor: a canceled context is
    referred to by no other. *)
Theorem context_tree_invariant w a x :
  reachable w ->
  (descends (ctxs w) a x -> Err w a <> None -> Err w x <> None)
  /\ (Done_closed w x = true <-> Err w x <> None)
  /\ (forall z y, cells w !! x = Some z ->
        y ∈ children z <-> up (ctxs w) y = Some x /\ Err w y = None).
Proof.
  intros Hinv%ctx_reachable_inv. pose proof (iv_wf _ Hinv) as Hwf.
  assert (Hdead : forall q, canceler (ctxs w) q -> (~ live w q <-> (z ← cells w !! q; err z) <> None)).
  { intros q [z Hz]%(iv_cells _ Hinv). unfold live. rewrite Hz. simpl. destruct (err z) eqn:He; split; naive_solver. }
  assert (Herr : forall q, canceler (ctxs w) q -> Err w q = (z ← cells w !! q; err z))
    by (intros q Hq; by rewrite Err_cell, (parentCancel_canceler _ _ Hq)).
  split_and!.
  - rewrite !Err_cell. intros Hd Ha.
    destruct (parentCancelCtx (ctxs w) a) as [qa|] eqn:Hqa; [|done].
    destruct (parentCancel_Some _ Hwf a qa Hqa) as [_ Hca].
    destruct (proj1 (descends_below _ Hwf qa x Hca)) as (q & Hq & Hb).
    { eapply descends_trans; [by apply parentCancel_descends|done]. }
    destruct (parentCancel_Some _ Hwf x q Hq) as [_ Hcq]. rewrite Hq. cbn [mbind option_bind] in *.
    apply Hdead; [done|]. eapply below_dead; [by apply inv_region|exact (proj2 (Hdead qa Hca) Ha)|done].
  - rewrite Done_cell, Err_cell. destruct (parentCancelCtx (ctxs w) x) as [q|] eqn:Hq; [|by split; [|intros []]].
    destruct (cells w !! q) as [z|] eqn:Hz; cbn [mbind option_bind]; rewrite ?Hz; [|by split; [|intros []]].
    simpl. destruct (err z) as [e|] eqn:He.
    + destruct (iv_dead _ Hinv q z Hz) as (-> & _); [congruence|]. by split.
    + rewrite (iv_open _ Hinv q z Hz He). by split; [|intros []].
  - intros z y Hz. assert (Hlive : forall p, up (ctxs w) y = Some p -> (live w y <-> Err w y = None)).
    { intros p (_ & _ & Hcy)%(up_lt _ Hwf). rewrite Herr by done.
      destruct (live_dec w y) as [Hl|Hd]; [|pose proof (proj1 (Hdead y Hcy) Hd); tauto].
      split; [|done]. by destruct Hl as (zy & -> & He). }
    destruct (err z) as [e|] eqn:He.
    + destruct (iv_dead _ Hinv x z Hz) as (_ & -> & _); [congruence|]. split; [set_solver|].
      intros [Hu Hy]. apply (Hlive x Hu) in Hy. apply (iv_up _ Hinv x y Hu) in Hy as (z' & Hz' & He').
      congruence.
    + rewrite (iv_children _ Hinv x y z Hz He). split; intros [Hu Hy]; (split; [done|]); by apply (Hlive x).
Qed.

(** ** A cancelation is final *)

(** [w'] has the contexts of [w] and some more, and what is canceled stays
    canceled, with the same error. *)
Definition keeps (w w' : world) : Prop :=
  (exists l, ctxs w' = ctxs w ++ l)
  /\ forall x z e, cells w !! x = Some z -> err z = Some e ->
       exists z', cells w' !! x = Some z' /\ err z' = Some e.

Lemma keeps_trans w1 w2 w3 : keeps w1 w2 -> keeps w2 w3 -> keeps w1 w3.
Proof.
  intros [[l1 H1] K1] [[l2 H2] K2]. split; [exists (l1 ++ l2); by rewrite H2, H1, app_assoc|].
  intros x z e Hz He. destruct (K1 x z e Hz He) as (z' & Hz' & He'). by apply (K2 x z').
Qed.

Lemma keeps_cancel e c w : inv w -> canceler (ctxs w) c -> keeps w (cancel true e c w).
Proof.
  intros Hinv Hc. destruct (cancel_true_cells e c w Hinv Hc) as [Hcs Hk].
  split; [exists []; by rewrite Hcs, app_nil_r|]. intros x z e' Hz He.
  destruct (below_em _ (iv_wf _ Hinv) c x) as [Hb|Hb].
  - rewrite (proj1 (Hk x) Hb), Hz. eexists. split; [done|]. unfold kill. by rewrite He.
  - rewrite (proj2 (Hk x) Hb), Hz. case_decide; by eexists.
Qed.

Lemma keeps_propagate w k p :
  inv w -> p < length (ctxs w) -> (exists d, k = timerCtx p d) \/ k = cancelCtx p ->
  keeps w (propagateCancel p (length (ctxs w)) (newCancelCtx k w).2).
Proof.
  intros Hinv Hp Hk. destruct (propagate_cells w k p Hinv Hp Hk) as (Hcs & _ & Hx).
  split; [by eexists|]. intros x z e Hz He. pose proof (cells_lt _ _ _ Hinv Hz).
  rewrite Hx by lia. case_decide; rewrite Hz; by eexists.
Qed.

Lemma keeps_start_timer c w : keeps w (start_timer c w).
Proof.
  split; [exists []; by rewrite start_timer_ctxs, app_nil_r|]. intros x z e Hz He.
  rewrite start_timer_cells. case_decide as Hx; [|by exists z]. subst x. rewrite Hz. exists z.
  simpl. by rewrite He.
Qed.

Lemma keeps_step w w' : inv w -> step w w' -> keeps w w'.
Proof.
  intros Hinv [p Hp|now p d Hp|p k v Hp|c x Hc|c x Hc _].
  - apply keeps_propagate; [done..|by right].
  - unfold WithDeadline.
    match goal with |- context [if ?b then WithCancel p w else _] => destruct b end;
      [apply keeps_propagate; [done..|by right]|].
    assert (Hk : (exists d', timerCtx p d = timerCtx p d') \/ timerCtx p d = cancelCtx p) by (left; by eexists).
    pose proof (propagate_inv w _ p Hinv Hp Hk) as Hinv'.
    destruct (propagate_cells w _ p Hinv Hp Hk) as (Hcs & Hc & _).
    eapply keeps_trans; [by apply (keeps_propagate w _ p Hinv Hp Hk)|].
    cbn [newCancelCtx alloc snd] in *. destruct (d - now <=? 0)%Z; cbn [snd].
    + apply keeps_cancel; [done|]. apply (iv_cells _ Hinv'). by eexists.
    + apply keeps_start_timer.
  - split; [by eexists|]. intros y z e Hz He. by exists z.
  - apply keeps_cancel; [done|]. apply (iv_cells _ Hinv). by exists x.
  - apply keeps_cancel; [done|]. apply (iv_cells _ Hinv). by exists x.
Qed.

(** The first cancelation is final: once a context is canceled, [Err] returns
    the same error and [Done] stays closed whatever is done afterwards, to it or
    to any other context, so that calling the cancel function again does nothing. *)
Theorem Err_final w w' x e :
  reachable w -> step w w' -> x < length (ctxs w) -> Err w x = Some e ->
  Err w' x = Some e /\ Done_closed w' x = true.
Proof.
  intros Hr Hst Hx He. pose proof (ctx_reachable_inv w Hr) as Hinv.
  destruct (keeps_step w w' Hinv Hst) as [[l Hl] Hk].
  pose proof (ctx_step_inv w w' Hinv Hst) as Hinv'.
  rewrite Err_cell in He. rewrite Err_cell, Done_cell, Hl.
  rewrite parentCancel_app by (done || apply Hinv).
  destruct (parentCancelCtx (ctxs w) x) as [q|]; [|done]. cbn [mbind option_bind] in *.
  destruct (cells w !! q) as [z|] eqn:Hz; [|done]. simpl in He.
  destruct (Hk q z e Hz He) as (z' & Hz' & He'). rewrite Hz'. simpl. split; [done|].
  apply (iv_dead _ Hinv' q z' Hz'). congruence.
Qed.

(** ** Deadlines *)

Lemma Deadline_fuel cs f1 f2 c :
  tree_wf cs -> c < f1 -> c < f2 -> Deadline_loop f1 cs c = Deadline_loop f2 cs c.
Proof.
  intros Hwf. revert f2 c. induction f1 as [|f1 IH]; intros [|f2] c H1 H2; [lia..|]. simpl.
  destruct (cs !! c) as [[]|] eqn:Hc; try done; pose proof (Hwf _ _ _ Hc eq_refl); apply IH; lia.
Qed.

Lemma Deadline_app cs k c : tree_wf cs -> c < length cs -> Deadline (cs ++ k) c = Deadline cs c.
Proof.
  intros Hwf. unfold Deadline. generalize (S c) as f. intros f. revert c.
  induction f as [|f IH]; intros c Hc; [done|]. simpl. rewrite lookup_app_lt by done.
  destruct (cs !! c) as [[]|] eqn:Hx; try done; apply IH; pose proof (Hwf _ _ _ Hx eq_refl); lia.
Qed.

(** The deadline of a context that was just made. *)
Lemma Deadline_new cs k p :
  tree_wf cs -> p < length cs -> parent_of k = Some p ->
  Deadline (cs ++ [k]) (length cs)
  = match k with timerCtx _ d => Some d | _ => Deadline cs p end.
Proof.
  intros Hwf Hp Hk. rewrite <- (Deadline_app cs [k] p) by done. unfold Deadline at 1. cbn [Deadline_loop].
  rewrite lookup_app_r, Nat.sub_diag by done. cbn [lookup list_lookup].
  assert (tree_wf (cs ++ [k])) by (apply tree_wf_snoc; [done|by intros ? [= <-]%(eq_trans (eq_sym Hk))]).
  destruct k as [b|p'|p' d|p' k v]; simplify_eq/=; [|done|]; by apply Deadline_fuel; [|lia..].
Qed.

Lemma new_cell_err w p : inv w -> err (new_cell w p) = Err w p.
Proof.
  intros Hinv. rewrite Err_cell. unfold new_cell.
  destruct (parentCancelCtx (ctxs w) p) as [q|]; [|done]. simpl.
  destruct (cells w !! q) as [z|]; [|done]. simpl. by destruct (err z).
Qed.

Lemma Err_canceler w c : canceler (ctxs w) c -> Err w c = (z ← cells w !! c; err z).
Proof. intros Hc. by rewrite Err_cell, (parentCancel_canceler _ _ Hc). Qed.

Lemma canceler_new cs k p : (exists d, k = timerCtx p d) \/ k = cancelCtx p -> canceler (cs ++ [k]) (length cs).
Proof.
  unfold canceler. rewrite lookup_app_r, Nat.sub_diag by done. by intros [[d ->]| ->].
Qed.

(** The error of a context that was just made. *)
Lemma Err_new w k p :
  inv w -> p < length (ctxs w) -> (exists d, k = timerCtx p d) \/ k = cancelCtx p ->
  Err (propagateCancel p (length (ctxs w)) (newCancelCtx k w).2) (length (ctxs w)) = Err w p.
Proof.
  intros Hinv Hp Hk. destruct (propagate_cells w k p Hinv Hp Hk) as (Hcs & Hc & _).
  rewrite Err_canceler by (rewrite Hcs; by eapply canceler_new).
  rewrite Hc. simpl. by apply new_cell_err.
Qed.

(** Was the deadline reached when the context was made? Only asked when the
    parent's deadline does not come first. *)
Definition too_late (now : Z) (cur : option Z) (d : Z) : bool :=
  (d <=? now)%Z && negb (match cur with Some c => (c <? d)%Z | None => false end).

(** [WithDeadline] gives a context whose deadline is the earlier one of the
    parent's and the one asked for. It is born canceled with the parent's error if
    the parent is canceled, with [DeadlineExceeded] if its own deadline has passed,
    and not canceled otherwise. [WithCancel] keeps the parent's deadline and error. *)
Theorem WithDeadline_spec w now p d :
  reachable w -> p < length (ctxs w) ->
  let '(c, w') := WithDeadline now p d w in
  Deadline (ctxs w') c
    = Some (match Deadline (ctxs w) p with Some cur => Z.min cur d | None => d end)
  /\ Err w' c = match Err w p with
                | Some e => Some e
                | None => if too_late now (Deadline (ctxs w) p) d then Some DeadlineExceeded else None
                end
  /\ let '(c, w') := WithCancel p w in
     Deadline (ctxs w') c = Deadline (ctxs w) p /\ Err w' c = Err w p.
Proof.
  intros Hinv%ctx_reachable_inv Hp. pose proof (iv_wf _ Hinv) as Hwf.
  assert (Hcan : Deadline (ctxs (WithCancel p w).2) (length (ctxs w)) = Deadline (ctxs w) p
    /\ Err (WithCancel p w).2 (length (ctxs w)) = Err w p).
  { pose proof (propagate_cells w (cancelCtx p) p Hinv Hp ltac:(by right)) as (Hcs & _).
    split; [|apply Err_new; [done..|by right]].
    unfold WithCancel. cbn [newCancelCtx alloc snd] in *. rewrite Hcs.
    exact (Deadline_new (ctxs w) (cancelCtx p) p Hwf Hp eq_refl). }
  set (b := match Deadline (ctxs w) p with Some cur => (cur <? d)%Z | None => false end).
  assert (Hmin : b = true -> exists cur, Deadline (ctxs w) p = Some cur /\ (cur < d)%Z).
  { unfold b. destruct (Deadline (ctxs w) p) as [cur|]; [|done]. exists cur. split; [done|lia]. }
  assert (Hmin' : b = false -> Some d
    = Some (match Deadline (ctxs w) p with Some cur => Z.min cur d | None => d end)).
  { unfold b. destruct (Deadline (ctxs w) p) as [cur|]; [|done]. intros. f_equal. lia. }
  unfold WithDeadline, too_late. fold b. destruct b.
  - destruct (Hmin eq_refl) as (cur & Hcur & Hlt). rewrite andb_false_r.
    change (WithCancel p w) with (length (ctxs w), (WithCancel p w).2).
    destruct Hcan as [-> ->]. rewrite Hcur. split_and!; [f_equal; lia|by destruct (Err w p)|done..].
  - specialize (Hmin' eq_refl). rewrite andb_true_r. clear Hmin.
    change (WithCancel p w) with (length (ctxs w), (WithCancel p w).2).
    assert (Hk : (exists d', timerCtx p d = timerCtx p d') \/ timerCtx p d = cancelCtx p) by (left; by eexists).
    pose proof (propagate_inv w _ p Hinv Hp Hk) as Hinv'.
    destruct (propagate_cells w _ p Hinv Hp Hk) as (Hcs & Hc & _).
    pose proof (Err_new w _ p Hinv Hp Hk) as He.
    pose proof (Deadline_new (ctxs w) (timerCtx p d) p Hwf Hp eq_refl) as Hdl.
    cbn [newCancelCtx alloc snd] in *. set (w1 := propagateCancel p _ _) in *.
    assert (Hcc : canceler (ctxs w1) (length (ctxs w))) by (rewrite Hcs; by eapply canceler_new).
    destruct (Z.leb_spec (d - now) 0), (Z.leb_spec d now); try lia; cbn beta iota.
    + destruct (cancel_true_cells DeadlineExceeded (length (ctxs w)) w1 Hinv' Hcc) as [Hcs' Hk'].
      rewrite Hcs', Hcs, Hdl. split_and!; [done| |apply Hcan..].
      rewrite Err_canceler by (by rewrite Hcs'). rewrite (proj1 (Hk' _) (below_refl _ _)), Hc. simpl.
      rewrite kill_err, new_cell_err by done. by destruct (Err w p).
    + rewrite start_timer_ctxs, Hcs, Hdl. split_and!; [done| |apply Hcan..].
      rewrite Err_canceler by (by rewrite start_timer_ctxs). rewrite start_timer_cells, decide_True, Hc by done.
      simpl. rewrite <- (new_cell_err w p) by done. by destruct (err (new_cell w p)) eqn:Hnc.
Qed.

(** ** Timers *)

(** Every context with a deadline that is not canceled, [c] apart, has its timer
    set. *)
Definition timers_but (c : option nat) (w : world) : Prop :=
  forall x p d z, Some x <> c -> ctxs w !! x = Some (timerCtx p d) -> cells w !! x = Some z ->
    err z = None -> timer z = true.

Lemma timers_cancel e c c' w :
  inv w -> canceler (ctxs w) c -> timers_but c' w -> c' = None \/ c' = Some c ->
  timers_but None (cancel true e c w).
Proof.
  intros Hinv Hc Ht Hc' x p d z _. destruct (cancel_true_cells e c w Hinv Hc) as [Hcs Hk].
  rewrite Hcs. intros Hx Hz He. destruct (below_em _ (iv_wf _ Hinv) c x) as [Hb|Hb].
  - rewrite (proj1 (Hk x) Hb) in Hz. destruct (cells w !! x) as [z0|]; [|done].
    injection Hz as <-. by rewrite kill_err in He.
  - assert (Some x <> c') as Hne by (destruct Hc' as [->| ->]; [done|intros [= ->]; apply Hb; constructor]).
    rewrite (proj2 (Hk x) Hb) in Hz. case_decide; [|by eapply Ht].
    destruct (cells w !! x) as [z0|] eqn:Hz0; [|done]. injection Hz as <-. by eapply (Ht x p d z0).
Qed.

Lemma timers_propagate w k p :
  inv w -> p < length (ctxs w) -> (exists d, k = timerCtx p d) \/ k = cancelCtx p ->
  timers_but None w ->
  timers_but (match k with timerCtx _ _ => Some (length (ctxs w)) | _ => None end)
    (propagateCancel p (length (ctxs w)) (newCancelCtx k w).2).
Proof.
  intros Hinv Hp Hk Ht x p' d z Hne. destruct (propagate_cells w k p Hinv Hp Hk) as (Hcs & _ & Hx).
  rewrite Hcs. intros [Hl|[Hl Hl']]%lookup_app_Some Hz He.
  - pose proof (lookup_lt_Some _ _ _ Hl). rewrite Hx in Hz by lia. case_decide; [|by eapply Ht].
    destruct (cells w !! x) as [z0|] eqn:Hz0; [|done]. injection Hz as <-. by eapply (Ht x p' d z0).
  - apply list_lookup_singleton_Some in Hl' as [Hl' ->]. exfalso. apply Hne. f_equal. lia.
Qed.

Lemma timers_step w w' : inv w -> timers_but None w -> step w w' -> timers_but None w'.
Proof.
  intros Hinv Ht [p Hp|now p d Hp|p k v Hp|c x Hc|c x Hc _].
  - apply (timers_propagate w (cancelCtx p)); [done..|by right|done].
  - unfold WithDeadline.
    match goal with |- context [if ?b then WithCancel p w else _] => destruct b end;
      [apply (timers_propagate w (cancelCtx p)); [done..|by right|done]|].
    assert (Hk : (exists d', timerCtx p d = timerCtx p d') \/ timerCtx p d = cancelCtx p) by (left; by eexists).
    pose proof (propagate_inv w _ p Hinv Hp Hk) as Hinv'.
    pose proof (timers_propagate w _ p Hinv Hp Hk Ht) as Ht'.
    destruct (propagate_cells w _ p Hinv Hp Hk) as (_ & Hc & _).
    cbn [newCancelCtx alloc snd] in *. destruct (d - now <=? 0)%Z; cbn [snd].
    + eapply timers_cancel; [done| |exact Ht'|by right]. apply (iv_cells _ Hinv'). by eexists.
    + intros x p' d' z _. rewrite start_timer_ctxs, start_timer_cells. case_decide as Hx.
      * subst x. rewrite Hc. simpl. intros _ [= <-]. destruct (err (new_cell w p)) eqn:He; [by rewrite He|done].
      * apply Ht'. congruence.
  - intros x p' d z _. cbn [WithValue alloc snd ctxs cells].
    intros [Hl|[_ Hl]]%lookup_app_Some Hz He; [by apply (Ht x p' d z)|].
    by apply list_lookup_singleton_Some in Hl as [_ [=]].
  - eapply timers_cancel; [done| |exact Ht|by left]. apply (iv_cells _ Hinv). by exists x.
  - eapply timers_cancel; [done| |exact Ht|by left]. apply (iv_cells _ Hinv). by exists x.
Qed.

(** A deadline is kept: a context with a deadline that is not canceled has its
    timer set, and when it goes off the context is canceled with
    [DeadlineExceeded], and so is every context made from it that was not canceled
    before. A canceled context has no timer left. *)
Theorem deadline_fires w c p d :
  reachable w -> ctxs w !! c = Some (timerCtx p d) ->
  exists z, cells w !! c = Some z /\ timer z = bool_decide (Err w c = None)
    /\ (Err w c = None -> exists w', step w w'
         /\ forall x, descends (ctxs w) c x -> Err w x = None -> Err w' x = Some DeadlineExceeded).
Proof.
  intros Hr Hc. pose proof (ctx_reachable_inv w Hr) as Hinv.
  assert (Ht : timers_but None w).
  { clear c p d Hc Hinv. induction Hr as [|w w' Hr IH Hst].
    - intros x p' d' z _ _ Hz. cbn [package cells] in Hz. by rewrite lookup_empty in Hz.
    - eapply timers_step; [by apply ctx_reachable_inv|exact IH|exact Hst]. }
  assert (Hcan : canceler (ctxs w) c) by (unfold canceler; by rewrite Hc).
  destruct (proj2 (iv_cells _ Hinv c) Hcan) as [z Hz]. exists z. split; [done|].
  rewrite (Err_canceler w c Hcan), Hz. simpl. destruct (err z) as [e|] eqn:He.
  - split; [|done]. rewrite bool_decide_eq_false_2 by done.
    apply (iv_dead _ Hinv c z Hz). congruence.
  - rewrite bool_decide_eq_true_2 by done. assert (timer z = true) as Htz by by eapply (Ht c).
    split; [done|]. intros _. exists (cancel true DeadlineExceeded c w).
    split; [by apply (step_timer w c z)|]. intros x Hx Hex.
    destruct (cancel_true_cells DeadlineExceeded c w Hinv Hcan) as [Hcs Hk].
    apply (descends_below _ (iv_wf _ Hinv) c x Hcan) in Hx as (q & Hq & Hb).
    rewrite Err_cell, Hq in Hex. rewrite Err_cell, Hcs, Hq. cbn [mbind option_bind] in *.
    rewrite (proj1 (Hk q) Hb). destruct (parentCancel_Some _ (iv_wf _ Hinv) x q Hq) as [_ [zq Hzq]%(iv_cells _ Hinv)].
    rewrite Hzq in *. simpl in *. by rewrite kill_err, Hex.
Qed.

(** ** Values *)

Lemma Value_fuel cs f1 f2 c k :
  tree_wf cs -> c < f1 -> c < f2 -> Value_loop f1 cs c k = Value_loop f2 cs c k.
Proof.
  intros Hwf. revert f2 c. induction f1 as [|f1 IH]; intros [|f2] c H1 H2; [lia..|]. simpl.
  destruct (cs !! c) as [[b|p|p d|p k' v]|] eqn:Hc; try done;
    pose proof (Hwf _ _ _ Hc eq_refl); [apply IH; lia..|].
  destruct (keys_equal k' k) as [[]| |]; try done. apply IH; lia.
Qed.

Lemma Value_app cs l c k : tree_wf cs -> c < length cs -> Value (cs ++ l) c k = Value cs c k.
Proof.
  intros Hwf. unfold Value. generalize (S c) as f. intros f. revert c.
  induction f as [|f IH]; intros c Hc; [done|]. simpl. rewrite lookup_app_lt by done.
  destruct (cs !! c) as [[b|p|p d|p k' v]|] eqn:Hx; try done; pose proof (Hwf _ _ _ Hx eq_refl);
    [apply IH; lia..|]. rewrite IH by lia. done.
Qed.

(** The value of a context that was just made. *)
Lemma Value_new cs x p k :
  tree_wf cs -> p < length cs -> parent_of x = Some p ->
  Value (cs ++ [x]) (length cs) k
  = match x with
    | valueCtx _ k' v => eq ← keys_equal k' k; if eq : bool then Ok v else Value cs p k
    | _ => Value cs p k
    end.
Proof.
  intros Hwf Hp Hx. rewrite <- (Value_app cs [x] p) by done. unfold Value at 1. cbn [Value_loop].
  rewrite lookup_app_r, Nat.sub_diag by done. cbn [lookup list_lookup].
  assert (Hwf' : tree_wf (cs ++ [x])) by (apply tree_wf_snoc; [done|by intros ? [= <-]%(eq_trans (eq_sym Hx))]).
  assert (Hf : Value_loop (length cs) (cs ++ [x]) p k = Value (cs ++ [x]) p k)
    by (apply Value_fuel; [done|lia..]).
  destruct x as [b|p'|p' d|p' k' v]; simplify_eq/=; by rewrite Hf.
Qed.

(** [WithValue] binds one key: the new context gives the value for that key
    and its parent's value for every other, and has its parent's deadline, error
    and [Done] channel; the other contexts keep their values. Two keys that are
    byte slices cannot be compared, and looking one up panics. *)
Theorem WithValue_spec w p k v k' :
  reachable w -> p < length (ctxs w) ->
  let '(c, w') := WithValue p k v w in
  Value (ctxs w') c k' = (eq ← keys_equal k k'; if eq : bool then Ok v else Value (ctxs w) p k')
  /\ Deadline (ctxs w') c = Deadline (ctxs w) p
  /\ Err w' c = Err w p /\ Done w' c = Done w p
  /\ forall x, x < length (ctxs w) -> Value (ctxs w') x k' = Value (ctxs w) x k'.
Proof.
  intros Hinv%ctx_reachable_inv Hp. pose proof (iv_wf _ Hinv) as Hwf. cbn [WithValue alloc ctxs].
  assert (Hpar : parentCancelCtx (ctxs w ++ [valueCtx p k v]) (length (ctxs w)) = parentCancelCtx (ctxs w) p).
  { rewrite <- (parentCancel_app _ [valueCtx p k v] p) by done.
    eapply parentCancel_value; [apply tree_wf_snoc; [done|by intros ? [= <-]]|].
    by rewrite lookup_app_r, Nat.sub_diag. }
  split_and!.
  - exact (Value_new (ctxs w) (valueCtx p k v) p k' Hwf Hp eq_refl).
  - exact (Deadline_new (ctxs w) (valueCtx p k v) p Hwf Hp eq_refl).
  - rewrite !Err_cell. cbn [ctxs cells]. by rewrite Hpar.
  - rewrite !Done_parentCancel. exact Hpar.
  - intros x Hx. by apply Value_app.
Qed.

(** ** A small tree *)

(** A context that can be canceled, one with a value below it, and one with a
    deadline below that. *)
Definition tree : world :=
  (WithDeadline 0 3 10 (WithValue 2 (VOther 0) (VOther 1) (WithCancel Background package).2).2).2.

Lemma tree_reachable : reachable tree.
Proof.
  eapply reach_step; [eapply reach_step; [eapply reach_step; [apply reach_init|]|]|].
  - apply (step_WithCancel package Background). apply Nat.ltb_lt. by vm_compute.
  - apply (step_WithValue _ 2 (VOther 0) (VOther 1)). apply Nat.ltb_lt. by vm_compute.
  - apply (step_WithDeadline _ 0 3 10). apply Nat.ltb_lt. by vm_compute.
Qed.

Lemma tree_descends x : x ∈ [2; 3; 4] -> descends (ctxs tree) 2 x.
Proof.
  assert (H3 : descends (ctxs tree) 2 3) by (eapply desc_up; [reflexivity..|constructor]).
  intros [->|[->|[->|[]%elem_of_nil]%elem_of_cons]%elem_of_cons]%elem_of_cons;
    [constructor|exact H3|]. eapply desc_up; [reflexivity..|exact H3].
Qed.
End Props.

Lemma cancel_reaches_witness :
  let R := elements_range nat in
  Err (cancel true Canceled 2 tree) 4 = Some Canceled
  /\ Done_closed (cancel true Canceled 2 tree) 4 = true.
Proof.
  intros R. destruct (cells tree !! 2) as [z|] eqn:Hz; [|vm_compute in Hz; done].
  destruct (cancel_reaches tree 2 z Canceled 4 tree_reachable Hz) as [H _].
  apply H. apply tree_descends. vm_compute. right. right. left.
Defined.

Lemma context_tree_invariant_witness :
  let R := elements_range nat in
  Done_closed tree 4 = true <-> Err tree 4 <> None.
Proof.
  intros R. apply (context_tree_invariant tree 2 4 tree_reachable).
Defined.

Lemma Err_final_witness :
  let R := elements_range nat in
  let w := CancelFunc 2 tree in
  let w' := CancelFunc 4 w in
  Err w' 4 = Some Canceled /\ Done_closed w' 4 = true.
Proof.
  intros R w w'. destruct (cells tree !! 2) as [z|] eqn:Hz; [|vm_compute in Hz; done].
  destruct (cells w !! 4) as [z'|] eqn:Hz'; [|vm_compute in Hz'; done].
  apply (Err_final w w' 4 Canceled).
  - eapply reach_step; [apply tree_reachable|by apply (step_CancelFunc _ 2 z)].
  - by apply (step_CancelFunc _ 4 z').
  - apply Nat.ltb_lt. by vm_compute.
  - by vm_compute.
Defined.

Lemma WithDeadline_spec_witness :
  let R := elements_range nat in
  Deadline (ctxs (WithDeadline 5 4 20 tree).2) 5 = Some 10%Z.
Proof.
  intros R. pose proof (WithDeadline_spec tree 5 4 20 tree_reachable) as H.
  cbv zeta in H. destruct (WithDeadline 5 4 20 tree) as [c w'] eqn:Hw.
  assert (c = 5) as -> by (vm_compute in Hw; congruence).
  destruct H as [H _]; [apply Nat.ltb_lt; by vm_compute|]. exact H.
Defined.

Lemma deadline_fires_witness :
  let R := elements_range nat in
  exists z, cells tree !! 4 = Some z /\ timer z = bool_decide (Err tree 4 = None).
Proof.
  intros R. destruct (deadline_fires tree 4 3 10 tree_reachable) as (z & Hz & Ht & _).
  - by vm_compute.
  - by exists z.
Defined.

Lemma WithValue_spec_witness :
  let R := elements_range nat in
  Err (WithValue 4 (VOther 7) VNil tree).2 5 = Err tree 4.
Proof.
  intros R. pose proof (WithValue_spec tree 4 (VOther 7) VNil VNil tree_reachable) as H.
  cbn [WithValue alloc] in *. destruct H as (_ & _ & H & _); [apply Nat.ltb_lt; by vm_compute|].
  exact H.
Defined.
