(* ===== verification/Bridge.v ===== *)
(** * Processes and contexts together

    Models [Godeps/.../goprocess/context/context.go] and
    [thirdparty/waitable/waitable.go]: goroutines that wait for a process to cancel
    a context, or for a context to close a process. A system is a machine of
    [Process], a tree of [Context], and the goroutines of these functions that are
    still waiting. *)

From S2P Require Import Prelude Query Process ProcessFacts ProcessProps Context ContextFacts ContextProps.

(** ** The goroutines *)

(** [<-p.Closing(); cancel()], [<-p.Closed(); cancel()], [<-ctx.Done(); p.Close()]. *)
Inductive bridge :=
  | CancelOnClosing (p : pid) (c : nat)
  | CancelOnClosed (p : pid) (c : nat)
  | CloseOnDone (c : nat) (p : pid).

(** [fired] is ghost: the goroutines that have done their call. *)
Record system := mkSystem {
  machine_ : machine;
  world_ : world;
  waiting : list bridge;
  fired : list bridge;
}.

Section Bridge.
Context `{!GoRange nat}.

(** Whether the receive of the goroutine returns, and its call. *)
Definition ready (m : machine) (w : world) (b : bridge) : bool :=
  match b with
  | CancelOnClosing p _ => is_closing (mem m) p
  | CancelOnClosed p _ => is_closed (mem m) p
  | CloseOnDone c _ => Done_closed w c
  end.
Definition run_bridge (b : bridge) (m : machine) (w : world) : machine * world :=
  match b with
  | CancelOnClosing _ c | CancelOnClosed _ c => (m, CancelFunc c w)
  | CloseOnDone _ p => (mkMachine (mem m) (threads m ++ [[FClose p]]), w)
  end.

Definition go_bridge (b : bridge) (m : machine) (w : world) (s : system) : system :=
  mkSystem m w (waiting s ++ [b]) (fired s).

(** A call of a process method by the running goroutine, [None] when it waits for
    a mutex. *)
Definition call_process (c : Process.call) (m : machine) : option (res machine) :=
  match exec_call c (mem m) with
  | (Next _ gos s, t) => Some (Ok (mkMachine s (threads m ++ t ++ spawned gos)))
  | (Panics, _) => Some Panic
  | (Blocked, _) => None
  end.

Definition WithContext (ctx : option nat) (pick : bool) (s : system) : option (res (pid * system)) :=
  match ctx with
  | None => Some Panic
  | Some c =>
      let p := length (procs (mem (machine_ s))) in
      match call_process (CWithParent (Some Process.Background) pick) (machine_ s) with
      | Some (Ok m) => Some (Ok (p, go_bridge (CloseOnDone c p) m (world_ s) s))
      | Some _ => Some Panic
      | None => None
      end
  end.

(** Two calls; other goroutines may run between them. *)
Definition WaitForContext (ctx : option nat) (p : pid) (pick : bool) (s : system) : option (res system) :=
  match WithContext ctx pick s with
  | Some (Ok (q, s)) =>
      match call_process (CWaitFor p (Some q)) (machine_ s) with
      | Some (Ok m) => Some (Ok (mkSystem m (world_ s) (waiting s) (fired s)))
      | Some _ => Some Panic
      | None => None
      end
  | Some _ => Some Panic
  | None => None
  end.

Definition WithProcessClosing (ctx : nat) (p : pid) (s : system) : nat * system :=
  let '(c, w) := WithCancel ctx (world_ s) in (c, go_bridge (CancelOnClosing p c) (machine_ s) w s).
Definition WithProcessClosed (ctx : nat) (p : pid) (s : system) : nat * system :=
  let '(c, w) := WithCancel ctx (world_ s) in (c, go_bridge (CancelOnClosed p c) (machine_ s) w s).

(** [waitable.Context], for a process. *)
Definition Context_ (p : pid) (s : system) : nat * system := WithProcessClosing Context.Background p s.

(** ** Executions *)
Inductive step (s : system) : system -> Prop :=
  | step_process l m :
      Process.step (machine_ s) l (Running m) -> step s (mkSystem m (world_ s) (waiting s) (fired s))
  | step_context w :
      Context.step (world_ s) w -> step s (mkSystem (machine_ s) w (waiting s) (fired s))
  | step_WithContext c pick p s' :
      c < length (ctxs (world_ s)) -> WithContext (Some c) pick s = Some (Ok (p, s')) -> step s s'
  | step_WithProcessClosing c p :
      c < length (ctxs (world_ s)) -> step s (WithProcessClosing c p s).2
  | step_WithProcessClosed c p :
      c < length (ctxs (world_ s)) -> step s (WithProcessClosed c p s).2
  | step_fire l1 b l2 :
      waiting s = l1 ++ b :: l2 -> ready (machine_ s) (world_ s) b = true ->
      step s (mkSystem (run_bridge b (machine_ s) (world_ s)).1 (run_bridge b (machine_ s) (world_ s)).2
                (l1 ++ l2) (fired s ++ [b])).

Inductive reachable : system -> Prop :=
  | reach_init : reachable (mkSystem boot package [] [])
  | reach_step s s' : reachable s -> step s s' -> reachable s'.
End Bridge.

(** ** Flags of processes are kept *)

Lemma is_closing_add_link kid wait p c s q : is_closing (add_link kid wait p c s) q = is_closing s q.
Proof.
  unfold is_closing, add_link. cbn [procs]. unfold upd. cbn [procs]. rewrite list_lookup_alter.
  destruct (decide (p = q)) as [->|]; [|done]. by destruct (procs s !! q).
Qed.

Lemma is_closing_set_teardown p tf s q : is_closing (upd p (set_teardown tf) s) q = is_closing s q.
Proof.
  unfold is_closing, upd. cbn [procs]. rewrite list_lookup_alter.
  destruct (decide (p = q)) as [->|]; [|done]. by destruct (procs s !! q).
Qed.

Lemma AddChild_closing wait p c pick s fs gos s' q :
  AddChild_ wait p c pick s = Next fs gos s' -> is_closing s' q = is_closing s q.
Proof.
  unfold AddChild_, with_proc. intros H. repeat case_match; simplify_eq; apply is_closing_add_link.
Qed.

Lemma go_processes_closing s c w s' q : go_processes s = (c, w, s') -> is_closing s' q = is_closing s q.
Proof.
  intros H. unfold go_processes in H. injection H as <- <- <-.
  etransitivity; [apply is_closing_add_link|].
  exact (eq_trans (is_closing_new nilTeardownFunc (new_process nilTeardownFunc s).2 q) (is_closing_new _ _ _)).
Qed.

Lemma call_closing c s fs gos s' t q :
  exec_call c s = (Next fs gos s', t) -> is_closing s' q = is_closing s q.
Proof.
  intros H. destruct c; cbn [exec_call] in H; try (by simplify_eq).
  - unfold WaitFor, with_proc in H. repeat case_match; simplify_eq. apply is_closing_add_link.
  - apply pair_eq in H as [H _]. by eapply AddChild_closing.
  - apply pair_eq in H as [H _]. by eapply AddChild_closing.
  - unfold SetTeardown, with_proc in H. repeat case_match; simplify_eq. apply is_closing_set_teardown.
  - unfold Go in H. destruct (go_processes s) as [[x w] s1] eqn:Hg.
    rewrite <- (go_processes_closing _ _ _ _ q Hg). destruct (AddChild p (Some x) pick s1) as [| |fs1 gos1 s2] eqn:Ha; [done..|].
    simplify_eq. exact (AddChild_closing true _ _ _ _ _ _ _ q Ha).
  - unfold Go_top in H. destruct (go_processes s) as [[x w] s1] eqn:Hg. simplify_eq.
    by eapply go_processes_closing.
  - unfold WithTeardown in H. destruct tf; simplify_eq. apply is_closing_new.
  - destruct p as [p|]; [|discriminate]. apply pair_eq in H as [H _].
    rewrite <- (is_closing_new nilTeardownFunc s q).
    exact (AddChild_closing true p _ pick (new_process nilTeardownFunc s).2 _ _ _ q H).
Qed.

Lemma step_closing m l m' q :
  Process.reachable m -> Process.step m l (Running m') ->
  is_closing (mem m) q = true -> is_closing (mem m') q = true.
Proof.
  intros Hr Hs Hq. pose proof (freach_life _ _ (reachable_flat m Hr)) as HL. inversion Hs; subst; simpl in *.
  - eapply closing_mono; [|exact Hq]. eapply (exec_change s f (k ++ concat (t1 ++ t2))); [|done].
    eapply life_perm; [exact HL|]. rewrite !concat_app. simpl. solve_Permutation.
  - done.
  - by erewrite call_closing.
Qed.

(** ** What a bridge has done *)

Section Facts.
Context `{!GoRange nat}.

(** The receive of the goroutine stays ready, and its call has had its effect: the
    context is canceled; the process is closing, or a goroutine is in its [Close]. *)
Definition done_by (m : machine) (w : world) (b : bridge) : Prop :=
  match b with
  | CancelOnClosing p c => is_closing (mem m) p = true /\ Done_closed w c = true /\ Err w c <> None
  | CancelOnClosed p c => is_closed (mem m) p = true /\ Done_closed w c = true /\ Err w c <> None
  | CloseOnDone c p => Done_closed w c = true
      /\ (is_closing (mem m) p = true \/ exists t, t ∈ threads m /\ head t = Some (FClose p))
  end.

(** The context a bridge watches or cancels exists; the one it cancels can be. *)
Definition bridge_wf (w : world) (b : bridge) : Prop :=
  match b with
  | CancelOnClosing _ c | CancelOnClosed _ c => canceler (ctxs w) c
  | CloseOnDone c _ => c < length (ctxs w)
  end.

Record bridged (s : system) : Prop := {
  br_machine : Process.reachable (machine_ s);
  br_world : Context.reachable (world_ s);
  br_wf b : b ∈ waiting s ++ fired s -> bridge_wf (world_ s) b;
  br_done b : b ∈ fired s -> done_by (machine_ s) (world_ s) b;
}.

(** A step of a world keeps its contexts, and those that are canceled. *)
Lemma world_keeps w w' x :
  Context.reachable w -> Context.step w w' -> x < length (ctxs w) ->
  x < length (ctxs w') /\ (canceler (ctxs w) x -> canceler (ctxs w') x)
  /\ (Err w x <> None -> Err w' x <> None)
  /\ (Done_closed w x = true -> Done_closed w' x = true).
Proof.
  intros Hr Hs Hx. pose proof (ctx_reachable_inv w Hr) as Hinv.
  destruct (keeps_step w w' Hinv Hs) as [[l Hl] Hk]. pose proof (ctx_step_inv w w' Hinv Hs) as Hinv'.
  assert (Hpc : parentCancelCtx (ctxs w') x = parentCancelCtx (ctxs w) x)
    by (rewrite Hl; apply parentCancel_app; [apply Hinv|done]).
  rewrite !Err_cell, !Done_cell, Hpc. split_and!.
  - rewrite Hl, length_app. lia.
  - rewrite Hl. by apply canceler_app.
  - destruct (parentCancelCtx (ctxs w) x) as [q|]; [|done]. cbn [mbind option_bind].
    destruct (cells w !! q) as [z|] eqn:Hz; [|done]. simpl. destruct (err z) as [e|] eqn:He; [|done].
    destruct (Hk q z e Hz He) as (z' & -> & He'). simpl. by rewrite He'.
  - destruct (parentCancelCtx (ctxs w) x) as [q|]; [|done].
    destruct (cells w !! q) as [z|] eqn:Hz; [|done]. intros Hd.
    destruct (err z) as [e|] eqn:He; [|by rewrite (iv_open _ Hinv q z Hz He) in Hd].
    destruct (Hk q z e Hz He) as (z' & Hz' & He'). rewrite Hz'. apply (iv_dead _ Hinv' q z' Hz'). congruence.
Qed.
End Facts.

Lemma step_closed m l m' q :
  Process.reachable m -> Process.step m l (Running m') ->
  is_closed (mem m) q = true -> is_closed (mem m') q = true.
Proof.
  intros Hr Hs Hq. pose proof (freach_life _ _ (reachable_flat m Hr)) as HL.
  pose proof (freach_life _ _ (reachable_flat m' (Process.reachable_step m l m' Hr Hs))) as HL'.
  apply (proj2 (life_log _ _ HL)) in Hq. apply (proj2 (life_log _ _ HL')).
  apply list_elem_of_fmap in Hq as (x & -> & Hx). apply list_elem_of_fmap_2. by eapply step_log.
Qed.

(** A pending [Close] stays pending until it has marked the process. *)
Lemma step_pending m l m' p t :
  Process.step m l (Running m') -> t ∈ threads m -> head t = Some (FClose p) ->
  is_closing (mem m') p = true \/ exists t', t' ∈ threads m' /\ head t' = Some (FClose p).
Proof.
  intros Hs Ht Hh. inversion Hs; subst; cbn [threads mem] in *.
  - apply elem_of_app in Ht as [Ht|[->|Ht]%elem_of_cons].
    + right. exists t. split; [|done]. apply elem_of_app. by left.
    + left. injection Hh as ->. simpl in *. unfold with_proc, Close in *.
      destruct (procs s !! p) as [P|] eqn:Hp; [|done]. destruct (unclosable P); [done|].
      destruct (locked P); [done|]. destruct (closing P) eqn:Hc; simplify_eq.
      * by rewrite (is_closing_lookup _ p P Hp).
      * rewrite (is_closing_upd p start_closing s P p Hp). by rewrite decide_True.
    + right. exists t. split; [|done]. rewrite !elem_of_app, elem_of_cons, elem_of_app. tauto.
  - right. exists t. split; [|done]. apply elem_of_app in Ht as [Ht|[->|Ht]%elem_of_cons]; [|done|].
    + apply elem_of_app. by left.
    + rewrite elem_of_app, elem_of_cons. tauto.
  - right. exists t. split; [|done]. apply elem_of_app. by left.
Qed.

Section Invariant.
Context `{!GoRange nat}.

Lemma done_by_process m l m' w b :
  Process.reachable m -> Process.step m l (Running m') -> done_by m w b -> done_by m' w b.
Proof.
  intros Hr Hs. destruct b as [p c|p c|c p]; simpl.
  - intros (? & ? & ?). split_and!; [by eapply step_closing|done..].
  - intros (? & ? & ?). split_and!; [by eapply step_closed|done..].
  - intros (? & [Hc|(t & Ht & Hh)]); (split; [done|]).
    + left. by eapply step_closing.
    + by eapply step_pending.
Qed.

Lemma bridge_context_lt w b : match b with CancelOnClosing _ c | CancelOnClosed _ c | CloseOnDone c _ =>
  bridge_wf w b -> c < length (ctxs w) end.
Proof. destruct b; simpl; [apply canceler_lt|apply canceler_lt|done]. Qed.

Lemma done_by_context m w w' b :
  Context.reachable w -> Context.step w w' -> bridge_wf w b -> done_by m w b -> done_by m w' b.
Proof.
  intros Hr Hs Hb. pose proof (bridge_context_lt w b) as Hlt. destruct b as [p c|p c|c p];
    destruct (world_keeps w w' c Hr Hs (Hlt Hb)) as (_ & _ & He & Hd); simpl in *; naive_solver.
Qed.

Lemma bridge_wf_context w w' b :
  Context.reachable w -> Context.step w w' -> bridge_wf w b -> bridge_wf w' b.
Proof.
  intros Hr Hs Hb. pose proof (bridge_context_lt w b) as Hlt. destruct b as [p c|p c|c p];
    destruct (world_keeps w w' c Hr Hs (Hlt Hb)) as (Hl & Hc & _); simpl in *; auto.
Qed.

Lemma WithCancel_canceler w p :
  Context.reachable w -> p < length (ctxs w) ->
  (WithCancel p w).1 = length (ctxs w) /\ canceler (ctxs (WithCancel p w).2) (length (ctxs w)).
Proof.
  intros Hr Hp. split; [done|].
  destruct (propagate_cells w (cancelCtx p) p (ctx_reachable_inv w Hr) Hp (or_intror eq_refl)) as (Hcs & _).
  change (canceler (ctxs (propagateCancel p (length (ctxs w)) (newCancelCtx (cancelCtx p) w).2)) (length (ctxs w))).
  rewrite Hcs. apply (canceler_new _ _ p). by right.
Qed.

(** The cell of a context that can be canceled. *)
Lemma canceler_cell w c : Context.reachable w -> canceler (ctxs w) c -> exists z, cells w !! c = Some z.
Proof. intros Hr Hc. destruct (proj2 (iv_cells _ (ctx_reachable_inv w Hr) c) Hc) as [z Hz]. by exists z. Qed.

Lemma canceled_done w c :
  Context.reachable w -> canceler (ctxs w) c ->
  Done_closed (CancelFunc c w) c = true /\ Err (CancelFunc c w) c <> None.
Proof.
  intros Hr Hc. destruct (canceler_cell w c Hr Hc) as [z Hz].
  destruct (proj1 (cancel_effect w c z Canceled c Hr Hz) (desc_refl _ _)) as [He Hd].
  split; [exact Hd|]. unfold CancelFunc. rewrite He. done.
Qed.

Lemma bridged_go s b m w :
  bridged s -> Process.reachable m -> Context.reachable w -> bridge_wf w b ->
  (forall b', bridge_wf (world_ s) b' -> bridge_wf w b') ->
  (forall b', b' ∈ fired s -> done_by (machine_ s) (world_ s) b' -> done_by m w b') ->
  bridged (go_bridge b m w s).
Proof.
  intros HB Hm Hw Hb Hwf Hd. split; cbn [go_bridge machine_ world_ waiting fired]; [done..| |].
  - intros b' [[Hin|Hin]%elem_of_app|Hin]%elem_of_app.
    + apply Hwf, (br_wf _ HB). apply elem_of_app. by left.
    + by apply list_elem_of_singleton in Hin as ->.
    + apply Hwf, (br_wf _ HB). apply elem_of_app. by right.
  - intros b' Hin. apply Hd; [done|]. by apply (br_done _ HB).
Qed.

(** A context derived from [c], and the goroutine that cancels it. *)
Lemma bridged_derive s c (b : nat -> bridge) :
  bridged s -> c < length (ctxs (world_ s)) ->
  (forall w c', canceler (ctxs w) c' -> bridge_wf w (b c')) ->
  bridged (go_bridge (b (WithCancel c (world_ s)).1) (machine_ s) (WithCancel c (world_ s)).2 s).
Proof.
  intros HB Hc Hb. pose proof (br_world _ HB) as Hw. destruct (WithCancel_canceler _ c Hw Hc) as [H1 H2].
  assert (Hst : Context.step (world_ s) (WithCancel c (world_ s)).2) by by constructor.
  rewrite H1. apply bridged_go; [done|apply HB|by eapply Context.reach_step|by apply Hb|intros b'; by eapply bridge_wf_context|].
  intros b' Hin. eapply done_by_context; [done|done|]. apply (br_wf _ HB). apply elem_of_app. by right.
Qed.

Lemma bridged_fire s l1 b l2 :
  bridged s -> waiting s = l1 ++ b :: l2 -> ready (machine_ s) (world_ s) b = true ->
  let '(m, w) := run_bridge b (machine_ s) (world_ s) in
  done_by m w b /\ bridged (mkSystem m w (l1 ++ l2) (fired s ++ [b])).
Proof.
  intros HB Hwt Hrd. pose proof (br_machine _ HB) as Hm. pose proof (br_world _ HB) as Hw.
  assert (Hin : b ∈ waiting s ++ fired s) by (rewrite Hwt, !elem_of_app, elem_of_cons; tauto).
  pose proof (br_wf _ HB b Hin) as Hb.
  assert (Hsub : forall b', b' ∈ (l1 ++ l2) ++ fired s ++ [b] -> b' ∈ waiting s ++ fired s).
  { intros b'. rewrite Hwt, !elem_of_app, !elem_of_cons, elem_of_nil. intros [[?|?]|[?|[->|[]]]]; tauto. }
  assert (Hout : forall m w, done_by m w b -> Process.reachable m -> Context.reachable w ->
    (forall b', bridge_wf (world_ s) b' -> bridge_wf w b') ->
    (forall b', b' ∈ fired s -> done_by (machine_ s) (world_ s) b' -> done_by m w b') ->
    bridged (mkSystem m w (l1 ++ l2) (fired s ++ [b]))).
  { intros m w Hd Hm' Hw' Hwf Hk. split; cbn [machine_ world_ waiting fired]; [done..| |].
    - intros b' Hb'. by apply Hwf, (br_wf _ HB), Hsub.
    - intros b' [Hb'|Hb']%elem_of_app; [apply Hk; [done|by apply (br_done _ HB)]|].
      by apply list_elem_of_singleton in Hb' as ->. }
  assert (Hfired : forall b', b' ∈ fired s -> bridge_wf (world_ s) b')
    by (intros b' Hb'; apply (br_wf _ HB), elem_of_app; by right).
  destruct b as [p c|p c|c p]; cbn [run_bridge ready bridge_wf] in *.
  1, 2: assert (Hst : Context.step (world_ s) (CancelFunc c (world_ s)))
          by (destruct (canceler_cell _ c Hw Hb) as [z Hz]; by eapply step_CancelFunc);
        destruct (canceled_done _ c Hw Hb) as [Hd He];
        split; [done|]; apply Hout; [done|done|by eapply Context.reach_step|intros b'; by eapply bridge_wf_context|];
        intros b' Hb'; eapply done_by_context; [done|done|by apply Hfired].
  assert (Hst : Process.step (machine_ s) (Call (CClose p))
    (Running (mkMachine (mem (machine_ s)) (threads (machine_ s) ++ [[FClose p]])))).
  { destruct (machine_ s) as [st ts]. by apply (Process.step_call st ts (CClose p) [] [FClose p] st []). }
  assert (Hd : done_by (mkMachine (mem (machine_ s)) (threads (machine_ s) ++ [[FClose p]])) (world_ s) (CloseOnDone c p)).
  { split; [done|]. right. exists [FClose p]. split; [|done]. apply elem_of_app. right. by left. }
  split; [done|]. apply Hout; [done|by eapply Process.reachable_step|done|done|].
  intros b' _. by eapply done_by_process.
Qed.

Lemma bridged_step s s' : bridged s -> step s s' -> bridged s'.
Proof.
  intros HB Hs. pose proof (br_machine _ HB) as Hm. pose proof (br_world _ HB) as Hw.
  destruct Hs as [l m Hst|w Hst|c pick p s' Hc HW|c p Hc|c p Hc|l1 b l2 Hwt Hrd].
  - split; cbn [machine_ world_ waiting fired]; [by eapply Process.reachable_step|done|apply HB|].
    intros b Hin. eapply done_by_process; [done..|]. by apply (br_done _ HB).
  - split; cbn [machine_ world_ waiting fired]; [done|by eapply Context.reach_step| |].
    + intros b Hin. eapply bridge_wf_context; [done..|]. by apply (br_wf _ HB).
    + intros b Hin. eapply done_by_context; [done|done| |by apply (br_done _ HB)].
      apply (br_wf _ HB). apply elem_of_app. by right.
  - unfold WithContext, call_process in HW.
    destruct (exec_call _ _) as [[| |fs gos st] t] eqn:He; simplify_eq.
    assert (Hst : Process.step (machine_ s) (Call (CWithParent (Some Process.Background) pick))
      (Running (mkMachine st (threads (machine_ s) ++ t ++ spawned gos)))).
    { destruct (machine_ s) as [st0 ts]. by eapply step_call. }
    apply bridged_go; [done|by eapply Process.reachable_step|done|done|done|].
    intros b' _. by eapply done_by_process.
  - by apply (bridged_derive s c (CancelOnClosing p)).
  - by apply (bridged_derive s c (CancelOnClosed p)).
  - pose proof (bridged_fire s l1 b l2 HB Hwt Hrd) as HF. by destruct (run_bridge b _ _); destruct HF.
Qed.
End Invariant.

(** ** Theorems *)

Section Theorems.
Context `{!GoRange nat}.

Lemma bridged_init : bridged (mkSystem boot package [] []).
Proof. split; [constructor|constructor|by intros b ?%elem_of_nil..]. Qed.

Lemma reachable_bridged s : reachable s -> bridged s.
Proof. induction 1; [apply bridged_init|by eapply bridged_step]. Qed.

(** What a goroutine has been waiting for does not go away. *)
Lemma ready_step s s' b :
  bridged s -> step s s' -> b ∈ waiting s -> ready (machine_ s) (world_ s) b = true ->
  ready (machine_ s') (world_ s') b = true.
Proof.
  intros HB Hs Hin. pose proof (br_machine _ HB) as Hm. pose proof (br_world _ HB) as Hw.
  assert (Hb : bridge_wf (world_ s) b) by (apply (br_wf _ HB), elem_of_app; by left).
  assert (HP : forall l m, Process.step (machine_ s) l (Running m) ->
    ready (machine_ s) (world_ s) b = true -> ready m (world_ s) b = true)
    by (intros l m Hst; destruct b; simpl; [by eapply step_closing|by eapply step_closed|done]).
  assert (HC : forall m w, Context.step (world_ s) w -> ready m (world_ s) b = true -> ready m w b = true).
  { intros m w Hst. destruct b as [p c|p c|c p]; [done..|]. simpl in *.
    by destruct (world_keeps _ w c Hw Hst Hb) as (_ & _ & _ & Hd). }
  destruct Hs as [l m Hst|w Hst|c pick p s' Hc HW|c p Hc|c p Hc|l1 b' l2 Hwt Hrd]; cbn [machine_ world_ snd].
  - by eapply HP.
  - by apply HC.
  - unfold WithContext, call_process in HW. destruct (exec_call _ _) as [[| |fs gos st] t] eqn:He; simplify_eq.
    apply (HP (Call (CWithParent (Some Process.Background) pick))). destruct (machine_ s) as [st0 ts]. by eapply Process.step_call.
  - apply (HC _ (WithCancel c (world_ s)).2). by constructor.
  - apply (HC _ (WithCancel c (world_ s)).2). by constructor.
  - assert (Hb' : bridge_wf (world_ s) b') by (apply (br_wf _ HB); rewrite Hwt, !elem_of_app, elem_of_cons; tauto).
    destruct b' as [p c|p c|c p]; cbn [run_bridge fst snd].
    1, 2: apply HC; destruct (canceler_cell _ c Hw Hb') as [z Hz]; by eapply step_CancelFunc.
    apply (HP (Call (CClose p))). destruct (machine_ s) as [st ts].
    by apply (Process.step_call st ts (CClose p) [] [FClose p] st []).
Qed.

End Theorems.

(** A process that has been told to close, and a context tied to it. *)
Definition told_to_close : list move := [MCall (CWithTeardown (Some nilTeardownFunc)); MCall (CClose 1); MThread 0].
Definition tied : system :=
  (@WithProcessClosing (elements_range nat) Context.Background 1 (mkSystem (after told_to_close) package [] [])).2.

Lemma reachable_alone `{!GoRange nat} m : Process.reachable m -> reachable (mkSystem m package [] []).
Proof. induction 1 as [|m l m' _ IH Hs]; [constructor|]. eapply reach_step; [exact IH|]. by eapply (step_process (mkSystem m package [] [])). Qed.

Lemma tied_reachable : @reachable (elements_range nat) tied.
Proof.
  eapply reach_step; [|apply step_WithProcessClosing; change (0 < 2); lia].
  apply reachable_alone, after_reachable. by eexists.
Qed.

