(* ===== verification/Signals.v ===== *)
(** * Processes for functions and signals

    Models [GoChild] and [WithSignals] of [Godeps/.../jbenet/goprocess/goprocess.go]
    on the machine of [Process]. *)

From S2P Require Import Prelude Process ProcessFacts ProcessProps Bridge.

(** ** GoChild *)

(** Two calls; what runs between them is left to the machine. *)
Definition GoChild (parent : option pid) (pick : bool) (m : machine) : option (res (pid * machine)) :=
  let p := length (procs (mem m)) in
  match call_process (CWithParent parent pick) m with
  | Some (Ok m) =>
      match call_process (CGo p pick) m with
      | Some (Ok m) => Some (Ok (p, m))
      | Some _ => Some Panic
      | None => None
      end
  | Some _ => Some Panic
  | None => None
  end.

Lemma call_process_reachable c m m' :
  Process.reachable m -> call_process c m = Some (Ok m') -> Process.reachable m'.
Proof.
  unfold call_process. intros Hm Hc. destruct (exec_call c (mem m)) as [[| |fs gos s] t] eqn:He; simplify_eq.
  eapply Process.reachable_step; [exact Hm|]. destruct m as [s0 ts]. by eapply Process.step_call.
Qed.

Lemma is_closed_add_link kid wait p c s q : is_closed (add_link kid wait p c s) q = is_closed s q.
Proof.
  unfold is_closed, add_link. cbn [procs]. unfold upd. cbn [procs]. rewrite list_lookup_alter.
  destruct (decide (p = q)) as [->|]; [|done]. by destruct (procs s !! q).
Qed.

Lemma is_closed_fresh tf s q : is_closed s q = false -> is_closed (new_process tf s).2 q = false.
Proof.
  unfold is_closed, new_process. cbn. destruct (procs s !! q) as [P|] eqn:Hp.
  - by rewrite (lookup_app_l_Some _ _ _ _ Hp).
  - intros _. destruct ((procs s ++ [newProcess tf false]) !! q) as [P|] eqn:Hq; [|done].
    apply lookup_app_Some in Hq as [Hq|[_ Hq]]; [congruence|].
    by apply list_lookup_singleton_Some in Hq as [_ <-].
Qed.

(** Adding a child to a process that is not closed records it. *)
Lemma AddChild_kids p c pick s fs gos s' :
  AddChild p (Some c) pick s = Next fs gos s' -> is_closed s p = false -> (p, c) ∈ kids s'.
Proof.
  unfold AddChild, AddChild_, with_proc. intros H Hc. repeat case_match; simplify_eq;
    unfold add_link; cbn [kids]; rewrite Hc; cbn; apply elem_of_app; right; by left.
Qed.
Lemma AddChild_keeps p c pick s fs gos s' x :
  AddChild p (Some c) pick s = Next fs gos s' -> x ∈ kids s -> x ∈ kids s'.
Proof.
  unfold AddChild, AddChild_, with_proc. intros H Hx. repeat case_match; simplify_eq; unfold add_link in *;
    cbn [kids]; case_match; (done || (apply elem_of_app; by left)).
Qed.
Lemma AddChild_is_closed p c pick s fs gos s' q :
  AddChild p (Some c) pick s = Next fs gos s' -> is_closed s' q = is_closed s q.
Proof.
  unfold AddChild, AddChild_, with_proc. intros H. repeat case_match; simplify_eq; apply is_closed_add_link.
Qed.

(** [GoChild] registers before it runs: when it returns, the new process is a child
    of its parent, the process of the function a child of the new process, and the
    goroutine has not begun the function; what [ProcessProps] shows of children, that
    they are told to close and waited for, holds of both. *)
Theorem GoChild_registers (parent : pid) (pick : bool) (m m' : machine) (p : pid) :
  Process.reachable m -> is_closed (mem m) parent = false ->
  GoChild (Some parent) pick m = Some (Ok (p, m')) ->
  Process.reachable m' /\ (parent, p) ∈ kids (mem m')
  /\ exists c w, (p, c) ∈ kids (mem m') /\ [FBody; FClose w; FAfter c] ∈ threads m'.
Proof.
  intros Hm Hc. unfold GoChild. destruct (call_process (CWithParent _ _) m) as [[m1|e|]|] eqn:H1; try done.
  destruct (call_process (CGo _ _) m1) as [[m2|e|]|] eqn:H2; try done. intros [= <- <-].
  set (p := length (procs (mem m))) in *.
  assert (Hr1 := call_process_reachable _ _ _ Hm H1).
  split; [by eapply call_process_reachable|].
  unfold call_process in H1. cbn [exec_call WithParent new_process] in H1.
  destruct (AddChild parent (Some p) pick (new_process nilTeardownFunc (mem m)).2) as [| |fs gos s1] eqn:Ha;
    unfold new_process in Ha; cbn [snd] in Ha; fold p in H1; rewrite Ha in H1; try done.
  injection H1 as <-. cbn [mem threads] in *.
  assert (Hk1 : (parent, p) ∈ kids s1) by (eapply AddChild_kids; [exact Ha|]; by apply (is_closed_fresh nilTeardownFunc)).
  unfold call_process in H2. cbn [exec_call mem threads] in H2. unfold Go in H2.
  destruct (go_processes s1) as [[c w] s2] eqn:Hg.
  destruct (AddChild p (Some c) pick s2) as [| |fs2 gos2 s3] eqn:Ha2; try done.
  injection H2 as <-. cbn [mem threads].
  assert (Hks : kids s2 = kids s1) by (unfold go_processes in Hg; cbn in Hg; injection Hg as _ _ <-; done).
  split; [eapply AddChild_keeps; [exact Ha2|by rewrite Hks]|].
  exists c, w. split; [|rewrite !elem_of_app; right; left; by left].
  eapply AddChild_kids; [exact Ha2|]. unfold go_processes in Hg. injection Hg as _ _ <-.
  rewrite is_closed_add_link. apply (is_closed_fresh nilTeardownFunc (new_process nilTeardownFunc s1).2).
  apply is_closed_fresh. rewrite (AddChild_is_closed _ _ _ _ _ _ _ p Ha). unfold is_closed. cbn [procs].
  by rewrite lookup_app_r, Nat.sub_diag by (unfold p; lia).
Qed.

Lemma GoChild_registers_witness :
  exists m', GoChild (Some 0) false boot = Some (Ok (1, m')) /\ (0, 1) ∈ kids (mem m').
Proof.
  eexists. split; [reflexivity|]. eapply (GoChild_registers 0 false boot); [constructor|reflexivity|reflexivity].
Defined.

(** ** WithSignals *)

(** Where the goroutine of [WithSignals] is. *)
Inductive receiver := Starting | Receiving | Got | Finished.

#[export] Instance receiver_eq_dec : EqDecision receiver.
Proof. solve_decision. Defined.

(** [registered]: between [signal.Notify] and [signal.Stop]. *)
Record watched := mkWatched { procs_of : machine; target : pid; recv : receiver; registered : bool }.

Definition WithSignals (pick : bool) (m : machine) : option (res watched) :=
  let p := length (procs (mem m)) in
  match call_process (CWithParent (Some Process.Background) pick) m with
  | Some (Ok m) => Some (Ok (mkWatched m p Starting true))
  | Some _ => Some Panic
  | None => None
  end.

(** A signal: the package sends on the channel without blocking, and the channel
    has no buffer. *)
Definition deliver (s : watched) : watched :=
  match recv s, registered s with
  | Receiving, true => mkWatched (procs_of s) (target s) Got true
  | _, _ => s
  end.

Inductive step (s : watched) : watched -> Prop :=
  | step_process l m :
      Process.step (procs_of s) l (Running m) -> step s (mkWatched m (target s) (recv s) (registered s))
  | step_receive : recv s = Starting -> step s (mkWatched (procs_of s) (target s) Receiving (registered s))
  | step_signal : step s (deliver s)
  (* [signal.Stop(c)], and the call of [Close] *)
  | step_finish : recv s = Got ->
      step s (mkWatched (mkMachine (mem (procs_of s)) (threads (procs_of s) ++ [[FClose (target s)]]))
                (target s) Finished false).

Inductive reachable (s0 : watched) : watched -> Prop :=
  | reach_init : reachable s0 s0
  | reach_step s s' : reachable s0 s -> step s s' -> reachable s0 s'.

(** The process is closing, or a goroutine is about to mark it. *)
Definition closes (m : machine) (p : pid) : Prop :=
  is_closing (mem m) p = true \/ exists t, t ∈ threads m /\ head t = Some (FClose p).

Record watched_inv (s : watched) : Prop := {
  wi_machine : Process.reachable (procs_of s);
  wi_registered : registered s = bool_decide (recv s <> Finished);
  wi_closes : recv s = Finished -> closes (procs_of s) (target s);
}.

Lemma watched_step s s' : watched_inv s -> step s s' -> watched_inv s' /\ target s' = target s.
Proof.
  intros [Hm Hr Hc] Hs. destruct Hs as [l m Hst|Hst| |Hst]; cbn.
  - split; [|done]. split; cbn; [by eapply Process.reachable_step|done|]. intros Hf.
    destruct (Hc Hf) as [Hcl|(t & Ht & Hh)]; [left; by eapply step_closing|by eapply step_pending].
  - split; [|done]. split; cbn; [done|by rewrite Hr, Hst|done].
  - unfold deliver. destruct (recv s) eqn:Hrc; try by (split; [split|]; rewrite ?Hrc).
    destruct (registered s) eqn:Hreg; [|by (split; [split|]; rewrite ?Hrc, ?Hreg)].
    by split; [split|].
  - split; [|done]. split; cbn; [|done|].
    + destruct (procs_of s) as [st ts]. eapply (Process.reachable_step _ (Call (CClose (target s)))); [exact Hm|].
      by apply (Process.step_call st ts (CClose (target s)) [] [FClose (target s)] st []).
    + intros _. right. exists [FClose (target s)]. split; [|done]. cbn. apply elem_of_app. right. by left.
Qed.

(** Signals: one that arrives once the goroutine receives is kept, and can be acted
    on at once, whatever else runs; after that the process is closing, or about to
    be, for good, and later signals change nothing. One that arrives before, though
    [signal.Notify] has returned and the caller has its process, is lost: the channel
    has no room for it. *)
Theorem signals_close (m : machine) (pick : bool) (s0 s : watched) :
  Process.reachable m -> WithSignals pick m = Some (Ok s0) -> reachable s0 s ->
  match recv s with
  | Starting => deliver s = s
  | Receiving => recv (deliver s) = Got
  | Got => deliver s = s /\ exists s', step s s' /\ recv s' = Finished
  | Finished => closes (procs_of s) (target s0) /\ deliver s = s
  end.
Proof.
  intros Hm H0 Hs. unfold WithSignals in H0. destruct (call_process _ m) as [[m1|e|]|] eqn:Hc; try done.
  injection H0 as <-. assert (H : watched_inv s /\ target s = length (procs (mem m))).
  { induction Hs as [|s s' _ [IH Ht] Hst].
    - split; [|done]. split; cbn; [by eapply call_process_reachable|done|done].
    - destruct (watched_step s s' IH Hst) as [? ->]. done. }
  destruct H as [[Hr Hreg Hcl] Ht]. unfold deliver. cbn [target]. destruct (recv s) eqn:Hrc.
  - done.
  - by rewrite Hreg.
  - split; [done|]. eexists. split; [by apply step_finish|done].
  - split; [rewrite <- Ht; by apply Hcl|done].
Qed.

Definition watching : watched :=
  match WithSignals false boot with Some (Ok s) => s | _ => mkWatched boot 0 Starting true end.

Lemma signals_close_witness : recv watching = Starting /\ deliver watching = watching.
Proof.
  split; [reflexivity|].
  exact (signals_close boot false watching watching reachable_init eq_refl (reach_init watching)).
Defined.
