(* ===== verification/Periodic.v ===== *)
(** * Periodic processes

    Models [Godeps/.../goprocess/periodic/periodic.go]: a process whose function
    calls another function every time a timer, a ticker or a signal fires, one call
    at a time or as many as there are. The calls are children of the process; a
    call that has returned has closed its child ([Process]). *)

From S2P Require Import Prelude.

(** ** The loop *)

(** What the loop waits for: [time.After(interval)], a [time.Ticker], whose channel
    holds one tick and drops the next, or a channel that others send on. *)
Inductive source := After (interval : Z) | Ticks (interval : Z) | Signal.

Inductive position := AtTop | InCall (i : nat) | Returned.

#[global] Instance position_eq_dec : EqDecision position.
Proof. solve_decision. Defined.

(** [owned] tells whether the loop stops the ticker when it returns. *)
Record loop := mkLoop {
  src : source;
  sequential : bool;
  owned : bool;
  began : Z;            (* the time at which the loop was started *)
  now : Z;
  armed : Z;            (* the time at which the loop came to its [select] *)
  ticks : nat;          (* the ticks there have been *)
  buffered : bool;      (* the ticker's channel holds one *)
  pos : position;
  running : list nat;   (* the calls in flight *)
  started : nat;        (* the calls there have been *)
  closing : bool;
  stopped : bool;       (* [ticker.Stop()] *)
}.

Definition start (s : source) (seq own : bool) (t : Z) : loop :=
  mkLoop s seq own t t t 0 false AtTop [] 0 false false.

Definition Every (interval t : Z) : loop := start (After interval) true false t.
Definition EveryGo (interval t : Z) : loop := start (After interval) false false t.

(** [time.NewTicker] panics when its interval is not positive. *)
Definition Tick (interval t : Z) : res loop :=
  if (0 <? interval)%Z then Ok (start (Ticks interval) true true t) else Panic.
Definition TickGo (interval t : Z) : res loop :=
  if (0 <? interval)%Z then Ok (start (Ticks interval) false true t) else Panic.

Definition Ticker (ticker : source) (t : Z) : loop := start ticker true false t.
Definition TickerGo (ticker : source) (t : Z) : loop := start ticker false false t.
Definition OnSignal (t : Z) : loop := start Signal true false t.
Definition OnSignalGo (t : Z) : loop := start Signal false false t.

(** Whether the first case of the [select] can be taken. *)
Definition fires (l : loop) : bool :=
  match src l with
  | After i => (armed l + i <=? now l)%Z
  | Ticks _ => buffered l
  | Signal => true
  end.

(** The first case: a child is started, and the loop waits for it, or goes on. *)
Definition call (l : loop) : loop :=
  mkLoop (src l) (sequential l) (owned l) (began l) (now l) (now l) (ticks l) false
    (if sequential l then InCall (started l) else AtTop) (running l ++ [started l]) (S (started l))
    (closing l) (stopped l).
Definition with_pos (p : position) (stop : bool) (l : loop) : loop :=
  mkLoop (src l) (sequential l) (owned l) (began l) (now l) (now l) (ticks l) (buffered l) p (running l)
    (started l) (closing l) stop.
Definition with_time (t : Z) (n : nat) (b : bool) (l : loop) : loop :=
  mkLoop (src l) (sequential l) (owned l) (began l) t (armed l) n b (pos l) (running l) (started l)
    (closing l) (stopped l).
Definition with_calls (r : list nat) (c : bool) (l : loop) : loop :=
  mkLoop (src l) (sequential l) (owned l) (began l) (now l) (armed l) (ticks l) (buffered l) (pos l) r
    (started l) c (stopped l).

Inductive step (l : loop) : loop -> Prop :=
  | step_time d : (0 <= d)%Z -> step l (with_time (now l + d) (ticks l) (buffered l) l)
  | step_tick i :
      src l = Ticks i -> stopped l = false -> (began l + Z.of_nat (S (ticks l)) * i <= now l)%Z ->
      step l (with_time (now l) (S (ticks l)) true l)
  | step_call : pos l = AtTop -> fires l = true -> step l (call l)
  (* a call returns, and its child is closed *)
  | step_finish r1 i r2 : running l = r1 ++ i :: r2 -> step l (with_calls (r1 ++ r2) (closing l) l)
  | step_back i : pos l = InCall i -> i ∉ running l -> step l (with_pos AtTop (stopped l) l)
  (* the process is told to close *)
  | step_close : step l (with_calls (running l) true l)
  | step_leave : closing l = true -> pos l <> Returned -> step l (with_pos Returned (stopped l || owned l) l).

Inductive reachable (l0 : loop) : loop -> Prop :=
  | reach_init : reachable l0 l0
  | reach_step l l' : reachable l0 l -> step l l' -> reachable l0 l'.

(** ** One call at a time *)

Record one_call (l : loop) : Prop := {
  oc_top : pos l = AtTop -> running l = [];
  oc_call i : pos l = InCall i -> running l = [] \/ running l = [i];
  oc_len : length (running l) <= 1;
}.

Lemma one_call_step l l' : sequential l = true -> one_call l -> step l l' -> sequential l' = true /\ one_call l'.
Proof.
  intros Hq [H1 H2 H3] Hs.
  destruct Hs as [d Hd|i Hi Hn Ht|Hp Hf|r1 i r2 Hr|i Hp Hi| |Hc Hp]; (split; [done|]); split; cbn; try done.
  - rewrite Hq. intros [=].
  - intros i. rewrite Hq, (H1 Hp). intros [= <-]. by right.
  - by rewrite (H1 Hp).
  - intros Hp. specialize (H1 Hp). rewrite Hr in H1. by destruct r1.
  - intros j Hp. destruct (H2 j Hp) as [Hj|Hj]; rewrite Hr in Hj; [by destruct r1|].
    left. destruct r1 as [|x r1]; [by injection Hj as _ ->|by destruct r1].
  - rewrite Hr, length_app in H3. simpl in H3. rewrite length_app. lia.
  - intros _. destruct (H2 i Hp) as [Hj|Hj]; [done|]. rewrite Hj in Hi. by destruct Hi; left.
Qed.

(** The variants that wait for their calls never have two in flight: not after
    any sequence of ticks, returns and time passing, closing or not. *)
Theorem periodic_sequential s own t l :
  reachable (start s true own t) l -> length (running l) <= 1 /\ (pos l = AtTop -> running l = []).
Proof.
  intros Hr. assert (H : sequential l = true /\ one_call l); [|by destruct H as [_ [? ? ?]]].
  induction Hr as [|l l' _ [Hq Ho] Hs]; [|by eapply one_call_step].
  split; [done|]. split; cbn; [done|discriminate|lia].
Qed.

(** ** The rate *)

Definition interval_of (s : source) : option Z :=
  match s with After i | Ticks i => Some i | Signal => None end.

(** [started] calls fit between the start of the loop and now. *)
Record paced (i : Z) (l : loop) : Prop := {
  pc_src : src l = After i \/ src l = Ticks i;
  pc_armed : (armed l <= now l)%Z;
  pc_after : src l = After i -> (began l + Z.of_nat (started l) * i <= armed l)%Z;
  pc_ticks : (began l + Z.of_nat (ticks l) * i <= now l)%Z;
  pc_count : src l = Ticks i -> started l + (if buffered l then 1 else 0) <= ticks l;
}.

Lemma paced_step i l l' : (0 <= i)%Z -> paced i l -> step l l' -> paced i l'.
Proof.
  intros Hi [P1 P2 P3 P4 P5] Hs.
  destruct Hs as [d Hd|j Hj Hn Ht|Hp Hf|r1 j r2 Hr|j Hp Hj| |Hc Hp]; split; cbn; try done; try lia.
  - assert (j = i) as -> by (destruct P1; congruence). done.
  - intros Hs. specialize (P5 Hs). destruct (buffered l); lia.
  - intros Hs. specialize (P3 Hs). unfold fires in Hf. rewrite Hs in Hf. apply Z.leb_le in Hf. lia.
  - intros Hs. specialize (P5 Hs). unfold fires in Hf. rewrite Hs in Hf. rewrite Hf in P5. lia.
  - intros Hs. specialize (P3 Hs). lia.
  - intros Hs. specialize (P3 Hs). lia.
Qed.

(** Rate: with a timer or a ticker of an interval, the calls started so far
    need as many intervals as there are between the start of the loop and now: a
    ticker that falls behind drops ticks and never makes them up, and
    [time.After] waits again after each call. *)
Theorem periodic_rate s seq own t i l :
  interval_of s = Some i -> (0 < i)%Z -> reachable (start s seq own t) l ->
  (Z.of_nat (started l) * i <= now l - t)%Z.
Proof.
  intros Hs Hi Hr. assert (H : paced i l /\ began l = t).
  { induction Hr as [|l l' _ [Hp Hb] Hst].
    - split; [|done]. destruct s; simplify_eq/=; split; cbn; try lia; auto.
    - split; [by eapply paced_step; [lia|done|]|]. by destruct Hst. }
  destruct H as [[P1 P2 P3 P4 P5] Hb]. destruct P1 as [Hl|Hl].
  - specialize (P3 Hl). lia.
  - specialize (P5 Hl). destruct (buffered l); nia.
Qed.

(** Closing: a loop told to close can leave at once, wherever it is; a ticker
    it made is then stopped; and from then on no call is started and it does not
    come back, while the calls in flight may end. *)
Theorem periodic_leaves s seq own t l :
  reachable (start s seq own t) l ->
  (closing l = true -> pos l <> Returned -> exists l', step l l' /\ pos l' = Returned /\ running l' = running l)
  /\ (pos l = Returned -> stopped l = own
      /\ forall l', step l l' -> pos l' = Returned /\ started l' = started l /\ (own = true -> ticks l' = ticks l)).
Proof.
  intros Hr. assert (H : owned l = own /\ (if decide (pos l = Returned) then stopped l = own else stopped l = false)).
  { induction Hr as [|l l' _ [Ho Hp] Hs]; [done|].
    destruct Hs; cbn; (split; [done|]); try done.
    - rewrite decide_False in Hp by congruence. destruct (sequential l); by rewrite decide_False.
    - by rewrite decide_False in Hp by congruence.
    - rewrite decide_False in Hp by congruence. by rewrite Hp, Ho. }
  destruct H as [Ho Hst]. split.
  - intros Hc Hp. eexists. split; [by apply step_leave|done].
  - intros Hp. rewrite decide_True in Hst by done. split; [done|].
    intros l' Hs. destruct Hs; cbn; try done; try congruence. split_and!; [done..|]. intros ->. congruence.
Qed.

Definition once : loop := call (with_time 10 0 false (Every 10 0)).
Lemma once_reachable : reachable (start (After 10) true false 0) once.
Proof.
  eapply reach_step; [eapply reach_step; [constructor|apply (step_time _ 10); lia]|]. by apply step_call.
Qed.

Lemma periodic_sequential_witness : length (running once) <= 1.
Proof. apply (periodic_sequential (After 10) false 0 once once_reachable). Defined.

Lemma periodic_rate_witness : (Z.of_nat (started once) * 10 <= now once - 0)%Z.
Proof. apply (periodic_rate (After 10) true false 0 10 once); [reflexivity|lia|apply once_reachable]. Defined.

Lemma periodic_leaves_witness :
  exists l', step (with_calls [] true once) l' /\ pos l' = Returned.
Proof.
  destruct (periodic_leaves (After 10) true false 0 (with_calls [] true once)) as [HL _].
  - eapply reach_step; [eapply reach_step; [apply once_reachable|apply (step_finish once [] 0 [] eq_refl)]|].
    apply (step_close (with_calls [] false once)).
  - destruct (HL eq_refl) as (l' & Hs & Hp & _); [discriminate|]. exists l'. by split.
Defined.
