(* ===== verification/Md5.v ===== *)
(** * MD5

    The digest of Go's [crypto/md5], which the UUID package calls, as in RFC 1321: on
    little-endian words of 32 bits. *)

From S2P Require Import Prelude Hex Sha2.

Local Open Scope Z_scope.

Definition md5_k : list Z :=
  [0xd76aa478; 0xe8c7b756; 0x242070db; 0xc1bdceee;
   0xf57c0faf; 0x4787c62a; 0xa8304613; 0xfd469501;
   0x698098d8; 0x8b44f7af; 0xffff5bb1; 0x895cd7be;
   0x6b901122; 0xfd987193; 0xa679438e; 0x49b40821;
   0xf61e2562; 0xc040b340; 0x265e5a51; 0xe9b6c7aa;
   0xd62f105d; 0x02441453; 0xd8a1e681; 0xe7d3fbc8;
   0x21e1cde6; 0xc33707d6; 0xf4d50d87; 0x455a14ed;
   0xa9e3e905; 0xfcefa3f8; 0x676f02d9; 0x8d2a4c8a;
   0xfffa3942; 0x8771f681; 0x6d9d6122; 0xfde5380c;
   0xa4beea44; 0x4bdecfa9; 0xf6bb4b60; 0xbebfbc70;
   0x289b7ec6; 0xeaa127fa; 0xd4ef3085; 0x04881d05;
   0xd9d4d039; 0xe6db99e5; 0x1fa27cf8; 0xc4ac5665;
   0xf4292244; 0x432aff97; 0xab9423a7; 0xfc93a039;
   0x655b59c3; 0x8f0ccc92; 0xffeff47d; 0x85845dd1;
   0x6fa87e4f; 0xfe2ce6e0; 0xa3014314; 0x4e0811a1;
   0xf7537e82; 0xbd3af235; 0x2ad7d2bb; 0xeb86d391].

Definition md5_shifts : list Z :=
  concat (map (fun r => concat (replicate 4 r)) [[7; 12; 17; 22]; [5; 9; 14; 20]; [4; 11; 16; 23]; [6; 10; 15; 21]]).

Definition rotl (n x : Z) : Z := Z.lor (word 32 (Z.shiftl x n)) (Z.shiftr x (32 - n)).
Definition not32 (x : Z) : Z := 2 ^ 32 - 1 - x.

(** The function of a round, and the word of the block that it takes. *)
Definition md5_f (i : nat) (b c d : Z) : Z :=
  match (i / 16)%nat with
  | O => Z.lor (Z.land b c) (Z.land (not32 b) d)
  | 1%nat => Z.lor (Z.land d b) (Z.land (not32 d) c)
  | 2%nat => xor3 b c d
  | _ => Z.lxor c (Z.lor b (not32 d))
  end.
Definition md5_g (i : nat) : nat :=
  match (i / 16)%nat with
  | O => i
  | 1%nat => (5 * i + 1) mod 16
  | 2%nat => (3 * i + 5) mod 16
  | _ => (7 * i) mod 16
  end.

Definition md5_round (ws : list Z) (st : Z * Z * Z * Z) (i : nat) : Z * Z * Z * Z :=
  let '(a, b, c, d) := st in
  let f := word 32 (md5_f i b c d + a + md5_k !!! i + ws !!! md5_g i) in
  (d, word 32 (b + rotl (md5_shifts !!! i) f), b, c).
Definition md5_compress (st : Z * Z * Z * Z) (ws : list Z) : Z * Z * Z * Z :=
  let '(a, b, c, d) := st in
  let '(a', b', c', d') := fold_left (md5_round ws) (seq 0 64) st in
  (word 32 (a + a'), word 32 (b + b'), word 32 (c + c'), word 32 (d + d')).

Definition le_bytes (n : nat) (x : Z) : bytes :=
  map (fun i => byte_of_Z (Z.shiftr x (8 * Z.of_nat i))) (seq 0 n).
Definition md5_pad (b : bytes) : bytes :=
  let len := Z.of_nat (length b) in
  b ++ [byte_of_Z 128] ++ replicate (Z.to_nat ((55 - len) mod 64)) x00 ++ le_bytes 8 (8 * len).
Definition le_words (b : bytes) : list Z :=
  map (fun c => of_digits_le 256 (map Z_of_byte c)) (chunks (length b) 4 b).

(** [md5.New], [Write] and [Sum]. *)
Definition md5_Sum (b : bytes) : bytes :=
  let ws := le_words (md5_pad b) in
  let '(a, b, c, d) :=
    fold_left md5_compress (chunks (length ws) 16 ws) (0x67452301, 0xefcdab89, 0x98badcfe, 0x10325476) in
  le_bytes 4 a ++ le_bytes 4 b ++ le_bytes 4 c ++ le_bytes 4 d.

(** Examples of the RFC, and one of several blocks. *)
Example md5_ex0 : hex_EncodeToString (md5_Sum (str "")) = str "d41d8cd98f00b204e9800998ecf8427e".
Proof. vm_compute. reflexivity. Qed.
Example md5_ex1 : hex_EncodeToString (md5_Sum (str "abc")) = str "900150983cd24fb0d6963f7d28e17f72".
Proof. vm_compute. reflexivity. Qed.
Example md5_ex2 : hex_EncodeToString (md5_Sum (str "message digest")) = str "f96b697d7cb7938d525a2f31aaf161d0".
Proof. vm_compute. reflexivity. Qed.
Example md5_ex3 : hex_EncodeToString (md5_Sum (str "12345678901234567890123456789012345678901234567890123456789012345678901234567890")) = str "57edf4a22be3c955ac49da2e2107b67a".
Proof. vm_compute. reflexivity. Qed.

Lemma md5_Sum_length b : length (md5_Sum b) = 16%nat.
Proof. unfold md5_Sum. by destruct (fold_left _ _ _) as [[[a b'] c] d]. Qed.
