(* ===== verification/Uuid.v ===== *)
(** * UUIDs and random keys

    Models [Godeps/.../satori/go.uuid/uuid.go], and [RandomKey] of
    [go-datastore/key.go], which names a key after a random UUID. The clock, the
    random bytes and the hash functions are arguments of the functions that use
    them. *)

From S2P Require Import Prelude Hex Sha2 Md5 DsKey.

(** ** Data *)

(** [type UUID [16]byte]. *)
Abbreviation UUID := bytes.
Definition uuid_wf (u : UUID) : Prop := length u = 16.
Definition Nil : UUID := replicate 16 x00.

Definition VariantNCS : Z := 0.
Definition VariantRFC4122 : Z := 1.
Definition VariantMicrosoft : Z := 2.
Definition VariantFuture : Z := 3.
Definition DomainPerson : Z := 0.
Definition DomainGroup : Z := 1.
Definition DomainOrg : Z := 2.

Definition at_ (u : UUID) (i : nat) : Z := Z_of_byte (u !!! i).
Definition set_at (i : nat) (z : Z) (u : UUID) : UUID := <[i := byte_of_Z z]> u.

Definition And (u1 u2 : UUID) : UUID :=
  zip_with (fun a b => byte_of_Z (Z.land (Z_of_byte a) (Z_of_byte b))) u1 u2.
Definition Or (u1 u2 : UUID) : UUID :=
  zip_with (fun a b => byte_of_Z (Z.lor (Z_of_byte a) (Z_of_byte b))) u1 u2.
Definition Equal (u1 u2 : UUID) : bool := bool_decide (u1 = u2).

Definition Version (u : UUID) : Z := Z.shiftr (at_ u 6) 4.
Definition Variant (u : UUID) : Z :=
  if (Z.land (at_ u 8) 0x80 =? 0)%Z then VariantNCS
  else if (Z.lor (Z.land (at_ u 8) 0xc0) 0x80 =? 0x80)%Z then VariantRFC4122
  else if (Z.lor (Z.land (at_ u 8) 0xe0) 0xc0 =? 0xc0)%Z then VariantMicrosoft
  else VariantFuture.

Definition SetVersion (v : Z) (u : UUID) : UUID :=
  set_at 6 (Z.lor (Z.land (at_ u 6) 0x0f) (Z.shiftl v 4 mod 256)) u.
Definition SetVariant (u : UUID) : UUID :=
  set_at 8 (Z.lor (Z.land (at_ u 8) 0xbf) 0x80) u.

(** ** Text *)
Definition dash : byte := "-".

Definition String_ (u : UUID) : bytes :=
  hex_EncodeToString (take 4 u)
  ++ dash :: hex_EncodeToString (take 2 (drop 4 u))
  ++ dash :: hex_EncodeToString (take 2 (drop 6 u))
  ++ dash :: hex_EncodeToString (take 2 (drop 8 u))
  ++ dash :: hex_EncodeToString (drop 10 u).
Definition MarshalText (u : UUID) : bytes := String_ u.

Definition urnPrefix : bytes := str "urn:uuid:".
Definition byteGroups : list nat := [8; 4; 4; 4; 12].

(** [hex.Decode] of an even number of digits: the bytes it writes, and the error
    it stops with. *)
Fixpoint hex_Decode (src : bytes) : bytes * option error :=
  match src with
  | a :: b :: src =>
      match fromHexChar a, fromHexChar b with
      | Some x, Some y =>
          let '(r, err) := hex_Decode src in (byte_of_Z (16 * x + y) :: r, err)
      | _, _ => ([], Some (errors_New "encoding/hex: invalid byte"))
      end
  | _ => ([], None)
  end.

(** One group of [n] digits, [b] being the bytes of the UUID written so far: what
    is left of the text. [text[:n]] may reach beyond the length of the slice up to
    its capacity; [beyond] is what the array holds there. *)
Definition read_group (n : nat) (text beyond : bytes) (b : bytes) : res bytes * bytes :=
  if length (text ++ beyond) <? n then (Panic, b)
  else
    let '(r, err) := hex_Decode (take n (text ++ beyond)) in
    let b := b ++ r in
    match err with
    | Some err => (Err err, b)
    | None => if length text <? n then (Panic, b) else (Ok (drop n text), b)
    end.

(** The loop of [UnmarshalText]. *)
Fixpoint groups_loop (groups : list nat) (text beyond : bytes) (b : bytes) : res unit * bytes :=
  match groups with
  | [] => (Ok tt, b)
  | n :: groups =>
      match text with
      | [] => (Panic, b)
      | c :: rest =>
          match read_group n (if decide (c = dash) then rest else text) beyond b with
          | (Ok text, b) => groups_loop groups text beyond b
          | (Err err, b) => (Err err, b)
          | (Panic, b) => (Panic, b)
          end
      end
  end.

(** The bytes [r] written over the front of the UUID. *)
Definition over (r : bytes) (u : UUID) : UUID := r ++ drop (length r) u.

Definition invalid_string : error := errors_New "uuid: invalid UUID string".
Definition UnmarshalText (text beyond : bytes) (u : UUID) : res unit * UUID :=
  if length text <? 32 then (Err invalid_string, u)
  else
    let text :=
      if decide (take 9 text = urnPrefix) then drop 9 text
      else if decide (head text = Some "{"%byte) then drop 1 text else text in
    let '(r, b) := groups_loop byteGroups text beyond [] in
    (r, over b u).

Definition MarshalBinary (u : UUID) : bytes := u.
Definition UnmarshalBinary (data : bytes) (u : UUID) : res unit * UUID :=
  if negb (length data =? 16) then (Err (errors_New "uuid: UUID must be exactly 16 bytes long"), u)
  else (Ok tt, over data u).

(** The types [Scan] tells apart, with the capacity of a byte slice. *)
Inductive source :=
  | SrcBytes (b beyond : bytes)
  | SrcString (s beyond : bytes)
  | SrcOther.
Definition Scan (src : source) (u : UUID) : res unit * UUID :=
  match src with
  | SrcBytes b beyond => if length b =? 16 then UnmarshalBinary b u else UnmarshalText b beyond u
  | SrcString s beyond => UnmarshalText s beyond u
  | SrcOther => (Err (errors_New "uuid: cannot convert to UUID"), u)
  end.

Definition FromBytes (input : bytes) : res unit * UUID := UnmarshalBinary input Nil.
Definition FromString (input beyond : bytes) : res unit * UUID := UnmarshalText input beyond Nil.

(** ** Generators *)

(** The [n] bytes of a number, the most significant first, as [binary.BigEndian]
    writes them. *)
Fixpoint be_bytes (n : nat) (z : Z) : bytes :=
  match n with
  | O => []
  | S n => byte_of_Z (z / 256 ^ Z.of_nat n) :: be_bytes n z
  end.

(** The package's storage; [epochFunc] is the argument [timeNow] of its users. *)
Record storage := mkStorage { clockSequence : Z; lastTime : Z; hardwareAddr : bytes }.

(** [init]: two random bytes, six more, and the addresses of the network interfaces
    when they could be read. *)
Definition init (buf hw : bytes) (interfaces : option (list bytes)) : storage :=
  let hw := set_at 0 (Z.lor (at_ hw 0) 1) hw in
  let hw := match interfaces with
            | Some l => match List.find (fun a => 6 <=? length a) l with Some a => take 6 a | None => hw end
            | None => hw
            end in
  mkStorage (of_digits 256 (map Z_of_byte buf)) 0 hw.

(** [epochStart] is the number of intervals of 100 ns from 1582 to 1970. *)
Definition epochStart : Z := 122192928000000000.
Definition unixTimeFunc (UnixNano : Z) : Z := u64 (epochStart + u64 (Z.quot UnixNano 100)).

Definition getStorage (timeNow : Z) (st : storage) : Z * Z * storage :=
  let seq := if (timeNow <=? lastTime st)%Z then ((clockSequence st + 1) mod 2 ^ 16)%Z
             else clockSequence st in
  (timeNow, seq, mkStorage seq timeNow (hardwareAddr st)).

Definition NewV1 (timeNow : Z) (st : storage) : UUID * storage :=
  let '(timeNow, clockSeq, st) := getStorage timeNow st in
  let u := be_bytes 4 timeNow ++ be_bytes 2 (Z.shiftr timeNow 32)
           ++ be_bytes 2 (Z.shiftr timeNow 48) ++ be_bytes 2 clockSeq ++ hardwareAddr st in
  (SetVariant (SetVersion 1 u), st).

Definition NewV2 (posixUID posixGID : Z) (domain timeNow : Z) (st : storage) : UUID * storage :=
  let id := if (domain =? DomainPerson)%Z then be_bytes 4 posixUID
            else if (domain =? DomainGroup)%Z then be_bytes 4 posixGID
            else replicate 4 x00 in
  let '(timeNow, clockSeq, st) := getStorage timeNow st in
  let u := id ++ be_bytes 2 (Z.shiftr timeNow 32) ++ be_bytes 2 (Z.shiftr timeNow 48)
           ++ be_bytes 2 clockSeq ++ hardwareAddr st in
  let u := set_at 9 domain u in
  (SetVariant (SetVersion 2 u), st).

(** [copy(u[:], h.Sum(nil))]. *)
Definition newFromHash (h : bytes -> bytes) (ns : UUID) (name : bytes) : UUID :=
  over (take 16 (h (ns ++ name))) Nil.

Definition NewV3 (ns : UUID) (name : bytes) : UUID :=
  SetVariant (SetVersion 3 (newFromHash md5_Sum ns name)).
Definition NewV4 (rand : bytes) : UUID := SetVariant (SetVersion 4 rand).
Definition NewV5 (ns : UUID) (name : bytes) : UUID :=
  SetVariant (SetVersion 5 (newFromHash sha1_Sum ns name)).

(** ** Random keys *)

(** [strings.Replace(s, "-", "", -1)]. *)
Definition without_dashes (s : bytes) : bytes := filter (fun c => c <> dash) s.
Definition RandomKey (rand : bytes) : Key := NewKey (without_dashes (String_ (NewV4 rand))).

(** ** Examples *)
Definition dns : UUID := (FromString (str "6ba7b810-9dad-11d1-80b4-00c04fd430c8") []).2.

Example NewV5_dns :
  String_ (NewV5 dns (str "www.example.com")) = str "2ed6657d-e927-568b-95e1-2665a8aea6a2".
Proof. vm_compute. reflexivity. Qed.
Example NewV3_dns :
  String_ (NewV3 dns (str "www.example.com")) = str "5df41881-3aed-3515-88a7-2f4a814cf09e".
Proof. vm_compute. reflexivity. Qed.
Example String_dns : String_ dns = str "6ba7b810-9dad-11d1-80b4-00c04fd430c8".
Proof. vm_compute. reflexivity. Qed.

(** ** Version and variant bits *)

Lemma at_set_eq u i z : i < length u -> at_ (set_at i z u) i = (z mod 256)%Z.
Proof.
  intros Hi. unfold at_, set_at. rewrite list_lookup_total_insert_eq by done. apply Z_of_byte_of_Z.
Qed.

Lemma at_set_ne u i j z : i <> j -> at_ (set_at i z u) j = at_ u j.
Proof. intros Hij. unfold at_, set_at. by rewrite list_lookup_total_insert_ne. Qed.

Lemma set_at_length i z u : length (set_at i z u) = length u.
Proof. apply length_insert. Qed.

(** The bits that the setters write, for every byte. *)
Lemma version_bits b v :
  (0 <= v < 16)%Z ->
  Z.shiftr (Z.lor (Z.land (Z_of_byte b) 0x0f) (Z.shiftl v 4 mod 256) mod 256) 4 = v
  /\ (Z.lor (Z.land (Z_of_byte b) 0x0f) (Z.shiftl v 4 mod 256) mod 256 mod 16 = Z_of_byte b mod 16)%Z.
Proof.
  intros Hv. assert (Hn : Z.to_nat v < 16) by lia. rewrite <- (Z2Nat.id v) by lia.
  revert Hn. generalize (Z.to_nat v). intros n Hn.
  do 16 (destruct n as [|n]; [by destruct b|]). lia.
Qed.

Lemma variant_bits b :
  let z := (Z.lor (Z.land (Z_of_byte b) 0xbf) 0x80 mod 256)%Z in
  Z.land z 0x80 <> 0%Z /\ Z.lor (Z.land z 0xc0) 0x80 = 0x80%Z /\ (z mod 64 = Z_of_byte b mod 64)%Z.
Proof. by destruct b. Qed.

(** What setting the version and the variant does to the bytes. *)
Lemma set_bits v u :
  uuid_wf u -> (0 <= v < 16)%Z ->
  let u' := SetVariant (SetVersion v u) in
  uuid_wf u' /\ Version u' = v /\ Variant u' = VariantRFC4122
  /\ (at_ u' 6 mod 16 = at_ u 6 mod 16)%Z /\ (at_ u' 8 mod 64 = at_ u 8 mod 64)%Z
  /\ forall i, i <> 6 -> i <> 8 -> at_ u' i = at_ u i.
Proof.
  intros Hu Hv u'. unfold uuid_wf in *.
  assert (Hlen : length (SetVersion v u) = 16) by (unfold SetVersion; by rewrite set_at_length).
  assert (H6 : at_ u' 6 = at_ (SetVersion v u) 6) by (apply at_set_ne; lia).
  assert (H8 : at_ (SetVersion v u) 8 = at_ u 8) by (apply at_set_ne; lia).
  assert (H8' : at_ u' 8 = (Z.lor (Z.land (at_ u 8) 0xbf) 0x80 mod 256)%Z).
  { unfold u', SetVariant. rewrite at_set_eq, H8 by lia. done. }
  assert (H6' : at_ u' 6 = (Z.lor (Z.land (at_ u 6) 0x0f) (Z.shiftl v 4 mod 256) mod 256)%Z).
  { rewrite H6. unfold SetVersion. by rewrite at_set_eq by lia. }
  destruct (version_bits (u !!! 6) v Hv) as [HV HL]. destruct (variant_bits (u !!! 8)) as (V1 & V2 & V3).
  split_and!.
  - unfold u', SetVariant. by rewrite set_at_length.
  - unfold Version. by rewrite H6'.
  - unfold Variant. rewrite H8'. unfold at_.
    destruct (Z.eqb_spec (Z.land (Z.lor (Z.land (Z_of_byte (u !!! 8)) 191) 128 mod 256) 128) 0); [done|].
    by rewrite (proj2 (Z.eqb_eq _ _) V2).
  - by rewrite H6'.
  - by rewrite H8'.
  - intros i Hi6 Hi8. unfold u', SetVariant, SetVersion. by rewrite !at_set_ne by done.
Qed.

Lemma be_bytes_length n z : length (be_bytes n z) = n.
Proof. induction n as [|n IH]; [done|]. simpl. by rewrite IH. Qed.

#[export] Hint Rewrite be_bytes_length : lengths.

Lemma over_length r u : length r <= length u -> length (over r u) = length u.
Proof. intros Hr. unfold over. rewrite length_app, length_drop. lia. Qed.

Lemma newFromHash_wf h ns name : uuid_wf (newFromHash h ns name).
Proof.
  unfold newFromHash, uuid_wf. rewrite over_length; [done|]. rewrite length_take. change (length Nil) with 16. lia.
Qed.

(** The package's hardware address has six bytes. *)
Definition storage_wf (st : storage) : Prop :=
  length (hardwareAddr st) = 6 /\ (0 <= clockSequence st < 2 ^ 16)%Z.

(** Every generator gives a 16-byte UUID of the version it is named after, of
    the variant of RFC 4122; a random one has every other bit as it was drawn. *)
Theorem New_versions st time uid gid domain ns name rand :
  storage_wf st -> uuid_wf rand ->
  let ok v u := uuid_wf u /\ Version u = v /\ Variant u = VariantRFC4122 in
  ok 1%Z (NewV1 time st).1 /\ ok 2%Z (NewV2 uid gid domain time st).1
  /\ ok 3%Z (NewV3 ns name) /\ ok 4%Z (NewV4 rand) /\ ok 5%Z (NewV5 ns name)
  /\ (at_ (NewV4 rand) 6 mod 16 = at_ rand 6 mod 16)%Z
  /\ (at_ (NewV4 rand) 8 mod 64 = at_ rand 8 mod 64)%Z
  /\ forall i, i <> 6 -> i <> 8 -> at_ (NewV4 rand) i = at_ rand i.
Proof.
  intros [Hhw _] Hr ok. unfold ok, NewV1, NewV2, NewV3, NewV4, NewV5. simpl getStorage.
  assert (Hset : forall v u, uuid_wf u -> (0 <= v < 16)%Z ->
    uuid_wf (SetVariant (SetVersion v u)) /\ Version (SetVariant (SetVersion v u)) = v
    /\ Variant (SetVariant (SetVersion v u)) = VariantRFC4122)
    by (intros v u Hu Hv; destruct (set_bits v u Hu Hv) as (? & ? & ? & _); done).
  split; [|split; [|split; [|split; [|split]]]].
  - apply Hset; [|lia]. unfold uuid_wf. rewrite !length_app, !be_bytes_length. simpl. lia.
  - apply Hset; [|lia]. unfold uuid_wf. rewrite set_at_length, !length_app, !be_bytes_length.
    destruct (domain =? DomainPerson)%Z; [rewrite be_bytes_length; simpl; lia|].
    destruct (domain =? DomainGroup)%Z; [rewrite be_bytes_length; simpl; lia|].
    rewrite length_replicate. simpl. lia.
  - apply Hset; [apply newFromHash_wf|lia].
  - by apply Hset.
  - apply Hset; [apply newFromHash_wf|lia].
  - by destruct (set_bits 4 rand Hr ltac:(lia)) as (_ & _ & _ & ? & ? & ?).
Qed.

(** The package starts well: whatever the random bytes and the network interfaces
    are, it has an address of six bytes and a clock sequence of sixteen bits; an
    address that was drawn has the multicast bit, which no interface has. *)
Theorem init_storage (buf hw : bytes) (interfaces : option (list bytes)) :
  length buf = 2 -> length hw = 6 ->
  storage_wf (init buf hw interfaces)
  /\ (interfaces = None -> Z.testbit (at_ (hardwareAddr (init buf hw interfaces)) 0) 0 = true).
Proof.
  intros Hb Hh. unfold init, storage_wf. cbn [hardwareAddr clockSequence]. split; [split|].
  - destruct interfaces as [l|]; [|by rewrite set_at_length].
    destruct (List.find _ l) as [a|] eqn:Ha; [|by rewrite set_at_length].
    apply List.find_some in Ha as [_ Ha%Nat.leb_le]. rewrite length_take. lia.
  - destruct buf as [|x [|y [|]]]; try done. pose proof (Z_of_byte_range x). pose proof (Z_of_byte_range y).
    unfold of_digits. cbn. lia.
  - intros ->. destruct hw as [|x hw]; [done|]. by destruct x.
Qed.

Lemma init_storage_witness :
  storage_wf (init [x01; x02] (replicate 6 x2a) (Some [[x01]; [x0a; x0b; x0c; x0d; x0e; x0f]])).
Proof. apply (init_storage [x01; x02] (replicate 6 x2a)); reflexivity. Defined.

Definition example_storage : storage := mkStorage 7 0 (replicate 6 x2a).

Lemma New_versions_witness :
  Version (NewV1 5 example_storage).1 = 1%Z.
Proof.
  apply (New_versions example_storage 5 0 0 0 Nil [] Nil).
  - split; [reflexivity|simpl; lia].
  - reflexivity.
Defined.

(** ** Printing and parsing *)

Lemma hex_Decode_Encode b : hex_Decode (hex_EncodeToString b) = (b, None).
Proof.
  induction b as [|c b IH]; [done|]. unfold hex_EncodeToString in *. cbn [map concat app hex_Decode].
  pose proof (Z_of_byte_range c). rewrite !hex_digit_read, IH.
  - by rewrite <- Z.div_mod, byte_of_Z_of_byte by lia.
  - apply Z.mod_pos_bound. lia.
  - split; [apply Z.div_pos; lia|]. apply Z.div_lt_upper_bound; lia.
Qed.

Lemma hex_head_not c b : c ∉ hex_digits -> head (hex_EncodeToString b) <> Some c.
Proof.
  intros Hc Hh. destruct (hex_EncodeToString b) as [|d l] eqn:Hb; [done|]. injection Hh as ->.
  apply (hex_EncodeToString_free b c Hc). rewrite Hb. by left.
Qed.

(** One group of digits is read, with or without a dash before it. *)
Lemma read_group_hex w text beyond b :
  read_group (2 * length w) (hex_EncodeToString w ++ text) beyond b = (Ok text, b ++ w).
Proof.
  pose proof (hex_EncodeToString_length w) as Hl. unfold read_group.
  rewrite (proj2 (Nat.ltb_ge _ _)) by lens.
  rewrite <- app_assoc, take_app_length', hex_Decode_Encode by done.
  rewrite (proj2 (Nat.ltb_ge _ _)) by lens.
  by rewrite drop_app_length'.
Qed.

Lemma groups_loop_group groups n (d : bool) w text beyond b :
  w <> [] -> n = 2 * length w ->
  groups_loop (n :: groups) ((if d then [dash] else []) ++ hex_EncodeToString w ++ text) beyond b
  = groups_loop groups text beyond (b ++ w).
Proof.
  intros Hw ->. pose proof (read_group_hex w text beyond b) as Hr.
  assert (Hh : exists c h, hex_EncodeToString w = c :: h /\ c <> dash).
  { pose proof (hex_EncodeToString_length w) as Hl. destruct (hex_EncodeToString w) as [|c h] eqn:Hc.
    - destruct w; [done|simpl in Hl; lia].
    - exists c, h. split; [done|]. intros ->.
      assert (dash ∉ hex_digits) as Hd by decide_compute.
      apply (hex_head_not dash w Hd). by rewrite Hc. }
  destruct Hh as (c & h & Hh & Hc). destruct d; cbn [app groups_loop].
  - rewrite decide_True by done. by rewrite Hr.
  - rewrite Hh in *. cbn [app] in *. rewrite decide_False by done. by rewrite Hr.
Qed.

(** The forms a UUID is read from. *)
Definition plain (u : UUID) : bytes := hex_EncodeToString u.
Definition braced (u : UUID) : bytes := "{"%byte :: String_ u ++ ["}"%byte].
Definition urn (u : UUID) : bytes := urnPrefix ++ String_ u.

Lemma groups_loop_all (d : bool) u text beyond :
  uuid_wf u ->
  let sep := if d then [dash] else [] in
  groups_loop byteGroups
    (hex_EncodeToString (take 4 u) ++ sep ++ hex_EncodeToString (take 2 (drop 4 u))
     ++ sep ++ hex_EncodeToString (take 2 (drop 6 u)) ++ sep ++ hex_EncodeToString (take 2 (drop 8 u))
     ++ sep ++ hex_EncodeToString (drop 10 u) ++ text) beyond []
  = (Ok tt, u).
Proof.
  intros Hu sep. unfold uuid_wf in Hu. unfold byteGroups.
  do 17 (destruct u as [|? u]; try discriminate Hu). clear Hu. cbn [take drop].
  pose proof (groups_loop_group [4; 4; 4; 12] 8 false) as H8. cbn [app] in H8.
  rewrite H8 by done. unfold sep.
  rewrite !(groups_loop_group _ 4 d) by done. rewrite (groups_loop_group _ 12 d) by done.
  done.
Qed.

Lemma String_app u text :
  String_ u ++ text = hex_EncodeToString (take 4 u) ++ [dash] ++ hex_EncodeToString (take 2 (drop 4 u))
     ++ [dash] ++ hex_EncodeToString (take 2 (drop 6 u))
     ++ [dash] ++ hex_EncodeToString (take 2 (drop 8 u))
     ++ [dash] ++ hex_EncodeToString (drop 10 u) ++ text.
Proof. unfold String_. by do 5 (rewrite <- ?app_assoc; cbn [app]). Qed.

Lemma String_split u :
  String_ u = hex_EncodeToString (take 4 u) ++ [dash] ++ hex_EncodeToString (take 2 (drop 4 u))
     ++ [dash] ++ hex_EncodeToString (take 2 (drop 6 u))
     ++ [dash] ++ hex_EncodeToString (take 2 (drop 8 u))
     ++ [dash] ++ hex_EncodeToString (drop 10 u) ++ [].
Proof. by rewrite <- String_app, app_nil_r. Qed.

Lemma plain_split u :
  uuid_wf u ->
  plain u = hex_EncodeToString (take 4 u) ++ [] ++ hex_EncodeToString (take 2 (drop 4 u))
     ++ [] ++ hex_EncodeToString (take 2 (drop 6 u))
     ++ [] ++ hex_EncodeToString (take 2 (drop 8 u))
     ++ [] ++ hex_EncodeToString (drop 10 u) ++ [].
Proof.
  unfold uuid_wf, plain. intros Hu.
  do 17 (destruct u as [|? u]; try discriminate Hu). done.
Qed.

Lemma String_length u : uuid_wf u -> length (String_ u) = 36.
Proof.
  unfold uuid_wf. intros Hu. rewrite String_split, !length_app, !hex_EncodeToString_length.
  rewrite !length_take, !length_drop. cbn [length]. lia.
Qed.

Lemma over_all r u : length u = length r -> over r u = r.
Proof. intros Hl. unfold over. by rewrite <- Hl, drop_all, app_nil_r. Qed.

(** A text that starts with neither prefix is read as it is. *)
Lemma UnmarshalText_digit text beyond u :
  32 <= length text -> (exists c, head text = Some c /\ hex_digit c) ->
  UnmarshalText text beyond u
  = ((groups_loop byteGroups text beyond []).1, over (groups_loop byteGroups text beyond []).2 u).
Proof.
  intros Hl (c & Hc & Hd). unfold UnmarshalText. rewrite (proj2 (Nat.ltb_ge _ _)) by done.
  destruct text as [|a text]; [done|]. injection Hc as ->.
  assert (Hu : "u"%byte ∉ hex_digits) by decide_compute.
  assert (Hb : "{"%byte ∉ hex_digits) by decide_compute.
  rewrite decide_False by (intros H; injection H as -> _; exact (Hu Hd)).
  rewrite decide_False by (intros H; injection H as ->; exact (Hb Hd)).
  by destruct (groups_loop _ _ _ _).
Qed.

Lemma UnmarshalText_brace text beyond u :
  32 <= length ("{"%byte :: text) ->
  UnmarshalText ("{"%byte :: text) beyond u
  = ((groups_loop byteGroups text beyond []).1, over (groups_loop byteGroups text beyond []).2 u).
Proof.
  intros Hl. unfold UnmarshalText. rewrite (proj2 (Nat.ltb_ge _ _)) by done.
  rewrite decide_False by done. rewrite decide_True by done. cbn [drop].
  by destruct (groups_loop _ _ _ _).
Qed.

Lemma UnmarshalText_urn text beyond u :
  32 <= length (urnPrefix ++ text) ->
  UnmarshalText (urnPrefix ++ text) beyond u
  = ((groups_loop byteGroups text beyond []).1, over (groups_loop byteGroups text beyond []).2 u).
Proof.
  intros Hl. unfold UnmarshalText. rewrite (proj2 (Nat.ltb_ge _ _)) by done.
  rewrite (take_app_length' urnPrefix) by done. rewrite decide_True by done.
  rewrite (drop_app_length' urnPrefix) by done. by destruct (groups_loop _ _ _ _).
Qed.

Lemma hex_head w text : w <> [] -> exists c, head (hex_EncodeToString w ++ text) = Some c /\ hex_digit c.
Proof.
  intros Hw. pose proof (hex_EncodeToString_digits w) as Hd. pose proof (hex_EncodeToString_length w) as Hl.
  destruct (hex_EncodeToString w) as [|c h]; [destruct w; [done|simpl in Hl; lia]|].
  exists c. inversion Hd. done.
Qed.

(** Every form a UUID is written in is read back as that UUID, whatever the
    receiver held and whatever lies behind the text: the canonical string, the
    thirty-two digits without dashes, the string in braces and the URN. *)
Theorem UnmarshalText_String u old beyond :
  uuid_wf u -> uuid_wf old ->
  UnmarshalText (String_ u) beyond old = (Ok tt, u)
  /\ UnmarshalText (plain u) beyond old = (Ok tt, u)
  /\ UnmarshalText (braced u) beyond old = (Ok tt, u)
  /\ UnmarshalText (urn u) beyond old = (Ok tt, u).
Proof.
  intros Hu Hold. pose proof (String_length u Hu) as Hl. pose proof Hu as Hu'. unfold uuid_wf in Hu', Hold.
  assert (Hov : over u old = u) by (apply over_all; lia).
  assert (Hw : take 4 u <> []) by (destruct u; [discriminate Hu'|done]).
  split_and!.
  - rewrite UnmarshalText_digit; [|lia|rewrite String_split; by apply hex_head].
    rewrite String_split, (groups_loop_all true) by done. simpl. by rewrite Hov.
  - rewrite UnmarshalText_digit.
    + rewrite plain_split, (groups_loop_all false) by done. simpl. by rewrite Hov.
    + unfold plain. lens.
    + rewrite plain_split by done. by apply hex_head.
  - unfold braced. rewrite UnmarshalText_brace by (cbn [length]; rewrite length_app; lia).
    rewrite String_app, (groups_loop_all true) by done. simpl. by rewrite Hov.
  - unfold urn. rewrite UnmarshalText_urn by (rewrite length_app; lia).
    rewrite String_split, (groups_loop_all true) by done. simpl. by rewrite Hov.
Qed.

Lemma UnmarshalText_String_witness :
  UnmarshalText (urn dns) [x01] Nil = (Ok tt, dns).
Proof. apply (UnmarshalText_String dns Nil [x01]); vm_compute; reflexivity. Defined.

(** ** What parsing writes *)

Lemma hex_Decode_length src :
  2 * length (hex_Decode src).1 <= length src
  /\ ((hex_Decode src).2 = None -> forall k, length src = 2 * k -> length (hex_Decode src).1 = k).
Proof.
  assert (H : forall n src, length src <= n ->
    2 * length (hex_Decode src).1 <= length src
    /\ ((hex_Decode src).2 = None -> forall k, length src = 2 * k -> length (hex_Decode src).1 = k)).
  { clear src. intros n. induction n as [|n IH]; intros [|a [|b src]] Hn; cbn [length] in Hn; try lia;
      try (simpl; split; [lia|intros _ k Hk; lia]).
    cbn [hex_Decode]. destruct (fromHexChar a) as [x|]; [|simpl; split; [lia|done]].
    destruct (fromHexChar b) as [y|]; [|simpl; split; [lia|done]].
    destruct (IH src ltac:(lia)) as [H1 H2]. destruct (hex_Decode src) as [r err].
    simpl in *. split; [lia|]. intros He k Hk.
    rewrite (H2 He (k - 1)) by lia. lia. }
  exact (H _ src (le_n _)).
Qed.

Lemma read_group_length k text beyond b :
  length b <= length (read_group (2 * k) text beyond b).2 <= length b + k
  /\ (forall text', (read_group (2 * k) text beyond b).1 = Ok text' ->
      length (read_group (2 * k) text beyond b).2 = length b + k).
Proof.
  unfold read_group. destruct (Nat.ltb_spec (length (text ++ beyond)) (2 * k)); [simpl; split; [lia|done]|].
  destruct (hex_Decode_length (take (2 * k) (text ++ beyond))) as [H1 H2].
  rewrite length_take in H1, H2. destruct (hex_Decode _) as [r err]. simpl in H1, H2.
  destruct err as [err|]; simpl; rewrite ?length_app; [split; [lia|done]|].
  specialize (H2 eq_refl k ltac:(lia)).
  destruct (length text <? k + (k + 0)); simpl; rewrite ?length_app; (split; [lia|intros; (lia || done)]).
Qed.

Lemma groups_loop_length ks text beyond b :
  length b <= length (groups_loop (map (fun k => 2 * k) ks) text beyond b).2 <= length b + sum_list ks
  /\ ((groups_loop (map (fun k => 2 * k) ks) text beyond b).1 = Ok tt ->
      length (groups_loop (map (fun k => 2 * k) ks) text beyond b).2 = length b + sum_list ks).
Proof.
  revert text b. induction ks as [|k ks IH]; intros text b; [simpl; lia|].
  change (sum_list (k :: ks)) with (k + sum_list ks).
  cbn [map groups_loop]. destruct text as [|c rest]; [simpl; split; [lia|done]|].
  set (text := if decide (c = dash) then rest else c :: rest).
  destruct (read_group_length k text beyond b) as [H1 H2].
  destruct (read_group (2 * k) text beyond b) as [[text'|err|] b']; simpl in H1, H2;
    try (simpl; split; [lia|done]).
  specialize (H2 text' eq_refl). destruct (IH text' b') as [I1 I2]. split; [lia|].
  intros He. rewrite (I2 He). lia.
Qed.

Lemma UnmarshalText_groups text beyond :
  32 <= length text ->
  exists text', length text' <= length text
    /\ forall u, UnmarshalText text beyond u
       = ((groups_loop byteGroups text' beyond []).1, over (groups_loop byteGroups text' beyond []).2 u).
Proof.
  intros Hl. unfold UnmarshalText. rewrite (proj2 (Nat.ltb_ge _ _)) by done.
  set (t := if decide (take 9 text = urnPrefix) then _ else _).
  exists t. split; [|intros u; by destruct (groups_loop _ _ _ _)]. unfold t.
  destruct (decide _); [rewrite length_drop; lia|]. destruct (decide _); [rewrite length_drop; lia|done].
Qed.



(** What follows the last group is ignored, and a text cut inside the last
    group makes the parser slice past the end: it panics where the error of a
    shorter text is promised. *)
Theorem UnmarshalText_extent u old text beyond k :
  uuid_wf u -> uuid_wf old -> k < 36 ->
  UnmarshalText (String_ u ++ text) beyond old = (Ok tt, u)
  /\ (UnmarshalText (take k (String_ u)) [] old).1
     = if k <? 32 then Err invalid_string else Panic.
Proof.
  intros Hu Hold Hk. pose proof (String_length u Hu) as Hl. pose proof Hu as Hu'. unfold uuid_wf in Hu', Hold.
  assert (Hw : take 4 u <> []) by (destruct u; [discriminate Hu'|done]). split.
  - rewrite UnmarshalText_digit; [|lens|rewrite String_app; by apply hex_head].
    rewrite String_app, (groups_loop_all true) by done. simpl. by rewrite over_all by lia.
  - destruct (Nat.ltb_spec k 32) as [Hk'|Hk'].
    + unfold UnmarshalText. by rewrite (proj2 (Nat.ltb_lt _ _)) by lens.
    + set (h := take (k - 24) (hex_EncodeToString (drop 10 u))).
      assert (Ht : take k (String_ u) = hex_EncodeToString (take 4 u)
        ++ [dash] ++ hex_EncodeToString (take 2 (drop 4 u)) ++ [dash] ++ hex_EncodeToString (take 2 (drop 6 u))
        ++ [dash] ++ hex_EncodeToString (take 2 (drop 8 u)) ++ [dash] ++ h).
      { rewrite String_split. unfold h. rewrite !take_app, !hex_EncodeToString_length, !length_take, !length_drop, Hu'.
        change (length [dash]) with 1.
        rewrite !(take_ge (hex_EncodeToString (take _ _)))
          by lens.
        rewrite !(take_ge [dash]) by (simpl length; lia). rewrite take_nil, app_nil_r. do 9 f_equal. lia. }
      assert (Hh : length h = k - 24).
      { unfold h. lens. }
      rewrite UnmarshalText_digit; [|lens|rewrite Ht; by apply hex_head].
      rewrite Ht. cbn [fst]. unfold byteGroups.
      assert (Hne : forall n, n < 16 -> take 2 (drop n u) <> []).
      { intros n Hn H. apply (f_equal length) in H. rewrite length_take, length_drop in H. cbn [length] in H. lia. }
      pose proof (groups_loop_group [4; 4; 4; 12] 8 false) as H8. cbn [app] in H8.
      rewrite H8; [|done|lens].
      rewrite !(groups_loop_group _ 4 true); try (apply Hne; lia); try lens.
      cbn [app groups_loop]. rewrite decide_True by done. unfold read_group.
      by rewrite (proj2 (Nat.ltb_lt _ _)) by (rewrite length_app; simpl; lia).
Qed.

Lemma UnmarshalText_extent_witness :
  (UnmarshalText (take 35 (String_ dns)) [] Nil).1 = Panic.
Proof. apply (UnmarshalText_extent dns Nil [] [] 35); [reflexivity|reflexivity|lia]. Defined.

(** ** The clock of version 1 *)

(** The timestamp, the clock sequence and the node of a version 1 UUID. *)
Definition v1_time (u : UUID) : Z :=
  (at_ u 6 mod 16 * 2 ^ 56 + at_ u 7 * 2 ^ 48 + at_ u 4 * 2 ^ 40 + at_ u 5 * 2 ^ 32
   + at_ u 0 * 2 ^ 24 + at_ u 1 * 2 ^ 16 + at_ u 2 * 2 ^ 8 + at_ u 3)%Z.
Definition v1_seq (u : UUID) : Z := (at_ u 8 mod 64 * 2 ^ 8 + at_ u 9)%Z.
Definition v1_node (u : UUID) : bytes := drop 10 u.

Lemma RFC4122_bits b :
  Z.land (Z_of_byte b) 0x80 <> 0%Z -> Z.lor (Z.land (Z_of_byte b) 0xc0) 0x80 = 0x80%Z ->
  (Z_of_byte b / 64 = 2)%Z.
Proof. by destruct b. Qed.

Lemma Variant_RFC4122 u : Variant u = VariantRFC4122 -> (at_ u 8 / 64 = 2)%Z.
Proof.
  unfold Variant, at_. destruct (Z.eqb_spec (Z.land (Z_of_byte (u !!! 8)) 128) 0); [done|].
  destruct (Z.eqb_spec (Z.lor (Z.land (Z_of_byte (u !!! 8)) 192) 128) 128); [|by destruct (_ =? _)%Z].
  intros _. by apply RFC4122_bits.
Qed.

Lemma at_inj u u' i : at_ u i = at_ u' i -> u !!! i = u' !!! i.
Proof. unfold at_. intros H. by apply (inj Z_of_byte). Qed.

Lemma at_range u i : (0 <= at_ u i < 256)%Z.
Proof. unfold at_. auto with machine. Qed.

Lemma of_digits_256_inj l l' :
  length l = length l' -> valid_digits 256 l -> valid_digits 256 l' ->
  of_digits_le 256 l = of_digits_le 256 l' -> l = l'.
Proof.
  intros Hl Hv. revert l' Hl. induction Hv as [|d l Hd Hv IH]; intros [|d' l'] Hl Hv' He; try done.
  inversion Hv' as [|? ? Hd' Hv'']; subst. cbn [of_digits_le] in He. injection Hl as Hl.
  f_equal; [lia|]. apply IH; [done..|lia].
Qed.

Lemma v1_time_digits u :
  v1_time u = of_digits_le 256
    [at_ u 3; at_ u 2; at_ u 1; at_ u 0; at_ u 5; at_ u 4; at_ u 7; (at_ u 6 mod 16)%Z].
Proof. unfold v1_time. cbn [of_digits_le]. lia. Qed.

Lemma v1_seq_digits u : v1_seq u = of_digits_le 256 [at_ u 9; (at_ u 8 mod 64)%Z].
Proof. unfold v1_seq. cbn [of_digits_le]. lia. Qed.

(** A UUID of a version, of RFC 4122, is determined by its fields. *)
Lemma v1_fields_ext u u' :
  uuid_wf u -> uuid_wf u' -> Version u = Version u' ->
  Variant u = VariantRFC4122 -> Variant u' = VariantRFC4122 ->
  v1_time u = v1_time u' -> v1_seq u = v1_seq u' -> v1_node u = v1_node u' -> u = u'.
Proof.
  intros Hu Hu' HV HR HR' HT HS HN. apply Variant_RFC4122 in HR, HR'.
  rewrite !v1_time_digits in HT. rewrite !v1_seq_digits in HS.
  pose proof (at_range u) as R. pose proof (at_range u') as R'.
  assert (Hm : forall u, (0 <= at_ u 6 mod 16 < 256 /\ 0 <= at_ u 8 mod 64 < 256)%Z)
    by (intros v; pose proof (Z.mod_pos_bound (at_ v 6) 16); pose proof (Z.mod_pos_bound (at_ v 8) 64); lia).
  apply of_digits_256_inj in HT; [|done|repeat constructor; try apply R; apply Hm|repeat constructor; try apply R'; apply Hm].
  apply of_digits_256_inj in HS; [|done|repeat constructor; try apply R; apply Hm|repeat constructor; try apply R'; apply Hm].
  injection HT as E3 E2 E1 E0 E5 E4 E7 E6. injection HS as E9 E8.
  unfold Version in HV. rewrite !Z.shiftr_div_pow2 in HV by lia. change (2 ^ 4)%Z with 16%Z in HV.
  pose proof (Z.div_mod (at_ u 6) 16). pose proof (Z.div_mod (at_ u' 6) 16).
  pose proof (Z.div_mod (at_ u 8) 64). pose proof (Z.div_mod (at_ u' 8) 64).
  assert (Hb : forall i, i < 10 -> u !!! i = u' !!! i).
  { intros i Hi. apply at_inj. do 10 (destruct i as [|i]; [first [assumption|lia]|]). lia. }
  unfold v1_node in HN. unfold uuid_wf in *. apply (list_eq_same_length _ _ 16); try done.
  intros i x y Hi Hx Hy. destruct (decide (i < 10)) as [Hi'|Hi'].
  - specialize (Hb i Hi'). by rewrite (list_lookup_total_correct _ _ _ Hx), (list_lookup_total_correct _ _ _ Hy) in Hb.
  - replace i with (10 + (i - 10)) in Hx, Hy by lia. rewrite <- lookup_drop in Hx, Hy. congruence.
Qed.

Lemma div_256 k k' t :
  (0 <= k)%Z -> k' = (k + 1)%Z -> (t / 256 ^ k = 256 * (t / 256 ^ k') + t / 256 ^ k mod 256)%Z.
Proof.
  intros Hk ->. rewrite Z.pow_add_r, Z.pow_1_r, <- Z.div_div by lia. apply Z.div_mod. lia.
Qed.

(** The eight bytes of a timestamp, the top one less its high nibble. *)
Lemma time_digits t :
  (t / 256 ^ 7 mod 256 mod 16 * 2 ^ 56 + t / 256 ^ 6 mod 256 * 2 ^ 48 + t / 256 ^ 5 mod 256 * 2 ^ 40
   + t / 256 ^ 4 mod 256 * 2 ^ 32 + t / 256 ^ 3 mod 256 * 2 ^ 24 + t / 256 ^ 2 mod 256 * 2 ^ 16
   + t / 256 ^ 1 mod 256 * 2 ^ 8 + t mod 256 = t mod 2 ^ 60)%Z.
Proof.
  pose proof (div_256 0 1 t ltac:(lia) eq_refl) as H0. rewrite Z.pow_0_r, Z.div_1_r in H0.
  pose proof (div_256 1 2 t ltac:(lia) eq_refl). pose proof (div_256 2 3 t ltac:(lia) eq_refl).
  pose proof (div_256 3 4 t ltac:(lia) eq_refl). pose proof (div_256 4 5 t ltac:(lia) eq_refl).
  pose proof (div_256 5 6 t ltac:(lia) eq_refl). pose proof (div_256 6 7 t ltac:(lia) eq_refl).
  pose proof (Z.div_mod (t / 256 ^ 7 mod 256) 16 ltac:(lia)). pose proof (Z.div_mod (t / 256 ^ 7) 256 ltac:(lia)).
  pose proof (Z.mod_pos_bound (t / 256 ^ 7 mod 256) 16 ltac:(lia)).
  pose proof (fun k => Z.mod_pos_bound (t / 256 ^ k) 256 ltac:(lia)) as HB.
  pose proof (HB 1%Z). pose proof (HB 2%Z). pose proof (HB 3%Z). pose proof (HB 4%Z). pose proof (HB 5%Z).
  pose proof (HB 6%Z). pose proof (Z.mod_pos_bound t 256 ltac:(lia)). clear HB.
  apply (Z.mod_unique_pos _ _ (16 * (t / 256 ^ 7 / 256) + t / 256 ^ 7 mod 256 / 16)); lia.
Qed.

Lemma seq_digits c : (c / 256 mod 256 mod 64 * 2 ^ 8 + c mod 256 = c mod 2 ^ 14)%Z.
Proof.
  pose proof (Z.div_mod c 256 ltac:(lia)). pose proof (Z.mod_pos_bound c 256 ltac:(lia)).
  pose proof (Z.div_mod (c / 256) 256 ltac:(lia)). pose proof (Z.mod_pos_bound (c / 256 mod 256) 64 ltac:(lia)).
  pose proof (Z.div_mod (c / 256 mod 256) 64 ltac:(lia)).
  apply (Z.mod_unique_pos _ _ (4 * (c / 256 / 256) + c / 256 mod 256 / 64)); lia.
Qed.

Lemma shift_byte k j t :
  (0 <= k)%Z -> (0 <= j)%Z -> (Z.shiftr t (8 * k) / 256 ^ j = t / 256 ^ (k + j))%Z.
Proof.
  intros Hk Hj. rewrite Z.shiftr_div_pow2, Z.pow_mul_r, Z.pow_add_r by lia. apply Z.div_div; lia.
Qed.

Lemma NewV1_fields t st :
  storage_wf st ->
  let u := (NewV1 t st).1 in
  uuid_wf u /\ Version u = 1%Z /\ Variant u = VariantRFC4122 /\ v1_time u = (t mod 2 ^ 60)%Z
  /\ v1_seq u = (clockSequence (NewV1 t st).2 mod 2 ^ 14)%Z /\ v1_node u = hardwareAddr st.
Proof.
  intros [Hhw _] u. unfold u, NewV1. cbn [getStorage fst snd clockSequence hardwareAddr].
  set (c := if (t <=? lastTime st)%Z then _ else _). destruct (hardwareAddr st) as [|h0 hw]; [done|].
  do 6 (destruct hw as [|? hw]; try discriminate Hhw). clear Hhw.
  set (u0 := be_bytes 4 t ++ _).
  destruct (set_bits 1 u0 eq_refl ltac:(lia)) as (Hu & HV & HR & H6 & H8 & Hi).
  split; [done|]. split; [done|]. split; [done|].
  unfold v1_time, v1_seq. rewrite H6, H8, !Hi by lia.
  unfold at_, u0. cbn [be_bytes app lookup_total list_lookup_total nth].
  rewrite !Z_of_byte_of_Z.
  split; [|split]; [| |done].
  - rewrite <- time_digits, !(shift_byte 4), !(shift_byte 6) by lia.
    by rewrite !Z.pow_0_r, Z.div_1_r.
  - by rewrite <- seq_digits, Z.pow_1_r, Z.pow_0_r, Z.div_1_r.
Qed.

(** The UUIDs of successive calls, the clock reading [times]. *)
Fixpoint NewV1s (times : list Z) (st : storage) : list UUID :=
  match times with
  | [] => []
  | t :: times => let '(u, st) := NewV1 t st in u :: NewV1s times st
  end.

Lemma NewV1_wf t st : storage_wf st -> storage_wf (NewV1 t st).2.
Proof.
  intros [Hh Hc]. unfold NewV1, storage_wf. cbn [getStorage fst snd clockSequence hardwareAddr]. split; [done|].
  destruct (t <=? lastTime st)%Z; [apply Z.mod_pos_bound; lia|done].
Qed.

(** The clock sequence is raised by a call exactly when the clock has not advanced. *)
Lemma NewV1_clock t st :
  lastTime (NewV1 t st).2 = t /\ hardwareAddr (NewV1 t st).2 = hardwareAddr st
  /\ (clockSequence (NewV1 t st).2 mod 2 ^ 14
     = (clockSequence st + if t <=? lastTime st then 1 else 0) mod 2 ^ 14)%Z.
Proof.
  unfold NewV1. cbn [getStorage fst snd clockSequence lastTime hardwareAddr]. split_and!; [done..|].
  destruct (t <=? lastTime st)%Z; [|by rewrite Z.add_0_r].
  apply Z.mod_mod_divide. by exists 4%Z.
Qed.

(** What a later UUID of a run shows: how often the clock had not advanced, out of
    the calls made; if it always had, the timestamp is later. *)
Lemma NewV1s_later times st j u :
  storage_wf st -> NewV1s times st !! j = Some u ->
  exists t n, times !! j = Some t /\ (0 <= n <= Z.of_nat j + 1)%Z
    /\ v1_time u = (t mod 2 ^ 60)%Z /\ v1_seq u = ((clockSequence st + n) mod 2 ^ 14)%Z
    /\ v1_node u = hardwareAddr st /\ uuid_wf u /\ Version u = 1%Z /\ Variant u = VariantRFC4122
    /\ (n = 0 -> lastTime st < t)%Z.
Proof.
  revert st j. induction times as [|t0 times IH]; intros st j Hst Hj; [done|].
  cbn [NewV1s] in Hj. pose proof (NewV1_fields t0 st Hst) as HF. pose proof (NewV1_clock t0 st) as (HL & HH & HC).
  pose proof (NewV1_wf t0 st Hst) as Hst'. destruct (NewV1 t0 st) as [u0 st']. cbn [fst snd] in *.
  destruct HF as (F1 & F2 & F3 & F4 & F5 & F6). destruct j as [|j].
  - injection Hj as <-. exists t0, (if t0 <=? lastTime st then 1 else 0)%Z.
    rewrite F5, HC. split_and!; try done; destruct (Z.leb_spec t0 (lastTime st)); lia.
  - destruct (IH st' j Hst' Hj) as (t & n & Ht & Hn & ET & ES & EN & ? & ? & ? & Hadv).
    exists t, (n + if t0 <=? lastTime st then 1 else 0)%Z. rewrite HL in Hadv. rewrite HH in EN.
    split_and!; try done; try (destruct (Z.leb_spec t0 (lastTime st)); lia).
    rewrite ES, <- Zplus_mod_idemp_l, HC, Zplus_mod_idemp_l. f_equal. lia.
Qed.

(** While the clock stands still, every call raises the sequence. *)
Lemma NewV1s_stopped m t st j u :
  storage_wf st -> (t <= lastTime st)%Z -> NewV1s (replicate m t) st !! j = Some u ->
  v1_seq u = ((clockSequence st + Z.of_nat j + 1) mod 2 ^ 14)%Z.
Proof.
  revert st j. induction m as [|m IH]; intros st j Hst Ht Hj; [done|].
  cbn [replicate NewV1s] in Hj. pose proof (NewV1_fields t st Hst) as (_ & _ & _ & _ & F5 & _).
  pose proof (NewV1_clock t st) as (HL & _ & HC). pose proof (NewV1_wf t st Hst) as Hst'.
  destruct (NewV1 t st) as [u0 st']. cbn [fst snd] in *. rewrite (proj2 (Z.leb_le _ _)) in HC by done.
  destruct j as [|j].
  - injection Hj as <-. rewrite F5, HC. f_equal. lia.
  - rewrite (IH st' j Hst') by (done || lia).
    rewrite <- Z.add_assoc, <- Zplus_mod_idemp_l, HC, Zplus_mod_idemp_l. f_equal. lia.
Qed.

Lemma NewV1s_length times st : length (NewV1s times st) = length times.
Proof. revert st. induction times as [|t times IH]; intros st; [done|]. simpl. by rewrite IH. Qed.

Lemma NewV1_repeat m t st :
  storage_wf st -> Z.of_nat m = (2 ^ 14)%Z ->
  exists u, NewV1s (replicate (S m) t) st !! 0 = Some u /\ NewV1s (replicate (S m) t) st !! m = Some u.
Proof.
  intros Hst Hm. cbn [replicate NewV1s].
  pose proof (NewV1_fields t st Hst) as (F1 & F2 & F3 & FT & FS & FN). pose proof (NewV1_clock t st) as (HL & HH & _).
  pose proof (NewV1_wf t st Hst) as Hst'. destruct (NewV1 t st) as [u0 st']. cbn [fst snd] in *.
  exists u0. split; [done|]. destruct m as [|m]; [lia|].
  change (NewV1s (replicate (S m) t) st' !! m = Some u0).
  destruct (lookup_lt_is_Some_2 (NewV1s (replicate (S m) t) st') m) as [u Hu];
    [rewrite NewV1s_length, length_replicate; lia|].
  rewrite Hu. f_equal. pose proof (NewV1s_stopped _ t st' _ _ Hst' ltac:(lia) Hu) as ES.
  destruct (NewV1s_later _ _ _ _ Hst' Hu) as (t1 & n & Ht1 & _ & ET & _ & EN & ? & ? & ? & _).
  apply lookup_replicate in Ht1 as [-> _].
  apply v1_fields_ext; [done|done|congruence|done|done|congruence| |by rewrite EN, HH, FN].
  rewrite ES, FS. replace (clockSequence st' + Z.of_nat m + 1)%Z with (clockSequence st' + 1 * 2 ^ 14)%Z by lia.
  apply Z.mod_add. lia.
Qed.

(** C34. However the clock jumps, the UUIDs of up to 2^14 successive calls are all
  different; the sequence being cut to fourteen bits, a clock that stands still
  for 2^14 calls more repeats the first of them. *)
Theorem NewV1_unique times t st :
  storage_wf st -> Forall (fun t => 0 <= t < 2 ^ 60)%Z times -> (Z.of_nat (length times) <= 2 ^ 14)%Z ->
  NoDup (NewV1s times st)
  /\ forall m, Z.of_nat m = (2 ^ 14)%Z ->
   exists u, NewV1s (replicate (S m) t) st !! 0 = Some u /\ NewV1s (replicate (S m) t) st !! m = Some u.
Proof.
  intros Hst Hts Hlen. split; [|intros m; by apply NewV1_repeat].
  revert st Hst. induction times as [|t0 times IH]; intros st Hst; [constructor|].
  inversion Hts as [|? ? Ht0 Hts']; subst. cbn [NewV1s length] in *.
  pose proof (NewV1_fields t0 st Hst) as (_ & _ & _ & FT & FS & _). pose proof (NewV1_clock t0 st) as (HL & _ & _).
  pose proof (NewV1_wf t0 st Hst) as Hst'. destruct (NewV1 t0 st) as [u0 st']. cbn [fst snd] in *.
  constructor; [|apply IH; [done|lia|done]]. intros Hin. apply list_elem_of_lookup_1 in Hin as [j Hj].
  destruct (NewV1s_later _ _ _ _ Hst' Hj) as (t1 & n & Ht1 & Hn & ET & ES & _ & _ & _ & _ & Hadv).
  pose proof (lookup_lt_Some _ _ _ Ht1) as Hj'. rewrite Forall_lookup in Hts'. specialize (Hts' j t1 Ht1).
  rewrite FT, !Z.mod_small in ET by done. rewrite FS in ES. subst t1.
  assert (n = 0)%Z; [|lia].
  pose proof (Z.div_mod (clockSequence st') (2 ^ 14) ltac:(lia)).
  pose proof (Z.div_mod (clockSequence st' + n) (2 ^ 14) ltac:(lia)). lia.
Qed.

Lemma NewV1_unique_witness : NoDup (NewV1s [5; 5; 3; 5]%Z example_storage).
Proof.
  apply (NewV1_unique [5; 5; 3; 5]%Z 9 example_storage); [split; [reflexivity|simpl; lia]| |simpl; lia].
  repeat constructor; simpl; lia.
Defined.

(** ** Random keys *)

Lemma without_dashes_hex w : without_dashes (hex_EncodeToString w) = hex_EncodeToString w.
Proof.
  assert (Hd : dash ∉ hex_digits) by decide_compute.
  pose proof (hex_EncodeToString_free w dash Hd) as Hf. unfold without_dashes.
  induction (hex_EncodeToString w) as [|c l IH]; [done|]. apply not_elem_of_cons in Hf as [Hc Hl].
  rewrite filter_cons_True by congruence. by rewrite IH.
Qed.

Lemma without_dashes_String u : uuid_wf u -> without_dashes (String_ u) = plain u.
Proof.
  intros Hu. rewrite plain_split by done. rewrite String_split. unfold without_dashes.
  rewrite !filter_app. fold without_dashes.
  assert (Hd : filter (fun c => c <> dash) [dash] = []) by done. rewrite !Hd.
  pose proof without_dashes_hex as H. unfold without_dashes in H. by rewrite !H.
Qed.

(** A random key is a clean key with one element, the 32 hexadecimal digits of
    the UUID, and different UUIDs give different keys. *)
Theorem RandomKey_spec rand rand' :
  uuid_wf rand -> uuid_wf rand' ->
  clean (RandomKey rand) /\ List_ (RandomKey rand) = [plain (NewV4 rand)]
  /\ length (plain (NewV4 rand)) = 32 /\ IsTopLevel (RandomKey rand) = true
  /\ (RandomKey rand = RandomKey rand' <-> NewV4 rand = NewV4 rand').
Proof.
  assert (HR : forall rand, uuid_wf rand ->
    RandomKey rand = key_of [plain (NewV4 rand)] /\ Forall good [plain (NewV4 rand)] /\ length (plain (NewV4 rand)) = 32).
  { clear. intros rand Hr. destruct (set_bits 4 rand Hr ltac:(lia)) as (Hu & _). change (uuid_wf (NewV4 rand)) in Hu.
    assert (Hl : length (plain (NewV4 rand)) = 32).
    { unfold plain. unfold uuid_wf in Hu. lens. }
    assert (Hg : good (plain (NewV4 rand))).
    { split_and!; [intros He; by rewrite He in Hl..|]. apply hex_EncodeToString_free. unfold hex_digit.
      decide_compute. }
    split; [|split; [by constructor|done]]. unfold RandomKey. rewrite without_dashes_String by done.
    by rewrite <- (NewKey_Join [plain (NewV4 rand)]) by (by constructor). }
  intros Hr Hr'. destruct (HR rand Hr) as (-> & Hg & Hl). destruct (HR rand' Hr') as (-> & Hg' & _).
  split_and!; [apply clean_key_of; by exists [plain (NewV4 rand)]|by apply List_key_of|done|..].
  - unfold IsTopLevel. by rewrite List_key_of.
  - split; [|by intros ->]. intros He. apply key_of_inj in He; [|done..]. injection He as He.
    by apply (inj hex_EncodeToString).
Qed.

Lemma RandomKey_spec_witness :
  List_ (RandomKey (replicate 16 x5a)) = [str "5a5a5a5a5a5a4a5a9a5a5a5a5a5a5a5a"].
Proof. apply (RandomKey_spec (replicate 16 x5a) Nil); reflexivity. Defined.
