(* ===== verification/Flatfs.v ===== *)
(** * The flat file store

    Models [Godeps/.../jbenet/go-datastore/flatfs/flatfs.go] and
    [flatfs/sync_std.go] over a model of the two directory levels the store uses:
    every call to the operating system is one step, which may fail, and the trees
    after each step are kept, so that theorems can speak of the states in which a
    crash may leave the disk. *)

From S2P Require Import Prelude Hex DsKey Query Datastore.

(** ** The file system *)

(** What lies below the path of the store: in the path itself directories and
    other files, in a directory regular files and directories. *)
Inductive file :=
  | File (data : bytes)
  | Subdir (empty : bool).
Inductive node :=
  | Dir (files : gmap bytes file)
  | NonDir.
Abbreviation tree := (gmap bytes node).

(** An error of the operating system: [os.IsExist], [os.IsNotExist], any other. *)
Inductive errno :=
  | EEXIST
  | ENOENT
  | EOther (msg : string).
Definition go_error (e : errno) : error :=
  match e with
  | EEXIST => errors_New "file exists"
  | ENOENT => errors_New "no such file or directory"
  | EOther msg => errors_New msg
  end.
Definition IsExist (e : errno) : bool := match e with EEXIST => true | _ => false end.
Definition IsNotExist (e : errno) : bool := match e with ENOENT => true | _ => false end.

(** The machine: the files, which of the calls to come fail, with their message
    and how many bytes a failing write has written, and the tree after every call
    made. *)
Record os := mkOS { files_of : tree; faults : list (option (string * nat)); trace : list tree }.

Definition io (A : Type) : Type := os -> (errno + A) * os.

(** One call. A failing one leaves what [damage] says. *)
Definition syscall {A : Type} (damage : nat -> tree -> tree) (act : tree -> (errno + A) * tree) : io A :=
  fun s =>
    let '(r, t) :=
      match faults s with
      | Some (msg, n) :: _ => (inl (EOther msg), damage n (files_of s))
      | _ => act (files_of s)
      end in
    (r, mkOS t (tail (faults s)) (trace s ++ [t])).
Definition undamaged (n : nat) (t : tree) : tree := t.

Definition not_a_directory : errno := EOther "not a directory".
Definition is_a_directory : errno := EOther "is a directory".
Definition not_empty : errno := EOther "directory not empty".

(** What a path of two elements leads to. *)
Definition stat (dir name : bytes) (t : tree) : errno + file :=
  match t !! dir with
  | None => inl ENOENT
  | Some NonDir => inl not_a_directory
  | Some (Dir fs) => match fs !! name with None => inl ENOENT | Some f => inr f end
  end.
Definition alter_dir (f : gmap bytes file -> gmap bytes file) (dir : bytes) (t : tree) : tree :=
  alter (fun n => match n with Dir fs => Dir (f fs) | NonDir => NonDir end) dir t.

Definition Mkdir (dir : bytes) : io unit :=
  syscall undamaged (fun t =>
    match t !! dir with
    | Some _ => (inl EEXIST, t)
    | None => (inr tt, <[dir := Dir ∅]> t)
    end).

(** [os.Open] of the path of the store, and of a name below it. *)
Definition Open_root : io unit := syscall undamaged (fun t => (inr tt, t)).
Definition Open (dir : bytes) : io unit :=
  syscall undamaged (fun t => (match t !! dir with None => inl ENOENT | Some _ => inr tt end, t)).
(** [Sync] and [Close] of an open file. *)
Definition Sync : io unit := syscall undamaged (fun t => (inr tt, t)).
Definition Close : io unit := syscall undamaged (fun t => (inr tt, t)).

Definition Write (dir name val : bytes) : io unit :=
  let append (b : bytes) := alter_dir (alter (fun f =>
    match f with File d => File (d ++ b) | _ => f end) name) dir in
  syscall (fun n => append (take n val)) (fun t => (inr tt, append val t)).

Definition ReadFile (dir name : bytes) : io bytes :=
  syscall undamaged (fun t =>
    (match stat dir name t with
     | inl e => inl e
     | inr (File d) => inr d
     | inr (Subdir _) => inl is_a_directory
     end, t)).
Definition Stat (dir name : bytes) : io file := syscall undamaged (fun t => (stat dir name t, t)).
Definition Remove (dir name : bytes) : io unit :=
  syscall undamaged (fun t =>
    match stat dir name t with
    | inl e => (inl e, t)
    | inr (Subdir false) => (inl not_empty, t)
    | inr _ => (inr tt, alter_dir (delete name) dir t)
    end).

(** [ioutil.TempFile] draws a name that is free: the prefix and some digits. *)
Definition putPrefix : bytes := str "put-".
Class TempNames := {
  temp_name : gmap bytes file -> bytes;
  temp_name_prefix fs : exists d, temp_name fs = putPrefix ++ d /\ slash ∉ d;
  temp_name_fresh fs : fs !! temp_name fs = None;
}.

(** [osrename.Rename], of a package that is not in the repository: on the systems
    where the store is used it is the rename of the operating system, which
    replaces the target in one step. *)
Class OsRename := {
  Rename_act : bytes -> bytes -> bytes -> tree -> tree;
  Rename_moves dir old new t fs d :
    t !! dir = Some (Dir fs) -> fs !! old = Some (File d) ->
    (forall b, fs !! new <> Some (Subdir b)) ->
    Rename_act dir old new t = <[dir := Dir (<[new := File d]> (delete old fs))]> t;
}.

Section Calls.
Context `{!TempNames, !OsRename, !GoRange bytes}.

Definition TempFile (dir : bytes) : io bytes :=
  syscall undamaged (fun t =>
    match t !! dir with
    | None => (inl ENOENT, t)
    | Some NonDir => (inl not_a_directory, t)
    | Some (Dir fs) => (inr (temp_name fs), alter_dir <[temp_name fs := File []]> dir t)
    end).

Definition Rename (dir old new : bytes) : io unit :=
  syscall undamaged (fun t =>
    match stat dir old t, stat dir new t with
    | inl e, _ => (inl e, t)
    | _, inr (Subdir _) => (inl is_a_directory, t)
    | _, _ => (inr tt, Rename_act dir old new t)
    end).

(** [Readdir(0)] lists a directory in an order that the system leaves open. *)
Definition Readdir_root : io (list (bytes * node)) :=
  syscall undamaged (fun t => (inr (go_range_map t), t)).
Definition Readdir (dir : bytes) : io (list (bytes * file)) :=
  syscall undamaged (fun t =>
    (match t !! dir with
     | None => inl ENOENT
     | Some NonDir => inl not_a_directory
     | Some (Dir fs) => inr (go_range_map fs)
     end, t)).
End Calls.

(** ** The store *)

Definition extension : bytes := str ".data".
Definition maxPrefixLen : nat := 16.

(** [fs.path] is the root of the tree; paths below it are given by their one or
    two elements. *)
Record Datastore := mkDatastore { hexPrefixLen : nat }.

Definition ErrBadPrefixLen : error := errors_New "bad prefix length".
Definition New (prefixLen : Z) : res Datastore :=
  if (prefixLen <=? 0)%Z || (Z.of_nat maxPrefixLen <? prefixLen)%Z then Err ErrBadPrefixLen
  else Ok (mkDatastore (Z.to_nat prefixLen * 2)).

Definition padding : bytes := replicate (maxPrefixLen * 2) "_"%byte.

(** [key.Bytes()[1:]] panics on the empty string, which is no key that [NewKey]
    makes. *)
Definition encode (fs : Datastore) (key : Key) : res (bytes * bytes) :=
  match Bytes key with
  | [] => Panic
  | _ :: b =>
      let safe := hex_EncodeToString b in
      Ok (take (hexPrefixLen fs) (safe ++ padding), safe ++ extension)
  end.

(** [path.Ext]: from the last dot of the last element on. *)
Fixpoint ext_loop (rev_path acc : bytes) : bytes :=
  match rev_path with
  | [] => []
  | c :: rev_path =>
      if decide (c = slash) then []
      else if decide (c = dot) then c :: acc
      else ext_loop rev_path (c :: acc)
  end.
Definition path_Ext (path : bytes) : bytes := ext_loop (rev path) [].

Definition decode (file : bytes) : option Key :=
  if negb (bool_decide (path_Ext file = extension)) then None
  else
    let name := take (length file - length extension) file in
    match hex_DecodeString name with
    | Ok k => Some (NewKey k)
    | _ => None
    end.

Section Store.
Context `{!TempNames, !OsRename, !GoRange bytes} (fs : Datastore).

Definition io_bind {A B : Type} (m : io A) (f : A -> io B) : io B := fun s =>
  match m s with (inl e, s) => (inl e, s) | (inr a, s) => f a s end.
Definition io_ok : io unit := fun s => (inr tt, s).
Notation "'do' x <- m ; k" := (io_bind m (fun x => k)) (at level 10, x name, m at level 100, k at level 200).

(** A call whose error is dropped. *)
Definition ignore {A : Type} (m : io A) (s : os) : os := snd (m s).
Definition defer_close {A : Type} (m : io A) : io A := fun s => let '(r, s) := m s in (r, ignore Close s).

Definition syncDir_root : io unit := do _ <- Open_root; defer_close Sync.
Definition syncDir (dir : bytes) : io unit := do _ <- Open dir; defer_close Sync.

Definition makePrefixDir (dir : bytes) : io unit := fun s =>
  match Mkdir dir s with
  | (inl err, s) => if IsExist err then syncDir_root s else (inl err, s)
  | (inr _, s) => syncDir_root s
  end.

(** [Put] between opening the temporary file and the deferred clean-up: the result,
    and the flags [closed] and [removed]. *)
Definition put_body (dir tmp path val : bytes) (s : os) : (errno + unit) * (bool * bool) * os :=
  match Write dir tmp val s with
  | (inl err, s) => (inl err, (false, false), s)
  | (inr _, s) =>
      match Sync s with
      | (inl err, s) => (inl err, (false, false), s)
      | (inr _, s) =>
          match Close s with
          | (inl err, s) => (inl err, (false, false), s)
          | (inr _, s) =>
              match Rename dir tmp path s with
              | (inl err, s) => (inl err, (true, false), s)
              | (inr _, s) => let '(r, s) := syncDir dir s in (r, (true, true), s)
              end
          end
      end
  end.

Definition put_file (dir path val : bytes) : io unit :=
  do _ <- makePrefixDir dir;
  do tmp <- TempFile dir;
  fun s =>
    let '(r, (closed, removed), s) := put_body dir tmp path val s in
    let s := if closed then s else ignore Close s in
    let s := if removed then s else ignore (Remove dir tmp) s in
    (r, s).

(** The result of a call as an [error]. *)
Definition to_res {A : Type} (r : errno + A) : res A :=
  match r with inl err => Err (go_error err) | inr a => Ok a end.

Definition Put (key : Key) (v : value) (s : os) : res unit * os :=
  match v with
  | VBytes val =>
      match encode fs key with
      | Ok (dir, path) => let '(r, s) := put_file dir path val s in (to_res r, s)
      | Err err => (Err err, s)
      | Panic => (Panic, s)
      end
  | _ => (Err DsErrInvalidType, s)
  end.

(** The three calls on the file of a key. *)
Definition on_path {A B : Type} (key : Key) (call : bytes -> bytes -> io A) (k : errno + A -> res B) (s : os)
    : res B * os :=
  match encode fs key with
  | Ok (dir, path) => let '(r, s) := call dir path s in (k r, s)
  | Err err => (Err err, s)
  | Panic => (Panic, s)
  end.
Definition Get (key : Key) : os -> res value * os :=
  on_path key ReadFile (fun r =>
    match r with
    | inl err => if IsNotExist err then Err DsErrNotFound else Err (go_error err)
    | inr data => Ok (VBytes data)
    end).
Definition Has (key : Key) : os -> res bool * os :=
  on_path key Stat (fun r =>
    match r with
    | inr _ => Ok true
    | inl err => if IsNotExist err then Ok false else Err (go_error err)
    end).
Definition Delete (key : Key) : os -> res unit * os :=
  on_path key Remove (fun r =>
    match r with
    | inr _ => Ok tt
    | inl err => if IsNotExist err then Err DsErrNotFound else Err (go_error err)
    end).

Definition hidden (name : bytes) : bool := bool_decide (head name = Some dot).
Fixpoint objs_loop (objs : list (bytes * file)) (res_ : list Entry) : list Entry :=
  match objs with
  | [] => res_
  | (name, f) :: objs =>
      if negb (match f with File _ => true | _ => false end) || hidden name then res_
      else
        match decode name with
        | None => res_
        | Some key => objs_loop objs (res_ ++ [mkEntry (String_ key) VNil])
        end
  end.
Definition enumerateKeys (fi : bytes * node) (res_ : list Entry) : io (list Entry) :=
  if negb (match fi.2 with Dir _ => true | NonDir => false end) || hidden fi.1
  then fun s => (inr res_, s)
  else
    do _ <- Open fi.1;
    defer_close (do objs <- Readdir fi.1; fun s => (inr (objs_loop objs res_), s)).

Fixpoint prefixes_loop (prefixes : list (bytes * node)) (res_ : list Entry) : io (list Entry) :=
  match prefixes with
  | [] => fun s => (inr res_, s)
  | fi :: prefixes => do res_ <- enumerateKeys fi res_; prefixes_loop prefixes res_
  end.

Definition only_lists : error :=
  errors_New "flatfs only supports listing all keys in random order".
Definition Query_ (q : Query) (s : os) : res Results * os :=
  if (negb (bool_decide (q_Prefix q = [])) && negb (bool_decide (q_Prefix q = [slash])))
     || negb (length (q_Filters q) =? 0) || negb (length (q_Orders q) =? 0)
     || (0 <? q_Limit q)%Z || (0 <? q_Offset q)%Z || negb (q_KeysOnly q)
  then (Err only_lists, s)
  else
    let '(r, s) :=
      (do _ <- Open_root;
       defer_close (do prefixes <- Readdir_root; prefixes_loop prefixes [])) s in
    (ResultsWithEntries q <$> to_res r, s).

#[global] Instance flatfs_Datastore : Datastore.Datastore os := {|
  ds_Put := Put; ds_Get := Get; ds_Has := Has; ds_Delete := Delete; ds_Query := Query_ |}.
End Store.

(** ** Names *)

Definition dir_of (fs : Datastore) (b : bytes) : bytes :=
  take (hexPrefixLen fs) (hex_EncodeToString b ++ padding).
Definition path_of (b : bytes) : bytes := hex_EncodeToString b ++ extension.

Lemma encode_spec fs k b : key_string k = slash :: b -> encode fs k = Ok (dir_of fs b, path_of b).
Proof. intros Hk. unfold encode, Bytes. by rewrite Hk. Qed.

Lemma clean_slash k : clean k -> exists b, key_string k = slash :: b.
Proof. rewrite clean_key_of. intros (es & _ & ->). by eexists. Qed.

Lemma ext_loop_app l acc x :
  dot ∉ l -> slash ∉ l -> ext_loop (l ++ dot :: x) acc = dot :: rev l ++ acc.
Proof.
  revert acc. induction l as [|c l IH]; intros acc Hd Hs; [done|].
  apply not_elem_of_cons in Hd as [Hd Hd'], Hs as [Hs Hs'].
  cbn [app ext_loop]. rewrite !decide_False by congruence. rewrite IH by done.
  cbn [rev]. by rewrite <- app_assoc.
Qed.

Lemma path_Ext_extension s : path_Ext (s ++ extension) = extension.
Proof.
  unfold path_Ext. rewrite rev_app_distr.
  change (rev extension) with (rev (tail extension) ++ [dot]). rewrite <- app_assoc.
  apply (ext_loop_app (rev (tail extension)) [] (rev s)); decide_compute.
Qed.

Lemma decode_path b : decode (path_of b) = Some (NewKey b).
Proof.
  unfold decode, path_of. rewrite path_Ext_extension, bool_decide_eq_true_2 by done. cbn [negb].
  rewrite length_app, Nat.add_sub, take_app_length. by rewrite hex_DecodeString_EncodeToString.
Qed.

Lemma NewKey_slash b : clean (mkKey (slash :: b)) -> NewKey b = mkKey (slash :: b).
Proof.
  intros Hk. transitivity (NewKey (slash :: b)); [|exact Hk]. by rewrite !NewKey_resolve.
Qed.

(** Round trip: the file name of a key decodes to that key; different keys have
    different files; and the directory is named by exactly the number of
    hexadecimal digits the store was made with. *)
Theorem encode_decode n fs k k' d p d' p' :
  New n = Ok fs -> clean k -> clean k' ->
  encode fs k = Ok (d, p) -> encode fs k' = Ok (d', p') ->
  decode p = Some k /\ (p = p' <-> k = k') /\ (k = k' -> d = d')
  /\ Z.of_nat (length d) = (2 * n)%Z.
Proof.
  unfold New. destruct (Z.leb_spec n 0), (Z.ltb_spec (Z.of_nat maxPrefixLen) n); simpl; try done.
  intros Hn. injection Hn as <-. intros Hk Hk' He He'.
  destruct (clean_slash k Hk) as [b Hb], (clean_slash k' Hk') as [b' Hb'].
  rewrite (encode_spec _ _ _ Hb) in He. rewrite (encode_spec _ _ _ Hb') in He'.
  injection He as <- <-. injection He' as <- <-. destruct k as [s], k' as [s']. cbn [key_string] in *. subst s s'.
  split_and!.
  - by rewrite decode_path, NewKey_slash.
  - unfold path_of. split; [|congruence]. intros Hp. apply app_inv_tail in Hp.
    by apply (inj hex_EncodeToString) in Hp as ->.
  - congruence.
  - unfold dir_of, padding. rewrite length_take, length_app, length_replicate. simpl hexPrefixLen.
    unfold maxPrefixLen in *. lia.
Qed.

Lemma encode_decode_witness :
  let fs := mkDatastore 4 in
  decode (str "6162.data") = Some (NewKey (str "/ab")).
Proof.
  intros fs.
  apply (encode_decode 2 fs (NewKey (str "/ab")) (NewKey (str "/ab"))
    (str "6162") (str "6162.data") (str "6162") (str "6162.data")); vm_compute; reflexivity.
Defined.

(** ** What the files hold *)

Definition all_files (files : gmap bytes file) : Prop :=
  forall name f, files !! name = Some f -> exists d, f = File d.

(** The tree holds directories only, the directories regular files only. *)
Definition plain (t : tree) : Prop :=
  forall dir n, t !! dir = Some n -> exists files, n = Dir files /\ all_files files.

(** The value of a key. *)
Definition view (fs : Datastore) (t : tree) (k : Key) : option value :=
  match encode fs k with
  | Ok (dir, path) =>
      match stat dir path t with inr (File d) => Some (VBytes d) | _ => None end
  | _ => None
  end.

Lemma stat_alter_dir f dir dir' name t :
  (forall files, dir = dir' -> f files !! name = files !! name) ->
  stat dir name (alter_dir f dir' t) = stat dir name t.
Proof.
  intros Hf. unfold stat, alter_dir. destruct (decide (dir = dir')) as [<-|Hd].
  - rewrite lookup_alter_eq. destruct (t !! dir) as [[files|]|]; simpl; [|done..]. by rewrite Hf.
  - by rewrite lookup_alter_ne.
Qed.

Lemma all_files_insert name d files : all_files files -> all_files (<[name := File d]> files).
Proof.
  intros Hf name' f Hl. apply lookup_insert_Some in Hl as [[_ <-]|[_ Hl]]; [by eexists|by eapply Hf].
Qed.

Lemma all_files_delete name files : all_files files -> all_files (delete name files).
Proof. intros Hf name' f Hl. apply lookup_delete_Some in Hl as [_ Hl]. by eapply Hf. Qed.

Lemma plain_alter_dir f dir t :
  (forall files, all_files files -> all_files (f files)) -> plain t -> plain (alter_dir f dir t).
Proof.
  intros Hf Ht dir' n Hn. unfold alter_dir in Hn. apply lookup_alter_Some in Hn as [(<- & n' & Hn & ->)|[_ Hn]].
  - destruct (Ht _ _ Hn) as (files & -> & Ha). eexists. split; [done|by apply Hf].
  - by eapply Ht.
Qed.

Lemma plain_insert_dir dir files t : all_files files -> plain t -> plain (<[dir := Dir files]> t).
Proof.
  intros Hf Ht dir' n Hn. apply lookup_insert_Some in Hn as [[_ <-]|[_ Hn]]; [by eexists|by eapply Ht].
Qed.

(** A path that no key has. *)
Definition no_path (name : bytes) : Prop := forall b, path_of b <> name.

Lemma temp_no_path `{!TempNames} files : no_path (temp_name files).
Proof.
  intros b Hb. destruct (temp_name_prefix files) as (d & Hd & _). rewrite Hd in Hb. unfold path_of in Hb.
  pose proof (hex_EncodeToString_digits b) as Hh. destruct (hex_EncodeToString b) as [|c h]; [done|].
  inversion Hh as [|? ? Hc _]; subst. injection Hb as -> _.
  revert Hc. unfold hex_digit. decide_compute.
Qed.

(** Changes of names that are no path of a key are not seen. *)
Lemma view_stat fs t t' :
  (forall dir b, stat dir (path_of b) t' = stat dir (path_of b) t) -> same_view (view fs) t t'.
Proof.
  intros Hs k Hk. destruct (clean_slash k Hk) as [b Hb].
  unfold view. rewrite (encode_spec _ _ _ Hb). by rewrite Hs.
Qed.

(** ** Calls *)

Lemma syscall_trace {A : Type} (damage : nat -> tree -> tree) (act : tree -> (errno + A) * tree) (s : os) :
  trace (syscall damage act s).2 = trace s ++ [files_of (syscall damage act s).2].
Proof.
  unfold syscall. destruct (faults s) as [|[[msg n]|] fl]; simpl; [by destruct (act _)|done|by destruct (act _)].
Qed.

(** A call either fails, with the damage that allows, or does what it is for. *)
Lemma syscall_cases {A : Type} (damage : nat -> tree -> tree) (act : tree -> (errno + A) * tree) (s : os) :
  (exists msg n, (syscall damage act s).1 = inl (EOther msg)
     /\ files_of (syscall damage act s).2 = damage n (files_of s))
  \/ (syscall damage act s).1 = (act (files_of s)).1
     /\ files_of (syscall damage act s).2 = (act (files_of s)).2.
Proof.
  unfold syscall. destruct (faults s) as [|[[msg n]|] fl]; simpl.
  - right. by destruct (act _).
  - left. by exists msg, n.
  - right. by destruct (act _).
Qed.

Lemma syscall_ok {A : Type} (damage : nat -> tree -> tree) (act : tree -> (errno + A) * tree) (s : os) :
  faults s = [] ->
  syscall damage act s
  = ((act (files_of s)).1, mkOS (act (files_of s)).2 [] (trace s ++ [(act (files_of s)).2])).
Proof. intros Hf. unfold syscall. rewrite Hf. simpl. by destruct (act _). Qed.

(** From [s] to [s'] the machine has gone through trees of the set [P] only. *)
Definition grows (P : tree -> Prop) (s s' : os) : Prop :=
  exists us, trace s' = trace s ++ us /\ Forall P us /\ P (files_of s').

Lemma grows_refl P s : P (files_of s) -> grows P s s.
Proof. intros HP. exists []. by rewrite app_nil_r. Qed.

Lemma grows_trans P s1 s2 s3 : grows P s1 s2 -> grows P s2 s3 -> grows P s1 s3.
Proof.
  intros (us & Ht & Hus & _) (us' & Ht' & Hus' & HP). exists (us ++ us').
  rewrite Ht', Ht, app_assoc. split_and!; [done|by apply Forall_app|done].
Qed.

Lemma grows_syscall {A : Type} (P : tree -> Prop) (damage : nat -> tree -> tree)
    (act : tree -> (errno + A) * tree) (s : os) :
  (forall n, P (damage n (files_of s))) -> P (act (files_of s)).2 -> grows P s (syscall damage act s).2.
Proof.
  intros Hd Ha. exists [files_of (syscall damage act s).2]. rewrite syscall_trace.
  assert (P (files_of (syscall damage act s).2))
    by (destruct (syscall_cases damage act s) as [(msg & n & _ & ->)|[_ ->]]; auto).
  split_and!; [done|by constructor|done].
Qed.

(** Sets of trees told apart only by what the keys' files hold. *)
Class Seen (P : tree -> Prop) := {
  seen_plain t : P t -> plain t;
  seen_closed t t' : P t -> plain t' ->
    (forall dir b, stat dir (path_of b) t' = stat dir (path_of b) t) -> P t';
}.

Section Seen.
Context `{!TempNames} (P : tree -> Prop) `{!Seen P}.

Lemma seen_alter_dir f dir t :
  P t -> (forall files, all_files files -> all_files (f files)) ->
  (forall files b, f files !! path_of b = files !! path_of b) -> P (alter_dir f dir t).
Proof.
  intros HP Ha Hf. apply (seen_closed t); [done|apply plain_alter_dir; [done|by apply seen_plain]|].
  intros dir' b. apply stat_alter_dir. intros files _. apply Hf.
Qed.

(** A call that changes nothing. *)
Lemma grows_quiet {A : Type} (r : tree -> errno + A) s :
  P (files_of s) -> grows P s (syscall undamaged (fun t => (r t, t)) s).2.
Proof. intros HP. by apply grows_syscall. Qed.

Lemma grows_Mkdir dir s : P (files_of s) -> grows P s (Mkdir dir s).2.
Proof.
  intros HP. apply grows_syscall; [done|]. destruct (files_of s !! dir) eqn:Hd; [done|]. simpl.
  apply (seen_closed (files_of s)); [done|apply plain_insert_dir; [by intros ??|by apply seen_plain]|].
  intros dir' b. unfold stat. destruct (decide (dir = dir')) as [<-|].
  - by rewrite lookup_insert_eq, Hd, lookup_empty.
  - by rewrite lookup_insert_ne.
Qed.

Lemma grows_TempFile dir s : P (files_of s) -> grows P s (TempFile dir s).2.
Proof.
  intros HP. apply grows_syscall; [done|]. destruct (files_of s !! dir) as [[files|]|]; simpl; [|done..].
  apply seen_alter_dir; [done|intros; by apply all_files_insert|].
  intros files' b. apply lookup_insert_ne. apply not_eq_sym, temp_no_path.
Qed.

Lemma grows_Write dir name val s :
  no_path name -> P (files_of s) -> grows P s (Write dir name val s).2.
Proof.
  intros Hn HP. assert (Hw : forall b, P (alter_dir (alter (fun f =>
    match f with File d => File (d ++ b) | _ => f end) name) dir (files_of s))).
  { intros b. apply seen_alter_dir; [done| |].
    - intros files Hf name' f Hl. apply lookup_alter_Some in Hl as [(<- & f' & Hl & ->)|[_ Hl]]; [|by eapply Hf].
      destruct (Hf _ _ Hl) as [d ->]. by eexists.
    - intros files b'. apply lookup_alter_ne. apply not_eq_sym, Hn. }
  apply grows_syscall; [intros n|]; apply Hw.
Qed.

Lemma grows_Remove dir name s :
  no_path name -> P (files_of s) -> grows P s (Remove dir name s).2.
Proof.
  intros Hn HP. apply grows_syscall; [done|].
  assert (P (alter_dir (delete name) dir (files_of s))).
  { apply seen_alter_dir; [done|intros; by apply all_files_delete|].
    intros files b. apply lookup_delete_ne. apply not_eq_sym, Hn. }
  by destruct (stat dir name (files_of s)) as [e|[d|[|]]].
Qed.

Lemma grows_ignore_Close s : P (files_of s) -> grows P s (ignore Close s).
Proof. apply grows_quiet. Qed.

Lemma grows_sync_close (m : io unit) s :
  (forall s, P (files_of s) -> grows P s (m s).2) -> P (files_of s) ->
  grows P s (io_bind m (fun _ => defer_close Sync) s).2.
Proof.
  intros Hm HP. unfold io_bind. pose proof (Hm s HP) as H1. destruct (m s) as [[e|u] s1]; [done|].
  eapply grows_trans; [exact H1|]. destruct H1 as (_ & _ & _ & H1). unfold defer_close.
  pose proof (grows_quiet (fun _ => inr tt) s1 H1 : grows P s1 (Sync s1).2) as H2.
  destruct (Sync s1) as [r s2]. eapply grows_trans; [exact H2|]. apply grows_ignore_Close.
  by destruct H2 as (_ & _ & _ & H2).
Qed.

Lemma grows_syncDir dir s : P (files_of s) -> grows P s (syncDir dir s).2.
Proof. apply grows_sync_close. intros s'. apply grows_quiet. Qed.

Lemma grows_makePrefixDir dir s : P (files_of s) -> grows P s (makePrefixDir dir s).2.
Proof.
  intros HP. unfold makePrefixDir. pose proof (grows_Mkdir dir s HP) as H1.
  assert (H2 : forall s', grows P s s' -> grows P s (syncDir_root s').2).
  { intros s' Hs. eapply grows_trans; [exact Hs|]. apply grows_sync_close; [intros s1; apply grows_quiet|].
    by destruct Hs as (_ & _ & _ & Hs). }
  destruct (Mkdir dir s) as [[e|u] s1]; [destruct (IsExist e); [|done]|]; by apply H2.
Qed.
End Seen.

(** ** Put, whatever fails *)

(** The two cases of a call whose result [H] gives. *)
Ltac call_cases H HC :=
  match type of H with
  | syscall ?d ?a ?s = _ =>
      pose proof (syscall_cases d a s) as HC; rewrite H in HC; cbn [fst snd] in HC
  end.

Lemma TempFile_made `{!TempNames} dir s tmp s' :
  TempFile dir s = (inr tmp, s') ->
  no_path tmp /\ stat dir tmp (files_of s') = inr (File []).
Proof.
  intros HT. unfold TempFile in HT. call_cases HT HC. destruct HC as [(msg & n & Hr & _)|[Hr Hf]]; [done|].
  destruct (files_of s !! dir) as [[files|]|] eqn:Hd; simpl in *; try done. injection Hr as ->.
  split; [apply temp_no_path|]. rewrite Hf. unfold stat, alter_dir.
  by rewrite lookup_alter_eq, Hd; simpl; rewrite lookup_insert_eq.
Qed.

Lemma Write_wrote dir tmp val s s' :
  stat dir tmp (files_of s) = inr (File []) -> Write dir tmp val s = (inr tt, s') ->
  stat dir tmp (files_of s') = inr (File val).
Proof.
  intros Hs HW. unfold Write in HW. call_cases HW HC. destruct HC as [(msg & n & Hr & _)|[_ Hf]]; [done|].
  rewrite Hf. unfold stat, alter_dir in *.
  rewrite lookup_alter_eq. destruct (files_of s !! dir) as [[files|]|]; simpl in *; try done.
  rewrite lookup_alter_eq. destruct (files !! tmp) as [[d|]|]; try discriminate Hs. by injection Hs as ->.
Qed.

(** [Sync] and [Close] leave the files as they are. *)
Lemma quiet_files {A : Type} (r : tree -> errno + A) s :
  files_of (syscall undamaged (fun t => (r t, t)) s).2 = files_of s.
Proof. by destruct (syscall_cases undamaged (fun t => (r t, t)) s) as [(msg & n & _ & ->)|[_ ->]]. Qed.

Section Put.
Context `{!TempNames, !OsRename} (P Q : tree -> Prop) `{!Seen P, !Seen Q}.
Context (dir path tmp val : bytes).
Hypothesis moved : forall t, P t -> stat dir tmp t = inr (File val) -> Q (Rename_act dir tmp path t).

(** From [s] to [s'] through trees of [P], then of [Q]; [b] tells whether any of [Q]. *)
Definition turns (b : bool) (s s' : os) : Prop :=
  if b then exists s1 s2, grows P s s1 /\ trace s2 = trace s1 ++ [files_of s2] /\ Q (files_of s2) /\ grows Q s2 s'
  else grows P s s'.

Lemma Rename_turns s r s' :
  P (files_of s) -> stat dir tmp (files_of s) = inr (File val) ->
  Rename dir tmp path s = (r, s') ->
  match r with
  | inl _ => grows P s s'
  | inr _ => trace s' = trace s ++ [files_of s'] /\ Q (files_of s')
  end.
Proof.
  intros HP Hs HR. unfold Rename in HR. call_cases HR HC. rewrite Hs in HC.
  assert (Ht : trace s' = trace s ++ [files_of s']) by (change s' with ((r, s').2); rewrite <- HR; apply syscall_trace).
  assert (Hold : files_of s' = files_of s -> grows P s s').
  { intros He. exists [files_of s']. rewrite He in *. split_and!; [done|by constructor|done]. }
  destruct HC as [(msg & n & -> & Hf)|[Hr' Hf]]; [by apply Hold|].
  destruct (stat dir path (files_of s)) as [e|[d|b]]; simpl in *; subst r; try (by apply Hold);
    (split; [done|]); rewrite Hf; by apply moved.
Qed.

Lemma put_body_turns s r c b s' :
  no_path tmp -> P (files_of s) -> stat dir tmp (files_of s) = inr (File []) ->
  put_body dir tmp path val s = (r, (c, b), s') ->
  turns b s s' /\ (b = true -> c = true) /\ (r = inr tt -> b = true).
Proof.
  intros Hn HP Hs Hb. unfold put_body in Hb.
  pose proof (grows_Write P dir tmp val s Hn HP) as G1. pose proof (Write_wrote dir tmp val s) as W.
  destruct (Write dir tmp val s) as [[e|[]] s1]; [injection Hb as <- <- <- <-; done|].
  specialize (W s1 Hs eq_refl). destruct G1 as (us1 & G1 & G1' & P1).
  pose proof (grows_quiet P (fun _ => inr tt) s1 P1 : grows P s1 (Sync s1).2) as G2.
  pose proof (quiet_files (fun _ => @inr errno _ tt) s1 : files_of (Sync s1).2 = _) as F2.
  assert (grows P s s1) as G01 by by exists us1.
  destruct (Sync s1) as [[e|[]] s2]; cbn [snd] in *;
    [injection Hb as <- <- <- <-; split; [by eapply grows_trans|done]|].
  assert (grows P s s2) as G02 by by eapply grows_trans. destruct G2 as (_ & _ & _ & P2).
  pose proof (grows_quiet P (fun _ => inr tt) s2 P2 : grows P s2 (Close s2).2) as G3.
  pose proof (quiet_files (fun _ => @inr errno _ tt) s2 : files_of (Close s2).2 = _) as F3.
  destruct (Close s2) as [[e|[]] s3]; cbn [snd] in *;
    [injection Hb as <- <- <- <-; split; [by eapply grows_trans|done]|].
  assert (grows P s s3) as G03 by by eapply grows_trans. destruct G3 as (_ & _ & _ & P3).
  pose proof (Rename_turns s3) as R. destruct (Rename dir tmp path s3) as [[e|[]] s4];
    specialize (R _ _ P3 ltac:(by rewrite F3, F2) eq_refl); cbn in R.
  - injection Hb as <- <- <- <-. split; [by eapply grows_trans|done].
  - destruct R as [R RQ]. pose proof (grows_syncDir Q dir s4 RQ) as G5.
    destruct (syncDir dir s4) as [r5 s5]. injection Hb as <- <- <- <-.
    split; [|done]. by exists s3, s4.
Qed.

Lemma turns_grows b s s1 s2 : turns b s s1 -> (if b then grows Q s1 s2 else grows P s1 s2) -> turns b s s2.
Proof.
  destruct b; [|by apply grows_trans]. intros (a & c & ? & ? & ? & Hc) Hg. exists a, c.
  split_and!; try done. by eapply grows_trans.
Qed.

Lemma turns_end b s s' : turns b s s' -> if b then Q (files_of s') else P (files_of s').
Proof. destruct b; [intros (? & ? & ? & ? & ? & (? & ? & ? & HQ)); done|by intros (? & ? & ? & HP)]. Qed.
End Put.

(** The trees that show the same values as [t0], and those that show a new value
    for one key. *)
Definition shows_old (fs : Datastore) (t0 t : tree) : Prop := plain t /\ same_view (view fs) t0 t.
Definition shows_new (fs : Datastore) (k : Key) (v : option value) (t0 t : tree) : Prop :=
  plain t /\ put_view (view fs) k v t0 t.

#[global] Instance shows_old_Seen fs t0 : Seen (shows_old fs t0).
Proof.
  split; [by intros t []|]. intros t t' [_ Hv] Hp Hs. split; [done|].
  intros k Hk. rewrite (view_stat fs t t') by done. by apply Hv.
Qed.

#[global] Instance shows_new_Seen fs k v t0 : Seen (shows_new fs k v t0).
Proof.
  split; [by intros t []|]. intros t t' [_ Hv] Hp Hs. split; [done|].
  intros k' Hk. rewrite (view_stat fs t t') by done. by apply Hv.
Qed.

(** A file put in the place of a key's file. *)
Lemma put_file_view fs t t0 k b files val :
  clean k -> key_string k = slash :: b -> shows_old fs t0 t -> t !! dir_of fs b = Some (Dir files) ->
  forall files', (forall b', b' <> b -> files' !! path_of b' = files !! path_of b') -> all_files files' ->
  files' !! path_of b = Some (File val) ->
  shows_new fs k (Some (VBytes val)) t0 (<[dir_of fs b := Dir files']> t).
Proof.
  intros Hk Hb [Hp Hv] Hd files' Hne Ha Hb'. split; [by apply plain_insert_dir|].
  intros k' Hk'. destruct (clean_slash k' Hk') as [b' Hk'']. rewrite <- Hv by done.
  unfold view. rewrite !(encode_spec _ _ _ Hk''). destruct (decide (k' = k)) as [->|Hne'].
  - assert (b' = b) as -> by congruence. unfold stat. by rewrite lookup_insert_eq, Hb'.
  - assert (Hbb : b' <> b) by (destruct k, k'; cbn in *; congruence). unfold stat.
    destruct (decide (dir_of fs b' = dir_of fs b)) as [He|He].
    + rewrite He, lookup_insert_eq, Hd. by rewrite Hne.
    + by rewrite lookup_insert_ne.
Qed.

Lemma path_of_inj b b' : path_of b = path_of b' -> b = b'.
Proof. unfold path_of. intros Hp. apply app_inv_tail in Hp. by apply (inj hex_EncodeToString). Qed.

Section PutAtomic.
Context `{!TempNames, !OsRename} (fs : Datastore) (k : Key) (b val : bytes).
Hypotheses (Hk : clean k) (Hb : key_string k = slash :: b).

Lemma renamed_shows_new t0 t tmp :
  no_path tmp -> shows_old fs t0 t -> stat (dir_of fs b) tmp t = inr (File val) ->
  shows_new fs k (Some (VBytes val)) t0 (Rename_act (dir_of fs b) tmp (path_of b) t).
Proof.
  intros Hn Ht Hs. unfold stat in Hs. destruct (t !! dir_of fs b) as [[files|]|] eqn:Hd; try done.
  destruct (files !! tmp) as [f|] eqn:Hf; [|done]. injection Hs as ->.
  destruct (proj1 Ht _ _ Hd) as (files0 & E & Ha). injection E as <-.
  rewrite (Rename_moves _ _ _ _ files val) by (done || (intros c Hc; by destruct (Ha _ _ Hc))).
  apply (put_file_view fs t t0 k b files); try done.
  - intros b' Hne. rewrite lookup_insert_ne by (intros E; by apply Hne, path_of_inj).
    apply lookup_delete_ne. apply not_eq_sym, Hn.
  - by apply all_files_insert, all_files_delete.
  - by rewrite lookup_insert_eq.
Qed.

Lemma put_file_turns t0 s :
  shows_old fs t0 (files_of s) ->
  exists c, turns (shows_old fs t0) (shows_new fs k (Some (VBytes val)) t0) c s
      (put_file (dir_of fs b) (path_of b) val s).2
    /\ ((put_file (dir_of fs b) (path_of b) val s).1 = inr tt -> c = true).
Proof.
  intros HP. unfold put_file, io_bind.
  pose proof (grows_makePrefixDir _ (dir_of fs b) s HP) as G1.
  destruct (makePrefixDir (dir_of fs b) s) as [[e|[]] s1]; [by exists false|].
  assert (P1 : shows_old fs t0 (files_of s1)) by by destruct G1 as (_ & _ & _ & ?).
  pose proof (grows_TempFile _ (dir_of fs b) s1 P1) as G2. pose proof (TempFile_made (dir_of fs b) s1) as M.
  destruct (TempFile (dir_of fs b) s1) as [[e|tmp] s2];
    [exists false; split; [exact (grows_trans _ _ _ _ G1 G2)|done]|].
  destruct (M _ _ eq_refl) as [Hn Hs]. pose proof (grows_trans _ _ _ _ G1 G2) as G12.
  assert (P2 : shows_old fs t0 (files_of s2)) by by destruct G2 as (_ & _ & _ & ?).
  destruct (put_body _ tmp _ val s2) as [[r [c rm]] s3] eqn:Hbody.
  destruct (put_body_turns _ _ _ _ _ _ (fun t HP HS => renamed_shows_new t0 t tmp Hn HP HS)
    s2 r c rm s3 Hn P2 Hs Hbody) as (T & Hc & Hr).
  exists rm. split; [|done]. destruct rm.
  - rewrite (Hc eq_refl). destruct T as (a & d & ? & ? & ? & ?). exists a, d. split_and!; try done.
    by eapply grows_trans.
  - cbn [turns] in T |- *. eapply grows_trans; [exact G12|]. eapply grows_trans; [exact T|].
    assert (P3 : shows_old fs t0 (files_of s3)) by by destruct T as (_ & _ & _ & ?).
    assert (G4 : grows (shows_old fs t0) s3 (if c then s3 else ignore Close s3))
      by (destruct c; [by apply grows_refl|by apply grows_ignore_Close]).
    eapply grows_trans; [exact G4|]. apply grows_Remove; [apply _|done|].
    by destruct G4 as (_ & _ & _ & ?).
Qed.
End PutAtomic.


(** ** When nothing fails *)

(** Evaluates the next call of a machine on which nothing fails. *)
Ltac run_call := rewrite syscall_ok by done; cbn [fst snd files_of faults trace].

Lemma alter_dir_insert f dir t files :
  t !! dir = Some (Dir files) -> alter_dir f dir t = <[dir := Dir (f files)]> t.
Proof.
  intros Hd. unfold alter_dir. apply map_eq. intros d. destruct (decide (dir = d)) as [<-|].
  - by rewrite lookup_alter_eq, lookup_insert_eq, Hd.
  - by rewrite lookup_alter_ne, lookup_insert_ne by done.
Qed.

Section Faultless.
Context `{!TempNames, !OsRename}.

Definition made_dir (dir : bytes) (t : tree) : tree :=
  match t !! dir with Some _ => t | None => <[dir := Dir ∅]> t end.
Definition dir_files (dir : bytes) (t : tree) : gmap bytes file :=
  match t !! dir with Some (Dir files) => files | _ => ∅ end.

Lemma makePrefixDir_ok dir t tr :
  exists tr', makePrefixDir dir (mkOS t [] tr) = (inr tt, mkOS (made_dir dir t) [] tr').
Proof.
  unfold makePrefixDir, made_dir, Mkdir, syncDir_root, io_bind, defer_close, Open_root, Sync, ignore, Close.
  run_call. destruct (t !! dir) eqn:Hd; cbn [fst snd IsExist]; repeat run_call; by eexists.
Qed.

Lemma syncDir_ok dir t tr :
  is_Some (t !! dir) -> exists tr', syncDir dir (mkOS t [] tr) = (inr tt, mkOS t [] tr').
Proof.
  intros [n Hn]. unfold syncDir, io_bind, defer_close, Open, Sync, ignore, Close.
  run_call. rewrite Hn. repeat run_call. by eexists.
Qed.

Lemma put_file_ok dir path val t tr :
  plain t -> temp_name (dir_files dir t) <> path ->
  exists tr', put_file dir path val (mkOS t [] tr)
    = (inr tt, mkOS (<[dir := Dir (<[path := File val]> (dir_files dir t))]> t) [] tr').
Proof.
  intros Hp Hne. unfold put_file, io_bind.
  destruct (makePrefixDir_ok dir t tr) as [tr1 ->].
  assert (Ht1 : made_dir dir t !! dir = Some (Dir (dir_files dir t))).
  { unfold made_dir, dir_files. destruct (t !! dir) as [n|] eqn:Hd; [|apply lookup_insert_eq].
    destruct (Hp _ _ Hd) as (files & -> & _). done. }
  assert (Hins : forall f, <[dir := Dir f]> (made_dir dir t) = <[dir := Dir f]> t).
  { intros f. unfold made_dir. destruct (t !! dir); [done|]. apply insert_insert_eq. }
  assert (Hfiles : all_files (dir_files dir t)).
  { unfold dir_files. destruct (t !! dir) as [n|] eqn:Hd; [|by intros ??].
    destruct (Hp _ _ Hd) as (files & -> & Ha). done. }
  pose proof (temp_name_fresh (dir_files dir t)) as Hfresh.
  revert Hins Hfiles Hne Hfresh Ht1. generalize (made_dir dir t) (dir_files dir t). intros t1 files Hins Hfiles Hne Hfresh Ht1.
  set (tmp := temp_name files) in *.
  unfold TempFile at 1. run_call. rewrite Ht1. cbn [fst snd].
  fold tmp. rewrite (alter_dir_insert _ _ _ _ Ht1).
  unfold put_body, Write. run_call. rewrite (alter_dir_insert _ _ _ (<[tmp := File []]> files)) by apply lookup_insert_eq.
  rewrite insert_insert_eq, alter_insert_eq. cbn [app].
  unfold Sync, Close, Rename. do 3 run_call. unfold stat. rewrite !lookup_insert_eq, !lookup_insert_ne by done.
  rewrite (Rename_moves _ _ _ _ (<[tmp := File val]> files) val);
    [|apply lookup_insert_eq|apply lookup_insert_eq|].
  2: { intros c. rewrite lookup_insert_ne by done. intros Hc. by destruct (Hfiles _ _ Hc). }
  rewrite insert_insert_eq, delete_insert_id by done. rewrite Hins.
  assert (Hpath : match files !! path with
    | Some (Subdir _) => False | _ => True end).
  { destruct (files !! path) as [[d|c]|] eqn:Hc; try done. by destruct (Hfiles _ _ Hc). }
  destruct (files !! path) as [[d|c]|]; try done; cbn [fst snd];
    (match goal with |- context [syncDir ?d (mkOS ?t [] ?tr)] =>
       destruct (syncDir_ok d t tr) as [tr' ->]; [rewrite lookup_insert_eq; by eexists|by eexists] end).
Qed.
End Faultless.

(** The tree of a store that only ever succeeded: every file is some key's. *)
Definition tidy (fs : Datastore) (t : tree) : Prop :=
  plain t /\ forall dir files name f, t !! dir = Some (Dir files) -> files !! name = Some f ->
    exists b, clean (mkKey (slash :: b)) /\ dir = dir_of fs b /\ name = path_of b.

Lemma tidy_insert fs t b files :
  tidy fs t -> all_files files ->
  (forall name f, files !! name = Some f ->
    (exists files', t !! dir_of fs b = Some (Dir files') /\ files' !! name = Some f)
    \/ name = path_of b /\ clean (mkKey (slash :: b))) ->
  tidy fs (<[dir_of fs b := Dir files]> t).
Proof.
  intros [Hp Ht] Ha Hf. split; [by apply plain_insert_dir|]. intros dir files' name f Hd Hn.
  apply lookup_insert_Some in Hd as [[<- E]|[_ Hd]]; [|by eapply Ht]. injection E as <-.
  destruct (Hf _ _ Hn) as [(files' & Hd & Hn')|[-> Hc]]; [by eapply Ht|]. by exists b.
Qed.

Section Ok.
Context `{!TempNames, !OsRename} (fs : Datastore).

(** The files of a directory of such a tree. *)
Lemma dir_files_all t dir : plain t -> all_files (dir_files dir t).
Proof.
  intros Hp. unfold dir_files. destruct (t !! dir) as [n|] eqn:Hd; [|by intros ??].
  destruct (Hp _ _ Hd) as (files & -> & Ha). done.
Qed.

(** Some files of the directory of a key are changed, no other key's. *)
Lemma dir_view t k b files v :
  plain t -> clean k -> key_string k = slash :: b -> all_files files ->
  (forall b', b' <> b -> files !! path_of b' = dir_files (dir_of fs b) t !! path_of b') ->
  v = (match files !! path_of b with Some (File d) => Some (VBytes d) | _ => None end) ->
  plain (<[dir_of fs b := Dir files]> t) /\ put_view (view fs) k v t (<[dir_of fs b := Dir files]> t).
Proof.
  intros Hp Hk Hb Ha Hne ->. split; [by apply plain_insert_dir|]. intros k' Hk'.
  destruct (clean_slash k' Hk') as [b' Hb']. unfold view. rewrite !(encode_spec _ _ _ Hb'). unfold stat.
  case_decide as He.
  - subst k'. assert (b' = b) as -> by congruence. rewrite lookup_insert_eq. by destruct (files !! path_of b) as [[]|].
  - assert (Hbb : b' <> b) by (destruct k, k'; cbn in *; congruence).
    destruct (decide (dir_of fs b' = dir_of fs b)) as [Hd|Hd]; [|by rewrite lookup_insert_ne].
    rewrite Hd, lookup_insert_eq, Hne by done. unfold dir_files.
    destruct (t !! dir_of fs b) as [n|] eqn:Hn; [|by rewrite lookup_empty].
    by destruct (Hp _ _ Hn) as (files' & -> & _).
Qed.

Lemma Put_ok s k val :
  faults s = [] -> plain (files_of s) -> clean k ->
  exists s', Put fs k (VBytes val) s = (Ok tt, s') /\ faults s' = [] /\ plain (files_of s')
    /\ (tidy fs (files_of s) -> tidy fs (files_of s'))
    /\ put_view (view fs) k (Some (VBytes val)) (files_of s) (files_of s').
Proof.
  intros Hf Hp Hk. destruct (clean_slash k Hk) as [b Hb]. unfold Put. rewrite (encode_spec _ _ _ Hb).
  destruct s as [t fl tr]. cbn [faults files_of] in *. subst fl.
  destruct (put_file_ok (dir_of fs b) (path_of b) val t tr) as [tr' ->];
    [done|apply not_eq_sym, temp_no_path|].
  eexists. split; [done|]. split; [done|]. cbn [files_of].
  assert (Ha : all_files (<[path_of b := File val]> (dir_files (dir_of fs b) t)))
    by by apply all_files_insert, dir_files_all.
  destruct (dir_view t k b _ (Some (VBytes val)) Hp Hk Hb Ha) as [Hp' Hv].
  { intros b' Hne. apply lookup_insert_ne. intros E. by apply Hne, eq_sym, path_of_inj. }
  { by rewrite lookup_insert_eq. }
  split_and!; [done| |done]. intros Ht. apply tidy_insert; [done..|].
  intros name f Hn. apply lookup_insert_Some in Hn as [[<- _]|[_ Hn]].
  - right. split; [done|]. destruct k as [s]. cbn in Hb. by subst s.
  - left. unfold dir_files in Hn. destruct (t !! dir_of fs b) as [[files|]|]; try (by rewrite lookup_empty in Hn).
    by exists files.
Qed.

(** What the path of a key leads to. *)
Lemma stat_key t k b :
  plain t -> clean k -> key_string k = slash :: b ->
  (exists d, stat (dir_of fs b) (path_of b) t = inr (File d) /\ view fs t k = Some (VBytes d))
  \/ stat (dir_of fs b) (path_of b) t = inl ENOENT /\ view fs t k = None.
Proof.
  intros Hp Hk Hb. unfold view. rewrite (encode_spec _ _ _ Hb). unfold stat.
  destruct (t !! dir_of fs b) as [n|] eqn:Hn; [|by right]. destruct (Hp _ _ Hn) as (files & -> & Ha).
  destruct (files !! path_of b) as [f|] eqn:Hf; [|by right]. destruct (Ha _ _ Hf) as [d ->]. left. by exists d.
Qed.

Lemma Get_ok s k :
  faults s = [] -> plain (files_of s) -> clean k ->
  exists s', Get fs k s = (found (view fs (files_of s) k), s') /\ faults s' = [] /\ files_of s' = files_of s.
Proof.
  intros Hf Ht Hk. destruct (clean_slash k Hk) as [b Hb]. unfold Get, on_path, ReadFile. rewrite (encode_spec _ _ _ Hb).
  run_call. eexists. destruct (stat_key _ _ _ Ht Hk Hb) as [(d & -> & ->)|[-> ->]]; by split_and!.
Qed.

Lemma Has_ok s k :
  faults s = [] -> plain (files_of s) -> clean k ->
  exists s', Has fs k s = (Ok (present (view fs (files_of s) k)), s') /\ faults s' = [] /\ files_of s' = files_of s.
Proof.
  intros Hf Ht Hk. destruct (clean_slash k Hk) as [b Hb]. unfold Has, on_path, Stat. rewrite (encode_spec _ _ _ Hb).
  run_call. eexists. destruct (stat_key _ _ _ Ht Hk Hb) as [(d & -> & ->)|[-> ->]]; by split_and!.
Qed.

(** Removing the file of a key. *)
Lemma remove_view t k b d :
  plain t -> clean k -> key_string k = slash :: b -> stat (dir_of fs b) (path_of b) t = inr (File d) ->
  let t' := alter_dir (delete (path_of b)) (dir_of fs b) t in
  plain t' /\ (tidy fs t -> tidy fs t') /\ put_view (view fs) k None t t'.
Proof.
  intros Hp Hk Hb Hs t'. unfold stat in Hs. destruct (t !! dir_of fs b) as [[files|]|] eqn:Hd; try done.
  destruct (Hp _ _ Hd) as (files0 & E & Ha). injection E as <-. subst t'. rewrite (alter_dir_insert _ _ _ _ Hd).
  pose proof (all_files_delete (path_of b) _ Ha) as Ha'.
  destruct (dir_view t k b (delete (path_of b) files) None Hp Hk Hb Ha') as [Hp' Hv].
  { intros b' Hne. unfold dir_files. rewrite Hd. apply lookup_delete_ne. intros E. by apply Hne, eq_sym, path_of_inj. }
  { by rewrite lookup_delete_eq. }
  split_and!; [done| |done]. intros Ht. apply tidy_insert; [done..|].
  intros name f Hn. apply lookup_delete_Some in Hn as [_ Hn]. left. by exists files.
Qed.

Lemma Delete_ok s k :
  faults s = [] -> plain (files_of s) -> clean k ->
  exists s', Delete fs k s = (deleted (view fs (files_of s) k), s') /\ faults s' = [] /\ plain (files_of s')
    /\ (tidy fs (files_of s) -> tidy fs (files_of s'))
    /\ put_view (view fs) k None (files_of s) (files_of s').
Proof.
  intros Hf Hp Hk. destruct (clean_slash k Hk) as [b Hb]. unfold Delete, on_path, Remove. rewrite (encode_spec _ _ _ Hb).
  run_call. destruct (stat_key _ _ _ Hp Hk Hb) as [(d & Hs & Hv)|[Hs Hv]]; rewrite Hs, Hv; cbn [fst snd].
  - destruct (remove_view _ _ _ _ Hp Hk Hb Hs) as (? & ? & ?). eexists. by split_and!.
  - eexists. split_and!; [done..|]. intros k' Hk'. cbn [files_of]. case_decide as He; [by subst k'|done].
Qed.
End Ok.

(** While no call fails, a flat file store is a correct store of byte slices. *)
Program Definition flatfs_ByteStoreSpec `{!TempNames, !OsRename, !GoRange bytes} (fs : Datastore) :
    @ByteStoreSpec os (flatfs_Datastore fs) := {|
  bt_wf s := faults s = [] /\ plain (files_of s); bt_view s := view fs (files_of s) |}.
Next Obligation.
  intros ??? fs s k v _ _ Hv. unfold view in Hv. destruct (encode fs k) as [[dir path]| |]; try done.
  destruct (stat dir path (files_of s)) as [|[d|]]; try done. injection Hv as <-. by eexists.
Qed.
Next Obligation.
  intros ??? fs s k b [Hf Ht] Hk. destruct (Put_ok fs s k b Hf Ht Hk) as (s' & Hr & Hf' & Hp' & _ & Hp). by exists s'.
Qed.
Next Obligation.
  intros ??? fs s k [Hf Ht] Hk. destruct (Get_ok fs s k Hf Ht Hk) as (s' & Hr & Hf' & He).
  exists s'. rewrite He. split_and!; [done..|]. intros k' _. cbn beta. by rewrite He.
Qed.
Next Obligation.
  intros ??? fs s k [Hf Ht] Hk. destruct (Has_ok fs s k Hf Ht Hk) as (s' & Hr & Hf' & He).
  exists s'. rewrite He. split_and!; [done..|]. intros k' _. cbn beta. by rewrite He.
Qed.
Next Obligation.
  intros ??? fs s k [Hf Ht] Hk. destruct (Delete_ok fs s k Hf Ht Hk) as (s' & Hr & Hf' & Hp' & _ & Hp). by exists s'.
Qed.

(** ** A flat file store is a map *)

(** The machine and a map hold the same values. *)
Definition holds `{!GoRange Key} (fs : Datastore) (s : os) (m : MapDatastore.MapDatastore) : Prop :=
  faults s = [] /\ tidy fs (files_of s) /\ ds_wf m
  /\ forall k, clean k -> view fs (files_of s) k = ds_view m k.

Definition byte_put (o : op) : Prop :=
  clean (op_key o) /\ match o with OPut _ v => exists b, v = VBytes b | _ => True end.

Section Refines.
Context `{!TempNames, !OsRename, !GoRange bytes, !GoRange Key} (fs : Datastore).
#[local] Instance store : Datastore.Datastore os := flatfs_Datastore fs.

Lemma run_op_holds o s m :
  byte_put o -> holds fs s m ->
  (run_op o s).1 = (run_op o m).1 /\ holds fs (run_op o s).2 (run_op o m).2.
Proof.
  intros [Hk Ho] (Hf & Ht & Hwf & Hv). destruct (run_op_spec o m Hwf Hk) as (m' & -> & Hwf' & Hm').
  destruct o as [k v|k|k|k]; cbn [op_key] in Hk; simpl; unfold out.
  - destruct Ho as [b ->]. destruct (Put_ok fs s k b Hf (proj1 Ht) Hk) as (s' & -> & Hf' & _ & Ht' & Hp). simpl.
    split; [done|]. specialize (Ht' Ht). split_and!; try done. intros k' Hk'. by rewrite Hp, Hm', Hv.
  - destruct (Get_ok fs s k Hf (proj1 Ht) Hk) as (s' & -> & Hf' & He). simpl. rewrite Hv by done.
    split; [done|]. unfold holds. rewrite He. split_and!; try done. intros k' Hk'. by rewrite Hm', Hv.
  - destruct (Has_ok fs s k Hf (proj1 Ht) Hk) as (s' & -> & Hf' & He). simpl. rewrite Hv by done.
    split; [done|]. unfold holds. rewrite He. split_and!; try done. intros k' Hk'. by rewrite Hm', Hv.
  - destruct (Delete_ok fs s k Hf (proj1 Ht) Hk) as (s' & -> & Hf' & _ & Ht' & Hp). simpl. rewrite Hv by done.
    split; [done|]. specialize (Ht' Ht). split_and!; try done. intros k' Hk'. by rewrite Hp, Hm', Hv.
Qed.

Lemma run_ops_holds l s m :
  Forall byte_put l -> holds fs s m ->
  (run_ops l s).1 = (run_ops l m).1 /\ holds fs (run_ops l s).2 (run_ops l m).2.
Proof.
  apply run_ops_simulation. apply run_op_holds.
Qed.
End Refines.

(** C14. Refinement: over an empty directory, and while no call to the operating
    system fails, a flat file store cannot be told from an in-memory map by any
    sequence of Put (of byte slices), Get, Has and Delete calls; and every file it
    leaves behind is the file of a key of the map. *)
Theorem flatfs_refines_map `{!TempNames, !OsRename, !GoRange bytes, !GoRange Key} fs l tr :
  Forall byte_put l ->
  let s := mkOS ∅ [] tr in
  (@run_ops _ (flatfs_Datastore fs) l s).1 = (run_ops l MapDatastore.NewMapDatastore).1
  /\ holds fs (@run_ops _ (flatfs_Datastore fs) l s).2 (run_ops l MapDatastore.NewMapDatastore).2.
Proof.
  intros Hl s. apply run_ops_holds; [done|]. unfold s, holds. cbn [files_of faults]. split_and!.
  - done.
  - split; [intros dir n Hn; by rewrite lookup_empty in Hn|intros dir files name f Hn; by rewrite lookup_empty in Hn].
  - apply MapDatastore.New_wf.
  - intros k Hk. destruct (clean_slash k Hk) as [b Hb]. unfold view. rewrite (encode_spec _ _ _ Hb).
    unfold stat. simpl. by rewrite lookup_empty.
Qed.

(** A file system to evaluate examples with. *)
Definition zeros_name (fs : gmap bytes file) : bytes :=
  putPrefix ++ replicate (S (max_list (map length (elements (dom fs))))) "0"%byte.
Definition zeros : TempNames.
Proof.
  refine {| temp_name := zeros_name |}; intros fs.
  - eexists. split; [done|]. rewrite elem_of_replicate. by intros [??].
  - destruct (fs !! zeros_name fs) as [f|] eqn:Hf; [|done]. exfalso.
    assert (Hin : zeros_name fs ∈ elements (dom fs)) by (apply elem_of_elements, elem_of_dom; by eexists).
    assert (Hle : forall ws w, w ∈ ws -> length w <= max_list (map (@length byte) ws)).
    { intros ws w. induction ws as [|x ws IH]; [by intros ?%elem_of_nil|].
      intros [->|Hw]%elem_of_cons; simpl; [lia|]. specialize (IH Hw). lia. }
    specialize (Hle _ _ Hin). unfold zeros_name at 1 in Hle. rewrite length_app, length_replicate in Hle. lia.
Defined.
Definition rename_act (dir old new : bytes) (t : tree) : tree :=
  match stat dir old t with
  | inr f => alter_dir (fun fs => <[new := f]> (delete old fs)) dir t
  | inl _ => t
  end.
Definition unix_rename : OsRename.
Proof.
  refine {| Rename_act := rename_act |}. intros dir old new t fs d Hd Hf _.
  unfold rename_act, stat. rewrite Hd, Hf.
  by apply (alter_dir_insert (fun fs => <[new := File d]> (delete old fs))).
Defined.

Definition example_fs : Datastore := mkDatastore 4.
Definition key_a : Key := NewKey (str "/a").

Lemma flatfs_refines_map_witness :
  let R := elements_range bytes in
  let RK := elements_range Key in
  let l := [OPut key_a (VBytes [x01]); OGet key_a; ODelete key_a; OGet key_a] in
  (@run_ops _ (@flatfs_Datastore zeros unix_rename R example_fs) l (mkOS ∅ [] [])).1
  = (run_ops l MapDatastore.NewMapDatastore).1.
Proof.
  intros R RK l. apply (@flatfs_refines_map zeros unix_rename R RK example_fs l []).
  repeat constructor; try apply NewKey_clean. by exists [x01].
Defined.

(** The sync of the directory fails after the rename: Put reports the error, and
    the value is stored. *)
Definition sync_fails : os :=
  mkOS ∅ [None; None; None; None; None; None; None; None; None; Some ("I/O error"%string, 0)] [].
Example Put_sync_fails :
  let r := @Put zeros unix_rename example_fs key_a (VBytes [x01]) sync_fails in
  r.1 = Err (errors_New "I/O error") /\ view example_fs (files_of r.2) key_a = Some (VBytes [x01]).
Proof. vm_compute. split; reflexivity. Qed.


(** ** Query *)

Definition key_entry (k : Key) : Entry := mkEntry (String_ k) VNil.

(** What a directory contributes to the listing. *)
Definition listed (objs : list (bytes * file)) : list Entry :=
  omap (fun o => if hidden o.1 then None else key_entry <$> decode o.1) objs.
Definition listing `{!GoRange bytes} (fi : bytes * node) : list Entry :=
  match fi.2 with Dir files => listed (go_range_map files) | NonDir => [] end.

(** The files of a directory of a tidy tree. *)
Definition tidy_obj (fs : Datastore) (dir : bytes) (o : bytes * file) : Prop :=
  (exists d, o.2 = File d)
  /\ exists b, clean (mkKey (slash :: b)) /\ dir = dir_of fs b /\ o.1 = path_of b.

Lemma hidden_path b : hidden (path_of b) = true <-> b = [].
Proof.
  unfold hidden, path_of. destruct b as [|c b]; [done|]. split; [|done].
  intros Hh%bool_decide_eq_true. exfalso. unfold hex_EncodeToString in Hh. cbn [map concat app head] in Hh.
  injection Hh as Hh. pose proof (hex_EncodeToString_digits (c :: b)) as Hd. unfold hex_EncodeToString in Hd.
  cbn [map concat app] in Hd. inversion Hd as [|? ? Hc _]; subst. rewrite Hh in Hc. revert Hc. unfold hex_digit.
  decide_compute.
Qed.

(** Only the directory of the root key holds a hidden file, and no other. *)
Lemma tidy_hidden fs dir objs :
  0 < hexPrefixLen fs -> Forall (tidy_obj fs dir) objs ->
  Forall (fun o => hidden o.1 = true) objs \/ Forall (fun o => hidden o.1 = false) objs.
Proof.
  intros Hpos Ho. destruct (decide (dir = dir_of fs [])) as [Hd|Hd]; [left|right];
    (eapply Forall_impl; [exact Ho|]); intros [name f] [_ (b & _ & Hb & ->)]; simpl in *.
  - apply hidden_path. destruct b as [|c b]; [done|]. exfalso. rewrite Hd in Hb. unfold dir_of in Hb.
    destruct (hexPrefixLen fs) as [|m]; [lia|]. unfold hex_EncodeToString in Hb at 2. cbn [map concat app take] in Hb.
    unfold padding in Hb. cbn [maxPrefixLen Nat.mul Nat.add replicate hex_EncodeToString map concat app take] in Hb.
    injection Hb as Hb _. pose proof (hex_EncodeToString_digits (c :: b)) as Hx. unfold hex_EncodeToString in Hx.
    cbn [map concat app] in Hx. inversion Hx as [|? ? Hc _]; subst. rewrite <- Hb in Hc. revert Hc. unfold hex_digit.
    decide_compute.
  - destruct (hidden (path_of b)) eqn:Hh; [|done]. apply hidden_path in Hh as ->. done.
Qed.

Lemma objs_loop_listed fs dir objs res_ :
  0 < hexPrefixLen fs -> Forall (tidy_obj fs dir) objs -> objs_loop objs res_ = res_ ++ listed objs.
Proof.
  intros Hpos Ho. destruct (tidy_hidden fs dir objs Hpos Ho) as [Hh|Hh]; revert res_.
  - intros res_. assert (listed objs = []) as ->.
    { unfold listed. clear Ho. induction Hh as [|o objs Hh _ IH]; [done|]. simpl. by rewrite Hh. }
    rewrite app_nil_r. destruct Hh as [|[name f] objs Hh _]; [done|]. simpl in *. by rewrite Hh, orb_true_r.
  - induction Ho as [|[name f] objs [[d Hf] (b & Hc & _ & Hb)] Ho IH]; intros res_; [by rewrite app_nil_r|].
    inversion Hh as [|? ? Hh1 Hh2]; subst. simpl in *. subst f name. unfold listed. cbn [objs_loop omap list_omap fst].
    rewrite Hh1, decode_path. cbn [negb orb fmap option_fmap option_map]. rewrite IH by done. by rewrite <- app_assoc.
Qed.

Section Listing.
Context `{!GoRange bytes} (fs : Datastore) (t : tree).
Hypotheses (Hpos : 0 < hexPrefixLen fs) (Ht : tidy fs t).

Lemma tidy_objs dir files : t !! dir = Some (Dir files) -> Forall (tidy_obj fs dir) (go_range_map files).
Proof.
  intros Hd. apply Forall_forall. intros [name f] Hn%elem_of_go_range_map. destruct Ht as [Hp Hk]. split.
  - destruct (Hp _ _ Hd) as (files' & E & Ha). injection E as <-. by eapply Ha.
  - exact (Hk _ _ _ _ Hd Hn).
Qed.

Lemma enumerateKeys_ok fi res_ tr :
  fi ∈ go_range_map t ->
  exists tr', enumerateKeys fi res_ (mkOS t [] tr) = (inr (res_ ++ listing fi), mkOS t [] tr').
Proof.
  destruct fi as [dir n]. intros Hd%elem_of_go_range_map. destruct (proj1 Ht _ _ Hd) as (files & -> & _).
  unfold enumerateKeys, listing. cbn [fst snd negb orb]. destruct (hidden dir) eqn:Hh.
  - assert (listed (go_range_map files) = []) as ->; [|rewrite app_nil_r; by eexists].
    pose proof (tidy_objs dir files Hd) as Ho. destruct Ho as [|o objs [_ (b & _ & -> & _)] _]; [done|].
    exfalso. unfold hidden in Hh. apply bool_decide_eq_true in Hh. unfold dir_of in Hh.
    destruct (hexPrefixLen fs) as [|m]; [lia|]. pose proof (hex_EncodeToString_digits b) as Hx.
    destruct (hex_EncodeToString b) as [|c h]; [by injection Hh|]. injection Hh as ->. inversion Hx as [|? ? Hc _].
    revert Hc. unfold hex_digit. decide_compute.
  - unfold io_bind, defer_close, Open, Readdir, ignore, Close. run_call. rewrite Hd. run_call. rewrite Hd.
    run_call. eexists. by rewrite (objs_loop_listed fs dir) by (done || by apply tidy_objs).
Qed.

Lemma prefixes_loop_ok prefixes res_ tr :
  (forall fi, fi ∈ prefixes -> fi ∈ go_range_map t) ->
  exists tr', prefixes_loop prefixes res_ (mkOS t [] tr) = (inr (res_ ++ (prefixes ≫= listing)), mkOS t [] tr').
Proof.
  revert res_ tr. induction prefixes as [|fi prefixes IH]; intros res_ tr Hp.
  - eexists. simpl. by rewrite app_nil_r.
  - cbn [prefixes_loop]. unfold io_bind. destruct (enumerateKeys_ok fi res_ tr (Hp _ ltac:(by left))) as [tr' ->].
    destruct (IH (res_ ++ listing fi) tr') as [tr'' ->]; [intros fi' Hf; apply Hp; by right|].
    eexists. simpl. by rewrite <- app_assoc.
Qed.
End Listing.

Lemma elem_of_listing `{!GoRange bytes} fs t fi e :
  tidy fs t -> fi ∈ go_range_map t ->
  e ∈ listing fi <-> exists b files f, b <> [] /\ clean (mkKey (slash :: b)) /\ e = key_entry (mkKey (slash :: b))
    /\ fi = (dir_of fs b, Dir files) /\ files !! path_of b = Some f.
Proof.
  intros Ht Hfi. destruct fi as [dir n]. apply elem_of_go_range_map in Hfi as Hd.
  destruct (proj1 Ht _ _ Hd) as (files & -> & _). unfold listing, listed. cbn [snd]. rewrite list_elem_of_omap. split.
  - intros ([name f] & Ho & He). cbn [fst] in He. apply elem_of_go_range_map in Ho as Hn.
    destruct (proj2 Ht _ _ _ _ Hd Hn) as (b & Hc & -> & ->). destruct (hidden (path_of b)) eqn:Hh; [done|].
    rewrite decode_path, NewKey_slash in He by done. injection He as <-. exists b, files, f.
    split_and!; try done. intros ->. by rewrite (proj2 (hidden_path [])) in Hh.
  - intros (b & files' & f & Hne & Hc & -> & E & Hf). injection E as -> <-.
    exists (path_of b, f). split; [by apply elem_of_go_range_map|]. cbn [fst].
    destruct (hidden (path_of b)) eqn:Hh; [by apply hidden_path in Hh|]. by rewrite decode_path, NewKey_slash.
Qed.

Lemma NoDup_listing `{!GoRange bytes} fs t fi : tidy fs t -> fi ∈ go_range_map t -> NoDup (listing fi).
Proof.
  intros Ht Hfi. destruct fi as [dir n]. apply elem_of_go_range_map in Hfi as Hd.
  destruct (proj1 Ht _ _ Hd) as (files & -> & _). unfold listing, listed. cbn [snd].
  pose proof (NoDup_go_range_map_keys files) as Hnd.
  assert (Hin : forall o, o ∈ go_range_map files -> exists b, clean (mkKey (slash :: b)) /\ o.1 = path_of b).
  { intros [name f] Ho%elem_of_go_range_map. destruct (proj2 Ht _ _ _ _ Hd Ho) as (b & Hc & _ & Hb). by exists b. }
  induction (go_range_map files) as [|o objs IH]; [constructor|]. inversion Hnd as [|? ? Ho Hnd']; subst.
  specialize (IH Hnd' (fun o Ho => Hin o (list_elem_of_further _ _ _ Ho))). cbn [omap list_omap].
  destruct (Hin o ltac:(by left)) as (b & Hc & Hb). rewrite Hb. destruct (hidden (path_of b)); [done|].
  rewrite decode_path, NewKey_slash by done. constructor; [|done]. rewrite list_elem_of_omap.
  intros (o' & Ho' & He). destruct (Hin o' ltac:(by right)) as (b' & Hc' & Hb'). rewrite Hb' in He.
  destruct (hidden (path_of b')); [done|]. rewrite decode_path, NewKey_slash in He by done. injection He as ->.
  apply Ho. rewrite Hb, <- Hb'. by apply list_elem_of_fmap_2.
Qed.

(** While nothing fails and every file is a key's, the query that lists all keys
    returns each key that has a value once, and no other, except for the root key,
    whose file is named like a hidden file. *)
Theorem flatfs_Query_lists `{!TempNames, !OsRename, !GoRange bytes} n fs s prefix :
  New n = Ok fs -> faults s = [] -> tidy fs (files_of s) -> prefix = [] \/ prefix = [slash] ->
  exists es s', Query_ (prefix_query prefix true) s = (Ok (map entry_result es), s')
    /\ files_of s' = files_of s /\ faults s' = []
    /\ NoDup (map e_Key es)
    /\ (forall e, e ∈ es -> exists k, clean k /\ e = key_entry k)
    /\ forall k, clean k ->
        (key_entry k ∈ es <-> key_string k <> [slash] /\ is_Some (view fs (files_of s) k)).
Proof.
  intros Hn Hf Ht Hpre. assert (Hpos : 0 < hexPrefixLen fs).
  { unfold New in Hn. destruct (Z.leb_spec n 0), (Z.ltb_spec (Z.of_nat maxPrefixLen) n); simpl in Hn; try done.
    injection Hn as <-. simpl. lia. }
  destruct s as [t fl tr]. cbn [faults files_of] in *. subst fl.
  set (es := go_range_map t ≫= listing).
  assert (Hes : forall e, e ∈ es <-> exists b files f, b <> [] /\ clean (mkKey (slash :: b))
    /\ e = key_entry (mkKey (slash :: b)) /\ t !! dir_of fs b = Some (Dir files) /\ files !! path_of b = Some f).
  { intros e. unfold es. rewrite list_elem_of_bind. split.
    - intros (fi & He & Hfi). apply (elem_of_listing fs t) in He as (b & files & f & ? & ? & ? & -> & ?); [|done..].
      apply elem_of_go_range_map in Hfi. by exists b, files, f.
    - intros (b & files & f & ? & ? & -> & Hd & ?). exists (dir_of fs b, Dir files).
      assert ((dir_of fs b, Dir files) ∈ go_range_map t) by by apply elem_of_go_range_map.
      split; [|done]. apply (elem_of_listing fs t); [done..|]. by exists b, files, f. }
  assert (Hq : exists s', Query_ (prefix_query prefix true) (mkOS t [] tr) = (Ok (map entry_result es), s')
    /\ files_of s' = t /\ faults s' = []).
  { unfold Query_. set (bad := (_ || _)). assert (bad = false) as -> by by destruct Hpre as [->| ->].
    unfold io_bind, defer_close, Open_root, Readdir_root, ignore, Close. do 2 run_call.
    match goal with |- context [prefixes_loop ?p ?r (mkOS _ _ ?tr)] =>
      destruct (prefixes_loop_ok fs t Hpos Ht p r tr) as [tr' ->]; [done|] end.
    run_call. by eexists. }
  destruct Hq as (s' & Hq & Hs' & Hf'). exists es, s'. split_and!; try done.
  - apply NoDup_fmap_2_strong.
    + intros e e' (b & ? & ? & _ & _ & -> & _)%Hes (b' & ? & ? & _ & _ & -> & _)%Hes He. simpl in He. congruence.
    + apply NoDup_bind.
      * intros fi fi' e Hfi Hfi' He He'.
        apply (elem_of_listing fs t) in He as (b & files & f & _ & _ & -> & -> & _); [|done..].
        apply (elem_of_listing fs t) in He' as (b' & files' & f' & _ & _ & E & -> & _); [|done..].
        injection E as <-. apply elem_of_go_range_map in Hfi, Hfi'. congruence.
      * intros fi. by apply (NoDup_listing fs t).
      * eapply NoDup_fmap_1, NoDup_go_range_map_keys.
  - intros e (b & files & f & _ & Hc & -> & _)%Hes. by eexists.
  - intros k Hk. destruct (clean_slash k Hk) as [b Hb]. rewrite Hes. unfold view.
    rewrite (encode_spec _ _ _ Hb). unfold stat. destruct k as [ks]. cbn [key_string] in Hb. subst ks. split.
    + intros (b' & files & f & Hne & _ & E & Hd & Hp). injection E as <-. split; [cbn; congruence|].
      rewrite Hd, Hp. destruct (proj1 Ht _ _ Hd) as (files0 & E & Ha). injection E as <-.
      destruct (Ha _ _ Hp) as [d ->]. by eexists.
    + intros [Hne [v Hv]]. destruct (t !! dir_of fs b) as [[files|]|] eqn:Hd; try done.
      destruct (files !! path_of b) as [f|] eqn:Hp; [|done]. exists b, files, f.
      split_and!; try done. intros ->. by apply Hne.
Qed.

(** ** A file that is no key's *)

(** The first entry that is not a regular file, is hidden or does not decode ends
    the listing of its directory. *)
Lemma objs_loop_stray objs name f objs' res_ :
  match f with File _ => false | _ => true end || hidden name = true \/ decode name = None ->
  objs_loop (objs ++ (name, f) :: objs') res_ = objs_loop objs res_.
Proof.
  intros Hs. revert res_. induction objs as [|[n g] objs IH]; intros res_; cbn [app objs_loop].
  - destruct f as [d|e]; cbn [negb orb] in *; [|done]. destruct (hidden name); [done|].
    destruct Hs as [|Hs]; [done|]. by rewrite Hs.
  - destruct (negb _ || hidden n); [done|]. destruct (decode n); [apply IH|done].
Qed.

Definition key_a1 : Key := NewKey (str "/a1").
Definition key_ab : Key := NewKey (str "/ab").
Definition short_fs : Datastore := mkDatastore 2.
(** The write of a value fails after one byte, and so does removing the temporary
    file. *)
Definition write_fails : list (option (string * nat)) :=
  [None; None; None; None; None; Some ("no space left on device"%string, 1); None; Some ("I/O error"%string, 0)].
Definition after_write_fails : res unit * os :=
  @Put zeros unix_rename short_fs key_ab (VBytes [x01; x02])
    (mkOS (files_of (@Put zeros unix_rename short_fs key_a1 (VBytes [x05]) (mkOS ∅ [] [])).2) write_fails []).

Definition rev_range : GoRange bytes :=
  {| go_range s := rev (elements s); go_range_perm s := symmetry (Permutation_rev (elements s)) |}.

(** A temporary file that a failed Put could not remove hides keys from Query:
    the store answers that it has the key, the listing of the same store is empty
    or not depending on the order in which the system lists the directory. *)
Theorem flatfs_leftover_hides :
  let s := after_write_fails.2 in
  (@Put zeros unix_rename short_fs key_a1 (VBytes [x05]) (mkOS ∅ [] [])).1 = Ok tt
  /\ after_write_fails.1 = Err (errors_New "no space left on device")
  /\ (Has short_fs key_a1 s).1 = Ok true
  /\ (@Query_ (elements_range bytes) (prefix_query [] true) s).1 = Ok []
  /\ (@Query_ rev_range (prefix_query [] true) s).1 = Ok [entry_result (key_entry key_a1)].
Proof. vm_compute. split_and!; reflexivity. Qed.

(** What an operation answers when the system call on the key's file fails is
    the error of that call, never that the key is missing, and nothing has changed;
    a value that is no byte slice is refused before the disk is touched, and a key
    without a leading character is a panic. *)
Theorem flatfs_errors `{!TempNames, !OsRename} fs k s msg n fl id :
  clean k -> faults s = Some (msg, n) :: fl ->
  let e := errors_New msg in
  (Get fs k s).1 = Err e /\ (Has fs k s).1 = Err e /\ (Delete fs k s).1 = Err e
  /\ (forall val, (Put fs k (VBytes val) s).1 = Err e)
  /\ files_of (Get fs k s).2 = files_of s /\ files_of (Has fs k s).2 = files_of s
  /\ files_of (Delete fs k s).2 = files_of s
  /\ (forall val, files_of (Put fs k (VBytes val) s).2 = files_of s)
  /\ Put fs k (VOther id) s = (Err DsErrInvalidType, s) /\ Put fs k VNil s = (Err DsErrInvalidType, s)
  /\ (Get fs (mkKey []) s).1 = Panic.
Proof.
  intros Hk Hf e. destruct (clean_slash k Hk) as [b Hb].
  unfold Get, Has, Delete, Put, on_path, put_file, io_bind, makePrefixDir, Mkdir, ReadFile, Stat, Remove.
  rewrite (encode_spec _ _ _ Hb). unfold syscall. rewrite Hf. split_and!; done.
Qed.

Lemma flatfs_errors_witness :
  (Get example_fs key_a (mkOS ∅ [Some ("I/O error"%string, 0)] [])).1 = Err (errors_New "I/O error").
Proof.
  apply (@flatfs_errors zeros unix_rename example_fs key_a (mkOS ∅ [Some ("I/O error"%string, 0)] []) "I/O error" 0 [] 0);
    [apply NewKey_clean|reflexivity].
Defined.

Lemma flatfs_Query_lists_witness :
  let R := elements_range bytes in
  let s := (@Put zeros unix_rename example_fs key_a (VBytes [x01]) (mkOS ∅ [] [])).2 in
  exists es s', Query_ (prefix_query [] true) s = (Ok (map entry_result es), s') /\ key_entry key_a ∈ es.
Proof.
  intros R s. assert (Ht : tidy example_fs (∅ : tree))
    by (split; [intros dir n Hn|intros dir files name f Hn]; by rewrite lookup_empty in Hn).
  destruct (@Put_ok zeros unix_rename example_fs (mkOS ∅ [] []) key_a [x01]) as (s1 & Hs & Hf & _ & Ht' & Hv);
    [reflexivity|apply Ht|apply NewKey_clean|]. specialize (Ht' Ht).
  unfold s. rewrite Hs. cbn [snd].
  destruct (@flatfs_Query_lists zeros unix_rename R 2 example_fs s1 []) as (es & s' & Hq & _ & _ & _ & _ & Hes);
    [reflexivity|exact Hf|exact Ht'|by left|].
  exists es, s'. split; [exact Hq|]. apply Hes; [apply NewKey_clean|].
  split; [vm_compute; discriminate|]. rewrite Hv by apply NewKey_clean. rewrite decide_True by reflexivity. by eexists.
Defined.
