(* ===== verification/Fs.v ===== *)
(** * The file-per-key store

    Models [Godeps/.../jbenet/go-datastore/fs/fs.go] over a model of a file system:
    a tree of directories and files without links, in which every call to the
    operating system may fail, part of its work done. *)

From S2P Require Import Prelude DsKey Query Datastore.

(** ** The file system *)

Inductive node := File (data : bytes) | Dir.

#[export] Instance node_eq_dec : EqDecision node.
Proof. solve_decision. Defined.

(** What there is, by the names from the root of the file system down. *)
Abbreviation tree := (gmap (list bytes) node).

(** [faults] tells which of the calls to come fail, and how much of their work
    they have done by then. *)
Record os := mkOS { files_of : tree; cwd : list bytes; faults : list (option nat) }.

Definition errno : error := errors_New "file system error".
Definition ENOENT : error := errors_New "no such file or directory".
Definition ENOTDIR : error := errors_New "not a directory".
Definition EISDIR : error := errors_New "is a directory".
Definition ENOTEMPTY : error := errors_New "directory not empty".

Definition syscall {A : Type} (damage : nat -> tree -> tree) (act : tree -> (error + A) * tree) (s : os)
    : (error + A) * os :=
  let '(r, t) :=
    match faults s with
    | Some n :: _ => (inl errno, damage n (files_of s))
    | _ => act (files_of s)
    end in
  (r, mkOS t (cwd s) (tail (faults s))).
Definition undamaged (n : nat) (t : tree) : tree := t.

Definition rooted (path : bytes) : bool := bool_decide (head path = Some slash).
(** Where a path that is not empty leads. *)
Definition locate (cwd : list bytes) (path : bytes) : list bytes :=
  clean_elems true (if rooted path then [] else rev cwd) (Split slash path).

Definition node_at (path : bytes) (s : os) (t : tree) : error + node :=
  match path with
  | [] => inl ENOENT
  | _ => match t !! locate (cwd s) path with Some n => inr n | None => inl ENOENT end
  end.
Definition Stat (path : bytes) (s : os) : (error + node) * os :=
  syscall undamaged (fun t => (node_at path s t, t)) s.
Definition Lstat := Stat.

(** [os.MkdirAll]; with a budget, the call makes so many directories and fails. *)
Fixpoint mkdirs (here below : list bytes) (budget : option nat) (t : tree) : (error + unit) * tree :=
  match below with
  | [] => (inr tt, t)
  | e :: below =>
      match t !! (here ++ [e]), budget with
      | Some Dir, _ => mkdirs (here ++ [e]) below budget t
      | Some (File _), _ => (inl ENOTDIR, t)
      | None, Some 0 => (inl errno, t)
      | None, _ => mkdirs (here ++ [e]) below (pred <$> budget) (<[here ++ [e] := Dir]> t)
      end
  end.
Definition MkdirAll (path : bytes) (s : os) : (error + unit) * os :=
  let es := locate (cwd s) path in
  syscall (fun n t => snd (mkdirs [] es (Some n) t)) (mkdirs [] es None) s.

(** Whether a file can be opened for writing, and is created when it is not there. *)
Definition creatable (es : list bytes) (t : tree) : error + unit :=
  match t !! es with
  | Some Dir => inl EISDIR
  | Some (File _) => inr tt
  | None =>
      match t !! removelast es with
      | Some Dir => inr tt
      | Some (File _) => inl ENOTDIR
      | None => inl ENOENT
      end
  end.
(** [ioutil.WriteFile]: opening the file truncates it; a failing call has not opened
    it, or has written some bytes. *)
Definition WriteFile (path data : bytes) (s : os) : (error + unit) * os :=
  let es := locate (cwd s) path in
  syscall
    (fun n t => match creatable es t, n with inr _, S n => <[es := File (take n data)]> t | _, _ => t end)
    (fun t => match creatable es t with inr _ => (inr tt, <[es := File data]> t) | inl e => (inl e, t) end) s.
Definition ReadFile (path : bytes) (s : os) : (error + bytes) * os :=
  syscall undamaged (fun t =>
    (match node_at path s t with inr (File d) => inr d | inr Dir => inl EISDIR | inl e => inl e end, t)) s.

(** The names in a directory, in no particular order. *)
Definition children (es : list bytes) (t : tree) : list bytes :=
  omap (fun q => match last q with
                 | Some e => if decide (q = es ++ [e]) then Some e else None
                 | None => None
                 end) (elements (dom t)).
Definition Remove (path : bytes) (s : os) : (error + unit) * os :=
  let es := locate (cwd s) path in
  syscall undamaged (fun t =>
    match t !! es with
    | None => (inl ENOENT, t)
    | Some Dir => if decide (children es t = []) then (inr tt, delete es t) else (inl ENOTEMPTY, t)
    | Some (File _) => (inr tt, delete es t)
    end) s.
(** [readDirNames] sorts what the system returns. *)
Definition readDirNames (path : bytes) (s : os) : (error + list bytes) * os :=
  syscall undamaged (fun t =>
    (match node_at path s t with
     | inr Dir => inr (sort_Stable str_lt (children (locate (cwd s) path) t))
     | inr (File _) => inl ENOTDIR
     | inl e => inl e
     end, t)) s.

(** [path/filepath]. *)
Definition filepath_Join (elem : list bytes) : bytes :=
  match filter (fun e => e <> []) elem with [] => [] | es => path_Clean (Join es slash) end.
Definition filepath_Dir (path : bytes) : bytes :=
  path_Clean (match removelast (Split slash path) with [] => [] | es => Join es slash ++ [slash] end).

(** ** The store *)

Definition ObjectKeySuffix : bytes := str ".dsobject".

Record Datastore := mkDatastore { path : bytes }.

Definition isDir (path : bytes) (s : os) : bool * os :=
  let '(r, s) := Stat path s in (match r with inr Dir => true | _ => false end, s).
Definition isFile (path : bytes) (s : os) : bool * os :=
  let '(r, s) := Stat path s in (match r with inr (File _) => true | _ => false end, s).

Definition NewDatastore (path : bytes) (s : os) : res Datastore * os :=
  let '(ok, s) := isDir path s in
  (if ok then Ok (mkDatastore path)
   else Err (errors_New "Failed to find directory at: %v (file? perms?)"), s).

Definition to_res {A : Type} (r : error + A) : res A := match r with inl e => Err e | inr a => Ok a end.

Section Store.
Context (d : Datastore).

Definition KeyFilename (key : Key) : bytes := filepath_Join [path d; String_ key; ObjectKeySuffix].

Definition Put (key : Key) (v : value) (s : os) : res unit * os :=
  match v with
  | VBytes val =>
      let fn := KeyFilename key in
      match MkdirAll (filepath_Dir fn) s with
      | (inl err, s) => (Err err, s)
      | (inr _, s) => let '(r, s) := WriteFile fn val s in (to_res r, s)
      end
  | _ => (Err DsErrInvalidType, s)
  end.

Definition Get (key : Key) (s : os) : res value * os :=
  let fn := KeyFilename key in
  let '(ok, s) := isFile fn s in
  if negb ok then (Err DsErrNotFound, s)
  else let '(r, s) := ReadFile fn s in (VBytes <$> to_res r, s).

Definition Has (key : Key) (s : os) : res bool * os := GetBackedHas Get key s.

Definition Delete (key : Key) (s : os) : res unit * os :=
  let fn := KeyFilename key in
  let '(ok, s) := isFile fn s in
  if negb ok then (Err DsErrNotFound, s)
  else let '(r, s) := Remove fn s in (to_res r, s).

(** *** Query *)

(** [const NotFetched int = iota] *)
Definition NotFetched : value := VOther 0.

Definition HasSuffix (s suffix : bytes) : bool :=
  (length suffix <=? length s) && bool_decide (drop (length s - length suffix) s = suffix).

(** [walkFn], when there is a [FileInfo]; it never returns an error. *)
Definition walkFn (p : bytes) (info : node) : list Entry :=
  let p := TrimPrefix p (path d) in
  match info with
  | Dir => []
  | File _ =>
      let p := if HasSuffix p ObjectKeySuffix then take (length p - length ObjectKeySuffix) p else p in
      [mkEntry (String_ (NewKey p)) NotFetched]
  end.

(** [filepath.Walk] below a path whose [FileInfo] is there. Where it is not,
    [walkFn] calls a method of a nil interface. *)
Section Names.
Context (walk : bytes -> node -> os -> res (list Entry) * os) (path : bytes).
Fixpoint walk_names (names : list bytes) (s : os) : res (list Entry) * os :=
  match names with
  | [] => (Ok [], s)
  | name :: names =>
      let filename := filepath_Join [path; name] in
      match Lstat filename s with
      | (inl err, s) => (Panic, s)
      | (inr info, s) =>
          match walk filename info s with
          | (Ok l, s) => let '(r, s) := walk_names names s in (app l <$> r, s)
          | (r, s) => (r, s)
          end
      end
  end.
End Names.
Fixpoint walk (fuel : nat) (path : bytes) (info : node) (s : os) : res (list Entry) * os :=
  match fuel, info with
  | S fuel, Dir =>
      match readDirNames path s with
      | (inl err, s) => (Ok (walkFn path info ++ walkFn path info), s)
      | (inr names, s) => let '(r, s) := walk_names (walk fuel) path names s in (app (walkFn path info) <$> r, s)
      end
  | _, _ => (Ok (walkFn path info), s)
  end.

(** No path is longer. *)
Definition depth (t : tree) : nat := max_list (length <$> elements (dom t)).

(** A panic of the goroutine that walks ends the program. *)
Definition Query_ (q : Query) (s : os) : res Results * os :=
  match Lstat (path d) s with
  | (inl err, s) => (Panic, s)
  | (inr info, s) =>
      let '(r, s) := walk (S (depth (files_of s))) (path d) info s in
      (es ← r; NaiveQueryApply q (map entry_result es), s)
  end.

#[global] Instance fs_Datastore : Datastore.Datastore os := {|
  ds_Put := Put; ds_Get := Get; ds_Has := Has; ds_Delete := Delete; ds_Query := Query_ |}.
End Store.

(** ** Paths *)

Lemma Join_slash a b : b <> [] -> Join (a :: b) slash = a ++ slash :: Join b slash.
Proof. apply Join_cons. Qed.

Lemma filepath_Join_rooted a l :
  Forall (fun e => e <> []) l -> filepath_Join ((slash :: a) :: l)
  = key_string (key_of (resolve (Join ((slash :: a) :: l) slash))).
Proof.
  intros Hl. unfold filepath_Join. rewrite filter_cons_True by done. rewrite filter_all by by apply Forall_forall.
  assert (exists b, Join ((slash :: a) :: l) slash = slash :: b) as [b ->]
    by (destruct l; cbn; by eexists).
  cbn [path_Clean]. by rewrite bool_decide_eq_true_2.
Qed.

Lemma resolve_app_slash a b : resolve (a ++ slash :: b) = clean_elems true (rev (resolve a)) (Split slash b).
Proof. unfold resolve. by rewrite Split_app, clean_elems_app. Qed.

Lemma clean_elems_slash_Join out es :
  Forall good es -> clean_elems true out (Split slash (slash :: Join es slash)) = rev out ++ es.
Proof. intros H. apply (clean_elems_Join out es) in H. by rewrite <- H. Qed.

Lemma locate_key_of cwd es : Forall good es -> locate cwd (key_string (key_of es)) = es.
Proof. intros H. unfold locate. cbn. by apply (clean_elems_slash_Join []). Qed.

Lemma suffix_good : good ObjectKeySuffix.
Proof. decide_compute. Qed.

Lemma KeyFilename_key_of d es :
  rooted (path d) = true -> Forall good es ->
  KeyFilename d (key_of es) = key_string (key_of (resolve (path d) ++ es ++ [ObjectKeySuffix])).
Proof.
  intros Hr Hes. unfold KeyFilename. destruct (path d) as [|c p]; [done|].
  apply bool_decide_eq_true in Hr as [= ->]. rewrite filepath_Join_rooted by (constructor; [done|constructor; done]).
  do 2 f_equal. change (Join [slash :: p; String_ (key_of es); ObjectKeySuffix] slash)
    with ((slash :: p) ++ slash :: (String_ (key_of es) ++ slash :: ObjectKeySuffix)).
  rewrite resolve_app_slash, Split_app, clean_elems_app. unfold String_, key_of. cbn [key_string].
  rewrite clean_elems_slash_Join, rev_involutive by done.
  rewrite Split_nosep by apply suffix_good. rewrite clean_elems_id by (constructor; [apply suffix_good|done]).
  by rewrite rev_involutive, <- app_assoc.
Qed.

Lemma filepath_Dir_key_of es e :
  Forall good (es ++ [e]) -> filepath_Dir (key_string (key_of (es ++ [e]))) = key_string (key_of es).
Proof.
  intros H. pose proof H as [Hes _]%Forall_app. unfold filepath_Dir, key_of. cbn [key_string].
  assert (Split slash (slash :: Join (es ++ [e]) slash) = [] :: es ++ [e]) as ->.
  { change (Split slash (slash :: Join (es ++ [e]) slash)) with ([] :: Split slash (Join (es ++ [e]) slash)).
    rewrite Split_Join; [done|by destruct es|by apply good_noslash]. }
  rewrite app_comm_cons, removelast_last. change (slash :: Join es slash) with (key_string (key_of es)).
  assert (Join ([] :: es) slash ++ [slash] = key_string (key_of es) ++ match es with [] => [] | _ => [slash] end) as ->
    by (destruct es; done).
  unfold key_of. cbn [key_string app path_Clean]. rewrite bool_decide_eq_true_2 by done. f_equal. f_equal.
  destruct es as [|x es]; [done|].
  change (slash :: Join (x :: es) slash ++ [slash]) with (([] ++ slash :: Join (x :: es) slash) ++ slash :: []).
  rewrite Split_app, clean_elems_app. change ([] ++ slash :: Join (x :: es) slash) with (slash :: Join (x :: es) slash).
  rewrite (clean_elems_slash_Join []) by done. change (Split slash []) with [@nil byte].
  cbn [clean_elems]. rewrite decide_True by by left. by rewrite rev_involutive.
Qed.

(** ** Tidy trees *)

(** A file system whose files below the store's directory are those of keys: all
    are named [.dsobject], and no directory is. *)
Record tidy (base : list bytes) (t : tree) : Prop := {
  td_closed p e n : t !! (p ++ [e]) = Some n -> t !! p = Some Dir;
  td_good p n : t !! p = Some n -> Forall good p;
  td_base : t !! base = Some Dir;
  td_below es n : t !! (base ++ es) = Some n ->
    match n with
    | Dir => ObjectKeySuffix ∉ es
    | File _ => exists k, es = k ++ [ObjectKeySuffix] /\ ObjectKeySuffix ∉ k
    end;
}.

Lemma td_up base t p q n : tidy base t -> t !! (p ++ q) = Some n -> q <> [] -> t !! p = Some Dir.
Proof.
  intros Ht. revert n. induction q as [|e q IH] using rev_ind; intros n Hn Hq; [done|].
  rewrite app_assoc in Hn. apply (td_closed _ _ Ht) in Hn. destruct q as [|e' q]; [by rewrite app_nil_r in Hn|].
  by apply (IH Dir).
Qed.

Lemma td_root base t : tidy base t -> t !! [] = Some Dir.
Proof.
  intros Ht. destruct base as [|e base]; [apply (td_base _ _ Ht)|].
  by apply (td_up _ _ [] (e :: base) Dir Ht (td_base _ _ Ht)).
Qed.

Lemma mkdirs_spec here below t :
  (forall q b, q `prefix_of` below -> t !! (here ++ q) <> Some (File b)) ->
  exists t', mkdirs here below None t = (inr tt, t')
    /\ (forall p n, t !! p = Some n -> t' !! p = Some n)
    /\ (forall q, q <> [] -> q `prefix_of` below -> t' !! (here ++ q) = Some Dir)
    /\ (forall p n, t' !! p = Some n ->
          t !! p = Some n \/ n = Dir /\ exists q, q `prefix_of` below /\ p = here ++ q).
Proof.
  revert here t. induction below as [|e below IH]; intros here t Hf; cbn [mkdirs].
  { exists t. split_and!; auto. intros q Hq ->%prefix_nil_inv. done. }
  assert (Hpre : forall q, q `prefix_of` below -> (e :: q) `prefix_of` (e :: below)) by (intros; by apply prefix_cons).
  assert (Hsub : forall t1 : tree, (forall p b, t1 !! p = Some (File b) -> t !! p = Some (File b)) ->
            forall q b, q `prefix_of` below -> t1 !! ((here ++ [e]) ++ q) <> Some (File b)).
  { intros t1 H1 q b Hq Hb%H1. rewrite <- app_assoc in Hb. by eapply Hf; [apply Hpre|exact Hb]. }
  assert (Hgo : forall t1 : tree, t1 !! (here ++ [e]) = Some Dir ->
            (forall p n, t !! p = Some n -> t1 !! p = Some n) ->
            (forall p n, t1 !! p = Some n -> t !! p = Some n \/ n = Dir /\ p = here ++ [e]) ->
            exists t', mkdirs (here ++ [e]) below None t1 = (inr tt, t')
              /\ (forall p n, t !! p = Some n -> t' !! p = Some n)
              /\ (forall q, q <> [] -> q `prefix_of` e :: below -> t' !! (here ++ q) = Some Dir)
              /\ (forall p n, t' !! p = Some n ->
                    t !! p = Some n \/ n = Dir /\ exists q, q `prefix_of` e :: below /\ p = here ++ q)).
  { intros t1 Hd Hk Hb. destruct (IH (here ++ [e]) t1) as (t' & -> & H1 & H2 & H3).
    { apply Hsub. intros p b Hp. by destruct (Hb _ _ Hp) as [?|[? _]]. }
    exists t'. split_and!; [done|by auto|..].
    - intros q Hq Hqp. destruct q as [|e' q]; [done|]. apply prefix_cons_inv_1 in Hqp as Heq. subst e'.
      apply prefix_cons_inv_2 in Hqp. change (here ++ e :: q) with (here ++ [e] ++ q). rewrite app_assoc.
      destruct q as [|e' q]; [rewrite app_nil_r; by apply H1|by apply H2].
    - intros p n Hp. destruct (H3 p n Hp) as [Hp'|(-> & q & Hq & ->)].
      + destruct (Hb _ _ Hp') as [?|[-> ->]]; [by left|]. right. split; [done|]. exists [e].
        split; [by apply prefix_cons, prefix_nil|done].
      + right. split; [done|]. exists (e :: q). split; [by apply Hpre|by rewrite <- app_assoc]. }
  destruct (t !! (here ++ [e])) as [[b|]|] eqn:He.
  - exfalso. apply (Hf [e] b); [by apply prefix_cons, prefix_nil|done].
  - apply Hgo; auto.
  - apply Hgo.
    + by rewrite lookup_insert_eq.
    + intros p n Hp. rewrite lookup_insert_ne; [done|congruence].
    + intros p n Hp. apply lookup_insert_Some in Hp as [[<- <-]|[_ Hp]]; auto.
Qed.

Section Ok.
Context (d : Datastore) (Hd : rooted (path d) = true).
#[local] Abbreviation base := (resolve (path d)).
Definition object (es : list bytes) : list bytes := base ++ es ++ [ObjectKeySuffix].

Lemma object_not_dir (t : tree) (es : list bytes) : tidy base t -> t !! object es <> Some Dir.
Proof.
  intros Ht Hn. apply (td_below _ _ Ht) in Hn. apply Hn, elem_of_app. right. by apply list_elem_of_singleton.
Qed.

Lemma object_inj es1 es2 : object es1 = object es2 -> es1 = es2.
Proof. intros H. apply app_inv_head, app_inj_tail in H. tauto. Qed.

Lemma tidy_mkdirs (es : list bytes) (t : tree) :
  tidy base t -> Forall good es -> ObjectKeySuffix ∉ es ->
  exists t1, mkdirs [] (base ++ es) None t = (inr tt, t1) /\ tidy base t1 /\ t1 !! (base ++ es) = Some Dir
    /\ forall p b, t1 !! p = Some (File b) <-> t !! p = Some (File b).
Proof.
  intros Ht Hg Hs. destruct (mkdirs_spec [] (base ++ es) t) as (t1 & Hm & H1 & H2 & H3).
  { intros q b Hq Hb. simpl in Hb. destruct (prefix_weak_total base q (base ++ es)) as [[r ->]|[r Hr]];
      [by apply prefix_app_r|done|..].
    - apply prefix_app_inv in Hq as [r' ->]. apply (td_below _ _ Ht) in Hb as (k & -> & _).
      apply Hs. rewrite <- app_assoc. apply elem_of_app. right. by left.
    - pose proof (td_base _ _ Ht) as Hdir. rewrite Hr in Hdir. destruct r as [|e r].
      + rewrite app_nil_r in Hdir. congruence.
      + apply (td_up base t q (e :: r) Dir Ht) in Hdir; [congruence|done]. }
  simpl in H2, H3. exists t1.
  assert (Hroot : t1 !! [] = Some Dir) by apply H1, (td_root _ _ Ht).
  assert (Hbase : t1 !! base = Some Dir) by apply H1, (td_base _ _ Ht).
  split_and!; [done| |..].
  - split; [..|done|].
    + intros p e n Hn. destruct (H3 _ _ Hn) as [Hn'|(-> & q & Hq & Hp)].
      * by apply H1, (td_closed _ _ Ht _ e n).
      * destruct p as [|x p]; [done|]. apply H2; [done|]. rewrite <- Hp in Hq.
        eapply prefix_app_l. exact Hq.
    + intros p n Hn. destruct (H3 _ _ Hn) as [Hn'|(-> & q & Hq & ->)]; [by apply (td_good _ _ Ht) in Hn'|].
      simpl. destruct Hq as [r Hr]. apply (Forall_app _ q r). rewrite <- Hr. apply Forall_app.
      split; [apply resolve_good|done].
    + intros es' n Hn. destruct (H3 _ _ Hn) as [Hn'|(-> & q & Hq & Hp)]; [by apply (td_below _ _ Ht)|].
      simpl in Hp. subst q. apply prefix_app_inv in Hq as [r ->]. intros Hin. apply Hs, elem_of_app. by left.
  - destruct (decide (base ++ es = [])) as [->|Hn]; [done|]. by apply H2.
  - intros p b. split; [|by apply H1]. intros Hb. by destruct (H3 _ _ Hb) as [?|[? _]].
Qed.

Lemma fs_tidy_insert (es : list bytes) (b : bytes) (t : tree) :
  tidy base t -> Forall good es -> ObjectKeySuffix ∉ es -> t !! (base ++ es) = Some Dir ->
  tidy base (<[object es := File b]> t).
Proof.
  intros Ht Hg Hs Hdir. pose proof (object_not_dir t es Ht) as Hnd. split.
  - intros p e n Hn. destruct (decide (p = object es)) as [->|Hp].
    { rewrite lookup_insert_ne in Hn; [|intros E; apply (f_equal length) in E; rewrite !length_app in E; simpl in E; lia].
      by apply (td_closed _ _ Ht) in Hn. }
    rewrite lookup_insert_ne by done. apply lookup_insert_Some in Hn as [[E _]|[_ Hn]].
    + unfold object in E. rewrite app_assoc in E. by apply app_inj_tail in E as [<- _].
    + by apply (td_closed _ _ Ht) in Hn.
  - intros p n [[<- _]|[_ Hn]]%lookup_insert_Some; [|by apply (td_good _ _ Ht) in Hn].
    apply Forall_app. split; [apply resolve_good|]. apply Forall_app.
    split; [done|]. constructor; [apply suffix_good|done].
  - rewrite lookup_insert_ne; [apply (td_base _ _ Ht)|]. intros E. apply (f_equal length) in E.
    unfold object in E. rewrite !length_app in E. simpl in E. lia.
  - intros es' n [[E <-]|[_ Hn]]%lookup_insert_Some; [|by apply (td_below _ _ Ht)].
    apply app_inv_head in E as <-. by exists es.
Qed.

Lemma tidy_delete (es : list bytes) (t : tree) : tidy base t -> tidy base (delete (object es) t).
Proof.
  intros Ht. pose proof (object_not_dir t es Ht) as Hnd. split.
  - intros p e n [_ Hn]%lookup_delete_Some. apply (td_closed _ _ Ht) in Hn.
    rewrite lookup_delete_ne; [done|congruence].
  - intros p n [_ Hn]%lookup_delete_Some. by apply (td_good _ _ Ht) in Hn.
  - rewrite lookup_delete_ne; [apply (td_base _ _ Ht)|]. intros E. apply (f_equal length) in E.
    unfold object in E. rewrite !length_app in E. simpl in E. lia.
  - intros es' n [_ Hn]%lookup_delete_Some. by apply (td_below _ _ Ht).
Qed.
End Ok.

(** ** The operations, while no call fails *)

(** The keys that can be stored: no element of theirs is [.dsobject]. *)
Definition object_key (k : Key) : Prop :=
  exists es, Forall good es /\ (ObjectKeySuffix ∉ es) /\ k = key_of es.

Definition view (d : Datastore) (t : tree) (k : Key) : option value :=
  match t !! object d (resolve (key_string k)) with Some (File b) => Some (VBytes b) | _ => None end.

(** No call fails, and the tree is tidy. *)
Definition sound (d : Datastore) (s : os) : Prop := faults s = [] /\ tidy (resolve (path d)) (files_of s).

Section Spec.
Context (d : Datastore) (Hd : rooted (path d) = true).

Lemma fs_syscall_ok {A : Type} (damage : nat -> tree -> tree) (act : tree -> (error + A) * tree) (s : os) :
  faults s = [] -> syscall damage act s = ((act (files_of s)).1, mkOS (act (files_of s)).2 (cwd s) []).
Proof. intros Hf. unfold syscall. rewrite Hf. by destruct (act (files_of s)). Qed.

Lemma object_good (es : list bytes) : Forall good es -> Forall good (object d es).
Proof.
  intros Hg. apply Forall_app. split; [apply resolve_good|]. apply Forall_app.
  split; [done|]. constructor; [apply suffix_good|done].
Qed.

Lemma locate_object cwd (es : list bytes) : Forall good es -> locate cwd (KeyFilename d (key_of es)) = object d es.
Proof. intros Hg. rewrite KeyFilename_key_of by done. by apply locate_key_of, object_good. Qed.

Lemma node_at_object (es : list bytes) (s : os) (t : tree) :
  Forall good es -> node_at (KeyFilename d (key_of es)) s t
  = match t !! object d es with Some n => inr n | None => inl ENOENT end.
Proof.
  intros Hg. pose proof (locate_object (cwd s) es Hg) as Hl.
  rewrite KeyFilename_key_of in * by done. unfold node_at, key_of in *. cbn [key_string] in *. by rewrite Hl.
Qed.

Lemma same_os (s : os) : faults s = [] -> mkOS (files_of s) (cwd s) [] = s.
Proof. intros <-. by destruct s. Qed.

Lemma isFile_ok (es : list bytes) (s : os) :
  faults s = [] -> Forall good es ->
  isFile (KeyFilename d (key_of es)) s
  = (match files_of s !! object d es with Some (File _) => true | _ => false end, s).
Proof.
  intros Hf Hg. unfold isFile, Stat. rewrite fs_syscall_ok by done. cbn [fst snd]. rewrite same_os by done.
  rewrite node_at_object by done. by destruct (files_of s !! object d es) as [[b|]|].
Qed.

Lemma view_key_of (t : tree) (es : list bytes) :
  Forall good es ->
  view d t (key_of es) = match t !! object d es with Some (File b) => Some (VBytes b) | _ => None end.
Proof. intros Hg. unfold view. by rewrite resolve_key_of. Qed.

Lemma fs_Put_ok (k : Key) (b : bytes) (s : os) :
  sound d s -> object_key k -> exists s', Put d k (VBytes b) s = (Ok tt, s') /\ sound d s'
    /\ forall k', object_key k' ->
         view d (files_of s') k' = if decide (k' = k) then Some (VBytes b) else view d (files_of s) k'.
Proof.
  intros [Hf Ht] (es & Hg & Hs & ->). unfold Put.
  destruct (tidy_mkdirs d es (files_of s) Ht Hg Hs) as (t1 & Hm & Ht1 & Hdir & Hsame).
  unfold MkdirAll. rewrite KeyFilename_key_of, app_assoc by done.
  rewrite filepath_Dir_key_of by (rewrite <- app_assoc; by apply object_good).
  rewrite fs_syscall_ok by done. rewrite locate_key_of by (apply Forall_app; split; [apply resolve_good|done]).
  rewrite Hm. cbn [fst snd]. unfold WriteFile. rewrite fs_syscall_ok by done. cbn [files_of cwd].
  rewrite locate_key_of, <- app_assoc by (rewrite <- app_assoc; by apply object_good).
  change (resolve (path d) ++ es ++ [ObjectKeySuffix]) with (object d es).
  assert (creatable (object d es) t1 = inr tt) as ->.
  { unfold creatable, object. rewrite app_assoc, removelast_last, Hdir, <- app_assoc.
    pose proof (object_not_dir d t1 es Ht1) as Hn. unfold object in Hn.
    by destruct (t1 !! (resolve (path d) ++ es ++ [ObjectKeySuffix])) as [[?|]|]. }
  cbn [fst snd to_res]. eexists. split; [done|]. cbn [files_of]. split; [split; [done|by apply fs_tidy_insert]|].
  intros k' (es' & Hg' & Hs' & ->). rewrite !view_key_of by done. case_decide as He.
  - apply key_of_inj in He as ->; [|done..]. by rewrite lookup_insert_eq.
  - rewrite lookup_insert_ne by (intros E%object_inj; congruence). pose proof (Hsame (object d es')) as Hb.
    destruct (t1 !! object d es') as [[b'|]|] eqn:E1.
    + by rewrite (proj1 (Hb b') eq_refl).
    + destruct (files_of s !! object d es') as [[b'|]|]; try done. discriminate (proj2 (Hb b') eq_refl).
    + destruct (files_of s !! object d es') as [[b'|]|]; try done. discriminate (proj2 (Hb b') eq_refl).
Qed.

Lemma fs_Get_ok (k : Key) (s : os) : sound d s -> object_key k -> Get d k s = (found (view d (files_of s) k), s).
Proof.
  intros [Hf Ht] (es & Hg & Hs & ->). unfold Get. rewrite isFile_ok, view_key_of by done.
  destruct (files_of s !! object d es) as [[b|]|] eqn:Hn; try done. cbn [negb].
  unfold ReadFile. rewrite fs_syscall_ok by done. cbn [fst snd]. by rewrite same_os, node_at_object, Hn by done.
Qed.

Lemma fs_Has_ok (k : Key) (s : os) : sound d s -> object_key k -> Has d k s = (Ok (present (view d (files_of s) k)), s).
Proof.
  intros Hs Hk. unfold Has, GetBackedHas. rewrite fs_Get_ok by done. by destruct (view d (files_of s) k).
Qed.

Lemma fs_Delete_ok (k : Key) (s : os) :
  sound d s -> object_key k -> exists s', Delete d k s = (deleted (view d (files_of s) k), s') /\ sound d s'
    /\ forall k', object_key k' ->
         view d (files_of s') k' = if decide (k' = k) then None else view d (files_of s) k'.
Proof.
  intros [Hf Ht] (es & Hg & Hs & ->). unfold Delete. rewrite isFile_ok, view_key_of by done.
  pose proof (object_not_dir d _ es Ht) as Hnd.
  destruct (files_of s !! object d es) as [[b|]|] eqn:Hn; cbn [negb]; [|done|].
  - unfold Remove. rewrite fs_syscall_ok by done. rewrite locate_object, Hn by done. cbn [fst snd to_res].
    eexists. split; [done|]. split; [split; [done|by apply tidy_delete]|]. cbn [files_of].
    intros k' (es' & Hg' & Hs' & ->). rewrite !view_key_of by done. case_decide as He.
    + apply key_of_inj in He as ->; [|done..]. by rewrite lookup_delete_eq.
    + by rewrite lookup_delete_ne by (intros E%object_inj; congruence).
  - exists s. split; [done|]. split; [done|]. intros k' (es' & Hg' & Hs' & ->). case_decide as He; [|done].
    rewrite He, view_key_of by done. by rewrite Hn.
Qed.
End Spec.

(** ** A map *)

(** The machine and a map hold the same values under the keys that can be stored. *)
Definition agrees (d : Datastore) (s : os) (m : MapDatastore.MapDatastore) : Prop :=
  sound d s /\ forall k, object_key k -> view d (files_of s) k = MapDatastore.values m !! k.

Definition object_op (o : op) : Prop :=
  object_key (op_key o) /\ match o with OPut _ v => exists b, v = VBytes b | _ => True end.

Lemma run_op_agrees `{!GoRange Key} (d : Datastore) (o : op) (s : os) (m : MapDatastore.MapDatastore) :
  rooted (path d) = true -> object_op o -> agrees d s m ->
  (@run_op _ (fs_Datastore d) o s).1 = (run_op o m).1
  /\ agrees d (@run_op _ (fs_Datastore d) o s).2 (run_op o m).2.
Proof.
  intros Hd [Hk Ho] [Hs Hv]. destruct o as [k v|k|k|k]; cbn [op_key] in Hk; cbn [run_op ds_Put ds_Get ds_Has ds_Delete fs_Datastore]; unfold out.
  - destruct Ho as [b ->]. destruct (fs_Put_ok d Hd k b s Hs Hk) as (s' & -> & Hs' & Hp). cbn.
    split; [done|]. split; [done|]. intros k' Hk'. rewrite Hp by done. cbn. case_decide as He; [subst|].
    + by rewrite lookup_insert_eq.
    + by rewrite lookup_insert_ne, Hv.
  - rewrite fs_Get_ok, Hv by done. cbn. unfold MapDatastore.Get. by destruct (MapDatastore.values m !! k).
  - rewrite fs_Has_ok, Hv by done. cbn. unfold MapDatastore.Has. by destruct (MapDatastore.values m !! k).
  - destruct (fs_Delete_ok d Hd k s Hs Hk) as (s' & -> & Hs' & Hp). cbn. rewrite Hv by done.
    unfold MapDatastore.Delete. destruct (MapDatastore.values m !! k) as [v|] eqn:Hm; cbn; (split; [done|]);
      (split; [done|]); intros k' Hk'; rewrite Hp by done; cbn; case_decide as He; subst.
    + by rewrite lookup_delete_eq.
    + by rewrite lookup_delete_ne, Hv.
    + done.
    + by apply Hv.
Qed.


(** ** Query *)

Lemma elem_of_children (e : bytes) (p : list bytes) (t : tree) : e ∈ children p t <-> is_Some (t !! (p ++ [e])).
Proof.
  unfold children. rewrite list_elem_of_omap. split.
  - intros (q & Hq & Hl). destruct (last q) as [x|]; [|done]. case_decide as Hp; [|done].
    injection Hl as ->. subst q. by apply elem_of_elements, elem_of_dom in Hq.
  - intros Hs. exists (p ++ [e]). split; [by apply elem_of_elements, elem_of_dom|].
    by rewrite last_snoc, decide_True.
Qed.

Lemma NoDup_children (p : list bytes) (t : tree) : NoDup (children p t).
Proof.
  unfold children. pose proof (NoDup_elements (dom t)) as Hn. induction Hn as [|q l Hq _ IH]; [constructor|].
  rewrite omap_cons. destruct (last q) as [e|] eqn:He; [|done]. case_decide as Hp; [|done].
  constructor; [|done]. rewrite list_elem_of_omap. intros (q' & Hq' & Hl).
  destruct (last q') as [e'|]; [|done]. case_decide as Hp'; [|done]. injection Hl as ->. congruence.
Qed.

(** The files from a path down, in the order of the walk. *)
Fixpoint files_below (fuel : nat) (p : list bytes) (t : tree) : list (list bytes) :=
  match fuel, t !! p with
  | _, Some (File _) => [p]
  | S fuel, Some Dir => sort_Stable str_lt (children p t) ≫= fun e => files_below fuel (p ++ [e]) t
  | _, _ => []
  end.

Lemma elem_of_sorted (l : list bytes) x : x ∈ sort_Stable str_lt l <-> x ∈ l.
Proof. by rewrite (sort_Stable_perm str_lt l : sort_Stable str_lt l ≡ₚ l). Qed.

Lemma files_below_sound (fuel : nat) (p : list bytes) (t : tree) (q : list bytes) :
  q ∈ files_below fuel p t -> exists r b, q = p ++ r /\ t !! q = Some (File b).
Proof.
  revert p. induction fuel as [|fuel IH]; intros p; cbn [files_below]; destruct (t !! p) as [[b|]|] eqn:Hp;
    rewrite ?list_elem_of_singleton; try by intros ?%elem_of_nil.
  - intros ->. exists [], b. by rewrite app_nil_r.
  - intros ->. exists [], b. by rewrite app_nil_r.
  - intros (e & Hq & _)%list_elem_of_bind. destruct (IH _ Hq) as (r & b & -> & Hb).
    exists (e :: r), b. by rewrite <- app_assoc in *.
Qed.

Lemma files_below_complete (base : list bytes) (fuel : nat) (p : list bytes) (t : tree) (r : list bytes) (b : bytes) :
  tidy base t -> t !! (p ++ r) = Some (File b) -> length r <= fuel -> p ++ r ∈ files_below fuel p t.
Proof.
  intros Ht. revert p fuel. induction r as [|e r IH]; intros p fuel Hb Hl.
  - rewrite app_nil_r in *. destruct fuel; cbn [files_below]; rewrite Hb; by left.
  - destruct fuel as [|fuel]; [simpl in Hl; lia|]. cbn [files_below].
    rewrite (td_up base t p (e :: r) _ Ht Hb) by done. change (p ++ e :: r) with (p ++ [e] ++ r) in *.
    rewrite app_assoc in *. apply list_elem_of_bind. exists e. split; [apply IH; [done|simpl in Hl; lia]|].
    apply elem_of_sorted, elem_of_children. destruct r as [|e' r]; [rewrite app_nil_r in Hb; by eexists|].
    rewrite (td_up base t (p ++ [e]) (e' :: r) _ Ht Hb) by done. by eexists.
Qed.

Lemma files_below_NoDup (fuel : nat) (p : list bytes) (t : tree) : NoDup (files_below fuel p t).
Proof.
  revert p. induction fuel as [|fuel IH]; intros p; cbn [files_below]; destruct (t !! p) as [[b|]|];
    try apply NoDup_singleton; try constructor.
  apply NoDup_bind; [|by intros; apply IH|].
  - intros e1 e2 q _ _ (r1 & b1 & -> & _)%files_below_sound (r2 & b2 & Heq & _)%files_below_sound.
    rewrite <- !app_assoc in Heq. apply app_inv_head in Heq. by injection Heq.
  - rewrite (sort_Stable_perm str_lt _ : sort_Stable str_lt (children p t) ≡ₚ children p t). apply NoDup_children.
Qed.

Lemma length_le_depth (t : tree) q : is_Some (t !! q) -> length q <= depth t.
Proof.
  intros Hq. unfold depth. assert (Hin : q ∈ elements (dom t)) by by apply elem_of_elements, elem_of_dom.
  induction (elements (dom t)) as [|x l IH]; [by apply elem_of_nil in Hin|].
  change (max_list (length <$> x :: l)) with (Nat.max (length x) (max_list (length <$> l))).
  apply elem_of_cons in Hin as [->|Hin]; [lia|]. specialize (IH Hin). lia.
Qed.

Section Walk.
Context (d : Datastore) (s : os).
Context (Hf : faults s = []) (Ht : tidy (resolve (path d)) (files_of s)).

Lemma Lstat_ok (p : list bytes) (n : node) :
  files_of s !! p = Some n -> Lstat (key_string (key_of p)) s = (inr n, s).
Proof.
  intros Hn. unfold Lstat, Stat. rewrite fs_syscall_ok by done. cbn [fst snd]. rewrite same_os by done.
  pose proof (locate_key_of (cwd s) p (td_good _ _ Ht _ _ Hn)) as Hl. unfold key_of in *. cbn [key_string] in *.
  cbn [node_at]. by rewrite Hl, Hn.
Qed.

Lemma readDirNames_ok (p : list bytes) :
  files_of s !! p = Some Dir ->
  readDirNames (key_string (key_of p)) s = (inr (sort_Stable str_lt (children p (files_of s))), s).
Proof.
  intros Hn. unfold readDirNames. rewrite fs_syscall_ok by done. cbn [fst snd]. rewrite same_os by done.
  pose proof (locate_key_of (cwd s) p (td_good _ _ Ht _ _ Hn)) as Hl. unfold key_of in *. cbn [key_string] in *.
  cbn [node_at]. by rewrite !Hl, Hn.
Qed.

Lemma filepath_Join_name (p : list bytes) (e : bytes) :
  Forall good (p ++ [e]) -> filepath_Join [key_string (key_of p); e] = key_string (key_of (p ++ [e])).
Proof.
  intros Hg. apply Forall_app in Hg as [Hp He]. inversion He as [|? ? He' _]; subst.
  unfold key_of at 1. cbn [key_string].
  rewrite filepath_Join_rooted by (constructor; [apply He'|done]). do 2 f_equal.
  change (Join [slash :: Join p slash; e] slash) with ((slash :: Join p slash) ++ slash :: e).
  rewrite resolve_app_slash. change (slash :: Join p slash) with (key_string (key_of p)).
  rewrite resolve_key_of, Split_nosep by (done || apply He'). rewrite clean_elems_id by done.
  by rewrite rev_involutive.
Qed.

(** What the walk reports for a file. *)
Definition reported (p : list bytes) : list Entry := walkFn d (key_string (key_of p)) (File []).

Lemma walk_names_ok (W : bytes -> node -> os -> res (list Entry) * os) (p : list bytes) (F : bytes -> list Entry) names :
  (forall e, e ∈ names -> exists n, files_of s !! (p ++ [e]) = Some n
     /\ W (key_string (key_of (p ++ [e]))) n s = (Ok (F e), s)) ->
  walk_names W (key_string (key_of p)) names s = (Ok (names ≫= F), s).
Proof.
  induction names as [|e names IH]; intros HW; [done|]. cbn [walk_names].
  destruct (HW e ltac:(by left)) as (n & Hn & He).
  rewrite filepath_Join_name by apply (td_good _ _ Ht _ _ Hn). rewrite (Lstat_ok _ _ Hn), He.
  rewrite IH; [done|]. intros e' He'. apply HW. by right.
Qed.

Lemma walk_ok (fuel : nat) (p : list bytes) (n : node) :
  files_of s !! p = Some n ->
  walk d fuel (key_string (key_of p)) n s = (Ok (files_below fuel p (files_of s) ≫= reported), s).
Proof.
  revert p n. induction fuel as [|fuel IH]; intros p n Hn; cbn [walk files_below]; rewrite Hn.
  - by destruct n.
  - destruct n as [b|]; [done|].
    rewrite (readDirNames_ok p Hn).
    rewrite (walk_names_ok _ p (fun e => files_below fuel (p ++ [e]) (files_of s) ≫= reported)).
    + cbn. do 2 f_equal. generalize (sort_Stable str_lt (children p (files_of s))). intros l.
      induction l as [|e l IHl]; [done|]. cbn. by rewrite IHl, bind_app.
    + intros e He%elem_of_sorted%elem_of_children. destruct He as [n Hen]. exists n. split; [done|]. by apply IH.
Qed.
End Walk.

Lemma HasSuffix_app a suffix : HasSuffix (a ++ suffix) suffix = true.
Proof.
  unfold HasSuffix. rewrite length_app. rewrite (proj2 (Nat.leb_le _ _)) by lia.
  replace (length a + length suffix - length suffix) with (length a) by lia.
  rewrite drop_app_length. by apply bool_decide_eq_true.
Qed.

(** A slash at the end of a path is dropped. *)
Lemma resolve_trailing a : resolve (a ++ [slash]) = resolve a.
Proof.
  rewrite resolve_app_slash. change (Split slash []) with [@nil byte]. cbn [clean_elems].
  rewrite decide_True by by left. by rewrite rev_involutive.
Qed.

Lemma reported_object d es :
  path d = key_string (key_of (resolve (path d))) -> Forall good es ->
  reported d (object d es) = [mkEntry (key_string (key_of es)) NotFetched].
Proof.
  intros Hp Hg. unfold reported, walkFn. set (base := resolve (path d)) in *.
  set (J := match es with [] => [] | _ => Join es slash ++ [slash] end).
  assert (HJ : Join (es ++ [ObjectKeySuffix]) slash = J ++ ObjectKeySuffix).
  { subst J. destruct es as [|e es]; [done|]. rewrite Join_app by done. by rewrite <- app_assoc. }
  assert (exists pre, TrimPrefix (key_string (key_of (object d es))) (path d) = pre ++ J ++ ObjectKeySuffix
            /\ (pre = [] \/ pre = [slash])) as (pre & -> & Hpre).
  { rewrite Hp, <- HJ. unfold object. fold base. destruct base as [|e b].
    - exists []. split; [|by left]. by apply (TrimPrefix_app [slash]).
    - exists [slash]. split; [|by right]. rewrite <- (TrimPrefix_app (key_string (key_of (e :: b))) ([slash] ++ _)).
      f_equal. unfold key_of. cbn [key_string]. rewrite Join_app by (done || by destruct es). done. }
  rewrite app_assoc, HasSuffix_app, length_app.
  replace (length (pre ++ J) + length ObjectKeySuffix - length ObjectKeySuffix) with (length (pre ++ J)) by lia.
  rewrite take_app_length. do 2 f_equal. unfold String_. f_equal. rewrite NewKey_resolve. f_equal. subst J.
  destruct es as [|e es]; [by destruct Hpre as [-> | ->]|].
  rewrite app_assoc, resolve_trailing. destruct Hpre as [-> | ->].
  - by apply (clean_elems_Join []).
  - by apply resolve_key_of.
Qed.

(** The objects below the store's directory. *)
Lemma files_are_objects d s fuel :
  tidy (resolve (path d)) (files_of s) ->
  exists ks, files_below fuel (resolve (path d)) (files_of s) = map (object d) ks
    /\ NoDup ks /\ forall k, k ∈ ks -> Forall good k /\ exists b, files_of s !! object d k = Some (File b).
Proof.
  intros Ht. pose proof (files_below_NoDup fuel (resolve (path d)) (files_of s)) as Hnd.
  assert (Hobj : forall q, q ∈ files_below fuel (resolve (path d)) (files_of s) ->
            exists k b, q = object d k /\ Forall good k /\ files_of s !! q = Some (File b)).
  { intros q (r & b & -> & Hb)%files_below_sound. destruct (td_below _ _ Ht _ _ Hb) as (k & -> & _).
    exists k, b. split_and!; [done| |done]. apply (td_good _ _ Ht) in Hb.
    apply Forall_app in Hb as [_ Hb]. by apply Forall_app in Hb as [Hb _]. }
  induction (files_below fuel (resolve (path d)) (files_of s)) as [|q l IH].
  { exists []. split_and!; [done|constructor|]. by intros k ?%elem_of_nil. }
  apply NoDup_cons in Hnd as [Hq Hnd]. destruct IH as (ks & Hks & Hkd & Hin); [done| |].
  { intros q' Hq'. apply Hobj. by right. }
  destruct (Hobj q ltac:(by left)) as (k & b & -> & Hg & Hb). exists (k :: ks). split_and!.
  - by rewrite Hks.
  - constructor; [|done]. intros Hk. apply Hq. rewrite Hks. by apply list_elem_of_fmap_2.
  - intros k' [->|Hk']%elem_of_cons; [|by apply Hin]. split; [done|by exists b].
Qed.

Definition entry_of (es : list bytes) : Entry := mkEntry (key_string (key_of es)) NotFetched.

Lemma bind_reported d ks :
  path d = key_string (key_of (resolve (path d))) -> Forall (Forall good) ks ->
  map (object d) ks ≫= reported d = map entry_of ks.
Proof.
  intros Hp. induction 1 as [|k ks Hk _ IH]; [done|]. cbn [map mbind list_bind].
  rewrite reported_object by done. by rewrite <- IH.
Qed.

(** The listing of a store at a clean absolute path: a query for keys gives
    every stored key with the prefix, once, and nothing else. *)
Theorem fs_Query_lists (d : Datastore) (s : os) (prefix : bytes) :
  path d = key_string (key_of (resolve (path d))) -> sound d s ->
  exists es, Query_ d (prefix_query prefix true) s = (Ok (map entry_result es), s)
    /\ lists_view (view d (files_of s)) prefix true es.
Proof.
  intros Hp [Hf Ht]. pose proof (td_base _ _ Ht) as Hb.
  destruct (files_are_objects d s (S (depth (files_of s))) Ht) as (ks & Hks & Hnd & Hin).
  assert (Hgs : Forall (Forall good) ks) by (apply Forall_forall; intros k Hk; by apply Hin).
  exists (filter (fun e => HasPrefix (e_Key e) prefix = true) (map entry_of ks)). split.
  - unfold Query_. rewrite Hp, (Lstat_ok d s Hf Ht _ _ Hb), (walk_ok d s Hf Ht) by done. cbn [mbind res_bind].
    by rewrite Hks, bind_reported, NaiveQueryApply_prefix by done.
  - split_and!.
    + eapply sublist_NoDup; [|apply (fmap_sublist e_Key), sublist_filter].
      rewrite map_map. apply NoDup_fmap_2_strong; [|done]. intros k1 k2 H1 H2 He.
      apply (key_of_inj k1 k2); [by apply Hin..|]. unfold entry_of in He. cbn in He. unfold key_of. congruence.
    + intros e [He (k & -> & Hk)%list_elem_of_fmap]%list_elem_of_filter.
      destruct (Hin k Hk) as [Hg [b Hkb]]. exists (key_of k), (VBytes b). split_and!; [|done| |done|done].
      * apply clean_key_of. by exists k.
      * by rewrite view_key_of, Hkb.
    + intros k v (es & Hg & ->)%clean_key_of Hv Hpre. rewrite view_key_of in Hv by done.
      destruct (files_of s !! object d es) as [[b|]|] eqn:Hb'; try done.
      apply (list_elem_of_fmap_2' e_Key _ (entry_of es)); [|done].
      apply list_elem_of_filter. split; [done|]. apply list_elem_of_fmap_2.
      assert (Hin' : object d es ∈ map (object d) ks).
      { rewrite <- Hks. apply (files_below_complete (resolve (path d)) _ _ _ (es ++ [ObjectKeySuffix]) b); [done..|].
        pose proof (length_le_depth (files_of s) (object d es) ltac:(by eexists)) as Hl.
        unfold object in Hl. rewrite length_app in Hl. lia. }
      apply list_elem_of_fmap in Hin' as (k & Hk & Hkk). by apply object_inj in Hk as ->.
Qed.

(** ** Failures *)

(** A [Stat] that fails, for whatever reason, is taken for a missing file: the
    value is reported as not found, [Has] answers false without an error, and the
    store is left alone. *)
Theorem fs_Stat_error (d : Datastore) (k : Key) (s : os) n l :
  faults s = Some n :: l ->
  let s' := mkOS (files_of s) (cwd s) l in
  Get d k s = (Err DsErrNotFound, s') /\ Has d k s = (Ok false, s')
  /\ Delete d k s = (Err DsErrNotFound, s').
Proof.
  intros Hf s'. assert (Hi : forall p, isFile p s = (false, s')).
  { intros p. unfold isFile, Stat, syscall. by rewrite Hf. }
  assert (Hg : Get d k s = (Err DsErrNotFound, s')) by (unfold Get; by rewrite Hi).
  split; [done|]. split; [|unfold Delete; by rewrite Hi]. unfold Has, GetBackedHas. by rewrite Hg.
Qed.

(** A file system with the directory [/s] and nothing else, seen from [/]. *)
Definition fresh (l : list (option nat)) : os := mkOS {[ [] := Dir; [str "s"] := Dir ]} [] l.
Definition store_s : Datastore := mkDatastore (str "/s").
Definition key_x : Key := NewKey (str "/x").
Definition key_under : Key := NewKey (str "/x/.dsobject").

Lemma fresh_tidy l : tidy (resolve (str "/s")) (files_of (fresh l)).
Proof.
  assert (Hn : forall p n, files_of (fresh l) !! p = Some n -> n = Dir /\ (p = [] \/ p = [str "s"])).
  { intros p n Hp. unfold fresh in Hp. cbn [files_of] in Hp.
    apply lookup_insert_Some in Hp as [[<- <-]|[_ Hp]]; [by split; [|left]|].
    apply lookup_singleton_Some in Hp as [<- <-]. by split; [|right]. }
  split.
  - intros p e n [-> [Hp|Hp]]%Hn; [by destruct p|]. destruct p as [|x [|]]; try done.
  - intros p n [_ [-> | ->]]%Hn; [constructor|decide_compute].
  - reflexivity.
  - intros es n [-> Hp]%Hn. change (resolve (str "/s")) with [str "s"] in Hp.
    destruct Hp as [Hp|Hp]; [done|]. destruct es; [by intros ?%elem_of_nil|done].
Qed.

(** Writing a value in place is not atomic: when the write fails half-way, [Put]
    reports the error, and the old value has become the first bytes of the new. *)
Theorem fs_Put_torn :
  let s := (Put store_s key_x (VBytes [x01; x02]) (fresh [None; None; None; Some 2])).2 in
  Get store_s key_x (mkOS (files_of s) (cwd s) []) = (Ok (VBytes [x01; x02]), mkOS (files_of s) (cwd s) [])
  /\ let '(r, s') := Put store_s key_x (VBytes [x03; x04]) s in
     r = Err errno /\ (Get store_s key_x s').1 = Ok (VBytes [x03]).
Proof. vm_compute. split_and!; reflexivity. Qed.

(** Keys with an element [.dsobject] run into the files of others: whichever of
    [/x] and [/x/.dsobject] is put first, the other cannot be stored. *)
Theorem fs_suffix_conflict :
  (let s := (Put store_s key_x (VBytes [x01]) (fresh [])).2 in
   (Put store_s key_under (VBytes [x02]) s).1 = Err ENOTDIR)
  /\ (let s := (Put store_s key_under (VBytes [x02]) (fresh [])).2 in
      (Get store_s key_under s).1 = Ok (VBytes [x02]) /\ (Put store_s key_x (VBytes [x01]) s).1 = Err EISDIR).
Proof. vm_compute. split_and!; reflexivity. Qed.

(** [walkFn] ignores the error it is given and calls a method of the [FileInfo],
    which is nil then: a query panics when the directory is gone, or when a file
    cannot be examined, as when it is deleted during the walk. *)
Theorem fs_Query_panics q :
  (Query_ (mkDatastore (str "/gone")) q (fresh [])).1 = Panic
  /\ let s := (Put store_s key_x (VBytes [x01]) (fresh [None; None; None; None; Some 0])).2 in
     (Query_ store_s q s).1 = Panic.
Proof. split; reflexivity. Qed.

(** The walk cleans the paths below its root, but not the root: in a store opened
    at [./s] the prefix is never removed, and the query lists keys of no value. *)
Theorem fs_Query_relative :
  let d := mkDatastore (str "./s") in
  let s := (Put d key_x (VBytes [x01]) (fresh [])).2 in
  (NewDatastore (str "./s") (fresh [])).1 = Ok d /\ (Get d key_x s).1 = Ok (VBytes [x01])
  /\ (Query_ d (prefix_query [] true) s).1 = Ok [entry_result (mkEntry (str "/s/x") NotFetched)].
Proof. vm_compute. split_and!; reflexivity. Qed.

(** ** Witnesses *)

Lemma key_x_object : object_key key_x.
Proof. exists [str "x"]. split_and!; [decide_compute|decide_compute|reflexivity]. Qed.


Lemma fs_Query_lists_witness :
  exists es, (Query_ store_s (prefix_query [] true) (fresh [])).1 = Ok (map entry_result es).
Proof.
  destruct (fs_Query_lists store_s (fresh []) []) as (es & H & _).
  - reflexivity.
  - split; [reflexivity|apply fresh_tidy].
  - exists es. by rewrite H.
Defined.

Lemma fs_Stat_error_witness : (Has store_s key_x (fresh [Some 0])).1 = Ok false.
Proof. by rewrite (proj1 (proj2 (fs_Stat_error store_s key_x (fresh [Some 0]) 0 [] eq_refl))). Defined.
