(* ===== verification/Measure.v ===== *)
(** * The measuring store

    Models [Godeps/.../jbenet/go-datastore/measure/measure.go]. The metrics package
    is not in the repository: the model keeps the calls that are made to it, in
    order. The clock is a list of the times that [time.Now] returns. *)

From S2P Require Import Prelude DsKey Query Datastore.

(** ** Metrics *)

Inductive kind := KPut | KGet | KHas | KDelete | KQuery.
Inductive quantity := Num | Errs | Latency | Size.
(** A field of [measure]: [putNum] is [(KPut, Num)]. *)
Definition metric : Type := kind * quantity.

#[export] Instance kind_eq_dec : EqDecision kind.
Proof. solve_decision. Defined.
#[export] Instance quantity_eq_dec : EqDecision quantity.
Proof. solve_decision. Defined.

Definition maxLatency : Z := 1000000000.
Definition maxSize : Z := 2 ^ 32.
Definition Microsecond : Z := 1000.

Definition kind_name (k : kind) : bytes :=
  str match k with KPut => "Put" | KGet => "Get" | KHas => "Has" | KDelete => "Delete" | KQuery => "Query" end.
Definition quantity_name (w : quantity) : bytes :=
  str match w with Num => "num" | Errs => "err" | Latency => "latency" | Size => "size" end.
Definition name (prefix : bytes) (m : metric) : bytes :=
  prefix ++ str "." ++ kind_name m.1 ++ str "." ++ quantity_name m.2.

(** [Counter(name)], [NewHistogram(name, 0, max, 3)], [Add], [RecordValue],
    [Remove]. *)
Inductive event :=
  | ECounter (name : bytes)
  | EHistogram (name : bytes) (max : Z)
  | EAdd (m : metric)
  | ERecord (m : metric) (v : Z)
  | ERemove (m : metric).

#[export] Instance event_eq_dec : EqDecision event.
Proof. solve_decision. Defined.

(** ** The store *)

Section Measure.
Context {S : Type} `{Datastore S}.

Record measure := mkMeasure { backend : S; log : list event; clock : list Z }.

Definition put_metrics : list metric := [(KPut, Num); (KPut, Errs); (KPut, Latency); (KPut, Size)].
Definition get_metrics : list metric := [(KGet, Num); (KGet, Errs); (KGet, Latency); (KGet, Size)].
Definition rest_metrics (k : kind) : list metric := [(k, Num); (k, Errs); (k, Latency)].
Definition metrics : list metric :=
  put_metrics ++ get_metrics ++ rest_metrics KHas ++ rest_metrics KDelete ++ rest_metrics KQuery.

Definition registration (prefix : bytes) (m : metric) : event :=
  match m.2 with
  | Num | Errs => ECounter (name prefix m)
  | Latency => EHistogram (name prefix m) maxLatency
  | Size => EHistogram (name prefix m) maxSize
  end.
Definition New (prefix : bytes) (ds : S) (times : list Z) : measure :=
  mkMeasure ds (map (registration prefix) metrics) times.

Definition emit (e : event) (m : measure) : measure := mkMeasure (backend m) (log m ++ [e]) (clock m).
Definition Now (m : measure) : Z * measure :=
  (default 0%Z (head (clock m)), mkMeasure (backend m) (log m) (tail (clock m))).

(** The deferred call runs on every way out, a panic included. *)
Definition recordLatency (h : metric) (start : Z) (m : measure) : measure :=
  let '(now, m) := Now m in emit (ERecord h (Z.quot (now - start) Microsecond)) m.
Definition defer_latency {A : Type} (h : metric) (body : measure -> A * measure) (m : measure) : A * measure :=
  let '(start, m) := Now m in
  let '(r, m) := body m in (r, recordLatency h start m).

(** A call of the backend. *)
Definition call {A : Type} (f : S -> A * S) (m : measure) : A * measure :=
  let '(r, s) := f (backend m) in (r, mkMeasure s (log m) (clock m)).
Definition record_size (h : metric) (v : value) (m : measure) : measure :=
  match v with VBytes b => emit (ERecord h (Z.of_nat (length b))) m | _ => m end.
Definition count_err {A : Type} (h : metric) (r : res A) (m : measure) : measure :=
  match r with Err _ => emit (EAdd h) m | _ => m end.

Definition Put (key : Key) (v : value) : measure -> res unit * measure :=
  defer_latency (KPut, Latency) (fun m =>
    let m := emit (EAdd (KPut, Num)) m in
    let m := record_size (KPut, Size) v m in
    let '(err, m) := call (ds_Put key v) m in
    (err, count_err (KPut, Errs) err m)).
Definition Get (key : Key) : measure -> res value * measure :=
  defer_latency (KGet, Latency) (fun m =>
    let m := emit (EAdd (KGet, Num)) m in
    let '(r, m) := call (ds_Get key) m in
    (r, match r with Ok v => record_size (KGet, Size) v m | _ => count_err (KGet, Errs) r m end)).
Definition Has (key : Key) : measure -> res bool * measure :=
  defer_latency (KHas, Latency) (fun m =>
    let m := emit (EAdd (KHas, Num)) m in
    let '(r, m) := call (ds_Has key) m in
    (r, count_err (KHas, Errs) r m)).
Definition Delete (key : Key) : measure -> res unit * measure :=
  defer_latency (KDelete, Latency) (fun m =>
    let m := emit (EAdd (KDelete, Num)) m in
    let '(err, m) := call (ds_Delete key) m in
    (err, count_err (KDelete, Errs) err m)).
Definition Query_ (q : Query) : measure -> res Results * measure :=
  defer_latency (KQuery, Latency) (fun m =>
    let m := emit (EAdd (KQuery, Num)) m in
    let '(r, m) := call (ds_Query q) m in
    (r, count_err (KQuery, Errs) r m)).

Definition Close (m : measure) : measure := fold_left (fun m h => emit (ERemove h) m) metrics m.

#[global] Instance measure_Datastore : Datastore measure := {|
  ds_Put := Put; ds_Get := Get; ds_Has := Has; ds_Delete := Delete; ds_Query := Query_ |}.
End Measure.
Arguments measure : clear implicits.

(** ** Transparency *)

Section Facts.
Context {S : Type} `{Datastore S}.
Implicit Types m : measure S.

Lemma backend_record_size h v m : backend (record_size h v m) = backend m.
Proof. by destruct v. Qed.
Lemma backend_count_err {A : Type} h (r : res A) m : backend (count_err h r m) = backend m.
Proof. by destruct r. Qed.

Lemma measured_Put k v m : (Put k v m).1 = (ds_Put k v (backend m)).1
  /\ backend (Put k v m).2 = (ds_Put k v (backend m)).2.
Proof.
  destruct v as [|b|i]; unfold Put, defer_latency, call; cbn;
    destruct (ds_Put k _ (backend m)) as [r s]; cbn; by rewrite backend_count_err.
Qed.
Lemma measured_Get k m : (Get k m).1 = (ds_Get k (backend m)).1
  /\ backend (Get k m).2 = (ds_Get k (backend m)).2.
Proof.
  unfold Get, defer_latency, call. cbn. destruct (ds_Get k (backend m)) as [[v|e|] s]; cbn; [|done..].
  by rewrite backend_record_size.
Qed.
Lemma measured_Has k m : (Has k m).1 = (ds_Has k (backend m)).1
  /\ backend (Has k m).2 = (ds_Has k (backend m)).2.
Proof.
  unfold Has, defer_latency, call. cbn. destruct (ds_Has k (backend m)) as [r s]. cbn. by rewrite backend_count_err.
Qed.
Lemma measured_Delete k m : (Delete k m).1 = (ds_Delete k (backend m)).1
  /\ backend (Delete k m).2 = (ds_Delete k (backend m)).2.
Proof.
  unfold Delete, defer_latency, call. cbn. destruct (ds_Delete k (backend m)) as [r s]. cbn.
  by rewrite backend_count_err.
Qed.
Lemma measured_Query q m : (Query_ q m).1 = (ds_Query q (backend m)).1
  /\ backend (Query_ q m).2 = (ds_Query q (backend m)).2.
Proof.
  unfold Query_, defer_latency, call. cbn. destruct (ds_Query q (backend m)) as [r s]. cbn.
  by rewrite backend_count_err.
Qed.
End Facts.

(** A call that answers as the backend does, and leaves its state. *)
Lemma measured_call {S A : Type} (view : S -> Prop) (r : A * measure S) a s' :
  r.1 = a /\ backend r.2 = s' -> view s' -> exists m', r = (a, m') /\ view (backend m').
Proof. intros [<- <-] Hv. exists r.2. by rewrite <- surjective_pairing. Qed.

(** A measured store keeps the contract of the store. *)
#[export] Program Instance measure_DatastoreSpec {S} `{DatastoreSpec S} : DatastoreSpec (measure S) := {|
  ds_wf m := ds_wf (backend m);
  ds_view m := ds_view (backend m) |}.
Next Obligation.
  intros S ? ? m k v Hw Hk. destruct (ds_Put_spec (backend m) k v Hw Hk) as (s' & He & Hp).
  pose proof (measured_Put k v m) as Hm. rewrite He in Hm. by apply (measured_call (fun s => ds_wf s /\ put_view ds_view k (Some v) (backend m) s) _ _ _ Hm).
Qed.
Next Obligation.
  intros S ? ? m k Hw Hk. destruct (ds_Get_spec (backend m) k Hw Hk) as (s' & He & Hp).
  pose proof (measured_Get k m) as Hm. rewrite He in Hm. by apply (measured_call (fun s => ds_wf s /\ same_view ds_view (backend m) s) _ _ _ Hm).
Qed.
Next Obligation.
  intros S ? ? m k Hw Hk. destruct (ds_Has_spec (backend m) k Hw Hk) as (s' & He & Hp).
  pose proof (measured_Has k m) as Hm. rewrite He in Hm. by apply (measured_call (fun s => ds_wf s /\ same_view ds_view (backend m) s) _ _ _ Hm).
Qed.
Next Obligation.
  intros S ? ? m k Hw Hk. destruct (ds_Delete_spec (backend m) k Hw Hk) as (s' & He & Hp).
  pose proof (measured_Delete k m) as Hm. rewrite He in Hm. by apply (measured_call (fun s => ds_wf s /\ put_view ds_view k None (backend m) s) _ _ _ Hm).
Qed.

(** ** What is counted *)

Definition op_kind (o : op) : kind :=
  match o with OPut _ _ => KPut | OGet _ => KGet | OHas _ => KHas | ODelete _ => KDelete end.
Definition failed (r : outcome) : bool :=
  match r with RUnit (Err _) | RValue (Err _) | RBool (Err _) => true | _ => false end.
Definition adds (h : metric) (l : list event) : nat := length (filter (fun e => e = EAdd h) l).
Definition records (h : metric) (l : list event) : nat :=
  length (filter (fun e => match e with ERecord h' _ => bool_decide (h' = h) | _ => false end = true) l).

Section Counts.
Context {S : Type} `{Datastore S}.

(** What one call adds to the log. *)
Definition call_log (o : op) (r : outcome) (l : list event) : Prop :=
  (forall k, adds (k, Num) l = if decide (op_kind o = k) then 1 else 0)
  /\ (forall k, adds (k, Errs) l = if decide (op_kind o = k) then (if failed r then 1 else 0) else 0)
  /\ (forall k, records (k, Latency) l = if decide (op_kind o = k) then 1 else 0).

Lemma run_op_log (o : op) (m : measure S) :
  exists l, log (run_op o m).2 = log m ++ l /\ call_log o (run_op o m).1 l.
Proof.
  destruct o as [k v|k|k|k]; unfold run_op, out, ds_Put, ds_Get, ds_Has, ds_Delete, measure_Datastore;
    unfold Put, Get, Has, Delete, defer_latency, call; cbn.
  - destruct v; cbn; destruct (ds_Put k _ (backend m)) as [[]]; cbn; rewrite <- ?app_assoc; eexists;
      (split; [reflexivity|]); split_and!; intros []; reflexivity.
  - destruct (ds_Get k (backend m)) as [[[]| |]]; cbn; rewrite <- ?app_assoc; eexists;
      (split; [reflexivity|]); split_and!; intros []; reflexivity.
  - destruct (ds_Has k (backend m)) as [[]]; cbn; rewrite <- ?app_assoc; eexists;
      (split; [reflexivity|]); split_and!; intros []; reflexivity.
  - destruct (ds_Delete k (backend m)) as [[]]; cbn; rewrite <- ?app_assoc; eexists;
      (split; [reflexivity|]); split_and!; intros []; reflexivity.
Qed.

(** The calls of a kind, and those of them that failed. *)
Definition calls (k : kind) (l : list op) : nat := length (filter (fun o => op_kind o = k) l).
Definition failures (k : kind) (l : list op) (rs : list outcome) : nat :=
  length (filter (fun p => op_kind p.1 = k /\ failed p.2 = true) (zip l rs)).

Lemma adds_app h l1 l2 : adds h (l1 ++ l2) = adds h l1 + adds h l2.
Proof. unfold adds. by rewrite filter_app, length_app. Qed.
Lemma records_app h l1 l2 : records h (l1 ++ l2) = records h l1 + records h l2.
Proof. unfold records. by rewrite filter_app, length_app. Qed.

Lemma run_ops_log (l : list op) (m : measure S) k :
  adds (k, Num) (log (run_ops l m).2) = adds (k, Num) (log m) + calls k l
  /\ adds (k, Errs) (log (run_ops l m).2) = adds (k, Errs) (log m) + failures k l (run_ops l m).1
  /\ records (k, Latency) (log (run_ops l m).2) = records (k, Latency) (log m) + calls k l.
Proof.
  revert m. induction l as [|o l IH]; intros m.
  { cbn. unfold failures, calls. cbn. lia. }
  cbn [run_ops]. destruct (run_op_log o m) as (lo & Hl & Hn & He & Ht).
  destruct (run_op o m) as [r m1]. specialize (IH m1). destruct (run_ops l m1) as [rs m2]. cbn [fst snd] in *.
  destruct IH as (I1 & I2 & I3). rewrite I1, I2, I3, Hl, !adds_app, records_app, Hn, He, Ht.
  unfold calls, failures. cbn [zip zip_with]. rewrite !filter_cons. cbn [fst snd].
  destruct (decide (op_kind o = k)) as [Hk|Hk].
  - destruct (failed r) eqn:Hr.
    + rewrite (decide_True (P := op_kind o = k /\ true = true)) by done. cbn [length]. lia.
    + rewrite (decide_False (P := op_kind o = k /\ false = true)) by naive_solver. cbn [length]. lia.
  - rewrite (decide_False (P := op_kind o = k /\ failed r = true)) by naive_solver. lia.
Qed.
End Counts.

(** Measuring is transparent and counts right: over any store, a measured one
    gives the same results for every sequence of calls and leaves the same state
    behind; the counter of a kind of call has been incremented once for each call,
    its error counter once for each that failed, and one latency has been recorded
    for each call. *)
Theorem measure_counts {S} `{Datastore S} (prefix : bytes) (s : S) times (l : list op) :
  let m := (run_ops l (New prefix s times)).2 in
  (run_ops l (New prefix s times)).1 = (run_ops l s).1 /\ backend m = (run_ops l s).2
  /\ forall k, adds (k, Num) (log m) = calls k l
       /\ adds (k, Errs) (log m) = failures k l (run_ops l s).1
       /\ records (k, Latency) (log m) = calls k l.
Proof.
  intros m. destruct (run_ops_simulation (fun _ => True) (fun (m : measure S) s => backend m = s) l
                        (New prefix s times) s) as [Hr Hb].
  - intros o m' s' _ <-. destruct o as [k v|k|k|k]; unfold run_op, out; cbn [fst snd].
    + destruct (measured_Put k v m') as [H1 H2]. split; [f_equal; exact H1|exact H2].
    + destruct (measured_Get k m') as [H1 H2]. split; [f_equal; exact H1|exact H2].
    + destruct (measured_Has k m') as [H1 H2]. split; [f_equal; exact H1|exact H2].
    + destruct (measured_Delete k m') as [H1 H2]. split; [f_equal; exact H1|exact H2].
  - by apply Forall_true.
  - done.
  - split; [done|]. split; [done|]. intros k. rewrite <- Hr. by destruct k; apply (run_ops_log l (New prefix s times)).
Qed.

(** [Close] removes exactly the metrics that [New] has made, each once. *)
Theorem measure_Close {S} `{Datastore S} (m : measure S) :
  log (Close m) = log m ++ map ERemove metrics /\ backend (Close m) = backend m /\ NoDup metrics.
Proof.
  assert (Hc : forall l m, log (fold_left (fun m h => emit (ERemove h) m) l m) = log m ++ map ERemove l
            /\ backend (fold_left (fun m h => emit (ERemove h) m) l m) = backend (m : measure S)).
  { intros l. induction l as [|h l IH]; intros m0; cbn; [by rewrite app_nil_r|].
    destruct (IH (emit (ERemove h) m0)) as [-> ->]. cbn. by rewrite <- app_assoc. }
  destruct (Hc metrics m) as [H1 H2]. split_and!; [exact H1|exact H2|decide_compute].
Qed.

(** Latencies are recorded in microseconds, but the histograms are made for values
    up to [int64(1 * time.Second)], a number of nanoseconds: a call of a thousand
    seconds is within the limit of one. *)
Theorem measure_latency_unit {S} `{Datastore S} (s : S) k :
  (Has k (New [] s [0; 1000 * maxLatency]%Z)).2.(log) =
  map (registration []) metrics ++ EAdd (KHas, Num) ::
    (match (ds_Has k s).1 with Err _ => [EAdd (KHas, Errs)] | _ => [] end) ++ [ERecord (KHas, Latency) maxLatency].
Proof.
  unfold Has, defer_latency, call. cbn. by destruct (ds_Has k s) as [[]].
Qed.
