(* ===== verification/Leveldb.v ===== *)
(** * The LevelDB store

    Models [Godeps/.../jbenet/go-datastore/leveldb/datastore.go]. The database is a
    package outside the repository: a class of its operations, and one of what its
    documentation promises of a database none of whose calls fails. *)

From Stdlib Require Import Sorting.Sorted.
From stdpp Require Import sorting.
From S2P Require Import Prelude DsKey Query Datastore.

(** ** The database *)

Definition leveldb_ErrNotFound : error := errors_New "leveldb: not found".

(** Calls without options. [db_iterate] is what an iterator over the keys with a
    prefix gives, and the error it ends with. *)
Class LevelDB (D : Type) := {
  db_Put : bytes -> bytes -> D -> option error * D;
  db_Get : bytes -> D -> error + bytes;
  db_Has : bytes -> D -> error + bool;
  db_Delete : bytes -> D -> option error * D;
  db_iterate : option bytes -> D -> list (bytes * bytes) * option error;
}.

(** A sorted map from byte strings to byte strings. Whether deleting a key that is
    not there is an error depends on the version of the package. *)
Class LevelDBSpec (D : Type) `{LevelDB D} := {
  db_ok : D -> Prop;
  db_map : D -> gmap bytes bytes;
  db_reports : bool;
  db_Put_spec k v d : db_ok d ->
    exists d', db_Put k v d = (None, d') /\ db_ok d' /\ db_map d' = <[k := v]> (db_map d);
  db_Get_spec k d : db_ok d ->
    db_Get k d = match db_map d !! k with Some v => inr v | None => inl leveldb_ErrNotFound end;
  db_Has_spec k d : db_ok d -> db_Has k d = inr (bool_decide (is_Some (db_map d !! k)));
  db_Delete_spec k d : db_ok d ->
    exists d', db_Delete k d = (if decide (is_Some (db_map d !! k)) then None
                                else if db_reports then Some leveldb_ErrNotFound else None, d')
      /\ db_ok d' /\ db_map d' = delete k (db_map d);
  db_iterate_spec r d : db_ok d ->
    exists l, db_iterate r d = (l, None) /\ StronglySorted (fun p q => str_lt p.1 q.1 = true) l
      /\ forall k v, (k, v) ∈ l <-> db_map d !! k = Some v /\ HasPrefix k (default [] r) = true;
}.

(** ** The store *)

Section Store.
Context {D : Type} `{LevelDB D}.

Definition Put (key : Key) (v : value) (d : D) : res unit * D :=
  match v with
  | VBytes val =>
      let '(err, d) := db_Put (Bytes key) val d in
      (match err with None => Ok tt | Some err => Err err end, d)
  | _ => (Err DsErrInvalidType, d)
  end.

Definition Get (key : Key) (d : D) : res value * D :=
  (match db_Get (Bytes key) d with
   | inl err => if decide (err = leveldb_ErrNotFound) then Err DsErrNotFound else Err err
   | inr val => Ok (VBytes val)
   end, d).

Definition Has (key : Key) (d : D) : res bool * D :=
  (match db_Has (Bytes key) d with inl err => Err err | inr b => Ok b end, d).

Definition Delete (key : Key) (d : D) : res unit * D :=
  let '(err, d) := db_Delete (Bytes key) d in
  (match err with
   | None => Ok tt
   | Some err => if decide (err = leveldb_ErrNotFound) then Err DsErrNotFound else Err err
   end, d).

(** The loop of [runQuery]. [chosen n] tells which case the [select] of the [n]-th
    entry takes: the client receives it, or the worker is closing and the [break]
    leaves the [select], not the loop. The second result counts the rounds. *)
Fixpoint runQuery_loop (q : Query) (chosen : nat -> bool) (sent : nat) (items : list (bytes * bytes))
    : Results * nat :=
  match items with
  | [] => ([], 0)
  | (k, v) :: items =>
      if (0 <? q_Limit q)%Z && (q_Limit q <=? Z.of_nat sent)%Z then ([], 0)
      else
        let e := mkEntry (String_ (NewKey k)) (if q_KeysOnly q then VNil else VBytes v) in
        let '(r, n) := runQuery_loop q chosen (S sent) items in
        ((if chosen sent then entry_result e :: r else r), S n)
  end.

Definition range_of (q : Query) : option bytes := if decide (q_Prefix q = []) then None else Some (q_Prefix q).

(** The error of the iterator is sent last. *)
Definition runQuery (q : Query) (chosen : nat -> bool) (d : D) : Results :=
  let '(items, err) := db_iterate (range_of q) d in
  let '(r, n) := runQuery_loop q chosen 0 (drop (Z.to_nat (q_Offset q)) items) in
  r ++ match err with
       | Some err => if chosen n then [mkResult (mkEntry [] VNil) (Some err)] else []
       | None => []
       end.

(** For a client that reads to the end. *)
Definition Query_ (q : Query) (d : D) : res Results * D :=
  (qr ← fold_res (fun f qr => NaiveFilter qr f) (q_Filters q) (runQuery q (fun _ => true) d);
   fold_res (fun o qr => NaiveOrder qr o) (q_Orders q) qr, d).

#[global] Instance leveldb_Datastore : Datastore D := {|
  ds_Put := Put; ds_Get := Get; ds_Has := Has; ds_Delete := Delete; ds_Query := Query_ |}.
End Store.

(** ** A map *)

Definition byte_op (o : op) : Prop := match o with OPut _ v => exists b, v = VBytes b | _ => True end.

Section Spec.
Context {D : Type} `{LevelDBSpec D} `{!GoRange Key}.

Definition stored (d : D) (m : MapDatastore.MapDatastore) : Prop :=
  db_ok d /\ forall k, VBytes <$> db_map d !! key_string k = MapDatastore.values m !! k.

Lemma run_op_stored o (d : D) m :
  db_reports = true -> byte_op o -> stored d m ->
  (run_op o d).1 = (run_op o m).1 /\ stored (run_op o d).2 (run_op o m).2.
Proof.
  intros Hrep Ho [Hok Hm]. destruct o as [k v|k|k|k];
    cbn [run_op ds_Put ds_Get ds_Has ds_Delete leveldb_Datastore MapDatastore.map_Datastore]; unfold out.
  - destruct Ho as [b ->]. unfold Put. destruct (db_Put_spec (Bytes k) b d Hok) as (d' & -> & Hok' & Hd').
    cbn. split; [done|]. split; [done|]. intros k'. rewrite Hd'. cbn. destruct (decide (k' = k)) as [->|Hk].
    + by rewrite !lookup_insert_eq.
    + rewrite !lookup_insert_ne; [apply Hm|done|]. by intros E%(inj key_string).
  - unfold Get, MapDatastore.Get. rewrite db_Get_spec by done. rewrite <- Hm. unfold Bytes.
    by destruct (db_map d !! key_string k).
  - unfold Has, MapDatastore.Has. rewrite db_Has_spec by done. rewrite <- Hm. unfold Bytes.
    by destruct (db_map d !! key_string k).
  - unfold Delete, MapDatastore.Delete. destruct (db_Delete_spec (Bytes k) d Hok) as (d' & -> & Hok' & Hd').
    rewrite <- Hm, Hrep. unfold Bytes in *.
    assert (Hdel : forall k', VBytes <$> db_map d' !! key_string k' = delete k (MapDatastore.values m) !! k').
    { intros k'. rewrite Hd'. destruct (decide (k' = k)) as [->|Hk]; [by rewrite !lookup_delete_eq|].
      rewrite !lookup_delete_ne; [apply Hm|done|]. by intros E%(inj key_string). }
    specialize (Hm k). destruct (db_map d !! key_string k) as [b|]; cbn.
    + split; [done|]. by split.
    + split; [done|]. split; [done|]. intros k'. rewrite Hdel. destruct (decide (k' = k)) as [->|Hk].
      * rewrite lookup_delete_eq. by cbn in Hm.
      * by rewrite lookup_delete_ne.
Qed.
End Spec.

(** A database that reports missing keys makes a correct store of byte slices. *)
Program Definition leveldb_ByteStoreSpec {D} `{LevelDBSpec D} (Hrep : db_reports = true) : ByteStoreSpec D := {|
  bt_wf := db_ok; bt_view d k := VBytes <$> db_map d !! key_string k |}.
Next Obligation.
  intros D ? ? Hrep d k v _ _ Hv. cbn beta in Hv. destruct (db_map d !! key_string k); [|done]. injection Hv as <-. by eexists.
Qed.
Next Obligation.
  intros D ? ? Hrep d k b Hok _. cbn. unfold Put. destruct (db_Put_spec (Bytes k) b d Hok) as (d' & -> & Hok' & Hd').
  exists d'. split_and!; [done..|]. intros k' _. rewrite Hd'. unfold Bytes. case_decide as He; [subst k'|].
  - by rewrite lookup_insert_eq.
  - rewrite lookup_insert_ne; [done|]. by intros E%(inj key_string).
Qed.
Next Obligation.
  intros D ? ? Hrep d k Hok _. exists d. cbn. unfold Get. rewrite db_Get_spec by done. unfold Bytes.
  by destruct (db_map d !! key_string k).
Qed.
Next Obligation.
  intros D ? ? Hrep d k Hok _. exists d. cbn. unfold Has. rewrite db_Has_spec by done. unfold Bytes.
  by destruct (db_map d !! key_string k).
Qed.
Next Obligation.
  intros D ? ? Hrep d k Hok _. cbn. unfold Delete.
  destruct (db_Delete_spec (Bytes k) d Hok) as (d' & -> & Hok' & Hd'). exists d'. rewrite Hrep. unfold Bytes in *.
  split_and!; [by destruct (db_map d !! key_string k)|done|]. intros k' _. rewrite Hd'. case_decide as He; [subst k'|].
  - by rewrite lookup_delete_eq.
  - rewrite lookup_delete_ne; [done|]. by intros E%(inj key_string).
Qed.

(** Refinement, against the database's contract: over an empty database whose
    [Delete] reports a missing key, and while none of its calls fails, the store
    cannot be told from an in-memory map by any sequence of Put (of byte slices),
    Get, Has and Delete. *)
Theorem leveldb_refines_map {D} `{LevelDBSpec D} `{!GoRange Key} (d : D) (l : list op) :
  db_reports = true -> db_ok d -> db_map d = ∅ -> Forall byte_op l ->
  (run_ops l d).1 = (run_ops l MapDatastore.NewMapDatastore).1.
Proof.
  intros Hrep Hok He Hl. apply (run_ops_simulation byte_op stored); [|done|].
  - intros o s m Ho. by apply run_op_stored.
  - split; [done|]. intros k. by rewrite He, !lookup_empty.
Qed.

(** ** Queries *)

Definition entry_of_item (q : Query) (p : bytes * bytes) : Entry :=
  mkEntry (String_ (NewKey p.1)) (if q_KeysOnly q then VNil else VBytes p.2).

(** The items that are left when [sent] have been sent: those up to the limit. *)
Definition kept (q : Query) (sent : nat) (items : list (bytes * bytes)) : list (bytes * bytes) :=
  if (0 <? q_Limit q)%Z then take (Z.to_nat (q_Limit q) - sent) items else items.

Lemma kept_cons q sent p items :
  kept q sent (p :: items)
  = if (0 <? q_Limit q)%Z && (q_Limit q <=? Z.of_nat sent)%Z then [] else p :: kept q (S sent) items.
Proof.
  unfold kept. destruct (Z.ltb_spec 0 (q_Limit q)) as [Hl|Hl]; [|done]. cbn [andb].
  destruct (Z.leb_spec (q_Limit q) (Z.of_nat sent)) as [Hs|Hs].
  - by replace (Z.to_nat (q_Limit q) - sent) with 0 by lia.
  - by replace (Z.to_nat (q_Limit q) - sent) with (S (Z.to_nat (q_Limit q) - S sent)) by lia.
Qed.

Lemma runQuery_loop_rounds q chosen sent items :
  (runQuery_loop q chosen sent items).2 = length (kept q sent items).
Proof.
  revert sent. induction items as [|[k v] items IH]; intros sent.
  { unfold kept. by destruct (0 <? q_Limit q)%Z; rewrite ?take_nil. }
  rewrite kept_cons. cbn [runQuery_loop]. case_match; [done|]. specialize (IH (S sent)).
  destruct (runQuery_loop q chosen (S sent) items). cbn in *. by rewrite IH.
Qed.

Lemma runQuery_loop_all q sent items :
  (runQuery_loop q (fun _ => true) sent items).1 = map entry_result (map (entry_of_item q) (kept q sent items)).
Proof.
  revert sent. induction items as [|[k v] items IH]; intros sent.
  { unfold kept. by destruct (0 <? q_Limit q)%Z; rewrite ?take_nil. }
  rewrite kept_cons. cbn [runQuery_loop]. case_match; [done|]. specialize (IH (S sent)).
  destruct (runQuery_loop q (fun _ => true) (S sent) items). cbn in *. by rewrite IH.
Qed.

(** A client that closes the query does not stop it: whichever case each [select]
    takes, the loop makes as many rounds, up to the limit or to the end of the
    database. *)
Theorem leveldb_close_ignored q chosen chosen' sent items :
  (runQuery_loop q chosen sent items).2 = (runQuery_loop q chosen' sent items).2
  /\ (q_Limit q = 0%Z -> (runQuery_loop q chosen sent items).2 = length items).
Proof.
  rewrite !runQuery_loop_rounds. split; [done|]. intros Hl. unfold kept. by rewrite Hl.
Qed.

Lemma clean_string k : clean (mkKey k) -> String_ (NewKey k) = k.
Proof. unfold clean. cbn [key_string]. by intros ->. Qed.

Section Queries.
Context {D : Type} `{LevelDBSpec D}.

Lemma runQuery_all (q : Query) (d : D) items :
  db_iterate (range_of q) d = (items, None) ->
  runQuery q (fun _ => true) d
  = map entry_result (map (entry_of_item q) (kept q 0 (drop (Z.to_nat (q_Offset q)) items))).
Proof.
  intros Hi. unfold runQuery. rewrite Hi. pose proof (runQuery_loop_all q 0 (drop (Z.to_nat (q_Offset q)) items)) as Hr.
  destruct (runQuery_loop _ _ _ _) as [r n]. cbn in Hr. by rewrite app_nil_r.
Qed.

(** All keys of the database are keys that the package makes. *)
Definition clean_keys (d : D) : Prop := forall s, is_Some (db_map d !! s) -> clean (mkKey s).

Lemma items_keys (d : D) (items : list (bytes * bytes)) :
  clean_keys d -> (forall k v, (k, v) ∈ items -> db_map d !! k = Some v) ->
  map (fun p => String_ (NewKey p.1)) items = map fst items.
Proof.
  intros Hc Hi. induction items as [|[k v] items IH]; [done|]. cbn [map fst]. f_equal.
  - apply clean_string, Hc. exists v. apply Hi. by left.
  - apply IH. intros k' v' Hk. apply Hi. by right.
Qed.

Lemma entries_keys (q : Query) (d : D) (items : list (bytes * bytes)) :
  clean_keys d -> (forall k v, (k, v) ∈ items -> db_map d !! k = Some v) ->
  map e_Key (map (entry_of_item q) items) = map fst items.
Proof. intros Hc Hi. rewrite map_map. by apply (items_keys d). Qed.

Lemma sorted_NoDup (l : list (bytes * bytes)) :
  StronglySorted (fun p q => str_lt p.1 q.1 = true) l -> NoDup (map fst l).
Proof.
  induction 1 as [|p l _ IH Hp]; [constructor|]. constructor; [|done].
  intros (q & Hq & Hin)%list_elem_of_fmap. pose proof (proj1 (Forall_forall _ _) Hp q Hin) as Hlt.
  cbn in Hlt. by rewrite Hq, str_lt_irrefl in Hlt.
Qed.

Lemma sorted_same (l1 l2 : list (bytes * bytes)) :
  StronglySorted (fun p q => str_lt p.1 q.1 = true) l1 -> StronglySorted (fun p q => str_lt p.1 q.1 = true) l2 ->
  (forall p, p ∈ l1 <-> p ∈ l2) -> l1 = l2.
Proof.
  intros H1 H2 Heq.
  apply (StronglySorted_unique_strong (fun p q => str_lt p.1 q.1 = true)); [|done..|].
  - intros p q _ _ Hpq Hqp. apply str_lt_asym in Hpq. congruence.
  - apply NoDup_Permutation; [by apply (NoDup_fmap_1 fst), sorted_NoDup..|done].
Qed.

Definition view (d : D) (k : Key) : option value := VBytes <$> db_map d !! key_string k.
End Queries.

Lemma sorted_filter {A : Type} (R : A -> A -> Prop) (P : A -> Prop) `{!forall x, Decision (P x)} (l : list A) :
  StronglySorted R l -> StronglySorted R (filter P l).
Proof.
  induction 1 as [|x l _ IH Hx]; [constructor|]. rewrite filter_cons. case_decide; [|done].
  constructor; [done|]. apply Forall_forall. intros y [_ Hy]%list_elem_of_filter.
  by apply (proj1 (Forall_forall _ _) Hx).
Qed.

(** The listing: a query by prefix, for keys or for keys and values, gives every
    entry of the database whose key has the prefix, once, and nothing else. *)
Theorem leveldb_Query_lists {D} `{LevelDBSpec D} (d : D) (prefix : bytes) (keysOnly : bool) :
  db_ok d -> clean_keys d ->
  exists es, Query_ (prefix_query prefix keysOnly) d = (Ok (map entry_result es), d)
    /\ lists_view (view d) prefix keysOnly es.
Proof.
  intros Hok Hc. set (q := prefix_query prefix keysOnly).
  destruct (db_iterate_spec (range_of q) d Hok) as (items & Hi & Hs & Hin).
  assert (Hr : default [] (range_of q) = prefix) by (unfold range_of, q; cbn; by case_decide).
  rewrite Hr in Hin. exists (map (entry_of_item q) items). split.
  { unfold Query_. rewrite (runQuery_all q d items Hi). done. }
  assert (Hk : map e_Key (map (entry_of_item q) items) = map fst items)
    by (apply (entries_keys q d); [done|]; intros k v Hkv; by apply Hin).
  split_and!.
  - rewrite Hk. by apply sorted_NoDup.
  - intros e ([k v] & -> & Hkv)%list_elem_of_fmap. pose proof (proj1 (Hin k v) Hkv) as [Hm Hp].
    assert (Hck : clean (mkKey k)) by (apply Hc; by exists v). exists (mkKey k), (VBytes v). unfold entry_of_item.
    cbn [e_Key e_Value fst snd key_string]. rewrite clean_string by done. split_and!; try done.
    + unfold view. cbn. by rewrite Hm.
    + by intros ->.
  - intros k v Hck Hv Hp. rewrite Hk. unfold view in Hv. destruct (db_map d !! key_string k) as [b|] eqn:Hb; [|done].
    apply (list_elem_of_fmap_2 fst _ (key_string k, b)). by apply Hin.
Qed.

(** C37. Equivalence with the reference evaluation: without an offset or a limit, a
    query of the store, which hands the prefix to the database, is
    [NaiveQueryApply] of all that the database holds, in the order of its keys. *)
Theorem leveldb_query_naive {D} `{LevelDBSpec D} (d : D) (q : Query) :
  db_ok d -> clean_keys d -> q_Offset q = 0%Z -> q_Limit q = 0%Z ->
  exists items, StronglySorted (fun p p' => str_lt p.1 p'.1 = true) items
    /\ (forall k v, (k, v) ∈ items <-> db_map d !! k = Some v)
    /\ (Query_ q d).1 = NaiveQueryApply q (map entry_result (map (entry_of_item q) items)).
Proof.
  intros Hok Hc Ho Hl. destruct (db_iterate_spec None d Hok) as (all & _ & Hs & Hall).
  assert (Hm : forall k v, (k, v) ∈ all <-> db_map d !! k = Some v).
  { intros k v. rewrite Hall. split; [by intros [? _]|by split]. }
  exists all. split_and!; [done..|].
  destruct (db_iterate_spec (range_of q) d Hok) as (items & Hi & Hsi & Hin).
  assert (Hf : items = filter (fun p => HasPrefix p.1 (q_Prefix q) = true) all).
  { apply sorted_same; [done|by apply sorted_filter|]. intros [k v]. rewrite Hin, list_elem_of_filter, Hm.
    unfold range_of. cbn. case_decide as He; [rewrite He|]; naive_solver. }
  unfold Query_, NaiveQueryApply. rewrite (runQuery_all q d items Hi), Ho, Hl. cbn [Z.eqb Z.to_nat drop].
  unfold kept. rewrite Hl. cbn [Z.ltb Z.compare].
  assert ((if decide (q_Prefix q = []) then Ok (map entry_result (map (entry_of_item q) all))
           else NaiveFilter (map entry_result (map (entry_of_item q) all)) (FilterKeyPrefix_Filter (q_Prefix q)))
          = Ok (map entry_result (map (entry_of_item q) items))) as ->.
  { case_decide as He.
    - rewrite Hf, He, filter_all by done. done.
    - change (FilterKeyPrefix_Filter (q_Prefix q)) with (pure_filter (fun e => HasPrefix (e_Key e) (q_Prefix q))).
      rewrite NaiveFilter_entries, Hf. do 2 f_equal.
      assert (Hin' : forall p, p ∈ all -> e_Key (entry_of_item q p) = p.1).
      { intros [k v] Hp%Hm. apply clean_string, Hc. by exists v. }
      clear -Hin'. induction all as [|p l IH]; [done|]. cbn [map]. rewrite !filter_cons, Hin' by by left.
      case_decide; cbn [map]; rewrite IH; try done; intros p' Hp'; apply Hin'; by right. }
  cbn [mbind res_bind]. destruct (fold_res _ (q_Filters q) _) as [qr|e|]; cbn [mbind res_bind]; try done.
  by destruct (fold_res _ (q_Orders q) qr).
Qed.

(** ** A database to evaluate examples with *)

Definition key_lt (p q : bytes * bytes) : bool := str_lt p.1 q.1.
Definition map_iterate (r : option bytes) (d : gmap bytes bytes) : list (bytes * bytes) :=
  sort_Stable key_lt (filter (fun p => HasPrefix p.1 (default [] r) = true) (map_to_list d)).

#[local] Instance map_LevelDB : LevelDB (gmap bytes bytes) := {|
  db_Put k v d := (None, <[k := v]> d);
  db_Get k d := match d !! k with Some v => inr v | None => inl leveldb_ErrNotFound end;
  db_Has k d := inr (bool_decide (is_Some (d !! k)));
  db_Delete k d := (if decide (is_Some (d !! k)) then None else Some leveldb_ErrNotFound, delete k d);
  db_iterate r d := (map_iterate r d, None) |}.

Lemma key_lt_asym x y : key_lt x y = true -> key_lt y x = false.
Proof. apply str_lt_asym. Qed.
Lemma key_lt_negtrans x y z : key_lt x y = false -> key_lt y z = false -> key_lt x z = false.
Proof. apply str_lt_negtrans. Qed.

Lemma strictly_sorted (l : list (bytes * bytes)) :
  StronglySorted (le_of key_lt) l -> NoDup (map fst l) -> StronglySorted (fun p q => str_lt p.1 q.1 = true) l.
Proof.
  induction 1 as [|p l _ IH Hp]; intros Hnd; [constructor|]. cbn [map] in Hnd.
  apply NoDup_cons in Hnd as [Hnin Hnd]. constructor; [by apply IH|]. apply Forall_forall. intros q Hq.
  pose proof (proj1 (Forall_forall _ _) Hp q Hq) as Hle. unfold le_of, key_lt in Hle.
  destruct (str_lt_total p.1 q.1) as [He|[?|?]]; [|done|congruence].
  destruct Hnin. rewrite He. by apply (list_elem_of_fmap_2 fst).
Qed.

#[local] Program Instance map_LevelDBSpec : LevelDBSpec (gmap bytes bytes) := {|
  db_ok _ := True; db_map d := d; db_reports := true |}.
Next Obligation. intros k v d _. by eexists. Qed.
Next Obligation. done. Qed.
Next Obligation. done. Qed.
Next Obligation. intros k d _. by eexists. Qed.
Next Obligation.
  intros r d _. exists (map_iterate r d). split; [done|]. unfold map_iterate. split.
  - apply strictly_sorted; [apply sort_Stable_sorted; [apply key_lt_asym|apply key_lt_negtrans]|].
    rewrite (Permutation_map fst (sort_Stable_perm key_lt _)).
    eapply sublist_NoDup; [|apply (fmap_sublist fst), sublist_filter]. apply NoDup_fst_map_to_list.
  - intros k v. rewrite (sort_Stable_perm key_lt _ : sort_Stable key_lt _ ≡ₚ _).
    rewrite list_elem_of_filter, elem_of_map_to_list. cbn. tauto.
Qed.

Definition two_keys : gmap bytes bytes := {[ str "/a" := [x01]; str "/b" := [x02] ]}.

(** The offset and the limit are applied to what the database holds, before the
    filters: a query for one entry with the value [2] finds none, where the reference
    evaluation finds it. *)
Theorem leveldb_limit_before_filter :
  let q := mkQuery [] [FilterValueCompare_Filter Equal (VBytes [x02]) None] [] 1 0 false in
  (Query_ q two_keys).1 = Ok []
  /\ NaiveQueryApply q (map entry_result (map (entry_of_item q) (map_iterate None two_keys)))
     = Ok [entry_result (mkEntry (str "/b") (VBytes [x02]))].
Proof. vm_compute. split; reflexivity. Qed.

Lemma two_keys_clean : clean_keys two_keys.
Proof.
  intros s [v Hs]. unfold two_keys in Hs. cbn [db_map map_LevelDBSpec] in Hs.
  apply lookup_insert_Some in Hs as [[<- _]|[_ Hs]]; [by vm_compute|].
  apply lookup_singleton_Some in Hs as [<- _]. by vm_compute.
Qed.

Lemma leveldb_refines_map_witness :
  let R := elements_range Key in
  let l := [OPut (NewKey (str "/a")) (VBytes [x01]); OGet (NewKey (str "/a")); ODelete (NewKey (str "/b"))] in
  (run_ops l (∅ : gmap bytes bytes)).1 = (run_ops l MapDatastore.NewMapDatastore).1.
Proof.
  intros R l. apply leveldb_refines_map; [done|exact I|done|]. repeat constructor. by exists [x01].
Defined.

Lemma leveldb_Query_lists_witness :
  exists es, Query_ (prefix_query (str "/a") false) two_keys = (Ok (map entry_result es), two_keys).
Proof.
  destruct (leveldb_Query_lists two_keys (str "/a") false) as (es & H & _); [exact I|apply two_keys_clean|].
  by exists es.
Defined.

Lemma leveldb_query_naive_witness :
  exists items, (Query_ (prefix_query (str "/b") true) two_keys).1
    = NaiveQueryApply (prefix_query (str "/b") true) (map entry_result (map (entry_of_item (prefix_query (str "/b") true)) items)).
Proof.
  destruct (leveldb_query_naive two_keys (prefix_query (str "/b") true)) as (items & _ & _ & H);
    [exact I|apply two_keys_clean|reflexivity|reflexivity|]. exists items. exact H.
Defined.
