(* ===== verification/Stack.v ===== *)
(** * The layers put together

    A block service over a write cache over a blockstore over a namespace over a
    store, as [blockservice.New], [WriteCached] and [NewBlockstore] build them, with
    the offline exchange over the same blockstore. The service is given an abstract
    specification, a map from keys to data, and every stack of correct layers
    implements it; over a flat file store, down to the files. *)

From S2P Require Import Prelude GoList Multihash DsKey Query Datastore Namespace BlockKey Blocks Lru Blockstore WriteCache BlockService.
From S2P Require Flatfs Leveldb.

(** ** Calls of a service *)
Inductive svc_op :=
  | SAddBlock (b : Block)
  | SGetBlock (k : Key)
  | SGetBlocks (done done' : list bool) (ks : list Key)
  | SDeleteBlock (k : Key)
  | SClose.

Inductive svc_out :=
  | OAdd (r : res (Key * option error))
  | OBlock (r : res Block)
  | OBlocks (r : res (list Block))
  | OUnit (r : res unit).

Definition outcome_of {S A : Type} (f : A -> svc_out) (p : A * S) : svc_out * S := (f p.1, p.2).

Definition svc_call {W} `{Blockstore W, Exchange W} (o : svc_op) (s : BlockService W) :
    svc_out * BlockService W :=
  match o with
  | SAddBlock b => outcome_of OAdd (AddBlock b s)
  | SGetBlock k => outcome_of OBlock (GetBlock k s)
  | SGetBlocks done done' ks => outcome_of OBlocks (GetBlocks done done' ks s)
  | SDeleteBlock k => outcome_of OUnit (BlockService.DeleteBlock k s)
  | SClose => outcome_of OUnit (Close s)
  end.

(** Runs the calls in turn. *)
Fixpoint calls {O S R : Type} (call : O -> S -> R * S) (l : list O) (s : S) : list R * S :=
  match l with
  | [] => ([], s)
  | o :: l => let '(r, s) := call o s in let '(rs, s) := calls call l s in (r :: rs, s)
  end.

(** Two machines that answer alike, one call at a time, answer alike. *)
Lemma calls_simulation {O S1 S2 R} (c1 : O -> S1 -> R * S1) (c2 : O -> S2 -> R * S2)
    (P : O -> Prop) (rel : S1 -> S2 -> Prop) l s1 s2 :
  (forall o s1 s2, P o -> rel s1 s2 -> (c1 o s1).1 = (c2 o s2).1 /\ rel (c1 o s1).2 (c2 o s2).2) ->
  Forall P l -> rel s1 s2 ->
  (calls c1 l s1).1 = (calls c2 l s2).1 /\ rel (calls c1 l s1).2 (calls c2 l s2).2.
Proof.
  intros Hstep Hl. revert s1 s2. induction Hl as [|o l Ho Hl IH]; intros s1 s2 Hrel; [done|]. cbn [calls].
  destruct (Hstep o s1 s2 Ho Hrel) as [Hr Hrel'].
  destruct (c1 o s1) as [r1 s1'], (c2 o s2) as [r2 s2']. simpl in *. subst r2.
  destruct (IH s1' s2' Hrel') as [Hrs Hrel''].
  destruct (calls c1 l s1') as [rs1 s1''], (calls c2 l s2') as [rs2 s2'']. simpl in *. by subst.
Qed.

(** ** The specification

    What is stored, whether the service is closed, and what was handed to the
    worker. *)
Record spec := mkSpec {
  sp_exchange : bool;
  sp_closed : bool;
  sp_handed : list Block;
  sp_blocks : gmap Key bytes;
}.

Definition sp_block (a : spec) (k : Key) : option Block := mkBlock k <$> sp_blocks a !! k.
Definition with_blocks (a : spec) (m : gmap Key bytes) : spec :=
  mkSpec (sp_exchange a) (sp_closed a) (sp_handed a) m.

(** What is stored under the key stays. *)
Definition keep (b : Block) (m : gmap Key bytes) : gmap Key bytes :=
  <[Key_ b := default (Data b) (m !! Key_ b)]> m.

Definition spec_call (o : svc_op) (a : spec) : svc_out * spec :=
  match o with
  | SAddBlock b =>
      let a' := with_blocks a (keep b (sp_blocks a)) in
      if sp_closed a then (OAdd (Ok ([], Some (errors_New "blockservice is closed"))), a')
      else (OAdd (Ok (Key_ b, None)), mkSpec (sp_exchange a') false (sp_handed a' ++ [b]) (sp_blocks a'))
  | SGetBlock k =>
      (OBlock (match sp_block a k with
               | Some b => Ok b
               | None => Err (if sp_exchange a then BsErrNotFound else SvcErrNotFound)
               end), a)
  | SGetBlocks done _ ks =>
      let '(out, more) := sent done (omap (sp_block a) ks) in
      (OBlocks (if more is Some _ then if sp_exchange a then Ok out else Panic else Ok out), a)
  | SDeleteBlock k =>
      (OUnit (if sp_blocks a !! k is Some _ then Ok tt else Err DsErrNotFound),
       with_blocks a (delete k (sp_blocks a)))
  | SClose => (OUnit (Ok tt), mkSpec (sp_exchange a) true (sp_handed a) (sp_blocks a))
  end.

Definition spec_New (rem : bool) : spec := mkSpec rem false [] ∅.

(** The calls that are specified: on path-safe keys, and blocks under their hash. *)
Definition svc_good (o : svc_op) : Prop :=
  match o with
  | SAddBlock b => path_safe (Key_ b) /\ genuine b
  | SGetBlock k | SDeleteBlock k => path_safe k
  | SGetBlocks _ _ ks => Forall path_safe ks
  | SClose => True
  end.

(** ** Every service over a correct blockstore implements it *)
Section Refines.
Context {W : Type} {Debug : bool} `{BlockstoreSpec W Debug}.
#[local] Instance own_exchange : Exchange W := Offline.Exchange_.
Implicit Types (s : BlockService W) (a : spec).

Definition implements s a : Prop :=
  has_Exchange s = sp_exchange a /\ worker_closed s = sp_closed a /\ worker_blocks s = sp_handed a
  /\ honest (world s) /\ forall k, path_safe k -> bs_view (world s) k = sp_blocks a !! k.

Lemma implements_block s a k : implements s a -> path_safe k -> stored (world s) k = sp_block a k.
Proof. intros (_ & _ & _ & _ & Hv) Hk. unfold stored, sp_block. by rewrite Hv. Qed.

(** The same blocks in another state of the store. *)
Lemma implements_same s a w :
  implements s a -> honest w -> (forall k, path_safe k -> stored w k = stored (world s) k) ->
  implements (with_world s w) a.
Proof.
  intros (? & ? & ? & _ & Hv) Hw Hs. split_and!; [done..|]. intros k Hk. cbn [world with_world].
  rewrite <- Hv by done. specialize (Hs k Hk). unfold stored in Hs.
  destruct (bs_view w k), (bs_view (world s) k); simpl in *; congruence.
Qed.

(** [Put] of a block under its hash keeps the store honest. *)
Lemma put_honest w b :
  honest w -> path_safe (Key_ b) -> genuine b ->
  exists w', bs_Put b w = (Ok tt, w') /\ honest w'
    /\ forall k, path_safe k -> bs_view w' k
         = if decide (k = Key_ b) then Some (default (Data b) (bs_view w k)) else bs_view w k.
Proof.
  intros Hw Hk Hb. destruct (bs_step_honest (BPut b) w Hw (conj Hk Hb)) as [Hw' _]. simpl in Hw'.
  destruct (bs_Put_spec w b (proj1 Hw) Hk) as (w' & Hp & _ & Hv). rewrite Hp in Hw'. by exists w'.
Qed.

Lemma add_implements s a b :
  svc_good (SAddBlock b) -> implements s a ->
  (svc_call (SAddBlock b) s).1 = (spec_call (SAddBlock b) a).1
  /\ implements (svc_call (SAddBlock b) s).2 (spec_call (SAddBlock b) a).2.
Proof.
  intros [Hk Hb] (Hx & Hc & Hh & Hw & Hv). destruct (put_honest (world s) b Hw Hk Hb) as (w' & Hp & Hw' & Hv').
  assert (Hm : forall k, path_safe k -> bs_view w' k = keep b (sp_blocks a) !! k).
  { intros k Hs. unfold keep. rewrite Hv' by done. destruct (decide (k = Key_ b)) as [->|Hne].
    - by rewrite lookup_insert_eq, Hv.
    - rewrite lookup_insert_ne by done. by apply Hv. }
  cbn [svc_call spec_call]. unfold outcome_of, AddBlock, worker_HasBlock. rewrite Hp. cbn [worker_closed with_world].
  rewrite Hc. destruct (sp_closed a) eqn:Hcl; (split; [done|]); split_and!; try done; cbn; congruence.
Qed.

Lemma get_implements s a k :
  path_safe k -> implements s a ->
  (svc_call (SGetBlock k) s).1 = (spec_call (SGetBlock k) a).1
  /\ implements (svc_call (SGetBlock k) s).2 (spec_call (SGetBlock k) a).2.
Proof.
  intros Hk Hi. pose proof Hi as (Hx & _ & _ & Hw & _). pose proof (implements_block s a k Hi Hk) as Hb.
  cbn [svc_call spec_call]. unfold outcome_of, GetBlock. destruct (get_honest (world s) k Hw Hk) as (w1 & -> & Hw1 & Hv1).
  rewrite Hb. destruct (sp_block a k) as [b|]; [split; [done|by apply implements_same]|].
  rewrite Hx. destruct (sp_exchange a); cbn [andb bool_decide]; [|split; [done|by apply implements_same]].
  rewrite bool_decide_eq_true_2 by done. cbn [ex_GetBlock own_exchange Offline.Exchange_]. unfold Offline.GetBlock.
  destruct (get_honest w1 k Hw1 Hk) as (w2 & -> & Hw2 & Hv2). rewrite Hv1, Hb by done.
  split; [done|]. apply implements_same; [done..|]. intros k' Hk'. by rewrite Hv2, Hv1.
Qed.

Lemma get_blocks_implements s a done_ done' ks :
  Forall path_safe ks -> implements s a ->
  (svc_call (SGetBlocks done_ done' ks) s).1 = (spec_call (SGetBlocks done_ done' ks) a).1
  /\ implements (svc_call (SGetBlocks done_ done' ks) s).2 (spec_call (SGetBlocks done_ done' ks) a).2.
Proof.
  intros Hks Hi. pose proof Hi as (Hx & _ & _ & Hw & _). pose proof (GetBlocks_sent s done_ done' ks Hw Hks) as Hg.
  assert (Hom : omap (stored (world s)) ks = omap (sp_block a) ks).
  { apply omap_ext_in. intros k Hk. apply implements_block; [done|]. by apply (proj1 (Forall_forall _ _) Hks). }
  cbn [svc_call spec_call]. unfold outcome_of. rewrite Hom in Hg.
  destruct (sent done_ (omap (sp_block a) ks)) as [out more]. destruct Hg as (w' & Hg & Hw' & Hv').
  cbn zeta in Hg. unfold own_exchange. rewrite Hg, Hx. split; [done|]. by apply implements_same.
Qed.

Lemma delete_implements s a k :
  path_safe k -> implements s a ->
  (svc_call (SDeleteBlock k) s).1 = (spec_call (SDeleteBlock k) a).1
  /\ implements (svc_call (SDeleteBlock k) s).2 (spec_call (SDeleteBlock k) a).2.
Proof.
  intros Hk (Hx & Hc & Hh & Hw & Hv). destruct (bs_step_honest (BDeleteBlock k) (world s) Hw (conj Hk I)) as [Hw' _].
  simpl in Hw'. cbn [svc_call spec_call]. unfold outcome_of, BlockService.DeleteBlock.
  destruct (bs_DeleteBlock_spec (world s) k (proj1 Hw) Hk) as (w' & Hp & _ & Hv'). rewrite Hp in *. simpl in Hw'.
  rewrite Hv by done. split; [done|]. split_and!; [done..|]. intros k' Hk'. cbn. rewrite Hv' by done.
  destruct (decide (k' = k)) as [->|Hne].
  - by rewrite lookup_delete_eq.
  - rewrite lookup_delete_ne by done. by apply Hv.
Qed.

Lemma svc_call_implements o s a :
  svc_good o -> implements s a ->
  (svc_call o s).1 = (spec_call o a).1 /\ implements (svc_call o s).2 (spec_call o a).2.
Proof.
  intros Ho Hi. destruct o.
  - by apply add_implements.
  - by apply get_implements.
  - by apply get_blocks_implements.
  - by apply delete_implements.
  - destruct Hi as (? & ? & ? & ? & ?). by split.
Qed.

Lemma svc_calls_implement l s a :
  Forall svc_good l -> implements s a ->
  (calls svc_call l s).1 = (calls spec_call l a).1
  /\ implements (calls svc_call l s).2 (calls spec_call l a).2.
Proof. apply calls_simulation. apply svc_call_implements. Qed.
End Refines.

(** ** The stack over a store *)

Abbreviation stacked S := (writecache (blockstore (Namespace.datastore S))).

(** The state of the store at the bottom. *)
Definition bottom {S} `{Datastore S} (s : BlockService (stacked S)) : S :=
  Namespace.raw (datastore (inner (world s))).

Section Stacked.
Context {S : Type} `{Datastore S} (Debug : bool).
#[local] Instance debug_blockstore : Blockstore (blockstore (Namespace.datastore S)) := blockstore_Blockstore Debug.
#[local] Instance stack_exchange : Exchange (stacked S) := Offline.Exchange_.

(** The constructors, one after the other. *)
Definition NewStack (s : option S) (size : Z) (rem : bool) : res (BlockService (stacked S)) :=
  bs ← NewBlockstore s; wc ← WriteCached bs size; New (Some wc) rem.

Definition stack_calls : list svc_op -> BlockService (stacked S) -> list svc_out * BlockService (stacked S) :=
  calls svc_call.

Lemma NewStack_Ok s size rem :
  (0 < size)%Z ->
  NewStack (Some s) size rem = Ok (mkService rem false [] (mkWc (mkCache size GoList.New ∅) (over_store s))).
Proof. intros Hsize. unfold NewStack, WriteCached, Lru.New. cbn. by destruct (Z.leb_spec size 0); [lia|]. Qed.

Context `{!ByteStoreSpec S}.
#[local] Instance ns_bytes : ByteStoreSpec (Namespace.datastore S) := ns_ByteStoreSpec BlockPrefix.

(** Nothing is stored under [/blocks]. *)
Definition no_blocks (s : S) : Prop := forall k, clean k -> bt_view s (Child BlockPrefix k) = None.

Lemma NewStack_implements s size rem :
  bt_wf s -> no_blocks s -> (0 < size)%Z ->
  exists v, NewStack (Some s) size rem = Ok v /\ @implements _ Debug _ _ v (spec_New rem).
Proof.
  intros Hwf Hno Hsize. eexists. split; [by apply NewStack_Ok|].
  assert (Hview : forall k, blocks_view (over_store s) k = None).
  { intros k. unfold blocks_view. cbn. unfold view_below. cbn. by rewrite Hno by apply DsKey_clean. }
  split_and!; [done..| |].
  - split; [|intros k d _ Hd; exfalso; pose proof (Hview k) as Hn; by rewrite (Hd : blocks_view (over_store s) k = _) in Hn].
    split_and!; [by apply New_inv|split_and!; [done|split; [apply (NewKey_clean (str "blocks"))|done]|done]|by intros k _ []].
  - intros k _. cbn [spec_New sp_blocks]. rewrite lookup_empty. apply Hview.
Qed.

(** The bottom store holds the blocks of the specification, each under its key. *)
Lemma implements_bottom (v : BlockService (stacked S)) a k :
  @implements _ Debug _ _ v a -> path_safe k ->
  bt_view (bottom v) (Child BlockPrefix (DsKey k)) = VBytes <$> sp_blocks a !! k.
Proof.
  intros (_ & _ & _ & [(_ & Hwf & _) _] & Hv) Hk. rewrite <- Hv by done.
  pose proof Hwf as (_ & _ & Hp). rewrite <- Hp at 1.
  change (bs_view (world v) k) with (data_of <$> bt_view (datastore (inner (world v))) (DsKey k)).
  change (bt_view (bottom v) ?x) with (bt_view (datastore (inner (world v))) (DsKey k)).
  destruct (bt_view (datastore (inner (world v))) (DsKey k)) as [x|] eqn:Hx; [|done].
  by destruct (bt_bytes _ _ _ Hwf (DsKey_clean k) Hx) as [b ->].
Qed.

Lemma stack_calls_implement s size rem l :
  bt_wf s -> no_blocks s -> (0 < size)%Z -> Forall svc_good l ->
  exists v, NewStack (Some s) size rem = Ok v
    /\ (stack_calls l v).1 = (calls spec_call l (spec_New rem)).1
    /\ @implements _ Debug _ _ (stack_calls l v).2 (calls spec_call l (spec_New rem)).2.
Proof.
  intros Hwf Hno Hsize Hl. destruct (NewStack_implements s size rem Hwf Hno Hsize) as (v & Hv & Hi).
  exists v. split; [done|]. exact (@svc_calls_implement _ Debug _ _ l v (spec_New rem) Hl Hi).
Qed.
End Stacked.

(** ** Theorems *)


(** *** Over a flat file store *)

Lemma empty_disk `{!Flatfs.TempNames, !Flatfs.OsRename, !GoRange bytes} fs tr :
  let B := Flatfs.flatfs_ByteStoreSpec fs in
  @bt_wf _ _ B (Flatfs.mkOS ∅ [] tr) /\ @no_blocks _ _ B (Flatfs.mkOS ∅ [] tr).
Proof.
  intros B. split.
  - split; [done|]. intros dir n Hn. cbn [Flatfs.files_of] in Hn. by rewrite lookup_empty in Hn.
  - intros k Hk. assert (Hc : clean (Child BlockPrefix k)) by (apply Child_clean; [apply NewKey_clean|done]).
    destruct (Flatfs.clean_slash _ Hc) as [b Hb]. cbn. unfold Flatfs.view. rewrite (Flatfs.encode_spec _ _ _ Hb).
    unfold Flatfs.stat. cbn [Flatfs.files_of]. by rewrite lookup_empty.
Qed.

(** The whole stack over an empty directory, as long as no system call fails: each
    block is in the file of its key. *)
Theorem flatfs_stack_refines `{!Flatfs.TempNames, !Flatfs.OsRename, !GoRange bytes} Debug fs tr size rem l :
  (0 < size)%Z -> Forall svc_good l ->
  let F := Flatfs.flatfs_Datastore fs in
  exists v, NewStack (Some (Flatfs.mkOS ∅ [] tr)) size rem = Ok v
    /\ let '(rs, v') := stack_calls Debug l v in
       let '(rs', a') := calls spec_call l (spec_New rem) in
       rs = rs' /\ Flatfs.faults (bottom v') = [] /\ Flatfs.plain (Flatfs.files_of (bottom v'))
       /\ forall k, path_safe k ->
            Flatfs.view fs (Flatfs.files_of (bottom v')) (Child BlockPrefix (DsKey k)) = VBytes <$> sp_blocks a' !! k.
Proof.
  intros Hsize Hl F. set (B := Flatfs.flatfs_ByteStoreSpec fs). destruct (empty_disk fs tr) as [Hwf Hno].
  destruct (@stack_calls_implement _ F Debug B _ size rem l Hwf Hno Hsize Hl) as (v & Hv & Hr & Hi').
  exists v. split; [done|].
  destruct (stack_calls Debug l v) as [rs v'], (calls spec_call l (spec_New rem)) as [rs' a']. cbn [fst snd] in *.
  pose proof Hi' as (_ & _ & _ & [(_ & [Hos _] & _) _] & _).
  split_and!; [done|apply Hos|apply Hos|]. intros k Hk.
  exact (@implements_bottom _ F Debug B v' a' k Hi' Hk).
Qed.

(** *** Over a database *)

(** Over an empty database whose [Delete] reports a missing key and whose calls do
    not fail: the block of a key is the value of [/blocks/] and the key. *)
Theorem leveldb_stack_refines {D} `{Leveldb.LevelDBSpec D} Debug (d : D) size rem l :
  Leveldb.db_reports = true -> Leveldb.db_ok d -> Leveldb.db_map d = ∅ -> (0 < size)%Z -> Forall svc_good l ->
  exists v, NewStack (Some d) size rem = Ok v
    /\ let '(rs, v') := stack_calls Debug l v in
       let '(rs', a') := calls spec_call l (spec_New rem) in
       rs = rs' /\ Leveldb.db_ok (bottom v')
       /\ forall k, path_safe k ->
            Leveldb.db_map (bottom v') !! (key_string (Child BlockPrefix (DsKey k))) = sp_blocks a' !! k.
Proof.
  intros Hrep Hok He Hsize Hl. set (B := Leveldb.leveldb_ByteStoreSpec Hrep).
  assert (Hno : @no_blocks _ _ B d) by (intros k _; cbn; by rewrite He, lookup_empty).
  destruct (@stack_calls_implement _ _ Debug B d size rem l Hok Hno Hsize Hl) as (v & Hv & Hr & Hi').
  exists v. split; [done|].
  destruct (stack_calls Debug l v) as [rs v'], (calls spec_call l (spec_New rem)) as [rs' a']. cbn [fst snd] in *.
  pose proof Hi' as (_ & _ & _ & [(_ & [Hdb _] & _) _] & _). split_and!; [done|apply Hdb|]. intros k Hk.
  pose proof (@implements_bottom _ _ Debug B v' a' k Hi' Hk) as Hb. cbn in Hb.
  destruct (Leveldb.db_map (bottom v') !! _), (sp_blocks a' !! k); cbn in Hb; congruence.
Qed.

(** *** Witnesses *)

Definition example_calls : list svc_op :=
  [SAddBlock abc; SGetBlock (Key_ abc); SGetBlocks [] [] [Key_ abc; Key_ abc]; SGetBlocks [false; true] [] [Key_ abc; Key_ abc];
   SDeleteBlock (Key_ abc); SGetBlock (Key_ abc); SDeleteBlock (Key_ abc); SClose; SAddBlock abc; SGetBlock (Key_ abc)].

Lemma example_calls_good : Forall svc_good example_calls.
Proof.
  assert (Hb : svc_good (SAddBlock abc)) by exact (conj abc_safe abc_genuine).
  assert (Hks : Forall path_safe [Key_ abc; Key_ abc])
    by exact (Forall_cons_2 _ _ _ abc_safe (Forall_cons_2 _ _ _ abc_safe (Forall_nil_2 _))).
  unfold example_calls.
  do 10 (apply Forall_cons_2; [first [exact Hb|exact Hks|exact abc_safe|exact I]|]). apply Forall_nil_2.
Qed.

(** What they answer. *)
Example example_answers :
  (calls spec_call example_calls (spec_New true)).1
  = [OAdd (Ok (Key_ abc, None)); OBlock (Ok abc); OBlocks (Ok [abc; abc]); OBlocks (Ok [abc]);
     OUnit (Ok tt); OBlock (Err BsErrNotFound); OUnit (Err DsErrNotFound); OUnit (Ok tt);
     OAdd (Ok ([], Some (errors_New "blockservice is closed"))); OBlock (Ok abc)].
Proof. vm_compute. reflexivity. Qed.


Lemma flatfs_stack_refines_witness :
  let R := elements_range bytes in
  let F := @Flatfs.flatfs_Datastore Flatfs.zeros Flatfs.unix_rename R Flatfs.example_fs in
  exists v, NewStack (Some (Flatfs.mkOS ∅ [] [])) 1 true = Ok v
    /\ Flatfs.faults (bottom (stack_calls true example_calls v).2) = [].
Proof.
  intros R F.
  destruct (@flatfs_stack_refines Flatfs.zeros Flatfs.unix_rename R true Flatfs.example_fs [] 1 true example_calls)
    as (v & Hv & H).
  - lia.
  - apply example_calls_good.
  - exists v. split; [exact Hv|]. unfold F in *.
    destruct (stack_calls true example_calls v), (calls spec_call example_calls (spec_New true)).
    exact (proj1 (proj2 H)).
Defined.

Lemma leveldb_stack_refines_witness :
  let D := Leveldb.map_LevelDB in
  exists v, NewStack (Some (∅ : gmap bytes bytes)) 1 true = Ok v
    /\ (stack_calls true example_calls v).1 = (calls spec_call example_calls (spec_New true)).1.
Proof.
  intros D.
  destruct (@leveldb_stack_refines _ D Leveldb.map_LevelDBSpec true ∅ 1 true example_calls) as (v & Hv & H).
  - reflexivity.
  - exact I.
  - reflexivity.
  - lia.
  - apply example_calls_good.
  - exists v. split; [exact Hv|]. unfold D in *.
    destruct (stack_calls true example_calls v), (calls spec_call example_calls (spec_New true)).
    exact (proj1 H).
Defined.
