(* ===== verification/Durable.v ===== *)
(** * Blocks on a disk that may fail at any time

    The stack of [Stack.v] over a flat file store, when any system call may fail
    and the machine may stop after any of them: what the disk holds at each of
    these moments, and what a program finds that is started on it again. *)

From stdpp Require Import relations.
From S2P Require Import Prelude GoList Multihash DsKey Query Datastore Namespace BlockKey Blocks Lru Blockstore WriteCache BlockService Stack.
From S2P Require Import Flatfs.

(** ** What calls do to the world, through the layers

    [R] relates the world before a call to the world after it. When every call of
    the blockstore is in [R], so is every call of a write cache on it, and of a
    service. *)
Section Through.
Context {W : Type} `{Blockstore W} (R : W -> W -> Prop) `{!PreOrder R} (P : bs_op -> Prop).

Definition keeps_to : Prop := forall o w, P o -> R w (bs_result o w).2.
Definition svc_keeps (o : svc_op) : Prop :=
  match o with
  | SAddBlock b => P (BPut b)
  | SGetBlock k => P (BGet k)
  | SGetBlocks _ _ ks => Forall (fun k => P (BGet k)) ks
  | SDeleteBlock k => P (BDeleteBlock k)
  | SClose => True
  end.

Context (HR : keeps_to).
#[local] Instance through_exchange : Exchange W := Offline.Exchange_.

Lemma get_keeps k w r w' : P (BGet k) -> bs_Get k w = (r, w') -> R w w'.
Proof. intros Hk Hg. specialize (HR (BGet k) w Hk). cbn in HR. by rewrite Hg in HR. Qed.
Lemma put_keeps b w r w' : P (BPut b) -> bs_Put b w = (r, w') -> R w w'.
Proof. intros Hk Hg. specialize (HR (BPut b) w Hk). cbn in HR. by rewrite Hg in HR. Qed.
Lemma delete_keeps k w r w' : P (BDeleteBlock k) -> bs_DeleteBlock k w = (r, w') -> R w w'.
Proof. intros Hk Hg. specialize (HR (BDeleteBlock k) w Hk). cbn in HR. by rewrite Hg in HR. Qed.

Lemma local_loop_keeps done_ ks misses w r w' :
  Forall (fun k => P (BGet k)) ks -> local_loop done_ ks misses w = (r, w') ->
  R w w' /\ forall out done' ms, r = Ok (out, inr (done', ms)) -> forall k, k ∈ ms -> k ∈ misses \/ k ∈ ks.
Proof.
  intros Hks. revert done_ misses w r w'. induction Hks as [|k ks Hk Hks IH]; intros done_ misses w r w' Hl; cbn in Hl.
  { injection Hl as <- <-. split; [done|]. intros out done' ms [= <- <- <-] k Hin. by left. }
  destruct (bs_Get k w) as [[hit|e|] w1] eqn:Hg; pose proof (get_keeps _ _ _ _ Hk Hg) as H1.
  - destruct (is_done done_); [by injection Hl as <- <-|].
    destruct (local_loop (tail done_) ks misses w1) as [r2 w2] eqn:Hl2. injection Hl as <- <-.
    destruct (IH _ _ _ _ _ Hl2) as [H2 Hm]. split; [by transitivity w1|].
    intros out done' ms Hr k' Hin. destruct r2 as [[out2 rest]| |]; [|done..]. cbn in Hr. injection Hr as <- ->.
    destruct (Hm _ _ _ eq_refl k' Hin); [by left|by right; right].
  - destruct (IH _ _ _ _ _ Hl) as [H2 Hm]. split; [by transitivity w1|].
    intros out done' ms Hr k' Hin. destruct (Hm _ _ _ Hr k' Hin) as [Hin'|Hin']; [|by right; right].
    apply elem_of_app in Hin' as [?| ->%list_elem_of_singleton]; [by left|by right; left].
  - by injection Hl as <- <-.
Qed.

Lemma offline_GetBlocks_keeps done_ ks w :
  Forall (fun k => P (BGet k)) ks -> R w (Offline.GetBlocks done_ ks w).2.
Proof.
  intros Hks. revert done_ w. induction Hks as [|k ks Hk Hks IH]; intros done_ w; [done|]. cbn.
  destruct (bs_Get k w) as [[hit|e|] w1] eqn:Hg; pose proof (get_keeps _ _ _ _ Hk Hg) as H1; [| |done].
  - destruct (is_done done_); [done|]. specialize (IH (tail done_) w1).
    destruct (Offline.GetBlocks (tail done_) ks w1) as [out w2]. by transitivity w1.
  - destruct (is_done done_); [done|]. etransitivity; [exact H1|apply IH].
Qed.

Lemma svc_call_keeps o (s : BlockService W) : svc_keeps o -> R (world s) (world (svc_call o s).2).
Proof.
  intros Ho. destruct o as [b|k|done_ done' ks|k|]; cbn [svc_call outcome_of snd]; cbn in Ho.
  - unfold AddBlock. destruct (bs_Put b (world s)) as [[u|e|] w] eqn:Hp; pose proof (put_keeps _ _ _ _ Ho Hp); try done.
    unfold worker_HasBlock. cbn. by destruct (worker_closed s).
  - unfold BlockService.GetBlock. destruct (bs_Get k (world s)) as [[u|e|] w] eqn:Hg;
      pose proof (get_keeps _ _ _ _ Ho Hg) as H1; try done.
    destruct (bool_decide (e = BsErrNotFound) && has_Exchange s); [|done]. cbn. unfold Offline.GetBlock.
    destruct (bs_Get k w) as [r2 w2] eqn:Hg2. pose proof (get_keeps _ _ _ _ Ho Hg2). by transitivity w.
  - unfold BlockService.GetBlocks. destruct (local_loop done_ ks [] (world s)) as [r w] eqn:Hl.
    destruct (local_loop_keeps _ _ _ _ _ _ Ho Hl) as [H1 Hm]. destruct r as [[hits [[]|[done2 misses]]]|e|]; try done.
    destruct (negb (has_Exchange s)); [done|]. cbn.
    assert (Hms : Forall (fun k => P (BGet k)) misses).
    { apply Forall_forall. intros k Hk. destruct (Hm _ _ _ eq_refl k Hk) as [?%not_elem_of_nil|Hin]; [done|].
      by apply (proj1 (Forall_forall _ _) Ho). }
    pose proof (offline_GetBlocks_keeps done' misses w Hms) as H2.
    destruct (Offline.GetBlocks done' misses w) as [[rb|e|] w2]; cbn in *; by transitivity w.
  - unfold BlockService.DeleteBlock. destruct (bs_DeleteBlock k (world s)) as [r w] eqn:Hd.
    exact (delete_keeps _ _ _ _ Ho Hd).
  - done.
Qed.

Lemma svc_calls_keep l (s : BlockService W) :
  Forall svc_keeps l -> R (world s) (world (calls svc_call l s).2).
Proof.
  intros Hl. revert s. induction Hl as [|o l Ho Hl IH]; intros s; [done|]. cbn [calls].
  pose proof (svc_call_keeps o s Ho) as H1. destruct (svc_call o s) as [r s1]. specialize (IH s1).
  destruct (calls svc_call l s1) as [rs s2]. by transitivity (world s1).
Qed.

(** Through the write cache. *)
Definition R_inner (w w' : writecache W) : Prop := R (inner w) (inner w').
#[export] Instance R_inner_PreOrder : PreOrder R_inner.
Proof. split; [intros w; exact (reflexivity (inner w))|intros w1 w2 w3; exact (@transitivity _ R _ _ _ _)]. Qed.

Lemma then_inner_keeps {A C : Type} (p : res A * Cache Key unit) w (f : A -> W -> res C * W) :
  (forall a, R (inner w) (f a (inner w)).2) -> R_inner w (then_inner p w f).2.
Proof.
  intros Hf. unfold then_inner, R_inner. destruct p as [[a|e|] c]; [|done..].
  specialize (Hf a). by destruct (f a (inner w)) as [x w1].
Qed.
End Through.

Lemma writecache_keeps {W} `{Blockstore W} (R : W -> W -> Prop) `{!PreOrder R} P :
  keeps_to R P -> @keeps_to (writecache W) _ (R_inner R) P.
Proof.
  intros HR o w Ho. destruct o as [b|k|k|k]; cbn.
  - unfold WriteCache.Put. destruct (Lru.Get (Key_ b) (cache w)) as [[[u|]|e|] c] eqn:Hg; try exact (reflexivity (inner w)).
    pose proof (then_inner_keeps R (Lru.Add (Key_ b) tt c) w (fun _ => bs_Put b)) as HT.
    destruct (then_inner _ w _) as [r w']. apply HT. intros _. specialize (HR (BPut b) (inner w) Ho). cbn in HR.
    by destruct (bs_Put b (inner w)).
  - unfold WriteCache.Get. specialize (HR (BGet k) (inner w) Ho). cbn in HR.
    by destruct (bs_Get k (inner w)).
  - unfold WriteCache.Has.
    pose proof (then_inner_keeps R (Lru.Get k (cache w)) w
      (fun ok s => match ok with Some _ => (Ok true, s) | None => bs_Has k s end)) as HT.
    destruct (then_inner _ w _) as [r w']. apply HT. intros [u|]; [exact (reflexivity (inner w))|].
    specialize (HR (BHas k) (inner w) Ho). cbn in HR. by destruct (bs_Has k (inner w)).
  - unfold WriteCache.DeleteBlock.
    pose proof (then_inner_keeps R (Lru.Remove k (cache w)) w (fun _ => bs_DeleteBlock k)) as HT.
    destruct (then_inner _ w _) as [r w']. apply HT. intros _.
    specialize (HR (BDeleteBlock k) (inner w) Ho). cbn in HR. by destruct (bs_DeleteBlock k (inner w)).
Qed.

(** ** What the disk holds *)
Section Disk.
Context `{!TempNames, !OsRename, !GoRange bytes} (fs : Datastore) (kept : Key -> Prop).
#[local] Instance flat : Datastore.Datastore os := flatfs_Datastore fs.

(** The value of a block's file. *)
Definition block_at (t : tree) (k : Key) : option value := view fs t (Child BlockPrefix (DsKey k)).

(** Every block on the disk is under the hash of its data, and the kept ones are
    there. *)
Record disk_ok (t : tree) : Prop := {
  dk_plain : plain t;
  dk_genuine k d : path_safe k -> block_at t k = Some (VBytes d) -> genuine (mkBlock k d);
  dk_kept k : path_safe k -> kept k -> block_at t k <> None;
}.

Lemma block_key_clean k : clean (Child BlockPrefix (DsKey k)).
Proof. apply Child_clean; [apply NewKey_clean|apply DsKey_clean]. Qed.

Lemma block_key_inj k1 k2 :
  path_safe k1 -> path_safe k2 -> Child BlockPrefix (DsKey k1) = Child BlockPrefix (DsKey k2) -> k1 = k2.
Proof.
  intros H1 H2 He. apply DsKey_inj; [done..|]. revert He. apply Child_inj; [apply NewKey_clean|apply DsKey_clean..].
Qed.

Lemma disk_ok_same t t' : disk_ok t -> plain t' -> same_view (view fs) t t' -> disk_ok t'.
Proof.
  intros [Hp Hg Hk] Hp' Hs. split; [done|..]; unfold block_at in *.
  - intros k d Hsafe. rewrite Hs by apply block_key_clean. by apply Hg.
  - intros k Hsafe. rewrite Hs by apply block_key_clean. by apply Hk.
Qed.

#[local] Instance disk_ok_Seen : Seen disk_ok.
Proof. split; [by intros t []|]. intros t t' Ht Hp Hs. eapply disk_ok_same; [done..|]. by apply view_stat. Qed.

(** A block under its hash comes, or a block goes. *)
Lemma disk_ok_new t t' b :
  disk_ok t -> path_safe (Key_ b) -> genuine b ->
  shows_new fs (Child BlockPrefix (DsKey (Key_ b))) (Some (VBytes (Data b))) t t' -> disk_ok t'.
Proof.
  intros [Hp Hg Hk] Hsafe Hb [Hp' Hv]. split; [done|..]; unfold block_at in *; intros k.
  - intros d Hs. rewrite Hv by apply block_key_clean. case_decide as He; [|by apply Hg].
    apply block_key_inj in He as ->; [|done..]. intros [= <-]. by destruct b.
  - intros Hs. rewrite Hv by apply block_key_clean. case_decide as He; [done|by apply Hk].
Qed.

Lemma disk_ok_gone t t' k :
  disk_ok t -> path_safe k -> ~ kept k -> plain t' ->
  put_view (view fs) (Child BlockPrefix (DsKey k)) None t t' -> disk_ok t'.
Proof.
  intros [Hp Hg Hk] Hsafe Hn Hp' Hv. split; [done|..]; unfold block_at in *; intros k'.
  - intros d Hs. rewrite Hv by apply block_key_clean. case_decide; [done|by apply Hg].
  - intros Hs Hkept. rewrite Hv by apply block_key_clean. case_decide as He; [|by apply Hk].
    apply block_key_inj in He as ->; done.
Qed.

(** From a disk in order, only through disks in order. *)
Definition safely (s s' : os) : Prop := disk_ok (files_of s) -> grows disk_ok s s'.
#[export] Instance safely_PreOrder : PreOrder safely.
Proof.
  split; [intros s Hs; by apply grows_refl|]. intros s1 s2 s3 H1 H2 Hs. pose proof (H1 Hs) as G1.
  eapply grows_trans; [exact G1|]. apply H2. by destruct G1 as (_ & _ & _ & ?).
Qed.

Lemma on_path_safely {A B} k (call : bytes -> bytes -> io A) (f : errno + A -> res B) s :
  (forall dir path s, safely s (call dir path s).2) -> safely s (on_path fs k call f s).2.
Proof.
  intros Hc. unfold on_path. destruct (encode fs k) as [[dir path]| |]; try done.
  specialize (Hc dir path s). by destruct (call dir path s).
Qed.

Lemma Get_safely k s : safely s (Get fs k s).2.
Proof. apply on_path_safely. intros dir path s' Hs. by apply grows_quiet. Qed.
Lemma Has_safely k s : safely s (Has fs k s).2.
Proof. apply on_path_safely. intros dir path s' Hs. by apply grows_quiet. Qed.

Lemma Delete_safely k s : path_safe k -> ~ kept k -> safely s (Delete fs (Child BlockPrefix (DsKey k)) s).2.
Proof.
  intros Hk Hn Hs. destruct (clean_slash _ (block_key_clean k)) as [b Hb].
  unfold Delete, on_path. rewrite (encode_spec _ _ _ Hb).
  assert (G : grows disk_ok s (Remove (dir_of fs b) (path_of b) s).2).
  { apply grows_syscall; [done|]. pose proof (dk_plain _ Hs) as Hp.
    destruct (stat_key fs _ _ b Hp (block_key_clean k) Hb) as [(d & Hst & _)|[Hst _]]; rewrite Hst; [|done]. cbn [snd].
    destruct (remove_view fs _ _ b d Hp (block_key_clean k) Hb Hst) as (Hp' & _ & Hv). by apply (disk_ok_gone _ _ k Hs). }
  by destruct (Remove _ _ s).
Qed.

Lemma grows_weaken (P Q : tree -> Prop) s s' : (forall t, P t -> Q t) -> grows P s s' -> grows Q s s'.
Proof. intros HPQ (us & Ht & Hus & HP). exists us. split_and!; [done| |auto]. by eapply Forall_impl. Qed.

Lemma Put_turns b s :
  disk_ok (files_of s) -> path_safe (Key_ b) ->
  let '(r, s') := Put fs (Child BlockPrefix (DsKey (Key_ b))) (VBytes (Data b)) s in
  exists c, turns (shows_old fs (files_of s))
      (shows_new fs (Child BlockPrefix (DsKey (Key_ b))) (Some (VBytes (Data b))) (files_of s)) c s s'
    /\ (r = Ok tt -> c = true).
Proof.
  intros Hs Hk. destruct (clean_slash _ (block_key_clean (Key_ b))) as [p Hp]. unfold Put.
  rewrite (encode_spec _ _ _ Hp).
  destruct (put_file_turns fs _ p (Data b) (block_key_clean (Key_ b)) Hp (files_of s) s) as (c & T & Hr);
    [split; [apply Hs|done]|].
  destruct (put_file _ _ _ s) as [r s']. exists c. split; [done|]. destruct r as [e|[]]; [done|]. by intros _; apply Hr.
Qed.

Lemma Put_safely b s :
  path_safe (Key_ b) -> genuine b -> safely s (Put fs (Child BlockPrefix (DsKey (Key_ b))) (VBytes (Data b)) s).2.
Proof.
  intros Hk Hb Hs. pose proof (Put_turns b s Hs Hk) as HT.
  destruct (Put _ _ _ s) as [r s']. destruct HT as (c & T & _). cbn [snd].
  assert (Hold : forall t, shows_old fs (files_of s) t -> disk_ok t) by (intros t []; by eapply disk_ok_same).
  assert (Hnew : forall t, shows_new fs (Child BlockPrefix (DsKey (Key_ b))) (Some (VBytes (Data b))) (files_of s) t ->
    disk_ok t) by (intros t Ht; by eapply disk_ok_new).
  destruct c; [|exact (grows_weaken _ _ _ _ Hold T)]. destruct T as (s1 & s2 & G1 & E2 & Q2 & G2).
  eapply grows_trans; [exact (grows_weaken _ _ _ _ Hold G1)|].
  eapply grows_trans; [|exact (grows_weaken _ _ _ _ Hnew G2)].
  exists [files_of s2]. split_and!; [done|constructor; [by apply Hnew|constructor]|by apply Hnew].
Qed.
End Disk.

(** ** Through the blockstore *)
Section Blocks.
Context `{!TempNames, !OsRename, !GoRange bytes} (fs : Datastore) (kept : Key -> Prop) (Debug : bool).
#[local] Instance flat_store : Datastore.Datastore os := flatfs_Datastore fs.
#[local] Instance flat_blockstore : Blockstore (blockstore (Namespace.datastore os)) := blockstore_Blockstore Debug.
Abbreviation disk_ok := (disk_ok fs kept).

(** The calls that keep the disk in order. *)
Definition careful (o : bs_op) : Prop :=
  match o with
  | BPut b => path_safe (Key_ b) /\ genuine b
  | BDeleteBlock k => path_safe k /\ ~ kept k
  | _ => True
  end.

Definition blocks_safely (w w' : blockstore (Namespace.datastore os)) : Prop :=
  forall s, w = over_store s -> exists s', w' = over_store s' /\ safely fs kept s s'.
#[export] Instance blocks_safely_PreOrder : PreOrder blocks_safely.
Proof.
  split; [intros w s ->; by exists s|]. intros w1 w2 w3 H1 H2 s Hs. destruct (H1 s Hs) as (s' & Hs' & G1).
  destruct (H2 s' Hs') as (s'' & Hs'' & G2). exists s''. split; [done|by transitivity s'].
Qed.

(** A call on the datastore of the blockstore, as the call on the disk. *)
Lemma over_disk {A : Type} (p : res A * os) s :
  safely fs kept s p.2 ->
  forall w, w = mkBs (on_child (over (ns BlockPrefix s)) p).2 -> exists s', w = over_store s' /\ safely fs kept s s'.
Proof. intros Hs w ->. by exists p.2. Qed.

Lemma blockstore_keeps : keeps_to blocks_safely careful.
Proof.
  assert (Hp : forall s, prefixed (ns BlockPrefix s)) by (intros s; split; [apply (NewKey_clean (str "blocks"))|done]).
  intros o w Ho s ->. destruct o as [b|k|k|k];
    cbn [bs_result bs_Put bs_Get bs_Has bs_DeleteBlock flat_blockstore blockstore_Blockstore].
  - destruct Ho as [Hk Hb]. unfold Blockstore.Put. cbn [datastore over_store]. rewrite (ns_Has (ns BlockPrefix s)) by apply Hp.
    pose proof (Has_safely fs kept (Child BlockPrefix (DsKey (Key_ b))) s) as Hh.
    cbn [Namespace.prefix ns Namespace.raw]. change (Namespace.raw (ns BlockPrefix s)) with s.
    change (ds_Has ?x s) with (Has fs x s). destruct (Has fs _ s) as [r s1]. cbn [snd] in Hh.
    assert (Hput : forall s1, safely fs kept s s1 -> exists s', mkBs (on_child (over (ns BlockPrefix s1))
        (Flatfs.Put fs (Child BlockPrefix (DsKey (Key_ b))) (VBytes (Data b)) s1)).2 = over_store s' /\ safely fs kept s s').
    { intros s2 H2. eexists. split; [done|]. transitivity s2; [done|]. by apply Put_safely. }
    destruct r as [[|]|e|]; cbn [on_child fst snd].
    + by exists s1.
    + rewrite (ns_Put (ns BlockPrefix s1)) by apply Hp. exact (Hput s1 Hh).
    + rewrite (ns_Put (ns BlockPrefix s1)) by apply Hp. exact (Hput s1 Hh).
    + by exists s1.
  - unfold Blockstore.Get. cbn [datastore over_store]. rewrite (ns_Get (ns BlockPrefix s)) by apply Hp.
    eapply over_disk; [apply Get_safely|]. cbn. done.
  - unfold Blockstore.Has. cbn [datastore over_store]. rewrite (ns_Has (ns BlockPrefix s)) by apply Hp.
    eapply over_disk; [apply Has_safely|]. cbn. done.
  - destruct Ho as [Hk Hn]. unfold Blockstore.DeleteBlock. cbn [datastore over_store]. rewrite (ns_Delete (ns BlockPrefix s)) by apply Hp.
    eapply over_disk; [by apply Delete_safely|]. cbn. done.
Qed.
End Blocks.

(** ** After a crash *)
Section Restart.
Context `{!TempNames, !OsRename, !GoRange bytes} (fs : Datastore) (Debug : bool).
#[local] Instance restart_store : Datastore.Datastore os := flatfs_Datastore fs.

(** A blockstore made over the disk as it was found, on a machine that works. *)
Definition restarted (t : tree) : blockstore (Namespace.datastore os) := over_store (mkOS t [] []).
Definition read_block (t : tree) (k : Key) : res Block := (Blockstore.Get Debug k (restarted t)).1.

(** No key need be there. *)
Definition none_kept (k : Key) : Prop := False.

Lemma restarted_honest kept t :
  disk_ok fs kept t ->
  @honest _ Debug _ (@blockstore_Spec Debug _ _ (@ns_ByteStoreSpec _ _ (flatfs_ByteStoreSpec fs) BlockPrefix)) (restarted t)
  /\ forall k, blocks_view (H0 := @ns_ByteStoreSpec _ _ (flatfs_ByteStoreSpec fs) BlockPrefix) (restarted t) k
               = data_of <$> block_at fs t k.
Proof.
  intros Hd. split; [|done]. split.
  - split; [split; [done|apply Hd]|]. split; [|done]. split; [apply (NewKey_clean (str "blocks"))|done].
  - intros k d Hk Hv. change (data_of <$> block_at fs t k = Some d) in Hv.
    destruct (block_at fs t k) as [v|] eqn:Hb; [|done]. injection Hv as <-. apply (dk_genuine _ _ _ Hd); [done|].
    rewrite Hb. f_equal. unfold block_at, view in Hb. destruct (encode fs _) as [[dir path]| |]; try done.
    destruct (stat dir path t) as [|[d|]]; try done. by injection Hb as <-.
Qed.

(** It finds the kept blocks, and under every key nothing or the data of that hash. *)
Lemma read_block_ok kept t k :
  disk_ok fs kept t -> path_safe k ->
  (exists b, read_block t k = Ok b /\ genuine b /\ Key_ b = k)
  \/ ~ kept k /\ read_block t k = Err BsErrNotFound.
Proof.
  intros Hd Hk. destruct (restarted_honest kept t Hd) as [Hh Hv].
  destruct (get_honest (H := blockstore_Blockstore Debug) (restarted t) k Hh Hk) as (w & Hg & _).
  assert (Hr : read_block t k = match data_of <$> block_at fs t k with
    | Some d => Ok (mkBlock k d) | None => Err BsErrNotFound end).
  { etransitivity; [exact (f_equal fst Hg)|]. cbn [fst]. unfold stored.
    change (bs_view (restarted t) k) with (data_of <$> block_at fs t k). by destruct (block_at fs t k). }
  rewrite Hr. destruct (block_at fs t k) as [v|] eqn:Hb; [left|right].
  - exists (mkBlock k (data_of v)). split_and!; [done| |done]. apply Hh; [done|].
    change (data_of <$> block_at fs t k = Some (data_of v)). by rewrite Hb.
  - split; [|done]. intros Hkept. by apply (dk_kept _ _ _ Hd k).
Qed.
End Restart.

(** ** Theorems *)

(** Calls that delete no kept block. *)
Definition spares (kept : Key -> Prop) (o : svc_op) : Prop :=
  match o with SDeleteBlock k => ~ kept k | _ => True end.

Lemma svc_keeps_careful kept o : svc_good o -> spares kept o -> svc_keeps (careful kept) o.
Proof. destruct o; cbn; try done. intros _ _. by apply Forall_true. Qed.

Lemma svc_keep_careful kept l :
  Forall svc_good l -> Forall (spares kept) l -> Forall (svc_keeps (careful kept)) l.
Proof. induction 1 as [|o l Ho Hl IH]; intros Hs; [constructor|]. inversion Hs; subst. constructor; [by apply svc_keeps_careful|auto]. Qed.

(** What a restart reads at each of the trees. *)
Definition reads_ok `{!TempNames, !OsRename, !GoRange bytes} (fs : Datastore) (Debug : bool) (kept : Key -> Prop)
    (t : tree) : Prop :=
  forall k, path_safe k ->
    (exists b, read_block fs Debug t k = Ok b /\ genuine b /\ Key_ b = k)
    \/ ~ kept k /\ read_block fs Debug t k = Err BsErrNotFound.

Lemma disk_ok_reads `{!TempNames, !OsRename, !GoRange bytes} fs Debug kept t :
  disk_ok fs kept t -> reads_ok fs Debug kept t.
Proof. intros Hd k Hk. by apply read_block_ok. Qed.

Lemma grows_reads `{!TempNames, !OsRename, !GoRange bytes} fs Debug kept s s' :
  grows (disk_ok fs kept) s s' ->
  exists us, trace s' = trace s ++ us /\ Forall (reads_ok fs Debug kept) us.
Proof. intros (us & Ht & Hus & _). exists us. split; [done|]. eapply Forall_impl; [exact Hus|]. by apply disk_ok_reads. Qed.


(** ** A block that was added stays *)
Section Added.
Context `{!TempNames, !OsRename, !GoRange bytes} (fs : Datastore) (kept : Key -> Prop) (Debug : bool).
#[local] Instance added_store : Datastore.Datastore os := flatfs_Datastore fs.
#[local] Instance added_blockstore : Blockstore (blockstore (Namespace.datastore os)) := blockstore_Blockstore Debug.
#[local] Instance added_exchange : Exchange (blockstore (Namespace.datastore os)) := Offline.Exchange_.
Implicit Types (s : os) (b : Block).

(** A file that [Has] sees is there. *)
Lemma Has_on_disk b s s1 :
  plain (files_of s) -> Has fs (Child BlockPrefix (DsKey (Key_ b))) s = (Ok true, s1) ->
  block_at fs (files_of s1) (Key_ b) <> None.
Proof.
  intros Hd. destruct (clean_slash _ (block_key_clean (Key_ b))) as [p Hb]. unfold Has, on_path, block_at.
  rewrite (encode_spec _ _ _ Hb). unfold Stat. intros Hst.
  pose proof (quiet_files (stat (dir_of fs p) (path_of p)) s) as Hq.
  destruct (syscall_cases undamaged (fun t => (stat (dir_of fs p) (path_of p) t, t)) s) as [(msg & n & Hr & _)|[Hr _]];
    destruct (syscall _ _ s) as [r s2]; cbn [fst snd] in *; subst r; [done|]. injection Hst as Hr <-. rewrite Hq.
  destruct (stat_key fs _ _ p Hd (block_key_clean (Key_ b)) Hb) as [(d & _ & ->)|[He _]]; [done|].
  by rewrite He in Hr.
Qed.

(** [Put] that returns without an error has the block on the disk. *)
Lemma flat_Put_on_disk b s s1 :
  disk_ok fs none_kept (files_of s) -> path_safe (Key_ b) ->
  Flatfs.Put fs (Child BlockPrefix (DsKey (Key_ b))) (VBytes (Data b)) s = (Ok tt, s1) ->
  block_at fs (files_of s1) (Key_ b) <> None.
Proof.
  intros Hd Hk Hp. pose proof (Put_turns fs none_kept b s Hd Hk) as HT. rewrite Hp in HT. destruct HT as (c & T & Hc).
  rewrite (Hc eq_refl) in T. apply turns_end in T as [_ T]. unfold block_at.
  rewrite T by apply block_key_clean. by rewrite decide_True.
Qed.

Lemma Put_on_disk b s w :
  disk_ok fs none_kept (files_of s) -> path_safe (Key_ b) -> Blockstore.Put b (over_store s) = (Ok tt, w) ->
  exists s', w = over_store s' /\ block_at fs (files_of s') (Key_ b) <> None.
Proof.
  intros Hd Hk Hw. assert (Hp : forall s, prefixed (ns BlockPrefix s))
    by (intros s1; split; [apply (NewKey_clean (str "blocks"))|done]).
  unfold Blockstore.Put in Hw. cbn [datastore over_store] in Hw. rewrite (ns_Has (ns BlockPrefix s)) in Hw by apply Hp.
  cbn [Namespace.prefix ns] in Hw. change (Namespace.raw (ns BlockPrefix s)) with s in Hw.
  change (ds_Has ?x s) with (Has fs x s) in Hw.
  pose proof (Has_safely fs none_kept (Child BlockPrefix (DsKey (Key_ b))) s Hd) as (_ & _ & _ & Hd1).
  pose proof (Has_on_disk b s) as Hhas. destruct (Has fs _ s) as [r s1]. cbn [snd on_child fst] in *.
  assert (Hput : (let '(r, d) := ds_Put (DsKey (Key_ b)) (VBytes (Data b)) (ns BlockPrefix s1) in (r, mkBs d)) = (Ok tt, w) ->
    exists s', w = over_store s' /\ block_at fs (files_of s') (Key_ b) <> None).
  { rewrite (ns_Put (ns BlockPrefix s1)) by apply Hp. intros Hw'. pose proof (flat_Put_on_disk b s1) as HT.
    change (Namespace.raw (ns BlockPrefix s1)) with s1 in Hw'. change (ds_Put ?x ?y s1) with (Flatfs.Put fs x y s1) in Hw'.
    cbn [Namespace.prefix ns] in Hw'. destruct (Flatfs.Put fs _ _ s1) as [r2 s2]. cbn [on_child fst snd] in Hw'.
    injection Hw' as -> <-. exists s2. split; [done|]. by apply HT. }
  destruct r as [[|]|e|]; [|by apply Hput..|done]. injection Hw as <-. exists s1. split; [done|]. by apply Hhas; [apply Hd|].
Qed.

(** A service without a write cache. *)
Abbreviation plain_service := (BlockService (blockstore (Namespace.datastore os))).
Definition plain_call : svc_op -> plain_service -> svc_out * plain_service := svc_call.
Definition disk_of (v : plain_service) : os := Namespace.raw (datastore (world v)).

(** The disk after its calls. *)
Lemma plain_calls_safely l (v : plain_service) s :
  world v = over_store s -> disk_ok fs kept (files_of s) -> Forall svc_good l -> Forall (spares kept) l ->
  exists s', world (calls plain_call l v).2 = over_store s' /\ grows (disk_ok fs kept) s s'.
Proof.
  intros Hv Hd Hl Hs.
  destruct (svc_calls_keep _ _ (blockstore_keeps fs kept Debug) l v (svc_keep_careful kept l Hl Hs) s Hv) as (s' & Hs' & G).
  exists s'. split; [exact Hs'|by apply G].
Qed.

Lemma added_on_disk (v : plain_service) s b k :
  world v = over_store s -> disk_ok fs none_kept (files_of s) -> svc_good (SAddBlock b) ->
  (plain_call (SAddBlock b) v).1 = OAdd (Ok (k, None)) ->
  exists s1, world (plain_call (SAddBlock b) v).2 = over_store s1 /\ disk_ok fs (eq (Key_ b)) (files_of s1).
Proof.
  intros Hv Hd [Hk Hgen] Hadd.
  destruct (svc_call_keeps _ _ (blockstore_keeps fs none_kept Debug) (SAddBlock b) v (conj Hk Hgen) s Hv) as (s1 & Hs1 & G1).
  exists s1. split; [exact Hs1|]. destruct (G1 Hd) as (_ & _ & _ & [Hp Hg _]). split; [done..|]. intros k' _ <-.
  revert Hadd Hs1. unfold plain_call. cbn [svc_call outcome_of fst snd]. unfold AddBlock. rewrite Hv.
  change (bs_Put b (over_store s)) with (Blockstore.Put b (over_store s)).
  pose proof (Put_on_disk b s) as HP. destruct (Blockstore.Put b (over_store s)) as [[[]|e|] w]; [|done..].
  destruct (HP w Hd Hk eq_refl) as (s2 & -> & Hon). unfold worker_HasBlock. cbn [worker_closed with_world].
  intros _. assert (Hinj : forall s2 s1 : os, over_store s2 = over_store s1 -> s2 = s1) by (intros ? ? E; by injection E).
  destruct (worker_closed v); cbn; intros <-%Hinj; done.
Qed.
End Added.


(** ** Witnesses *)

Lemma empty_disk_ok `{!TempNames, !OsRename, !GoRange bytes} fs : disk_ok fs none_kept ∅.
Proof.
  assert (Hn : forall k, block_at fs ∅ k = None).
  { intros k. destruct (clean_slash _ (block_key_clean k)) as [b Hb]. unfold block_at, view.
    rewrite (encode_spec _ _ _ Hb). unfold stat. by rewrite lookup_empty. }
  split; [intros dir n Hd; by rewrite lookup_empty in Hd| |by intros k _ []].
  intros k d _ Hb. by rewrite Hn in Hb.
Qed.

(** The write of the first block fails after one byte, and so does removing what it
    left. *)
Definition bad_disk : os :=
  mkOS ∅ [None; None; None; None; None; None; Some ("no space left on device"%string, 1); None; Some ("I/O error"%string, 0)] [].


(** The check whether the block is there fails; the block is written all the same. *)
Definition blind_disk : os := mkOS ∅ [Some ("I/O error"%string, 0)] [].

