(* ===== verification/System.v ===== *)
(** * The service and its worker, together

    The block service of [blockservice/blockservice.go] with many clients, over one
    blockstore that its offline exchange ([exchange/offline/offline.go]) shares, and
    the worker of [blockservice/worker/worker.go] that announces the added blocks to
    that exchange in the background: every interleaving of the clients' accesses to
    the blockstore, of the hand-over of blocks, and of the worker's steps.

    A step is one call of the blockstore, one channel operation or one step of the
    worker. [AddBlock] is two: [Put], and [HasBlock] of the worker, where the client
    may wait. [GetBlock] is one or two: the local [Get], and after a miss the
    exchange's. *)

From S2P Require Import Prelude GoList Multihash DsKey Query Datastore Namespace BlockKey Blocks BlockList Worker Blockstore BlockService Stack.

Section System.
Context {W : Type} `{Blockstore W} (c : Config).
#[local] Instance shared_exchange : Exchange W := Offline.Exchange_.

Record system := mkSystem {
  svc : BlockService W;
  adding : list Block;   (* clients in AddBlock, at the select of HasBlock *)
  asking : list Key;     (* clients in GetBlock that missed, before the exchange's *)
  bg : worker;
}.

Inductive event :=
  | EvPut (b : Block)                           (* AddBlock has put the block *)
  | EvAdded (b : Block) (r : Key * option error)  (* AddBlock returns *)
  | EvMiss (k : Key)
  | EvGot (k : Key) (r : res Block)             (* GetBlock returns *)
  | EvDeleted (k : Key) (r : res unit)          (* DeleteBlock returns *)
  | EvClosed                                    (* Close returns *)
  | EvAnnounced (b : Block)                     (* a child calls the exchange *)
  | EvWorker.                                   (* any other step of the worker *)

Inductive sys_step : system -> event -> system -> Prop :=
  | sys_Put s a q g b w :
      bs_Put b (world s) = (Ok tt, w) ->
      sys_step (mkSystem s a q g) (EvPut b) (mkSystem (with_world s w) (b :: a) q g)
  | sys_Put_fails s a q g b e w :
      bs_Put b (world s) = (Err e, w) ->
      sys_step (mkSystem s a q g) (EvAdded b (Key_ b, Some e)) (mkSystem (with_world s w) a q g)
  | sys_accept s a1 a2 q g b s' g' :
      Worker.step c true g (Accept b) (Run g') -> worker_HasBlock b s = (None, s') ->
      sys_step (mkSystem s (a1 ++ b :: a2) q g) (EvAdded b (Key_ b, None)) (mkSystem s' (a1 ++ a2) q g')
  | sys_reject s a1 a2 q g b e s' :
      worker_HasBlock b s = (Some e, s') ->
      sys_step (mkSystem s (a1 ++ b :: a2) q g) (EvAdded b ([], Some (errors_New "blockservice is closed")))
        (mkSystem s' (a1 ++ a2) q g)
  | sys_hit s a q g k b w :
      bs_Get k (world s) = (Ok b, w) ->
      sys_step (mkSystem s a q g) (EvGot k (Ok b)) (mkSystem (with_world s w) a q g)
  | sys_miss s a q g k w :
      bs_Get k (world s) = (Err BsErrNotFound, w) -> has_Exchange s = true ->
      sys_step (mkSystem s a q g) (EvMiss k) (mkSystem (with_world s w) a (k :: q) g)
  | sys_fail s a q g k e w :
      bs_Get k (world s) = (Err e, w) -> e <> BsErrNotFound \/ has_Exchange s = false ->
      sys_step (mkSystem s a q g) (EvGot k (Err SvcErrNotFound)) (mkSystem (with_world s w) a q g)
  | sys_ask s a q1 q2 g k r w :
      ex_GetBlock k (world s) = (r, w) ->
      sys_step (mkSystem s a (q1 ++ k :: q2) g) (EvGot k r) (mkSystem (with_world s w) a (q1 ++ q2) g)
  | sys_delete s a q g k r s' :
      DeleteBlock k s = (r, s') ->
      sys_step (mkSystem s a q g) (EvDeleted k r) (mkSystem s' a q g)
  | sys_close s a q g s' :
      closed g -> Close s = (Ok tt, s') ->
      sys_step (mkSystem s a q g) EvClosed (mkSystem s' a q g)
  | sys_announce s a q g b g' r w :
      Worker.step c true g Internal (Run g') -> announced g' = announced g ++ [b] ->
      ex_HasBlock b (world s) = (r, w) ->
      sys_step (mkSystem s a q g) (EvAnnounced b) (mkSystem (with_world s w) a q g')
  | sys_worker s a q g l g' :
      Worker.step c true g l (Run g') -> (forall b, l <> Accept b) -> announced g' = announced g ->
      sys_step (mkSystem s a q g) EvWorker (mkSystem s a q g').

Inductive runs : system -> list event -> system -> Prop :=
  | runs_refl y : runs y [] y
  | runs_step y1 e y2 es y3 : sys_step y1 e y2 -> runs y2 es y3 -> runs y1 (e :: es) y3.

Definition start (w : W) : system := mkSystem (mkService true false [] w) [] [] (NewWorker c).

(** Blocks whose [AddBlock] returned without an error. *)
Definition added_of (es : list event) : list Block :=
  omap (fun e => match e with EvAdded b (_, None) => Some b | _ => None end) es.
End System.

(** ** The specification: a map, one event at a time *)

(** What an event says of the map, and what it makes of it. *)
Definition fits (e : event) (m : gmap Key bytes) : Prop :=
  match e with
  | EvMiss k => m !! k = None
  | EvGot k r => r = match m !! k with Some d => Ok (mkBlock k d) | None => Err BsErrNotFound end
  | EvDeleted k r => r = if m !! k is Some _ then Ok tt else Err DsErrNotFound
  | EvAdded b (k, None) => k = Key_ b
  | EvAdded b (k, Some e) => k = [] /\ e = errors_New "blockservice is closed"
  | _ => True
  end.
Definition after (e : event) (m : gmap Key bytes) : gmap Key bytes :=
  match e with
  | EvPut b | EvAnnounced b => keep b m
  | EvDeleted k _ => delete k m
  | _ => m
  end.
Fixpoint replays (es : list event) (m : gmap Key bytes) : Prop :=
  match es with [] => True | e :: es => fits e m /\ replays es (after e m) end.
Definition final (es : list event) (m : gmap Key bytes) : gmap Key bytes := foldl (fun m e => after e m) m es.

(** The calls of the clients are good ones. *)
Definition ev_good (e : event) : Prop :=
  match e with
  | EvPut b | EvAdded b _ => path_safe (Key_ b) /\ genuine b
  | EvMiss k | EvGot k _ | EvDeleted k _ => path_safe k
  | _ => True
  end.

(** ** Every interleaving is one *)
Section Linear.
Context {W : Type} {Debug : bool} `{BlockstoreSpec W Debug} (c : Config).
Abbreviation system := (system (W := W)).

Definition good_block (b : Block) : Prop := path_safe (Key_ b) /\ genuine b.
Definition store_is (w : W) (m : gmap Key bytes) : Prop :=
  honest w /\ forall k, path_safe k -> bs_view w k = m !! k.

Record sys_inv (y : system) (m : gmap Key bytes) : Prop := {
  si_store : store_is (world (svc y)) m;
  si_exchange : has_Exchange (svc y) = true;
  si_adding : Forall good_block (adding y);
  si_asking : Forall path_safe (asking y);
  si_worker : Worker.inv c (bg y);
  si_handed : accepted (bg y) = worker_blocks (svc y);
  si_good : Forall good_block (accepted (bg y));
}.

Lemma store_get w m k r w' :
  store_is w m -> path_safe k -> bs_Get k w = (r, w') ->
  r = (match m !! k with Some d => Ok (mkBlock k d) | None => Err BsErrNotFound end) /\ store_is w' m.
Proof.
  intros [Hw Hv] Hk Hg. destruct (get_honest w k Hw Hk) as (w1 & Hg1 & Hw1 & Hv1).
  rewrite Hg in Hg1. injection Hg1 as -> <-. unfold stored. rewrite Hv by done.
  split; [by destruct (m !! k)|]. split; [done|]. intros k' Hk'. rewrite <- Hv by done.
  specialize (Hv1 k' Hk'). unfold stored in Hv1. destruct (bs_view w' k'), (bs_view w k'); simpl in *; congruence.
Qed.

Lemma store_put w m b r w' :
  store_is w m -> good_block b -> bs_Put b w = (r, w') -> r = Ok tt /\ store_is w' (keep b m).
Proof.
  intros [Hw Hv] [Hk Hb] Hp. destruct (put_honest w b Hw Hk Hb) as (w1 & Hp1 & Hw1 & Hv1).
  rewrite Hp in Hp1. injection Hp1 as -> <-. split; [done|]. split; [done|]. intros k Hs. unfold keep.
  rewrite Hv1 by done. destruct (decide (k = Key_ b)) as [->|Hne].
  - by rewrite lookup_insert_eq, Hv.
  - rewrite lookup_insert_ne by done. by apply Hv.
Qed.

Lemma store_delete w m k r w' :
  store_is w m -> path_safe k -> bs_DeleteBlock k w = (r, w') ->
  r = (if m !! k is Some _ then Ok tt else Err DsErrNotFound) /\ store_is w' (delete k m).
Proof.
  intros [Hw Hv] Hk Hd. destruct (bs_step_honest (BDeleteBlock k) w Hw (conj Hk I)) as [Hw' _].
  destruct (bs_DeleteBlock_spec w k (proj1 Hw) Hk) as (w1 & Hd1 & _ & Hv1). simpl in Hw'. rewrite Hd in *.
  injection Hd1 as -> <-. rewrite Hv by done. split; [done|]. split; [done|]. intros k' Hk'. rewrite Hv1 by done.
  destruct (decide (k' = k)) as [->|Hne]; [by rewrite lookup_delete_eq|].
  rewrite lookup_delete_ne by done. by apply Hv.
Qed.

(** The worker makes up no block. *)
Lemma announced_good g g' b :
  Worker.inv c g -> Worker.step c true g Internal (Run g') -> announced g' = announced g ++ [b] ->
  Forall good_block (accepted g) -> good_block b /\ accepted g' = accepted g.
Proof.
  intros Hi Hs Ha Hg. assert (Hacc : accepted g' = accepted g) by by inversion Hs.
  split; [|done]. apply (proj1 (Forall_forall _ _) Hg). rewrite <- Hacc.
  apply (inv_sound c g' (step_inv c true g _ g' Hs Hi)). unfold everywhere, live. rewrite Ha, !elem_of_app.
  left. right. right. by apply list_elem_of_singleton.
Qed.

(** A block handed to the worker. *)
Lemma handed s s' g g' b m a1 a2 q :
  sys_inv (mkSystem s (a1 ++ b :: a2) q g) m -> Worker.step c true g (Accept b) (Run g') ->
  worker_HasBlock b s = (None, s') -> sys_inv (mkSystem s' (a1 ++ a2) q g') m.
Proof.
  intros [Hst Hx Ha Hq Hw Hh Hg] Hs Hb. cbn [svc bg adding asking] in *. unfold worker_HasBlock in Hb.
  destruct (worker_closed s); [done|]. injection Hb as <-.
  assert (Hacc : accepted g' = accepted g ++ [b]) by by inversion Hs.
  apply Forall_app in Ha as [Ha1 [Hb Ha2]%Forall_cons_1]. split; cbn [svc bg adding asking]; try done.
  - by apply Forall_app.
  - by eapply step_inv.
  - by rewrite Hacc, Hh.
  - rewrite Hacc. apply Forall_app. split; [done|by apply Forall_singleton].
Qed.

(** The store changes, nothing else. *)
Lemma inv_store s a q g m w m' :
  sys_inv (mkSystem s a q g) m -> store_is w m' -> sys_inv (mkSystem (with_world s w) a q g) m'.
Proof. intros [Hst Hx Ha Hq Hw Hh Hg] Hs. by split. Qed.

Lemma sys_step_inv y e y' m :
  sys_step c y e y' -> sys_inv y m -> ev_good e -> fits e m /\ sys_inv y' (after e m).
Proof.
  intros Hs Hi He. pose proof (si_store y m Hi) as Hst. destruct Hs; cbn [svc] in Hst; cbn [fits after ev_good] in *.
  - destruct (store_put _ _ _ _ _ Hst He H1) as [_ Hst']. split; [done|].
    destruct (inv_store _ _ _ _ _ _ _ Hi Hst'). split; try done. by constructor.
  - by destruct (store_put _ _ _ _ _ Hst He H1).
  - split; [done|]. by eapply handed.
  - split; [done|]. assert (s' = s) as -> by (unfold worker_HasBlock in H1; destruct (worker_closed s); congruence).
    destruct Hi as [? ? Ha ? ? ? ?]. split; try done. cbn in Ha |- *.
    apply Forall_app in Ha as [Ha1 [_ Ha2]%Forall_cons_1]. by apply Forall_app.
  - destruct (store_get _ _ _ _ _ Hst He H1) as [Hr Hst']. split; [done|]. by eapply inv_store.
  - destruct (store_get _ _ _ _ _ Hst He H1) as [Hr Hst']. split; [by destruct (m !! k)|].
    destruct (inv_store _ _ _ _ _ _ _ Hi Hst'). split; try done. by constructor.
  - destruct (store_get _ _ _ _ _ Hst He H1) as [Hr Hst']. pose proof (si_exchange _ _ Hi) as Hx. cbn in Hx.
    destruct H2 as [Hne|Hf]; [|congruence]. destruct (m !! k); [done|]. by injection Hr as ->.
  - destruct (store_get _ _ _ _ _ Hst He H1) as [Hr Hst']. split; [done|].
    destruct (inv_store _ _ _ _ _ _ _ Hi Hst') as [? ? ? Hq ? ? ?]. split; try done. cbn in Hq |- *.
    apply Forall_app in Hq as [Hq1 [_ Hq2]%Forall_cons_1]. by apply Forall_app.
  - unfold DeleteBlock in H1. destruct (bs_DeleteBlock k (world s)) as [r1 w] eqn:Hd. injection H1 as -> <-.
    destruct (store_delete _ _ _ _ _ Hst He Hd) as [Hr Hst']. split; [done|]. by eapply inv_store.
  - split; [done|]. unfold Close in H2. injection H2 as <-. by destruct Hi.
  - pose proof Hi as [_ _ _ _ Hw Hh Hg]. cbn in Hw, Hh, Hg.
    destruct (announced_good _ _ _ Hw H1 H2 Hg) as [Hb Hacc].
    destruct (store_put _ _ _ _ _ Hst Hb H3) as [_ Hst']. split; [done|].
    destruct (inv_store _ _ _ _ _ _ _ Hi Hst'). split; try done; cbn in *; rewrite ?Hacc; try done. by eapply step_inv.
  - split; [done|]. assert (Hacc : accepted g' = accepted g).
    { inversion H1; try done; subst; cbn in *; exfalso; by eapply H2. }
    destruct Hi. split; try done; cbn in *; rewrite ?Hacc; try done. by eapply step_inv.
Qed.

Lemma start_inv w m : store_is w m -> sys_inv (start c w) m.
Proof. intros Hs. split; cbn; try done. apply NewWorker_inv. Qed.

Lemma runs_inv y es y' m :
  runs c y es y' -> sys_inv y m -> Forall ev_good es -> replays es m /\ sys_inv y' (final es m).
Proof.
  intros Hr. revert m. induction Hr as [|y1 e y2 es y3 Hs _ IH]; intros m Hi Hg; [done|].
  apply Forall_cons_1 in Hg as [He Hg]. destruct (sys_step_inv _ _ _ _ Hs Hi He) as [Hf Hi'].
  destruct (IH _ Hi' Hg) as [Hrep Hfin]. done.
Qed.
End Linear.

(** ** The blocks, from the clients to the exchange *)
Section Blocks.
Context {W : Type} `{Blockstore W} (c : Config).
Abbreviation system := (system (W := W)).

Definition announced_of (es : list event) : list Block :=
  omap (fun e => match e with EvAnnounced b => Some b | _ => None end) es.

(** What the worker accepted and announced is what the events say. *)
Lemma sys_step_blocks (y : system) e y' :
  sys_step c y e y' ->
  accepted (bg y') = accepted (bg y) ++ added_of [e] /\ announced (bg y') = announced (bg y) ++ announced_of [e]
  /\ exists ls, steps c true (bg y) ls (bg y') /\ (Tick ∈ ls -> e = EvWorker).
Proof.
  assert (Hstep : forall g l g', Worker.step c true g l (Run g') ->
    steps c true g [l] g' /\ accepted g' = accepted g ++ (match l with Accept b => [b] | _ => [] end)).
  { intros g l g' Hs. split; [by apply steps_one|]. inversion Hs; subst; cbn; by rewrite ?app_nil_r. }
  intros Hs. destruct Hs; cbn [bg added_of announced_of omap list_omap]; rewrite ?app_nil_r;
    try (by split_and!; [..|eexists; split; [constructor|intros ?%not_elem_of_nil]]).
  - destruct (Hstep _ _ _ H0) as [H2 ->]. split_and!; [done|by inversion H0|].
    eexists. split; [exact H2|]. by intros ?%list_elem_of_singleton.
  - destruct (Hstep _ _ _ H0) as [Hr Ha]. rewrite app_nil_r in Ha. split_and!; [done|done|].
    eexists. split; [exact Hr|]. by intros ?%list_elem_of_singleton.
  - destruct (Hstep _ _ _ H0) as [Hr Ha]. split_and!; [|done|by eexists].
    destruct l; [by destruct (H1 b)|..]; by rewrite app_nil_r in Ha.
Qed.

Lemma runs_blocks (y : system) es y' :
  runs c y es y' ->
  accepted (bg y') = accepted (bg y) ++ added_of es /\ announced (bg y') = announced (bg y) ++ announced_of es
  /\ exists ls, steps c true (bg y) ls (bg y') /\ (Tick ∈ ls -> EvWorker ∈ es).
Proof.
  induction 1 as [y|y1 e y2 es y3 Hs _ (IHa & IHn & ls & IHs & IHt)].
  { rewrite !app_nil_r. split_and!; [done..|]. exists []. split; [constructor|by intros ?%not_elem_of_nil]. }
  destruct (sys_step_blocks _ _ _ Hs) as (Ha & Hn & ls1 & Hs1 & Ht).
  unfold added_of, announced_of in *. change (e :: es) with ([e] ++ es). rewrite !omap_app, !app_assoc, <- Ha, <- Hn.
  split_and!; [done..|]. exists (ls1 ++ ls). split; [by eapply steps_app|].
  intros [Hin|Hin]%elem_of_app; [rewrite (Ht Hin); by left|right; auto].
Qed.
End Blocks.

(** ** Theorems *)


(** A new worker, and what it does with the first block: nothing of it is lost when
    its channels have no buffers. *)
Lemma first_announcement c b :
  ClientBufferSize c = 0 -> WorkerBufferSize c = 0 ->
  exists g1 g2 g3 g4, Worker.step c true (NewWorker c) (Accept b) (Run g1)
    /\ Worker.step c true g1 Internal (Run g2) /\ announced g2 = announced g1
    /\ Worker.step c true g2 Internal (Run g3) /\ announced g3 = announced g2
    /\ Worker.step c true g3 Internal (Run g4) /\ announced g4 = announced g3 ++ [b].
Proof.
  intros Hc Hw. destruct (first_block b) as (cl & Hon & Hn & Hok & Hq).
  destruct (on_sent_spec cl Hok) as (cl' & Ht & Hok' & Hp). pose proof (workers_pos c) as Hpos.
  destruct (workers c) as [|n] eqn:Hwk; [lia|].
  set (mk lp h r t := mkWorker [] (Some lp) [] true h r 0 t [] false [b] []).
  exists (mk cl None [] (S n)), (mk cl' (Some b) [] (S n)), (mk cl' None [b] n).
  eexists. split_and!.
  - pose proof (step_HasBlock_direct c true (NewWorker c) b _ cl Hc eq_refl Hon) as Hs.
    unfold NewWorker, LimitChan in Hs. cbn in Hs. rewrite Hwk in Hs. unfold NewWorker, LimitChan. rewrite Hwk. exact Hs.
  - exact (step_send_direct c true (mk cl None [] (S n)) cl b cl' eq_refl Hn Hw eq_refl eq_refl Ht).
  - done.
  - exact (step_spawn c true (mk cl' (Some b) [] (S n)) b n eq_refl eq_refl).
  - done.
  - exact (step_exchange c true (mk cl' None [b] n) b [] [] eq_refl eq_refl).
  - done.
Qed.

(** What the map says of a key that nothing puts. *)
Lemma absent_stays es m k :
  m !! k = None -> replays es m ->
  (forall b, EvPut b ∈ es \/ EvAnnounced b ∈ es -> Key_ b <> k) ->
  forall r, EvGot k r ∈ es -> r = Err BsErrNotFound.
Proof.
  revert m. induction es as [|e es IH]; intros m Hm Hrep Hno r Hin; [by apply not_elem_of_nil in Hin|].
  cbn in Hrep. destruct Hrep as [Hf Hrep]. apply elem_of_cons in Hin as [<-|Hin].
  { cbn in Hf. by rewrite Hm in Hf. }
  apply (IH (after e m)); [|done| |done].
  - destruct e; cbn; try done.
    + unfold keep. rewrite lookup_insert_ne; [done|]. apply Hno. left. by left.
    + by rewrite lookup_delete_None; right.
    + unfold keep. rewrite lookup_insert_ne; [done|]. apply Hno. right. by left.
  - intros b [Hb|Hb]; apply Hno; [left|right]; by right.
Qed.

(** A deleted block comes back: when a block is deleted after it was added and
    before the worker has announced it, the offline exchange puts it into the
    blockstore again, and it is served. Only a [Put] or an announcement of its key
    can do that: where there is none, an absent key stays absent. *)
Theorem deleted_block_returns {W Debug} `{BlockstoreSpec W Debug} c (w : W) m b :
  store_is w m -> m !! Key_ b = None -> good_block b -> ClientBufferSize c = 0 -> WorkerBufferSize c = 0 ->
  (exists y, runs c (start c w)
     [EvPut b; EvAdded b (Key_ b, None); EvDeleted (Key_ b) (Ok tt); EvWorker; EvWorker; EvAnnounced b;
      EvGot (Key_ b) (Ok b)] y)
  /\ forall es y, runs c (start c w) es y -> Forall ev_good es ->
       (forall b', EvPut b' ∈ es \/ EvAnnounced b' ∈ es -> Key_ b' <> Key_ b) ->
       forall r, EvGot (Key_ b) r ∈ es -> r = Err BsErrNotFound.
Proof.
  intros Hst Hm Hb Hc Hw. split.
  - destruct (first_announcement c b Hc Hw) as (g1 & g2 & g3 & g4 & S1 & S2 & A2 & S3 & A3 & S4 & A4).
    destruct (bs_Put b w) as [r1 w1] eqn:P1. destruct (store_put _ _ _ _ _ Hst Hb P1) as [-> H1].
    destruct (bs_DeleteBlock (Key_ b) w1) as [r2 w2] eqn:P2.
    destruct (store_delete _ _ _ _ _ H1 (proj1 Hb) P2) as [-> H2].
    destruct (bs_Put b w2) as [r3 w3] eqn:P3. destruct (store_put _ _ _ _ _ H2 Hb P3) as [-> H3].
    destruct (bs_Get (Key_ b) w3) as [r4 w4] eqn:P4. destruct (store_get _ _ _ _ _ H3 (proj1 Hb) P4) as [-> _].
    unfold keep in *. rewrite ?lookup_insert_eq, ?lookup_delete_eq, ?Hm in *. cbn [default] in *.
    eexists. eapply runs_step; [by apply sys_Put|].
    eapply runs_step; [apply (sys_accept c _ [] []); [exact S1|reflexivity]|].
    eapply runs_step; [apply sys_delete; unfold DeleteBlock; cbn; by rewrite P2|].
    eapply runs_step; [by apply (sys_worker c _ _ _ _ Internal g2 S2)|].
    eapply runs_step; [by apply (sys_worker c _ _ _ _ Internal g3 S3)|].
    eapply runs_step; [by apply (sys_announce c _ _ _ _ b g4 (Ok tt) w3 S4)|].
    eapply runs_step; [|apply runs_refl]. apply sys_hit. cbn. rewrite P4. by destruct b.
  - intros es y Hr Hg Hno r Hin. destruct (runs_inv c _ _ _ m Hr (start_inv c w m Hst) Hg) as [Hrep _].
    by apply (absent_stays es m (Key_ b)).
Qed.

(** ** Progress *)
Section Progress.
Context {W : Type} `{Blockstore W} (c : Config).
Abbreviation system := (system (W := W)).

Lemma runs_app (y1 : system) es1 y2 es2 y3 : runs c y1 es1 y2 -> runs c y2 es2 y3 -> runs c y1 (es1 ++ es2) y3.
Proof. induction 1; intros H2; [done|]. simpl. econstructor; [done|by auto]. Qed.

(** No client starts a call. *)
Definition no_call (e : event) : Prop :=
  match e with EvWorker | EvAnnounced _ | EvAdded _ _ | EvGot _ _ => True | _ => False end.

(** The worker still works, and has lost nothing more. *)
Definition onward (y y' : system) : Prop :=
  (exists es, runs c y es y' /\ Forall no_call es)
  /\ Worker.inv c (bg y') /\ alive (bg y') /\ lost (bg y') = lost (bg y).

Lemma onward_refl y : Worker.inv c (bg y) -> alive (bg y) -> onward y y.
Proof. intros Hi Ha. split_and!; try done. exists []. split; constructor. Qed.

Lemma onward_trans y1 y2 y3 : onward y1 y2 -> onward y2 y3 -> onward y1 y3.
Proof.
  intros ((es1 & H1 & F1) & _ & _ & L1) ((es2 & H2 & F2) & ? & ? & L2). split_and!; [|done..|congruence].
  exists (es1 ++ es2). split; [by eapply runs_app|by apply Forall_app].
Qed.

Lemma onward_one y e y' :
  sys_step c y e y' -> no_call e -> Worker.inv c (bg y') -> alive (bg y') -> lost (bg y') = lost (bg y) -> onward y y'.
Proof.
  intros Hs He Hi Ha Hl. split_and!; try done. exists [e]. split; [|by apply Forall_singleton].
  eapply runs_step; [exact Hs|apply runs_refl].
Qed.

(** A step of the worker is one of the system: it announces a block, or none. *)
Lemma announces g g' :
  Worker.step c true g Internal (Run g') ->
  announced g' = announced g \/ exists b, announced g' = announced g ++ [b].
Proof. intros Hs. inversion Hs; subst; cbn; try (by left). right. by eexists. Qed.

Lemma worker_onward s a q g g' :
  Worker.inv c g -> Worker.step c true g Internal (Run g') -> alive g' -> lost g' = lost g ->
  exists s', onward (mkSystem s a q g) (mkSystem s' a q g') /\ worker_closed s' = worker_closed s.
Proof.
  intros Hi Hs Ha Hl. pose proof (step_inv c true g _ g' Hs Hi) as Hi'.
  destruct (announces g g' Hs) as [Hn|[b Hn]].
  - exists s. split; [|done]. apply (onward_one _ EvWorker); try done. by apply (sys_worker c _ _ _ _ Internal).
  - destruct (bs_Put b (world s)) as [r w] eqn:Hp. exists (with_world s w). split; [|done].
    apply (onward_one _ (EvAnnounced b)); try done. by apply (sys_announce c _ _ _ _ b g' r w).
Qed.

(** The worker can always finish what is in flight. *)
Lemma drain_onward s a q g :
  Worker.inv c g -> alive g ->
  exists s' g', onward (mkSystem s a q g) (mkSystem s' a q g') /\ worker_closed s' = worker_closed s
    /\ in_flight g' = [].
Proof.
  remember (work g) as n eqn:Hn. revert s g Hn. induction (lt_wf n) as [n _ IH]. intros s g -> Hi Ha.
  destruct (decide (in_flight g = [])) as [He|Hne].
  { exists s, g. split_and!; [by apply onward_refl|done..]. }
  destruct (in_flight_advances c g Hi Ha Hne) as (g1 & Hs & Hlt & Ha1 & _ & Hlost).
  destruct (worker_onward s a q g g1 Hi Hs Ha1 Hlost) as (s1 & H1 & Hc1).
  destruct (IH (work g1) Hlt s1 g1 eq_refl (step_inv c true g Internal g1 Hs Hi) Ha1) as (s2 & g2 & H2 & Hc2 & He).
  exists s2, g2. split_and!; [by eapply onward_trans|congruence|done].
Qed.

(** A worker with nothing in flight takes another block. *)
Lemma accepts g b :
  Worker.inv c g -> alive g -> in_flight g = [] ->
  exists g', Worker.step c true g (Accept b) (Run g') /\ alive g' /\ lost g' = lost g.
Proof.
  intros Hi [[cl Hl] Hd] Hf. destruct (ClientBufferSize c) as [|n] eqn:Hc.
  - destruct (on_added_spec b cl (inv_loop c g Hi cl Hl)) as (cl' & Hon & _).
    eexists. split_and!; [by eapply step_HasBlock_direct|by split; [eexists|]|done].
  - eexists. split_and!; [apply step_HasBlock|by split; [eexists|]|done].
    unfold in_flight in Hf. apply app_eq_nil in Hf as [-> _]. rewrite Hc. simpl. lia.
Qed.

Lemma adding_onward s a q g :
  Worker.inv c g -> alive g ->
  exists s' g', onward (mkSystem s a q g) (mkSystem s' [] q g') /\ in_flight g' = [].
Proof.
  revert s g. induction a as [|b a IH]; intros s g Hi Ha.
  { destruct (drain_onward s [] q g Hi Ha) as (s' & g' & H1 & _ & Hf). by exists s', g'. }
  destruct (drain_onward s (b :: a) q g Hi Ha) as (s1 & g1 & H1 & _ & Hf).
  pose proof H1 as (_ & Hi1 & Ha1 & _). cbn in Hi1, Ha1.
  assert (H2 : exists s2 g2, onward (mkSystem s1 (b :: a) q g1) (mkSystem s2 a q g2)).
  { destruct (worker_closed s1) eqn:Hc.
    - exists s1, g1. apply (onward_one _ (EvAdded b ([], Some (errors_New "blockservice is closed")))); try done.
      apply (sys_reject c s1 [] a q g1 b (errors_New "blockservice worker is closed")).
      unfold worker_HasBlock. by rewrite Hc.
    - destruct (accepts g1 b Hi1 Ha1 Hf) as (g2 & Hs & Ha2 & Hl2). eexists _, g2.
      apply (onward_one _ (EvAdded b (Key_ b, None))); try done; [|by eapply step_inv].
      apply (sys_accept c s1 [] a q g1 b _ g2 Hs). unfold worker_HasBlock. by rewrite Hc. }
  destruct H2 as (s2 & g2 & H2). pose proof H2 as (_ & Hi2 & Ha2 & _).
  destruct (IH s2 g2 Hi2 Ha2) as (s3 & g3 & H3 & Hf3). exists s3, g3. split; [|done].
  eapply onward_trans; [exact H1|]. by eapply onward_trans.
Qed.

Lemma asking_onward s a q g :
  Worker.inv c g -> alive g -> exists s', onward (mkSystem s a q g) (mkSystem s' a [] g).
Proof.
  intros Hi Ha. revert s. induction q as [|k q IH]; intros s; [exists s; by apply onward_refl|].
  destruct (bs_Get k (world s)) as [r w] eqn:Hg. destruct (IH (with_world s w)) as (s' & H1). exists s'.
  eapply onward_trans; [|exact H1]. apply (onward_one _ (EvGot k r)); try done.
  by apply (sys_ask c s a [] q g k r w).
Qed.
End Progress.

(** C5. No client waits for ever: from every state that the clients and the worker
    can reach, as long as the worker's loop and dispatcher run, there is a way on, by
    steps of the worker and of the waiting clients alone, to a state in which every
    [AddBlock] and [GetBlock] has returned, nothing is on its way, and every added
    block but those that ticks have thrown away has been announced. *)
Theorem system_progress {W Debug} `{BlockstoreSpec W Debug} c (w : W) m es y :
  store_is w m -> runs c (start c w) es y -> Forall ev_good es -> alive (bg y) ->
  exists es' y', runs c y es' y' /\ Forall no_call es'
    /\ adding y' = [] /\ asking y' = [] /\ in_flight (bg y') = [] /\ lost (bg y') = lost (bg y)
    /\ forall b, b ∈ added_of (es ++ es') ->
         Key_ b ∈ map Key_ (announced_of (es ++ es')) \/ Key_ b ∈ map Key_ (lost (bg y)).
Proof.
  intros Hst Hr Hg Ha. destruct (runs_inv c _ _ _ m Hr (start_inv c w m Hst) Hg) as [_ Hi].
  pose proof (si_worker _ _ _ Hi) as Hw. destruct y as [s a q g]. cbn [bg] in *.
  destruct (asking_onward c s a q g Hw Ha) as (s1 & H1).
  destruct (adding_onward c s1 a [] g Hw Ha) as (s2 & g2 & H2 & Hf).
  destruct (onward_trans c _ _ _ H1 H2) as ((es' & Hr' & Hno) & Hi2 & [Hl2 _] & Hlost). cbn [bg] in *.
  exists es', (mkSystem s2 [] [] g2). split_and!; try done. intros b Hb.
  destruct (runs_blocks c _ _ _ (runs_app c _ _ _ _ _ Hr Hr')) as (Hacc & Hann & _).
  cbn [start bg NewWorker accepted announced app] in Hacc, Hann. rewrite <- Hacc in Hb. rewrite <- Hann, <- Hlost.
  pose proof (inv_kept c g2 Hi2 Hl2 (Key_ b) ltac:(by apply list_elem_of_fmap_2)) as Hk.
  unfold everywhere, live in Hk. rewrite Hf in Hk. cbn [app] in Hk. by rewrite map_app, elem_of_app in Hk.
Qed.

(** ** Witnesses *)

#[local] Instance example_range : GoRange DsKey.Key := elements_range DsKey.Key.
Definition example_store : blockstore (Namespace.datastore MapDatastore.MapDatastore) := over_store empty_store.
#[local] Instance example_blockstore : Blockstore (blockstore (Namespace.datastore MapDatastore.MapDatastore)) :=
  blockstore_Blockstore true.
#[local] Instance example_spec : BlockstoreSpec _ true := blockstore_Spec true.

Lemma example_empty : store_is example_store ∅.
Proof. split; [apply empty_honest|]. intros k Hk. rewrite lookup_empty. reflexivity. Qed.

Lemma abc_good : good_block abc.
Proof. exact (conj abc_safe abc_genuine). Qed.

(** A client has put a block and waits for the worker. *)
Lemma example_run : exists s, runs DefaultConfig (start DefaultConfig example_store) [EvPut abc]
  (mkSystem s [abc] [] (NewWorker DefaultConfig)).
Proof.
  eexists. eapply runs_step; [|apply runs_refl]. apply sys_Put.
  rewrite (surjective_pairing (bs_Put abc _)). reflexivity.
Qed.


Lemma deleted_block_returns_witness :
  exists y, runs DefaultConfig (start DefaultConfig example_store)
     [EvPut abc; EvAdded abc (Key_ abc, None); EvDeleted (Key_ abc) (Ok tt); EvWorker; EvWorker; EvAnnounced abc;
      EvGot (Key_ abc) (Ok abc)] y.
Proof.
  destruct (deleted_block_returns DefaultConfig example_store ∅ abc example_empty) as [H _].
  - apply lookup_empty.
  - exact abc_good.
  - reflexivity.
  - reflexivity.
  - exact H.
Defined.

Lemma system_progress_witness :
  exists s es' y', runs DefaultConfig (mkSystem s [abc] [] (NewWorker DefaultConfig)) es' y'
    /\ adding y' = [] /\ asking y' = [] /\ in_flight (bg y') = [].
Proof.
  destruct example_run as [s Hs]. exists s.
  destruct (system_progress DefaultConfig example_store ∅ [EvPut abc] _ example_empty Hs) as (es' & y' & H1 & _ & H2 & H3 & H4 & _).
  - apply Forall_singleton. exact abc_good.
  - split; [by eexists|reflexivity].
  - exists es', y'. exact (conj H1 (conj H2 (conj H3 H4))).
Defined.
