(* ===== verification/Gotimer.v ===== *)
(** * The timer of the test runner

    Models [Godeps/.../gopkg.in/check.v1/benchmark.go]: the timer that every [C]
    embeds, and the arithmetic that picks the next number of iterations of a
    benchmark. The clock is read into the operations' argument: the time in
    nanoseconds and the two counters of [runtime.MemStats]. The report
    ([timerString], [mbPerSec]) is in [Gobench]. *)

From S2P Require Import Prelude.

(** ** Timer *)

Record clock := mkClock { now : Z; Mallocs : Z; TotalAlloc : Z }.

Record timer := mkTimer {
  start : Z;
  duration : Z;
  N : Z;
  nbytes : Z;
  timerOn : bool;
  benchTime : Z;
  startAllocs : Z; startBytes : Z;
  netAllocs : Z; netBytes : Z;
}.

Definition StartTimer (k : clock) (t : timer) : timer :=
  if timerOn t then t
  else mkTimer (now k) (duration t) (N t) (nbytes t) true (benchTime t)
         (Mallocs k) (TotalAlloc k) (netAllocs t) (netBytes t).

Definition StopTimer (k : clock) (t : timer) : timer :=
  if timerOn t then
    mkTimer (start t) (duration t + (now k - start t))%Z (N t) (nbytes t) false (benchTime t)
      (startAllocs t) (startBytes t)
      (u64 (netAllocs t + (Mallocs k - startAllocs t)))
      (u64 (netBytes t + (TotalAlloc k - startBytes t)))
  else t.

Definition ResetTimer (k : clock) (t : timer) : timer :=
  if timerOn t then
    mkTimer (now k) 0 (N t) (nbytes t) true (benchTime t) (Mallocs k) (TotalAlloc k) 0 0
  else mkTimer (start t) 0 (N t) (nbytes t) false (benchTime t) (startAllocs t) (startBytes t) 0 0.

Definition SetBytes (n : Z) (t : timer) : timer :=
  mkTimer (start t) (duration t) (N t) n (timerOn t) (benchTime t)
    (startAllocs t) (startBytes t) (netAllocs t) (netBytes t).

(** Go's division of signed integers truncates. *)
Definition nsPerOp (duration N : Z) : Z := if (N <=? 0)%Z then 0%Z else Z.quot duration N.

(** ** The next number of iterations *)

Definition i64 (z : Z) : Z := (u64 (z + 2 ^ 63) - 2 ^ 63)%Z.

Definition min (x y : Z) : Z := if (y <? x)%Z then y else x.
Definition max (x y : Z) : Z := if (x <? y)%Z then y else x.

(** A 64-bit number is divided by ten less than twenty times. *)
Fixpoint tens_loop (fuel : nat) (n : Z) (tens : nat) : nat :=
  match fuel with
  | O => tens
  | S fuel => if (10 <? n)%Z then tens_loop fuel (Z.quot n 10) (S tens) else tens
  end.
Definition roundDown10 (n : Z) : Z := Nat.iter (tens_loop 20 n 0) (fun result => i64 (result * 10)) 1%Z.

Definition roundUp (n : Z) : Z :=
  let base := roundDown10 n in
  if (n <? i64 (2 * base))%Z then i64 (2 * base)
  else if (n <? i64 (5 * base))%Z then i64 (5 * base)
  else i64 (10 * base).

(** [benchN] after a run that took [duration]. *)
Definition next_benchN (benchTime duration benchN : Z) : Z :=
  let ns := nsPerOp duration benchN in
  let perOpN := if (ns =? 0)%Z then 1000000000%Z else i64 (Z.quot benchTime ns) in
  roundUp (max (min (i64 (perOpN + Z.quot perOpN 2)) (i64 (100 * benchN))) (i64 (benchN + 1))).

Example next_benchN_1 : next_benchN 1000000000 100 1 = 100%Z.
Proof. reflexivity. Qed.
Example next_benchN_2 : next_benchN 1000000000 1000000 100 = 10000%Z.
Proof. reflexivity. Qed.

(** ** What the timer measures *)

Inductive timer_op := OpStart | OpStop | OpReset.

Definition do_op (x : clock * timer_op) (t : timer) : timer :=
  match x.2 with
  | OpStart => StartTimer x.1 t
  | OpStop => StopTimer x.1 t
  | OpReset => ResetTimer x.1 t
  end.
Definition do_ops (l : list (clock * timer_op)) (t : timer) : timer := fold_left (fun t x => do_op x t) l t.

(** A reference: a gauge that adds up the steps of one counter between the readings
    made while it is on, from the last reset. *)
Record gauge := mkGauge { g_on : bool; g_last : Z; g_acc : Z }.
Definition gauge_step (read : clock -> Z) (g : gauge) (x : clock * timer_op) : gauge :=
  let v := read x.1 in
  let a := if g_on g then (g_acc g + (v - g_last g))%Z else g_acc g in
  match x.2 with
  | OpStart => mkGauge true v a
  | OpStop => mkGauge false v a
  | OpReset => mkGauge (g_on g) v 0
  end.
Definition gauge_at (read : clock -> Z) (l : list (clock * timer_op)) : gauge :=
  fold_left (gauge_step read) l (mkGauge false 0 0).
Definition measured (read : clock -> Z) (l : list (clock * timer_op)) : Z := g_acc (gauge_at read l).

Definition new_timer (benchTime : Z) : timer := mkTimer 0 0 0 0 false benchTime 0 0 0 0.

Lemma u64_add_l a b : u64 (u64 a + b) = u64 (a + b).
Proof. unfold u64. by rewrite Z.add_mod_idemp_l. Qed.

(** What the timer keeps of a counter: the net total and the reading it started at,
    whatever the next reading [x] will be; the counters of allocations wrap around. *)
Definition gauges (wrap : Z -> Z) (b : bool) (net from : Z) (g : gauge) : Prop :=
  g_on g = b /\ (if b then forall x, wrap (net + (x - from)) = wrap (g_acc g + (x - g_last g)) else wrap net = wrap (g_acc g))%Z.

Lemma gauges_step (wrap : Z -> Z) (read : clock -> Z) (b : bool) (net from : Z) (g : gauge) k o :
  (forall a b, wrap (wrap a + b) = wrap (a + b))%Z ->
  gauges wrap b net from g ->
  match o, b with
  | OpStart, true => gauges wrap true net from
  | OpStart, false => gauges wrap true net (read k)
  | OpStop, true => gauges wrap false (wrap (net + (read k - from)))%Z from
  | OpStop, false => gauges wrap false net from
  | OpReset, true => gauges wrap true 0 (read k)
  | OpReset, false => gauges wrap false 0 from
  end (gauge_step read g (k, o)).
Proof.
  intros Hw [Hon H]. assert (Hw0 : forall a, wrap (wrap a) = wrap a).
  { intros a. pose proof (Hw a 0%Z) as E. by rewrite !Z.add_0_r in E. }
  unfold gauges, gauge_step. destruct o, b; cbn; rewrite Hon; (split; [done|]).
  - intros x. rewrite H. f_equal. lia.
  - intros x. rewrite <- Hw, H. by apply Hw.
  - by rewrite Hw0, H.
  - done.
  - done.
  - done.
Qed.

Definition timer_inv (t : timer) (l : list (clock * timer_op)) : Prop :=
  gauges id (timerOn t) (duration t) (start t) (gauge_at now l)
  /\ gauges u64 (timerOn t) (netAllocs t) (startAllocs t) (gauge_at Mallocs l)
  /\ gauges u64 (timerOn t) (netBytes t) (startBytes t) (gauge_at TotalAlloc l).

Lemma do_ops_inv bt l : timer_inv (do_ops l (new_timer bt)) l.
Proof.
  induction l as [|[k o] l IH] using rev_ind; [by repeat split|].
  unfold do_ops, timer_inv, gauge_at in *. rewrite !fold_left_app. cbn [fold_left].
  destruct IH as (H1 & H2 & H3). set (t := fold_left _ l (new_timer bt)) in *.
  pose proof (gauges_step id now _ _ _ _ k o ltac:(done) H1) as S1.
  pose proof (gauges_step u64 Mallocs _ _ _ _ k o u64_add_l H2) as S2.
  pose proof (gauges_step u64 TotalAlloc _ _ _ _ k o u64_add_l H3) as S3.
  unfold do_op, StartTimer, StopTimer, ResetTimer. cbn [fst snd]. destruct o, (timerOn t) eqn:Ht; cbn; rewrite ?Ht; done.
Qed.

Lemma net_range bt l :
  let t := do_ops l (new_timer bt) in u64 (netAllocs t) = netAllocs t /\ u64 (netBytes t) = netBytes t.
Proof.
  cbn. induction l as [|[k o] l [H1 H2]] using rev_ind; [done|].
  unfold do_ops in *. rewrite fold_left_app. cbn [fold_left]. set (t := fold_left _ l (new_timer bt)) in *.
  unfold do_op, StartTimer, StopTimer, ResetTimer. cbn [fst snd].
  destruct o, (timerOn t); cbn; try done. unfold u64. by rewrite !Z.mod_mod.
Qed.

(** Whatever calls of [StartTimer], [StopTimer] and [ResetTimer] a test makes, when
    the timer is off it shows exactly what passed while it was on since the last
    reset: the time, and modulo 2^64 the allocations and the bytes. Starting twice or
    stopping twice changes nothing. *)
Theorem timer_measures (bt : Z) (l : list (clock * timer_op)) :
  let t := do_ops l (new_timer bt) in
  timerOn t = g_on (gauge_at now l)
  /\ (timerOn t = false ->
       duration t = measured now l
       /\ netAllocs t = u64 (measured Mallocs l) /\ netBytes t = u64 (measured TotalAlloc l)).
Proof.
  cbn. destruct (do_ops_inv bt l) as ([E1 H1] & [E2 H2] & [E3 H3]). destruct (net_range bt l) as [R1 R2].
  cbn in R1, R2. unfold measured. set (t := do_ops l (new_timer bt)) in *. split; [done|].
  intros Ht. rewrite Ht in *. by rewrite <- R1, <- R2, H2, H3.
Qed.

(** ** Rounding *)

(** The numbers 1eX, 2eX and 5eX. *)
Definition round_number (m : Z) : Prop :=
  exists (d : Z) (k : nat), (d = 1 \/ d = 2 \/ d = 5)%Z /\ m = (d * 10 ^ Z.of_nat k)%Z.

Lemma i64_small z : (- 2 ^ 63 <= z < 2 ^ 63)%Z -> i64 z = z.
Proof. intros Hz. unfold i64, u64. rewrite Z.mod_small; lia. Qed.

Lemma pow10_S (k : nat) : (10 ^ Z.of_nat (S k) = 10 * 10 ^ Z.of_nat k)%Z.
Proof. by rewrite Nat2Z.inj_succ, Z.pow_succ_r by lia. Qed.

Lemma pow10_pos (k : nat) : (0 < 10 ^ Z.of_nat k)%Z.
Proof. apply Z.pow_pos_nonneg; lia. Qed.

Lemma pow10_lt (j k : nat) : j < k -> (10 * 10 ^ Z.of_nat j <= 10 ^ Z.of_nat k)%Z.
Proof. intros Hjk. rewrite <- pow10_S. apply Z.pow_le_mono_r; lia. Qed.

Lemma tens_loop_spec fuel n tens :
  (1 <= n < 11 * 10 ^ Z.of_nat fuel)%Z ->
  exists t : nat, tens_loop fuel n tens = tens + t /\ t <= fuel
    /\ (n < 11 * 10 ^ Z.of_nat t)%Z /\ (t = 0%nat \/ 11 * 10 ^ Z.of_nat t <= 10 * n)%Z.
Proof.
  revert n tens. induction fuel as [|fuel IH]; intros n tens Hn; cbn [tens_loop].
  - exists 0. change (10 ^ Z.of_nat 0)%Z with 1%Z in *. split_and!; lia.
  - destruct (Z.ltb_spec 10 n) as [H10|H10].
    + rewrite pow10_S in Hn. pose proof (Z.quot_rem' n 10) as Hq. pose proof (Z.rem_bound_pos n 10 ltac:(lia) ltac:(lia)).
      destruct (IH (Z.quot n 10) (S tens) ltac:(lia)) as (t & E & Ht & B1 & B2).
      exists (S t). rewrite E, pow10_S. split_and!; try lia. right.
      destruct B2 as [->|B2]; [change (10 ^ Z.of_nat 0)%Z with 1%Z|]; lia.
    + exists 0. change (10 ^ Z.of_nat 0)%Z with 1%Z. split_and!; lia.
Qed.

Lemma iter_pow10 t : t <= 18 -> Nat.iter t (fun result => i64 (result * 10)) 1%Z = (10 ^ Z.of_nat t)%Z.
Proof.
  induction t as [|t IH]; intros Ht; [done|]. rewrite Nat.iter_succ, IH, pow10_S, Z.mul_comm by lia.
  apply i64_small. pose proof (pow10_pos t). assert (10 ^ Z.of_nat t <= 10 ^ 17)%Z by (apply Z.pow_le_mono_r; lia). lia.
Qed.

Lemma roundDown10_spec n :
  (1 <= n <= 10 ^ 17)%Z ->
  exists t : nat, roundDown10 n = (10 ^ Z.of_nat t)%Z /\ t <= 17
    /\ (n < 11 * 10 ^ Z.of_nat t)%Z /\ (t = 0%nat \/ 11 * 10 ^ Z.of_nat t <= 10 * n)%Z.
Proof.
  intros Hn. destruct (tens_loop_spec 20 n 0) as (t & E & Ht & B1 & B2); [lia|].
  assert (Ht17 : t <= 17).
  { destruct (decide (t <= 17)) as [|Hgt]; [done|]. pose proof (pow10_lt 17 t ltac:(lia)). lia. }
  exists t. unfold roundDown10. rewrite E. cbn [Nat.add]. by rewrite iter_pow10 by lia.
Qed.

Lemma round_number_at (t : nat) f n :
  round_number f -> (10 ^ Z.of_nat t <= n)%Z -> (n < f)%Z ->
  (f = 2 * 10 ^ Z.of_nat t \/ f = 5 * 10 ^ Z.of_nat t \/ 10 * 10 ^ Z.of_nat t <= f)%Z.
Proof.
  intros (d & k & Hd & ->) Hn Hf. destruct (Nat.lt_trichotomy k t) as [Hk|[->|Hk]].
  - pose proof (pow10_lt k t Hk). pose proof (pow10_pos k). lia.
  - lia.
  - pose proof (pow10_lt t k Hk). pose proof (pow10_pos k). destruct Hd as [->|[->| ->]]; lia.
Qed.

(** The numbers just above a power of ten: 101 to 109, 1001 to 1099, .... *)
Definition just_above (n : Z) : Prop := exists k : nat, (10 * 10 ^ Z.of_nat k < n < 11 * 10 ^ Z.of_nat k)%Z.

(** Below 10^17, rounding gives a number of the form 1eX, 2eX or 5eX, with none of
    that form strictly between; it rounds up, but for the numbers just above a power of
    ten, 101 to 109 and the like, which it rounds down to that power. *)
Theorem roundUp_spec (n : Z) :
  (1 <= n <= 10 ^ 17)%Z ->
  round_number (roundUp n)
  /\ (forall f, round_number f -> (n < f)%Z -> (roundUp n <= f)%Z)
  /\ ((roundUp n < n)%Z <-> just_above n).
Proof.
  intros Hn. unfold roundUp. destruct (roundDown10_spec n Hn) as (t & E & Ht & B1 & B2). rewrite E. clear E.
  pose proof (pow10_pos t) as Hp. assert (10 ^ Z.of_nat t <= 10 ^ 17)%Z by (apply Z.pow_le_mono_r; lia).
  assert (B3 : (10 ^ Z.of_nat t <= n)%Z) by (destruct B2 as [->|B2]; [change (10 ^ Z.of_nat 0)%Z with 1%Z|]; lia).
  rewrite !i64_small by lia. pose proof (fun f Hf => round_number_at t f n Hf B3) as Hmin.
  assert (Ha : just_above n -> (10 * 10 ^ Z.of_nat t < n)%Z).
  { intros (k & Hk). destruct (Nat.lt_trichotomy k t) as [Hl|[->|Hl]].
    - pose proof (pow10_lt k t Hl). destruct B2 as [->|B2]; lia.
    - lia.
    - pose proof (pow10_lt t k Hl). lia. }
  destruct (Z.ltb_spec n (2 * 10 ^ Z.of_nat t)); [|destruct (Z.ltb_spec n (5 * 10 ^ Z.of_nat t))].
  all: split_and!; try (intros f Hf Hnf; destruct (Hmin f Hf Hnf) as [?|[?|?]]; lia).
  - by exists 2%Z, t; auto.
  - split; [lia|intros ?%Ha; lia].
  - by exists 5%Z, t; auto.
  - split; [lia|intros ?%Ha; lia].
  - exists 1%Z, (S t). rewrite pow10_S. split; [auto|lia].
  - split; [intros; exists t; lia|done].
Qed.

Lemma roundUp_spec_witness : round_number (roundUp 35) /\ just_above 105.
Proof.
  split; [exact (proj1 (roundUp_spec 35 ltac:(lia)))|].
  apply (proj2 (proj2 (roundUp_spec 105 ltac:(lia)))). reflexivity.
Defined.

Lemma roundUp_bounds n : (1 <= n <= 10 ^ 17)%Z -> (10 * n < 11 * roundUp n)%Z /\ (2 * roundUp n <= 5 * n)%Z.
Proof.
  intros Hn. unfold roundUp. destruct (roundDown10_spec n Hn) as (t & E & Ht & B1 & B2). rewrite E. clear E.
  pose proof (pow10_pos t) as Hp. assert (10 ^ Z.of_nat t <= 10 ^ 17)%Z by (apply Z.pow_le_mono_r; lia).
  assert (B3 : (10 ^ Z.of_nat t <= n)%Z) by (destruct B2 as [->|B2]; [change (10 ^ Z.of_nat 0)%Z with 1%Z|]; lia).
  rewrite !i64_small by lia. repeat case_match; lia.
Qed.

(** ** The benchmark's runs *)

Lemma perOpN_ge (benchTime duration N : Z) :
  (0 < N)%Z -> (0 <= duration < benchTime)%Z -> (nsPerOp duration N <> 0)%Z ->
  (N <= Z.quot benchTime (nsPerOp duration N) <= benchTime)%Z.
Proof.
  intros HN Hd. unfold nsPerOp. destruct (Z.leb_spec N 0); [lia|]. rewrite (Z.quot_div_nonneg duration) by lia.
  intros Hz. pose proof (Z.div_pos duration N ltac:(lia) ltac:(lia)).
  pose proof (Z.mul_div_le duration N ltac:(lia)). rewrite Z.quot_div_nonneg by lia.
  split; [apply Z.div_le_lower_bound; lia|]. apply Z.div_le_upper_bound; nia.
Qed.

Lemma next_benchN_step (benchTime duration benchN : Z) :
  (1 <= benchN < 1000000000)%Z -> (0 <= duration < benchTime)%Z -> (benchTime <= 2 ^ 62)%Z ->
  round_number (next_benchN benchTime duration benchN)
  /\ (benchN < next_benchN benchTime duration benchN <= 250 * benchN)%Z.
Proof.
  intros HN Hd Hb. unfold next_benchN.
  set (p := if (nsPerOp duration benchN =? 0)%Z then _ else _).
  assert (Hp : (benchN <= p <= 2 ^ 62)%Z).
  { unfold p. destruct (Z.eqb_spec (nsPerOp duration benchN) 0) as [Hz|Hz]; [lia|].
    pose proof (perOpN_ge benchTime duration benchN ltac:(lia) Hd Hz). rewrite i64_small; lia. }
  clearbody p. rewrite Z.quot_div_nonneg by lia.
  pose proof (Z.div_mod p 2 ltac:(lia)) as Hq. pose proof (Z.mod_pos_bound p 2 ltac:(lia)).
  rewrite !i64_small by lia. set (x := max _ _).
  assert (Hx : (benchN + 1 <= x <= 100 * benchN /\ 3 * benchN - 1 <= 2 * x)%Z).
  { unfold x, max, min. repeat case_match; lia. }
  clearbody x. destruct (roundUp_spec x ltac:(lia)) as (Hr & _ & _).
  destruct (roundUp_bounds x ltac:(lia)) as [L1 L2]. split; [done|lia].
Qed.

(** While the clock does not go back, a benchmark that has not run for long enough is
    next run with strictly more iterations, at most 250 times as many, a number of the
    form 1eX, 2eX or 5eX; no arithmetic overflows for benchmark times up to 2^62 ns. *)
Theorem next_benchN_grows (benchTime duration benchN : Z) :
  (1 <= benchN < 1000000000)%Z -> (0 <= duration < benchTime)%Z -> (benchTime <= 2 ^ 62)%Z ->
  round_number (next_benchN benchTime duration benchN)
  /\ (benchN < next_benchN benchTime duration benchN <= 250 * benchN)%Z.
Proof. apply next_benchN_step. Qed.

Lemma next_benchN_grows_witness :
  (100 < next_benchN 1000000000 5000000 100 <= 250 * 100)%Z.
Proof. apply (next_benchN_grows 1000000000 5000000 100); lia. Defined.

(** When the clock is set back during the run it can stay the same: 101 iterations are
    rounded to 100. *)
Lemma next_benchN_stuck : next_benchN 1000000000 (-1000) 100 = 100%Z.
Proof. reflexivity. Qed.

(** The least number of iterations of run [i]: 1, 2, 5, 10, 20, .... *)
Definition run_floor (i : nat) : Z :=
  (match (i mod 3)%nat with O => 1 | 1%nat => 2 | _ => 5 end * 10 ^ Z.of_nat (i / 3)%nat)%Z.

Lemma run_floor_next i m : i < 27 -> round_number m -> (run_floor i < m)%Z -> (run_floor (S i) <= m)%Z.
Proof.
  intros Hi (d & k & Hd & ->) Hm. destruct (decide (k < 9)) as [Hk|Hk].
  - do 9 (destruct k as [|k]; [do 27 (destruct i as [|i]; [destruct Hd as [->|[->| ->]]; vm_compute in Hm |- *; congruence|]); lia|]). lia.
  - assert (10 ^ 9 <= 10 ^ Z.of_nat k)%Z by (apply Z.pow_le_mono_r; lia).
    assert (run_floor (S i) <= 10 ^ 9)%Z by (clear -Hi; do 27 (destruct i as [|i]; [vm_compute; congruence|]); lia). lia.
Qed.
