(* ===== verification/Gocheck.v ===== *)
(** * The test runner

    Models the suite runner of [Godeps/.../gopkg.in/check.v1]: [check.go] (the
    runner, the result tracker), the methods of [C] of [helpers.go] that decide a
    call's status, and [run.go] (running all suites, results), benchmarks included.
    The code of a suite is known by the calls it makes on its [C], the only way it
    reaches the runner, and by how long it takes. Output, logs, the flags and temporary
    directories are in [Goreport], [Golog] and [Gomain]; here [KeepWorkDir] is off, so
    that [WorkDir] stays empty in a run. *)

From Stdlib Require Import Permutation.
From stdpp Require Import pretty.
From S2P Require Import Prelude Gotimer.

(** ** Calls *)

Inductive funcKind := fixtureKd | testKd.
Inductive funcStatus := succeededSt | failedSt | skippedSt | panickedSt | fixturePanickedSt | missedSt.

#[export] Instance funcKind_eq_dec : EqDecision funcKind.
Proof. solve_decision. Defined.
#[export] Instance funcStatus_eq_dec : EqDecision funcStatus.
Proof. solve_decision. Defined.

(** A method of a suite; [args_ok] when its one argument is a [*C]. *)
Record methodType := mkMethod { suiteName : string; m_name : string; args_ok : bool }.
Definition method_String (m : methodType) : string := (suiteName m +:+ "." +:+ m_name m)%string.
Definition matches (re : string -> bool) (m : methodType) : bool :=
  re (m_name m) || re (suiteName m) || re (method_String m).

(** [took] is the [duration] of the timer. *)
Record C := mkC {
  method : methodType;
  kind : funcKind;
  status : funcStatus;
  reason : string;
  mustFail : bool;
  took : Z;
}.
Definition with_status (st : funcStatus) (c : C) : C :=
  mkC (method c) (kind c) st (reason c) (mustFail c) (took c).
Definition with_took (d : Z) (c : C) : C := mkC (method c) (kind c) (status c) (reason c) (mustFail c) d.

Definition Failed_ (c : C) : bool := bool_decide (status c = failedSt).

(** What the code of a suite does to its [C]. *)
Inductive act :=
  | Fail | FailNow | Succeed | SucceedNow
  | ExpectFailure (reason : string) | Skip (reason : string)
  | UserPanics.

(** How a goroutine's function ends: it returns, [runtime.Goexit] ends it, or a
    value is thrown. [NoFuel] is not an end: [bench_loop] below had too little. *)
Inductive panicValue := AnyValue | FixturePanic (st : funcStatus).
Inductive exit := Returned | Exited | Panicked (v : panicValue) | NoFuel.

Fixpoint run_acts (l : list act) (c : C) : exit * C :=
  match l with
  | [] => (Returned, c)
  | a :: l =>
      match a with
      | Fail => run_acts l (with_status failedSt c)
      | FailNow => (Exited, with_status failedSt c)
      | Succeed => run_acts l (with_status succeededSt c)
      | SucceedNow => (Exited, with_status succeededSt c)
      | ExpectFailure r =>
          if String.eqb r "" then (Panicked AnyValue, c)
          else run_acts l (mkC (method c) (kind c) (status c) r true (took c))
      | Skip r =>
          if String.eqb r "" then (Panicked AnyValue, c)
          else (Exited, mkC (method c) (kind c) skippedSt r (mustFail c) (took c))
      | UserPanics => (Panicked AnyValue, c)
      end
  end.

(** ** The runner *)

(** What the runner tells the tracker, and what the methods to come will do and how
    long it takes by the timer. *)
Inductive event := Expect (c : C) | Done (c : C).
Record script := mkScript { acts : list act; lasts : Z }.
Record world := mkWorld { scripts : list script; events : list event }.
Definition emit (e : event) (w : world) : world := mkWorld (scripts w) (events w ++ [e]).

Definition body := C -> world -> exit * C * world.

(** [c.method.Call], with the timer started before and stopped after. *)
Definition call_method : body := fun c w =>
  let s := default (mkScript [] 0) (head (scripts w)) in
  let '(e, c) := run_acts (acts s) c in
  (e, with_took (lasts s) c, mkWorld (tail (scripts w)) (events w)).

Definition callDone (e : exit) (c : C) : C :=
  let c :=
    match e with
    | Panicked (FixturePanic skippedSt) => with_status skippedSt c
    | Panicked (FixturePanic _) => with_status fixturePanickedSt c
    | Panicked AnyValue => with_status panickedSt c
    | _ => c
    end in
  if mustFail c then
    match status c with
    | failedSt => with_status succeededSt c
    | succeededSt => with_status failedSt c
    | _ => c
    end
  else c.

(** [forkCall] and the wait for the call. *)
Definition runFunc (m : methodType) (k : funcKind) (dispatcher : body) (w : world) : C * world :=
  let c := mkC m k succeededSt "" false 0 in
  let '(e, c, w) := dispatcher c (emit (Expect c) w) in
  let c := callDone e c in
  (c, emit (Done c) w).

Definition runFixture (m : option methodType) (w : world) : option C * world :=
  match m with
  | None => (None, w)
  | Some m => let '(c, w) := runFunc m fixtureKd call_method w in (Some c, w)
  end.

(** The value it panics with, and [*skipped]. *)
Definition runFixtureWithPanic (m : option methodType) (skipped : bool) (w : world)
    : option panicValue * bool * world :=
  if skipped then (None, skipped, w)
  else
    match runFixture m w with
    | (Some c, w) =>
        if decide (status c = succeededSt) then (None, skipped, w)
        else (Some (FixturePanic (status c)), bool_decide (status c = skippedSt), w)
    | (None, w) => (None, skipped, w)
    end.

Record suiteRunner := mkRunner {
  setUpSuite : option methodType;
  tearDownSuite : option methodType;
  setUpTest : option methodType;
  tearDownTest : option methodType;
  tests : list methodType;
  benchTime_ : Z;
  runError : option string;
}.

(** The loop of [forkTest]: how it ends, and [skipped]. *)
Fixpoint bench_loop (fuel : nat) (r : suiteRunner) (benchN : Z) (c : C) (w : world) : exit * C * world * bool :=
  match fuel with
  | O => (NoFuel, c, w, false)
  | S fuel =>
      let '(p, skipped, w) := runFixtureWithPanic (setUpTest r) false w in
      match p with
      | Some v => (Panicked v, c, w, skipped)
      | None =>
          if negb (args_ok (method c)) then (Returned, with_status panickedSt c, w, false)
          else if String.prefix "Test" (m_name (method c)) then (call_method c w, false)
          else if negb (String.prefix "Benchmark" (m_name (method c))) then (Panicked AnyValue, c, w, false)
          else
            match call_method c w with
            | (Returned, c, w) =>
                if negb (bool_decide (status c = succeededSt)) || (benchTime_ r <=? took c)%Z
                   || (1000000000 <=? benchN)%Z
                then (Returned, c, w, false)
                else
                  let benchN := next_benchN (benchTime_ r) (took c) benchN in
                  match runFixtureWithPanic (tearDownTest r) false w with
                  | (Some v, _, w) => (Panicked v, c, w, true)
                  | (None, _, w) => bench_loop fuel r benchN c w
                  end
            | (e, c, w) => (e, c, w, false)
            end
      end
  end.

(** The function of [forkTest]. A panic of the deferred fixture replaces one that is
    under way. A benchmark runs at most 28 times. *)
Definition test_body (r : suiteRunner) : body := fun c w =>
  let '(e, c, w, skipped) := bench_loop 28 r 1 c w in
  let '(p, _, w) := runFixtureWithPanic (tearDownTest r) skipped w in
  (match p with Some v => Panicked v | None => e end, c, w).
Definition runTest (r : suiteRunner) (m : methodType) : world -> C * world :=
  runFunc m testKd (test_body r).

Definition set_status_body (st : funcStatus) : body := fun c w => (Returned, with_status st c, w).
Definition skipTests (st : funcStatus) (methods : list methodType) (w : world) : world :=
  fold_left (fun w m => (runFunc m testKd (set_status_body st) w).2) methods w.

Fixpoint run_tests (r : suiteRunner) (ms : list methodType) (w : world) : world :=
  match ms with
  | [] => w
  | m :: ms =>
      let '(c, w) := runTest r m w in
      if decide (status c = fixturePanickedSt) then skipTests missedSt ms w else run_tests r ms w
  end.

Definition bad_args (m : option methodType) : list methodType :=
  match m with Some m => if args_ok m then [] else [m] | None => [] end.
Definition checkFixtureArgs (r : suiteRunner) (w : world) : bool * world :=
  let bad := bad_args (setUpSuite r) ++ bad_args (tearDownSuite r) ++ bad_args (setUpTest r)
             ++ bad_args (tearDownTest r) in
  (bool_decide (bad = []),
   fold_left (fun w m => (runFunc m fixtureKd (set_status_body panickedSt) w).2) bad w).

(** The calls that [run] makes, between starting the tracker and waiting for it. *)
Definition run_calls (r : suiteRunner) (w : world) : world :=
  let '(ok, w) := checkFixtureArgs r w in
  if ok then
    let '(c, w) := runFixture (setUpSuite r) w in
    let w :=
      match c with
      | None => run_tests r (tests r) w
      | Some c =>
          match status c with
          | succeededSt => run_tests r (tests r) w
          | skippedSt => skipTests skippedSt (tests r) w
          | _ => skipTests missedSt (tests r) w
          end
      end in
    (runFixture (tearDownSuite r) w).2
  else skipTests missedSt (tests r) w.

(** ** Results *)

Record Result := mkResult {
  Succeeded : nat; Failed : nat; Skipped : nat; Panicked_ : nat; FixturePanicked : nat;
  ExpectedFailures : nat; Missed : nat; RunError : option string; WorkDir : string;
}.
Definition no_result : Result := mkResult 0 0 0 0 0 0 0 None "".

(** The [switch] of [_loopRoutine]. *)
Definition count (c : C) (r : Result) : Result :=
  let '(mkResult s f k p x e m err wd) := r in
  match status c, kind c with
  | succeededSt, testKd => if mustFail c then mkResult s f k p x (S e) m err wd else mkResult (S s) f k p x e m err wd
  | succeededSt, fixtureKd => r
  | failedSt, _ => mkResult s (S f) k p x e m err wd
  | panickedSt, fixtureKd => mkResult s f k p (S x) e m err wd
  | panickedSt, testKd => mkResult s f k (S p) x e m err wd
  | fixturePanickedSt, _ | missedSt, _ => mkResult s f k p x e (S m) err wd
  | skippedSt, testKd => mkResult s f (S k) p x e m err wd
  | skippedSt, fixtureKd => r
  end.

Definition dones (l : list event) : list C := omap (fun e => match e with Done c => Some c | Expect _ => None end) l.
Definition tally (l : list C) : Result := fold_left (fun r c => count c r) l no_result.

Definition Add (r other : Result) : Result :=
  mkResult (Succeeded r + Succeeded other) (Failed r + Failed other) (Skipped r + Skipped other)
    (Panicked_ r + Panicked_ other) (FixturePanicked r + FixturePanicked other)
    (ExpectedFailures r + ExpectedFailures other) (Missed r + Missed other) (RunError r)
    (if negb (String.eqb (WorkDir r) "") && negb (String.eqb (WorkDir other) "")
     then WorkDir r +:+ ":" +:+ WorkDir other
     else if negb (String.eqb (WorkDir other) "") then WorkDir other else WorkDir r)%string.
Definition Passed (r : Result) : bool :=
  (Failed r =? 0) && (Panicked_ r =? 0) && (FixturePanicked r =? 0) && (Missed r =? 0)
  && match RunError r with None => true | Some _ => false end.

Definition run (r : suiteRunner) (w : world) : Result * world :=
  match runError r, tests r with
  | None, _ :: _ => let w' := run_calls r (mkWorld (scripts w) []) in (tally (dones (events w')), w')
  | err, _ => (mkResult 0 0 0 0 0 0 0 err "", w)
  end.

(** ** run.go *)

(** The filter: none, one that does not compile, or what it matches. A suite is its
    methods in the order of reflection. *)
Inductive filter_expr := NoFilter | BadFilter (msg : string) | Filter (re : string -> bool).
Record RunConf := mkConf { Filter_ : filter_expr; Benchmark : bool; BenchmarkTime : Z }.

Definition add_method (conf : RunConf) (r : suiteRunner) (m : methodType) : suiteRunner :=
  let '(mkRunner uS tS uT tT ms bt err) := r in
  if String.eqb (m_name m) "SetUpSuite" then mkRunner (Some m) tS uT tT ms bt err
  else if String.eqb (m_name m) "TearDownSuite" then mkRunner uS (Some m) uT tT ms bt err
  else if String.eqb (m_name m) "SetUpTest" then mkRunner uS tS (Some m) tT ms bt err
  else if String.eqb (m_name m) "TearDownTest" then mkRunner uS tS uT (Some m) ms bt err
  else if negb (String.prefix (if Benchmark conf then "Benchmark" else "Test") (m_name m)) then r
  else if match Filter_ conf with Filter re => matches re m | _ => true end
       then mkRunner uS tS uT tT (ms ++ [m]) bt err
  else r.
Definition newSuiteRunner (suite : list methodType) (conf : RunConf) : suiteRunner :=
  let bt := if (BenchmarkTime conf =? 0)%Z then 1000000000%Z else BenchmarkTime conf in
  match Filter_ conf with
  | BadFilter msg => mkRunner None None None None [] bt (Some ("Bad filter expression: " +:+ msg)%string)
  | _ => fold_left (add_method conf) suite (mkRunner None None None None [] bt None)
  end.

Definition Run (suite : list methodType) (conf : RunConf) (w : world) : Result * world :=
  run (newSuiteRunner suite conf) w.
Definition List_ (suite : list methodType) (conf : RunConf) : list string :=
  map method_String (tests (newSuiteRunner suite conf)).

Fixpoint ListAll (suites : list (list methodType)) (conf : RunConf) : list string :=
  match suites with
  | [] => []
  | s :: suites => List_ s conf ++ ListAll suites conf
  end.

Fixpoint RunAll_loop (conf : RunConf) (suites : list (list methodType)) (w : world) (result : Result) : Result :=
  match suites with
  | [] => result
  | s :: suites => let '(r, w) := Run s conf w in RunAll_loop conf suites w (Add result r)
  end.
Definition RunAll (suites : list (list methodType)) (conf : RunConf) (w : world) : Result :=
  RunAll_loop conf suites w no_result.

(** The summary line. *)
Definition part (n : nat) (label : string) : string :=
  if decide (n = 0) then "" else (", " +:+ pretty n +:+ label)%string.
Definition Result_String (r : Result) : string :=
  match RunError r with
  | Some msg => "ERROR: " +:+ msg
  | None =>
      (if ((Failed r =? 0) && (Panicked_ r =? 0) && (FixturePanicked r =? 0) && (Missed r =? 0))%nat
       then "OK: " else "OOPS: ")
      +:+ pretty (Succeeded r) +:+ " passed"
      +:+ part (Skipped r) " skipped" +:+ part (ExpectedFailures r) " expected failures"
      +:+ part (Failed r) " FAILED" +:+ part (Panicked_ r) " PANICKED"
      +:+ part (FixturePanicked r) " FIXTURE-PANICKED" +:+ part (Missed r) " MISSED"
      +:+ (if String.eqb (WorkDir r) "" then "" else String (Ascii.ascii_of_nat 10) "WORK=" +:+ WorkDir r)
  end%string.

(** ** The tracker

    [_loopRoutine] as a goroutine beside the runner, which is known by the events it
    produces. [_expectChan] and [_stopChan] are synchronous, [_doneChan] has room for
    32 calls. [taken] is ghost: the calls counted so far. *)
Record tracker := mkTracker {
  client : list event;
  doneChan : list C;
  waiting : nat;
  result : Result;
  taken : list C;
}.
Inductive tracked := Looping (t : tracker) | Stopped (r : Result) | TrackerPanic.

Definition start (l : list event) : tracker := mkTracker l [] 0 no_result [].

Inductive tstep (t : tracker) : tracked -> Prop :=
  | t_expect c l :
      client t = Expect c :: l ->
      tstep t (Looping (mkTracker l (doneChan t) (S (waiting t)) (result t) (taken t)))
  | t_send c l :
      client t = Done c :: l -> length (doneChan t) < 32 ->
      tstep t (Looping (mkTracker l (doneChan t ++ [c]) (waiting t) (result t) (taken t)))
  | t_done c l n :
      doneChan t = c :: l -> waiting t = S n ->
      tstep t (Looping (mkTracker (client t) l n (count c (result t)) (taken t ++ [c])))
  | t_unexpected c l : doneChan t = c :: l -> waiting t = 0 -> tstep t TrackerPanic
  | t_stop : client t = [] -> waiting t = 0 -> tstep t (Stopped (result t)).

Inductive tracks (l : list event) : tracker -> Prop :=
  | tr_init : tracks l (start l)
  | tr_step t t' : tracks l t -> tstep t (Looping t') -> tracks l t'.

(** Every call is expected before it is done; [n] are under way. *)
Fixpoint balanced (n : nat) (l : list event) : bool :=
  match l with
  | [] => n =? 0
  | Expect _ :: l => balanced (S n) l
  | Done _ :: l => match n with O => false | S n => balanced n l end
  end.

Lemma dones_cons_expect c l : dones (Expect c :: l) = dones l.
Proof. done. Qed.
Lemma dones_cons_done c l : dones (Done c :: l) = c :: dones l.
Proof. done. Qed.
Lemma dones_app l1 l2 : dones (l1 ++ l2) = dones l1 ++ dones l2.
Proof. apply omap_app. Qed.
Lemma tally_snoc l c : tally (l ++ [c]) = count c (tally l).
Proof. unfold tally. by rewrite fold_left_app. Qed.

Record tracker_inv (l : list event) (t : tracker) : Prop := {
  ti_wait : length (doneChan t) <= waiting t;
  ti_balanced : balanced (waiting t - length (doneChan t)) (client t) = true;
  ti_room : length (doneChan t) <= 32;
  ti_result : result t = tally (taken t);
  ti_all : dones l = taken t ++ doneChan t ++ dones (client t);
}.

Lemma tracks_inv l t : balanced 0 l = true -> tracks l t -> tracker_inv l t.
Proof.
  intros Hb. induction 1 as [|t t' _ [I1 I2 I3 I4 I5] Hs]; [by split; cbn; auto with lia|].
  inversion Hs as [c l' Hc|c l' Hc Hl|c l' n Hd Hw|c l' Hd Hw|Hc Hw]; subst; try done.
  - rewrite Hc in *. split; cbn; try done; [lia|].
    cbn in I2. by replace (S (waiting t) - length (doneChan t)) with (S (waiting t - length (doneChan t))) by lia.
  - rewrite Hc in *. cbn in I2. destruct (waiting t - length (doneChan t)) as [|n] eqn:Hn; [done|].
    split; cbn; rewrite ?length_app; cbn; try done; try lia.
    + by replace (waiting t - (length (doneChan t) + 1)) with n by lia.
    + rewrite I5, dones_cons_done. by rewrite <- app_assoc.
  - rewrite Hd, Hw in *. cbn in *. split; cbn; try done; try lia.
    + rewrite I4. symmetry. apply tally_snoc.
    + rewrite I5. by rewrite <- app_assoc.
Qed.

(** What is left to do. *)
Definition tracker_cost (t : tracker) : nat := 2 * length (client t) + length (doneChan t).

(** The tracker never gets a done call it does not expect; while it has not
    stopped it or the runner can go on, which happens only finitely often; and when it
    stops it has counted every call of the runner, each once: no result is lost in
    the channel. *)
Theorem tracker_complete (l : list event) (t : tracker) :
  balanced 0 l = true -> tracks l t ->
  ~ tstep t TrackerPanic
  /\ (exists o, tstep t o)
  /\ (forall t', tstep t (Looping t') -> tracker_cost t' < tracker_cost t)
  /\ (forall r, tstep t (Stopped r) -> r = tally (dones l)).
Proof.
  intros Hb Ht. destruct (tracks_inv l t Hb Ht) as [I1 I2 I3 I4 I5]. split_and!.
  - intros Hp. inversion Hp as [| | |c l' Hd Hw|]; subst. rewrite Hd, Hw in I1. cbn in I1. lia.
  - destruct (doneChan t) as [|c b] eqn:Hd.
    + destruct (client t) as [|[c|c] k] eqn:Hc.
      * cbn in I2. apply Nat.eqb_eq in I2. eexists. apply t_stop; [done|]. simpl in I2. lia.
      * eexists. by eapply t_expect.
      * eexists. eapply t_send; [done|]. rewrite Hd. simpl. lia.
    + destruct (waiting t) as [|n] eqn:Hw; [simpl in I1; lia|]. eexists. by eapply t_done.
  - intros t' Hs. unfold tracker_cost. inversion Hs as [c k Hc|c k Hc Hl|c k n Hd Hw|c k Hd Hw|Hc Hw]; subst; cbn.
    + rewrite Hc. cbn. lia.
    + rewrite Hc, length_app. cbn. lia.
    + rewrite Hd. cbn. lia.
  - intros r Hs. inversion Hs as [| | | |Hc Hw]; subst. rewrite Hc in I5.
    destruct (doneChan t); [|simpl in I1; lia]. by rewrite I4, I5, !app_nil_r.
Qed.

(** ** Every test is accounted for *)

Lemma run_acts_id (l : list act) (c c' : C) (e : exit) :
  run_acts l c = (e, c') -> method c' = method c /\ kind c' = kind c.
Proof.
  revert c. induction l as [|a l IH]; intros c; cbn [run_acts]; [by intros [= <- <-]|].
  destruct a; try (by intros [= <- <-]); try (by intros H%IH); case_match; try (by intros [= <- <-]);
    by intros H'%IH.
Qed.

Lemma callDone_id e c : method (callDone e c) = method c /\ kind (callDone e c) = kind c.
Proof.
  unfold callDone. destruct e as [| |[|st]|]; [| | |destruct st|]; cbn; repeat case_match; done.
Qed.

Definition test_calls (l : list event) : list C := filter (fun c => kind c = testKd) (dones l).
Definition fixture_calls (l : list event) : list C := filter (fun c => kind c = fixtureKd) (dones l).

(** The events between two worlds: closed under nesting, with the done calls of
    these tests, and no fixture that counts as missed. *)
Definition wrote (names : list methodType) (w w' : world) : Prop :=
  exists l, events w' = events w ++ l
    /\ (forall n k, balanced n (l ++ k) = balanced n k)
    /\ map method (test_calls l) = names
    /\ Forall (fun c => status c <> fixturePanickedSt /\ status c <> missedSt) (fixture_calls l).

Lemma wrote_refl w : wrote [] w w.
Proof. exists []. split_and!; [by rewrite app_nil_r|done..|constructor]. Qed.

Lemma wrote_scripts names w w' s : wrote names w w' -> wrote names w (mkWorld s (events w')).
Proof. intros (l & E & H). by exists l. Qed.

Lemma wrote_trans a b w1 w2 w3 : wrote a w1 w2 -> wrote b w2 w3 -> wrote (a ++ b) w1 w3.
Proof.
  intros (l1 & E1 & B1 & N1 & F1) (l2 & E2 & B2 & N2 & F2). exists (l1 ++ l2).
  unfold test_calls, fixture_calls in *. rewrite dones_app, !filter_app, map_app, N1, N2. split_and!; [|..|done|].
  - by rewrite E2, E1, app_assoc.
  - intros n k. by rewrite <- app_assoc, B1, B2.
  - by apply Forall_app.
Qed.

(** A body that writes nothing but fixtures, and keeps its call. *)
Definition decent (k : funcKind) (d : body) : Prop :=
  forall c w, kind c = k -> status c = succeededSt -> let '(e, c', w') := d c w in
    wrote [] w w' /\ method c' = method c /\ kind c' = kind c
    /\ (k = fixtureKd -> status (callDone e c') <> fixturePanickedSt /\ status (callDone e c') <> missedSt).

Lemma runFunc_wrote m k d w :
  decent k d -> wrote (match k with testKd => [m] | fixtureKd => [] end) w (runFunc m k d w).2.
Proof.
  intros Hd. unfold runFunc. set (c := mkC m k succeededSt "" false 0).
  specialize (Hd c (emit (Expect c) w) eq_refl eq_refl). destruct (d c _) as [[e c'] w'].
  destruct Hd as ((l & E & B & N & F) & Hm & Hk & Hf). cbn [kind c method] in Hm, Hk.
  destruct (callDone_id e c') as [Hm' Hk']. rewrite Hm in Hm'. rewrite Hk in Hk'.
  set (cd := callDone e c') in *. exists (Expect c :: l ++ [Done cd]). cbn [snd emit events].
  unfold test_calls, fixture_calls in *. rewrite dones_cons_expect, dones_app, !filter_app, map_app.
  cbn [dones omap list_omap]. split_and!.
  - rewrite E. cbn [emit events]. by rewrite <- !app_assoc.
  - intros n ks. cbn [app balanced]. rewrite <- app_assoc, B. done.
  - rewrite N, filter_cons, filter_nil, Hk'. destruct k; [done|]. rewrite decide_True by done. cbn [map app]. by rewrite Hm'.
  - apply Forall_app. split; [done|]. rewrite filter_cons, filter_nil, Hk'. destruct k; cbn; [|constructor].
    constructor; [by apply Hf|constructor].
Qed.

(** Neither the calls of a method nor the panics of its own code make a fixture look
    missed. *)
Definition plain_status (c : C) : Prop := status c <> fixturePanickedSt /\ status c <> missedSt.

Lemma run_acts_plain l c :
  plain_status c -> plain_status (run_acts l c).2 /\ forall st, (run_acts l c).1 <> Panicked (FixturePanic st).
Proof.
  revert c. induction l as [|a l IH]; intros c Hc; cbn [run_acts]; [done|].
  destruct a as [| | | |rs|rs|]; cbn; try (destruct (String.eqb rs "")); (by split) || (by apply IH).
Qed.

Lemma callDone_plain e c :
  plain_status c -> (forall st, e <> Panicked (FixturePanic st)) -> plain_status (callDone e c).
Proof.
  intros Hc He. unfold callDone. destruct e as [| |[|st]|]; [..|by destruct (He st)|]; cbn; repeat case_match; done.
Qed.

Lemma call_method_wrote c w :
  let '(e, c', w') := call_method c w in wrote [] w w' /\ method c' = method c /\ kind c' = kind c.
Proof.
  unfold call_method. destruct (run_acts _ c) as [e c'] eqn:Hr.
  destruct (run_acts_id _ _ _ _ Hr) as [? Hk']. split; [apply wrote_scripts, wrote_refl|done].
Qed.

Lemma call_method_decent k : decent k call_method.
Proof.
  intros c w Hk Hc. pose proof (call_method_wrote c w) as Hw. unfold call_method in *.
  set (s := default _ _) in *. destruct (run_acts (acts s) c) as [e c'] eqn:Hr.
  destruct Hw as (H1 & H2 & H3). split; [done|]. split; [done|]. split; [done|].
  intros _. assert (Hp : plain_status c) by (unfold plain_status; by rewrite Hc).
  destruct (run_acts_plain (acts s) c Hp) as [Hp' He]. rewrite Hr in Hp', He. by apply callDone_plain.
Qed.

Lemma set_status_decent k st : (k = fixtureKd -> st = panickedSt) -> decent k (set_status_body st).
Proof.
  intros Hst c w Hk Hc. unfold set_status_body. split; [apply wrote_refl|]. split_and!; [done..|].
  intros Hf. rewrite (Hst Hf). by apply callDone_plain.
Qed.

Lemma runFixture_wrote m w : wrote [] w (runFixture m w).2.
Proof.
  unfold runFixture. destruct m as [m|]; [|apply wrote_refl].
  pose proof (runFunc_wrote m fixtureKd call_method w (call_method_decent _)) as Hw.
  by destruct (runFunc m fixtureKd call_method w).
Qed.

Lemma runFixtureWithPanic_wrote m sk w : wrote [] w (runFixtureWithPanic m sk w).2.
Proof.
  unfold runFixtureWithPanic. destruct sk; [apply wrote_refl|]. pose proof (runFixture_wrote m w) as Hw.
  destruct (runFixture m w) as [[c|] w']; [|done]. by case_decide.
Qed.

Lemma bench_loop_wrote fuel r benchN c w :
  kind c = testKd -> let '(e, c', w', _) := bench_loop fuel r benchN c w in
  wrote [] w w' /\ method c' = method c /\ kind c' = testKd.
Proof.
  revert benchN c w. induction fuel as [|fuel IH]; intros benchN c w Hk; cbn [bench_loop]; [by split; [apply wrote_refl|]|].
  pose proof (runFixtureWithPanic_wrote (setUpTest r) false w) as H1.
  destruct (runFixtureWithPanic (setUpTest r) false w) as [[[v|] sk] w1]; cbn [snd] in H1; [done|].
  destruct (args_ok (method c)); cbn [negb]; [|done].
  pose proof (call_method_wrote c w1) as H2. destruct (call_method c w1) as [[e c2] w2].
  destruct H2 as (H2 & Hm & Hk2). pose proof (wrote_trans [] [] _ _ _ H1 H2) as H12. rewrite Hk in Hk2.
  destruct (String.prefix "Test" _); [done|]. destruct (String.prefix "Benchmark" _); cbn [negb]; [|done].
  destruct e; try done. destruct (_ || _); [done|].
  pose proof (runFixtureWithPanic_wrote (tearDownTest r) false w2) as H3.
  destruct (runFixtureWithPanic (tearDownTest r) false w2) as [[[v|] sk'] w3]; cbn [snd] in H3;
    pose proof (wrote_trans [] [] _ _ _ H12 H3) as H13; [done|].
  specialize (IH (next_benchN (benchTime_ r) (took c2) benchN) c2 w3 Hk2).
  destruct (bench_loop fuel r _ c2 w3) as [[[e' c'] w'] sk'']. destruct IH as (H4 & Hm' & Hk').
  split; [by apply (wrote_trans [] [] _ w3)|]. split; [by rewrite Hm'|done].
Qed.

Lemma test_body_decent r : decent testKd (test_body r).
Proof.
  intros c w Hk Hc. unfold test_body. pose proof (bench_loop_wrote 28 r 1 c w Hk) as H1.
  destruct (bench_loop 28 r 1 c w) as [[[e c'] w1] sk]. destruct H1 as (H1 & Hm & Hk').
  pose proof (runFixtureWithPanic_wrote (tearDownTest r) sk w1) as H3.
  destruct (runFixtureWithPanic (tearDownTest r) sk w1) as [[p' sk'] w3]. cbn [snd] in H3.
  split; [by apply (wrote_trans [] [] w w1)|]. by rewrite Hk.
Qed.

Lemma runTest_wrote r m w : wrote [m] w (runTest r m w).2.
Proof. apply (runFunc_wrote m testKd), test_body_decent. Qed.

Lemma skipTests_wrote st ms w : wrote ms w (skipTests st ms w).
Proof.
  unfold skipTests. revert w. induction ms as [|m ms IH]; intros w; [apply wrote_refl|].
  cbn [fold_left map]. apply (wrote_trans [m] _ w (runFunc m testKd (set_status_body st) w).2); [|apply IH].
  by apply (runFunc_wrote m testKd), set_status_decent.
Qed.

Lemma run_tests_wrote r ms w : wrote ms w (run_tests r ms w).
Proof.
  revert w. induction ms as [|m ms IH]; intros w; [apply wrote_refl|]. cbn [run_tests map].
  pose proof (runTest_wrote r m w) as Hw. destruct (runTest r m w) as [c w']. cbn [snd] in Hw.
  apply (wrote_trans [m] _ w w'); [done|]. case_decide; [apply skipTests_wrote|apply IH].
Qed.

Lemma checkFixtureArgs_wrote r w : wrote [] w (checkFixtureArgs r w).2.
Proof.
  unfold checkFixtureArgs. cbn [snd]. revert w.
  induction (bad_args _ ++ _) as [|m ms IH]; intros w; [apply wrote_refl|]. cbn [fold_left].
  apply (wrote_trans [] [] w (runFunc m fixtureKd (set_status_body panickedSt) w).2); [|apply IH].
  by apply (runFunc_wrote m fixtureKd), set_status_decent.
Qed.

Lemma run_calls_wrote r w : wrote (tests r) w (run_calls r w).
Proof.
  unfold run_calls. pose proof (checkFixtureArgs_wrote r w) as H0. destruct (checkFixtureArgs r w) as [ok w0].
  cbn [snd] in H0. apply (wrote_trans [] _ w w0); [done|]. destruct ok; [|apply skipTests_wrote].
  pose proof (runFixture_wrote (setUpSuite r) w0) as H1. destruct (runFixture (setUpSuite r) w0) as [c w1].
  cbn [snd] in H1. apply (wrote_trans [] _ w0 w1); [done|].
  set (w2 := match c with None => _ | Some _ => _ end). assert (H2 : wrote (tests r) w1 w2).
  { unfold w2. destruct c as [c|]; [destruct (status c)|]; apply run_tests_wrote || apply skipTests_wrote. }
  pose proof (wrote_trans _ [] _ _ _ H2 (runFixture_wrote (tearDownSuite r) w2)) as H3. by rewrite app_nil_r in H3.
Qed.

(** The counters of a result, and its part that is about tests. *)
Definition total (r : Result) : nat :=
  Succeeded r + Failed r + Skipped r + Panicked_ r + FixturePanicked r + ExpectedFailures r + Missed r.

Lemma total_count c r :
  total (count c r) = total r + (if decide (kind c = testKd \/ ~ (status c = succeededSt \/ status c = skippedSt)) then 1 else 0).
Proof.
  destruct r as [a b d e f g h i wd], c as [m k st rs mf tk]. unfold total, count; cbn.
  destruct st, k; cbn; try (destruct mf); cbn; case_decide; cbn; try lia; exfalso; intuition congruence.
Qed.

Lemma total_tally l :
  total (tally l) = length (filter (fun c => kind c = testKd) l)
    + length (filter (fun c => kind c = fixtureKd /\ ~ (status c = succeededSt \/ status c = skippedSt)) l).
Proof.
  induction l as [|c l IH] using rev_ind; [done|].
  rewrite tally_snoc, total_count, IH, !filter_app, !length_app, !filter_cons, !filter_nil.
  destruct c as [m k st rs mf tk]; cbn [kind status]. destruct k; repeat case_decide; cbn; try lia; intuition congruence.
Qed.

Lemma add_methods_err conf ms r : runError (fold_left (add_method conf) ms r) = runError r.
Proof.
  revert r. induction ms as [|m ms IH]; intros r; [done|]. cbn [fold_left]. rewrite IH.
  destruct r as [uS tS uT tT tms bt err]. cbn [add_method]. by repeat case_match.
Qed.

Lemma newSuiteRunner_err suite conf :
  runError (newSuiteRunner suite conf) = None \/ tests (newSuiteRunner suite conf) = [].
Proof.
  unfold newSuiteRunner. destruct (Filter_ conf); [left; by rewrite add_methods_err|by right|left; by rewrite add_methods_err].
Qed.

Lemma run_calls_events r s :
  exists w', run_calls r (mkWorld s []) = w' /\ balanced 0 (events w') = true
    /\ map method (test_calls (events w')) = tests r
    /\ Forall (fun c => status c <> fixturePanickedSt /\ status c <> missedSt) (fixture_calls (events w')).
Proof.
  eexists. split; [done|]. destruct (run_calls_wrote r (mkWorld s [])) as (l & E & B & N & F).
  rewrite E. cbn [events app]. split; [|done]. rewrite <- (app_nil_r l). by rewrite B.
Qed.


Lemma Passed_count c r : Passed (count c r) = Passed r && bool_decide (status c = succeededSt \/ status c = skippedSt).
Proof.
  destruct r as [a b d e f g h i wd], c as [m k st rs mf tk]. unfold Passed, count; cbn.
  destruct st, k; cbn; try (destruct mf); cbn; rewrite ?andb_true_r, ?andb_false_r; try done.
Qed.

Lemma Passed_tally l : Passed (tally l) = true <-> Forall (fun c => status c = succeededSt \/ status c = skippedSt) l.
Proof.
  induction l as [|c l IH] using rev_ind; [done|].
  rewrite tally_snoc, Passed_count, Forall_app, Forall_singleton, andb_true_iff, bool_decide_eq_true. by rewrite IH.
Qed.

Lemma newSuiteRunner_filter suite conf :
  runError (newSuiteRunner suite conf) = None <-> forall msg, Filter_ conf <> BadFilter msg.
Proof.
  unfold newSuiteRunner. destruct (Filter_ conf) as [|msg|]; rewrite ?add_methods_err; cbn; [done| |done].
  split; [done|]. intros H. by destruct (H msg).
Qed.

Lemma Run_passes_iff (suite : list methodType) (conf : RunConf) (s : list script) :
  let '(r, w) := Run suite conf (mkWorld s []) in
  Passed r = true <->
    Forall (fun c => status c = succeededSt \/ status c = skippedSt) (dones (events w))
    /\ (forall msg, Filter_ conf <> BadFilter msg).
Proof.
  unfold Run. pose proof (newSuiteRunner_filter suite conf) as Hf. set (r := newSuiteRunner suite conf) in *.
  unfold run. destruct (runError r) as [err|]; [by cbn; split; [|intros [_ H%Hf]]|].
  pose proof (proj1 Hf eq_refl) as Hf'.
  destruct (tests r) as [|m ms]; cbn -[run_calls tally]; [by repeat split|]. rewrite Passed_tally.
  by split; [|intros []].
Qed.

(** A suite passes exactly when every call of it, fixtures included, succeeded or
    was skipped, and its filter compiles. *)
Theorem Run_Passed (suite : list methodType) (conf : RunConf) (s : list script) :
  let '(r, w) := Run suite conf (mkWorld s []) in
  Passed r = true <->
    Forall (fun c => status c = succeededSt \/ status c = skippedSt) (dones (events w))
    /\ (forall msg, Filter_ conf <> BadFilter msg).
Proof. apply Run_passes_iff. Qed.

(** The filter's error is lost when the results are added up: with a filter that does
    not compile nothing is run, and the run passes. *)
Theorem RunAll_bad_filter (suites : list (list methodType)) (b : bool) (t : Z) (msg : string) (w : world) :
  RunAll suites (mkConf (BadFilter msg) b t) w = no_result /\ Passed no_result = true
  /\ forall suite, Passed (Run suite (mkConf (BadFilter msg) b t) w).1 = false.
Proof.
  split_and!; [|done|done]. unfold RunAll. induction suites as [|s suites IH]; [done|]. cbn. apply IH.
Qed.

(** A [TearDownTest] that calls [Skip] after a failed test makes the run pass. *)
Lemma TearDownTest_hides_failure :
  let m name := mkMethod "S" name true in
  let '(r, w) := Run [m "TearDownTest"; m "TestA"] (mkConf NoFilter false 0)
                   (mkWorld [mkScript [Fail] 0; mkScript [Skip "later"] 0] []) in
  Passed r = true /\ Result_String r = "OK: 0 passed, 1 skipped" /\ Failed r = 0.
Proof. vm_compute. done. Qed.

(** ** Benchmarks end *)

Definition clock_ok (w : world) : Prop := Forall (fun s => 0 <= lasts s)%Z (scripts w).

Lemma call_method_clock c w : clock_ok w -> (0 <= took (call_method c w).1.2)%Z /\ clock_ok (call_method c w).2.
Proof.
  intros Hw. unfold call_method, clock_ok in *. destruct (run_acts _ c) as [e c']. cbn.
  destruct Hw as [|s l Hs Hl]; done.
Qed.

Lemma runFixture_clock m w : clock_ok w -> clock_ok (runFixture m w).2.
Proof.
  intros Hw. destruct m as [m|]; [|done]. unfold runFixture, runFunc.
  pose proof (call_method_clock (mkC m fixtureKd succeededSt "" false 0) (emit (Expect (mkC m fixtureKd succeededSt "" false 0)) w) Hw) as [_ H].
  by destruct (call_method _ _) as [[e c] w'].
Qed.

Lemma runFixtureWithPanic_clock m sk w : clock_ok w -> clock_ok (runFixtureWithPanic m sk w).2.
Proof.
  intros Hw. unfold runFixtureWithPanic. destruct sk; [done|]. pose proof (runFixture_clock m w Hw) as H.
  destruct (runFixture m w) as [[c|] w']; [|done]. by case_decide.
Qed.

Lemma run_acts_fuel l c : (run_acts l c).1 <> NoFuel.
Proof.
  revert c. induction l as [|a l IH]; intros c; cbn [run_acts]; [done|].
  destruct a as [| | | |rs|rs|]; cbn; try (destruct (String.eqb rs "")); done || by apply IH.
Qed.

Lemma call_method_fuel c w : (call_method c w).1.1 <> NoFuel.
Proof.
  unfold call_method. pose proof (run_acts_fuel (acts (default (mkScript [] 0) (head (scripts w)))) c) as H.
  by destruct (run_acts _ c).
Qed.

Lemma bench_loop_fuel fuel r benchN c w i :
  (benchTime_ r <= 2 ^ 62)%Z -> clock_ok w -> fuel + i = 28 -> i <= 27 -> (run_floor i <= benchN)%Z ->
  (1 <= benchN)%Z -> (bench_loop fuel r benchN c w).1.1.1 <> NoFuel.
Proof.
  intros Hbt. revert benchN c w i. induction fuel as [|fuel IH]; intros benchN c w i Hw Hi Hi27 Hf HN; [lia|].
  cbn [bench_loop]. pose proof (runFixtureWithPanic_clock (setUpTest r) false w Hw) as H1.
  destruct (runFixtureWithPanic (setUpTest r) false w) as [[[v|] sk] w1]; cbn [snd] in H1; [done|].
  destruct (args_ok (method c)); [|done]. cbn [negb].
  pose proof (call_method_fuel c w1) as He. pose proof (call_method_clock c w1 H1) as [Ht H2].
  destruct (String.prefix "Test" _); [done|]. destruct (String.prefix "Benchmark" _); [|done]. cbn [negb].
  destruct (call_method c w1) as [[e c2] w2]. cbn [fst snd] in *. destruct e; try done.
  destruct (_ || _) eqn:Hb; [done|]. apply orb_false_iff in Hb as [Hb Hb3]. apply orb_false_iff in Hb as [_ Hb2].
  apply Z.leb_gt in Hb2, Hb3.
  pose proof (runFixtureWithPanic_clock (tearDownTest r) false w2 H2) as H3.
  destruct (runFixtureWithPanic (tearDownTest r) false w2) as [[[v|] sk'] w3]; cbn [snd] in H3; [done|].
  destruct (next_benchN_step (benchTime_ r) (took c2) benchN ltac:(lia) ltac:(lia) Hbt) as [Hr Hg].
  assert (i < 27).
  { destruct (decide (i = 27)) as [->|]; [|lia]. change (run_floor 27) with 1000000000%Z in Hf. lia. }
  apply (IH _ _ _ (S i)); [done|lia..| |lia]. apply run_floor_next; [done..|lia].
Qed.

(** A benchmark runs at most 28 times, whatever it does and however long it takes, as
    long as the clock does not go back and the benchmark time is at most 2^62 ns: the
    loop of [forkTest] ends. *)
Theorem bench_ends (r : suiteRunner) (c : C) (w : world) :
  (benchTime_ r <= 2 ^ 62)%Z -> Forall (fun s => 0 <= lasts s)%Z (scripts w) ->
  (test_body r c w).1.1 <> NoFuel.
Proof.
  intros Hbt Hw. unfold test_body.
  pose proof (bench_loop_fuel 28 r 1 c w 0 Hbt Hw eq_refl ltac:(lia) ltac:(done) ltac:(lia)) as H.
  destruct (bench_loop 28 r 1 c w) as [[[e c'] w'] sk]. by destruct (runFixtureWithPanic _ sk w') as [[[v|] sk'] w2].
Qed.

Definition slow_bench : suiteRunner :=
  newSuiteRunner [mkMethod "S" "BenchmarkA" true] (mkConf NoFilter true 0).

Lemma bench_ends_witness :
  let c := mkC (mkMethod "S" "BenchmarkA" true) testKd succeededSt "" false 0 in
  (test_body slow_bench c (mkWorld [mkScript [] 5; mkScript [Succeed] 70; mkScript [FailNow] 9] [])).1.1 <> NoFuel.
Proof. apply bench_ends; [vm_compute; discriminate|repeat (apply Forall_cons_2; [cbn; lia|]); apply Forall_nil_2]. Defined.

Definition two_calls : list event :=
  let c name := mkC (mkMethod "S" name true) testKd succeededSt "" false 0 in
  [Expect (c "TestA"); Done (c "TestA"); Expect (c "TestB"); Done (c "TestB")].

Lemma tracker_complete_witness : ~ tstep (start two_calls) TrackerPanic.
Proof. apply (proj1 (tracker_complete two_calls (start two_calls) eq_refl (tr_init _))). Defined.
