(* ===== verification/Checkers.v ===== *)
(** * The checkers of the test framework

    Models [Godeps/.../gopkg.in/check.v1/checkers.go] and the generic checks of
    [helpers.go] ([Check], [Assert]). The values that checkers compare are Go's
    interface values, modelled with what reflection shows of them: their dynamic
    type, the address behind a reference and what it holds. Floating point numbers
    and cyclic data are left out. The methods of user types, the functions passed to a
    checker, regular expressions and the relations between types are parameters. *)

From S2P Require Import Prelude Gotimer Gocheck.

(** ** Go values *)

(** A type is known by its name. [cmp] says whether the type is comparable; [iface],
    whether a pointer is to a variable of an interface type; [None] is the nil
    reference; a channel holds a number of elements; a function takes a number of
    arguments. *)
Inductive value :=
  | Nil
  | VNum (t : string) (z : Z)
  | VStr (t : string) (s : string)
  | VChan (t : string) (loc : option nat) (len : nat)
  | VFunc (t : string) (loc : option nat) (num_in : nat)
  | VPtr (t : string) (loc : option nat) (iface : bool) (elem : value)
  | VSlice (t : string) (loc : option nat) (elems : list value)
  | VMap (t : string) (loc : option nat) (keys vals : list value)
  | VArray (t : string) (cmp : bool) (elems : list value)
  | VStruct (t : string) (cmp : bool) (fields : list value).

Section induction.
Variable P : value -> Prop.
Hypothesis HNil : P Nil.
Hypothesis HNum : forall t z, P (VNum t z).
Hypothesis HStr : forall t s, P (VStr t s).
Hypothesis HChan : forall t l n, P (VChan t l n).
Hypothesis HFunc : forall t l n, P (VFunc t l n).
Hypothesis HPtr : forall t l i v, P v -> P (VPtr t l i v).
Hypothesis HSlice : forall t l vs, Forall P vs -> P (VSlice t l vs).
Hypothesis HMap : forall t l ks vs, Forall P ks -> Forall P vs -> P (VMap t l ks vs).
Hypothesis HArray : forall t c vs, Forall P vs -> P (VArray t c vs).
Hypothesis HStruct : forall t c vs, Forall P vs -> P (VStruct t c vs).

Fixpoint value_nested_ind (v : value) : P v :=
  let fix all (l : list value) : Forall P l :=
    match l with [] => Forall_nil_2 _ | v :: l => Forall_cons_2 _ _ _ (value_nested_ind v) (all l) end in
  match v with
  | Nil => HNil
  | VNum t z => HNum t z
  | VStr t s => HStr t s
  | VChan t l n => HChan t l n
  | VFunc t l n => HFunc t l n
  | VPtr t l i v => HPtr t l i v (value_nested_ind v)
  | VSlice t l vs => HSlice t l vs (all vs)
  | VMap t l ks vs => HMap t l ks vs (all ks) (all vs)
  | VArray t c vs => HArray t c vs (all vs)
  | VStruct t c vs => HStruct t c vs (all vs)
  end.
End induction.

Definition type_of (v : value) : option string :=
  match v with
  | Nil => None
  | VNum t _ | VStr t _ | VChan t _ _ | VFunc t _ _ | VPtr t _ _ _ | VSlice t _ _ | VMap t _ _ _
  | VArray t _ _ | VStruct t _ _ => Some t
  end.

(** [a == b] on interface values; the left sum is the text of the panic. *)
Definition uncomparable (t : string) : string := ("runtime error: comparing uncomparable type " +:+ t)%string.

Fixpoint go_eq (a b : value) : string + bool :=
  let fix all (l m : list value) : string + bool :=
    match l, m with
    | [], [] => inr true
    | x :: l, y :: m => match go_eq x y with inr true => all l m | r => r end
    | _, _ => inr false
    end in
  match a, b with
  | Nil, Nil => inr true
  | VNum t x, VNum u y => inr (String.eqb t u && (x =? y)%Z)
  | VStr t x, VStr u y => inr (String.eqb t u && String.eqb x y)
  | VChan t x _, VChan u y _ => inr (String.eqb t u && bool_decide (x = y))
  | VPtr t x _ _, VPtr u y _ _ => inr (String.eqb t u && bool_decide (x = y))
  | VFunc t _ _, VFunc u _ _ | VSlice t _ _, VSlice u _ _ | VMap t _ _ _, VMap u _ _ _ =>
      if String.eqb t u then inl (uncomparable t) else inr false
  | VArray t c x, VArray u _ y | VStruct t c x, VStruct u _ y =>
      if String.eqb t u then if c then all x y else inl (uncomparable t) else inr false
  | _, _ => inr false
  end.

Fixpoint map_index (k : value) (keys vals : list value) : option value :=
  match keys, vals with
  | k' :: keys, v :: vals => match go_eq k k' with inr true => Some v | _ => map_index k keys vals end
  | _, _ => None
  end.

(** [reflect.DeepEqual]. *)
Definition same_ref (x y : option nat) : bool := bool_decide (x = y) && negb (bool_decide (x = None)).

Fixpoint DeepEqual (a b : value) : bool :=
  let fix all (l m : list value) : bool :=
    match l, m with
    | [], [] => true
    | x :: l, y :: m => DeepEqual x y && all l m
    | _, _ => false
    end in
  let fix all_in (ks vs ks' vs' : list value) {struct vs} : bool :=
    match ks, vs with
    | k :: ks, v :: vs =>
        match map_index k ks' vs' with Some v' => DeepEqual v v' | None => false end && all_in ks vs ks' vs'
    | _, _ => true
    end in
  match a, b with
  | Nil, Nil => true
  | VNum t x, VNum u y => String.eqb t u && (x =? y)%Z
  | VStr t x, VStr u y => String.eqb t u && String.eqb x y
  | VChan t x _, VChan u y _ => String.eqb t u && bool_decide (x = y)
  | VFunc t x _, VFunc u y _ => String.eqb t u && bool_decide (x = None) && bool_decide (y = None)
  | VPtr t x _ v, VPtr u y _ w =>
      String.eqb t u
      && (bool_decide (x = y) || (negb (bool_decide (x = None)) && negb (bool_decide (y = None)) && DeepEqual v w))
  | VSlice t x v, VSlice u y w =>
      String.eqb t u && Bool.eqb (bool_decide (x = None)) (bool_decide (y = None))
      && (length v =? length w) && (same_ref x y || all v w)
  | VMap t x k v, VMap u y k' v' =>
      String.eqb t u && Bool.eqb (bool_decide (x = None)) (bool_decide (y = None))
      && (length v =? length v') && (same_ref x y || all_in k v k' v')
  | VArray t _ v, VArray u _ w | VStruct t _ v, VStruct u _ w => String.eqb t u && all v w
  | _, _ => false
  end.

(** ** Checkers *)

(** How a call of [Check] ends: with a result, an error text and the parameters and
    names, which it may have changed; with a panic; or with [runtime.Goexit]. *)
Inductive outcome :=
  | Checked (result : bool) (error : string) (params : list value) (names : list string)
  | Throws
  | Exits.

Record Checker := mkChecker {
  Name : string;
  Params : list string;
  Check : list value -> list string -> outcome;
}.

Definition Not (checker : Checker) : Checker :=
  mkChecker ("Not(" +:+ Name checker +:+ ")")%string (Params checker) (fun params names =>
    match Check checker params names with
    | Checked result error params names => Checked (negb result) error params names
    | o => o
    end).

(** The parameters that the code indexes. *)
Definition on_one (params : list value) (f : value -> outcome) : outcome :=
  match params with a :: _ => f a | _ => Throws end.
Definition on_two (params : list value) (f : value -> value -> outcome) : outcome :=
  match params with a :: b :: _ => f a b | _ => Throws end.
Definition set_first {A : Type} (x : A) (l : list A) : list A := match l with [] => [] | _ :: l => x :: l end.

Definition isNil (obtained : value) : bool :=
  match obtained with
  | Nil => true
  | VChan _ loc _ | VFunc _ loc _ | VMap _ loc _ _ | VPtr _ loc _ _ | VSlice _ loc _ => bool_decide (loc = None)
  | _ => false
  end.
Definition IsNil : Checker := mkChecker "IsNil" ["value"] (fun params names =>
  on_one params (fun a => Checked (isNil a) "" params names)).
Definition NotNil : Checker := mkChecker "NotNil" ["value"] (fun params names =>
  on_one params (fun a => Checked (negb (isNil a)) "" params names)).

Definition Equals : Checker := mkChecker "Equals" ["obtained"; "expected"] (fun params names =>
  on_two params (fun a b =>
    match go_eq a b with
    | inr r => Checked r "" params names
    | inl v => Checked false v params names
    end)).

Definition DeepEquals : Checker := mkChecker "DeepEquals" ["obtained"; "expected"] (fun params names =>
  on_two params (fun a b => Checked (DeepEqual a b) "" params names)).

(** [value.Len()], for the kinds that have a length. *)
Definition len_of (v : value) : option nat :=
  match v with
  | VMap _ loc keys _ => Some (match loc with Some _ => length keys | None => 0 end)
  | VArray _ _ elems => Some (length elems)
  | VSlice _ loc elems => Some (match loc with Some _ => length elems | None => 0 end)
  | VChan _ loc len => Some (match loc with Some _ => len | None => 0 end)
  | VStr _ s => Some (String.length s)
  | _ => None
  end.
Definition HasLen : Checker := mkChecker "HasLen" ["obtained"; "n"] (fun params names =>
  on_two params (fun a b =>
    match b with
    | VNum t n =>
        if negb (String.eqb t "int") then Checked false "n must be an int" params names
        else
          match len_of a with
          | None => Checked false "obtained value type has no length" params names
          | Some len => Checked (Z.of_nat len =? n)%Z "" params names
          end
    | _ => Checked false "n must be an int" params names
    end)).

(** What a function does that is called without arguments. *)
Inductive func_end := FReturns | FPanics (v : value) | FExits.

Section Checkers.
(** The methods [Error] and [String] and [CheckCommentString] of the values that have
    them, the functions, [regexp.MatchString], and the relations between types. *)
Context (as_error as_Stringer : value -> option string).
Context (is_comment : value -> bool).
Context (Call : value -> func_end).
Context (MatchString : string -> string -> string + bool).
Context (AssignableTo Implements_ : string -> string -> bool).

Definition as_string (v : value) : option string :=
  match v with VStr t s => if String.eqb t "string" then Some s else None | _ => None end.

Definition check_matches (v regex : value) : bool * string :=
  match as_string regex with
  | None => (false, "Regex must be a string")
  | Some reStr =>
      match (match as_string v with Some s => Some s | None => as_Stringer v end) with
      | Some valueStr =>
          match MatchString ("^" +:+ reStr +:+ "$") valueStr with
          | inl err => (false, "Can't compile regex: " +:+ err)
          | inr matches => (matches, "")
          end
      | None => (false, "Obtained value is not a string and has no .String()")
      end
  end%string.
Definition verdict (r : bool * string) (params : list value) (names : list string) : outcome :=
  Checked r.1 r.2 params names.

Definition ErrorMatches : Checker := mkChecker "ErrorMatches" ["value"; "regex"] (fun params names =>
  on_two params (fun a b =>
    match a with
    | Nil => Checked false "Error value is nil" params names
    | _ =>
        match as_error a with
        | None => Checked false "Value is not an error" params names
        | Some msg =>
            let e := VStr "string" msg in
            verdict (check_matches e b) (set_first e params) (set_first "error" names)
        end
    end)).

Definition Matches : Checker := mkChecker "Matches" ["value"; "regex"] (fun params names =>
  on_two params (fun a b => verdict (check_matches a b) params names)).

(** The functions deferred by the two checkers of panics run on every way out; an error
    that is already there makes them return at once. *)
Definition Panics : Checker := mkChecker "Panics" ["function"; "expected"] (fun params names =>
  on_two params (fun a b =>
    match a with
    | VFunc _ _ 0 =>
        match Call a with
        | FReturns => Checked false "Function has not panicked" params names
        | FPanics v => Checked (DeepEqual v b) "" (set_first v params) (set_first "panic" names)
        | FExits => Exits
        end
    | _ => Checked false "Function must take zero arguments" params names
    end)).

Definition PanicMatches : Checker := mkChecker "PanicMatches" ["function"; "expected"] (fun params names =>
  on_two params (fun a b =>
    match a with
    | VFunc _ _ 0 =>
        match Call a with
        | FReturns => Checked false "Function has not panicked" params names
        | FPanics v =>
            let names := set_first "panic" names in
            match as_error v, as_string v with
            | Some msg, _ => let e := VStr "string" msg in verdict (check_matches e b) (set_first e params) names
            | None, Some _ => verdict (check_matches v b) (set_first v params) names
            | None, None => Checked false "Panic value is not a string or an error" params names
            end
        | FExits => Exits
        end
    | _ => Checked false "Function must take zero arguments" params names
    end)).

Definition FitsTypeOf : Checker := mkChecker "FitsTypeOf" ["obtained"; "sample"] (fun params names =>
  on_two params (fun a b =>
    match type_of a, type_of b with
    | None, _ => Checked false "" params names
    | _, None => Checked false "Invalid sample value" params names
    | Some t, Some u => Checked (AssignableTo t u) "" params names
    end)).

Definition Implements : Checker := mkChecker "Implements" ["obtained"; "ifaceptr"] (fun params names =>
  on_two params (fun a b =>
    match type_of a, b with
    | None, _ => Checked false "" params names
    | Some t, VPtr u (Some _) true _ => Checked (Implements_ t u) "" params names
    | _, _ => Checked false "ifaceptr should be a pointer to an interface variable" params names
    end)).

(** ** Check and Assert *)

(** How [internalCheck] ends: with its result, a panic or [runtime.Goexit]. *)
Inductive checked := Verdict (b : bool) (c : C) | Thrown (c : C) | Exited_ (c : C).

(** A nil checker is [None]. *)
Definition internalCheck (obtained : value) (checker : option Checker) (args : list value) (c : C) : checked :=
  match checker with
  | None => Verdict false (with_status failedSt c)
  | Some checker =>
      let args := match last args with Some a => if is_comment a then take (length args - 1) args else args | None => args end in
      let params := obtained :: args in
      if negb (length params =? length (Params checker)) then
        match Params checker with [] => Thrown c | _ => Verdict false (with_status failedSt c) end
      else
        match Check checker params (Params checker) with
        | Checked result error _ _ =>
            if negb result || negb (String.eqb error "") then Verdict false (with_status failedSt c)
            else Verdict true c
        | Throws => Thrown c
        | Exits => Exited_ c
        end
  end.

Definition C_Check (obtained : value) (checker : option Checker) (args : list value) (c : C) : checked :=
  internalCheck obtained checker args c.
Definition Assert (obtained : value) (checker : option Checker) (args : list value) (c : C) : exit * C :=
  match internalCheck obtained checker args c with
  | Verdict true c => (Returned, c)
  | Verdict false c | Exited_ c => (Exited, c)
  | Thrown c => (Panicked AnyValue, c)
  end.

(** The checkers of the package, and what [Not] makes of them. *)
Inductive of_package : Checker -> Prop :=
  | pk_basic ck :
      In ck [IsNil; NotNil; Equals; DeepEquals; HasLen; ErrorMatches; Matches; Panics; PanicMatches;
             FitsTypeOf; Implements] ->
      of_package ck
  | pk_not ck : of_package ck -> of_package (Not ck).

Lemma of_package_params ck : of_package ck -> length (Params ck) = 1 \/ length (Params ck) = 2.
Proof.
  induction 1 as [ck H|ck _ IH]; [|done]. cbn in H. destruct_or?; subst; cbn; auto.
Qed.

Lemma of_package_total ck params names :
  of_package ck -> length params = length (Params ck) -> Check ck params names <> Throws.
Proof.
  intros H. revert params names. induction H as [ck H|ck _ IH]; intros params names Hl.
  - assert (Hl' : exists a l, params = a :: l /\ length l = length (Params ck) - 1).
    { destruct params as [|a l]; [cbn in H; destruct_or?; subst; done|]. exists a, l. cbn in Hl. split; [done|lia]. }
    destruct Hl' as (a & l & -> & Hl'). cbn in H.
    destruct_or?; subst; cbn in Hl'; try (destruct l as [|b l]; [done|]); cbn; unfold verdict; repeat case_match; done.
  - cbn. specialize (IH params names Hl). by destruct (Check ck params names).
Qed.

(** A check with a checker of the package never panics, whatever values, of whatever
    number and types, it is given; it changes nothing of the call when it passes, and
    marks it as failed, and nothing else, when it does not. *)
Theorem Check_total (ck : Checker) (obtained : value) (args : list value) (c : C) :
  of_package ck ->
  C_Check obtained (Some ck) args c = Verdict true c
  \/ C_Check obtained (Some ck) args c = Verdict false (with_status failedSt c)
  \/ C_Check obtained (Some ck) args c = Exited_ c.
Proof.
  intros Hck. unfold C_Check, internalCheck. set (l := match last args with Some _ => _ | None => _ end).
  destruct (Nat.eqb_spec (length (obtained :: l)) (length (Params ck))) as [Hl|Hl]; cbn [negb].
  - pose proof (of_package_total ck (obtained :: l) (Params ck) Hck Hl) as Ht.
    destruct (Check ck _ _) as [r e ps ns| |]; [|done|by right; right].
    destruct r, (String.eqb e ""); cbn; auto.
  - destruct (of_package_params ck Hck) as [Hp|Hp]; destruct (Params ck); [done|auto|done|auto].
Qed.

Definition passes (obtained : value) (ck : Checker) (args : list value) (c : C) : Prop :=
  C_Check obtained (Some ck) args c = Verdict true c.

(** A checker and its [Not] never both pass; one of them passes exactly when the
    checker gives no error text. *)
Theorem Not_excludes (ck : Checker) (obtained : value) (args : list value) (c : C) :
  ~ (passes obtained ck args c /\ passes obtained (Not ck) args c)
  /\ (length (obtained :: args) = length (Params ck) -> (forall a, last args = Some a -> is_comment a = false) ->
      passes obtained ck args c \/ passes obtained (Not ck) args c <->
      exists r ps ns, Check ck (obtained :: args) (Params ck) = Checked r "" ps ns).
Proof.
  unfold passes, C_Check, internalCheck. cbn [Params Not Check]. set (l := match last args with Some _ => _ | None => _ end).
  split.
  - destruct (negb _); [destruct (Params ck); intros []; discriminate|].
    destruct (Check ck _ _) as [r e ps ns| |]; [|by intros []..].
    destruct r, (String.eqb e ""); cbn; intros []; discriminate.
  - intros Hl Hc. assert (El : l = args).
    { unfold l. destruct (last args) as [a|] eqn:Ha; [|done]. by rewrite (Hc a). }
    rewrite El, (proj2 (Nat.eqb_eq _ _) Hl). cbn [negb].
    destruct (Check ck _ _) as [r e ps ns| |]; [|split; [by intros []|by intros (?&?&?&?)]..].
    destruct (String.eqb_spec e "") as [->|He].
    + split; [by eauto|]. intros _. destruct r; cbn; auto.
    + split; [destruct r; cbn; by intros []|]. by intros (?&?&?&[= _ ? _ _]).
Qed.
End Checkers.

(** [NotNil] is [Not(IsNil)] but for its name. *)
Lemma NotNil_Not_IsNil params names : Check NotNil params names = Check (Not IsNil) params names.
Proof. by destruct params. Qed.

(** ** Equality *)

Lemma DeepEqual_same_type a b : DeepEqual a b = true -> type_of a = type_of b.
Proof.
  destruct a, b; cbn; try done; rewrite ?andb_true_iff, ?String.eqb_eq; intros; destruct_and?; by subst.
Qed.

(** The comparison of two lists of parts, which both functions repeat. *)
Local Ltac pairwise :=
  match goal with IH : Forall _ ?vs, Hr : context [String.eqb ?t ?u] |- _ =>
    destruct (String.eqb t u); [|done]; case_match; [|done]; cbn;
    match goal with |- context [_ vs ?ws] => clear -IH Hr; revert ws Hr end;
    induction IH as [|v l Hv _ IHl]; intros [|w ws]; try done; intros Hr;
    destruct (go_eq v w) as [|[]] eqn:E; try done; by rewrite (Hv w E), (IHl ws Hr)
  end.

(** Values that are equal by [==] are deeply equal: [DeepEquals] passes whenever
    [Equals] does. *)
Theorem Equals_DeepEquals (a b : value) (names : list string) ps ns :
  Check Equals [a; b] names = Checked true "" ps ns -> Check DeepEquals [a; b] names = Checked true "" ps ns.
Proof.
  cbn. destruct (go_eq a b) as [|r] eqn:Hr; [done|]. intros [= -> <- <-]. f_equal.
  revert b Hr. induction a as [|t z|t s|t l n|t l n|t l i v IH|t l vs IH|t l ks vs IHk IH|t c vs IH|t c vs IH]
    using value_nested_ind; intros b Hr; destruct b as [|u z'|u s'|u l' n'|u l' n'|u l' i' v'|u l' vs'|u l' ks' vs'|u c' vs'|u c' vs'];
    cbn in Hr |- *; try done; try congruence.
  1, 3, 4: by destruct (String.eqb t u).
  - injection Hr as Hr. by apply andb_true_iff in Hr as [-> ->].
  - pairwise.
  - pairwise.
Qed.

Lemma Equals_DeepEquals_witness :
  let v := VStruct "T" true [VNum "int" 3; VPtr "*T" (Some 7) false Nil; VStr "string" "x"] in
  Check DeepEquals [v; v] ["obtained"; "expected"] = Checked true "" [v; v] ["obtained"; "expected"].
Proof. cbn zeta. apply Equals_DeepEquals. reflexivity. Defined.

(** Both [Equals] and [Not(Equals)] fail on two slices, however they differ: the panic of
    the comparison is an error text, which [Not] keeps. *)
Lemma Not_Equals_fails l m c :
  let ck := C_Check (fun _ => false) (VSlice "[]int" (Some 1) l) in
  ck (Some Equals) [VSlice "[]int" (Some 2) m] c = Verdict false (with_status failedSt c)
  /\ ck (Some (Not Equals)) [VSlice "[]int" (Some 2) m] c = Verdict false (with_status failedSt c).
Proof. done. Qed.

(** ** Witnesses *)

Definition no_texts : value -> option string := fun _ => None.
Definition no_match : string -> string -> string + bool := fun _ _ => inr false.
Definition same_type : string -> string -> bool := String.eqb.
Definition a_call : C := mkC (mkMethod "S" "TestA" true) testKd succeededSt "" false 0.

Lemma Check_total_witness :
  let ck := Not (Panics (fun _ => FPanics (VStr "string" "BOOM"))) in
  C_Check (fun _ => false) (VFunc "func()" (Some 1) 0) (Some ck) [VNum "int" 1] a_call = Verdict true a_call
  \/ C_Check (fun _ => false) (VFunc "func()" (Some 1) 0) (Some ck) [VNum "int" 1] a_call
     = Verdict false (with_status failedSt a_call)
  \/ C_Check (fun _ => false) (VFunc "func()" (Some 1) 0) (Some ck) [VNum "int" 1] a_call = Exited_ a_call.
Proof.
  apply (Check_total no_texts no_texts (fun _ => false) (fun _ => FPanics (VStr "string" "BOOM")) no_match same_type same_type).
  apply pk_not, pk_basic. cbn. tauto.
Defined.

Lemma Not_excludes_witness :
  passes (fun _ => false) Nil IsNil [] a_call \/ passes (fun _ => false) Nil (Not IsNil) [] a_call.
Proof.
  apply (Not_excludes (fun _ => false) IsNil Nil [] a_call); [reflexivity|discriminate|].
  exists true, [Nil], ["value"]. reflexivity.
Defined.
