(* ===== verification/Elastigo.v ===== *)
(** * The elastic search store

    Models [Godeps/.../jbenet/go-datastore/elastigo/datastore.go]. The client of the
    service and the hash are packages outside the repository: a class of the client's
    operations, one of what a service promises whose answers may be lost, and an
    argument for the digest. *)

From S2P Require Import Prelude Hex DsKey Query Datastore.

(** ** The service *)

(** [core.Index], [Get], [Exists] and [Delete] of an index, a type and an id. A call
    fails, or it has a response, whose field [Ok] comes first. *)
Definition slot : Type := bytes * bytes * bytes.
Class Elastic (E : Type) := {
  es_Index : slot -> value -> E -> res bool * E;
  es_Get : slot -> E -> res (bool * value) * E;
  es_Exists : slot -> E -> res bool * E;
  es_Delete : slot -> E -> res bool * E;
}.

(** Documents by their slots; [es_source] is what the service gives back of a value. A
    write that reports a failure may have been done or not. *)
Class ElasticSpec (E : Type) `{Elastic E} := {
  es_docs : E -> gmap slot value;
  es_source : value -> value;
  es_Index_spec s v e : let '(r, e') := es_Index s v e in
    es_docs e' = <[s := es_source v]> (es_docs e) \/ r <> Ok true /\ es_docs e' = es_docs e;
  es_Get_spec s e : let '(r, e') := es_Get s e in
    es_docs e' = es_docs e /\ forall v, r = Ok (true, v) -> es_docs e !! s = Some v;
  es_Exists_spec s e : let '(r, e') := es_Exists s e in
    es_docs e' = es_docs e /\ forall b, r = Ok b -> b = bool_decide (is_Some (es_docs e !! s));
  es_Delete_spec s e : let '(r, e') := es_Delete s e in
    es_docs e' = delete s (es_docs e) \/ r <> Ok true /\ es_docs e' = es_docs e;
}.

(** ** The store *)

Record Datastore_ := mkDatastore { url : bytes; index : bytes; KeyHash : Key -> bytes }.

(** The package's variable [GlobalInstance], and [Domain] and [Port] of the client's. *)
Record globals := mkGlobals { GlobalInstance : bytes; Domain : bytes; Port : bytes }.

(** [strings.Trim(s, "/")]. *)
Fixpoint trim_left (s : bytes) : bytes :=
  match s with c :: s' => if decide (c = slash) then trim_left s' else s | [] => [] end.
Definition Trim_slash (s : bytes) : bytes := rev (trim_left (rev (trim_left s))).

(** [digest] is the BLAKE2b digest. *)
Definition BlakeKeyHash (digest : bytes -> bytes) (key : Key) : bytes :=
  take 16 (hex_EncodeToString (digest (Bytes key))).

(** [parse] is [url.Parse], with the host and the path of its result. *)
Definition NewDatastore (digest : bytes -> bytes) (parse : bytes -> res (bytes * bytes)) (urlstr : bytes) (g : globals)
    : res Datastore_ * globals :=
  if negb (bool_decide (GlobalInstance g = [])) && negb (bool_decide (GlobalInstance g = urlstr)) then
    (Err (errors_New "elastigo only allows one client. See godoc."), g)
  else
    match parse urlstr with
    | Panic => (Panic, g)
    | Err _ => (Err (errors_New "error parsing url"), g)
    | Ok (u_Host, u_Path) =>
        match Split colon u_Host with
        | [] => (Panic, g)
        | h :: rest =>
            let g := mkGlobals (GlobalInstance g) h (match rest with p :: _ => p | [] => Port g end) in
            let i := Trim_slash u_Path in
            if bool_decide (slash ∈ i) then (Err (errors_New "elastigo index cannot have slashes"), g)
            else (Ok (mkDatastore urlstr i (BlakeKeyHash digest)), mkGlobals urlstr (Domain g) (Port g))
        end
    end.

Definition Index (d : Datastore_) (key : Key) : res bytes :=
  if 0 <? length (index d) then Ok (index d) else BaseNamespace (Parent key).

Section Store.
Context {E : Type} `{Elastic E}.

Definition NOT_OK : error := errors_New "Elasticsearch response: NOT OK.".

(** The three parts that every request names. *)
Definition slot_of (d : Datastore_) (key : Key) : res slot :=
  let id := KeyHash d key in
  i ← Index d key;
  t ← Type_ key;
  Ok (i, t, id).

(** A request: the parts are computed before it is made. *)
Definition request {A B : Type} (r : res slot) (f : slot -> E -> res A * E) (g : A -> res B) (e : E) : res B * E :=
  match r with
  | Ok s => let '(a, e) := f s e in (a ≫= g, e)
  | Err err => (Err err, e)
  | Panic => (Panic, e)
  end.

Definition Put (d : Datastore_) (key : Key) (v : value) (e : E) : res unit * E :=
  request (slot_of d key) (fun s => es_Index s v) (fun ok => if ok : bool then Ok tt else Err NOT_OK) e.
Definition Get (d : Datastore_) (key : Key) (e : E) : res value * E :=
  request (slot_of d key) es_Get (fun res => if fst res : bool then Ok (snd res) else Err NOT_OK) e.
Definition Has (d : Datastore_) (key : Key) (e : E) : res bool * E :=
  request (slot_of d key) es_Exists Ok e.
Definition Delete (d : Datastore_) (key : Key) (e : E) : res unit * E :=
  request (slot_of d key) es_Delete (fun ok => if ok : bool then Ok tt else Err NOT_OK) e.
Definition Query_ (q : Query) (e : E) : res Results * E := (Err (errors_New "Not yet implemented!"), e).

Definition elastigo_Datastore (d : Datastore_) : Datastore E := {|
  ds_Put := Put d; ds_Get := Get d; ds_Has := Has d; ds_Delete := Delete d; ds_Query := Query_ |}.
End Store.

(** ** Refinement *)

(** What a call may answer and do over a map: a write that fails may have been done; a
    read that does not fail is right. *)
Section Refinement.
Context {E : Type} `{ElasticSpec E}.

Inductive map_step (m : gmap Key value) : op -> outcome -> gmap Key value -> Prop :=
  | ms_Put k v : map_step m (OPut k v) (RUnit (Ok tt)) (<[k := es_source v]> m)
  | ms_Get k v : m !! k = Some v -> map_step m (OGet k) (RValue (Ok v)) m
  | ms_Has k : map_step m (OHas k) (RBool (Ok (bool_decide (is_Some (m !! k))))) m
  | ms_Delete k : map_step m (ODelete k) (RUnit (Ok tt)) (delete k m)
  | ms_Put_err k v r m' : r <> Ok tt -> m' = m \/ m' = <[k := es_source v]> m -> map_step m (OPut k v) (RUnit r) m'
  | ms_Get_err k r : (forall v, r <> Ok v) -> map_step m (OGet k) (RValue r) m
  | ms_Has_err k r : (forall b, r <> Ok b) -> map_step m (OHas k) (RBool r) m
  | ms_Delete_err k r m' : r <> Ok tt -> m' = m \/ m' = delete k m -> map_step m (ODelete k) (RUnit r) m'.

Inductive map_run (m : gmap Key value) : list op -> list outcome -> gmap Key value -> Prop :=
  | mr_nil : map_run m [] [] m
  | mr_cons o l r rs m1 m2 : map_step m o r m1 -> map_run m1 l rs m2 -> map_run m (o :: l) (r :: rs) m2.

(** The documents of a set of keys are the values of the map. *)
Definition holds (d : Datastore_) (ks : list Key) (e : E) (m : gmap Key value) : Prop :=
  forall k s, k ∈ ks -> slot_of d k = Ok s -> es_docs e !! s = m !! k.
Definition apart (d : Datastore_) (ks : list Key) : Prop :=
  forall k k', k ∈ ks -> k' ∈ ks -> KeyHash d k = KeyHash d k' -> k = k'.

Lemma slot_of_inj d ks k k' s :
  apart d ks -> k ∈ ks -> k' ∈ ks -> slot_of d k = Ok s -> slot_of d k' = Ok s -> k = k'.
Proof.
  intros Ha Hk Hk' H1 H2. apply Ha; [done|done|]. unfold slot_of in *.
  apply bind_Ok in H1 as (i & _ & (t & _ & [= <-])%bind_Ok). apply bind_Ok in H2 as (i' & _ & (t' & _ & [= _ _ ->])%bind_Ok).
  done.
Qed.

Lemma holds_insert d ks e e' m k s v :
  apart d ks -> k ∈ ks -> slot_of d k = Ok s -> holds d ks e m ->
  es_docs e' = <[s := v]> (es_docs e) -> holds d ks e' (<[k := v]> m).
Proof.
  intros Ha Hk Hs Hh He k' s' Hk' Hs'. rewrite He. destruct (decide (k' = k)) as [->|Hne].
  - rewrite Hs in Hs'. injection Hs' as <-. by rewrite !lookup_insert_eq.
  - rewrite !lookup_insert_ne; [by apply Hh|done|]. intros <-. destruct Hne. by eapply slot_of_inj.
Qed.

Lemma holds_delete d ks e e' m k s :
  apart d ks -> k ∈ ks -> slot_of d k = Ok s -> holds d ks e m ->
  es_docs e' = delete s (es_docs e) -> holds d ks e' (delete k m).
Proof.
  intros Ha Hk Hs Hh He k' s' Hk' Hs'. rewrite He. destruct (decide (k' = k)) as [->|Hne].
  - rewrite Hs in Hs'. injection Hs' as <-. by rewrite !lookup_delete_eq.
  - rewrite !lookup_delete_ne; [by apply Hh|done|]. intros <-. destruct Hne. by eapply slot_of_inj.
Qed.

Lemma holds_same d ks e e' m : holds d ks e m -> es_docs e' = es_docs e -> holds d ks e' m.
Proof. intros Hh He k s. rewrite He. apply Hh. Qed.

Lemma run_op_map d ks o e m :
  apart d ks -> op_key o ∈ ks -> holds d ks e m ->
  let D := elastigo_Datastore d in
  exists m', map_step m o (run_op o e).1 m' /\ holds d ks (run_op o e).2 m'.
Proof.
  intros Ha Hk Hh D. destruct o as [k v|k|k|k]; cbn [op_key] in Hk;
    cbn [run_op ds_Put ds_Get ds_Has ds_Delete D elastigo_Datastore out]; unfold out, Put, Get, Has, Delete, request;
    destruct (slot_of d k) as [s|err|] eqn:Hs; cbn [fst snd]; try (exists m; split; [|done]; econstructor; by auto).
  - pose proof (es_Index_spec s v e) as Hi. destruct (es_Index s v e) as [r e']. destruct Hi as [He|[Hr He]].
    + exists (<[k := es_source v]> m). split; [|by eapply holds_insert].
      destruct r as [[]|err|]; cbn; [apply ms_Put|apply ms_Put_err; auto..]; done.
    + exists m. split; [|by eapply holds_same]. apply ms_Put_err; [|by left]. by destruct r as [[]|err|].
  - pose proof (es_Get_spec s e) as Hi. destruct (es_Get s e) as [r e']. destruct Hi as [He Hr].
    exists m. split; [|by eapply holds_same]. destruct r as [[[] v]|err|]; cbn; [|by apply ms_Get_err..].
    apply ms_Get. rewrite <- (Hh k s Hk Hs). by apply Hr.
  - pose proof (es_Exists_spec s e) as Hi. destruct (es_Exists s e) as [r e']. destruct Hi as [He Hr].
    exists m. split; [|by eapply holds_same]. destruct r as [b|err|]; cbn; [|by apply ms_Has_err..].
    rewrite (Hr b eq_refl), (Hh k s Hk Hs). apply ms_Has.
  - pose proof (es_Delete_spec s e) as Hi. destruct (es_Delete s e) as [r e']. destruct Hi as [He|[Hr He]].
    + exists (delete k m). split; [|by eapply holds_delete].
      destruct r as [[]|err|]; cbn; [apply ms_Delete|apply ms_Delete_err; auto..]; done.
    + exists m. split; [|by eapply holds_same]. apply ms_Delete_err; [|by left]. by destruct r as [[]|err|].
Qed.
End Refinement.

(** Against a service whose answers may be lost: over keys whose hashes differ, every
    sequence of calls answers like a map, in which a write that reports an error may
    have been done or not, and a read that reports none is right. *)
Theorem elastigo_refines_map {E} `{ElasticSpec E} (d : Datastore_) (l : list op) (e : E) (m : gmap Key value) :
  let D := elastigo_Datastore d in
  apart d (map op_key l) -> holds d (map op_key l) e m ->
  exists m', map_run m l (run_ops l e).1 m' /\ holds d (map op_key l) (run_ops l e).2 m'.
Proof.
  intros D Ha. assert (Hl : Forall (fun o => op_key o ∈ map op_key l) l).
  { apply Forall_forall. intros o Ho. by apply list_elem_of_fmap_2. }
  revert Hl Ha. generalize (map op_key l) at 1 2 3 4 as ks. intros ks Hl Ha. revert e m.
  induction Hl as [|o l Ho Hl IH]; intros e m Hh; [exists m; split; [constructor|done]|]. cbn [run_ops].
  destruct (run_op_map d ks o e m Ha Ho Hh) as (m1 & H1 & Hh1). destruct (run_op o e) as [r e1]. cbn [fst snd] in *.
  destruct (IH e1 m1 Hh1) as (m2 & H2 & Hh2). destruct (run_ops l e1) as [rs e2]. cbn [fst snd] in *.
  exists m2. split; [by econstructor|done].
Qed.

(** ** One client *)

Section Clients.
Variable (digest : bytes -> bytes) (parse : bytes -> res (bytes * bytes)).

Fixpoint opens (urls : list bytes) (g : globals) : list (res Datastore_) * globals :=
  match urls with
  | [] => ([], g)
  | u :: urls =>
      let '(r, g) := NewDatastore digest parse u g in
      let '(rs, g) := opens urls g in (r :: rs, g)
  end.

Definition domain_of (u : bytes) : option bytes :=
  match parse u with Ok (h, _) => head (Split colon h) | _ => None end.

Lemma NewDatastore_cases u g :
  let '(r, g') := NewDatastore digest parse u g in
  match r with
  | Ok d => url d = u /\ (GlobalInstance g = [] \/ GlobalInstance g = u) /\ GlobalInstance g' = u
            /\ domain_of u = Some (Domain g')
  | _ => GlobalInstance g' = GlobalInstance g /\ (GlobalInstance g <> [] -> GlobalInstance g <> u -> g' = g)
         /\ (g' = g \/ domain_of u = Some (Domain g'))
  end.
Proof.
  unfold NewDatastore, domain_of. destruct (negb _ && negb _) eqn:Hg.
  - cbn. auto.
  - assert (Hg' : GlobalInstance g = [] \/ GlobalInstance g = u).
    { apply andb_false_iff in Hg as [Hg|Hg]; apply negb_false_iff, bool_decide_eq_true in Hg; auto. }
    destruct (parse u) as [[h p]|err|]; [|cbn; auto..].
    destruct (Split colon h) as [|w ws]; [cbn; auto|]. destruct (bool_decide (slash ∈ _)); cbn.
    + split; [done|]. split; [intros; destruct Hg'; by subst|by right].
    + done.
Qed.

Definition settled (u : bytes) (g : globals) : Prop := GlobalInstance g = u /\ domain_of u = Some (Domain g).

Lemma opens_settled u urls g :
  u <> [] -> settled u g -> settled u (opens urls g).2 /\ forall d, Ok d ∈ (opens urls g).1 -> url d = u.
Proof.
  intros Hu. revert g. induction urls as [|w urls IH]; intros g [Hg Hd]; cbn [opens].
  { split; [done|]. intros d Hin. by apply not_elem_of_nil in Hin. }
  pose proof (NewDatastore_cases w g) as Hc. destruct (NewDatastore digest parse w g) as [r g1].
  assert (Hs : settled u g1 /\ forall d, r = Ok d -> url d = u).
  { destruct r as [d|err|]; (split; [|try done]).
    - destruct Hc as (_ & [E|E] & H1 & H2); [congruence|]. split; congruence.
    - destruct Hc as (H0 & [E|E] & _); [congruence|]. intros d' [= <-]. congruence.
    - destruct Hc as (H1 & H2 & H3). destruct (decide (w = u)) as [->|Hw]; [|rewrite H2; [done|congruence..]].
      split; [congruence|]. by destruct H3 as [->|].
    - destruct Hc as (H1 & H2 & H3). destruct (decide (w = u)) as [->|Hw]; [|rewrite H2; [done|congruence..]].
      split; [congruence|]. by destruct H3 as [->|]. }
  destruct Hs as [Hs Hr]. destruct (IH g1 Hs) as [IH1 IH2]. destruct (opens urls g1) as [rs g2]. cbn in *.
  split; [done|]. intros d [E|Hin]%elem_of_cons; [by apply Hr|by apply IH2].
Qed.

(** The stores of one program talk to one service: all that were opened at an address
    that is not empty have the same address, and it is the one that the client of the
    package is left with. *)
Theorem one_client (urls : list bytes) (p : bytes) :
  let '(rs, g) := opens urls (mkGlobals [] [] p) in
  forall d, Ok d ∈ rs -> url d <> [] ->
    domain_of (url d) = Some (Domain g) /\ forall d', Ok d' ∈ rs -> url d' <> [] -> url d' = url d.
Proof.
  assert (H : forall g, GlobalInstance g = [] -> let '(rs, g') := opens urls g in
     forall d, Ok d ∈ rs -> url d <> [] ->
       settled (url d) g' /\ forall d', Ok d' ∈ rs -> url d' <> [] -> url d' = url d).
  { induction urls as [|u urls IH]; intros g Hg; cbn [opens]; [intros d Hin; by apply not_elem_of_nil in Hin|].
    pose proof (NewDatastore_cases u g) as Hc. destruct (NewDatastore digest parse u g) as [r g1].
    assert (Hcase : (exists d0, r = Ok d0 /\ url d0 = u /\ u <> [] /\ settled u g1) \/
                    (GlobalInstance g1 = [] /\ forall d, r = Ok d -> url d = [])).
    { destruct r as [d0|err|]; [|right; split; [by destruct Hc as [-> _]|done]..].
      destruct Hc as (H0 & _ & H1 & H2). destruct (decide (u = [])) as [Hu|Hu].
      - right. split; [congruence|]. intros d [= <-]. congruence.
      - left. exists d0. split_and!; try done. }
    destruct Hcase as [(d0 & -> & <- & Hu & Hs)|[Hg1 Hr]].
    - destruct (opens_settled _ urls g1 Hu Hs) as [Hs2 Hall]. destruct (opens urls g1) as [rs g2]. cbn in Hs2, Hall.
      assert (Hall' : forall d, Ok d ∈ Ok d0 :: rs -> url d = url d0).
      { intros d [[= ->]|Hin]%elem_of_cons; [done|by apply Hall]. }
      intros d Hin _. rewrite (Hall' d Hin). split; [done|]. intros d' Hin' _. by apply Hall'.
    - specialize (IH g1 Hg1). destruct (opens urls g1) as [rs g2]. intros d [E|Hin]%elem_of_cons Hd; [by destruct Hd; apply Hr|].
      destruct (IH d Hin Hd) as [IH1 IH2]. split; [done|]. intros d' [E|Hin']%elem_of_cons Hd'; [by destruct Hd'; apply Hr|].
      by apply IH2. }
  specialize (H (mkGlobals [] [] p) eq_refl). destruct (opens urls _) as [rs g]. intros d Hin Hd.
  destruct (H d Hin Hd) as [[_ H1] H2]. done.
Qed.
End Clients.

(** ** A service to evaluate examples with *)

(** It keeps documents as they are, and loses the answer to a write when told to. *)
Definition service : Type := gmap slot value * list bool.
Definition answer (s : service) : res bool * list bool :=
  match s.2 with true :: l => (Err (errors_New "timeout"), l) | _ :: l => (Ok true, l) | [] => (Ok true, []) end.
#[local] Instance service_Elastic : Elastic service := {|
  es_Index s v e := let '(r, l) := answer e in (r, (<[s := v]> e.1, l));
  es_Get s e := (match e.1 !! s with Some v => Ok (true, v) | None => Err (errors_New "not found") end, e);
  es_Exists s e := (Ok (bool_decide (is_Some (e.1 !! s))), e);
  es_Delete s e := let '(r, l) := answer e in (r, (delete s e.1, l)) |}.
#[local] Program Instance service_ElasticSpec : ElasticSpec service := {| es_docs e := e.1; es_source v := v |}.
Next Obligation. intros s v e. cbn. destruct (answer e) as [r l]. by left. Qed.
Next Obligation. intros s e. cbn. split; [done|]. intros v. by destruct (e.1 !! s) as [w|]; [intros [= ->]|]. Qed.
Next Obligation. intros s e. cbn. split; [done|]. by intros b [= <-]. Qed.
Next Obligation. intros s e. cbn. destruct (answer e) as [r l]. by left. Qed.

Definition blocks_index : Datastore_ := mkDatastore (str "http://h/blocks") (str "blocks") (fun k => key_string k).

Lemma elastigo_refines_map_witness :
  let k := NewKey (str "/a:b") in
  let l := [OPut k (VBytes [x01]); OGet k; OPut k (VBytes [x02]); OHas k] in
  let D := elastigo_Datastore (E := service) blocks_index in
  exists m', map_run (E := service) ∅ l (run_ops l (∅, [false; true])).1 m'.
Proof.
  intros k l D. destruct (elastigo_refines_map (E := service) blocks_index l (∅, [false; true]) ∅) as (m' & Hm & _).
  - intros k1 k2 _ _ E. by apply (inj key_string).
  - intros k1 s _ _. cbn. by rewrite !lookup_empty.
  - by exists m'.
Defined.

Definition host_only : bytes -> res (bytes * bytes) := fun u => Ok (u, str "/i/").

Lemma one_client_witness :
  let d := mkDatastore (str "h:80") (str "i") (BlakeKeyHash id) in
  Ok d ∈ (opens id host_only [str "h:80"; str "g"] (mkGlobals [] [] [])).1
  /\ domain_of host_only (url d) = Some (Domain (opens id host_only [str "h:80"; str "g"] (mkGlobals [] [] [])).2).
Proof.
  intros d. assert (Hin : Ok d ∈ (opens id host_only [str "h:80"; str "g"] (mkGlobals [] [] [])).1) by (left).
  split; [exact Hin|]. apply (one_client id host_only [str "h:80"; str "g"] [] d Hin). discriminate.
Defined.

(** ** Boundaries *)

(** A store without an index takes it from the parent of the key: a key at the top, and
    the root, have none, so that the request names the empty index. *)
Theorem top_level_has_no_index (u : bytes) (h : Key -> bytes) :
  Index (mkDatastore u [] h) (NewKey (str "/a")) = Ok []
  /\ Index (mkDatastore u [] h) (NewKey (str "/")) = Ok []
  /\ Index (mkDatastore u [] h) (NewKey (str "/a/b")) = Ok (str "a").
Proof. split_and!; reflexivity. Qed.

(** An empty address is not remembered: the next call may open another one. *)
Theorem empty_address_is_forgotten :
  match opens id host_only [[]; str "h"] (mkGlobals [] [] []) with
  | ([Ok a; Ok b], g) => url a = [] /\ url b = str "h" /\ Domain g = str "h"
  | _ => False
  end.
Proof. vm_compute. done. Qed.
