(* ===== verification/Goreport.v ===== *)
(** * What the test runner prints

    Models the output writer and the printing of values of several lines of
    [Godeps/.../gopkg.in/check.v1/check.go]. Where a method is in the source, what its
    log holds, the text of its timer and the quoting of a string are parameters. *)

From S2P Require Import Prelude Gotimer Gocheck.

(** ** Multi-line values *)

Definition newline : byte := x0a.

(** [for j < n && s[j-1] != '\n' { j++ }]. Each round moves [j], which ends at [n]. *)
Fixpoint line_end (fuel : nat) (s : bytes) (j : nat) : nat :=
  match fuel with
  | O => j
  | S fuel =>
      if (j <? length s) && negb (bool_decide (s !! (j - 1) = Some newline)) then line_end fuel s (S j) else j
  end.

(** The pieces [s[i:j]], with whether there is more after each. *)
Fixpoint multi_loop (fuel : nat) (s : bytes) (i : nat) : list (bytes * bool) :=
  match fuel with
  | O => []
  | S fuel =>
      if i <? length s then
        let j := line_end (length s) s (i + 1) in
        (take (j - i) (drop i s), j <? length s) :: multi_loop fuel s j
      else []
  end.
Definition pieces (s : bytes) : list (bytes * bool) := multi_loop (length s) s 0.

(** [quote] is [strconv.AppendQuote]. *)
Definition logMultiLine (quote : bytes -> bytes) (s : bytes) : bytes :=
  concat (map (fun '(p, more) => str "...     " ++ quote p ++ (if more : bool then str " +" else []) ++ [newline]) (pieces s)).

Fixpoint isMultiLine_loop (fuel : nat) (s : bytes) (i : nat) : bool :=
  match fuel with
  | O => false
  | S fuel =>
      if i + 1 <? length s then
        if bool_decide (s !! i = Some newline) then true else isMultiLine_loop fuel s (S i)
      else false
  end.
Definition isMultiLine (s : bytes) : bool := isMultiLine_loop (length s) s 0.

(** A reference: lines with their ends. *)
Fixpoint lines (s : bytes) : list bytes :=
  match s with
  | [] => []
  | c :: s => if decide (c = newline) then [c] :: lines s
              else match lines s with [] => [[c]] | l :: ls => (c :: l) :: ls end
  end.

Lemma lines_cons c s : exists l ls, lines (c :: s) = (c :: l) :: ls.
Proof. cbn. case_decide; [by eexists _, _|]. by destruct (lines s); eexists _, _. Qed.

Lemma lines_nil s : lines s = [] -> s = [].
Proof. destruct s as [|c s]; [done|]. by destruct (lines_cons c s) as (l & ls & ->). Qed.

Lemma line_end_spec fuel s t l ls :
  lines t = l :: ls -> length t <= fuel ->
  line_end fuel (s ++ t) (length s + 1) = length s + length l /\ exists t', t = l ++ t' /\ lines t' = ls.
Proof.
  revert s t l ls. induction fuel as [|fuel IH]; intros s t l ls Hl Hf.
  { destruct t; [done|cbn in Hf; lia]. }
  destruct t as [|c t]; [done|]. cbn [lines] in Hl. cbn [line_end]. rewrite length_app. cbn [length] in *.
  replace (length s + 1 - 1) with (length s) by lia. rewrite lookup_app_r, Nat.sub_diag by lia. cbn [lookup list_lookup].
  destruct (decide (c = newline)) as [->|Hc].
  - injection Hl as <- <-. rewrite bool_decide_eq_true_2, andb_false_r by done. cbn. split; [done|by exists t].
  - rewrite (bool_decide_eq_false_2 (Some c = Some newline)) by congruence.
    destruct (lines t) as [|l' ls'] eqn:Ht; injection Hl as <- <-.
    + apply lines_nil in Ht as ->.
      cbn [length]. destruct (Nat.ltb_spec (length s + 1) (length s + 1)); [lia|]. cbn. split; [done|by exists []].
    + destruct t as [|b t]; [done|]. destruct (Nat.ltb_spec (length s + 1) (length s + S (length (b :: t)))) as [_|]; [|cbn in *; lia].
      cbn [negb andb]. replace (s ++ c :: b :: t) with ((s ++ [c]) ++ b :: t) by by rewrite <- app_assoc.
      destruct (IH (s ++ [c]) (b :: t) l' ls' Ht ltac:(cbn in *; lia)) as (E & t' & Et & Hls).
      rewrite length_app in E. cbn [length] in E. replace (S (length s + 1)) with (length s + 1 + 1) by lia. rewrite E.
      split; [cbn; lia|]. exists t'. by rewrite Et.
Qed.

Lemma multi_loop_spec fuel s t :
  length t <= fuel -> map fst (multi_loop fuel (s ++ t) (length s)) = lines t.
Proof.
  revert s t. induction fuel as [|fuel IH]; intros s t Hf; [by destruct t; [|cbn in Hf; lia]|].
  cbn [multi_loop]. rewrite length_app. destruct t as [|c t].
  { rewrite (proj2 (Nat.ltb_ge _ _)) by (cbn; lia). done. }
  destruct (Nat.ltb_spec (length s) (length s + length (c :: t))) as [_|]; [|cbn in *; lia].
  destruct (lines_cons c t) as (l0 & ls & Hl). set (l := c :: l0) in Hl. rewrite Hl.
  assert (Hd : drop (length s) (s ++ c :: t) = c :: t) by apply drop_app_length.
  destruct (line_end_spec (length s + length (c :: t)) s (c :: t) l ls Hl ltac:(lia)) as (-> & t' & Et & Hls).
  cbn [map fst]. rewrite Hd. replace (length s + length l - length s) with (length l) by lia.
  rewrite Et, take_app_length, app_assoc, <- length_app. f_equal. rewrite IH; [done|].
  assert (0 < length l) by (cbn; lia).
  apply (f_equal length) in Et. rewrite length_app in Et. cbn in *. lia.
Qed.

Lemma concat_lines s : concat (lines s) = s.
Proof.
  induction s as [|c s IH]; [done|]. cbn. case_decide; cbn; [by rewrite IH|].
  destruct (lines s); cbn in *; by rewrite <- IH.
Qed.

Lemma isMultiLine_spec fuel s t :
  length t <= fuel -> isMultiLine_loop fuel (s ++ t) (length s) = (1 <? length (lines t)).
Proof.
  revert s t. induction fuel as [|fuel IH]; intros s t Hf; [by destruct t; [|cbn in Hf; lia]|].
  cbn [isMultiLine_loop]. rewrite length_app. destruct t as [|c [|b t]].
  - by rewrite (proj2 (Nat.ltb_ge _ _)) by (cbn; lia).
  - rewrite (proj2 (Nat.ltb_ge _ _)) by (cbn; lia). cbn. by case_decide.
  - rewrite (proj2 (Nat.ltb_lt _ _)) by (cbn; lia). rewrite lookup_app_r, Nat.sub_diag by lia. cbn [lookup list_lookup].
    destruct (lines_cons b t) as (l & ls & Hl). cbn [lines] in Hl |- *. rewrite Hl. destruct (decide (c = newline)) as [->|Hc].
    + by rewrite bool_decide_eq_true_2.
    + rewrite bool_decide_eq_false_2 by congruence. specialize (IH (s ++ [c]) (b :: t) ltac:(cbn in *; lia)).
      rewrite length_app, <- app_assoc in IH. cbn [length app] in IH. rewrite Nat.add_comm in IH. cbn [Nat.add] in IH.
      rewrite IH. cbn [lines]. by rewrite Hl.
Qed.

(** A value of several lines is printed line by line: the quoted pieces are the lines
    of the text, with their ends, and together they are the text; a text counts as
    multi-line exactly when there is more than one. *)
Theorem logMultiLine_lines (s : bytes) :
  map fst (pieces s) = lines s /\ concat (map fst (pieces s)) = s
  /\ isMultiLine s = (1 <? length (pieces s)).
Proof.
  pose proof (multi_loop_spec (length s) [] s ltac:(lia)) as H. cbn [app length] in H. unfold pieces. rewrite H.
  split; [done|]. split; [apply concat_lines|]. rewrite <- (length_map fst), H. by apply (isMultiLine_spec (length s) []).
Qed.

(** ** The output writer *)

Section Output.
(** Where a method is, what the log of a call holds, [timerString]. *)
Context (niceFuncPath niceFuncName : methodType -> string).
Context (logb timerString : C -> string).

Record outputWriter := mkOutput {
  written : string;
  wroteCallProblemLast : bool;
  Stream : bool;
  Verbose : bool;
}.

Definition nl : string := String (Ascii.ascii_of_nat 10) "".
Definition tab : string := String (Ascii.ascii_of_nat 9) "".
Definition separator : string :=
  (nl +:+ "-----------------------------------" +:+ "-----------------------------------" +:+ nl)%string.

Definition renderCallHeader (label : string) (c : C) (prefix suffix : string) : string :=
  (prefix +:+ label +:+ ": " +:+ niceFuncPath (method c) +:+ ": " +:+ niceFuncName (method c) +:+ suffix)%string.

Definition write (s : string) (problem : bool) (ow : outputWriter) : outputWriter :=
  mkOutput (written ow +:+ s) problem (Stream ow) (Verbose ow).

Definition WriteCallStarted (label : string) (c : C) (ow : outputWriter) : outputWriter :=
  if Stream ow then write (renderCallHeader label c "" nl) (wroteCallProblemLast ow) ow else ow.

Definition WriteCallProblem (label : string) (c : C) (ow : outputWriter) : outputWriter :=
  let prefix := if negb (Stream ow) then separator else "" in
  let header := renderCallHeader label c prefix (nl +:+ nl) in
  write (header +:+ (if negb (Stream ow) then logb c else ""))%string true ow.

Definition WriteCallSuccess (label : string) (c : C) (ow : outputWriter) : outputWriter :=
  if Stream ow || (Verbose ow && bool_decide (kind c = testKd)) then
    let suffix := if String.eqb (reason c) "" then "" else (" (" +:+ reason c +:+ ")")%string in
    let suffix := if decide (status c = succeededSt) then (suffix +:+ tab +:+ timerString c)%string else suffix in
    let suffix := (suffix +:+ nl)%string in
    let suffix := if Stream ow then (suffix +:+ nl)%string else suffix in
    let header := renderCallHeader label c "" suffix in
    let header := if negb (Stream ow) && wroteCallProblemLast ow then (separator +:+ header)%string else header in
    write header false ow
  else ow.

Definition reportCallStarted (c : C) (ow : outputWriter) : outputWriter := WriteCallStarted "START" c ow.
Definition reportCallDone (c : C) (ow : outputWriter) : outputWriter :=
  match status c with
  | succeededSt => if mustFail c then WriteCallSuccess "FAIL EXPECTED" c ow else WriteCallSuccess "PASS" c ow
  | skippedSt => WriteCallSuccess "SKIP" c ow
  | failedSt => WriteCallProblem "FAIL" c ow
  | panickedSt => WriteCallProblem "PANIC" c ow
  | fixturePanickedSt => WriteCallProblem "PANIC" c ow
  | missedSt => WriteCallSuccess "MISS" c ow
  end.

(** What a run prints: calls are reported as they start and as they are done. *)
Definition report (e : event) (ow : outputWriter) : outputWriter :=
  match e with Expect c => reportCallStarted c ow | Done c => reportCallDone c ow end.
Definition reports (l : list event) (ow : outputWriter) : outputWriter := fold_left (fun ow e => report e ow) l ow.

(** ** A quiet run *)

Definition problem (c : C) : bool :=
  bool_decide (status c = failedSt \/ status c = panickedSt \/ status c = fixturePanickedSt).
Definition problem_block (c : C) : string :=
  let label := if decide (status c = failedSt) then "FAIL" else "PANIC" in
  (renderCallHeader label c separator (nl +:+ nl) +:+ logb c)%string.
Definition quiet : outputWriter := mkOutput "" false false false.

Lemma string_app_nil_r (s : string) : (s +:+ "")%string = s.
Proof. induction s as [|a s IH]; [done|]. change (String a (s +:+ "")%string = String a s). by rewrite IH. Qed.
Lemma string_app_assoc (a b c : string) : ((a +:+ b) +:+ c = a +:+ (b +:+ c))%string.
Proof.
  induction a as [|x a IH]; [done|]. change (String x ((a +:+ b) +:+ c) = String x (a +:+ (b +:+ c)))%string. by rewrite IH.
Qed.

Lemma reports_cons e l ow : reports (e :: l) ow = reports l (report e ow).
Proof. done. Qed.

Lemma report_done_quiet c ow :
  Stream ow = false -> Verbose ow = false ->
  reportCallDone c ow = if problem c then write (problem_block c) true ow else ow.
Proof.
  intros Hs Hv. unfold reportCallDone, problem, problem_block, WriteCallSuccess, WriteCallProblem. rewrite Hs, Hv.
  destruct (status c); cbn; try done. by destruct (mustFail c).
Qed.

Lemma reports_quiet l ow :
  Stream ow = false -> Verbose ow = false ->
  written (reports l ow) = (written ow +:+ foldr String.append "" (map problem_block (List.filter problem (dones l))))%string
  /\ Stream (reports l ow) = false /\ Verbose (reports l ow) = false.
Proof.
  revert ow. induction l as [|e l IH]; intros ow Hs Hv; [cbn; by rewrite string_app_nil_r|].
  rewrite reports_cons.
  destruct e as [c|c]; cbn [report].
  - rewrite dones_cons_expect. unfold reportCallStarted, WriteCallStarted. rewrite Hs. by apply IH.
  - rewrite dones_cons_done, report_done_quiet by done. cbn [List.filter]. destruct (problem c); [|by apply IH].
    destruct (IH (write (problem_block c) true ow)) as (-> & E2 & E3); [done..|]. split; [|done].
    cbn [map foldr]. apply string_app_assoc.
Qed.

End Output.

(** ** Missed tests *)

(** Nothing is missed unless something went wrong before. *)
Definition excused (w w' : world) : Prop :=
  exists l, events w' = events w ++ l
    /\ ((exists c, c ∈ dones l /\ status c = missedSt) -> exists c, c ∈ dones l /\ problem c = true).
Definition noisy (w w' : world) : Prop :=
  exists l, events w' = events w ++ l /\ exists c, c ∈ dones l /\ problem c = true.

Lemma noisy_excused w w' : noisy w w' -> excused w w'.
Proof. intros (l & E & H). by exists l. Qed.

Lemma excused_refl w : excused w w.
Proof. exists []. split; [by rewrite app_nil_r|]. intros (c & H & _). by apply not_elem_of_nil in H. Qed.

Lemma excused_trans w1 w2 w3 : excused w1 w2 -> excused w2 w3 -> excused w1 w3.
Proof.
  intros (l1 & E1 & H1) (l2 & E2 & H2). exists (l1 ++ l2). split; [by rewrite E2, E1, app_assoc|].
  rewrite dones_app. intros (c & [Hc|Hc]%elem_of_app & Hs).
  - destruct H1 as (c' & Hc' & Hp); [by exists c|]. exists c'. split; [by apply elem_of_app; left|done].
  - destruct H2 as (c' & Hc' & Hp); [by exists c|]. exists c'. split; [by apply elem_of_app; right|done].
Qed.

Lemma noisy_then w1 w2 w3 : noisy w1 w2 -> (exists l, events w3 = events w2 ++ l) -> noisy w1 w3.
Proof.
  intros (l1 & E1 & c & Hc & Hp) (l2 & E2). exists (l1 ++ l2). split; [by rewrite E2, E1, app_assoc|].
  exists c. rewrite dones_app. split; [by apply elem_of_app; left|done].
Qed.

Lemma excused_then_noisy w1 w2 w3 : excused w1 w2 -> noisy w2 w3 -> noisy w1 w3.
Proof.
  intros (l1 & E1 & _) (l2 & E2 & c & Hc & Hp). exists (l1 ++ l2). split; [by rewrite E2, E1, app_assoc|].
  exists c. rewrite dones_app. split; [by apply elem_of_app; right|done].
Qed.

Definition unmissed (w w' : world) : Prop :=
  exists l, events w' = events w ++ l /\ forall c, c ∈ dones l -> status c <> missedSt.

Lemma unmissed_refl w w' : events w' = events w -> unmissed w w'.
Proof. exists []. split; [by rewrite app_nil_r|]. intros c H1. by apply not_elem_of_nil in H1. Qed.

Lemma unmissed_trans w1 w2 w3 : unmissed w1 w2 -> unmissed w2 w3 -> unmissed w1 w3.
Proof.
  intros (l1 & E1 & H1) (l2 & E2 & H2). exists (l1 ++ l2). split; [by rewrite E2, E1, app_assoc|].
  rewrite dones_app. intros c [Hc|Hc]%elem_of_app; auto.
Qed.

Lemma unmissed_excused w w' : unmissed w w' -> excused w w'.
Proof. intros (l & E & H). exists l. split; [done|]. intros (c & Hc & Hs). by destruct (H c Hc). Qed.

Lemma unmissed_writes w w' : unmissed w w' -> exists l, events w' = events w ++ l.
Proof. intros (l & E & _). by exists l. Qed.

Definition unmissed_body (d : body) : Prop :=
  forall c w, status c <> missedSt -> let '(e, c', w') := d c w in unmissed w w' /\ status c' <> missedSt.

Lemma callDone_unmissed e c : status c <> missedSt -> status (callDone e c) <> missedSt.
Proof.
  intros Hc. unfold callDone. destruct e as [| |[|st]|]; [..|destruct st|]; cbn; repeat case_match; cbn in *; congruence.
Qed.

Lemma runFunc_unmissed m k d w :
  unmissed_body d -> unmissed w (runFunc m k d w).2 /\ status (runFunc m k d w).1 <> missedSt
    /\ exists l, events (runFunc m k d w).2 = events w ++ l /\ (runFunc m k d w).1 ∈ dones l.
Proof.
  intros Hd. unfold runFunc. set (c := mkC m k succeededSt "" false 0).
  specialize (Hd c (emit (Expect c) w) ltac:(done)). destruct (d c _) as [[e c'] w']. destruct Hd as [(l & E & H) Hc].
  cbn [fst snd emit events] in *. assert (Hm : status (callDone e c') <> missedSt) by by apply callDone_unmissed.
  split; [|split; [done|]].
  - exists (Expect c :: l ++ [Done (callDone e c')]). cbn [fst snd emit events]. rewrite E. cbn [emit events]. rewrite <- !app_assoc. split; [done|].
    rewrite dones_cons_expect, dones_app. intros c'' [Hc''|Hc'']%elem_of_app; [by apply H|].
    by apply list_elem_of_singleton in Hc'' as ->.
  - exists (Expect c :: l ++ [Done (callDone e c')]). cbn [fst snd emit events]. rewrite E. cbn [emit events]. rewrite <- !app_assoc. split; [done|].
    rewrite dones_cons_expect, dones_app. apply elem_of_app. right. by apply list_elem_of_singleton.
Qed.

Lemma run_acts_unmissed l c : status c <> missedSt -> status (run_acts l c).2 <> missedSt.
Proof.
  revert c. induction l as [|a l IH]; intros c Hc; cbn [run_acts]; [done|].
  destruct a as [| | | |rs|rs|]; cbn; try (destruct (String.eqb rs "")); try done; by apply IH.
Qed.

Lemma call_method_unmissed : unmissed_body call_method.
Proof.
  intros c w Hc. unfold call_method. pose proof (run_acts_unmissed (acts (default (mkScript [] 0) (head (scripts w)))) c Hc) as H.
  destruct (run_acts _ c) as [e c']. split; [by apply unmissed_refl|done].
Qed.

Lemma set_status_unmissed st : st <> missedSt -> unmissed_body (set_status_body st).
Proof. intros Hst c w _. split; [by apply unmissed_refl|done]. Qed.

Lemma runFixture_unmissed m w :
  unmissed w (runFixture m w).2
  /\ forall c, (runFixture m w).1 = Some c -> status c <> missedSt
       /\ exists l, events (runFixture m w).2 = events w ++ l /\ c ∈ dones l.
Proof.
  unfold runFixture. destruct m as [m|]; [|split; [by apply unmissed_refl|done]].
  destruct (runFunc_unmissed m fixtureKd call_method w call_method_unmissed) as (H1 & H2 & H3).
  destruct (runFunc m fixtureKd call_method w) as [c w']. split; [done|]. by intros c' [= <-].
Qed.

Lemma runFixtureWithPanic_unmissed m sk w : unmissed w (runFixtureWithPanic m sk w).2.
Proof.
  unfold runFixtureWithPanic. destruct sk; [by apply unmissed_refl|].
  pose proof (proj1 (runFixture_unmissed m w)) as H. destruct (runFixture m w) as [[c|] w']; [|done]. by case_decide.
Qed.

Lemma bench_loop_unmissed fuel r benchN c w :
  status c <> missedSt -> let '(e, c', w', _) := bench_loop fuel r benchN c w in unmissed w w' /\ status c' <> missedSt.
Proof.
  revert benchN c w. induction fuel as [|fuel IH]; intros benchN c w Hc; cbn [bench_loop]; [by split; [apply unmissed_refl|]|].
  pose proof (runFixtureWithPanic_unmissed (setUpTest r) false w) as H1.
  destruct (runFixtureWithPanic (setUpTest r) false w) as [[[v|] sk] w1]; cbn [snd] in H1; [done|].
  destruct (args_ok (method c)); cbn [negb]; [|done].
  pose proof (call_method_unmissed c w1 Hc) as H2. destruct (call_method c w1) as [[e c2] w2].
  destruct H2 as [H2 Hc2]. pose proof (unmissed_trans _ _ _ H1 H2) as H12.
  destruct (String.prefix "Test" _); [done|]. destruct (String.prefix "Benchmark" _); cbn [negb]; [|done].
  destruct e; try done. destruct (_ || _); [done|].
  pose proof (runFixtureWithPanic_unmissed (tearDownTest r) false w2) as H3.
  destruct (runFixtureWithPanic (tearDownTest r) false w2) as [[[v|] sk'] w3]; cbn [snd] in H3;
    pose proof (unmissed_trans _ _ _ H12 H3) as H13; [done|].
  specialize (IH (next_benchN (benchTime_ r) (took c2) benchN) c2 w3 Hc2).
  destruct (bench_loop fuel r _ c2 w3) as [[[e' c'] w'] sk'']. destruct IH as [H4 Hc'].
  split; [by eapply unmissed_trans|done].
Qed.

Lemma test_body_unmissed r : unmissed_body (test_body r).
Proof.
  intros c w Hc. unfold test_body. pose proof (bench_loop_unmissed 28 r 1 c w Hc) as H1.
  destruct (bench_loop 28 r 1 c w) as [[[e c'] w1] sk]. destruct H1 as [H1 Hc'].
  pose proof (runFixtureWithPanic_unmissed (tearDownTest r) sk w1) as H3.
  destruct (runFixtureWithPanic (tearDownTest r) sk w1) as [[p' sk'] w3]. cbn [snd] in H3.
  split; [by eapply unmissed_trans|done].
Qed.

Lemma skipTests_writes st ms w : exists l, events (skipTests st ms w) = events w ++ l.
Proof. destruct (skipTests_wrote st ms w) as (l & E & _). by exists l. Qed.

Lemma skipTests_unmissed st ms w : st <> missedSt -> unmissed w (skipTests st ms w).
Proof.
  intros Hst. unfold skipTests. revert w. induction ms as [|m ms IH]; intros w; [by apply unmissed_refl|]. cbn [fold_left].
  eapply unmissed_trans; [|apply IH]. by apply runFunc_unmissed, set_status_unmissed.
Qed.

Lemma run_tests_excused r ms w : excused w (run_tests r ms w).
Proof.
  revert w. induction ms as [|m ms IH]; intros w; [apply excused_refl|]. cbn [run_tests]. unfold runTest.
  destruct (runFunc_unmissed m testKd (test_body r) w (test_body_unmissed r)) as (H1 & _ & l & E & Hin).
  destruct (runFunc m testKd (test_body r) w) as [c w']. cbn [fst snd] in *. case_decide as Hc.
  - apply noisy_excused. apply (noisy_then w w'); [|apply skipTests_writes].
    exists l. split; [done|]. exists c. split; [done|]. unfold problem. rewrite Hc. done.
  - eapply excused_trans; [by apply unmissed_excused|apply IH].
Qed.

Lemma checkFixtureArgs_noisy r w :
  let '(ok, w') := checkFixtureArgs r w in if ok then unmissed w w' else noisy w w'.
Proof.
  unfold checkFixtureArgs. set (bad := bad_args _ ++ _). clearbody bad.
  assert (H : unmissed w (fold_left (fun w m => (runFunc m fixtureKd (set_status_body panickedSt) w).2) bad w)
              /\ (bad <> [] -> noisy w (fold_left (fun w m => (runFunc m fixtureKd (set_status_body panickedSt) w).2) bad w))).
  { revert w. induction bad as [|m bad IH]; intros w; [by split; [apply unmissed_refl|]|]. cbn [fold_left].
    destruct (runFunc_unmissed m fixtureKd (set_status_body panickedSt) w ltac:(by apply set_status_unmissed)) as (H1 & _ & l & E & Hin).
    destruct (IH (runFunc m fixtureKd (set_status_body panickedSt) w).2) as [IH1 _].
    split; [by eapply unmissed_trans|]. intros _. eapply noisy_then; [|by apply unmissed_writes].
    exists l. split; [done|]. eexists. split; [done|]. done. }
  case_bool_decide; [by apply H|]. by apply H.
Qed.

Lemma run_calls_excused r w : excused w (run_calls r w).
Proof.
  unfold run_calls. pose proof (checkFixtureArgs_noisy r w) as H0. destruct (checkFixtureArgs r w) as [[] w0].
  2: { apply noisy_excused. by eapply noisy_then; [|apply skipTests_writes]. }
  eapply excused_trans; [by apply unmissed_excused|]. clear H0.
  destruct (runFixture_unmissed (setUpSuite r) w0) as [H1 Hc]. destruct (runFixture (setUpSuite r) w0) as [c w1]. cbn [fst snd] in *.
  eapply excused_trans; [|by apply unmissed_excused, runFixture_unmissed].
  destruct c as [c|]; [|by eapply excused_trans; [apply unmissed_excused|apply run_tests_excused]].
  destruct (Hc c eq_refl) as (Hm & l & E & Hin). destruct (status c) eqn:Hs; try done.
  all: try (by eapply excused_trans; [apply unmissed_excused|apply run_tests_excused]).
  2: by apply unmissed_excused; eapply unmissed_trans; [|by apply skipTests_unmissed].
  all: apply noisy_excused; eapply noisy_then; [|apply skipTests_writes].
  all: exists l; split; [done|]; exists c; split; [done|]; unfold problem; by rewrite Hs.
Qed.

Lemma problem_passes c : problem c = false -> status c <> missedSt -> status c = succeededSt \/ status c = skippedSt.
Proof. unfold problem. intros H%bool_decide_eq_false Hm. destruct (status c); auto; tauto. Qed.

(** A run that is neither streamed nor verbose prints a block for each call that went
    wrong, in order, and nothing else: of a suite whose filter compiles it prints
    nothing exactly when the suite passes. *)
Theorem quiet_run (path name : methodType -> string) (logb timer : C -> string)
    (suite : list methodType) (conf : RunConf) (s : list script) :
  (forall msg, Filter_ conf <> BadFilter msg) ->
  let '(r, w) := Run suite conf (mkWorld s []) in
  let printed := written (reports path name logb timer (events w) quiet) in
  printed = foldr String.append "" (map (problem_block path name logb) (List.filter problem (dones (events w))))
  /\ (printed = "" <-> Passed r = true).
Proof.
  intros Hf. pose proof (Run_passes_iff suite conf s) as HP.
  assert (He : let w := (Run suite conf (mkWorld s [])).2 in
            (exists c, c ∈ dones (events w) /\ status c = missedSt) -> exists c, c ∈ dones (events w) /\ problem c = true).
  { unfold Run, run. destruct (runError _); [by intros (c & Hc & _); apply not_elem_of_nil in Hc|].
    destruct (tests _); [by intros (c & Hc & _); apply not_elem_of_nil in Hc|]. cbn [scripts snd].
    destruct (run_calls_excused (newSuiteRunner suite conf) (mkWorld s [])) as (evs & -> & H). exact H. }
  destruct (Run suite conf (mkWorld s [])) as [r w]. cbn [snd] in He.
  destruct (reports_quiet path name logb timer (events w) quiet eq_refl eq_refl) as (E & _). split; [exact E|].
  rewrite HP, E. clear E HP. change (written quiet) with "". cbn [String.append].
  split.
  - intros H. split; [|done]. apply Forall_forall. intros c Hc. assert (Hn : List.filter problem (dones (events w)) = []).
    { destruct (List.filter problem (dones (events w))); [done|]. discriminate H. }
    assert (Hp : forall c, c ∈ dones (events w) -> problem c = false).
    { intros c' Hc'. destruct (problem c') eqn:Hp; [|done]. assert (Hin : In c' (List.filter problem (dones (events w)))).
      { apply filter_In. split; [by apply list_elem_of_In|done]. }
      by rewrite Hn in Hin. }
    apply problem_passes; [by apply Hp|]. intros Hm. destruct He as (c' & Hc' & Hp'); [by exists c|].
    rewrite Hp in Hp'; [done|done].
  - intros [H _]. assert (List.filter problem (dones (events w)) = []) as Hn; [|by rewrite Hn].
    clear He. induction H as [|c l Hc _ IH]; [done|]. cbn [List.filter].
    assert (problem c = false) as ->; [|done].
    unfold problem. apply bool_decide_eq_false_2. destruct Hc as [E|E]; rewrite E; naive_solver.
Qed.

Definition a_suite : list methodType := [mkMethod "S" "TestA" true; mkMethod "S" "TestB" true].

Lemma quiet_run_witness :
  let conf := mkConf NoFilter false 0 in
  let '(r, w) := Run a_suite conf (mkWorld [mkScript [Fail] 1; mkScript [] 2] []) in
  let printed := written (reports m_name m_name (fun _ => "log") (fun _ => "0.000s") (events w) quiet) in
  printed = foldr String.append "" (map (problem_block m_name m_name (fun _ => "log")) (List.filter problem (dones (events w))))
  /\ (printed = "" <-> Passed r = true).
Proof. apply (quiet_run m_name m_name (fun _ => "log") (fun _ => "0.000s") a_suite). discriminate. Defined.
