(* ===== verification/Gomain.v ===== *)
(** * The entry point of the tests

    Models the rest of [run.go] of [Godeps/.../gopkg.in/check.v1]: the registry of
    suites and [TestingT], which makes a configuration of the flags and runs or lists the
    suites. [regexp.Compile] is a parameter, and
    the runs keep no working directory, as in [Gocheck]. *)

From stdpp Require Import strings.
From S2P Require Import Prelude Gocheck.
Open Scope string_scope.

(** [allSuites], and what [Suite] does to it. *)
Definition Suite {A} (suite : A) (allSuites : list A) : A * list A := (suite, (allSuites ++ [suite])%list).

(** The values of the flags, [-gocheck.*] and [-check.*]. *)
Record flags := mkFlags {
  oldFilterFlag : string; oldVerboseFlag : bool; oldStreamFlag : bool; oldBenchFlag : bool;
  oldBenchTime : Z; oldListFlag : bool; oldWorkFlag : bool;
  newFilterFlag : string; newVerboseFlag : bool; newStreamFlag : bool; newBenchFlag : bool;
  newBenchTime : Z; newBenchMem : bool; newListFlag : bool; newWorkFlag : bool;
}.
Definition second : Z := 1000000000.
Definition defaults : flags :=
  mkFlags "" false false false second false false "" false false false second false false false.

(** The whole of [RunConf]; what the runner itself uses of it, with the filter compiled. *)
Record conf := mkFullConf {
  Stream : bool; Verbose : bool; Filter_text : string; Benchmark_ : bool; BenchmarkTime_ : Z; BenchmarkMem : bool;
  KeepWorkDir : bool;
}.
Definition conf_of (f : flags) : conf :=
  let benchTime := newBenchTime f in
  let benchTime := if (benchTime =? second)%Z then oldBenchTime f else benchTime in
  mkFullConf (oldStreamFlag f || newStreamFlag f) (oldVerboseFlag f || newVerboseFlag f)
    (oldFilterFlag f +:+ newFilterFlag f) (oldBenchFlag f || newBenchFlag f) benchTime (newBenchMem f)
    (oldWorkFlag f || newWorkFlag f).

Section Main.
Context (Compile : string -> string + (string -> bool)).

Definition run_conf (c : conf) : RunConf :=
  mkConf (if decide (Filter_text c = "") then NoFilter
          else match Compile (Filter_text c) with inl msg => BadFilter msg | inr re => Filter re end)
    (Benchmark_ c) (BenchmarkTime_ c).

(** The names on [os.Stdout], the line of [println], and whether [testingT] failed. *)
Record outcome := mkOutcome { listed : list string; summary : option string; failed : bool }.
Definition TestingT (f : flags) (allSuites : list (list methodType)) (w : world) : outcome :=
  let c := run_conf (conf_of f) in
  if oldListFlag f || newListFlag f then mkOutcome (ListAll allSuites c) None false
  else
    let result := RunAll allSuites c w in
    mkOutcome [] (Some (Result_String result)) (negb (Passed result)).

(** ** What a run says *)

(** The results of the suites, one after the other. *)
Fixpoint results (c : RunConf) (suites : list (list methodType)) (w : world) : list Result :=
  match suites with
  | [] => []
  | s :: suites => let '(r, w) := Run s c w in r :: results c suites w
  end.

(** A result without what keeps the suite from running. *)
Definition counted_ok (r : Result) : bool :=
  ((Failed r =? 0) && (Panicked_ r =? 0) && (FixturePanicked r =? 0) && (Missed r =? 0))%nat.

Lemma counted_ok_Add r r' : counted_ok (Add r r') = counted_ok r && counted_ok r'.
Proof. unfold counted_ok, Add. cbn. apply eq_bool_prop_intro. rewrite !Is_true_true, !andb_true_iff, !Nat.eqb_eq. lia. Qed.

Lemma RunAll_results c suites w r :
  counted_ok (RunAll_loop c suites w r) = counted_ok r && forallb counted_ok (results c suites w)
  /\ RunError (RunAll_loop c suites w r) = RunError r.
Proof.
  revert w r. induction suites as [|s suites IH]; intros w r; cbn [RunAll_loop results].
  - by rewrite andb_true_r.
  - destruct (Run s c w) as [r' w']. destruct (IH w' (Add r r')) as [-> ->]. cbn [forallb].
    by rewrite counted_ok_Add, andb_assoc.
Qed.

Lemma Passed_counted r : Passed r = counted_ok r && match RunError r with None => true | Some _ => false end.
Proof. done. Qed.

Lemma forallb_false {A} (f : A -> bool) l : forallb f l = false <-> exists x, x ∈ l /\ f x = false.
Proof.
  induction l as [|x l IH]; cbn [forallb].
  - split; [done|]. by intros (x & Hx%elem_of_nil & _).
  - rewrite andb_false_iff, IH. setoid_rewrite elem_of_cons. naive_solver.
Qed.

(** The test binary fails exactly when it was not asked to list and, of some suite, a
    call failed, panicked or was missed. *)
Theorem TestingT_fails f suites w :
  failed (TestingT f suites w) = true <->
    oldListFlag f = false /\ newListFlag f = false
    /\ exists r, r ∈ results (run_conf (conf_of f)) suites w /\ counted_ok r = false.
Proof.
  unfold TestingT. destruct (oldListFlag f), (newListFlag f); cbn [orb failed]; try (split; [done|naive_solver]).
  rewrite Passed_counted. unfold RunAll. destruct (RunAll_results (run_conf (conf_of f)) suites w no_result) as [-> ->].
  change (counted_ok no_result) with true. cbn [andb RunError no_result].
  rewrite andb_true_r, negb_true_iff, forallb_false. tauto.
Qed.
End Main.

(** A filter that does not compile (the flags' filters are taken together) makes the
    test binary succeed without running anything. *)
Lemma bad_filter_succeeds Compile f suites w msg :
  Filter_text (conf_of f) <> "" -> Compile (Filter_text (conf_of f)) = inl msg ->
  oldListFlag f = false -> newListFlag f = false ->
  TestingT Compile f suites w = mkOutcome [] (Some "OK: 0 passed") false.
Proof.
  intros Hne Hbad Ho Hn. unfold TestingT. rewrite Ho, Hn. cbn [orb].
  assert (RunAll suites (run_conf Compile (conf_of f)) w = no_result) as ->; [|done].
  unfold run_conf. rewrite decide_False, Hbad by done. unfold RunAll.
  induction suites as [|s suites IH]; [done|]. cbn. apply IH.
Qed.

Lemma TestingT_fails_witness :
  exists r, r ∈ results (run_conf (fun _ => inl "bad") (conf_of defaults)) [[mkMethod "S" "TestA" true]]
              (mkWorld [mkScript [Fail] 0] [])
            /\ counted_ok r = false.
Proof.
  apply (TestingT_fails (fun _ => inl "bad") defaults [[mkMethod "S" "TestA" true]] (mkWorld [mkScript [Fail] 0] [])).
  vm_compute. reflexivity.
Defined.
