(* ===== verification/Golog.v ===== *)
(** * What a test writes, and where

    Models the helpers of [Godeps/.../gopkg.in/check.v1]: the temporary directories
    of a run, the log of a call, and the texts that a failed check leaves in it
    ([check.go], [indent] of [printer.go], the logging methods of [helpers.go]).
    Values are known by the texts that [fmt] makes of them, the stack by the list of
    its frames. *)

From stdpp Require Import pretty.
From S2P Require Import Prelude DsKey Goreport.
From S2P Require Fs.

Definition decimal (n : nat) : bytes := str (pretty (N.of_nat n)).

(** ** Temporary directories *)

(** The directories that exist, by the elements of their rooted paths; the errors of
    the coming calls of [os.Mkdir] that fail; how many numbers were drawn. *)
Record disk := mkDisk { made : gset (list bytes); mkdir_errors : list (option string); drawn : nat }.

Definition Mkdir (path : bytes) (s : disk) : option error * disk :=
  match mkdir_errors s with
  | Some msg :: es => (Some (errors_New msg), mkDisk (made s) es (drawn s))
  | _ =>
      if decide (resolve path ∈ made s)
      then (Some (errors_New "file exists"), mkDisk (made s) (tail (mkdir_errors s)) (drawn s))
      else (None, mkDisk ({[resolve path]} ∪ made s) (tail (mkdir_errors s)) (drawn s))
  end.
(** Without an error nothing is left of the path. *)
Definition RemoveAll (path : bytes) (s : disk) : disk :=
  mkDisk (filter (fun p => ~ resolve path `prefix_of` p) (made s)) (mkdir_errors s) (drawn s).

Record tempDir := mkTempDir { path : bytes; counter : nat }.
Definition noTempDir : tempDir := mkTempDir [] 0.

Definition digit (c : byte) : Prop := c ∈ str "0123456789".
#[export] Instance digit_dec c : Decision (digit c).
Proof. unfold digit. apply _. Defined.

Lemma str_inj s s' : str s = str s' -> s = s'.
Proof.
  unfold str. intros He. rewrite <- (String.string_of_list_byte_of_string s), He.
  apply String.string_of_list_byte_of_string.
Qed.

Lemma pretty_digits x s : Forall digit (str s) -> Forall digit (str (pretty_N_go x s)).
Proof.
  revert s. induction (N.lt_wf_0 x) as [x _ IH]. intros s Hs. destruct (decide (x = 0%N)) as [->|Hx].
  { by rewrite pretty_N_go_0. }
  rewrite pretty_N_go_step by lia. apply IH; [apply N.div_lt; lia|].
  change (str (String ?c ?s)) with (Ascii.byte_of_ascii c :: str s). constructor; [|done].
  unfold pretty_N_char. repeat case_match; decide_compute.
Qed.

Lemma pretty_longer x s : String.length s <= String.length (pretty_N_go x s).
Proof.
  revert s. induction (N.lt_wf_0 x) as [x _ IH]. intros s. destruct (decide (x = 0%N)) as [->|Hx].
  { by rewrite pretty_N_go_0. }
  rewrite pretty_N_go_step by lia. etransitivity; [|apply IH, N.div_lt; lia]. simpl. lia.
Qed.

Lemma decimal_digits n : Forall digit (decimal n) /\ decimal n <> [].
Proof.
  unfold decimal, pretty, pretty_N. case_decide; [split; [by apply Forall_singleton; decide_compute|done]|].
  split; [by apply pretty_digits|]. rewrite pretty_N_go_step by lia.
  pose proof (pretty_longer (N.of_nat n `div` 10) (String (pretty_N_char (N.of_nat n `mod` 10)) "")) as Hl.
  destruct (pretty_N_go _ _); [simpl in Hl; lia|done].
Qed.

Lemma decimal_inj n m : decimal n = decimal m -> n = m.
Proof. intros He%str_inj%(inj pretty). lia. Qed.

Lemma decimal_good n : good (decimal n).
Proof.
  destruct (decimal_digits n) as [Hd Hne].
  assert (~ digit dot /\ ~ digit slash) as [Hdot Hslash] by (split; decide_compute).
  split_and!; [done|..].
  - intros He. rewrite He in Hd. by apply Forall_cons_1 in Hd as [Hd _].
  - intros He. rewrite He in Hd. by apply Forall_cons_1 in Hd as [Hd _].
  - intros Hin. by apply (proj1 (Forall_forall _ _) Hd) in Hin.
Qed.

Section TempDir.
(** [os.TempDir()], and the numbers of [rand.Int()]. *)
Context (TempDir : bytes) (rand : nat -> nat).

Definition candidate (n : nat) : bytes := TempDir ++ str "/check-" ++ decimal (rand n).

(** The loop of [newPath]: [td.path], or the last error. *)
Fixpoint new_root (tries : nat) (s : disk) : bytes * disk :=
  match tries with
  | O => ([], s)
  | S tries =>
      let p := candidate (drawn s) in
      match Mkdir p (mkDisk (made s) (mkdir_errors s) (S (drawn s))) with
      | (None, s) => (p, s)
      | (Some _, s) => new_root tries s
      end
  end.

Definition newPath (td : tempDir) (s : disk) : res bytes * tempDir * disk :=
  let '(p, s) := match path td with [] => new_root 100 s | p => (p, s) end in
  match p with
  | [] => (Panic, td, s)
  | p => (Ok (Fs.filepath_Join [p; decimal (counter td)]), mkTempDir p (S (counter td)), s)
  end.

Definition removeAll (td : tempDir) (s : disk) : disk :=
  match path td with [] => s | p => RemoveAll p s end.

(** [C.MkDir] *)
Definition MkDir (td : tempDir) (s : disk) : res bytes * tempDir * disk :=
  let '(r, td, s) := newPath td s in
  match r with
  | Ok p => match Mkdir p s with (None, s) => (Ok p, td, s) | (Some _, s) => (Panic, td, s) end
  | Err e => (Err e, td, s)
  | Panic => (Panic, td, s)
  end.

(** The calls of a run, in turn. *)
Fixpoint MkDirs (n : nat) (td : tempDir) (s : disk) : list (res bytes) * tempDir * disk :=
  match n with
  | O => ([], td, s)
  | S n =>
      let '(r, td, s) := MkDir td s in
      let '(rs, td, s) := MkDirs n td s in
      (r :: rs, td, s)
  end.

(** ** They are new, and they go *)

End TempDir.

(** The paths, and where they lead. *)
Lemma join_resolve p n :
  Fs.rooted p = true -> resolve (Fs.filepath_Join [p; decimal n]) = resolve p ++ [decimal n].
Proof.
  destruct p as [|c p]; [done|]. intros Hr%bool_decide_eq_true. injection Hr as ->.
  destruct (decimal_good n) as (Hne & _). rewrite Fs.filepath_Join_rooted by by apply Forall_singleton.
  rewrite resolve_key_of by apply resolve_good. change (Join [slash :: p; decimal n] slash) with ((slash :: p) ++ slash :: decimal n).
  rewrite Fs.resolve_app_slash, Split_nosep by apply decimal_good.
  rewrite clean_elems_id by by apply Forall_singleton, decimal_good. by rewrite rev_involutive.
Qed.

Section Fresh.
Context (TempDir : bytes) (rand : nat -> nat).
Hypothesis rooted_TempDir : Fs.rooted TempDir = true.
Implicit Types s : disk.

(** What a directory has after [n] calls of [newPath], beside what was there. *)
Definition below (p : bytes) (n : nat) : gset (list bytes) :=
  {[resolve p]} ∪ list_to_set (map (fun i => resolve p ++ [decimal i]) (seq 0 n)).

Lemma elem_of_below p n q :
  q ∈ below p n <-> q = resolve p \/ exists i, i < n /\ q = resolve p ++ [decimal i].
Proof.
  unfold below. rewrite elem_of_union, elem_of_singleton, elem_of_list_to_set, list_elem_of_fmap.
  setoid_rewrite elem_of_seq. split; (intros [?|(i & ? & ?)]; [by left|right; exists i]); split; (done || lia).
Qed.

Lemma below_S p n : below p (S n) = {[resolve p ++ [decimal n]]} ∪ below p n.
Proof.
  apply set_eq. intros q. rewrite elem_of_union, elem_of_singleton, !elem_of_below. split.
  - intros [?|(i & Hi & ->)]; [by right; left|]. destruct (decide (i = n)) as [->|]; [by left|].
    right. right. exists i. split; [lia|done].
  - intros [->|[?|(i & Hi & ->)]]; [right; exists n; split; [lia|done]|by left|right; exists i; split; [lia|done]].
Qed.

(** Nothing is below a path that is not there. *)
Definition rooted_tree (t : gset (list bytes)) : Prop := forall p e, p ++ [e] ∈ t -> p ∈ t.

Lemma rooted_prefix t p q : rooted_tree t -> p ++ q ∈ t -> p ∈ t.
Proof.
  intros Ht. revert p. induction q as [|e q IH] using rev_ind; intros p Hq; [by rewrite app_nil_r in Hq|].
  rewrite app_assoc in Hq. by apply IH, (Ht _ e).
Qed.

Lemma candidate_rooted n : Fs.rooted (candidate TempDir rand n) = true.
Proof. unfold candidate. destruct TempDir as [|c d]; [done|]. exact rooted_TempDir. Qed.

(** The loop of [newPath] takes the first number that gives a new name. *)
Lemma new_root_ok tries s i :
  mkdir_errors s = [] -> i < tries -> resolve (candidate TempDir rand (drawn s + i)) ∉ made s ->
  exists n, (resolve (candidate TempDir rand n) ∉ made s)
    /\ exists d, new_root TempDir rand tries s
       = (candidate TempDir rand n, mkDisk ({[resolve (candidate TempDir rand n)]} ∪ made s) [] d).
Proof.
  revert s i. induction tries as [|tries IH]; intros s i Hf Hi Hfree; [lia|]. cbn [new_root]. unfold Mkdir.
  cbn [mkdir_errors made drawn]. rewrite Hf. case_decide as Hin.
  - destruct i as [|i]; [by rewrite Nat.add_0_r in Hfree|].
    apply (IH (mkDisk (made s) [] (S (drawn s))) i); [done|lia|]. cbn [made drawn].
    by rewrite <- Nat.add_succ_comm in Hfree.
  - exists (drawn s). split; [done|]. by eexists.
Qed.

Lemma MkDir_step p n s t :
  Fs.rooted p = true -> resolve p ∉ t -> rooted_tree t ->
  mkdir_errors s = [] -> made s = below p n ∪ t ->
  exists d, MkDir TempDir rand (mkTempDir p n) s
    = (Ok (Fs.filepath_Join [p; decimal n]), mkTempDir p (S n), mkDisk (below p (S n) ∪ t) [] d).
Proof.
  intros Hr Hnew Ht Hf Hm. unfold MkDir, newPath. cbn [path counter]. destruct p as [|c p]; [done|].
  unfold Mkdir. rewrite Hf, join_resolve by done. case_decide as Hin.
  - exfalso. rewrite Hm, elem_of_union, elem_of_below in Hin. destruct Hin as [[He|(i & Hi & He)]|Hin].
    + apply (f_equal length) in He. rewrite length_app in He. simpl in He. lia.
    + apply app_inv_head in He. injection He as He%decimal_inj. lia.
    + by apply Hnew, (Ht _ (decimal n)).
  - eexists. rewrite Hm, below_S, <- union_assoc_L. reflexivity.
Qed.

Lemma MkDirs_from p k n s t :
  Fs.rooted p = true -> resolve p ∉ t -> rooted_tree t ->
  mkdir_errors s = [] -> made s = below p n ∪ t ->
  exists d, MkDirs TempDir rand k (mkTempDir p n) s
    = (map (fun i => Ok (Fs.filepath_Join [p; decimal i])) (seq n k), mkTempDir p (n + k),
       mkDisk (below p (n + k) ∪ t) [] d).
Proof.
  intros Hr Hnew Ht. revert n s. induction k as [|k IH]; intros n s Hf Hm; cbn [MkDirs].
  { exists (drawn s). rewrite Nat.add_0_r, <- Hm. destruct s. cbn in *. by subst. }
  destruct (MkDir_step p n s t Hr Hnew Ht Hf Hm) as [d ->].
  destruct (IH (S n) (mkDisk (below p (S n) ∪ t) [] d)) as [d' ->]; [done..|]. exists d'.
  by rewrite <- Nat.add_succ_comm.
Qed.

(** What [removeAll] leaves. *)
Lemma remove_below p n t :
  resolve p ∉ t -> rooted_tree t -> filter (fun q => ~ resolve p `prefix_of` q) (below p n ∪ t) = t.
Proof.
  intros Hnew Ht. apply set_eq. intros q. rewrite elem_of_filter, elem_of_union, elem_of_below. split.
  - intros [Hp [[->|(i & _ & ->)]|Hq]]; [by destruct Hp|destruct Hp; by eexists|done].
  - intros Hq. split; [|by right]. intros [r ->]. by apply Hnew, (rooted_prefix t _ r).
Qed.
End Fresh.

(** The directories that a run asks for are new, all different, and there; and when
    the run is over nothing is left of them, while everything else is as it was. *)
Theorem MkDir_removeAll TempDir rand k s i :
  Fs.rooted TempDir = true -> mkdir_errors s = [] -> rooted_tree (made s) -> i < 100 ->
  resolve (candidate TempDir rand (drawn s + i)) ∉ made s ->
  let '(rs, td, s') := MkDirs TempDir rand (S k) noTempDir s in
  exists ps, rs = map Ok ps /\ length ps = S k /\ NoDup (map resolve ps)
    /\ Forall (fun p => (resolve p ∉ made s) /\ resolve p ∈ made s') ps
    /\ made (removeAll td s') = made s.
Proof.
  intros Hroot Hf Ht Hi Hfree. destruct (new_root_ok TempDir rand 100 s i Hf Hi Hfree) as (n & Hnew & d & Hn).
  pose proof (candidate_rooted TempDir rand Hroot n) as Hr. set (p := candidate TempDir rand n) in *.
  assert (H1 : MkDirs TempDir rand (S k) noTempDir s
             = MkDirs TempDir rand (S k) (mkTempDir p 0) (mkDisk ({[resolve p]} ∪ made s) [] d)).
  { cbn [MkDirs]. unfold MkDir, newPath. cbn [path counter noTempDir]. rewrite Hn. destruct p as [|c p]; done. }
  destruct (MkDirs_from TempDir rand p (S k) 0 (mkDisk ({[resolve p]} ∪ made s) [] d) (made s)) as [d' Hk];
    [done..| |].
  { unfold below. cbn. by rewrite union_empty_r_L. }
  rewrite H1, Hk. exists (map (fun i => Fs.filepath_Join [p; decimal i]) (seq 0 (S k))).
  assert (Hres : map resolve (map (fun i => Fs.filepath_Join [p; decimal i]) (seq 0 (S k)))
               = map (fun i => resolve p ++ [decimal i]) (seq 0 (S k))).
  { rewrite map_map. apply map_ext. intros j. by apply join_resolve. }
  split_and!.
  - by rewrite map_map.
  - by rewrite length_map, length_seq.
  - rewrite Hres. apply (NoDup_fmap_2_strong (fun i => resolve p ++ [decimal i])); [|apply NoDup_seq].
    intros x y _ _ He%app_inv_head. injection He as He. by apply decimal_inj.
  - apply Forall_forall. intros q (j & -> & Hj)%list_elem_of_fmap. rewrite join_resolve by done. split.
    + intros Hin. by apply Hnew, (Ht _ (decimal j)).
    + cbn [made]. rewrite elem_of_union, elem_of_below. left. right. exists j. apply elem_of_seq in Hj. split; [lia|done].
  - unfold removeAll. cbn [path]. destruct p as [|c p']; [done|]. cbn [RemoveAll made]. by apply remove_below.
Qed.

(** A run on an empty disk. *)
Lemma MkDir_removeAll_witness :
  let s := mkDisk {[ [str "tmp"]; [] ]} [] 0 in
  made (removeAll (MkDirs (str "/tmp") (fun n => n) 2 noTempDir s).1.2 (MkDirs (str "/tmp") (fun n => n) 2 noTempDir s).2) = made s.
Proof.
  intros s. pose proof (MkDir_removeAll (str "/tmp") (fun n => n) 1 s 0) as H.
  destruct (MkDirs (str "/tmp") (fun n => n) 2 noTempDir s) as [[rs td] s'].
  destruct H as (ps & _ & _ & _ & _ & He).
  - reflexivity.
  - reflexivity.
  - intros p e Hin. subst s. cbn [made] in *.
    apply elem_of_union in Hin as [Hin%elem_of_singleton|Hin%elem_of_singleton]; [|by destruct p].
    destruct p as [|x [|]]; [|done..]. apply elem_of_union_r, elem_of_singleton. done.
  - lia.
  - decide_compute.
  - exact He.
Defined.

(** ** indent *)

Definition carriage : byte := x0d.

(** The loop, with the string that it changes. The fuel is the number of rounds left,
    one for each byte of the string it is given. *)
Fixpoint indent_loop (fuel : nat) (pre : bytes) (s : bytes) (i : nat) (eol : bool) : bytes :=
  match fuel with
  | O => s
  | S fuel =>
      if i =? length s then s
      else
        match s !! i with
        | None => s
        | Some c =>
            if (eol && bool_decide (c = newline)) || bool_decide (c = carriage) then indent_loop fuel pre s (S i) eol
            else if bool_decide (c = newline) || bool_decide (c = carriage) then indent_loop fuel pre s (S i) true
            else if eol then indent_loop fuel pre (take i s ++ pre ++ drop i s) (S (i + length pre)) false
            else indent_loop fuel pre s (S i) eol
        end
  end.
Definition indent (s pre : bytes) : bytes := indent_loop (length s) pre s 0 true.

(** A reference: the text goes before the first byte of a line that is no carriage
    return. *)
Fixpoint indented (pre : bytes) (eol : bool) (s : bytes) : bytes :=
  match s with
  | [] => []
  | c :: s =>
      if decide (c = newline) then c :: indented pre true s
      else if decide (c = carriage) then c :: indented pre eol s
      else (if eol then pre else []) ++ c :: indented pre false s
  end.

Lemma indent_loop_indented pre done_ s eol :
  indent_loop (length s) pre (done_ ++ s) (length done_) eol = done_ ++ indented pre eol s.
Proof.
  revert done_ eol. induction s as [|c s IH]; intros done_ eol; cbn [length indent_loop indented]; [done|].
  rewrite length_app. cbn [length]. rewrite (proj2 (Nat.eqb_neq _ _)) by lia.
  rewrite lookup_app_r, Nat.sub_diag by lia. cbn [lookup list_lookup].
  assert (Hnext : forall e, indent_loop (length s) pre (done_ ++ c :: s) (S (length done_)) e
                  = done_ ++ c :: indented pre e s).
  { intros e. specialize (IH (done_ ++ [c]) e). rewrite <- !app_assoc in IH. cbn [app] in IH.
    rewrite <- IH. f_equal. rewrite length_app. simpl. lia. }
  destruct (decide (c = newline)) as [->|Hn].
  { rewrite bool_decide_eq_true_2, andb_true_r by done. destruct eol; cbn [orb]; [by rewrite Hnext|].
    rewrite bool_decide_eq_false_2 by done. by rewrite Hnext. }
  rewrite bool_decide_eq_false_2, andb_false_r by done. cbn [orb].
  destruct (decide (c = carriage)) as [->|Hc]; [by rewrite bool_decide_eq_true_2, Hnext|].
  rewrite bool_decide_eq_false_2 by done. destruct eol; [|by rewrite Hnext].
  rewrite take_app_length, drop_app_length. specialize (IH (done_ ++ pre ++ [c]) false).
  rewrite <- !app_assoc in IH. cbn [app] in IH. rewrite <- IH. f_equal. rewrite !length_app. simpl. lia.
Qed.

(** [indent] puts the text before each line that is not empty, and changes nothing
    else; a carriage return does not start a line. *)
Theorem indent_lines s pre : indent s pre = indented pre true s.
Proof. exact (indent_loop_indented pre [] s true). Qed.

(** ** Names *)

(** [strings.Index], [strings.LastIndex]. *)
Fixpoint Index (s sub : bytes) : option nat :=
  if HasPrefix s sub then Some 0
  else match s with [] => None | _ :: s => S <$> Index s sub end.
Fixpoint LastIndex (s sub : bytes) : option nat :=
  match match s with [] => None | _ :: s => S <$> LastIndex s sub end with
  | Some i => Some i
  | None => if HasPrefix s sub then Some 0 else None
  end.
(** [path.Base] *)
Fixpoint skip_slashes (s : bytes) : bytes :=
  match s with
  | [] => []
  | c :: s' => if decide (c = slash) then skip_slashes s' else s
  end.
Definition path_Base (p : bytes) : bytes :=
  match p with
  | [] => [dot]
  | _ =>
      match rev (skip_slashes (rev p)) with
      | [] => [slash]
      | p => List.last (Split slash p) []
      end
  end.

(** [s[a:b]] *)
Definition substring (s : bytes) (a b : nat) : res bytes :=
  if (a <=? b) && (b <=? length s) then Ok (take (b - a) (drop a s)) else Panic.

Section Names.
(** [initWD] after [init], when there was no error. *)
Context (initWD : option bytes).

Definition nicePath (path : bytes) : bytes :=
  match initWD with
  | Some wd => if HasPrefix path wd then drop (length wd) path else path
  | None => path
  end.

(** The bytes of the middle dot. *)
Definition middle_dot : bytes := [xc2; xb7].

(** Cuts the last occurrence of two bytes down to a dot. *)
Definition cut_to_dot (sub name : bytes) : res bytes :=
  match LastIndex name sub with
  | Some i => a ← substring name 0 i; b ← substring name (i + 2) (length name); Ok (a ++ str "." ++ b)
  | None => Ok name
  end.

(** [function] is the name of [runtime.FuncForPC], if there is one. *)
Definition niceFuncName (function : option bytes) : res bytes :=
  match function with
  | None => Ok (str "<unknown function>")
  | Some fn =>
      let name := path_Base fn in
      name ← (match Index name (str ".") with
              | Some i => if 0 <? i then substring name (i + 1) (length name) else Ok name
              | None => Ok name
              end);
      name ← (if HasPrefix name (str "(*") then
                match Index name (str ")") with
                | Some i => if 0 <? i then a ← substring name 2 i; b ← substring name (i + 1) (length name); Ok (a ++ b)
                            else Ok name
                | None => Ok name
                end
              else Ok name);
      name ← cut_to_dot (str ".*") name;
      cut_to_dot middle_dot name
  end.

(** [niceFuncPath], of the file and line that the function gives for the counter. *)
Definition niceFuncPath (function : option (bytes * nat)) : bytes :=
  match function with
  | Some (filename, line) => nicePath filename ++ str ":" ++ decimal line
  | None => str "<unknown path>"
  end.
End Names.

(** [init]: backslashes become slashes, and a slash ends the path. *)
Definition init_WD (wd : bytes) : bytes :=
  map (fun c => if decide (c = x5c) then slash else c) wd ++ [slash].

Lemma Index_Some s sub i : Index s sub = Some i -> exists a b, s = a ++ sub ++ b /\ length a = i.
Proof.
  revert i. induction s as [|c s IH]; intros i; cbn [Index]; destruct (HasPrefix _ sub) eqn:Hp.
  - intros [= <-]. apply HasPrefix_spec in Hp as [t Ht]. by exists [], t.
  - done.
  - intros [= <-]. apply HasPrefix_spec in Hp as [t Ht]. by exists [], t.
  - destruct (Index s sub) as [j|]; [|done]. intros [= <-]. destruct (IH j eq_refl) as (a & b & -> & <-).
    by exists (c :: a), b.
Qed.

Lemma LastIndex_Some s sub i : LastIndex s sub = Some i -> exists a b, s = a ++ sub ++ b /\ length a = i.
Proof.
  revert i. induction s as [|c s IH]; intros i; cbn [LastIndex].
  - destruct (HasPrefix [] sub) eqn:Hp; [|done]. intros [= <-]. apply HasPrefix_spec in Hp as [t Ht]. by exists [], t.
  - destruct (LastIndex s sub) as [j|]; cbn.
    + intros [= <-]. destruct (IH j eq_refl) as (a & b & -> & <-). by exists (c :: a), b.
    + destruct (HasPrefix (c :: s) sub) eqn:Hp; [|done]. intros [= <-]. apply HasPrefix_spec in Hp as [t Ht]. by exists [], t.
Qed.

Lemma Index_None s sub : Index s sub = None <-> forall a b, s <> a ++ sub ++ b.
Proof.
  split.
  - induction s as [|c s IH]; cbn [Index]; destruct (HasPrefix _ sub) eqn:Hp; try done; intros Hi a b He.
    + assert (HasPrefix [] sub = true); [|congruence]. apply HasPrefix_spec. exists b.
      destruct a; [done|]. by destruct sub.
    + destruct a as [|x a].
      * assert (HasPrefix (c :: s) sub = true); [|congruence]. apply HasPrefix_spec. by exists b.
      * injection He as -> ->. apply (IH ltac:(by destruct (Index _ sub)) a b eq_refl).
  - intros Hno. destruct (Index s sub) as [i|] eqn:Hi; [|done]. apply Index_Some in Hi as (a & b & -> & _).
    by destruct (Hno a b).
Qed.

Lemma substring_ok s a b : a <= b -> b <= length s -> substring s a b = Ok (take (b - a) (drop a s)).
Proof. intros Ha Hb. unfold substring. by rewrite (proj2 (Nat.leb_le _ _) Ha), (proj2 (Nat.leb_le _ _) Hb). Qed.

Lemma cut_to_dot_total sub name : length sub = 2 -> exists r, cut_to_dot sub name = Ok r.
Proof.
  intros Hl. unfold cut_to_dot. destruct (LastIndex name sub) as [i|] eqn:Hi; [|by eexists].
  apply LastIndex_Some in Hi as (a & b & -> & <-).
  rewrite !substring_ok by (rewrite ?length_app; lia). by eexists.
Qed.

Lemma Index_first a c b : c ∉ a -> Index (a ++ c :: b) [c] = Some (length a).
Proof.
  induction a as [|x a IH]; intros Hc; cbn [app Index HasPrefix length].
  - by rewrite bool_decide_eq_true_2.
  - rewrite elem_of_cons in Hc. rewrite bool_decide_eq_false_2 by naive_solver. cbn [andb]. by rewrite IH by tauto.
Qed.

Lemma substring_past a c b : substring (a ++ c :: b) (length a + 1) (length (a ++ c :: b)) = Ok b.
Proof.
  rewrite substring_ok by (rewrite length_app; simpl; lia). rewrite Nat.add_1_r, take_ge.
  - f_equal. induction a as [|x a IH]; [done|]. exact IH.
  - rewrite length_drop. lia.
Qed.

Lemma cut_to_dot_none c d name : d ∉ name -> cut_to_dot [c; d] name = Ok name.
Proof.
  intros Hd. unfold cut_to_dot. destruct (LastIndex name [c; d]) as [i|] eqn:Hi; [|done].
  apply LastIndex_Some in Hi as (a & b & -> & _). exfalso. apply Hd. rewrite !elem_of_app, !elem_of_cons. tauto.
Qed.

Lemma path_Base_last dir e : slash ∉ e -> e <> [] -> path_Base (dir ++ slash :: e) = e.
Proof.
  intros Hs Hne. unfold path_Base. destruct (dir ++ slash :: e) as [|x l] eqn:He; [by destruct dir|]. rewrite <- He.
  assert (skip_slashes (rev (dir ++ slash :: e)) = rev (dir ++ slash :: e)) as ->.
  { rewrite rev_app_distr. cbn [rev]. destruct (exists_last Hne) as (e' & c & ->). rewrite rev_app_distr. cbn.
    rewrite decide_False; [done|]. intros ->. apply Hs, elem_of_app. right. by apply list_elem_of_singleton. }
  rewrite rev_involutive, He. rewrite <- He, Split_app, (Split_nosep slash e) by done. by rewrite List.last_last.
Qed.

(** The name of a method on a pointer: what the runtime calls [dir/pkg], a dot, the
    type [T] with a star in parentheses, a dot and [M], is shown as [T.M]. *)
Theorem niceFuncName_method dir pkg T M :
  pkg <> [] -> (dot ∉ pkg) -> (slash ∉ pkg ++ T ++ M) -> (x29 ∉ T) -> (x2a ∉ T ++ M) -> (xb7 ∉ T ++ M) ->
  niceFuncName (Some (dir ++ slash :: pkg ++ str ".(*" ++ T ++ str ")." ++ M)) = Ok (T ++ str "." ++ M).
Proof.
  intros Hne Hdot Hsl Hpar Hstar Hmid. unfold niceFuncName.
  rewrite path_Base_last; [|rewrite !elem_of_app in *|by destruct pkg].
  2: { assert (slash ∉ str ".(*" /\ slash ∉ str ").") by (split; decide_compute). tauto. }
  change (pkg ++ str ".(*" ++ T ++ str ")." ++ M) with (pkg ++ dot :: (str "(*" ++ T ++ str ")." ++ M)).
  rewrite Index_first, (proj2 (Nat.ltb_lt 0 (length pkg))) by (done || by destruct pkg; simpl; lia || done).
  rewrite substring_past. cbn [mbind res_bind].
  set (q := str "(*" ++ T). change (str "(*" ++ T ++ str ")." ++ M) with (q ++ x29 :: (str "." ++ M)).
  assert (HasPrefix (q ++ x29 :: (str "." ++ M)) (str "(*") = true) as ->.
  { apply HasPrefix_spec. exists (T ++ x29 :: (str "." ++ M)). unfold q. by rewrite <- app_assoc. }
  assert (Hq : x29 ∉ q) by (unfold q; rewrite elem_of_app; assert (x29 ∉ str "(*") by decide_compute; tauto).
  change (str ")") with [x29]. rewrite Index_first by done.
  rewrite (proj2 (Nat.ltb_lt 0 (length q))) by (unfold q; simpl; lia). rewrite substring_past.
  rewrite substring_ok by (unfold q; rewrite ?length_app; simpl; lia). cbn [mbind res_bind].
  assert (take (length q - 2) (drop 2 (q ++ x29 :: (str "." ++ M))) = T) as ->.
  { unfold q. cbn. rewrite Nat.sub_0_r. by apply take_app_length. }
  assert (forall c : byte, (c ∉ str ".") -> (c ∉ T ++ M) -> (c ∉ T ++ str "." ++ M)) as Hno.
  { intros c Hc. rewrite !elem_of_app. tauto. }
  change (str ".*") with [dot; x2a]. rewrite cut_to_dot_none by (apply Hno; [decide_compute|done]). cbn [mbind res_bind].
  apply cut_to_dot_none. apply Hno; [decide_compute|done].
Qed.

(** No slice of [niceFuncName] is out of range, whatever the name. *)
Theorem niceFuncName_total function : exists name, niceFuncName function = Ok name.
Proof.
  destruct function as [fn|]; [|by eexists]. unfold niceFuncName. set (n0 := path_Base fn).
  assert (H1 : exists n1, (match Index n0 (str ".") with
    | Some i => if 0 <? i then substring n0 (i + 1) (length n0) else Ok n0 | None => Ok n0 end) = Ok n1).
  { destruct (Index n0 (str ".")) as [i|] eqn:Hi; [|by eexists]. apply Index_Some in Hi as (a & b & -> & <-).
    destruct (0 <? length a); [|by eexists]. eexists. apply substring_ok; rewrite !length_app; simpl; lia. }
  destruct H1 as [n1 ->]. cbn [mbind res_bind].
  assert (H2 : exists n2, (if HasPrefix n1 (str "(*") then match Index n1 (str ")") with
    | Some i => if 0 <? i then a ← substring n1 2 i; b ← substring n1 (i + 1) (length n1); Ok (a ++ b) else Ok n1
    | None => Ok n1 end else Ok n1) = Ok n2).
  { destruct (HasPrefix n1 (str "(*")) eqn:Hp; [|by eexists]. apply HasPrefix_spec in Hp as [t ->].
    destruct (Index _ (str ")")) as [i|] eqn:Hi; [|by eexists]. apply Index_Some in Hi as (a & b & He & <-).
    assert (2 <= length a).
    { destruct a as [|x [|y a]]; simpl in *; try lia; injection He; intros; subst; discriminate. }
    destruct (0 <? length a); [|by eexists]. rewrite He.
    rewrite !substring_ok by (rewrite ?length_app; simpl; lia). by eexists. }
  destruct H2 as [n2 ->]. cbn [mbind res_bind].
  destruct (cut_to_dot_total (str ".*") n2 eq_refl) as [n3 ->]. cbn [mbind res_bind].
  by apply cut_to_dot_total.
Qed.

(** ** The log of a call *)

(** [logb], and [logw] when the run streams its output. *)
Record logs := mkLogs { logb : bytes; logw : option bytes }.
Definition writeLog (buf : bytes) (l : logs) : logs := mkLogs (logb l ++ buf) ((fun w => w ++ buf) <$> logw l).
Definition GetTestLog (l : logs) : bytes := logb l.

(** The text is what [fmt.Sprint] or [fmt.Sprintf] makes of the arguments. *)
Definition log (text : bytes) : logs -> logs := writeLog (text ++ [newline]).
Definition logNewLine : logs -> logs := writeLog [newline].
Definition logString (issue : bytes) : logs -> logs := log (str "... " ++ issue).
Definition logSoftPanic (issue : bytes) : logs -> logs := log (str "... Panic: " ++ issue).

(** A value, by its [%#v] and [%q] texts and its type; whether it is a [Stringer] or
    an error; and its bytes when it is a string. *)
Record formatted := mkFormatted {
  is_nil : bool; hasStringOrError : bool; go_syntax : bytes; quoted : bytes; type_name : bytes;
  as_string : option bytes;
}.
Definition logValue (quote : bytes -> bytes) (label : bytes) (v : formatted) (l : logs) : logs :=
  if decide (label = []) then
    if hasStringOrError v then log (str "... " ++ go_syntax v ++ str " (" ++ quoted v ++ str ")") l
    else log (str "... " ++ go_syntax v) l
  else if is_nil v then log (str "... " ++ label ++ str " = nil") l
  else if hasStringOrError v && bool_decide (go_syntax v <> quoted v)
  then log (str "... " ++ label ++ str " " ++ type_name v ++ str " = " ++ go_syntax v ++ str " (" ++ quoted v ++ str ")") l
  else
    match as_string v with
    | Some s =>
        if isMultiLine s
        then writeLog (logMultiLine quote s)
               (log (str "... " ++ label ++ str " " ++ type_name v ++ str " = " ++ [x22; x22] ++ str " +") l)
        else log (str "... " ++ label ++ str " " ++ type_name v ++ str " = " ++ go_syntax v) l
    | None => log (str "... " ++ label ++ str " " ++ type_name v ++ str " = " ++ go_syntax v) l
    end.

(** [Output], [d] nanoseconds after the start; [pad] is the [%0wd] of [fmt]. *)
Definition pad (w : nat) (n : nat) : bytes := replicate (w - length (decimal n)) "0"%byte ++ decimal n.
Definition output_fields (d : Z) : Z * Z * Z :=
  let msec := Z.quot d 1000000 in
  let sec := Z.quot d 1000000000 in
  let min := Z.quot d 60000000000 in
  (min, Z.rem sec 60, Z.rem msec 1000).
Definition Output (d : Z) (s : bytes) : logs -> logs :=
  let '(min, sec, msec) := output_fields d in
  log (str "[LOG] " ++ decimal (Z.to_nat min) ++ str ":" ++ pad 2 (Z.to_nat sec) ++ str "." ++ pad 3 (Z.to_nat msec)
         ++ str " " ++ s).

(** The frames of the stack, the innermost first: [runtime.Caller(i)] is the [i]-th. The
    function of a frame is known by its entry and its name. *)
Record frame := mkFrame { pc : nat; func : option (nat * bytes); file : bytes; line : nat }.
#[export] Instance frame_eq_dec : EqDecision frame.
Proof. solve_decision. Defined.

Section Callers.
(** [initWD], [printLine], the frames, and the function of the test. *)
Context (initWD : option bytes) (printLine : bytes -> nat -> bytes * option bytes).
Context (frames : list frame) (testFunc : option (nat * bytes)).

Definition logCode (path : bytes) (line : nat) (l : logs) : logs :=
  let l := log (nicePath initWD path ++ str ":" ++ decimal line ++ str ":") l in
  let '(code, err) := printLine path line in
  let code := if decide (code = []) then str "..." ++ default [] err else code in
  log (indent code (str "    ")) l.

(** The inner loop of [logCaller]. *)
Fixpoint test_frame (fs : list frame) : option frame :=
  match fs with
  | [] => None
  | f :: fs => if decide (func f = testFunc) then Some f else test_frame fs
  end.

Definition logCaller (skip : nat) (l : logs) : logs :=
  let skip := S skip in
  match frames !! skip with
  | None => l
  | Some f =>
      let test := if decide (func f = testFunc) then None else test_frame (drop (S skip) frames) in
      let l :=
        match test with
        | Some g =>
            if bool_decide (file g <> []) && bool_decide (file g <> file f \/ line g <> line f)
            then logCode (file g) (line g) l else l
        | None => l
        end in
      logCode (file f) (line f) l
  end.

(** [strings.Contains], [strings.HasSuffix]. *)
Definition Contains (s sub : bytes) : bool := match Index s sub with Some _ => true | None => false end.
Definition HasSuffix (s suffix : bytes) : bool := HasPrefix (rev s) (rev suffix).

(** The frames that [logPanic] passes over: the package's own, and [reflect]'s. *)
Definition passed_over (name path : bytes) : bool :=
  Contains path (str "/gopkg.in/check.v")
  || bool_decide (name = str "Value.call") && HasSuffix path (str "reflect/value.go")
  || bool_decide (name = str "call16") && Contains path (str "runtime/asm_").

(** [hex] is the [%X] of [fmt], [value] the [%s] of the value. *)
Fixpoint logPanic_loop (hex : nat -> bytes) (value : bytes) (initial : bool) (fs : list frame) (l : logs) : res logs :=
  match fs with
  | [] => Ok l
  | f :: fs =>
      let l := if initial
               then log (str "... Panic: " ++ value ++ str " (PC=0x" ++ hex (pc f) ++ str ")" ++ [newline]) l else l in
      name ← niceFuncName (snd <$> func f);
      let path := nicePath initWD (file f) in
      let l := if passed_over name path then l
               else log (path ++ str ":" ++ decimal (line f) ++ [newline] ++ str "  in " ++ name) l in
      logPanic_loop hex value false fs l
  end.
Definition logPanic (hex : nat -> bytes) (skip : nat) (value : bytes) (l : logs) : res logs :=
  logPanic_loop hex value true (drop (S skip) frames) l.

(** [function] is the name of the method's function. *)
Definition logArgPanic (function : option bytes) (expectedType : bytes) (l : logs) : res logs :=
  name ← niceFuncName function;
  Ok (log (str "... Panic: " ++ name ++ str " argument should be " ++ expectedType) l).

(** [Error], [Errorf], [Fatal] and [Fatalf], of the text of their arguments: what
    they log before [Fail] or [FailNow]. *)
Definition logError (text : bytes) (l : logs) : logs :=
  logNewLine (logString (str "Error: " ++ text) (logCaller 1 l)).
End Callers.

(** ** What the log is *)

(** Text is added at the end, to the log and to the stream alike. *)
Definition appends (l l' : logs) : Prop :=
  exists text, logb l' = logb l ++ text /\ logw l' = (fun w => w ++ text) <$> logw l.
#[export] Instance appends_PreOrder : PreOrder appends.
Proof.
  split.
  - intros l. exists []. rewrite app_nil_r. split; [done|]. destruct (logw l); [|done]. simpl. by rewrite app_nil_r.
  - intros l1 l2 l3 (t1 & B1 & W1) (t2 & B2 & W2). exists (t1 ++ t2). rewrite B2, B1, W2, W1, app_assoc. split; [done|].
    destruct (logw l1); [|done]. simpl. by rewrite app_assoc.
Qed.

Lemma writeLog_appends text l : appends l (writeLog text l).
Proof. by exists text. Qed.
Lemma log_appends text l : appends l (log text l).
Proof. apply writeLog_appends. Qed.
Ltac logged := repeat first [done | apply writeLog_appends | apply log_appends
  | eapply transitivity; [|apply log_appends] | eapply transitivity; [|apply writeLog_appends]].

Lemma logCode_appends wd pl path line l : appends l (logCode wd pl path line l).
Proof. unfold logCode. destruct (pl path line) as [code err]. logged. Qed.

Lemma logCaller_appends wd pl frames tf skip l : appends l (logCaller wd pl frames tf skip l).
Proof.
  unfold logCaller. destruct (frames !! S skip) as [f|]; [|done]. etransitivity; [|apply logCode_appends].
  destruct (if decide _ then _ else _) as [g|]; [|done]. destruct (_ && _); [apply logCode_appends|done].
Qed.

(** The frames that a panic shows, with their names. *)
Definition frame_name (f : frame) : bytes := match niceFuncName (snd <$> func f) with Ok name => name | _ => [] end.
Definition shown (wd : option bytes) (f : frame) : bytes :=
  if passed_over (frame_name f) (nicePath wd (file f)) then []
  else nicePath wd (file f) ++ str ":" ++ decimal (line f) ++ [newline] ++ str "  in " ++ frame_name f ++ [newline].

Lemma logPanic_loop_shows wd hex value initial fs l :
  logPanic_loop wd hex value initial fs l
  = Ok (writeLog ((if initial then match fs with
                   | [] => []
                   | f :: _ => str "... Panic: " ++ value ++ str " (PC=0x" ++ hex (pc f) ++ str ")" ++ [newline; newline]
                   end else []) ++ concat (map (shown wd) fs)) l).
Proof.
  assert (Hw : forall a b l, writeLog b (writeLog a l) = writeLog (a ++ b) l).
  { intros a b [lb lw]. unfold writeLog. cbn. rewrite app_assoc. f_equal. destruct lw; [|done]. simpl. by rewrite app_assoc. }
  revert initial l. induction fs as [|f fs IH]; intros initial l; cbn [logPanic_loop].
  { destruct initial; cbn; unfold writeLog; rewrite app_nil_r; destruct l as [lb [lw|]]; cbn; by rewrite ?app_nil_r. }
  destruct (niceFuncName_total (snd <$> func f)) as [name Hn]. rewrite Hn. cbn [mbind res_bind].
  rewrite IH. cbn [map concat]. unfold shown at 2, frame_name. rewrite Hn. f_equal. unfold log.
  destruct initial, (passed_over name (nicePath wd (file f))); rewrite ?Hw; f_equal; cbn [app];
    rewrite <- ?app_assoc; cbn [app]; rewrite <- ?app_assoc; done.
Qed.

(** Everything a call logs is added at the end of its log, and when the run streams
    its output the stream gets the same text. A panic is logged with the counter of the
    frame it comes from, and below it every frame but those of the package itself and
    of the reflection that calls it, in order; and the frames' names never make it
    panic again. *)
Theorem logs_append wd pl frames tf hex skip value text quote label v d l :
  appends l (logValue quote label v l) /\ appends l (Output d text l)
  /\ appends l (logError wd pl frames tf text l)
  /\ logPanic wd frames hex skip value l
     = Ok (writeLog (match drop (S skip) frames with
                     | [] => []
                     | f :: _ => str "... Panic: " ++ value ++ str " (PC=0x" ++ hex (pc f) ++ str ")" ++ [newline; newline]
                     end ++ concat (map (shown wd) (drop (S skip) frames))) l).
Proof.
  split_and!.
  - unfold logValue. repeat case_match; logged.
  - unfold Output. destruct (output_fields d) as [[min sec] msec]. logged.
  - unfold logError, logNewLine, logString. logged. apply logCaller_appends.
  - apply logPanic_loop_shows.
Qed.

(** The clock of [Output]: minutes, seconds and milliseconds since the start. *)
Theorem output_fields_clock d min sec msec :
  (0 <= d)%Z -> output_fields d = (min, sec, msec) ->
  (0 <= min /\ 0 <= sec < 60 /\ 0 <= msec < 1000 /\ 60000 * min + 1000 * sec + msec = d / 1000000)%Z.
Proof.
  intros Hd. unfold output_fields. intros [= <- <- <-].
  rewrite !Z.quot_div_nonneg, !Z.rem_mod_nonneg by (try apply Z.div_pos; lia).
  Z.to_euclidean_division_equations. lia.
Qed.

Lemma output_fields_clock_witness : (60000 * 1 + 1000 * 5 + 7 = 65007999999 / 1000000)%Z.
Proof.
  destruct (output_fields_clock 65007999999 1 5 7) as (_ & _ & _ & H); [lia|reflexivity|exact H].
Defined.

Lemma niceFuncName_method_witness :
  niceFuncName (Some (str "github.com/u/repo.(*S).TestA")) = Ok (str "S.TestA").
Proof.
  apply (niceFuncName_method (str "github.com/u") (str "repo") (str "S") (str "TestA")); try decide_compute.
Defined.
