(* ===== verification/Workerbench.v ===== *)
(** * The search for a configuration

    Models [main] of [blockservice/worker/bench/main.go]: it benches every configuration
    of a range of the worker and keeps the quickest. The time for each operation, which
    [testing.Benchmark] measures, is a parameter. *)

From S2P Require Import Prelude Worker.

Section Bench.
(** [result.NsPerOp()] *)
Context (NsPerOp : Config -> Z).

Definition best : Type := Config * Z.

(** The body of the loops: [bestConfig] and [quickestNsPerOp]. *)
Definition bench (c : Config) (b : best) : best := if (NsPerOp c <? b.2)%Z then (c, NsPerOp c) else b.

(** [for i := from; i < from + n; i++] *)
Fixpoint for_loop (n from : nat) (body : nat -> best -> best) (b : best) : best :=
  match n with O => b | S n => for_loop n (S from) body (body from b) end.

Definition MaxInt64 : Z := 2 ^ 63 - 1.
Definition main : best :=
  for_loop 9 1 (fun NumWorkers =>
    for_loop 10 0 (fun ClientBufferSize =>
      for_loop 10 0 (fun WorkerBufferSize =>
        bench (mkConfig (Z.of_nat NumWorkers) ClientBufferSize WorkerBufferSize))))
    (mkConfig 0 0 0, MaxInt64).

(** ** The quickest *)

(** The configurations, in the order of the loops. *)
Definition configs : list Config :=
  nw ← seq 1 9; cb ← seq 0 10; map (mkConfig (Z.of_nat nw) cb) (seq 0 10).

Lemma for_loop_fold n from body b : for_loop n from body b = fold_left (fun b i => body i b) (seq from n) b.
Proof. revert from b. induction n as [|n IH]; intros from b; [done|]. apply IH. Qed.

Lemma fold_left_bind {A B S} (f : S -> B -> S) (g : A -> list B) l s :
  fold_left f (mbind g l) s = fold_left (fun s a => fold_left f (g a) s) l s.
Proof. revert s. induction l as [|a l IH]; intros s; [done|]. cbn. by rewrite fold_left_app, <- IH. Qed.

Lemma fold_left_map {A B S} (f : S -> B -> S) (g : A -> B) l s :
  fold_left f (map g l) s = fold_left (fun s a => f s (g a)) l s.
Proof. revert s. induction l as [|a l IH]; intros s; [done|]. apply IH. Qed.

Lemma fold_left_ext {A S} (f g : S -> A -> S) l s : (forall s a, f s a = g s a) -> fold_left f l s = fold_left g l s.
Proof. intros He. revert s. induction l as [|a l IH]; intros s; [done|]. cbn. by rewrite He, IH. Qed.

Lemma main_fold : main = fold_left (fun b c => bench c b) configs (mkConfig 0 0 0, MaxInt64).
Proof.
  unfold main, configs. rewrite for_loop_fold, fold_left_bind. apply fold_left_ext. intros b nw.
  rewrite for_loop_fold, fold_left_bind. apply fold_left_ext. intros b' cb. by rewrite for_loop_fold, fold_left_map.
Qed.

(** The best of a list: the first of the quickest, or what there was before. *)
Lemma bench_fold l b :
  let b' := fold_left (fun b c => bench c b) l b in
  (b'.2 <= b.2)%Z /\ Forall (fun c => (b'.2 <= NsPerOp c)%Z) l
  /\ (b' = b \/ exists l1 l2, l = l1 ++ b'.1 :: l2 /\ b'.2 = NsPerOp b'.1 /\ (b'.2 < b.2)%Z
       /\ Forall (fun c => (b'.2 < NsPerOp c)%Z) l1).
Proof.
  revert b. induction l as [|c l IH]; intros b; cbn [fold_left]; [split_and!; [lia|done|by left]|].
  generalize (IH (bench c b)). generalize (fold_left (fun b c => bench c b) l (bench c b)). unfold bench.
  intros b' (H1 & H2 & H3). destruct (Z.ltb_spec (NsPerOp c) b.2) as [Hlt|Hge]; cbn [fst snd] in *.
  - split_and!; [lia|by constructor|]. right. destruct H3 as [->|(l1 & l2 & -> & He & Hl & HF)].
    + by exists [], l.
    + exists (c :: l1), l2. split_and!; [done..|lia|]. constructor; [lia|done].
  - split_and!; [lia|constructor; [lia|done]|]. destruct H3 as [->|(l1 & l2 & -> & He & Hl & HF)]; [by left|].
    right. exists (c :: l1), l2. split_and!; [done..|]. constructor; [lia|done].
Qed.

(** The configuration that is printed is the first of the quickest of the range, unless
    none is quicker than the largest number, when it is the empty one. *)
Theorem main_best :
  (main = (mkConfig 0 0 0, MaxInt64) /\ Forall (fun c => (MaxInt64 <= NsPerOp c)%Z) configs)
  \/ exists l1 l2, configs = l1 ++ main.1 :: l2
       /\ Forall (fun c => (NsPerOp main.1 < NsPerOp c)%Z) l1 /\ Forall (fun c => (NsPerOp main.1 <= NsPerOp c)%Z) l2.
Proof.
  rewrite main_fold. generalize (bench_fold configs (mkConfig 0 0 0, MaxInt64)).
  generalize (fold_left (fun b c => bench c b) configs (mkConfig 0 0 0, MaxInt64)).
  intros b (_ & HF & [->|(l1 & l2 & Hl & He & _ & H1)]); [by left|].
  right. exists l1, l2. rewrite <- He. split_and!; [done..|]. rewrite Hl in HF.
  by apply Forall_app in HF as [_ [_ HF]%Forall_cons_1].
Qed.
End Bench.

Example bench_range : length configs = 900 /\ configs !! 0 = Some (mkConfig 1 0 0).
Proof. by vm_compute. Qed.
