(* ===== verification/Goprinter.v ===== *)
(** * The source lines of a failed check

    Models [printer.go] of [Godeps/.../gopkg.in/check.v1]: [printLine] walks the syntax
    tree of a file to the statement at a line, trims what starts on other lines, and
    prints it with its comments. The trees of [go/ast] are kept with their positions and
    the statements that [trim] knows; the parser, the positions of a file set and the
    printer are parameters. ([indent] is in [Golog].) *)

From S2P Require Import Prelude DsKey Goreport Golog.

(** ** Trees *)

(** [Other] is any node that [trim] does not change, a statement or not. The body of an
    [if], and of a [switch] or type switch, is a block: its braces and statements.
    [Clause] is a [CaseClause] or a [CommClause], [head] its expressions or statement;
    [Dots] is the statement of an [Ellipsis]. *)
Inductive node :=
  | Other (stmt : bool) (pos end_ : nat) (kids : list node)
  | IfStmt (pos : nat) (head : list node) (lbrace : nat) (body : list node) (rbrace : nat) (els : option node)
  | SwitchStmt (pos : nat) (head : list node) (lbrace : nat) (body : list node) (rbrace : nat)
  | Clause (pos : nat) (head : list node) (colon : nat) (body : list node)
  | BlockStmt (lbrace : nat) (body : list node) (rbrace : nat)
  | Dots (pos : nat).

Definition Pos (n : node) : nat :=
  match n with
  | Other _ p _ _ | IfStmt p _ _ _ _ _ | SwitchStmt p _ _ _ _ | Clause p _ _ _ | BlockStmt p _ _ | Dots p => p
  end.
Fixpoint End_ (n : node) : nat :=
  match n with
  | Other _ _ e _ => e
  | IfStmt _ _ _ _ r els => match els with Some e => End_ e | None => S r end
  | SwitchStmt _ _ _ _ r | BlockStmt _ _ r => S r
  | Clause _ _ colon body => List.last (map End_ body) (S colon)
  | Dots p => p + 3
  end.
Definition is_Stmt (n : node) : bool := match n with Other s _ _ _ => s | _ => true end.
Definition is_Block (n : node) : bool := match n with BlockStmt _ _ _ => true | _ => false end.

Record comment := mkComment { Slash : nat; Text : bytes }.
(** A group is never empty. *)
Record group := mkGroup { first_comment : comment; more : list comment }.
Definition group_Pos (g : group) : nat := Slash (first_comment g).
Definition group_End (g : group) : nat :=
  let c := List.last (more g) (first_comment g) in Slash c + length (Text c).

Section LinePrinter.
(** [fset.Position], by the line and the column; [config.Fprint] of a node with the
    comments of the file; and the line to show. *)
Context (Line Column : nat -> nat) (Fprint : node -> list group -> bytes) (line : nat).

(** ** trim *)

Definition emptyStmt (n : node) : node := Dots (Pos n).
Definition emptyBlock (lbrace : nat) : nat * list node * nat := (lbrace, [Dots lbrace], lbrace).

(** The bodies of [trim], on what [trim] itself does to a statement; [trimBlock] takes
    and gives the parts of a block. *)
Definition trimList (trim : node -> bool * node) : list node -> list node :=
  fix go l :=
    match l with
    | [] => []
    | n :: l => let '(ok, n') := trim n in if ok then n' :: go l else emptyStmt n :: l
    end.
Definition trimBlock (trim : node -> bool * node) (lbrace : nat) (body : list node) : nat * list node * nat :=
  if Line lbrace =? line then (lbrace, trimList trim body, lbrace) else emptyBlock lbrace.

Fixpoint trim (n : node) : bool * node :=
  if negb (is_Stmt n) then (true, n)
  else if negb (Line (Pos n) =? line) then (false, n)
  else
    (true,
     match n with
     | IfStmt p head lb body _ els => let '(lb, body, rb) := trimBlock trim lb body in IfStmt p head lb body rb els
     | SwitchStmt p head lb body _ => let '(lb, body, rb) := trimBlock trim lb body in SwitchStmt p head lb body rb
     | Clause p head colon body => Clause p head colon (trimList trim body)
     | BlockStmt lb body rb => BlockStmt lb (trimList trim body) rb
     | n => n
     end).

(** ** Printing *)

Record linePrinter := mkPrinter { pending : option node; output : bytes; Comments : list group }.

(** One round of the loop of [printWithComments]. *)
Definition print_group (n : node) (g : group) (out : bytes) : bytes * group :=
  let nfirst := Line (Pos n) in
  let nlast := Line (End_ n) in
  let cfirst := Line (group_Pos g) in
  let clast := Line (group_End g) in
  let out := if (S clast =? nfirst) && (Column (Pos n) =? Column (group_Pos g))
             then out ++ concat (map (fun c => Text c ++ [newline]) (first_comment g :: more g)) else out in
  let g := if (nfirst <=? cfirst) && (cfirst <=? nlast) && (End_ n <=? Slash (first_comment g))
           then mkGroup (mkComment (End_ n - 1) (Text (first_comment g))) (more g) else g in
  (out, g).
Fixpoint print_groups (n : node) (gs : list group) (out : bytes) : bytes * list group :=
  match gs with
  | [] => (out, [])
  | g :: gs => let '(out, g) := print_group n g out in
               let '(out, gs) := print_groups n gs out in (out, g :: gs)
  end.
Definition printWithComments (n : node) (lp : linePrinter) : linePrinter :=
  let '(out, gs) := print_groups n (Comments lp) (output lp) in
  mkPrinter (pending lp) (out ++ Fprint n gs) gs.

Definition emit (lp : linePrinter) : bool * linePrinter :=
  match pending lp with
  | Some n =>
      let lp := printWithComments (trim n).2 lp in
      (true, mkPrinter None (output lp) (Comments lp))
  | None => (false, lp)
  end.

(** ** The walk *)

(** [Visit] of a node, and whether the walk goes below it; [Visit(nil)] is [leave]. *)
Definition covers (n : node) : bool := (Line (Pos n) <=? line) && (line <=? Line (End_ n)).
Definition Visit (n : node) (lp : linePrinter) : bool * linePrinter :=
  if covers n then
    let lp := if is_Stmt n && negb (is_Block n) then mkPrinter (Some n) (output lp) (Comments lp) else lp in
    if Line (Pos n) =? line then let '(done, lp) := emit lp in (negb done, lp) else (true, lp)
  else (false, lp).
Definition leave (lp : linePrinter) : linePrinter :=
  match output lp with [] => (emit lp).2 | _ => lp end.

(** [ast.Walk]: the children of a node, in order. *)
Definition within (n : node) (kids : linePrinter -> linePrinter) (lp : linePrinter) : linePrinter :=
  let '(below, lp) := Visit n lp in if below then leave (kids lp) else lp.
Definition visit_all (walk : node -> linePrinter -> linePrinter) (l : list node) (lp : linePrinter) : linePrinter :=
  fold_left (fun lp k => walk k lp) l lp.
Fixpoint Walk (n : node) (lp : linePrinter) : linePrinter :=
  within n (match n with
    | Other _ _ _ kids => visit_all Walk kids
    | IfStmt _ head lb body rb els => fun lp =>
        let lp := within (BlockStmt lb body rb) (visit_all Walk body) (visit_all Walk head lp) in
        match els with Some e => Walk e lp | None => lp end
    | SwitchStmt _ head lb body rb => fun lp =>
        within (BlockStmt lb body rb) (visit_all Walk body) (visit_all Walk head lp)
    | Clause _ head _ body => fun lp => visit_all Walk body (visit_all Walk head lp)
    | BlockStmt _ body _ => visit_all Walk body
    | Dots _ => fun lp => lp
    end) lp.

(** The trailing newlines go. *)
Fixpoint skip_newlines (s : bytes) : bytes :=
  match s with [] => [] | c :: s' => if decide (c = newline) then skip_newlines s' else s end.
Definition no_trailing (s : bytes) : bytes := rev (skip_newlines (rev s)).
Definition show_line (fnode : node) (cs : list group) : bytes :=
  no_trailing (output (Walk fnode (mkPrinter None [] cs))).
End LinePrinter.

(** [printLine]: [parse] opens and parses the file; it gives the tree and the comments,
    with the file's lines and columns, or the text of the error. *)
Record parsed := mkParsed { fnode : node; comments : list group; fline : nat -> nat; fcolumn : nat -> nat }.
Definition printLine (parse : bytes -> bytes + parsed) (Fprint : node -> list group -> bytes)
    (filename : bytes) (line : nat) : bytes * option bytes :=
  match parse filename with
  | inl err => ([], Some err)
  | inr f => (show_line (fline f) (fcolumn f) Fprint line (fnode f) (comments f), None)
  end.

(** ** What is shown *)

Definition kids (n : node) : list node :=
  match n with
  | Other _ _ _ ks => ks
  | IfStmt _ head lb body rb els => head ++ [BlockStmt lb body rb] ++ option_list els
  | SwitchStmt _ head lb body rb => head ++ [BlockStmt lb body rb]
  | Clause _ head _ body => head ++ body
  | BlockStmt _ body _ => body
  | Dots _ => []
  end.

Fixpoint size (n : node) : nat :=
  match n with
  | Other _ _ _ ks => S (list_sum (map size ks))
  | IfStmt _ head _ body _ els =>
      S (list_sum (map size head) + S (list_sum (map size body)) + match els with Some e => size e | None => 0 end)
  | SwitchStmt _ head _ body _ => S (list_sum (map size head) + S (list_sum (map size body)))
  | Clause _ head _ body => S (list_sum (map size head) + list_sum (map size body))
  | BlockStmt _ body _ => S (list_sum (map size body))
  | Dots _ => 1
  end.

Lemma size_in k l : k ∈ l -> size k <= list_sum (map size l).
Proof. induction 1; simpl; lia. Qed.

Lemma size_kid n k : k ∈ kids n -> size k < size n.
Proof.
  destruct n; cbn [kids size]; rewrite ?elem_of_app, ?elem_of_nil, ?list_elem_of_singleton;
    try (by intros []); intros Hk; destruct_or?; subst; cbn [size];
    try (apply size_in in Hk); try lia.
  destruct els as [e|]; cbn in Hk; lia.
Qed.

Lemma node_kids_ind (P : node -> Prop) : (forall n, Forall P (kids n) -> P n) -> forall n, P n.
Proof.
  intros HP n. remember (size n) as z eqn:Hz. revert n Hz.
  induction (Nat.lt_wf_0 z) as [z _ IH]. intros n ->. apply HP, Forall_forall. intros k Hk%size_kid.
  by apply (IH (size k)).
Qed.

Section Shown.
Context (Line Column : nat -> nat) (Fprint : node -> list group -> bytes) (line : nat).
(** A statement is never printed as nothing but newlines. *)
Hypothesis printed : forall n gs, exists c, c ∈ Fprint n gs /\ c <> newline.
Local Notation walk := (Walk Line Column Fprint line).
Local Notation covers := (covers Line line).

Lemma within_ext n f g lp :
  (forall lp, f lp = g lp) -> within Line Column Fprint line n f lp = within Line Column Fprint line n g lp.
Proof. intros He. unfold within. destruct (Visit _ _ _ _ n lp) as [[] lp']; by rewrite ?He. Qed.

Lemma Walk_kids n lp : walk n lp = within Line Column Fprint line n (visit_all walk (kids n)) lp.
Proof.
  destruct n as [s p e ks|p head lb body rb [e|]|p head lb body rb|p head colon body|lb body rb|p];
    cbn [Walk]; apply within_ext; intros lp'; unfold visit_all; cbn [kids option_list];
    by rewrite ?fold_left_app.
Qed.

(** The statement that is printed first, below a pending one: the outermost that starts
    on the line, or else the innermost that covers it. *)
Definition chosen_within (n : node) (below : option node -> option node) (p : option node) : option node :=
  if covers n then
    let p := if is_Stmt n && negb (is_Block n) then Some n else p in
    match p with
    | Some c => if Line (Pos n) =? line then Some c else Some (default c (below (Some c)))
    | None => below None
    end
  else None.
Definition first_of (chosen : node -> option node -> option node) (l : list node) (p : option node) : option node :=
  foldr (fun k r => match chosen k p with Some c => Some c | None => r end) None l.
Fixpoint chosen (n : node) (p : option node) : option node :=
  chosen_within n (match n with
    | Other _ _ _ ks => first_of chosen ks
    | IfStmt _ head lb body rb els => fun p =>
        match first_of chosen head p with
        | Some c => Some c
        | None =>
            match chosen_within (BlockStmt lb body rb) (first_of chosen body) p with
            | Some c => Some c
            | None => match els with Some e => chosen e p | None => None end
            end
        end
    | SwitchStmt _ head lb body rb => fun p =>
        match first_of chosen head p with
        | Some c => Some c
        | None => chosen_within (BlockStmt lb body rb) (first_of chosen body) p
        end
    | Clause _ head _ body => fun p =>
        match first_of chosen head p with Some c => Some c | None => first_of chosen body p end
    | BlockStmt _ body _ => first_of chosen body
    | Dots _ => fun _ => None
    end) p.

Lemma first_of_app c l l' p :
  first_of c (l ++ l') p = match first_of c l p with Some d => Some d | None => first_of c l' p end.
Proof. unfold first_of. induction l as [|k l IH]; [done|]. cbn [app foldr]. rewrite IH. by destruct (c k p). Qed.

Lemma first_of_one c k p : first_of c [k] p = c k p.
Proof. cbn. by destruct (c k p). Qed.

Lemma chosen_within_ext n f g p : (forall p, f p = g p) -> chosen_within n f p = chosen_within n g p.
Proof.
  intros He. unfold chosen_within. destruct (covers n); [|done].
  destruct (if _ : bool then _ else _) as [c|]; by rewrite ?He.
Qed.

Lemma chosen_kids n p : chosen n p = chosen_within n (first_of chosen (kids n)) p.
Proof.
  destruct n as [s q e ks|q head lb body rb [e|]|q head lb body rb|q head colon body|lb body rb|q];
    cbn [chosen]; apply chosen_within_ext; intros q'; cbn [kids option_list];
    rewrite ?first_of_app, ?first_of_one; try done.
  change (option_list (Some e)) with [e]. by rewrite first_of_one.
Qed.

(** What [printLine] shows of a statement, with the comments. *)
Definition shown (c : node) (cs : list group) : bytes :=
  output (printWithComments Line Column Fprint (trim Line line c).2 (mkPrinter None [] cs)).

Lemma print_groups_out n gs out :
  print_groups Line Column n gs out
  = (out ++ (print_groups Line Column n gs []).1, (print_groups Line Column n gs []).2).
Proof.
  revert out. induction gs as [|g gs IH]; intros out; cbn [print_groups]; [by rewrite app_nil_r|].
  unfold print_group. set (gr := if _ && (End_ n <=? _) then _ else g). destruct (_ && (Column _ =? _)).
  - rewrite !(IH (_ ++ _)). destruct (print_groups _ _ _ gs []). cbn [fst snd]. by rewrite app_assoc.
  - rewrite IH. by destruct (print_groups _ _ _ gs []).
Qed.

Lemma emit_out lp : output (emit Line Column Fprint line lp).2
  = output lp ++ match pending lp with Some c => shown c (Comments lp) | None => [] end.
Proof.
  unfold emit, shown, printWithComments. destruct lp as [[c|] out cs]; cbn; [|by rewrite app_nil_r].
  rewrite print_groups_out. destruct (print_groups _ _ _ cs []) as [o gs]. cbn. by rewrite app_assoc.
Qed.

Lemma shown_visible c cs : exists x, x ∈ shown c cs /\ x <> newline.
Proof.
  unfold shown, printWithComments. destruct (print_groups _ _ _ _ _) as [o gs]. cbn.
  destruct (printed (trim Line line c).2 gs) as (x & Hx & Hne). exists x. rewrite elem_of_app. tauto.
Qed.

(** A walker that shows, first of all, what a chooser gives; and then maybe more. *)
Definition shows (w : linePrinter -> linePrinter) (c : option node -> option node) : Prop :=
  (forall lp, exists rest, output (w lp) = output lp ++ rest)
  /\ forall p cs, match c p with
                 | Some d => exists rest, output (w (mkPrinter p [] cs)) = shown d cs ++ rest
                 | None => w (mkPrinter p [] cs) = mkPrinter p [] cs
                 end.

Lemma shows_all l : Forall (fun n => shows (walk n) (chosen n)) l -> shows (visit_all walk l) (first_of chosen l).
Proof.
  induction 1 as [|n l [Hg Hc] _ [IHg IHc]].
  - split; [|done]. intros lp. exists []. by rewrite app_nil_r.
  - split.
    + intros lp. destruct (Hg lp) as [r1 H1], (IHg (walk n lp)) as [r2 H2]. exists (r1 ++ r2).
      change (visit_all walk (n :: l) lp) with (visit_all walk l (walk n lp)). by rewrite H2, H1, app_assoc.
    + intros p cs. cbn [first_of foldr]. specialize (Hc p cs).
      change (visit_all walk (n :: l) ?lp) with (visit_all walk l (walk n lp)).
      destruct (chosen n p) as [d|]; [|rewrite Hc; apply IHc].
      destruct Hc as [r1 H1]. destruct (IHg (walk n (mkPrinter p [] cs))) as [r2 H2]. exists (r1 ++ r2).
      by rewrite H2, H1, app_assoc.
Qed.

Lemma leave_out lp : exists rest, output (leave Line Column Fprint line lp) = output lp ++ rest.
Proof.
  unfold leave. destruct (output lp) eqn:Ho; [|exists []; by rewrite app_nil_r]. rewrite emit_out. by eexists.
Qed.

Lemma shows_within n w c : shows w c -> shows (within Line Column Fprint line n w) (chosen_within n c).
Proof.
  intros [Hg Hc]. split.
  - intros lp. unfold within, Visit. destruct (covers n); [|exists []; by rewrite app_nil_r].
    set (lp' := if is_Stmt n && _ then _ else _). assert (output lp' = output lp) as <- by (subst lp'; by destruct (_ && _)).
    assert (forall q, exists rest, output (leave Line Column Fprint line (w q)) = output q ++ rest) as Hl.
    { intros q. destruct (Hg q) as [r1 H1], (leave_out (w q)) as [r2 H2]. exists (r1 ++ r2). by rewrite H2, H1, app_assoc. }
    destruct (Line (Pos n) =? line); [|apply Hl].
    pose proof (emit_out lp') as He. destruct (emit _ _ _ _ lp') as [[] q]; cbn in *; [by eexists|].
    destruct (Hl q) as [r2 H2]. rewrite H2, He, <- app_assoc. by eexists.
  - intros p cs. unfold within, Visit, chosen_within. destruct (covers n); [|done]. cbn [output Comments].
    set (p' := if is_Stmt n && _ then Some n else p).
    assert ((if is_Stmt n && negb (is_Block n) then mkPrinter (Some n) [] cs else mkPrinter p [] cs)
            = mkPrinter p' [] cs) as -> by (subst p'; by destruct (_ && _)).
    assert (p' = None -> p = None) as Hp by (subst p'; by destruct (_ && _)).
    clearbody p'. destruct p' as [d|]; [|rewrite Hp by done].
    + destruct (Line (Pos n) =? line).
      * exists []. rewrite app_nil_r. pose proof (emit_out (mkPrinter (Some d) [] cs)) as He.
        destruct (emit _ _ _ _ _) as [b q] eqn:Hq. cbn in He.
        unfold emit in Hq. cbn [pending] in Hq. injection Hq as <- <-. exact He.
      * specialize (Hc (Some d) cs). destruct (c (Some d)) as [d'|]; cbn [default].
        -- destruct Hc as [r1 H1], (leave_out (w (mkPrinter (Some d) [] cs))) as [r2 H2].
           exists (r1 ++ r2). by rewrite H2, H1, app_assoc.
        -- rewrite Hc. exists []. unfold leave. cbn [output]. by rewrite emit_out, app_nil_r.
    + assert (forall b, (let '(below, lp) := if b : bool then
                  let '(done, lp) := emit Line Column Fprint line (mkPrinter None [] cs) in (negb done, lp)
                  else (true, mkPrinter None [] cs) in
                 if below then leave Line Column Fprint line (w lp) else lp)
              = leave Line Column Fprint line (w (mkPrinter None [] cs))) as -> by (by intros []).
      specialize (Hc None cs). destruct (c None) as [d'|]; [|by rewrite Hc].
      destruct Hc as [r1 H1], (leave_out (w (mkPrinter None [] cs))) as [r2 H2].
      exists (r1 ++ r2). by rewrite H2, H1, app_assoc.
Qed.

Lemma shows_Walk n : shows (walk n) (chosen n).
Proof.
  induction n as [n IH] using node_kids_ind.
  destruct (shows_within n _ _ (shows_all _ IH)) as [Hg Hc]. split.
  - intros lp. rewrite Walk_kids. apply Hg.
  - intros p cs. rewrite chosen_kids, Walk_kids. apply Hc.
Qed.

(** ** What is chosen *)

Inductive sub (n : node) : node -> Prop :=
  | sub_refl : sub n n
  | sub_kid k d : k ∈ kids n -> sub k d -> sub n d.
Definition statement (n : node) : bool := is_Stmt n && negb (is_Block n).

(** A node's lines take in those of the statements below it, as in a tree that was
    parsed (its comments may come before). *)
Definition nested (n : node) : Prop :=
  forall a b, sub n a -> sub a b -> statement b = true ->
    Line (Pos a) <= Line (Pos b) /\ Line (End_ b) <= Line (End_ a).

Lemma nested_kid n k : nested n -> k ∈ kids n -> nested k.
Proof. intros Hn Hk a b Ha. apply Hn. by apply (sub_kid n k). Qed.

Lemma first_of_Some c l p d : first_of c l p = Some d -> exists k, k ∈ l /\ c k p = Some d.
Proof.
  unfold first_of. induction l as [|k l IH]; [done|]. cbn. destruct (c k p) as [d'|] eqn:Hk.
  - intros [= ->]. exists k. split; [left|done].
  - intros (k' & Hin & Hc)%IH. exists k'. split; [by right|done].
Qed.

Lemma first_of_None c l p k : first_of c l p = None -> k ∈ l -> c k p = None.
Proof.
  unfold first_of. intros Hn Hk. induction Hk as [k l|k k' l _ IH]; cbn in Hn.
  - by destruct (c k p).
  - destruct (c k' p); [done|]. by apply IH.
Qed.

Lemma chosen_sound n p d : chosen n p = Some d -> p = Some d \/ sub n d /\ statement d = true /\ covers d = true.
Proof.
  revert p d. induction n as [n IH] using node_kids_ind. intros p d. rewrite chosen_kids. unfold chosen_within.
  destruct (covers n) eqn:Hcov; [|done]. set (p' := if is_Stmt n && _ then Some n else p).
  assert (forall e, p' = Some e -> p = Some e \/ sub n e /\ statement e = true /\ covers e = true) as Hp.
  { intros e. subst p'. fold (statement n). destruct (statement n) eqn:Hs; [|by left].
    intros [= ->]. right. split_and!; [constructor|done..]. }
  assert (forall q, first_of chosen (kids n) q = Some d ->
            q = Some d \/ sub n d /\ statement d = true /\ covers d = true) as Hk.
  { intros q (k & Hin & Hc)%first_of_Some. rewrite Forall_forall in IH.
    destruct (IH k Hin _ _ Hc) as [?|(? & ? & ?)]; [by left|]. right. split_and!; [by apply (sub_kid n k)|done..]. }
  destruct p' as [e|] eqn:He.
  - destruct (Line (Pos n) =? line); [intros [= <-]; by apply Hp|].
    destruct (first_of chosen (kids n) (Some e)) as [d'|] eqn:Hf; cbn [default]; intros [= ->]; [|by apply Hp].
    destruct (Hk _ Hf) as [[= ->]|?]; [by apply Hp|by right].
  - intros [?|?]%Hk; [done|by right].
Qed.

Lemma chosen_complete n p d :
  nested n -> sub n d -> statement d = true -> covers d = true -> chosen n p <> None.
Proof.
  intros Hn Hs. revert p Hn. induction Hs as [d|n k d Hk Hs IH]; intros p Hn Hst Hcov; rewrite chosen_kids; unfold chosen_within.
  - rewrite Hcov. fold (statement d). rewrite Hst. by destruct (Line _ =? line).
  - assert (covers n = true) as ->.
    { destruct (Hn n d) as [H1 H2]; [constructor|by apply (sub_kid n k)|done|].
      revert Hcov. unfold Goprinter.covers. rewrite !andb_true_iff, !Nat.leb_le. lia. }
    destruct (if is_Stmt n && _ then _ else _) as [c|]; [by destruct (Line _ =? line)|].
    intros Hf. apply (IH None (nested_kid _ _ Hn Hk) Hst Hcov). by apply (first_of_None _ _ _ _ Hf).
Qed.

Lemma skip_newlines_visible s : (exists c, c ∈ s /\ c <> newline) -> skip_newlines s <> [].
Proof.
  induction s as [|c s IH]; intros (x & Hx & Hne); [by apply elem_of_nil in Hx|]. cbn.
  case_decide; [|done]. apply IH. exists x. apply elem_of_cons in Hx as [->|]; done.
Qed.

Lemma no_trailing_visible s : (exists c, c ∈ s /\ c <> newline) -> no_trailing s <> [].
Proof.
  intros (x & Hx & Hne). unfold no_trailing. intros He%(f_equal (@rev byte)). rewrite rev_involutive in He.
  eapply skip_newlines_visible; [|exact He]. exists x. split; [|done].
  apply list_elem_of_In, in_rev. rewrite rev_involutive. by apply list_elem_of_In.
Qed.
End Shown.

(** [trimList], by the longest prefix of the statements that start on the line. *)
Lemma trimList_spec trim l l1 l2 :
  Forall (fun n => (trim n).1 = true) l1 -> l = l1 ++ l2 ->
  (forall n l', l2 = n :: l' -> (trim n).1 = false) ->
  trimList trim l = map (fun n => (trim n).2) l1 ++ match l2 with [] => [] | n :: l' => emptyStmt n :: l' end.
Proof.
  intros Hl1 -> Hl2. induction Hl1 as [|n l1 Hn _ IH]; cbn [app map trimList].
  - destruct l2 as [|n l2]; [done|]. specialize (Hl2 n l2 eq_refl). cbn. by destruct (trim n) as [[] n'].
  - destruct (trim n) as [[] n'] eqn:Ht; [|done]. cbn [snd]. f_equal. exact IH.
Qed.

(** Under the line of a failed check, the log shows a statement of the file that covers
    it, with its comments, before anything else; or three dots when no statement does. *)
Theorem logCode_shows parse Fprint wd path line l f :
  (forall n gs, exists c, c ∈ Fprint n gs /\ c <> newline) ->
  parse path = inr f -> nested (fline f) (fnode f) ->
  exists code,
    logCode wd (printLine parse Fprint) path line l
    = log (indented (str "    ") true code) (log (nicePath wd path ++ str ":" ++ decimal line ++ str ":") l)
    /\ ((code = str "..." /\ forall d, sub (fnode f) d -> statement d = true -> covers (fline f) line d = false)
        \/ exists d rest, sub (fnode f) d /\ statement d = true /\ covers (fline f) line d = true
            /\ code = no_trailing (shown (fline f) (fcolumn f) Fprint line d (comments f) ++ rest)).
Proof.
  intros HF Hp Hn. unfold logCode, printLine. rewrite Hp. setoid_rewrite indent_lines.
  eexists. split; [reflexivity|]. unfold show_line.
  pose proof (proj2 (shows_Walk (fline f) (fcolumn f) Fprint line (fnode f)) None (comments f)) as Hs.
  destruct (chosen (fline f) line (fnode f) None) as [d|] eqn:Hc.
  - right. destruct Hs as [rest ->]. exists d, rest.
    destruct (chosen_sound _ _ _ _ _ Hc) as [?|(? & ? & ?)]; [done|]. split_and!; [done..|].
    rewrite decide_False; [done|]. apply no_trailing_visible.
    destruct (shown_visible (fline f) (fcolumn f) Fprint line HF d (comments f)) as (x & Hx & Hne).
    exists x. split; [|done]. apply elem_of_app. by left.
  - left. rewrite Hs. split; [done|]. intros d Hd Hst. apply not_true_is_false. intros Hcov.
    by apply (chosen_complete _ _ _ None d Hn Hd Hst Hcov).
Qed.

(** ** Small trees *)

Module Small.
(** Ten bytes a line; a statement is printed as its first position. *)
Definition Line (p : nat) : nat := p / 10.
Definition Column (p : nat) : nat := p mod 10.
Definition Fprint (n : node) (_ : list group) : bytes := str "@" ++ decimal (Pos n) ++ [newline].

(** [case 6: println(6)] on a line: the clause is shown, though the call is the
    innermost statement there. *)
Lemma not_innermost :
  let call := Other true 15 18 [] in
  let file := Other false 0 29 [Clause 10 [] 14 [call]] in
  chosen Line 1 file None = Some (Clause 10 [] 14 [call]) /\ covers Line 1 call = true.
Proof. done. Qed.

(** Two statements on a line are run together. *)
Lemma two_on_a_line :
  show_line Line Column Fprint 1 (Other false 0 29 [Other true 10 12 []; Other true 14 16 []]) []
  = str "@10" ++ [newline] ++ str "@14".
Proof. by vm_compute. Qed.

(** Only the first statement off the line is replaced by dots: those after it stay. *)
Lemma trim_keeps_the_rest :
  let s p := Other true p (p + 3) [] in
  trim Line 1 (IfStmt 10 [] 14 [s 16; s 20; s 30] 40 None)
  = (true, IfStmt 10 [] 14 [s 16; Dots 20; s 30] 14 None).
Proof. done. Qed.

Lemma logCode_shows_witness : exists code,
  logCode None (printLine (fun _ => inr (mkParsed (Other false 0 29 [Other true 10 15 []]) [] Line Column)) Fprint)
    (str "a.go") 1 (mkLogs [] None)
  = log (indented (str "    ") true code) (log (nicePath None (str "a.go") ++ str ":" ++ decimal 1 ++ str ":") (mkLogs [] None)).
Proof.
  edestruct (logCode_shows (fun _ => inr (mkParsed (Other false 0 29 [Other true 10 15 []]) [] Line Column)) Fprint
               None (str "a.go") 1 (mkLogs [] None)) as (code & H & _).
  - intros n gs. exists "@"%byte. split; [left|done].
  - reflexivity.
  - intros a b Ha Hb Hs. cbn [fline fnode] in *.
    assert (forall x y, sub x y -> kids x = [] -> y = x) as H0.
    { intros x y [|k y' Hk Hy]; [done|]. intros He. rewrite He in Hk. by apply elem_of_nil in Hk. }
    assert (forall y, sub (Other false 0 29 [Other true 10 15 []]) y ->
              y = Other false 0 29 [Other true 10 15 []] \/ y = Other true 10 15 []) as H1.
    { intros y Hy. inversion Hy as [|k y' Hk Hky]; subst; [by left|]. right.
      apply list_elem_of_singleton in Hk as ->. by apply H0. }
    apply H1 in Ha as [->| ->]; [apply H1 in Hb as [->| ->]|apply H0 in Hb as ->; [|done]]; vm_compute; lia.
  - exists code. exact H.
Defined.
End Small.
