(* ===== verification/Gobench.v ===== *)
(** * What a benchmark reports

    Models [mbPerSec] and [timerString] of [Godeps/.../gopkg.in/check.v1/benchmark.go],
    on the timer of [Gotimer]. Floating point numbers, and their texts under [%w.pf], are
    parameters; integers are printed here. *)

From stdpp Require Import pretty.
From S2P Require Import Prelude Gotimer Golog.

(** [%d], and the padding of [%wd]. *)
Definition dec (z : Z) : bytes := if (z <? 0)%Z then str "-" ++ decimal (Z.to_nat (- z)) else decimal (Z.to_nat z).
Definition pad_left (w : nat) (s : bytes) : bytes := replicate (w - length s) " "%byte ++ s.
Definition tab : byte := x09.

Section Report.
(** [float64] of an integer, the operations, [Duration.Seconds], the test for zero, and
    the text of a number in at least [w] bytes with [p] digits after the dot. *)
Context {F : Type} (float64 : Z -> F) (mul div : F -> F -> F) (Seconds : Z -> F) (is_zero : F -> bool).
Context (F_text : nat -> nat -> F -> bytes).

Definition mbPerSec (t : timer) : F :=
  if ((nbytes t <=? 0) || (duration t <=? 0) || (N t <=? 0))%Z then float64 0
  else div (div (mul (float64 (nbytes t)) (float64 (N t))) (float64 1000000)) (Seconds (duration t)).

(** The text of the time for each operation. *)
Definition ns_text (t : timer) : bytes :=
  let nsop := nsPerOp (duration t) (N t) in
  if ((0 <? N t) && (nsop <? 100))%Z then
    if (nsop <? 10)%Z then F_text 13 2 (div (float64 (duration t)) (float64 (N t))) ++ str " ns/op"
    else F_text 12 1 (div (float64 (duration t)) (float64 (N t))) ++ str " ns/op"
  else pad_left 10 (dec nsop) ++ str " ns/op".

Definition timerString (benchMem : bool) (t : timer) : bytes :=
  if (N t <=? 0)%Z then F_text 3 3 (div (float64 (duration t)) (float64 1000000000)) ++ str "s"
  else
    let mbs := mbPerSec t in
    let mb := if negb (is_zero mbs) then tab :: F_text 7 2 mbs ++ str " MB/s" else [] in
    let memStats :=
      if benchMem then
        tab :: (pad_left 8 (dec (Z.quot (i64 (netBytes t)) (N t))) ++ str " B/op")
          ++ tab :: (pad_left 8 (dec (Z.quot (i64 (netAllocs t)) (N t))) ++ str " allocs/op")
      else [] in
    pad_left 8 (dec (N t)) ++ tab :: ns_text t ++ mb ++ memStats.

(** ** The columns *)

(** The ones digit of a number stands in column [n]: a digit, and after it the dot or
    the unit. *)
Definition ones_digit_at (n : nat) (s : bytes) : Prop :=
  exists before c after, s = before ++ c :: after /\ length before = n /\ digit c
    /\ (head after = Some "."%byte \/ head after = Some " "%byte).

Lemma pad_left_ones w s after :
  s <> [] -> Forall digit s -> length s <= w -> head after = Some "."%byte \/ head after = Some " "%byte ->
  ones_digit_at (w - 1) ((replicate (w - length s) " "%byte ++ s) ++ after).
Proof.
  intros Hne Hd Hl Ha. destruct (exists_last Hne) as (s' & c & ->).
  exists (replicate (w - length (s' ++ [c])) " "%byte ++ s'), c, after.
  rewrite length_app in *. cbn in *. split_and!; [by rewrite <- !app_assoc| |by apply Forall_app in Hd as [_ [? _]%Forall_cons_1]|done].
  rewrite length_app, length_replicate. lia.
Qed.

Lemma pretty_length k x s : (x < 10 ^ N.of_nat k)%N -> String.length (pretty_N_go x s) <= String.length s + k.
Proof.
  revert x s. induction k as [|k IH]; intros x s Hx; (destruct (decide (x = 0%N)) as [->|Hne]; [rewrite pretty_N_go_0; lia|]).
  { change (10 ^ N.of_nat 0)%N with 1%N in Hx. lia. }
  rewrite pretty_N_go_step by lia. etransitivity; [apply IH|simpl; lia].
  rewrite Nat2N.inj_succ, N.pow_succ_r' in Hx. apply N.Div0.div_lt_upper_bound. lia.
Qed.

Lemma decimal_length n k : (N.of_nat n < 10 ^ N.of_nat k)%N -> 0 < k -> length (decimal n) <= k.
Proof.
  intros Hn Hk. unfold decimal, pretty, pretty_N.
  assert (forall s, length (str s) = String.length s) as Hl.
  { induction s as [|c s IH]; [done|]. change (str (String c s)) with (Ascii.byte_of_ascii c :: str s). simpl. by rewrite IH. }
  rewrite Hl. case_decide; [simpl; lia|]. by apply (pretty_length k _ "").
Qed.

(** The comment of [timerString] promises that the ones digit lines up in the three
    formats of the time: it stands in column 9, for at most ten digits, whenever the
    text of a small floating point number has at most that many before its dot. *)
Theorem ones_digit_lines_up t :
  (0 < N t)%Z -> (0 <= duration t)%Z -> (nsPerOp (duration t) (N t) < 10 ^ 10)%Z ->
  (forall w p x, exists i f, F_text w p x = pad_left w (i ++ "."%byte :: f)
     /\ i <> [] /\ Forall digit i /\ length f = p /\ length i <= 10) ->
  ones_digit_at 9 (ns_text t).
Proof.
  intros HN Hd Hns HF. unfold ns_text. rewrite (proj2 (Z.ltb_lt 0 (N t)) HN). cbn [andb].
  assert (forall w p x, w = 10 + S p -> ones_digit_at 9 (F_text w p x ++ str " ns/op")) as Hf.
  { intros w p x ->. destruct (HF (10 + S p) p x) as (i & f & -> & Hne & Hi & Hf & Hl). unfold pad_left.
    rewrite length_app. cbn [length]. rewrite Hf.
    replace (10 + S p - (length i + S p)) with (10 - length i) by lia.
    replace ((replicate (10 - length i) " "%byte ++ i ++ "."%byte :: f) ++ str " ns/op")
      with ((replicate (10 - length i) " "%byte ++ i) ++ "."%byte :: (f ++ str " ns/op")) by (by rewrite <- !app_assoc).
    apply (pad_left_ones 10); [done..|by left]. }
  destruct (nsPerOp (duration t) (N t) <? 100)%Z; [destruct (_ <? 10)%Z; by apply Hf|].
  assert (0 <= nsPerOp (duration t) (N t))%Z as H0.
  { unfold nsPerOp. destruct (N t <=? 0)%Z; [done|]. apply Z.quot_pos; lia. }
  unfold dec, pad_left. rewrite (proj2 (Z.ltb_ge _ 0) H0). destruct (decimal_digits (Z.to_nat (nsPerOp (duration t) (N t)))) as [Hdig Hne].
  apply (pad_left_ones 10); [done..| |by right].
  apply decimal_length; [|lia]. change (10 ^ N.of_nat 10)%N with 10000000000%N. lia.
Qed.
End Report.

(** A toy number: thousandths, cut off. *)
Definition toy_text (w p : nat) (x : Z) : bytes := pad_left w (str "7." ++ replicate p "0"%byte).

Lemma ones_digit_lines_up_witness :
  ones_digit_at 9 (ns_text (fun z => z) Z.quot toy_text (mkTimer 0 7000 1000 0 false 0 0 0 0 0)).
Proof.
  apply ones_digit_lines_up; [done..|]. intros w p x. exists (str "7"), (replicate p "0"%byte).
  split_and!; [done..| |apply length_replicate|simpl; lia]. apply Forall_singleton. decide_compute.
Defined.

Example timer_text :
  timerString (fun z => z) Z.mul Z.quot (fun z => z) (fun z => z =? 0)%Z toy_text true (mkTimer 0 500000 1000 0 false 0 0 0 3000 8000)
  = str "    1000" ++ tab :: str "       500 ns/op" ++ tab :: str "       8 B/op" ++ tab :: str "       3 allocs/op".
Proof. by vm_compute. Qed.
